(* ===== verification/_CoqProject ===== *)
-Q . S2P
Prelude.v
CoreTypes.v
ServerError.v
Auth.v
Blobs.v
Hub.v
ServerDb.v
ServerGc.v
ServerApi.v
Ws.v
DbWf.v
GcSpec.v
VersionSpec.v
AccountSpec.v
ServerSystem.v
DeviceSpec.v
Instances.v
Demo.v
ServerTheorems.v
TenantSpec.v
AccountTheorems.v
AuthTheorems.v
Snapshot.v
SnapshotSpec.v
Archive.v
ArchiveSpec.v
IpcFrame.v
Manifest.v
ManifestSpec.v
CoreInstances.v
CoreTheorems.v
LocalState.v
Client.v
ClientSpec.v
Backup.v
Programs.v
Restore.v
ExeIndex.v
ExeSpec.v
Watcher.v
WatcherSpec.v
Steam.v
SteamSpec.v
Scan.v
Paths.v
Config.v
Secrets.v
Engine.v
Catalog.v
EngineOps.v
DaemonWs.v
IpcServer.v
GuiApp.v
ManifestSync.v
Supervisor.v
Startup.v
DaemonInstances.v
ChainSpec.v
RestoreSpec.v
TreeSpec.v
PathsSpec.v
BackupSpec.v
DiskSpec.v
RestoreRun.v
OutboxSpec.v
LibrarySpec.v
FleetSpec.v
DaemonDemo.v
DaemonTheorems.v
FleetTheorems.v
EngineInstances.v
DetectTheorems.v
EngineSpec.v
CatalogSpec.v
SystemSpec.v
EngineDemo.v
DaemonFindings.v
EngineTheorems.v
AppTheorems.v
ClientTheorems.v
