(* ===== verification/Prelude.v ===== *)
(** * Savrr: a verification development

    Savrr backs up the saves of games.  A _server_ (src/crates/savr-server) keeps
    the versions of each game, each an archive in a content-addressed store; a
    _daemon_ on every device (src/crates/savr-daemon) finds the games, watches
    them play, backs their saves up when they stop and restores a version on
    request; a _desktop app_ (src/crates/savr-app) starts the daemon and talks to
    it over a local socket; a _core_ library (src/crates/savr-core) holds what
    they share.  Every file below names the source files it models; definitions
    keep the source's names, prefixed ([client_], [engine_], [file_]...) where
    two components use the same one.

    ** How the parts fit

    The daemon's engine calls the catalog, the backup and the restore; these use
    the local database, the file system, and the server through a REST client.
    The client is proved against the interface [Client.Server] (one HTTP
    exchange, with its laws); [ClientSpec] shows that the server of this
    development, behind a link that may lose requests and answers, is an
    instance, so a theorem on a device and its server composes both models.  The
    engine's theorems hold for every [SecretStore] and [Server].

    ** Files

    Core: [CoreTypes] (types.rs, protocol.rs, hash.rs), [Snapshot] (snapshot.rs),
    [Archive] (archive.rs), [IpcFrame] (ipc.rs), [Manifest] (manifest.rs).

    Server: [ServerError] (error.rs), [Auth] (auth.rs), [Blobs] (blobs.rs), [Hub]
    (hub.rs), [ServerDb] and [ServerGc] (db.rs and the migrations), [ServerApi]
    (api.rs, main.rs), [Ws] (ws.rs).  The state is [ServerApi.AppState]: the
    tables of the database as lists of rows, the blob store as a map from hashes
    to bytes, the hub as a map from accounts to devices to channels.
    [ServerSystem] interleaves requests, socket events, sweeps and restarts; a
    restart is [ServerApi.server_main] on the tables and files it finds.

    Daemon: [LocalState] (state.rs, naming.rs), [Client] (client.rs), [Backup]
    (backup.rs), [Restore] (restore.rs), [ExeIndex] and [Watcher]
    (detection/exe_index.rs, detection/mod.rs), [Steam] (detection/steam.rs),
    [Scan] (scan.rs), [Paths] (paths.rs), [Config] (config.rs), [Secrets]
    (secrets.rs), [Engine], [Catalog] and [EngineOps] (engine.rs), [DaemonWs]
    (ws.rs), [IpcServer] (ipc.rs), [ManifestSync] (manifest_sync.rs, logs.rs),
    autostart.rs at the end of [Config],
    [Startup] (main.rs and the event loop).  The state grows by layers: [Daemon]
    (database, archives, client), [Restorer] (with scratch space and disk),
    [Engine], and [System] (with what the event loop has read and spawned).  The
    socket file that several daemons contend for is [IpcServer.Endpoint].

    App: [GuiApp] (ipc_client.rs, commands.rs, error.rs), [Supervisor] (daemon.rs,
    lib.rs), where [App] is the supervised daemon and [Desktop] the app around it.

    Lemmas are in the files named [...Spec], [DbWf], [Programs] (what a program of
    the monad keeps and returns) and [RestoreRun]; of them [LibrarySpec]
    and [FleetSpec] relate devices to the versions a server holds; concrete
    instances of third-party code in [Instances], [CoreInstances],
    [DaemonInstances] and [EngineInstances]; worked runs in [Demo], [DaemonDemo]
    and [EngineDemo]; theorems in the files named [...Theorems] and [...Findings].

    ** What the theorems show

    - [ServerTheorems]: recording a version is a compare-and-swap on the game's
      head that never drops an upload; in every reachable state each version's
      archive is on disk; a sweep keeps heads, unresolved tips and the retention
      window, and terminates; resolving a conflict moves the head.
    - [AccountTheorems], [AuthTheorems]: only an active device with a live token
      is served; a request touches its own account only; pairing codes are used
      once and guessed at most five times a window; revocation is final; config
      edits are never lost; a restart of the server keeps tokens, sessions and
      the password.
    - [CoreTheorems]: archives and frames read back what was written; an archive
      never writes outside its directory; a diff is exactly the change; a
      template expands to what its placeholders say.
    - [DaemonTheorems]: a restore puts exactly the version's files in place, or
      refuses before it touches anything; backups keep the diff base and the
      archives fit the versions they are sent as; the chain of a version is
      found or refused; the outbox keeps what was not answered.
    - [FleetTheorems]: whatever devices back up, drain and restore over lossy
      links, a version one of them got recorded, at once or out of its outbox, is
      restored by any other with the contents the first had; an upload leaves an
      outbox only when the server has recorded it.  The state is [Fleet], the
      server and its devices at rest; [fleet_step] is one run of one device, or a
      sweep that takes no parent of a differential that stays and nothing a device
      refers to.  What another sweep breaks, and a drain after a later backup of
      the same game went through, is shown in [DaemonFindings].
    - [DetectTheorems]: executables and folders identify games; the watcher
      implements one small automaton per game; Valve's text format parses back;
      the saves of a game lie under its anchor.
    - [EngineTheorems]: over any run of the daemon's tasks only restores write
      saves, and none while the game plays; the running set and the backups are
      what the event bus says; the catalog lists the games it should, under ids
      that do not change; pairing lasts; config edits adopt the server's answer.
    - [AppTheorems], [ClientTheorems]: a GUI command gets the engine's answer; no
      daemon is left behind by a quit, and the window and the tray leave it alone;
      one daemon answers on the endpoint as long as start-ups do not overlap; the
      manifest cache stays usable; a stale token is refreshed once.
    - [DaemonFindings]: concrete runs of the daemon in which the code does
      what its comments rule out.

    ** Conventions

    A fallible function returns [result]; a handler that changes state returns
    the state too, on its error paths as well ([outcome], and the monad [M] of
    [Client]).  Integers are [Z] or [N] with the code's bounds, saturation and
    wrap-around written out where it has them; a timestamp is its nanoseconds.
    Clocks, fresh ids, random bytes and what the platform answers are arguments,
    gathered in the records [ServerApi.Env], [Backup.BackupEnv] and
    [Engine.Readings].  The order in which a hash map yields its entries is the
    class [HashIter], so that no theorem depends on one.  Third-party code
    (argon2, jsonwebtoken, blake3, uuid, glob, tar, zstd, serde, the keychain,
    YAML and TOML) is a class whose laws state documented behaviour, and each law
    has an executable instance.

    ** Fuel

    [build_chain] walks parents with [2 + length versions] steps: more would be a
    cycle, on which the code does not end and the model answers [Hang];
    [restore_chain_found_or_refused] shows that the histories a server keeps have
    none; the KeyValues lexer and parser have the
    length of the text and twice the number of tokens, and [key_values_parse]
    shows they never run out; [await_reply], [serve_requests] and [read_frames]
    have the length of the stream, of which every frame takes at least four
    bytes.

    ** Not modelled

    A handler is one step: two handlers of the daemon do not interleave inside,
    though the server's racing uploads and the crash points of a backup are
    modelled as sequences of steps.  In [FleetTheorems] a device's run is not
    interleaved with another's.  Statements on the daemon's database do not
    fail, except the read of a game's id and the reads the code tells apart.
    The endpoint is that of a Unix system, where a socket file outlives its
    daemon; a Windows pipe goes with its process.  Left out are the bounded queues
    between tasks, logging, the opening of the databases and their pools, the
    stubs of the registry capture and of the daemon's own tray, Tauri's builder
    calls, and the Svelte interface, which keeps no state of the program's own. *)

From Stdlib Require Export ZArith Lia.
From Stdlib Require DecimalString.
From stdpp Require Export base tactics option list gmap strings fin_maps sorting numbers.

#[global] Set Default Goal Selector "!".
#[global] Set Warnings "-clear-no-such-hyp".

Declare Scope savr_scope.
Delimit Scope savr_scope with savr.

(** ** Results: Rust's [Result<A, E>] *)

Inductive result (E A : Type) : Type :=
  | Ok (a : A)
  | Err (e : E).
Arguments Ok {E A} a.
Arguments Err {E A} e.

#[export] Instance result_ret E : MRet (result E) := @Ok E.
#[export] Instance result_bind E : MBind (result E) :=
  λ _ _ f r, match r with Ok a => f a | Err e => Err e end.
#[export] Instance result_fmap E : FMap (result E) :=
  λ _ _ f r, match r with Ok a => Ok (f a) | Err e => Err e end.

#[export] Instance result_eq_dec {E A} `{EqDecision E, EqDecision A} :
  EqDecision (result E A).
Proof. solve_decision. Defined.

Definition is_ok {E A} (r : result E A) : bool :=
  match r with Ok _ => true | Err _ => false end.

(** [Option::ok_or]. *)
Definition ok_or {E A} (o : option A) (e : E) : result E A :=
  match o with Some a => Ok a | None => Err e end.

(** A fallible operation on a state: the state it leaves and what it returns. *)
Definition outcome (S E A : Type) : Type := result E A * S.

Lemma ok_inj {E A} (a b : A) : @Ok E A a = Ok b → a = b.
Proof. congruence. Qed.

(** ** Machine integers *)

Definition u32_max : Z := 4294967295.
Definition i64_modulus : Z := 18446744073709551616.
Definition i64_half : Z := 9223372036854775808.

(** [x as i64] for a [u64], and [x as u64] for an [i64]: the same 64 bits read
    with the other signedness. *)
Definition u64_as_i64 (x : Z) : Z :=
  if decide (x < i64_half)%Z then x else (x - i64_modulus)%Z.
Definition i64_as_u64 (x : Z) : Z :=
  if decide (x < 0)%Z then (x + i64_modulus)%Z else x.

Definition is_u64 (x : Z) : Prop := (0 <= x < i64_modulus)%Z.
Definition is_i64 (x : Z) : Prop := (- i64_half <= x < i64_half)%Z.

Lemma u64_i64_roundtrip x : is_u64 x → i64_as_u64 (u64_as_i64 x) = x.
Proof.
  unfold is_u64, i64_as_u64, u64_as_i64, i64_half, i64_modulus. intros.
  repeat case_decide; lia.
Qed.

Lemma i64_u64_roundtrip x : is_i64 x → u64_as_i64 (i64_as_u64 x) = x.
Proof.
  unfold is_i64, i64_as_u64, u64_as_i64, i64_half, i64_modulus. intros.
  repeat case_decide; lia.
Qed.

Lemma i64_as_u64_nonneg x : (0 <= x)%Z → i64_as_u64 x = x.
Proof. unfold i64_as_u64. intros. case_decide; lia. Qed.

(** [usize::saturating_sub]. On [nat] it is truncated subtraction. *)
Definition saturating_sub (a b : nat) : nat := a - b.

(** ** Hash maps

    The order in which a [HashMap] yields its entries is a parameter. *)

Class HashIter := { hash_iter {K} `{Countable K} {V} : gmap K V → list (K * V) }.
Class HashIterLaws `{HashIter} : Prop := {
  hash_iter_perm {K} `{Countable K} {V} (m : gmap K V) : hash_iter m ≡ₚ map_to_list m;
}.

Lemma elem_of_hash_iter `{HashIterLaws} {K} `{Countable K} {V} (m : gmap K V) k v :
  (k, v) ∈ hash_iter m ↔ m !! k = Some v.
Proof. rewrite hash_iter_perm. apply elem_of_map_to_list. Qed.

Lemma hash_iter_keys `{HashIterLaws} {K} `{Countable K} {V} (m : gmap K V) : NoDup (map fst (hash_iter m)).
Proof. rewrite hash_iter_perm. apply NoDup_fst_map_to_list. Qed.

(** ** Lists as SQL tables

    A table is the list of its rows in insertion order: [SELECT .. WHERE] is
    [filter], [UPDATE .. WHERE] is [update_where], [DELETE .. WHERE] is a
    [filter] on the negation. *)

Section Tables.
Context {R : Type}.

Definition update_where (p : R → bool) (f : R → R) (t : list R) : list R :=
  map (λ r, if p r then f r else r) t.

Definition count_where (p : R → bool) (t : list R) : nat :=
  length (List.filter p t).

Definition fetch_optional (p : R → bool) (t : list R) : option R :=
  List.find p t.

Lemma update_where_length p f t : length (update_where p f t) = length t.
Proof. apply length_map. Qed.

Lemma elem_of_update_where p f t r :
  r ∈ update_where p f t ↔ ∃ r0, r0 ∈ t ∧ r = if p r0 then f r0 else r0.
Proof.
  unfold update_where. rewrite list_elem_of_fmap.
  split; intros (r0 & ? & ?); eauto.
Qed.

Lemma map_update_where {B} (g : R → B) p f t :
  (∀ r, g (f r) = g r) → map g (update_where p f t) = map g t.
Proof.
  intros Hg. unfold update_where. rewrite map_map. apply map_ext.
  intros r. destruct (p r); auto.
Qed.

Lemma fetch_optional_Some p t r :
  fetch_optional p t = Some r → r ∈ t ∧ p r = true.
Proof. intros H. apply find_some in H. by rewrite list_elem_of_In. Qed.

Lemma fetch_optional_cons p r t : fetch_optional p (r :: t) = if p r then Some r else fetch_optional p t.
Proof. done. Qed.

Lemma fetch_optional_None p t :
  fetch_optional p t = None ↔ ∀ r, r ∈ t → p r = false.
Proof.
  split.
  - intros H r Hr. apply (find_none _ _ H). by apply list_elem_of_In.
  - intros H. destruct (fetch_optional p t) as [r|] eqn:E; [|done].
    apply fetch_optional_Some in E as [Hin Hp]. rewrite H in Hp; done.
Qed.

Lemma fetch_optional_is_Some p t r :
  r ∈ t → p r = true → ∃ r', fetch_optional p t = Some r' ∧ r' ∈ t ∧ p r' = true.
Proof.
  intros Hin Hp. destruct (fetch_optional p t) as [r'|] eqn:E.
  - apply fetch_optional_Some in E as [??]. eauto.
  - rewrite fetch_optional_None in E. rewrite E in Hp; done.
Qed.

Lemma count_where_app p t1 t2 :
  count_where p (t1 ++ t2) = count_where p t1 + count_where p t2.
Proof. unfold count_where. by rewrite filter_app, length_app. Qed.

Lemma count_where_cons p r t :
  count_where p (r :: t) = (if p r then 1 else 0) + count_where p t.
Proof. unfold count_where. simpl. by destruct (p r). Qed.

Lemma count_where_0 p t :
  count_where p t = 0 ↔ ∀ r, r ∈ t → p r = false.
Proof.
  induction t as [|x t IH].
  - split; [intros _ r Hr; by apply elem_of_nil in Hr | done].
  - rewrite count_where_cons. split.
    + intros H r Hr. apply elem_of_cons in Hr as [->|Hr].
      * destruct (p x); [lia|done].
      * apply IH; [|done]. destruct (p x); lia.
    + intros H. rewrite (H x) by apply list_elem_of_here. simpl.
      apply IH. intros r Hr. apply H. by apply list_elem_of_further.
Qed.

Lemma elem_of_filter_bool (p : R → bool) t r :
  r ∈ List.filter p t ↔ r ∈ t ∧ p r = true.
Proof. rewrite !list_elem_of_In. apply filter_In. Qed.

Lemma count_where_ext p q t :
  (∀ r, r ∈ t → p r = q r) → count_where p t = count_where q t.
Proof.
  induction t as [|x t IH]; intros H; [done|].
  rewrite !count_where_cons, (H x) by apply list_elem_of_here.
  rewrite IH; [done|]. intros r Hr. apply H. by apply list_elem_of_further.
Qed.

Lemma count_where_update p q f t :
  (∀ r, p (f r) = p r) → count_where p (update_where q f t) = count_where p t.
Proof.
  intros Hf. induction t as [|r t IH]; [done|]. simpl.
  rewrite !count_where_cons, IH. destruct (q r); by rewrite ?Hf.
Qed.
End Tables.

Section TableKeys.
Context {R K : Type} `{EqDecision K} (key : R → K).

(** Rows with distinct keys: a primary key determines its row. *)
Lemma NoDup_key_inj t r1 r2 :
  NoDup (map key t) → r1 ∈ t → r2 ∈ t → key r1 = key r2 → r1 = r2.
Proof.
  induction t as [|x t IH]; simpl; intros Hnd H1 H2 Hk.
  - by apply elem_of_nil in H1.
  - apply list.NoDup_cons in Hnd as [Hni Hnd].
    apply elem_of_cons in H1 as [->|H1]; apply elem_of_cons in H2 as [->|H2]; auto.
    + exfalso. apply Hni. rewrite Hk. by apply list_elem_of_fmap_2.
    + exfalso. apply Hni. rewrite <- Hk. by apply list_elem_of_fmap_2.
Qed.

Lemma fetch_key t r :
  NoDup (map key t) → r ∈ t →
  fetch_optional (λ x, bool_decide (key x = key r)) t = Some r.
Proof.
  intros Hnd Hin.
  destruct (fetch_optional_is_Some (λ x, bool_decide (key x = key r)) t r Hin)
    as (r' & -> & Hin' & Hp); [by apply bool_decide_eq_true|].
  apply bool_decide_eq_true in Hp. f_equal. eauto using NoDup_key_inj.
Qed.

Lemma NoDup_key_filter (p : R → bool) t :
  NoDup (map key t) → NoDup (map key (List.filter p t)).
Proof.
  induction t as [|x t IH]; simpl; intros Hnd; [done|].
  apply list.NoDup_cons in Hnd as [Hni Hnd]. destruct (p x); simpl; auto.
  apply list.NoDup_cons. split; [|auto]. intros Hin. apply Hni.
  apply list_elem_of_fmap in Hin as (y & -> & Hy).
  apply elem_of_filter_bool in Hy as [Hy _]. by apply list_elem_of_fmap_2.
Qed.

Lemma NoDup_key_snoc t r :
  NoDup (map key t) → (∀ x, x ∈ t → key x ≠ key r) → NoDup (map key (t ++ [r])).
Proof.
  intros Hnd Hf. rewrite map_app. apply list.NoDup_app. split; [done|]. split.
  - intros k Hk Hk'. simpl in Hk'. apply list_elem_of_singleton in Hk' as ->.
    apply list_elem_of_fmap in Hk as (x & Hx & Hin). eapply Hf; eauto.
  - simpl. apply list.NoDup_singleton.
Qed.

(** Removing the one row with a given key lowers a count by that row's share. *)
Lemma count_where_remove_key (p : R → bool) t r :
  NoDup (map key t) → r ∈ t →
  count_where p t =
    (if p r then 1 else 0) +
    count_where p (List.filter (λ x, negb (bool_decide (key x = key r))) t).
Proof.
  induction t as [|x t IH]; simpl; intros Hnd Hin; [by apply elem_of_nil in Hin|].
  apply list.NoDup_cons in Hnd as [Hni Hnd]. rewrite count_where_cons.
  apply elem_of_cons in Hin as [->|Hin].
  - rewrite bool_decide_eq_true_2 by done. simpl. f_equal.
    replace (List.filter _ t) with t; [done|].
    symmetry. apply forallb_filter_id. apply forallb_forall.
    intros y Hy. apply list_elem_of_In in Hy.
    apply negb_true_iff, bool_decide_eq_false. intros Hk. apply Hni.
    rewrite <- Hk. by apply list_elem_of_fmap_2.
  - rewrite (bool_decide_eq_false_2 (key x = key r)).
    + simpl. rewrite count_where_cons, (IH Hnd Hin). lia.
    + intros Hk. apply Hni. rewrite Hk. by apply list_elem_of_fmap_2.
Qed.
End TableKeys.

(** ** Strings in byte order, and BTreeMap *)

(** SQLite's default collation and Rust's [Ord] on [str] compare UTF-8 bytes. *)
Fixpoint string_le (a b : string) : bool :=
  match a, b with
  | EmptyString, _ => true
  | String _ _, EmptyString => false
  | String x a', String y b' =>
    let m := Ascii.nat_of_ascii x in let n := Ascii.nat_of_ascii y in
    if (m <? n)%nat then true else if (n <? m)%nat then false else string_le a' b'
  end.

Lemma nat_of_ascii_inj x y : Ascii.nat_of_ascii x = Ascii.nat_of_ascii y → x = y.
Proof. intros E. rewrite <- (Ascii.ascii_nat_embedding x), E. apply Ascii.ascii_nat_embedding. Qed.

Lemma string_le_total a b : string_le a b = true ∨ string_le b a = true.
Proof.
  revert b. induction a as [|x a IH]; intros [|y b]; simpl; auto.
  destruct (Nat.ltb_spec (Ascii.nat_of_ascii x) (Ascii.nat_of_ascii y)); auto.
  destruct (Nat.ltb_spec (Ascii.nat_of_ascii y) (Ascii.nat_of_ascii x)); auto.
Qed.

Lemma string_le_trans a b c : string_le a b = true → string_le b c = true → string_le a c = true.
Proof.
  revert b c. induction a as [|x a IH]; intros [|y b] [|z c]; simpl; try done.
  repeat match goal with |- context [(?m <? ?n)%nat] => destruct (Nat.ltb_spec m n) end; try (done || lia).
  apply IH.
Qed.

Lemma string_le_antisym a b : string_le a b = true → string_le b a = true → a = b.
Proof.
  revert b. induction a as [|x a IH]; intros [|y b]; simpl; try done.
  repeat match goal with |- context [(?m <? ?n)%nat] => destruct (Nat.ltb_spec m n) end; try (done || lia).
  intros H1 H2. f_equal; [apply nat_of_ascii_inj; lia|auto].
Qed.

Lemma append_cons c a b : String c a +:+ b = String c (a +:+ b).
Proof. done. Qed.

Lemma append_nil_l (b : string) : "" +:+ b = b.
Proof. done. Qed.

Lemma append_assoc (a b c : string) : (a +:+ b) +:+ c = a +:+ (b +:+ c).
Proof. induction a as [|x a IH]; [done|]. rewrite !append_cons. by rewrite IH. Qed.

Lemma elem_of_concat_map {X Y} (g : X → list Y) l i :
  i ∈ concat (map g l) ↔ ∃ x, x ∈ l ∧ i ∈ g x.
Proof.
  rewrite <- flat_map_concat_map, list_elem_of_In, in_flat_map.
  by setoid_rewrite list_elem_of_In.
Qed.

(** [str::strip_prefix]. *)
Fixpoint strip_prefix (p s : string) : option string :=
  match p, s with
  | EmptyString, _ => Some s
  | String a p', String b s' => if decide (a = b) then strip_prefix p' s' else None
  | String _ _, EmptyString => None
  end.

(** [str::parse::<u64>]. *)
Definition u64_parse (s : string) : option Z :=
  match DecimalString.NilZero.uint_of_string (default s (strip_prefix "+" s)) with
  | Some d => let n := Z.of_N (N.of_uint d) in if decide (is_u64 n) then Some n else None
  | None => None
  end.

(** The variables of a process. *)
Abbreviation Environment := (string → option string).

(** [str::starts_with] and [str::ends_with]. *)
Definition starts_with (pre s : string) : bool := bool_decide (is_Some (strip_prefix pre s)).
Definition ends_with (suf s : string) : bool :=
  bool_decide (String.substring (String.length s - String.length suf) (String.length suf) s = suf).

Lemma strip_prefix_app p s : strip_prefix p (p +:+ s) = Some s.
Proof. induction p as [|c p IH]; simpl; [done|]. by rewrite decide_True. Qed.

#[global] Arguments strip_prefix _ _ : simpl never.

Section BTree.
Context {V : Type}.

(** [BTreeMap<String, V>] is its finite map; iteration is in key order. *)
Definition key_le (a b : string * V) : Prop := string_le (fst a) (fst b) = true.
#[export] Instance key_le_dec : RelDecision key_le := λ a b, bool_eq_dec (string_le (fst a) (fst b)) true.
#[export] Instance key_le_total : Total key_le.
Proof. intros a b. apply string_le_total. Qed.
#[export] Instance key_le_trans : Transitive key_le.
Proof. intros a b c. apply string_le_trans. Qed.

Definition btree_iter (m : gmap string V) : list (string * V) := merge_sort key_le (map_to_list m).
Definition btree_values (m : gmap string V) : list V := map snd (btree_iter m).

Lemma elem_of_btree_iter m k v : (k, v) ∈ btree_iter m ↔ m !! k = Some v.
Proof. unfold btree_iter. rewrite merge_sort_Permutation. apply elem_of_map_to_list. Qed.

Lemma btree_iter_keys m : NoDup (map fst (btree_iter m)).
Proof.
  unfold btree_iter. rewrite (Permutation_map fst (merge_sort_Permutation key_le _)).
  apply NoDup_fst_map_to_list.
Qed.

Lemma btree_iter_sorted m : StronglySorted key_le (btree_iter m).
Proof. apply (StronglySorted_merge_sort key_le). Qed.
End BTree.

(** ** Maps built by folding over a list *)

Section Folds.
Context {R K V : Type} `{Countable K}.

(** Inserting rows with distinct keys: each key maps to its row's value. *)
Lemma foldl_insert_lookup (key : R → K) (val : R → V) (l : list R) (m : gmap K V) (k : K) :
  NoDup (map key l) →
  foldl (λ m r, <[key r := val r]> m) m l !! k =
  match fetch_optional (λ r, bool_decide (key r = k)) l with Some r => Some (val r) | None => m !! k end.
Proof.
  revert m. induction l as [|r l IH]; intros m Hnd; simpl; [done|].
  simpl in Hnd. apply list.NoDup_cons in Hnd as [Hni Hnd]. rewrite IH by done.
  case_bool_decide as E; [|by destruct (fetch_optional _ _); rewrite ?lookup_insert_ne].
  destruct (fetch_optional _ l) as [x|] eqn:Ef.
  - apply fetch_optional_Some in Ef as [Hx Ex]. apply bool_decide_eq_true in Ex. exfalso.
    apply Hni. rewrite E, <- Ex. by apply list_elem_of_fmap_2.
  - rewrite <- E. apply lookup_insert_eq.
Qed.

Lemma foldl_delete_lookup (ks : list K) (m : gmap K V) (k : K) :
  foldl (λ m k, delete k m) m ks !! k = if decide (k ∈ ks) then None else m !! k.
Proof.
  revert m. induction ks as [|x ks IH]; intros m; cbn [foldl].
  - rewrite decide_False; [done|apply not_elem_of_nil].
  - rewrite IH. destruct (decide (k ∈ ks)) as [Hk|Hk].
    + by rewrite decide_True by (by apply list_elem_of_further).
    + destruct (decide (k = x)) as [->|Hne].
      * rewrite decide_True by apply list_elem_of_here. apply lookup_delete_eq.
      * rewrite lookup_delete_ne by done. rewrite decide_False; [done|].
        by intros [?|?]%elem_of_cons.
Qed.
End Folds.

(** ** Hints and tactics *)

Create HintDb savr discriminated.
#[export] Hint Resolve list_elem_of_here list_elem_of_further : savr.
#[export] Hint Resolve NoDup_key_filter NoDup_key_snoc : savr.
Create Rewrite HintDb savr_rw.
#[export] Hint Rewrite @update_where_length @map_map @length_map : savr_rw.

(** Decide boolean equations that come from [bool_decide], [&&] and [negb]. *)
Ltac bool_simpl :=
  repeat match goal with
  | H : (_ && _)%bool = true |- _ => apply andb_true_iff in H; destruct H
  | H : (_ || _)%bool = false |- _ => apply orb_false_iff in H; destruct H
  | H : negb _ = true |- _ => apply negb_true_iff in H
  | H : negb _ = false |- _ => apply negb_false_iff in H
  | H : bool_decide _ = true |- _ => apply bool_decide_eq_true in H
  | H : bool_decide _ = false |- _ => apply bool_decide_eq_false in H
  end.

(** Split on the scrutinee of the first [match]/[if] of the goal or a hypothesis. *)
Ltac case_match_in H :=
  match type of H with
  | context [match ?x with _ => _ end] => destruct x eqn:?
  end.

Ltac ok_inv :=
  repeat match goal with
  | H : Ok _ = Ok _ |- _ => apply ok_inj in H
  | H : Ok _ = Err _ |- _ => discriminate H
  | H : Err _ = Ok _ |- _ => discriminate H
  | H : Some _ = Some _ |- _ => injection H as H
  | H : (_, _) = (_, _) |- _ => injection H; clear H; intros
  end; subst.
