(* ===== verification/CoreTypes.v ===== *)
(** * savr-core: wire types (src/crates/savr-core/src/types.rs, protocol.rs, hash.rs)

    The records and enums that are the REST bodies, the SQL row payloads and the
    IPC frames, and the parsers of their textual forms.  A [Uuid] is its 128-bit
    value, a [DateTime<Utc>] its nanoseconds since the epoch (RFC 3339 text of
    chrono orders like the instants it writes), a [Blake3Hash] the 256-bit value
    of its 32 bytes.  The blake3 and uuid crates are the parameters of the
    classes [Blake3] and [UuidText]. *)

From S2P Require Import Prelude.

Abbreviation Uuid := N.
Abbreviation GameId := N.
Abbreviation VersionId := N.
Abbreviation DeviceId := N.
Abbreviation AccountId := N.
Abbreviation DateTime := Z.
Abbreviation bytes := (list Byte.byte).

(** ** hash.rs *)

Record Blake3Hash := MkBlake3Hash {
  hash_bits : N;
  hash_256 : Is_true (hash_bits <? 2 ^ 256)%N;
}.

Lemma Blake3Hash_eq h1 h2 : hash_bits h1 = hash_bits h2 → h1 = h2.
Proof.
  destruct h1 as [n1 p1], h2 as [n2 p2]. simpl. intros ->. f_equal. apply proof_irrel.
Qed.

#[export] Instance Blake3Hash_eq_dec : EqDecision Blake3Hash.
Proof.
  refine (λ h1 h2, cast_if (decide (hash_bits h1 = hash_bits h2)));
    [by apply Blake3Hash_eq|by intros ->].
Defined.

(** The operations hash.rs calls on the blake3 crate. *)
Class Blake3 := {
  blake3_hash : bytes → Blake3Hash;
  blake3_to_hex : Blake3Hash → string;
  blake3_from_hex : string → option Blake3Hash;
}.

Definition is_hex_digit (c : Ascii.ascii) : bool :=
  let n := Ascii.nat_of_ascii c in
  ((48 <=? n) && (n <=? 57) || (65 <=? n) && (n <=? 70) || (97 <=? n) && (n <=? 102))%bool.

(** What the crate documents of its hex form: 64 hex digits, read back as the
    same hash. *)
Class Blake3Laws `{Blake3} : Prop := {
  blake3_from_to_hex h : blake3_from_hex (blake3_to_hex h) = Some h;
  blake3_to_hex_len h : String.length (blake3_to_hex h) = 64;
  blake3_to_hex_digits h :
    forallb is_hex_digit (String.list_ascii_of_string (blake3_to_hex h)) = true;
}.

(** The operations the program uses of the uuid crate's text form. *)
Class UuidText := {
  uuid_to_string : Uuid → string;
  uuid_parse : string → option Uuid;
}.
Class UuidTextLaws `{UuidText} : Prop := {
  uuid_parse_to_string u : uuid_parse (uuid_to_string u) = Some u;
}.

Inductive CoreError :=
  | EIo
  | EManifest (m : string)
  | EHash
  | EGlob.

Section Hash.
Context `{B3 : Blake3}.

(** [Blake3Hash::of], [to_hex], [from_hex]. *)
Definition hash_of (b : bytes) : Blake3Hash := blake3_hash b.
Definition to_hex (h : Blake3Hash) : string := blake3_to_hex h.
Definition from_hex (s : string) : result CoreError Blake3Hash :=
  match blake3_from_hex s with Some h => Ok h | None => Err EHash end.

(** [Serialize]/[Deserialize]: the JSON form is the bare hex string. *)
Definition hash_serialize (h : Blake3Hash) : string := to_hex h.
Definition hash_deserialize (s : string) : result CoreError Blake3Hash := from_hex s.

Lemma to_hex_inj `{!Blake3Laws} h1 h2 : to_hex h1 = to_hex h2 → h1 = h2.
Proof.
  unfold to_hex. intros E. apply (f_equal blake3_from_hex) in E.
  rewrite !blake3_from_to_hex in E. congruence.
Qed.
End Hash.

(** ** types.rs *)

Inductive Os := Windows | Linux | Macos.
Inductive SaveTag := SaveT | ConfigT.
Inductive GameSource := ManifestSrc | SteamSrc | CustomSrc.
Inductive VersionKind := Full | Differential.
Inductive ConflictPolicy := Manual | LatestWins | TheirsWins | MineWins.
Inductive AutoPullPolicy := Ask | Auto.

#[export] Instance Os_eq_dec : EqDecision Os. Proof. solve_decision. Defined.
#[export] Instance SaveTag_eq_dec : EqDecision SaveTag. Proof. solve_decision. Defined.
#[export] Instance GameSource_eq_dec : EqDecision GameSource. Proof. solve_decision. Defined.
#[export] Instance VersionKind_eq_dec : EqDecision VersionKind. Proof. solve_decision. Defined.
#[export] Instance ConflictPolicy_eq_dec : EqDecision ConflictPolicy. Proof. solve_decision. Defined.
#[export] Instance AutoPullPolicy_eq_dec : EqDecision AutoPullPolicy. Proof. solve_decision. Defined.

(** [Os::current], by the target the crate is compiled for. *)
Definition Os_current (target_os : string) : Os :=
  if bool_decide (target_os = "windows") then Windows
  else if bool_decide (target_os = "macos") then Macos
  else Linux.

Definition Os_parse (s : string) : option Os :=
  if decide (s = "windows") then Some Windows
  else if decide (s = "linux") then Some Linux
  else if decide (s = "mac" ∨ s = "macos") then Some Macos
  else None.

Definition SaveTag_parse (s : string) : option SaveTag :=
  if decide (s = "save") then Some SaveT
  else if decide (s = "config") then Some ConfigT
  else None.

Record SaveTarget := {
  st_glob : string;
  st_tags : list SaveTag;
  st_os_hint : option Os;
  st_registry : bool;
}.

Record Game := {
  g_id : GameId;
  g_title : string;
  g_source : GameSource;
  g_steam_appid : option Z;
  g_save_targets : list SaveTarget;
  g_running : bool;
  g_last_played : option DateTime;
  g_last_session_secs : option Z;
  g_total_secs : Z;
}.

Record FileEntry := {
  rel_path : string;
  size : Z;
  mtime : Z;
  hash : Blake3Hash;
}.

#[export] Instance FileEntry_eq_dec : EqDecision FileEntry.
Proof. solve_decision. Defined.

Record Version := {
  v_id : VersionId;
  v_game_id : GameId;
  v_device_id : DeviceId;
  v_parent : option VersionId;
  v_kind : VersionKind;
  v_files : list FileEntry;
  v_blob_hash : Blake3Hash;
  v_bytes : Z;
  v_seq : Z;
  v_created_at : DateTime;
}.

Record CreateVersion := {
  cv_parent : option VersionId;
  cv_kind : VersionKind;
  cv_files : list FileEntry;
  cv_blob_hash : Blake3Hash;
  cv_bytes : Z;
  cv_device_id : DeviceId;
}.

Record Device := {
  dev_id : DeviceId;
  dev_name : string;
  dev_os : Os;
  dev_last_seen : DateTime;
}.

Record PathOverride := { po_game_id : GameId; po_globs : list string }.

Record Retention := { full : nat; diff_per_full : nat }.
Definition Retention_default : Retention := {| full := 5; diff_per_full := 10 |}.

Record SyncedConfig := {
  tag : string;
  custom_games : list Game;
  overrides : list PathOverride;
  conflict_policy : ConflictPolicy;
  autopull_policy : AutoPullPolicy;
  retention : Retention;
}.

Definition SyncedConfig_default : SyncedConfig := {|
  tag := "";
  custom_games := [];
  overrides := [];
  conflict_policy := Manual;
  autopull_policy := Ask;
  retention := Retention_default;
|}.

Definition set_tag (t : string) (c : SyncedConfig) : SyncedConfig := {|
  tag := t;
  custom_games := custom_games c;
  overrides := overrides c;
  conflict_policy := conflict_policy c;
  autopull_policy := autopull_policy c;
  retention := retention c;
|}.

#[export] Instance Version_eq_dec : EqDecision Version.
Proof. solve_decision. Defined.
#[export] Instance CreateVersion_eq_dec : EqDecision CreateVersion.
Proof. solve_decision. Defined.

(** ** protocol.rs *)

Record HeadResponse := { hr_head : option VersionId; hr_seq : option Z }.
Record ResolveRequest := { rr_winner : VersionId; rr_keep_both : bool }.
Record PairRequest := { pr_code : string; pr_device_name : string; pr_os : Os }.
Record RefreshRequest := { rf_device_id : DeviceId; rf_refresh_secret : string }.
Record EnsureGameRequest := { eg_title : string; eg_steam_appid : option Z }.

Inductive ServerMsg :=
  | VersionAvailable (game_id : GameId) (version_id : VersionId) (seq : Z)
  | ConflictMsg (game_id : GameId) (tips : list VersionId)
  | ConfigUpdated (config_tag : string)
  | DeviceAdded (device_id : DeviceId)
  | Pong.

Inductive ClientMsg :=
  | Hello (device_id : DeviceId) (last_seq : gmap N Z)
  | Subscribe (games : list string)
  | PingMsg.

#[export] Instance ServerMsg_eq_dec : EqDecision ServerMsg.
Proof. solve_decision. Defined.
