(* ===== verification/ServerError.v ===== *)
(** * savr-server: API errors (src/crates/savr-server/src/error.rs)

    [ApiError] with its status, code, message and detail, and its constructors.
    A message that renders an error of sqlx or savr-core is the error itself. *)

From S2P Require Import Prelude CoreTypes.

Inductive SqlError := UniqueViolation | ForeignKeyViolation | RowNotFound.

Inductive Message :=
  | Text (m : string)
  | OfSql (e : SqlError)
  | OfCore (e : CoreError).

Inductive Detail :=
  | NoDetail
  | CurrentTag (tag : string)
  | BlobDetail (hash : string)
  | TipsDetail (head : option Version) (incoming : Version)
  | IdsDetail (head : option Uuid) (winner : Uuid).

#[export] Instance SqlError_eq_dec : EqDecision SqlError.
Proof. solve_decision. Defined.
#[export] Instance CoreError_eq_dec : EqDecision CoreError.
Proof. solve_decision. Defined.
#[export] Instance Message_eq_dec : EqDecision Message.
Proof. solve_decision. Defined.
#[export] Instance Detail_eq_dec : EqDecision Detail.
Proof. solve_decision. Defined.

Record ApiError := {
  status : Z;
  code : string;
  message : Message;
  detail : Detail;
}.

Definition ApiError_new (s : Z) (c : string) (m : Message) : ApiError :=
  {| status := s; code := c; message := m; detail := NoDetail |}.

Definition internal (m : Message) : ApiError := ApiError_new 500 "internal" m.
Definition unauthorized (m : string) : ApiError := ApiError_new 401 "unauthorized" (Text m).
Definition not_found (m : string) : ApiError := ApiError_new 404 "not_found" (Text m).
Definition bad_request (m : string) : ApiError := ApiError_new 400 "bad_request" (Text m).
Definition forbidden (m : string) : ApiError := ApiError_new 403 "forbidden" (Text m).
Definition too_many (m : string) : ApiError := ApiError_new 429 "rate_limited" (Text m).

Definition config_conflict (current_tag : string) : ApiError := {|
  status := 409;
  code := "config_conflict";
  message := Text "config tag is stale; refetch /config and retry";
  detail := CurrentTag current_tag;
|}.

Definition blob_missing (hash : string) : ApiError := {|
  status := 422;
  code := "blob_missing";
  message := Text ("blob " +:+ hash +:+ " not present; PUT it before creating the version");
  detail := BlobDetail hash;
|}.

Definition conflict (d : Detail) : ApiError := {|
  status := 409;
  code := "conflict";
  message := Text "version parent is not the current head";
  detail := d;
|}.

(** [From<sqlx::Error>]. *)
Definition of_sql (e : SqlError) : ApiError := internal (OfSql e).

#[export] Instance ApiError_eq_dec : EqDecision ApiError.
Proof. solve_decision. Defined.
