(* ===== verification/Auth.v ===== *)
(** * savr-server: auth primitives (src/crates/savr-server/src/auth.rs)

    Secrets, pairing codes, the two JWT kinds and the pairing lock-out guard.
    The argon2 and jsonwebtoken crates are the classes [Argon2] and [Jwt]; the
    random bytes of [OsRng] and the clock readings are arguments. *)

From S2P Require Import Prelude CoreTypes ServerError.

Definition ACCESS_TTL_SECS : Z := 15 * 60.
Definition SESSION_TTL_SECS : Z := 60 * 60.
Definition PAIRING_TTL_SECS : Z := 5 * 60.
Definition TYP_ACCESS : string := "access".
Definition TYP_OWNER : string := "owner".
Definition MAX_PAIR_FAILS : Z := 5.
Definition PAIR_LOCK_SECS : Z := 5 * 60.

Definition nanos_per_sec : Z := 1000000000.
Definition secs (s : Z) : Z := s * nanos_per_sec.

(** ** argon2 *)

(** [argon2_hash secret salt] is the PHC string; [argon2_verify secret stored]
    is false when [stored] is no PHC string. *)
Class Argon2 := {
  argon2_hash : string → string → string;
  argon2_verify : string → string → bool;
}.
Class Argon2Laws `{Argon2} : Prop := {
  argon2_verify_hash s salt : argon2_verify s (argon2_hash s salt) = true;
  argon2_verify_other s s' salt : argon2_verify s (argon2_hash s' salt) = true → s = s';
}.

Definition hash_secret `{Argon2} (secret salt : string) : string := argon2_hash secret salt.
Definition verify_secret `{Argon2} (secret stored_hash : string) : bool :=
  argon2_verify secret stored_hash.

(** ** Random material *)

Definition PAIRING_ALPHABET : list Ascii.ascii :=
  String.list_ascii_of_string "ABCDEFGHJKLMNPQRSTUVWXYZ23456789".

Definition pairing_char (b : Byte.byte) : Ascii.ascii :=
  nth (N.to_nat (Byte.to_N b) mod length PAIRING_ALPHABET) PAIRING_ALPHABET Ascii.zero.

(** [generate_pairing_code]: 8 random bytes, one glyph each. *)
Definition generate_pairing_code (buf : list Byte.byte) : string :=
  String.string_of_list_ascii (map pairing_char buf).

Definition hex_digit (n : nat) : Ascii.ascii :=
  nth n (String.list_ascii_of_string "0123456789abcdef") Ascii.zero.

(** [to_hex]: two lowercase digits per byte. *)
Definition bytes_to_hex (bs : list Byte.byte) : string :=
  String.string_of_list_ascii
    (flat_map (λ b, let n := N.to_nat (Byte.to_N b) in
                    [hex_digit (n / 16); hex_digit (n mod 16)]) bs).

Definition generate_refresh_secret (buf : list Byte.byte) : string := bytes_to_hex buf.

(** ** JWT *)

(** The JSON object of a token's claims; a field serde does not find is [None]. *)
Record Payload := {
  p_sub : option string;
  p_acc : option string;
  p_role : option string;
  p_exp : option Z;
  p_typ : option string;
}.

Record AccessClaims := { sub : string; acc : string; exp : Z; typ : string }.
Record SessionClaims := { s_acc : string; s_role : string; s_exp : Z; s_typ : string }.

Record Validation := { validate_exp : bool; leeway : Z; required_exp : bool }.

Class Jwt := {
  jwt_encode : string → Payload → string;
  jwt_decode : string → Validation → Z → string → option Payload;
}.
(** What jsonwebtoken documents of a token it signed itself: decoding with the
    same key gives the claims back unless [exp] is missing or over; and of its text, base64url and
    dots, that it holds no white space. *)
Definition is_space (c : Ascii.ascii) : bool :=
  let n := Ascii.nat_of_ascii c in ((n =? 32) || (9 <=? n) && (n <=? 13))%nat%bool.

Class JwtLaws `{Jwt} : Prop := {
  jwt_no_space key p :
    forallb (λ c, negb (is_space c)) (String.list_ascii_of_string (jwt_encode key p)) = true;
  jwt_decode_encode key v now p :
    jwt_decode key v now (jwt_encode key p) =
      match p_exp p with
      | None => if required_exp v then None else Some p
      | Some e => if (validate_exp v && bool_decide (e < now - leeway v)%Z)%bool
                  then None else Some p
      end;
}.

Section Tokens.
Context `{J : Jwt} `{U : UuidText}.

(** [timestamp] is in seconds. *)
Definition mint_access_token (secret : string) (now : Z) (account device : Uuid) : string :=
  jwt_encode secret
    {| p_sub := Some (uuid_to_string device); p_acc := Some (uuid_to_string account);
       p_role := None; p_exp := Some (now + ACCESS_TTL_SECS)%Z; p_typ := Some TYP_ACCESS |}.

Definition mint_owner_session (secret : string) (now : Z) (account : Uuid) : string :=
  jwt_encode secret
    {| p_sub := None; p_acc := Some (uuid_to_string account); p_role := Some TYP_OWNER;
       p_exp := Some (now + SESSION_TTL_SECS)%Z; p_typ := Some TYP_OWNER |}.

Definition validation : Validation :=
  {| validate_exp := true; leeway := 5; required_exp := true |}.

(** serde: [sub], [acc] and [exp] must be present, [typ] defaults to "". *)
Definition decode_access (p : Payload) : option AccessClaims :=
  s ← p_sub p; a ← p_acc p; e ← p_exp p;
  Some {| sub := s; acc := a; exp := e; typ := default "" (p_typ p) |}.
Definition decode_session (p : Payload) : option SessionClaims :=
  a ← p_acc p; r ← p_role p; e ← p_exp p;
  Some {| s_acc := a; s_role := r; s_exp := e; s_typ := default "" (p_typ p) |}.

Definition verify_access (secret : string) (now : Z) (token : string)
    : result ApiError AccessClaims :=
  match jwt_decode secret validation now token ≫= decode_access with
  | None => Err (unauthorized "invalid or expired access token")
  | Some claims =>
    if decide (typ claims = TYP_ACCESS) then Ok claims
    else Err (unauthorized "not an access token")
  end.

Definition verify_owner_session (secret : string) (now : Z) (token : string)
    : result ApiError SessionClaims :=
  match jwt_decode secret validation now token ≫= decode_session with
  | None => Err (unauthorized "invalid or expired session token")
  | Some claims =>
    if decide (s_typ claims ≠ TYP_OWNER ∨ s_role claims ≠ TYP_OWNER)
    then Err (unauthorized "not an owner session")
    else Ok claims
  end.
End Tokens.

(** ** Pairing lock-out *)

Record PairGuard := { fails : Z; locked_until : option Z }.
Definition PairGuard_new : PairGuard := {| fails := 0; locked_until := None |}.

Definition guard_check (g : PairGuard) (now : Z) : result ApiError unit :=
  match locked_until g with
  | Some until =>
    if decide (now < until)%Z
    then Err (too_many "too many failed pairing attempts; try again later")
    else Ok tt
  | None => Ok tt
  end.

Definition record_fail (g : PairGuard) (now : Z) : PairGuard :=
  let g := match locked_until g with
           | Some until => if decide (until <= now)%Z then PairGuard_new else g
           | None => g
           end in
  let fails' := (fails g + 1)%Z in
  {| fails := fails';
     locked_until := if decide (MAX_PAIR_FAILS <= fails')%Z
                     then Some (now + secs PAIR_LOCK_SECS)%Z
                     else locked_until g |}.

Definition record_success (g : PairGuard) : PairGuard := {| fails := 0; locked_until := None |}.
