(* ===== verification/Blobs.v ===== *)
(** * savr-server: the content-addressed blob store (src/crates/savr-server/src/blobs.rs)

    [FsBlobStore] as the files under its root: the objects, by the hash that
    names them, and the temporary files of uploads in progress.  A request body
    is the list of its chunks; a chunk is an error when the stream breaks. *)

From S2P Require Import Prelude CoreTypes ServerError.

Record FsBlobStore := {
  objects : gmap string bytes;
  temps : gmap string bytes;
}.

Definition empty_store : FsBlobStore := {| objects := ∅; temps := ∅ |}.

Inductive BlobError :=
  | BodyError (m : string)
  | HashMismatch (expected got : string).

Definition of_blob_error (e : BlobError) : ApiError :=
  match e with
  | HashMismatch expected got =>
    bad_request ("blob content hash " +:+ got +:+ " does not match declared " +:+ expected)
  | BodyError m => bad_request ("upload body error: " +:+ m)
  end.

Definition set_temp (h : string) (b : bytes) (s : FsBlobStore) : FsBlobStore :=
  {| objects := objects s; temps := <[h := b]> (temps s) |}.
Definition drop_temp (h : string) (s : FsBlobStore) : FsBlobStore :=
  {| objects := objects s; temps := delete h (temps s) |}.

Definition blob_exists (s : FsBlobStore) (h : string) : bool :=
  bool_decide (is_Some (objects s !! h)).

Definition blob_read (s : FsBlobStore) (h : string) : option bytes := objects s !! h.

(** [delete]: a missing file counts as deleted. *)
Definition blob_delete (h : string) (s : FsBlobStore) : FsBlobStore :=
  {| objects := delete h (objects s); temps := temps s |}.

(** The [while let Some(chunk)] loop of [put]: append each chunk to the
    temporary file until the stream ends or fails. *)
Fixpoint write_chunks (h : string) (chunks : list (result string bytes)) (written : bytes)
    (s : FsBlobStore) : outcome FsBlobStore BlobError bytes :=
  match chunks with
  | [] => (Ok written, s)
  | Err m :: _ => (Err (BodyError m), s)
  | Ok c :: rest => write_chunks h rest (written ++ c) (set_temp h (written ++ c) s)
  end.

(** [tokio::fs::rename(&tmp, &final_path)]. *)
Definition rename_temp (h : string) (s : FsBlobStore) : FsBlobStore :=
  match temps s !! h with
  | Some b => {| objects := <[h := b]> (objects s); temps := delete h (temps s) |}
  | None => s
  end.

Section Put.
Context `{B3 : Blake3}.

Definition blob_put (h : string) (body : list (result string bytes)) (s : FsBlobStore)
    : outcome FsBlobStore BlobError Z :=
  match write_chunks h body [] (set_temp h [] s) with
  | (Err e, s') => (Err e, s')
  | (Ok b, s') =>
    let got := to_hex (hash_of b) in
    if decide (got = h) then (Ok (Z.of_nat (length b)), rename_temp h s')
    else (Err (HashMismatch h got), drop_temp h s')
  end.

(** Content addressing: every object is stored under the hash of its bytes. *)
Definition store_ok (s : FsBlobStore) : Prop :=
  ∀ h b, objects s !! h = Some b → to_hex (hash_of b) = h.

(** The bytes of a body whose every chunk arrived. *)
Fixpoint body_bytes (body : list (result string bytes)) : option bytes :=
  match body with
  | [] => Some []
  | Err _ :: _ => None
  | Ok c :: rest => b ← body_bytes rest; Some (c ++ b)
  end.

Lemma write_chunks_objects h body w s :
  objects (snd (write_chunks h body w s)) = objects s.
Proof. revert w s. induction body as [|[c|m] body IH]; intros; simpl; [done| |done].
  by rewrite IH. Qed.

Lemma write_chunks_ok h body w s :
  temps s !! h = Some w →
  match body_bytes body with
  | Some b => fst (write_chunks h body w s) = Ok (w ++ b) ∧
              temps (snd (write_chunks h body w s)) !! h = Some (w ++ b)
  | None => ∃ m, fst (write_chunks h body w s) = Err (BodyError m)
  end.
Proof.
  revert w s. induction body as [|[c|m] body IH]; intros w s Hw; simpl.
  - by rewrite app_nil_r.
  - specialize (IH (w ++ c) (set_temp h (w ++ c) s)).
    destruct (body_bytes body) as [b|]; simpl.
    + rewrite (app_assoc w c b). apply IH. simpl. apply lookup_insert_eq.
    + apply IH. simpl. apply lookup_insert_eq.
  - eauto.
Qed.

(** The three outcomes of an upload. *)
Lemma blob_put_spec h body s :
  match body_bytes body with
  | None => ∃ m, fst (blob_put h body s) = Err (BodyError m) ∧
                 objects (snd (blob_put h body s)) = objects s
  | Some b =>
    if decide (to_hex (hash_of b) = h)
    then fst (blob_put h body s) = Ok (Z.of_nat (length b)) ∧
         objects (snd (blob_put h body s)) = <[h := b]> (objects s)
    else fst (blob_put h body s) = Err (HashMismatch h (to_hex (hash_of b))) ∧
         objects (snd (blob_put h body s)) = objects s
  end.
Proof.
  unfold blob_put.
  pose proof (write_chunks_ok h body [] (set_temp h [] s)) as Hw.
  pose proof (write_chunks_objects h body [] (set_temp h [] s)) as Ho.
  destruct (write_chunks h body [] (set_temp h [] s)) as [r s'] eqn:E. simpl in *.
  specialize (Hw (lookup_insert_eq _ _ _)).
  destruct (body_bytes body) as [b|].
  - destruct Hw as [-> Ht]. case_decide; simpl.
    + unfold rename_temp. rewrite Ht. simpl. by rewrite Ho.
    + done.
  - destruct Hw as [m ->]. simpl. eauto.
Qed.

Lemma blob_put_store_ok h body s : store_ok s → store_ok (snd (blob_put h body s)).
Proof.
  intros Hs. pose proof (blob_put_spec h body s) as Hp.
  destruct (body_bytes body) as [b|].
  - case_decide as Hd; destruct Hp as [_ Ho]; intros h' b'; rewrite Ho; [|apply Hs].
    rewrite lookup_insert. case_decide as He; [intros [= <-]; congruence|apply Hs].
  - destruct Hp as (m & _ & Ho). intros h' b'. rewrite Ho. apply Hs.
Qed.

Lemma blob_delete_store_ok h s : store_ok s → store_ok (blob_delete h s).
Proof.
  intros Hs h' b'. simpl. rewrite lookup_delete. case_decide; [done|apply Hs].
Qed.
End Put.
