(* ===== verification/Hub.v ===== *)
(** * savr-server: WebSocket presence hub (src/crates/savr-server/src/hub.rs)

    [Hub] maps an account to its devices and each device to the sender that
    feeds its socket.  A sender is the number of its channel; [Channels] holds
    the messages each open channel has queued, and a send to a channel whose
    receiver is gone is dropped, as the source ignores its error. *)

From S2P Require Import Prelude CoreTypes.

Abbreviation Chan := N.
Abbreviation Channels := (gmap Chan (list ServerMsg)).
Abbreviation DeviceMap := (gmap Uuid Chan).
Abbreviation Hub := (gmap Uuid DeviceMap).

Definition send (tx : Chan) (msg : ServerMsg) (cs : Channels) : Channels :=
  match cs !! tx with Some q => <[tx := q ++ [msg]]> cs | None => cs end.

Definition register (account device : Uuid) (tx : Chan) (h : Hub) : Hub :=
  <[account := <[device := tx]> (default ∅ (h !! account))]> h.

Definition deregister (account device : Uuid) (h : Hub) : Hub :=
  match h !! account with
  | Some devs =>
    let devs := delete device devs in
    if decide (devs = ∅) then delete account h else <[account := devs]> h
  | None => h
  end.

Definition drop_device (account device : Uuid) (h : Hub) : Hub := deregister account device h.

Definition broadcast_except (account except : Uuid) (msg : ServerMsg) (h : Hub) (cs : Channels)
    : Channels :=
  match h !! account with
  | Some devs =>
    foldl (fun cs '(id, tx) => if decide (id ≠ except) then send tx msg cs else cs)
      cs (map_to_list devs)
  | None => cs
  end.

Definition broadcast_account (account : Uuid) (msg : ServerMsg) (h : Hub) (cs : Channels)
    : Channels :=
  match h !! account with
  | Some devs => foldl (fun cs '(_, tx) => send tx msg cs) cs (map_to_list devs)
  | None => cs
  end.

Definition device_count (account : Uuid) (h : Hub) : nat :=
  match h !! account with Some devs => base.size devs | None => 0 end.

(** The sender the hub holds for a device. *)
Definition sender_of (account device : Uuid) (h : Hub) : option Chan :=
  h !! account ≫= (λ devs, devs !! device).

Lemma sender_register account device tx h a d :
  sender_of a d (register account device tx h) =
  if decide (a = account ∧ d = device) then Some tx else sender_of a d h.
Proof.
  unfold sender_of, register. destruct (decide (a = account)) as [->|Ha].
  - rewrite lookup_insert_eq. simpl. destruct (decide (d = device)) as [->|Hd].
    + rewrite decide_True by done. by rewrite lookup_insert_eq.
    + rewrite decide_False by naive_solver. rewrite lookup_insert_ne by done.
      by destruct (h !! account).
  - rewrite decide_False by naive_solver. by rewrite lookup_insert_ne.
Qed.

Lemma sender_deregister account device h a d :
  sender_of a d (deregister account device h) =
  if decide (a = account ∧ d = device) then None else sender_of a d h.
Proof.
  unfold sender_of, deregister. destruct (h !! account) as [devs|] eqn:E.
  - destruct (decide (a = account)) as [->|Ha].
    + rewrite E. simpl. destruct (decide (delete device devs = ∅)) as [He|He].
      * rewrite lookup_delete_eq. simpl. destruct (decide (d = device)) as [->|Hd].
        -- by rewrite decide_True.
        -- rewrite decide_False by naive_solver.
           rewrite <- (lookup_delete_ne devs device d), He by done. done.
      * rewrite lookup_insert_eq. simpl. destruct (decide (d = device)) as [->|Hd].
        -- rewrite decide_True by done. by rewrite lookup_delete_eq.
        -- rewrite decide_False by naive_solver. by rewrite lookup_delete_ne.
    + rewrite (decide_False (P := a = account ∧ d = device)) by naive_solver.
      case_decide; [rewrite lookup_delete_ne|rewrite lookup_insert_ne]; done.
  - case_decide as Hd; [|done]. destruct Hd as [-> ->]. by rewrite E.
Qed.

(** ** Delivery *)

Lemma send_lookup tx msg cs c :
  send tx msg cs !! c = if decide (c = tx) then (λ q, q ++ [msg]) <$> cs !! c else cs !! c.
Proof.
  unfold send. destruct (decide (c = tx)) as [->|Hne].
  - destruct (cs !! tx) eqn:E; [by rewrite lookup_insert_eq|done].
  - destruct (cs !! tx) eqn:E; [by rewrite lookup_insert_ne|done].
Qed.

(** A fan-out over distinct devices on distinct channels queues the message
    once on each selected channel and touches no other. *)
Lemma fan_out_lookup (p : Uuid → bool) (msg : ServerMsg) l (cs : Channels) (c : Chan) :
  NoDup (map snd l) →
  foldl (fun cs '(id, tx) => if p id then send tx msg cs else cs) cs l !! c =
  match List.find (fun '(id, tx) => bool_decide (tx = c)) l with
  | Some (id, _) => if p id then (λ q, q ++ [msg]) <$> cs !! c else cs !! c
  | None => cs !! c
  end.
Proof.
  revert cs. induction l as [|[id tx] l IH]; intros cs Hnd; simpl; [done|].
  apply list.NoDup_cons in Hnd as [Hni Hnd]. rewrite IH by done.
  destruct (decide (tx = c)) as [->|Hne].
  - rewrite bool_decide_eq_true_2 by done.
    destruct (List.find _ l) as [[id' tx']|] eqn:Ef.
    + apply find_some in Ef as [Hin Hb]. bool_simpl. simpl in *. subst. exfalso. apply Hni.
      apply list_elem_of_fmap. exists (id', c). split; [done|]. by apply list_elem_of_In.
    + destruct (p id); [|done]. rewrite send_lookup. by rewrite decide_True.
  - rewrite bool_decide_eq_false_2 by done.
    assert (Hs : (if p id then send tx msg cs else cs) !! c = cs !! c).
    { destruct (p id); [|done]. rewrite send_lookup. by rewrite decide_False. }
    by rewrite Hs.
Qed.

(** The channels of an account's devices are its own, one per device. *)
Definition senders_distinct (account : Uuid) (h : Hub) : Prop :=
  ∀ d1 d2 c, sender_of account d1 h = Some c → sender_of account d2 h = Some c → d1 = d2.

Lemma fan_out_bool except msg (l : list (Uuid * Chan)) (cs : Channels) :
  foldl (fun cs '(id, tx) => if decide (id ≠ except) then send tx msg cs else cs) cs l =
  foldl (fun cs '(id, tx) => if bool_decide (id ≠ except) then send tx msg cs else cs) cs l.
Proof.
  revert cs. induction l as [|[id tx] l IH]; intros cs; simpl; [done|].
  destruct (decide (id ≠ except));
    [rewrite bool_decide_eq_true_2 by done|rewrite bool_decide_eq_false_2 by done]; apply IH.
Qed.

(** A broadcast reaches exactly the open channels of the other devices. *)
Lemma broadcast_except_lookup account except msg (h : Hub) (cs : Channels) (c : Chan) :
  senders_distinct account h →
  (∀ d, sender_of account d h = Some c → d ≠ except →
     broadcast_except account except msg h cs !! c = (λ q, q ++ [msg]) <$> cs !! c) ∧
  ((∀ d, sender_of account d h = Some c → d = except) →
     broadcast_except account except msg h cs !! c = cs !! c).
Proof.
  unfold senders_distinct, sender_of, broadcast_except.
  destruct (h !! account) as [devs|]; simpl; [|by split; [intros d Hd|]].
  intros Hinj.
  assert (Hnd : NoDup (map snd (map_to_list devs))).
  { apply NoDup_fmap_2_strong; [|apply NoDup_map_to_list].
    intros [d1 c1] [d2 c2] H1%elem_of_map_to_list H2%elem_of_map_to_list E. simpl in E. subst c2.
    f_equal. eauto. }
  pose proof (fan_out_lookup (λ id, bool_decide (id ≠ except)) msg (map_to_list devs) cs c Hnd) as Hl.
  rewrite fan_out_bool, Hl.
  destruct (List.find _ (map_to_list devs)) as [[id tx]|] eqn:Ef.
  - apply find_some in Ef as [Hin Hc]. apply list_elem_of_In, elem_of_map_to_list in Hin.
    simpl in Hc. apply bool_decide_eq_true in Hc as ->. split.
    + intros d Hd Hne. rewrite (Hinj id d c Hin Hd). by rewrite bool_decide_eq_true_2.
    + intros Hd. rewrite bool_decide_eq_false_2; [done|]. intros Hne. apply Hne. by apply Hd.
  - split; [|done]. intros d Hd _. exfalso. apply elem_of_map_to_list in Hd.
    apply list_elem_of_In in Hd. pose proof (find_none _ _ Ef _ Hd) as Hn. simpl in Hn.
    by apply bool_decide_eq_false in Hn.
Qed.

(** A channel no device of the account feeds hears nothing. *)
Lemma broadcast_account_other account msg (h : Hub) (cs : Channels) (c : Chan) :
  (∀ d, sender_of account d h ≠ Some c) → broadcast_account account msg h cs !! c = cs !! c.
Proof.
  unfold sender_of, broadcast_account. destruct (h !! account) as [devs|]; simpl; [|done].
  intros Hno. assert (Hl : ∀ d x, (d, x) ∈ map_to_list devs → x ≠ c).
  { intros d x Hx%elem_of_map_to_list ->. by apply (Hno d). }
  revert cs Hl. induction (map_to_list devs) as [|[d x] l IH]; intros cs Hl; simpl; [done|].
  rewrite IH.
  - rewrite send_lookup. rewrite decide_False; [done|]. intros ->.
    by apply (Hl d x); [apply list_elem_of_here|].
  - intros d' x' Hin. apply (Hl d'). by apply list_elem_of_further.
Qed.
