(* ===== verification/ServerDb.v ===== *)
(** * savr-server: the database (src/crates/savr-server/src/db.rs, migrations/)

    The SQLite tables as lists of rows and every query of db.rs as a function on
    them, with the PRIMARY KEY, UNIQUE and FOREIGN KEY constraints of the
    migrations (foreign keys are enforced, see 0001_init.sql).  [Uuid::now_v7]
    and [Utc::now] are arguments.  A multi-statement transaction that fails
    leaves the database as it was. *)

From S2P Require Import Prelude CoreTypes ServerError Auth Blobs.

(** ** The tables (migrations/0001_init.sql, 0002_*.sql) *)

Record AccountRow := { ac_id : Uuid; ac_owner_hash : string }.

Record DeviceRow := {
  dr_id : Uuid;
  dr_account : Uuid;
  dr_name : string;
  dr_os : string;
  dr_token_hash : string;
  dr_last_seen : option DateTime;
  dr_revoked : Z;
}.

Record BlobRow := { br_hash : string; br_bytes : Z; br_refcount : Z }.

Record GameRow := {
  gr_id : Uuid;
  gr_account : Uuid;
  gr_title : string;
  gr_steam_appid : option Z;
  gr_head : option Uuid;
}.

Record VersionRow := {
  vr_id : Uuid;
  vr_game_id : Uuid;
  vr_account : Uuid;
  vr_device : Uuid;
  vr_parent : option Uuid;
  vr_kind : string;
  vr_blob_hash : string;
  vr_files : list FileEntry;
  vr_bytes : Z;
  vr_seq : Z;
  vr_created_at : DateTime;
}.

Record ConfigRow := { cr_account : Uuid; cr_tag : string; cr_data : SyncedConfig }.

Record PairingRow := {
  pc_id : Uuid;
  pc_account : Uuid;
  pc_code_hash : string;
  pc_expires_at : DateTime;
  pc_used : Z;
}.

Record ResolvedRow := {
  rc_id : Uuid;
  rc_account : Uuid;
  rc_game : Uuid;
  rc_winner : Uuid;
  rc_loser : Uuid;
  rc_keep_both : bool;
  rc_redirect : option string;
  rc_resolved_at : DateTime;
}.

Record Db := {
  accounts : list AccountRow;
  devices : list DeviceRow;
  blobs : list BlobRow;
  games : list GameRow;
  versions : list VersionRow;
  config : list ConfigRow;
  pairing_codes : list PairingRow;
  resolved_conflicts : list ResolvedRow;
}.

Definition empty_db : Db := {|
  accounts := []; devices := []; blobs := []; games := []; versions := [];
  config := []; pairing_codes := []; resolved_conflicts := [];
|}.

Definition with_devices (t : list DeviceRow) (db : Db) : Db :=
  {| accounts := accounts db; devices := t; blobs := blobs db; games := games db;
     versions := versions db; config := config db; pairing_codes := pairing_codes db;
     resolved_conflicts := resolved_conflicts db |}.
Definition with_blobs (t : list BlobRow) (db : Db) : Db :=
  {| accounts := accounts db; devices := devices db; blobs := t; games := games db;
     versions := versions db; config := config db; pairing_codes := pairing_codes db;
     resolved_conflicts := resolved_conflicts db |}.
Definition with_games (t : list GameRow) (db : Db) : Db :=
  {| accounts := accounts db; devices := devices db; blobs := blobs db; games := t;
     versions := versions db; config := config db; pairing_codes := pairing_codes db;
     resolved_conflicts := resolved_conflicts db |}.
Definition with_versions (t : list VersionRow) (db : Db) : Db :=
  {| accounts := accounts db; devices := devices db; blobs := blobs db; games := games db;
     versions := t; config := config db; pairing_codes := pairing_codes db;
     resolved_conflicts := resolved_conflicts db |}.
Definition with_config (t : list ConfigRow) (db : Db) : Db :=
  {| accounts := accounts db; devices := devices db; blobs := blobs db; games := games db;
     versions := versions db; config := t; pairing_codes := pairing_codes db;
     resolved_conflicts := resolved_conflicts db |}.
Definition with_pairing (t : list PairingRow) (db : Db) : Db :=
  {| accounts := accounts db; devices := devices db; blobs := blobs db; games := games db;
     versions := versions db; config := config db; pairing_codes := t;
     resolved_conflicts := resolved_conflicts db |}.
Definition with_resolved (t : list ResolvedRow) (db : Db) : Db :=
  {| accounts := accounts db; devices := devices db; blobs := blobs db; games := games db;
     versions := versions db; config := config db; pairing_codes := pairing_codes db;
     resolved_conflicts := t |}.

(** ** Statements *)

Definition set_gr_head (h : option Uuid) (g : GameRow) : GameRow :=
  {| gr_id := gr_id g; gr_account := gr_account g; gr_title := gr_title g;
     gr_steam_appid := gr_steam_appid g; gr_head := h |}.
Definition set_vr_parent (p : option Uuid) (v : VersionRow) : VersionRow :=
  {| vr_id := vr_id v; vr_game_id := vr_game_id v; vr_account := vr_account v;
     vr_device := vr_device v; vr_parent := p; vr_kind := vr_kind v;
     vr_blob_hash := vr_blob_hash v; vr_files := vr_files v; vr_bytes := vr_bytes v;
     vr_seq := vr_seq v; vr_created_at := vr_created_at v |}.
Definition add_refcount (d : Z) (b : BlobRow) : BlobRow :=
  {| br_hash := br_hash b; br_bytes := br_bytes b; br_refcount := br_refcount b + d |}.

Definition is_account (a : Uuid) (r : AccountRow) : bool := bool_decide (ac_id r = a).
Definition is_device (d : Uuid) (r : DeviceRow) : bool := bool_decide (dr_id r = d).
Definition is_blob (h : string) (r : BlobRow) : bool := bool_decide (br_hash r = h).
Definition is_game (g : Uuid) (r : GameRow) : bool := bool_decide (gr_id r = g).
Definition is_version (v : Uuid) (r : VersionRow) : bool := bool_decide (vr_id r = v).

(** [WHERE game_id = ? AND account_id = ?]. *)
Definition of_game (game account : Uuid) (r : VersionRow) : bool :=
  bool_decide (vr_game_id r = game) && bool_decide (vr_account r = account).
(** [WHERE id = ? AND account_id = ?] on games. *)
Definition my_game (game account : Uuid) (r : GameRow) : bool :=
  is_game game r && bool_decide (gr_account r = account).

(** [INSERT INTO versions]: PRIMARY KEY, UNIQUE(game_id, seq), and the foreign
    keys to games, devices, versions (parent) and blobs. *)
Definition insert_version (r : VersionRow) (db : Db) : result ApiError Db :=
  if existsb (λ x, is_version (vr_id r) x
                   || bool_decide (vr_game_id x = vr_game_id r) && bool_decide (vr_seq x = vr_seq r))%bool
             (versions db)
  then Err (of_sql UniqueViolation)
  else if negb (existsb (is_game (vr_game_id r)) (games db)
                && existsb (is_device (vr_device r)) (devices db)
                && match vr_parent r with
                   | None => true
                   | Some p => is_version p r || existsb (is_version p) (versions db)
                   end
                && existsb (is_blob (vr_blob_hash r)) (blobs db))%bool
  then Err (of_sql ForeignKeyViolation)
  else Ok (with_versions (versions db ++ [r]) db).

(** [UPDATE games SET head = ? WHERE id = ? AND account_id = ? AND head IS ?]:
    the rows affected and the new table; the new head must be a version row. *)
Definition cas_head (new : Uuid) (game account : Uuid) (expected : option Uuid) (db : Db)
    : result ApiError (nat * Db) :=
  let p := λ g, (my_game game account g && bool_decide (gr_head g = expected))%bool in
  let n := count_where p (games db) in
  if (negb (n =? 0)%nat && negb (existsb (is_version new) (versions db)))%bool
  then Err (of_sql ForeignKeyViolation)
  else Ok (n, with_games (update_where p (set_gr_head (Some new)) (games db)) db).

(** [SELECT COALESCE(MAX(seq), 0) + 1 FROM versions WHERE game_id = ?]. *)
Definition next_seq (game : Uuid) (db : Db) : Z :=
  let seqs := map vr_seq (List.filter (λ r, bool_decide (vr_game_id r = game)) (versions db)) in
  match seqs with
  | [] => 1
  | s :: rest => foldl Z.max s rest + 1
  end.

(** [SELECT head FROM games WHERE id = ? AND account_id = ?]. *)
Definition select_head (game account : Uuid) (db : Db) : option (option Uuid) :=
  gr_head <$> fetch_optional (my_game game account) (games db).

(** [ORDER BY seq DESC] and [ORDER BY seq ASC]. *)
Definition seq_ge (a b : VersionRow) : Prop := (vr_seq b <= vr_seq a)%Z.
Definition seq_le (a b : VersionRow) : Prop := (vr_seq a <= vr_seq b)%Z.
#[export] Instance seq_ge_dec : RelDecision seq_ge := λ a b, Z_le_dec (vr_seq b) (vr_seq a).
#[export] Instance seq_le_dec : RelDecision seq_le := λ a b, Z_le_dec (vr_seq a) (vr_seq b).

(** ** db.rs: versions *)

Definition kind_to_str (k : VersionKind) : string :=
  match k with Full => "full" | Differential => "diff" end.
Definition kind_of_str (s : string) : VersionKind :=
  if decide (s = "diff") then Differential else Full.

Inductive Advance :=
  | FastForward (v : Version)
  | Conflict (head : option Version) (incoming : Version).

Section Versions.
Context `{B3 : Blake3}.

Definition row_to_version (r : VersionRow) : result ApiError Version :=
  match from_hex (vr_blob_hash r) with
  | Err e => Err (internal (OfCore e))
  | Ok h => Ok {|
      v_id := vr_id r;
      v_game_id := vr_game_id r;
      v_device_id := vr_device r;
      v_parent := vr_parent r;
      v_kind := kind_of_str (vr_kind r);
      v_files := vr_files r;
      v_blob_hash := h;
      v_bytes := i64_as_u64 (vr_bytes r);
      v_seq := i64_as_u64 (vr_seq r);
      v_created_at := vr_created_at r;
    |}
  end.

Definition load_version (id : Uuid) (db : Db) : result ApiError Version :=
  row ← ok_or (fetch_optional (is_version id) (versions db)) (of_sql RowNotFound);
  row_to_version row.

Definition new_version_row (account game : Uuid) (req : CreateVersion) (id : Uuid)
    (seq : Z) (now : DateTime) : VersionRow := {|
  vr_id := id;
  vr_game_id := game;
  vr_account := account;
  vr_device := cv_device_id req;
  vr_parent := cv_parent req;
  vr_kind := kind_to_str (cv_kind req);
  vr_blob_hash := to_hex (cv_blob_hash req);
  vr_files := cv_files req;
  vr_bytes := u64_as_i64 (cv_bytes req);
  vr_seq := seq;
  vr_created_at := now;
|}.

(** The transaction of [create_version], up to [tx.commit()]: whether the head
    advanced, the head before, and the database. *)
Definition create_version_tx (account game : Uuid) (req : CreateVersion) (id : Uuid)
    (now : DateTime) (db : Db) : result ApiError (bool * option Uuid * Db) :=
  let seq := next_seq game db in
  db1 ← insert_version (new_version_row account game req id seq now) db;
  let db2 := with_blobs (update_where (is_blob (to_hex (cv_blob_hash req)))
                           (add_refcount 1) (blobs db1)) db1 in
  prev_head ← ok_or (select_head game account db2) (of_sql RowNotFound);
  '(n, db3) ← cas_head id game account (cv_parent req) db2;
  Ok (bool_decide (n = 1), prev_head, db3).

Definition create_version (account game : Uuid) (req : CreateVersion) (id : Uuid)
    (now : DateTime) (db : Db) : outcome Db ApiError Advance :=
  match create_version_tx account game req id now db with
  | Err e => (Err e, db)
  | Ok (advanced, prev_head, db') =>
    (incoming ← load_version id db';
     if advanced : bool then Ok (FastForward incoming)
     else match prev_head with
          | Some h => v ← load_version h db'; Ok (Conflict (Some v) incoming)
          | None => Ok (Conflict None incoming)
          end, db')
  end.

Definition list_versions (account game : Uuid) (db : Db) : result ApiError (list Version) :=
  mapM row_to_version
    (merge_sort seq_ge (List.filter (of_game game account) (versions db))).

Definition get_head (account game : Uuid) (db : Db) : result ApiError HeadResponse :=
  row ← ok_or (fetch_optional (my_game game account) (games db)) (not_found "game");
  Ok {| hr_head := gr_head row;
        hr_seq := i64_as_u64 <$>
          (h ← gr_head row; vr_seq <$> fetch_optional (is_version h) (versions db)) |}.
End Versions.

(** ** db.rs: games *)

(** [INSERT INTO games .. ON CONFLICT(account_id, title) DO NOTHING]. *)
Definition insert_game (r : GameRow) (db : Db) : result ApiError Db :=
  if existsb (λ g, bool_decide (gr_account g = gr_account r) && bool_decide (gr_title g = gr_title r))%bool
             (games db)
  then Ok db
  else if existsb (is_game (gr_id r)) (games db) then Err (of_sql UniqueViolation)
  else if negb (existsb (is_account (gr_account r)) (accounts db))
  then Err (of_sql ForeignKeyViolation)
  else Ok (with_games (games db ++ [r]) db).

(** [ensure_game]: the row of the game, by appid when there is one, else by title. *)
Definition ensure_game (account : Uuid) (title : string) (steam_appid : option Z) (id : Uuid)
    (db : Db) : outcome Db ApiError GameRow :=
  let existing :=
    match steam_appid with
    | Some appid =>
      fetch_optional (λ g, bool_decide (gr_account g = account) &&
                           bool_decide (gr_steam_appid g = Some appid))%bool (games db)
    | None => None
    end in
  match existing with
  | Some row => (Ok row, db)
  | None =>
    match insert_game {| gr_id := id; gr_account := account; gr_title := title;
                         gr_steam_appid := steam_appid; gr_head := None |} db with
    | Err e => (Err e, db)
    | Ok db' =>
      (ok_or (fetch_optional (λ g, bool_decide (gr_account g = account) &&
                                   bool_decide (gr_title g = title))%bool (games db'))
             (of_sql RowNotFound), db')
    end
  end.

(** ** db.rs: devices *)

Definition os_str (os : Os) : string :=
  match os with Windows => "windows" | Linux => "linux" | Macos => "macos" end.
Definition os_from_str (s : string) : Os := default Linux (Os_parse s).

Definition my_device (device account : Uuid) (r : DeviceRow) : bool :=
  is_device device r && bool_decide (dr_account r = account).

Definition set_revoked (z : Z) (r : DeviceRow) : DeviceRow :=
  {| dr_id := dr_id r; dr_account := dr_account r; dr_name := dr_name r; dr_os := dr_os r;
     dr_token_hash := dr_token_hash r; dr_last_seen := dr_last_seen r; dr_revoked := z |}.
Definition set_last_seen (t : DateTime) (r : DeviceRow) : DeviceRow :=
  {| dr_id := dr_id r; dr_account := dr_account r; dr_name := dr_name r; dr_os := dr_os r;
     dr_token_hash := dr_token_hash r; dr_last_seen := Some t; dr_revoked := dr_revoked r |}.

Definition create_device (account device : Uuid) (name : string) (os : Os)
    (token_hash : string) (now : DateTime) (db : Db) : result ApiError Db :=
  if existsb (is_device device) (devices db) then Err (of_sql UniqueViolation)
  else if negb (existsb (is_account account) (accounts db))
  then Err (of_sql ForeignKeyViolation)
  else Ok (with_devices (devices db ++ [{| dr_id := device; dr_account := account;
             dr_name := name; dr_os := os_str os; dr_token_hash := token_hash;
             dr_last_seen := Some now; dr_revoked := 0 |}]) db).

Definition device_active (account device : Uuid) (db : Db) : bool :=
  match dr_revoked <$> fetch_optional (my_device device account) (devices db) with
  | Some z => bool_decide (z = 0)%Z
  | None => false
  end.

(** (account, token_hash, revoked) *)
Definition device_credentials (device : Uuid) (db : Db) : option (Uuid * string * bool) :=
  r ← fetch_optional (is_device device) (devices db);
  Some (dr_account r, dr_token_hash r, negb (bool_decide (dr_revoked r = 0)%Z)).

(** [ORDER BY name]. *)
Definition name_le (a b : DeviceRow) : Prop := string_le (dr_name a) (dr_name b) = true.
#[export] Instance name_le_dec : RelDecision name_le :=
  λ a b, bool_eq_dec (string_le (dr_name a) (dr_name b)) true.

Definition list_devices (account : Uuid) (db : Db) : list Device :=
  map (λ r, {| dev_id := dr_id r; dev_name := dr_name r; dev_os := os_from_str (dr_os r);
               dev_last_seen := default 0%Z (dr_last_seen r) |})
    (merge_sort name_le
       (List.filter (λ r, bool_decide (dr_account r = account) && bool_decide (dr_revoked r = 0)%Z)%bool
          (devices db))).

Definition revoke_device (account device : Uuid) (db : Db) : bool * Db :=
  (bool_decide (count_where (my_device device account) (devices db) = 1),
   with_devices (update_where (my_device device account) (set_revoked 1) (devices db)) db).

Definition touch_device (account device : Uuid) (now : DateTime) (db : Db) : Db :=
  with_devices (update_where (my_device device account) (set_last_seen now) (devices db)) db.

(** ** db.rs: pairing codes *)

Definition MAX_ACTIVE_PAIRING_CODES : nat := 5.

(** [used = 0 AND expires_at > ?]. *)
Definition code_active (now : DateTime) (r : PairingRow) : bool :=
  bool_decide (pc_used r = 0)%Z && bool_decide (now < pc_expires_at r)%Z.

Definition set_used (r : PairingRow) : PairingRow :=
  {| pc_id := pc_id r; pc_account := pc_account r; pc_code_hash := pc_code_hash r;
     pc_expires_at := pc_expires_at r; pc_used := 1 |}.

Section Pairing.
Context `{A2 : Argon2}.

Definition create_pairing_code (account : Uuid) (now : DateTime) (code salt : string)
    (id : Uuid) (db : Db) : outcome Db ApiError (string * DateTime) :=
  let active := count_where (λ r, bool_decide (pc_account r = account) && code_active now r)%bool
                  (pairing_codes db) in
  if decide (MAX_ACTIVE_PAIRING_CODES <= active)
  then (Err (too_many "too many active pairing codes; wait for one to expire"), db)
  else
    let expires_at := (now + secs PAIRING_TTL_SECS)%Z in
    if existsb (λ r, bool_decide (pc_id r = id)) (pairing_codes db)
    then (Err (of_sql UniqueViolation), db)
    else if negb (existsb (is_account account) (accounts db))
    then (Err (of_sql ForeignKeyViolation), db)
    else (Ok (code, expires_at),
          with_pairing (pairing_codes db ++ [{| pc_id := id; pc_account := account;
            pc_code_hash := hash_secret code salt; pc_expires_at := expires_at;
            pc_used := 0 |}]) db).

(** [UPDATE pairing_codes SET used = 1 WHERE id = ? AND used = 0]. *)
Definition burn_code (id : Uuid) (db : Db) : nat * Db :=
  let p := λ r, (bool_decide (pc_id r = id) && bool_decide (pc_used r = 0)%Z)%bool in
  (count_where p (pairing_codes db),
   with_pairing (update_where p set_used (pairing_codes db)) db).

(** The loop of [redeem_pairing_code] over the rows its SELECT returned; each
    burn runs on the database as it is then. *)
Fixpoint redeem_rows (code : string) (rows : list PairingRow) (db : Db)
    : option Uuid * Db :=
  match rows with
  | [] => (None, db)
  | r :: rest =>
    if verify_secret code (pc_code_hash r) then
      let '(n, db') := burn_code (pc_id r) db in
      if decide (n = 1) then (Some (pc_account r), db')
      else redeem_rows code rest db'
    else redeem_rows code rest db
  end.

Definition redeem_pairing_code (code : string) (now : DateTime) (db : Db)
    : option Uuid * Db :=
  redeem_rows code (List.filter (code_active now) (pairing_codes db)) db.
End Pairing.

(** ** db.rs: synced config *)

Definition is_config (account : Uuid) (r : ConfigRow) : bool := bool_decide (cr_account r = account).

Definition select_tag (account : Uuid) (db : Db) : option string :=
  cr_tag <$> fetch_optional (is_config account) (config db).

(** The [tag] of the answer is the stored column. *)
Definition read_config (account : Uuid) (db : Db) : option SyncedConfig :=
  r ← fetch_optional (is_config account) (config db);
  Some (set_tag (cr_tag r) (cr_data r)).

(** [seed_default_config]: [INSERT OR IGNORE], then read back. *)
Definition seed_default_config (account : Uuid) (new_tag : string) (db : Db)
    : outcome Db ApiError SyncedConfig :=
  let cfg := set_tag new_tag SyncedConfig_default in
  let row := {| cr_account := account; cr_tag := new_tag; cr_data := cfg |} in
  if existsb (is_config account) (config db) then
    (ok_or (read_config account db) (internal (Text "config vanished after seed")), db)
  else if negb (existsb (is_account account) (accounts db))
  then (Err (of_sql ForeignKeyViolation), db)
  else
    let db' := with_config (config db ++ [row]) db in
    (ok_or (read_config account db') (internal (Text "config vanished after seed")), db').

Definition get_or_seed_config (account : Uuid) (new_tag : string) (db : Db)
    : outcome Db ApiError SyncedConfig :=
  match read_config account db with
  | Some cfg => (Ok cfg, db)
  | None => seed_default_config account new_tag db
  end.

(** [put_config] is two statements outside a transaction.  [put_config_read] is
    the SELECT (with its lazy seed) and the tag comparison: the stored tag. *)
Definition put_config_read (account : Uuid) (incoming : SyncedConfig) (seed_tag : string)
    (db : Db) : outcome Db ApiError string :=
  let '(stored, db') :=
    match select_tag account db with
    | Some t => (Ok t, db)
    | None => let '(r, db') := seed_default_config account seed_tag db in (tag <$> r, db')
    end in
  (t ← stored;
   if decide (tag incoming = t) then Ok t else Err (config_conflict t), db').

(** The tag-guarded [UPDATE]: the rows affected and the new table. *)
Definition cas_config (account : Uuid) (stored_tag new_tag : string) (cfg : SyncedConfig)
    (db : Db) : nat * Db :=
  let p := λ r, (is_config account r && bool_decide (cr_tag r = stored_tag))%bool in
  (count_where p (config db),
   with_config (update_where p (λ r, {| cr_account := cr_account r; cr_tag := new_tag;
                                        cr_data := cfg |}) (config db)) db).

Definition put_config_commit (account : Uuid) (incoming : SyncedConfig)
    (stored_tag new_tag : string) (db : Db) : outcome Db ApiError SyncedConfig :=
  let cfg := set_tag new_tag incoming in
  let '(n, db') := cas_config account stored_tag new_tag cfg db in
  if decide (n = 1) then (Ok cfg, db')
  else (Err (config_conflict (default "" (select_tag account db'))), db').

Definition put_config (account : Uuid) (incoming : SyncedConfig) (seed_tag new_tag : string)
    (db : Db) : outcome Db ApiError SyncedConfig :=
  match put_config_read account incoming seed_tag db with
  | (Err e, db') => (Err e, db')
  | (Ok stored_tag, db') => put_config_commit account incoming stored_tag new_tag db'
  end.

(** ** db.rs: conflict resolution *)

Section Resolve.
Context `{U : UuidText}.

(** [format!("restore-conflict-{}", &loser[..8.min(loser.len())])]. *)
Definition redirect_of (loser : Uuid) : string :=
  "restore-conflict-" +:+ String.substring 0 8 (uuid_to_string loser).

Definition resolve_conflict_tx (account game winner : Uuid) (keep_both : bool) (id : Uuid)
    (now : DateTime) (db : Db) : result ApiError (Z * Db) :=
  cur_head ← ok_or (select_head game account db) (not_found "game");
  winner_seq ← ok_or (vr_seq <$> fetch_optional
                        (λ r, is_version winner r && of_game game account r)%bool (versions db))
                     (not_found "winner version");
  '(n, db1) ← cas_head winner game account cur_head db;
  if decide (n = 1) then
    match cur_head with
    | Some loser =>
      if decide (loser = winner) then Ok (winner_seq, db1)
      else if existsb (λ r, bool_decide (rc_id r = id)) (resolved_conflicts db1)
      then Err (of_sql UniqueViolation)
      else Ok (winner_seq, with_resolved (resolved_conflicts db1 ++
             [{| rc_id := id; rc_account := account; rc_game := game; rc_winner := winner;
                 rc_loser := loser; rc_keep_both := keep_both;
                 rc_redirect := if keep_both then Some (redirect_of loser) else None;
                 rc_resolved_at := now |}]) db1)
    | None => Ok (winner_seq, db1)
    end
  else Err (conflict (IdsDetail cur_head winner)).

Definition resolve_conflict (account game winner : Uuid) (keep_both : bool) (id : Uuid)
    (now : DateTime) (db : Db) : outcome Db ApiError (HeadResponse * Z) :=
  match resolve_conflict_tx account game winner keep_both id now db with
  | Err e => (Err e, db)
  | Ok (seq, db') =>
    (Ok ({| hr_head := Some winner; hr_seq := Some (i64_as_u64 seq) |}, i64_as_u64 seq), db')
  end.
End Resolve.

(** ** db.rs: blob access gate and WebSocket replay *)

Definition account_references_blob (account : Uuid) (h : string) (db : Db) : bool :=
  existsb (λ r, bool_decide (vr_account r = account) && bool_decide (vr_blob_hash r = h))%bool
    (versions db).

(** [INSERT OR IGNORE INTO blobs (hash, bytes, refcount, ..) VALUES (?, ?, 0, ?)]. *)
Definition insert_blob_row (h : string) (n : Z) (db : Db) : Db :=
  if existsb (is_blob h) (blobs db) then db
  else with_blobs (blobs db ++ [{| br_hash := h; br_bytes := n; br_refcount := 0 |}]) db.

(** [ORDER BY game_id, seq]. *)
Definition game_seq_le (a b : VersionRow) : Prop :=
  (vr_game_id a < vr_game_id b)%N ∨ (vr_game_id a = vr_game_id b ∧ (vr_seq a <= vr_seq b)%Z).
#[export] Instance game_seq_le_dec : RelDecision game_seq_le.
Proof. intros a b. unfold game_seq_le. apply _. Defined.

Definition versions_since (account : Uuid) (last_seq : gmap N Z) (db : Db)
    : list (Uuid * Uuid * Z) :=
  let rows := merge_sort game_seq_le
    (List.filter (λ r, bool_decide (vr_account r = account)) (versions db)) in
  omap (λ r, let seq := i64_as_u64 (vr_seq r) in
             if decide (default 0%Z (last_seq !! vr_game_id r) < seq)%Z
             then Some (vr_game_id r, vr_id r, seq) else None) rows.
