(* ===== verification/ServerGc.v ===== *)
(** * savr-server: retention GC (src/crates/savr-server/src/db.rs, run_gc)

    [run_gc], [prune_game] with its keep mask, and [delete_version_and_deref],
    on the database and the blob store.  The indices are the positions of a
    game's versions in ascending [seq], as in the source. *)

From S2P Require Import Prelude CoreTypes ServerError Auth Blobs ServerDb.

Record GcStats := { versions_pruned : Z; blobs_deleted : Z }.
Definition GcStats_default : GcStats := {| versions_pruned := 0; blobs_deleted := 0 |}.

Record GcVersion := { gv_id : Uuid; gv_kind : string; gv_blob_hash : string }.

(** The server's storage: database and blob files. *)
Record Store := { db : Db; files : FsBlobStore }.

Definition config_retention (account : Uuid) (d : Db) : Retention :=
  default Retention_default (retention <$> read_config account d).

(** ** The keep mask *)

(** Nearest preceding full of each version; a full owns itself. *)
Fixpoint owning_from (last_full : option nat) (i : nat) (vers : list GcVersion)
    : list (option nat) :=
  match vers with
  | [] => []
  | v :: rest =>
    if decide (gv_kind v = "full") then Some i :: owning_from (Some i) (S i) rest
    else last_full :: owning_from last_full (S i) rest
  end.

Definition owning (vers : list GcVersion) : list (option nat) := owning_from None 0 vers.

Definition is_protected (head : option Uuid) (referenced losers : list Uuid) (v : GcVersion) : bool :=
  let is_head := bool_decide (head = Some (gv_id v)) in
  let is_tip := negb (bool_decide (gv_id v ∈ referenced)) in
  is_head || (is_tip && negb (bool_decide (gv_id v ∈ losers))).

(** Head and unresolved tips, each with its owning full. *)
Definition protect_step (head : option Uuid) (referenced losers : list Uuid)
    (own : list (option nat)) (keep : list bool) (iv : nat * GcVersion) : list bool :=
  let '(i, v) := iv in
  if is_protected head referenced losers v then
    let keep := <[i := true]> keep in
    match own !! i with
    | Some (Some f) => <[f := true]> keep
    | _ => keep
    end
  else keep.

Definition enumerate {A} (l : list A) : list (nat * A) := imap pair l.

Definition full_idxs (vers : list GcVersion) : list nat :=
  omap (fun '(i, v) => if decide (gv_kind v = "full") then Some i else None) (enumerate vers).

(** The newest [retention.full] fulls. *)
Definition kept_fulls (r : Retention) (vers : list GcVersion) : list nat :=
  let idxs := full_idxs vers in drop (saturating_sub (length idxs) (full r)) idxs.

(** [diffs_by_full.entry(f).or_default().push(i)]. *)
Definition diffs_by_full (vers : list GcVersion) (own : list (option nat)) : gmap nat (list nat) :=
  foldl (fun m '(i, v) =>
           if decide (gv_kind v = "full") then m
           else match own !! i with
                | Some (Some f) => <[f := default [] (m !! f) ++ [i]]> m
                | _ => m
                end)
    ∅ (enumerate vers).

Definition set_all (idxs : list nat) (keep : list bool) : list bool :=
  foldl (λ k i, <[i := true]> k) keep idxs.

Definition keep_diffs (r : Retention) (kept : list nat) (keep : list bool) (fg : nat * list nat)
    : list bool :=
  let '(f, group) := fg in
  if bool_decide (f ∈ kept)
  then set_all (drop (saturating_sub (length group) (diff_per_full r)) group) keep
  else keep.

Definition keep_mask (head : option Uuid) (r : Retention) (referenced losers : list Uuid)
    (vers : list GcVersion) : list bool :=
  let own := owning vers in
  let keep := replicate (length vers) false in
  let keep := foldl (protect_step head referenced losers own) keep (enumerate vers) in
  let kept := kept_fulls r vers in
  let keep := set_all kept keep in
  foldl (keep_diffs r kept) keep (map_to_list (diffs_by_full vers own)).

(** ** Deleting one version *)

Definition delete_version_tx (id : Uuid) (h : string) (d : Db) : result ApiError (bool * Db) :=
  (* UPDATE versions SET parent = NULL WHERE parent = ? *)
  let d1 := with_versions (update_where (λ r, bool_decide (vr_parent r = Some id))
                             (set_vr_parent None) (versions d)) d in
  (* DELETE FROM versions WHERE id = ?: games.head still points at it? *)
  if (existsb (is_version id) (versions d1)
      && existsb (λ g, bool_decide (gr_head g = Some id)) (games d1))%bool
  then Err (of_sql ForeignKeyViolation)
  else
    let d2 := with_versions (List.filter (λ r, negb (is_version id r)) (versions d1)) d1 in
    let d3 := with_blobs (update_where (is_blob h) (add_refcount (-1)) (blobs d2)) d2 in
    let delete_blob :=
      match br_refcount <$> fetch_optional (is_blob h) (blobs d3) with
      | Some n => bool_decide (n <= 0)%Z
      | None => false
      end in
    if delete_blob then
      (* DELETE FROM blobs WHERE hash = ?: does a version still reference it? *)
      if existsb (λ r, bool_decide (vr_blob_hash r = h)) (versions d3)
      then Err (of_sql ForeignKeyViolation)
      else Ok (true, with_blobs (List.filter (λ b, negb (is_blob h b)) (blobs d3)) d3)
    else Ok (false, d3).

Definition delete_version_and_deref (id : Uuid) (h : string) (stats : GcStats) (s : Store)
    : outcome Store ApiError GcStats :=
  match delete_version_tx id h (db s) with
  | Err e => (Err e, s)
  | Ok (delete_blob, d') =>
    if delete_blob : bool then
      (Ok {| versions_pruned := versions_pruned stats + 1;
             blobs_deleted := blobs_deleted stats + 1 |},
       {| db := d'; files := blob_delete h (files s) |})
    else
      (Ok {| versions_pruned := versions_pruned stats + 1;
             blobs_deleted := blobs_deleted stats |},
       {| db := d'; files := files s |})
  end.

(** ** Pruning one game *)

Definition gc_rows (account game : Uuid) (d : Db) : list GcVersion :=
  map (λ r, {| gv_id := vr_id r; gv_kind := vr_kind r; gv_blob_hash := vr_blob_hash r |})
    (merge_sort seq_le (List.filter (of_game game account) (versions d))).

Definition referenced_ids (account game : Uuid) (d : Db) : list Uuid :=
  omap vr_parent (List.filter (of_game game account) (versions d)).

Definition resolved_losers (account game : Uuid) (d : Db) : list Uuid :=
  map rc_loser (List.filter (λ r, bool_decide (rc_game r = game) &&
                                  bool_decide (rc_account r = account))%bool
                  (resolved_conflicts d)).

(** The final loop: delete what the mask does not keep, stop at the first error. *)
Fixpoint delete_unkept (vk : list (GcVersion * bool)) (stats : GcStats) (s : Store)
    : outcome Store ApiError GcStats :=
  match vk with
  | [] => (Ok stats, s)
  | (v, true) :: rest => delete_unkept rest stats s
  | (v, false) :: rest =>
    match delete_version_and_deref (gv_id v) (gv_blob_hash v) stats s with
    | (Err e, s') => (Err e, s')
    | (Ok stats', s') => delete_unkept rest stats' s'
    end
  end.

Definition prune_game (account game : Uuid) (head : option Uuid) (r : Retention)
    (stats : GcStats) (s : Store) : outcome Store ApiError GcStats :=
  let vers := gc_rows account game (db s) in
  match vers with
  | [] => (Ok stats, s)
  | _ =>
    let keep := keep_mask head r (referenced_ids account game (db s))
                  (resolved_losers account game (db s)) vers in
    delete_unkept (zip vers keep) stats s
  end.

(** ** The sweep *)

Fixpoint gc_games (account : Uuid) (r : Retention) (gs : list Uuid) (stats : GcStats)
    (s : Store) : outcome Store ApiError GcStats :=
  match gs with
  | [] => (Ok stats, s)
  | g :: rest =>
    let head := mjoin (select_head g account (db s)) in
    match prune_game account g head r stats s with
    | (Err e, s') => (Err e, s')
    | (Ok stats', s') => gc_games account r rest stats' s'
    end
  end.

Fixpoint gc_accounts (accs : list Uuid) (stats : GcStats) (s : Store)
    : outcome Store ApiError GcStats :=
  match accs with
  | [] => (Ok stats, s)
  | a :: rest =>
    let r := config_retention a (db s) in
    let gs := map gr_id (List.filter (λ g, bool_decide (gr_account g = a)) (games (db s))) in
    match gc_games a r gs stats s with
    | (Err e, s') => (Err e, s')
    | (Ok stats', s') => gc_accounts rest stats' s'
    end
  end.

Definition run_gc (s : Store) : outcome Store ApiError GcStats :=
  gc_accounts (map ac_id (accounts (db s))) GcStats_default s.
