(* ===== verification/ServerApi.v ===== *)
(** * savr-server: HTTP handlers (src/crates/savr-server/src/api.rs, main.rs)

    [AppState] and one function per handler, with the extractors that
    authenticate a request and [build_app] as the dispatch over routes.  What a
    handler takes from its surroundings (clock, fresh UUIDs, random bytes, the
    argon2 salt) is the record [Env].  A rejected request keeps the effects its
    handler had before the rejection. *)

From S2P Require Import Prelude CoreTypes ServerError Auth Blobs Hub ServerDb ServerGc.

Record AppState := {
  store : Store;
  hub : Hub;
  channels : Channels;
  jwt_secret : string;
  pair_guard : PairGuard;
}.

(** What one request observes: [Utc::now], [Instant::now], [Uuid::now_v7],
    random bytes for a code and for a secret, and a salt. *)
Record Env := {
  e_now : DateTime;
  e_instant : Z;
  e_uuid : Uuid;
  e_tag : string;
  e_seed_tag : string;
  e_code_bytes : list Byte.byte;
  e_secret_bytes : list Byte.byte;
  e_salt : string;
}.

Definition timestamp (e : Env) : Z := Z.div (e_now e) nanos_per_sec.

Definition with_db (d : Db) (app : AppState) : AppState :=
  {| store := {| db := d; files := files (store app) |}; hub := hub app;
     channels := channels app; jwt_secret := jwt_secret app; pair_guard := pair_guard app |}.
Definition with_files (f : FsBlobStore) (app : AppState) : AppState :=
  {| store := {| db := db (store app); files := f |}; hub := hub app;
     channels := channels app; jwt_secret := jwt_secret app; pair_guard := pair_guard app |}.
Definition with_store (s : Store) (app : AppState) : AppState :=
  {| store := s; hub := hub app; channels := channels app;
     jwt_secret := jwt_secret app; pair_guard := pair_guard app |}.
Definition with_hub (h : Hub) (app : AppState) : AppState :=
  {| store := store app; hub := h; channels := channels app;
     jwt_secret := jwt_secret app; pair_guard := pair_guard app |}.
Definition with_channels (cs : Channels) (app : AppState) : AppState :=
  {| store := store app; hub := hub app; channels := cs;
     jwt_secret := jwt_secret app; pair_guard := pair_guard app |}.
Definition with_guard (g : PairGuard) (app : AppState) : AppState :=
  {| store := store app; hub := hub app; channels := channels app;
     jwt_secret := jwt_secret app; pair_guard := g |}.

Definition app_db (app : AppState) : Db := db (store app).
Definition app_blobs (app : AppState) : FsBlobStore := files (store app).

Definition tell_except (account except : Uuid) (m : ServerMsg) (app : AppState) : AppState :=
  with_channels (broadcast_except account except m (hub app) (channels app)) app.
Definition tell_account (account : Uuid) (m : ServerMsg) (app : AppState) : AppState :=
  with_channels (broadcast_account account m (hub app) (channels app)) app.

(** The response bodies. *)
Inductive Body :=
  | NoBody
  | BText (t : string)
  | BLogin (session_token : string) (expires_in : Z)
  | BCode (pairing_code : string) (expires_at : DateTime)
  | BPair (device_id account_id : Uuid) (refresh_secret access_token : string) (expires_in : Z)
  | BToken (access_token : string) (expires_in : Z)
  | BDevices (l : list Device)
  | BGame (g : GameRow)
  | BHead (h : HeadResponse)
  | BVersions (l : list Version)
  | BVersion (v : Version)
  | BConfig (c : SyncedConfig)
  | BBlob (b : bytes)
  | BUpgrade (account device : Uuid).

Record Response := { resp_status : Z; resp_body : Body }.
Definition json (b : Body) : Response := {| resp_status := 200; resp_body := b |}.

Definition Handler : Type := AppState → outcome AppState ApiError Response.

(** Run the rest of a handler with the value and the state of its first part. *)
Definition andThen {A} (m : outcome AppState ApiError A)
    (k : A → Handler) : outcome AppState ApiError Response :=
  match m with
  | (Ok a, app) => k a app
  | (Err e, app) => (Err e, app)
  end.

(** ** Extractors *)

Record Authed := { account_id : Uuid; device_id : Uuid }.

Fixpoint trim_start (s : string) : string :=
  match s with
  | String c r => if is_space c then trim_start r else s
  | EmptyString => EmptyString
  end.
Definition string_rev (s : string) : string :=
  String.string_of_list_ascii (rev (String.list_ascii_of_string s)).
Definition trim (s : string) : string := string_rev (trim_start (string_rev (trim_start s))).

(** [header] is the Authorization header when present and visible ASCII. *)
Definition bearer (header : option string) : result ApiError string :=
  value ← ok_or header (unauthorized "missing Authorization header");
  trim <$> ok_or (strip_prefix "Bearer " value) (unauthorized "expected Bearer token").

Section Extract.
Context `{J : Jwt} `{U : UuidText}.

Definition authed (env : Env) (header : option string) (app : AppState)
    : result ApiError Authed :=
  token ← bearer header;
  claims ← verify_access (jwt_secret app) (timestamp env) token;
  account ← ok_or (uuid_parse (acc claims)) (unauthorized "malformed acc claim");
  device ← ok_or (uuid_parse (sub claims)) (unauthorized "malformed sub claim");
  if negb (device_active account device (app_db app))
  then Err (unauthorized "device revoked or unknown")
  else Ok {| account_id := account; device_id := device |}.

Definition owner_session (env : Env) (header : option string) (app : AppState)
    : result ApiError Uuid :=
  token ← bearer header;
  claims ← verify_owner_session (jwt_secret app) (timestamp env) token;
  ok_or (uuid_parse (s_acc claims)) (unauthorized "malformed acc claim").
End Extract.

Definition valid_hash (h : string) : result ApiError unit :=
  if (String.length h =? 64)%nat && forallb is_hex_digit (String.list_ascii_of_string h)
  then Ok tt
  else Err (bad_request "blob hash must be 64 hex chars").

(** ** Health *)

Definition healthz : Response := json (BText "ok").

(** [db_ok] and [blob_ok] are what the two probes answered. *)
Definition readyz (db_ok blob_ok : bool) : result ApiError Response :=
  if db_ok && blob_ok then Ok (json (BText "ready"))
  else Err (ApiError_new 503 "unavailable" (Text "not ready")).

(** ** Auth and devices *)

Section Handlers.
Context `{B3 : Blake3} `{A2 : Argon2} `{J : Jwt} `{U : UuidText}.

Definition login (env : Env) (password : string) : Handler := λ app,
  (row ← ok_or (head (accounts (app_db app))) (unauthorized "no owner account provisioned");
   if negb (verify_secret password (ac_owner_hash row))
   then Err (unauthorized "invalid password")
   else Ok (json (BLogin (mint_owner_session (jwt_secret app) (timestamp env) (ac_id row))
                    SESSION_TTL_SECS)), app).

Definition create_pair_code (env : Env) (owner : Uuid) : Handler := λ app,
  let '(r, d') := create_pairing_code owner (e_now env)
                    (generate_pairing_code (e_code_bytes env)) (e_salt env) (e_uuid env)
                    (app_db app) in
  andThen (r, with_db d' app) (λ ce app, (Ok (json (BCode (fst ce) (snd ce))), app)).

Definition pair (env : Env) (req : PairRequest) : Handler := λ app,
  match guard_check (pair_guard app) (e_instant env) with
  | Err e => (Err e, app)
  | Ok _ =>
    let '(redeemed, d1) := redeem_pairing_code (pr_code req) (e_now env) (app_db app) in
    let app := with_db d1 app in
    match redeemed with
    | None =>
      (Err (unauthorized "invalid or expired pairing code"),
       with_guard (record_fail (pair_guard app) (e_instant env)) app)
    | Some account =>
      let app := with_guard (record_success (pair_guard app)) app in
      let device := e_uuid env in
      let secret := generate_refresh_secret (e_secret_bytes env) in
      match create_device account device (pr_device_name req) (pr_os req)
              (hash_secret secret (e_salt env)) (e_now env) (app_db app) with
      | Err e => (Err e, app)
      | Ok d2 =>
        let token := mint_access_token (jwt_secret app) (timestamp env) account device in
        let app := tell_account account (DeviceAdded device) (with_db d2 app) in
        (Ok (json (BPair device account secret token ACCESS_TTL_SECS)), app)
      end
    end
  end.

Definition refresh (env : Env) (req : RefreshRequest) : Handler := λ app,
  let creds := "invalid device credentials" in
  (c ← ok_or (device_credentials (rf_device_id req) (app_db app)) (unauthorized creds);
   let '(account, token_hash, revoked) := c in
   if (revoked || negb (verify_secret (rf_refresh_secret req) token_hash))%bool
   then Err (unauthorized creds)
   else Ok (json (BToken (mint_access_token (jwt_secret app) (timestamp env) account
                            (rf_device_id req)) ACCESS_TTL_SECS)), app).

Definition get_devices (auth : Authed) : Handler := λ app,
  (Ok (json (BDevices (list_devices (account_id auth) (app_db app)))), app).

Definition delete_device (auth : Authed) (id : Uuid) : Handler := λ app,
  let '(revoked, d') := revoke_device (account_id auth) id (app_db app) in
  let app := with_db d' app in
  if negb revoked then (Err (not_found "device"), app)
  else (Ok {| resp_status := 204; resp_body := NoBody |},
        with_hub (drop_device (account_id auth) id (hub app)) app).

(** ** Games and versions *)

Definition post_ensure_game (env : Env) (auth : Authed) (req : EnsureGameRequest) : Handler :=
  λ app,
  let '(r, d') := ensure_game (account_id auth) (eg_title req) (eg_steam_appid req)
                    (e_uuid env) (app_db app) in
  andThen (r, with_db d' app) (λ g app, (Ok (json (BGame g)), app)).

Definition fetch_head (auth : Authed) (game : Uuid) : Handler := λ app,
  ((λ h, json (BHead h)) <$> get_head (account_id auth) game (app_db app), app).

Definition fetch_versions (auth : Authed) (game : Uuid) : Handler := λ app,
  ((λ l, json (BVersions l)) <$> list_versions (account_id auth) game (app_db app), app).

Definition post_version (env : Env) (auth : Authed) (game : Uuid) (req : CreateVersion) : Handler :=
  λ app,
  let blob_hex := to_hex (cv_blob_hash req) in
  if negb (blob_exists (app_blobs app) blob_hex) then (Err (blob_missing blob_hex), app)
  else
    let '(r, d') := create_version (account_id auth) game req (e_uuid env) (e_now env) (app_db app) in
    andThen (r, with_db d' app) (λ adv app,
      match adv with
      | FastForward v =>
        (Ok {| resp_status := 201; resp_body := BVersion v |},
         tell_except (account_id auth) (v_device_id v)
           (VersionAvailable game (v_id v) (v_seq v)) app)
      | Conflict hd incoming =>
        let tips := match hd with Some h => [v_id h] | None => [] end ++ [v_id incoming] in
        (Err (conflict (TipsDetail hd incoming)),
         tell_account (account_id auth) (ConflictMsg game tips) app)
      end).

Definition resolve (env : Env) (auth : Authed) (game : Uuid) (req : ResolveRequest) : Handler :=
  λ app,
  let '(r, d') := resolve_conflict (account_id auth) game (rr_winner req) (rr_keep_both req)
                    (e_uuid env) (e_now env) (app_db app) in
  andThen (r, with_db d' app) (fun '(hd, seq) app =>
    (Ok (json (BHead hd)),
     match hr_head hd with
     | Some v => tell_except (account_id auth) (device_id auth) (VersionAvailable game v seq) app
     | None => app
     end)).

(** ** Config *)

Definition get_config (env : Env) (auth : Authed) : Handler := λ app,
  let '(r, d') := get_or_seed_config (account_id auth) (e_seed_tag env) (app_db app) in
  andThen (r, with_db d' app) (λ c app, (Ok (json (BConfig c)), app)).

Definition put_config_handler (env : Env) (auth : Authed) (cfg : SyncedConfig) : Handler := λ app,
  let '(r, d') := put_config (account_id auth) cfg (e_seed_tag env) (e_tag env) (app_db app) in
  andThen (r, with_db d' app) (λ updated app,
    (Ok (json (BConfig updated)),
     tell_except (account_id auth) (device_id auth) (ConfigUpdated (tag updated)) app)).

(** ** Blobs *)

Definition blob_head (h : string) : Handler := λ app,
  (_ ← valid_hash h;
   if blob_exists (app_blobs app) h then Ok (json NoBody) else Err (not_found "blob"), app).

Definition blob_put_handler (h : string) (body : list (result string bytes)) : Handler := λ app,
  match valid_hash h with
  | Err e => (Err e, app)
  | Ok _ =>
    let existed := blob_exists (app_blobs app) h in
    match blob_put h body (app_blobs app) with
    | (Err e, f') => (Err (of_blob_error e), with_files f' app)
    | (Ok n, f') =>
      let app := with_files f' app in
      (Ok {| resp_status := if existed then 200 else 201; resp_body := NoBody |},
       with_db (insert_blob_row h (u64_as_i64 n) (app_db app)) app)
    end
  end.

Definition blob_get (auth : Authed) (h : string) : Handler := λ app,
  (_ ← valid_hash h;
   if negb (account_references_blob (account_id auth) h (app_db app))
   then Err (not_found "blob")
   else b ← ok_or (blob_read (app_blobs app) h) (not_found "blob"); Ok (json (BBlob b)), app).

Definition ws_upgrade (auth : Authed) : Handler := λ app,
  (Ok {| resp_status := 101; resp_body := BUpgrade (account_id auth) (device_id auth) |}, app).

(** ** The router *)

Inductive DeviceRequest :=
  | ListDevices
  | DeleteDevice (id : Uuid)
  | EnsureGame (req : EnsureGameRequest)
  | PostVersion (game : Uuid) (req : CreateVersion)
  | ListVersions (game : Uuid)
  | GetHead (game : Uuid)
  | Resolve (game : Uuid) (req : ResolveRequest)
  | GetConfig
  | PutConfig (cfg : SyncedConfig)
  | HeadBlob (h : string)
  | PutBlob (h : string) (body : list (result string bytes))
  | GetBlob (h : string)
  | Ws.

Inductive Request :=
  | Healthz
  | Readyz (db_ok blob_ok : bool)
  | Login (password : string)
  | Refresh (req : RefreshRequest)
  | PairCode
  | Pair (req : PairRequest)
  | Device (req : DeviceRequest).

(** The handler of a route whose handler takes an [Authed]. *)
Definition device_handler (env : Env) (auth : Authed) (req : DeviceRequest) : Handler :=
  match req with
  | ListDevices => get_devices auth
  | DeleteDevice id => delete_device auth id
  | EnsureGame r => post_ensure_game env auth r
  | PostVersion g r => post_version env auth g r
  | ListVersions g => fetch_versions auth g
  | GetHead g => fetch_head auth g
  | Resolve g r => resolve env auth g r
  | GetConfig => get_config env auth
  | PutConfig c => put_config_handler env auth c
  | HeadBlob h => blob_head h
  | PutBlob h b => blob_put_handler h b
  | GetBlob h => blob_get auth h
  | Ws => ws_upgrade auth
  end.

(** [build_app]: the route's extractor, then its handler. *)
Definition build_app (env : Env) (header : option string) (req : Request) : Handler := λ app,
  match req with
  | Healthz => (Ok healthz, app)
  | Readyz d b => (readyz d b, app)
  | Login p => login env p app
  | Refresh r => refresh env r app
  | PairCode => andThen (owner_session env header app, app) (create_pair_code env)
  | Pair r => pair env r app
  | Device r => andThen (authed env header app, app) (λ auth, device_handler env auth r)
  end.

(** main.rs: [ensure_owner_account] on first boot, [password] being the
    configured or generated one. *)
Definition ensure_owner_account (password : string) (env : Env) (d : Db)
    : outcome Db ApiError Uuid :=
  match accounts d with
  | a :: _ => (Ok (ac_id a), d)
  | [] =>
    let row := {| ac_id := e_uuid env; ac_owner_hash := hash_secret password (e_salt env) |} in
    let d1 := {| accounts := [row]; devices := devices d; blobs := blobs d; games := games d;
                 versions := versions d; config := config d;
                 pairing_codes := pairing_codes d; resolved_conflicts := resolved_conflicts d |} in
    match seed_default_config (e_uuid env) (e_seed_tag env) d1 with
    | (Err e, d2) => (Err e, d2)
    | (Ok _, d2) => (Ok (e_uuid env), d2)
    end
  end.
End Handlers.

(** [AppState::new]. *)
Definition AppState_new (d : Db) (f : FsBlobStore) (secret : string) : AppState :=
  {| store := {| db := d; files := f |}; hub := ∅; channels := ∅; jwt_secret := secret;
     pair_guard := PairGuard_new |}.

(** ** main.rs: start-up *)

(** [env(key, default)]. *)
Definition env_or (vars : Environment) (key dflt : string) : string := default dflt (vars key).

(** What the process finds on its machine: its variables, the files it can read
    and those it can write. *)
Record Host := { h_vars : Environment; h_files : gmap string string; h_writable : string → bool }.

(** The secret, and the files afterwards. *)
Definition load_or_create_jwt_secret (h : Host) (random : list Byte.byte) : string * gmap string string :=
  let path := env_or (h_vars h) "SAVR_JWT_SECRET_FILE" "data/jwt.secret" in
  let generate :=
    let secret := generate_refresh_secret random in
    (secret, if h_writable h path then <[path := secret]> (h_files h) else h_files h) in
  let from_file :=
    match h_files h !! path with
    | Some s => if bool_decide (s = "") then generate else (s, h_files h)
    | None => generate
    end in
  match h_vars h "SAVR_JWT_SECRET" with
  | Some s => if bool_decide (s = "") then from_file else (s, h_files h)
  | None => from_file
  end.

Definition owner_password (h : Host) (random : list Byte.byte) : string :=
  match h_vars h "SAVR_OWNER_PASSWORD" with
  | Some p => if bool_decide (p = "") then generate_refresh_secret random else p
  | None => generate_refresh_secret random
  end.

(** [main] up to the state it serves: on the tables and blobs it finds, and two
    draws of random bytes. *)
Definition server_main `{Argon2} (h : Host) (env : Env) (pw_bytes jwt_bytes : list Byte.byte) (s : Store)
    : result ApiError AppState * gmap string string * Store :=
  match ensure_owner_account (owner_password h pw_bytes) env (db s) with
  | (Err e, d) => (Err e, h_files h, {| db := d; files := files s |})
  | (Ok _, d) =>
    let '(secret, fs) := load_or_create_jwt_secret h jwt_bytes in
    (Ok (AppState_new d (files s) secret), fs, {| db := d; files := files s |})
  end.

Definition gc_interval (vars : Environment) : Z := default 3600%Z (u64_parse (env_or vars "SAVR_GC_INTERVAL_SECS" "3600")).

(** The sweeps of the scheduled task, each after a tick; what a sweep answers is
    only logged.  A period of zero makes the timer panic, and the task with it. *)
Definition gc_task (interval : Z) (ticks : nat) (s : Store) : Store :=
  if bool_decide (interval = 0)%Z then s else Nat.iter ticks (λ s, snd (run_gc s)) s.
