(* ===== verification/Ws.v ===== *)
(** * savr-server: per-device WebSocket (src/crates/savr-server/src/ws.rs)

    [handle_socket] as the sequence of events its [select!] loop consumes.  An
    event carries what the outside decides (a frame, whether the peer accepts a
    send); the step answers whether the loop goes on and what went out. *)

From S2P Require Import Prelude CoreTypes ServerError Auth Blobs Hub ServerDb ServerGc ServerApi.

Inductive WsEvent :=
  | EvHub (send_ok : bool)
  | EvTick (send_ok : bool)
  | EvText (m : option ClientMsg)
  | EvPing (payload : bytes) (send_ok : bool)
  | EvPong
  | EvBinary
  | EvClose
  | EvError.

Inductive WsFrame :=
  | FText (m : ServerMsg)
  | FPing
  | FPong (payload : bytes).

Definition queue_all (tx : Chan) (msgs : list ServerMsg) (cs : Channels) : Channels :=
  foldl (λ cs m, send tx m cs) cs msgs.

(** The [Hello] arm, after its revocation check. *)
Definition on_hello (now : DateTime) (auth : Authed) (tx : Chan) (last_seq : gmap N Z)
    (app : AppState) : AppState :=
  let app := with_hub (register (account_id auth) (device_id auth) tx (hub app)) app in
  let missed := versions_since (account_id auth) last_seq (app_db app) in
  let app := with_channels
    (queue_all tx (map (fun '(g, v, s) => VersionAvailable g v s) missed) (channels app)) app in
  with_db (touch_device (account_id auth) (device_id auth) now (app_db app)) app.

(** One turn of the loop: continue?, what was sent, the state. *)
Definition ws_step (now : DateTime) (auth : Authed) (tx : Chan) (ev : WsEvent) (app : AppState)
    : bool * list WsFrame * AppState :=
  match ev with
  | EvHub ok =>
    match channels app !! tx with
    | Some (m :: q) =>
      let app := with_channels (<[tx := q]> (channels app)) app in
      if ok : bool then (true, [FText m], app) else (false, [], app)
    | _ => (true, [], app)
    end
  | EvTick ok =>
    if negb (device_active (account_id auth) (device_id auth) (app_db app)) then (false, [], app)
    else if ok : bool then (true, [FPing], app) else (false, [], app)
  | EvText (Some (Hello _ last_seq)) =>
    if negb (device_active (account_id auth) (device_id auth) (app_db app)) then (false, [], app)
    else (true, [], on_hello now auth tx last_seq app)
  | EvText (Some (Subscribe _)) => (true, [], app)
  | EvText (Some PingMsg) => (true, [], with_channels (send tx Pong (channels app)) app)
  | EvText None => (true, [], app)
  | EvPing p ok => if ok : bool then (true, [FPong p], app) else (false, [], app)
  | EvPong => (true, [], app)
  | EvBinary => (true, [], app)
  | EvClose => (false, [], app)
  | EvError => (false, [], app)
  end.

(** Before the loop: a fresh channel, registered up front. *)
Definition ws_open (auth : Authed) (tx : Chan) (app : AppState) : AppState :=
  with_hub (register (account_id auth) (device_id auth) tx (hub app))
    (with_channels (<[tx := []]> (channels app)) app).

(** After the loop: deregister; the receiver is dropped with the function. *)
Definition ws_close (auth : Authed) (tx : Chan) (app : AppState) : AppState :=
  with_hub (deregister (account_id auth) (device_id auth) (hub app))
    (with_channels (delete tx (channels app)) app).

Fixpoint ws_loop (auth : Authed) (tx : Chan) (evs : list (DateTime * WsEvent)) (app : AppState)
    : list WsFrame * AppState :=
  match evs with
  | [] => ([], app)
  | (now, ev) :: rest =>
    let '(continue, out, app) := ws_step now auth tx ev app in
    if continue : bool then
      let '(out', app) := ws_loop auth tx rest app in (out ++ out', app)
    else (out, app)
  end.

(** The whole socket on a quiet server: [evs] is what its [select!] saw. *)
Definition handle_socket (auth : Authed) (tx : Chan) (evs : list (DateTime * WsEvent))
    (app : AppState) : list WsFrame * AppState :=
  let '(out, app) := ws_loop auth tx evs (ws_open auth tx app) in (out, ws_close auth tx app).
