(* ===== verification/DbWf.v ===== *)
(** * savr-server: database well-formedness

    The invariant of the server's tables that every operation of db.rs keeps:
    keys are unique, foreign keys resolve, a head belongs to its game, a parent
    of the same game has a smaller [seq], and a blob's refcount is the number of
    versions that reference it. *)

From S2P Require Import Prelude CoreTypes ServerError Auth Blobs ServerDb ServerGc.

Definition refs (h : string) (vs : list VersionRow) : nat :=
  count_where (λ v, bool_decide (vr_blob_hash v = h)) vs.

Record db_wf `{Blake3} (d : Db) : Prop := {
  wf_vids : NoDup (map vr_id (versions d));
  wf_gids : NoDup (map gr_id (games d));
  wf_bids : NoDup (map br_hash (blobs d));
  wf_vgame v : v ∈ versions d →
    ∃ g, g ∈ games d ∧ gr_id g = vr_game_id v ∧ gr_account g = vr_account v;
  wf_refcount b : b ∈ blobs d → br_refcount b = Z.of_nat (refs (br_hash b) (versions d));
  wf_vblob v : v ∈ versions d → ∃ b, b ∈ blobs d ∧ br_hash b = vr_blob_hash v;
  wf_parent v p : v ∈ versions d → vr_parent v = Some p →
    ∃ w, w ∈ versions d ∧ vr_id w = p ∧
         (vr_game_id w = vr_game_id v → (vr_seq w < vr_seq v)%Z);
  wf_head g h : g ∈ games d → gr_head g = Some h →
    ∃ v, v ∈ versions d ∧ vr_id v = h ∧ vr_game_id v = gr_id g;
  wf_seq v w : v ∈ versions d → w ∈ versions d →
    vr_game_id v = vr_game_id w → vr_seq v = vr_seq w → v = w;
  wf_seq_pos v : v ∈ versions d → (1 <= vr_seq v)%Z;
  wf_hash v : v ∈ versions d → ∃ h, vr_blob_hash v = to_hex h;
}.

(** Tables other than versions, games and blobs do not matter. *)
Lemma wf_frame `{Blake3} d d' :
  versions d' = versions d → games d' = games d → blobs d' = blobs d → db_wf d → db_wf d'.
Proof.
  intros Hv Hg Hb []. constructor; rewrite ?Hv, ?Hg, ?Hb; auto.
Qed.

Lemma empty_db_wf `{Blake3} : db_wf empty_db.
Proof.
  constructor; simpl; try apply base.NoDup_nil_2;
    intros; match goal with H : _ ∈ [] |- _ => by apply elem_of_nil in H end.
Qed.

(** ** [existsb] and single rows *)

Lemma existsb_elem {A} (p : A → bool) l : existsb p l = true ↔ ∃ x, x ∈ l ∧ p x = true.
Proof. rewrite existsb_exists. by setoid_rewrite list_elem_of_In. Qed.

Lemma existsb_elem_false {A} (p : A → bool) l : existsb p l = false ↔ ∀ x, x ∈ l → p x = false.
Proof.
  split.
  - intros H x Hx. destruct (p x) eqn:E; [|done].
    assert (existsb p l = true) by (apply existsb_elem; eauto). congruence.
  - intros H. destruct (existsb p l) eqn:E; [|done].
    apply existsb_elem in E as (x & Hx & Hp). rewrite H in Hp; done.
Qed.

Lemma is_version_true id r : is_version id r = true ↔ vr_id r = id.
Proof. unfold is_version. apply bool_decide_eq_true. Qed.
Lemma is_game_true id r : is_game id r = true ↔ gr_id r = id.
Proof. unfold is_game. apply bool_decide_eq_true. Qed.
Lemma is_blob_true h r : is_blob h r = true ↔ br_hash r = h.
Proof. unfold is_blob. apply bool_decide_eq_true. Qed.
Lemma my_game_true g a r : my_game g a r = true ↔ gr_id r = g ∧ gr_account r = a.
Proof. unfold my_game. rewrite andb_true_iff, is_game_true, bool_decide_eq_true. done. Qed.
Lemma of_game_true g a r : of_game g a r = true ↔ vr_game_id r = g ∧ vr_account r = a.
Proof. unfold of_game. by rewrite andb_true_iff, !bool_decide_eq_true. Qed.
#[export] Hint Rewrite is_version_true is_game_true is_blob_true my_game_true of_game_true
  andb_true_iff orb_true_iff negb_true_iff bool_decide_eq_true : savr_rw.

(** A predicate that fixes the game's id matches at most one row. *)
Lemma count_game `{Blake3} d g (p : GameRow → bool) :
  db_wf d → g ∈ games d → (∀ x, p x = true → gr_id x = gr_id g) →
  count_where p (games d) = if p g then 1 else 0.
Proof.
  intros Hwf Hg Hp. rewrite (count_where_remove_key gr_id p (games d) g) by (done || apply Hwf).
  enough (count_where p (List.filter (λ x, negb (bool_decide (gr_id x = gr_id g))) (games d)) = 0)
    as -> by (destruct (p g); lia).
  apply count_where_0. intros x [_ Hx]%elem_of_filter_bool. bool_simpl.
  destruct (p x) eqn:E; [|done]. apply Hp in E. done.
Qed.

Lemma select_head_elem `{Blake3} d game account h :
  db_wf d → select_head game account d = Some h →
  ∃ g, g ∈ games d ∧ gr_id g = game ∧ gr_account g = account ∧ gr_head g = h.
Proof.
  unfold select_head. intros _ Hs.
  destruct (fetch_optional _ _) as [g|] eqn:E; [|done].
  apply fetch_optional_Some in E as [Hg Hm]. apply my_game_true in Hm as [??].
  simpl in Hs. injection Hs as <-. eauto.
Qed.

Lemma select_head_of `{Blake3} d g :
  db_wf d → g ∈ games d → select_head (gr_id g) (gr_account g) d = Some (gr_head g).
Proof.
  intros Hwf Hg. unfold select_head.
  destruct (fetch_optional_is_Some (my_game (gr_id g) (gr_account g)) (games d) g Hg)
    as (g' & -> & Hg' & Hm); [by apply my_game_true|].
  apply my_game_true in Hm as [Hid _]. simpl.
  by rewrite (NoDup_key_inj gr_id (games d) g' g (wf_gids d Hwf) Hg' Hg Hid).
Qed.

Lemma fetch_version `{Blake3} d v :
  db_wf d → v ∈ versions d → fetch_optional (is_version (vr_id v)) (versions d) = Some v.
Proof. intros Hwf Hv. apply (fetch_key vr_id); [apply Hwf|done]. Qed.

(** ** Sequence numbers *)

Lemma foldl_max_le (l : list Z) (a : Z) : (a <= foldl Z.max a l)%Z ∧ ∀ x, x ∈ l → (x <= foldl Z.max a l)%Z.
Proof.
  revert a. induction l as [|y l IH]; intros a; simpl.
  - split; [lia|]. intros x Hx. by apply elem_of_nil in Hx.
  - destruct (IH (Z.max a y)) as [H1 H2]. split; [lia|].
    intros x [->|Hx]%elem_of_cons; [lia|auto].
Qed.

(** The next [seq] is above every version of the game. *)
Lemma next_seq_above d game v :
  v ∈ versions d → vr_game_id v = game → (vr_seq v < next_seq game d)%Z.
Proof.
  intros Hv Hg. unfold next_seq.
  assert (Hin : vr_seq v ∈ map vr_seq (List.filter (λ r, bool_decide (vr_game_id r = game)) (versions d))).
  { apply list_elem_of_fmap_2, elem_of_filter_bool. by rewrite bool_decide_eq_true. }
  destruct (map vr_seq _) as [|s rest]; [by apply elem_of_nil in Hin|].
  destruct (foldl_max_le rest s) as [H1 H2].
  apply elem_of_cons in Hin as [->|Hin]; [lia|]. specialize (H2 _ Hin). lia.
Qed.

Lemma next_seq_pos `{Blake3} d game : db_wf d → (1 <= next_seq game d)%Z.
Proof.
  intros Hwf. unfold next_seq.
  destruct (map vr_seq _) as [|s rest] eqn:E; [lia|].
  destruct (foldl_max_le rest s) as [H1 _].
  assert (Hs : s ∈ map vr_seq (List.filter (λ r, bool_decide (vr_game_id r = game)) (versions d)))
    by (rewrite E; apply list_elem_of_here).
  apply list_elem_of_fmap in Hs as (v & -> & [Hv _]%elem_of_filter_bool).
  pose proof (wf_seq_pos d Hwf v Hv). lia.
Qed.

(** ** Refcounts under [UPDATE blobs SET refcount = refcount + d] *)

Lemma br_hash_add_refcount z b : br_hash (add_refcount z b) = br_hash b.
Proof. done. Qed.

Lemma elem_of_bump h z bs b :
  b ∈ update_where (is_blob h) (add_refcount z) bs →
  ∃ b0, b0 ∈ bs ∧ br_hash b = br_hash b0 ∧
        br_refcount b = (br_refcount b0 + if decide (br_hash b0 = h) then z else 0)%Z.
Proof.
  intros (b0 & Hb0 & ->)%elem_of_update_where. exists b0. split; [done|].
  destruct (is_blob h b0) eqn:E.
  - apply is_blob_true in E. rewrite decide_True by done. done.
  - rewrite decide_False; [split; [done|lia]|]. intros He.
    apply is_blob_true in He. congruence.
Qed.

Lemma refs_snoc h vs r :
  refs h (vs ++ [r]) = refs h vs + if decide (vr_blob_hash r = h) then 1 else 0.
Proof.
  unfold refs. rewrite count_where_app, count_where_cons.
  change (count_where _ []) with 0. case_bool_decide; case_decide; (lia || done).
Qed.

(** ** Preservation: create_version *)

Section Create.
Context `{B3 : Blake3} `{!Blake3Laws}.
Implicit Types (d : Db) (req : CreateVersion).

(** What a successful [INSERT INTO versions] checked. *)
Lemma insert_version_ok r d d' :
  insert_version r d = Ok d' →
  d' = with_versions (versions d ++ [r]) d ∧
  (∀ x, x ∈ versions d → vr_id x ≠ vr_id r) ∧
  (∀ x, x ∈ versions d → vr_game_id x = vr_game_id r → vr_seq x ≠ vr_seq r) ∧
  (∃ g, g ∈ games d ∧ gr_id g = vr_game_id r) ∧
  (∃ b, b ∈ blobs d ∧ br_hash b = vr_blob_hash r) ∧
  (∀ p, vr_parent r = Some p → p = vr_id r ∨ ∃ w, w ∈ versions d ∧ vr_id w = p).
Proof.
  unfold insert_version. destruct (existsb _ (versions d)) eqn:E1; [done|].
  destruct (negb _) eqn:E2; [done|]. intros [= <-].
  rewrite existsb_elem_false in E1. bool_simpl.
  repeat match goal with H : existsb _ _ = true |- _ => apply existsb_elem in H as (?&?&?) end.
  split_and!; [done|..].
  - intros y Hy Hid. specialize (E1 y Hy). bool_simpl. apply is_version_true in Hid. congruence.
  - intros y Hy Hg Hs. specialize (E1 y Hy). bool_simpl.
    rewrite !bool_decide_eq_true_2 in * by done. done.
  - eexists. split; [done|]. by apply is_game_true.
  - eexists. split; [done|]. by apply is_blob_true.
  - intros p Hp. rewrite Hp in *.
    match goal with H : (_ || _)%bool = true |- _ => apply orb_true_iff in H as [H|H] end.
    + left. match goal with H : is_version p r = true |- _ => by apply is_version_true in H end.
    + right. match goal with H : existsb _ _ = true |- _ => apply existsb_elem in H as (w&?&?) end.
      exists w. split; [done|]. by apply is_version_true.
Qed.

Definition bump (h : string) (d : Db) : Db :=
  with_blobs (update_where (is_blob h) (add_refcount 1) (blobs d)) d.

Definition move_head (id game account : Uuid) (expected : option Uuid) (d : Db) : Db :=
  with_games (update_where (λ g, my_game game account g && bool_decide (gr_head g = expected))%bool
                (set_gr_head (Some id)) (games d)) d.

(** The state a committed transaction leaves. *)
Lemma create_version_tx_ok account game req id now d adv prev d' :
  create_version_tx account game req id now d = Ok (adv, prev, d') →
  let row := new_version_row account game req id (next_seq game d) now in
  insert_version row d = Ok (with_versions (versions d ++ [row]) d) ∧
  select_head game account d = Some prev ∧
  d' = move_head id game account (cv_parent req)
         (bump (to_hex (cv_blob_hash req)) (with_versions (versions d ++ [row]) d)) ∧
  adv = bool_decide (count_where (λ g, my_game game account g &&
          bool_decide (gr_head g = cv_parent req))%bool (games d) = 1).
Proof.
  unfold create_version_tx. intros Htx.
  destruct (insert_version _ d) as [d1|e] eqn:Ei; [|done].
  destruct (insert_version_ok _ _ _ Ei) as (-> & _). simpl in Htx.
  unfold select_head in *. simpl in Htx.
  destruct (fetch_optional (my_game game account) (games d)) as [g|]; [|done]. simpl in Htx.
  unfold cas_head in Htx. simpl in Htx.
  case_match_in Htx; [done|]. simpl in Htx. injection Htx as <- <- <-.
  split_and!; done.
Qed.

Lemma move_head_wf id game account expected d v :
  db_wf d → v ∈ versions d → vr_id v = id → vr_game_id v = game →
  db_wf (move_head id game account expected d).
Proof.
  intros Hwf Hv Hid Hg. destruct Hwf.
  assert (Hids : map gr_id (games (move_head id game account expected d)) = map gr_id (games d)).
  { apply map_update_where. done. }
  constructor; try done.
  - by rewrite Hids.
  - intros w Hw. destruct (wf_vgame0 w Hw) as (g & Hgin & ? & ?).
    eexists. split.
    + apply elem_of_update_where. eexists. split; [exact Hgin|reflexivity].
    + by destruct (_ && _)%bool.
  - intros g h (g0 & Hg0 & ->)%elem_of_update_where Hh.
    destruct (my_game game account g0 && _)%bool eqn:E.
    + bool_simpl. match goal with H : my_game _ _ _ = true |- _ => apply my_game_true in H as [Hgi _] end.
      simpl in Hh. injection Hh as <-. exists v. split_and!; [done|done|]. simpl. congruence.
    + eauto.
Qed.

Lemma insert_bump_wf r d :
  db_wf d →
  insert_version r d = Ok (with_versions (versions d ++ [r]) d) →
  (∃ g, g ∈ games d ∧ gr_id g = vr_game_id r ∧ gr_account g = vr_account r) →
  (∀ x, x ∈ versions d → vr_game_id x = vr_game_id r → (vr_seq x < vr_seq r)%Z) →
  (1 <= vr_seq r)%Z → vr_parent r ≠ Some (vr_id r) →
  (∃ h, vr_blob_hash r = to_hex h) →
  db_wf (bump (vr_blob_hash r) (with_versions (versions d ++ [r]) d)).
Proof.
  intros Hwf Hi Hgame Hseq Hpos Hself Hhash.
  destruct (insert_version_ok _ _ _ Hi) as (_ & Hid & Hsq & _ & Hb & Hp). destruct Hwf.
  constructor; simpl.
  - by apply NoDup_key_snoc.
  - done.
  - rewrite map_update_where by done. done.
  - intros v [Hv| ->%list_elem_of_singleton]%elem_of_app; auto.
  - intros b (b0 & Hb0 & Hbh & ->)%elem_of_bump. rewrite Hbh, refs_snoc, wf_refcount0 by done.
    repeat case_decide; try lia; congruence.
  - intros v Hv. assert (Hx : ∃ b, b ∈ blobs d ∧ br_hash b = vr_blob_hash v).
    { apply elem_of_app in Hv as [Hv| ->%list_elem_of_singleton]; auto. }
    destruct Hx as (b & Hbin & <-). eexists. split.
    + apply elem_of_update_where. eexists. split; [exact Hbin|reflexivity].
    + by destruct (is_blob _ b).
  - intros v p [Hv| ->%list_elem_of_singleton]%elem_of_app Hvp.
    + destruct (wf_parent0 v p Hv Hvp) as (w & Hw & ? & ?). exists w. rewrite elem_of_app. auto.
    + destruct (Hp p Hvp) as [->|(w & Hw & Hwp)]; [congruence|].
      exists w. rewrite elem_of_app. auto.
  - intros g h Hg Hh. destruct (wf_head0 g h Hg Hh) as (v & Hv & ? & ?). exists v. rewrite elem_of_app. auto.
  - intros v w [Hv| ->%list_elem_of_singleton]%elem_of_app
           [Hw| ->%list_elem_of_singleton]%elem_of_app Hg Hs; auto.
    + specialize (Hseq v Hv Hg). lia.
    + symmetry in Hg. specialize (Hseq w Hw Hg). lia.
  - intros v [Hv| ->%list_elem_of_singleton]%elem_of_app; auto.
  - intros v [Hv| ->%list_elem_of_singleton]%elem_of_app; auto.
Qed.

Lemma create_version_tx_wf account game req id now d adv prev d' :
  db_wf d → cv_parent req ≠ Some id →
  create_version_tx account game req id now d = Ok (adv, prev, d') → db_wf d'.
Proof.
  intros Hwf Hself (Hi & Hsel & -> & _)%create_version_tx_ok.
  set (row := new_version_row _ _ _ _ _ _) in *.
  apply (move_head_wf id game account _ _ row); [|by apply elem_of_app; right; apply list_elem_of_here|done|done].
  destruct (select_head_elem d game account prev Hwf Hsel) as (g & Hg & Hgid & Hga & _).
  apply (insert_bump_wf row d); simpl; try done.
  - eauto.
  - intros x Hx Hgx. by apply next_seq_above.
  - by apply next_seq_pos.
  - eauto.
Qed.
End Create.

(** ** Preservation: resolve_conflict *)

Section Resolve.
Context `{B3 : Blake3} `{U : UuidText}.

Lemma resolve_conflict_tx_ok account game winner kb id now d s d' :
  resolve_conflict_tx account game winner kb id now d = Ok (s, d') →
  ∃ cur v, select_head game account d = Some cur ∧
    v ∈ versions d ∧ vr_id v = winner ∧ vr_game_id v = game ∧ vr_account v = account ∧
    s = vr_seq v ∧
    versions d' = versions d ∧ blobs d' = blobs d ∧
    games d' = games (move_head winner game account cur d).
Proof.
  unfold resolve_conflict_tx. intros Htx.
  destruct (select_head game account d) as [cur|] eqn:Es; [|done]. simpl in Htx.
  destruct (fetch_optional _ (versions d)) as [v|] eqn:Ev; [|done]. simpl in Htx.
  apply fetch_optional_Some in Ev as [Hv Hm]. autorewrite with savr_rw in Hm.
  destruct Hm as (Hid & Hg & Ha).
  unfold cas_head in Htx. destruct (negb _ && _)%bool in Htx; [done|]. simpl in Htx.
  case_decide; [|done]. exists cur, v.
  destruct cur as [loser|]; [case_decide; [|case_match_in Htx; [done|]]|];
    injection Htx as <- <-; split_and!; done.
Qed.

Lemma resolve_conflict_tx_wf account game winner kb id now d s d' :
  db_wf d → resolve_conflict_tx account game winner kb id now d = Ok (s, d') → db_wf d'.
Proof.
  intros Hwf (cur & v & _ & Hv & Hid & Hg & _ & _ & Hvs & Hbs & Hgs)%resolve_conflict_tx_ok.
  apply (wf_frame (move_head winner game account cur d)); [done..|].
  by apply (move_head_wf winner game account cur d v).
Qed.
End Resolve.

(** ** Preservation: the other writers *)

Section Others.
Context `{B3 : Blake3}.

Lemma ensure_game_wf account title appid id d r d' :
  db_wf d → ensure_game account title appid id d = (r, d') → db_wf d'.
Proof.
  intros Hwf He. unfold ensure_game in He.
  assert (Hins : ∀ row d1, insert_game row d = Ok d1 → gr_head row = None → db_wf d1).
  { intros row d1 Hi Hh. unfold insert_game in Hi.
    destruct (existsb _ (games d)) in Hi; [by injection Hi as <-|].
    destruct (existsb (is_game _) (games d)) eqn:E2; [done|].
    destruct (negb _) in Hi; [done|]. injection Hi as <-.
    rewrite existsb_elem_false in E2. destruct Hwf. constructor; try done; simpl.
    - apply NoDup_key_snoc; [done|]. intros x Hx Hk. specialize (E2 x Hx).
      apply is_game_true in Hk. congruence.
    - intros v Hv. destruct (wf_vgame0 v Hv) as (g & ? & ? & ?). exists g.
      rewrite elem_of_app. auto.
    - intros g h [Hg| ->%list_elem_of_singleton]%elem_of_app Hgh; [eauto|congruence]. }
  destruct (match appid with Some _ => _ | None => _ end); [by injection He as <- <-|].
  destruct (insert_game _ d) as [d1|e] eqn:Ei; injection He as <- <-; [|done].
  by apply (Hins _ _ Ei).
Qed.

Lemma insert_blob_row_wf h n d :
  db_wf d → (∀ v, v ∈ versions d → vr_blob_hash v = h → existsb (is_blob h) (blobs d) = true) →
  db_wf (insert_blob_row h n d).
Proof.
  intros Hwf Hno. unfold insert_blob_row. destruct (existsb (is_blob h) (blobs d)) eqn:E; [done|].
  rewrite existsb_elem_false in E. destruct Hwf. constructor; try done; simpl.
  - apply NoDup_key_snoc; [done|]. intros x Hx Hk. specialize (E x Hx).
    apply is_blob_true in Hk. simpl in Hk. congruence.
  - intros b [Hb| ->%list_elem_of_singleton]%elem_of_app; [auto|]. simpl.
    unfold refs. replace (count_where _ _) with 0; [done|]. symmetry.
    apply count_where_0. intros v Hv. apply bool_decide_eq_false_2. intros Hh.
    by specialize (Hno v Hv Hh).
  - intros v Hv. destruct (wf_vblob0 v Hv) as (b & ? & ?). exists b. rewrite elem_of_app. auto.
Qed.

(** The side condition above always holds: a version's blob row exists. *)
Lemma insert_blob_row_wf' h n d : db_wf d → db_wf (insert_blob_row h n d).
Proof.
  intros Hwf. apply insert_blob_row_wf; [done|]. intros v Hv <-.
  destruct (wf_vblob d Hwf v Hv) as (b & Hb & Hbh).
  apply existsb_elem. exists b. by rewrite is_blob_true.
Qed.
End Others.

(** ** Preservation: delete_version_and_deref *)

Section Delete.
Context `{B3 : Blake3}.

Definition unlink (id : Uuid) (vs : list VersionRow) : list VersionRow :=
  update_where (λ r, bool_decide (vr_parent r = Some id)) (set_vr_parent None) vs.

(** The versions left when [id] is deleted: its row is gone and no parent
    points at it. *)
Definition remove_version (id : Uuid) (vs : list VersionRow) : list VersionRow :=
  List.filter (λ r, negb (is_version id r)) (unlink id vs).

Lemma elem_of_remove_version id vs r :
  r ∈ remove_version id vs ↔
  ∃ r0, r0 ∈ vs ∧ vr_id r0 ≠ id ∧
        r = if bool_decide (vr_parent r0 = Some id) then set_vr_parent None r0 else r0.
Proof.
  unfold remove_version, unlink.
  rewrite elem_of_filter_bool, elem_of_update_where, negb_true_iff. split.
  - intros ((r0 & Hr0 & ->) & Hid). exists r0. split_and!; [done| |done].
    intros He. apply not_true_iff_false in Hid. apply Hid, is_version_true.
    by case_bool_decide.
  - intros (r0 & Hr0 & Hid & ->). split; [eauto|]. apply not_true_iff_false.
    rewrite is_version_true. by case_bool_decide.
Qed.

Lemma remove_version_id id vs r : r ∈ remove_version id vs → vr_id r ≠ id ∧ vr_parent r ≠ Some id.
Proof.
  intros (r0 & _ & Hne & ->)%elem_of_remove_version. by case_bool_decide.
Qed.

(** A row that stays keeps everything but, possibly, its parent. *)
Lemma remove_version_from id vs r :
  r ∈ remove_version id vs → ∃ r0, r0 ∈ vs ∧ vr_id r = vr_id r0 ∧ vr_game_id r = vr_game_id r0 ∧
    vr_account r = vr_account r0 ∧ vr_seq r = vr_seq r0 ∧ vr_blob_hash r = vr_blob_hash r0 ∧
    vr_kind r = vr_kind r0 ∧
    (vr_parent r = vr_parent r0 ∨ vr_parent r = None).
Proof.
  intros (r0 & Hr0 & _ & ->)%elem_of_remove_version. exists r0.
  case_bool_decide; split_and!; auto.
Qed.

Lemma remove_version_to id vs r0 :
  r0 ∈ vs → vr_id r0 ≠ id → ∃ r, r ∈ remove_version id vs ∧ vr_id r = vr_id r0 ∧
    vr_game_id r = vr_game_id r0 ∧ vr_account r = vr_account r0 ∧ vr_seq r = vr_seq r0 ∧
    vr_kind r = vr_kind r0 ∧ vr_blob_hash r = vr_blob_hash r0.
Proof.
  intros Hr0 Hid. eexists. split; [apply elem_of_remove_version; eauto|].
  by case_bool_decide.
Qed.

Lemma refs_unlink h id vs : refs h (unlink id vs) = refs h vs.
Proof.
  by apply count_where_update.
Qed.

Lemma map_id_unlink id vs : map vr_id (unlink id vs) = map vr_id vs.
Proof. by apply map_update_where. Qed.

Lemma refs_remove h vs r :
  NoDup (map vr_id vs) → r ∈ vs →
  refs h vs = refs h (remove_version (vr_id r) vs) + if decide (vr_blob_hash r = h) then 1 else 0.
Proof.
  intros Hnd Hr. rewrite <- (refs_unlink h (vr_id r) vs).
  set (r' := if bool_decide (vr_parent r = Some (vr_id r)) then set_vr_parent None r else r).
  assert (Hr' : r' ∈ unlink (vr_id r) vs) by (apply elem_of_update_where; eauto).
  unfold refs at 1.
  rewrite (count_where_remove_key vr_id _ _ r') by (rewrite ?map_id_unlink; done).
  assert (Hid : vr_id r' = vr_id r) by (subst r'; by case_bool_decide).
  assert (Hh : vr_blob_hash r' = vr_blob_hash r) by (subst r'; by case_bool_decide).
  rewrite Hid, Hh. unfold refs, remove_version, is_version.
  case_bool_decide; case_decide; (lia || done).
Qed.

Lemma delete_version_tx_ok id h d b d' :
  delete_version_tx id h d = Ok (b, d') →
  versions d' = remove_version id (versions d) ∧
  games d' = games d ∧ accounts d' = accounts d ∧ config d' = config d ∧
  resolved_conflicts d' = resolved_conflicts d ∧
  let bs := update_where (is_blob h) (add_refcount (-1)) (blobs d) in
  blobs d' = if b then List.filter (λ r, negb (is_blob h r)) bs else bs.
Proof.
  unfold delete_version_tx. intros Htx. case_match_in Htx; [done|]. simpl in Htx.
  destruct (match _ with Some _ => _ | None => _ end) in Htx;
    [case_match_in Htx; [done|]|]; by injection Htx as <- <-.
Qed.
(** The blob row of a version, after the deref. *)
Lemma deref_refcount d r b :
  db_wf d → r ∈ versions d →
  b ∈ update_where (is_blob (vr_blob_hash r)) (add_refcount (-1)) (blobs d) →
  br_refcount b = Z.of_nat (refs (br_hash b) (remove_version (vr_id r) (versions d))).
Proof.
  intros Hwf Hr (b0 & Hb0 & Hbh & ->)%elem_of_bump.
  rewrite (wf_refcount d Hwf) by done.
  rewrite (refs_remove (br_hash b0) (versions d) r) by (done || apply Hwf).
  rewrite Hbh. repeat case_decide; try lia; congruence.
Qed.

Lemma remove_version_wf d r bs :
  db_wf d → r ∈ versions d →
  (∀ g, g ∈ games d → gr_head g ≠ Some (vr_id r)) →
  NoDup (map br_hash bs) →
  (∀ b, b ∈ bs → br_refcount b = Z.of_nat (refs (br_hash b) (remove_version (vr_id r) (versions d)))) →
  (∀ v, v ∈ remove_version (vr_id r) (versions d) → ∃ b, b ∈ bs ∧ br_hash b = vr_blob_hash v) →
  db_wf (with_blobs bs (with_versions (remove_version (vr_id r) (versions d)) d)).
Proof.
  intros Hwf Hr Hhead Hnd Hrc Hvb. destruct Hwf. constructor; simpl; try done.
  - unfold remove_version. apply NoDup_key_filter. by rewrite map_id_unlink.
  - intros v (v0 & Hv0 & _ & -> & -> & _)%remove_version_from. auto.
  - intros v p Hv Hp.
    destruct (remove_version_id _ _ _ Hv) as [_ Hnp].
    destruct (remove_version_from _ _ _ Hv) as (v0 & Hv0 & _ & Hg & _ & Hs & _ & _ & [Hp0|Hp0]);
      [|congruence].
    destruct (wf_parent0 v0 p Hv0) as (w & Hw & Hwp & Hlt); [congruence|].
    destruct (remove_version_to (vr_id r) (versions d) w Hw) as (w' & Hw' & ? & Hg' & _ & Hs' & _);
      [congruence|].
    exists w'. split_and!; [done|congruence|]. rewrite Hg, Hs, Hg', Hs'. done.
  - intros g h Hg Hh. destruct (wf_head0 g h Hg Hh) as (v & Hv & ? & ?).
    destruct (remove_version_to (vr_id r) (versions d) v Hv) as (v' & Hv' & ? & ? & _).
    { specialize (Hhead g Hg). congruence. }
    exists v'. split_and!; [done|congruence..].
  - intros v w Hv Hw Hg Hs.
    apply elem_of_remove_version in Hv as (v0 & Hv0 & _ & ->).
    apply elem_of_remove_version in Hw as (w0 & Hw0 & _ & ->).
    assert (v0 = w0) as ->; [|done]. apply wf_seq0; [done|done|..];
      repeat case_bool_decide; done.
  - intros v (v0 & Hv0 & _ & _ & _ & -> & _)%remove_version_from. auto.
  - intros v (v0 & Hv0 & _ & _ & _ & _ & -> & _)%remove_version_from. auto.
Qed.

(** Deleting a version that is no game's head succeeds, keeps the invariant,
    and takes the blob with it exactly when nothing references it any more. *)
Lemma delete_version_tx_wf d r :
  db_wf d → r ∈ versions d → (∀ g, g ∈ games d → gr_head g ≠ Some (vr_id r)) →
  ∃ b d', delete_version_tx (vr_id r) (vr_blob_hash r) d = Ok (b, d') ∧ db_wf d' ∧
    (b = true ↔ refs (vr_blob_hash r) (versions d') = 0).
Proof.
  intros Hwf Hr Hhead. unfold delete_version_tx. simpl.
  change (List.filter (λ r0, negb (is_version (vr_id r) r0)) _)
    with (remove_version (vr_id r) (versions d)).
  set (bs := update_where _ (add_refcount (-1)) (blobs d)).
  replace (existsb (λ g, bool_decide (gr_head g = Some (vr_id r))) (games d)) with false.
  2:{ symmetry. apply existsb_elem_false. intros g Hg. by apply bool_decide_eq_false_2, Hhead. }
  rewrite andb_false_r.
  assert (Hbn : NoDup (map br_hash bs)).
  { subst bs. rewrite map_update_where by done. apply Hwf. }
  assert (Hrc : ∀ b, b ∈ bs → br_refcount b =
            Z.of_nat (refs (br_hash b) (remove_version (vr_id r) (versions d)))).
  { intros b. by apply deref_refcount. }
  destruct (wf_vblob d Hwf r Hr) as (b0 & Hb0 & Hb0h).
  assert (Hfetch : ∃ b, fetch_optional (is_blob (vr_blob_hash r)) bs = Some b ∧ b ∈ bs ∧
                        br_hash b = vr_blob_hash r).
  { destruct (fetch_optional_is_Some (is_blob (vr_blob_hash r)) bs (add_refcount (-1) b0))
      as (b & ? & ? & Hbb%is_blob_true); [|by apply is_blob_true|eauto].
    subst bs. apply elem_of_update_where. exists b0. split; [done|].
    by apply is_blob_true in Hb0h as ->. }
  destruct Hfetch as (b & -> & Hb & Hbh). simpl. rewrite (Hrc b Hb), Hbh.
  assert (Hvb : ∀ v, v ∈ remove_version (vr_id r) (versions d) → ∃ b', b' ∈ bs ∧ br_hash b' = vr_blob_hash v).
  { intros v (v0 & Hv0 & _ & _ & _ & _ & -> & _)%remove_version_from.
    destruct (wf_vblob d Hwf v0 Hv0) as (b' & Hb' & <-). subst bs. eexists. split.
    - apply elem_of_update_where. eexists. split; [exact Hb'|reflexivity].
    - by destruct (is_blob _ b'). }
  case_bool_decide as Hz.
  - assert (H0 : refs (vr_blob_hash r) (remove_version (vr_id r) (versions d)) = 0) by lia.
    rewrite (proj2 (existsb_elem_false _ _)) by (by apply count_where_0).
    eexists true, _. split; [reflexivity|]. split; [|by simpl].
    apply (remove_version_wf d r (List.filter (λ x, negb (is_blob (vr_blob_hash r) x)) bs)); auto with savr.
    + intros x [Hx _]%elem_of_filter_bool. auto.
    + intros v Hv. destruct (Hvb v Hv) as (x & Hx & Hxh). exists x. split; [|done].
      apply elem_of_filter_bool. split; [done|]. apply negb_true_iff, not_true_iff_false.
      rewrite is_blob_true, Hxh. intros Heq.
      pose proof (proj1 (count_where_0 _ _) H0 v Hv) as Hf. by apply bool_decide_eq_false in Hf.
  - eexists false, _. split; [reflexivity|]. split; [|simpl; split; [done|lia]].
    by apply (remove_version_wf d r bs).
Qed.
End Delete.
