(* ===== verification/GcSpec.v ===== *)
(** * savr-server: what retention GC keeps and deletes

    The keep mask against its declarative reading, the loop that deletes the
    rest, [prune_game] and the whole sweep [run_gc]: it terminates without
    error on a well-formed database, keeps every head, every unresolved tip and
    the retention window, and never removes a blob a surviving version uses. *)

From S2P Require Import Prelude CoreTypes ServerError Auth Blobs Hub ServerDb ServerGc ServerApi DbWf.

(** ** The keep mask *)

Section Mask.
Implicit Types (vers : list GcVersion) (i f : nat).

(** The newest [k] of a list in ascending order. *)
Definition newest (k : nat) (l : list nat) : list nat := drop (length l - k) l.

(** The diffs whose owning full is [f]. *)
Definition diffs_of vers f : list nat :=
  omap (fun '(i, v) => if decide (gv_kind v = "full") then None
                       else if decide (owning vers !! i = Some (Some f)) then Some i else None)
    (enumerate vers).

(** The retention rule: the head and the unresolved tips with their owning
    full, the newest fulls, and the newest diffs of each of those. *)
Definition should_keep (head : option Uuid) (r : Retention) (referenced losers : list Uuid)
    vers i : Prop :=
  (∃ v, vers !! i = Some v ∧ is_protected head referenced losers v = true) ∨
  (∃ j w, vers !! j = Some w ∧ is_protected head referenced losers w = true ∧
          owning vers !! j = Some (Some i)) ∨
  i ∈ newest (full r) (full_idxs vers) ∨
  (∃ f, f ∈ newest (full r) (full_idxs vers) ∧ i ∈ newest (diff_per_full r) (diffs_of vers f)).

Lemma set_all_length idxs keep : length (set_all idxs keep) = length keep.
Proof.
  unfold set_all. revert keep. induction idxs as [|i idxs IH]; intros; simpl; [done|].
  by rewrite IH, length_insert.
Qed.

Lemma set_all_app l1 l2 keep : set_all (l1 ++ l2) keep = set_all l2 (set_all l1 keep).
Proof. apply foldl_app. Qed.

Lemma set_all_lookup idxs keep i b :
  keep !! i = Some b → set_all idxs keep !! i = Some (b || bool_decide (i ∈ idxs)).
Proof.
  revert keep b. induction idxs as [|j idxs IH]; intros keep b Hi.
  - change (set_all [] keep) with keep. rewrite (bool_decide_eq_false_2 (i ∈ [])) by apply not_elem_of_nil. by rewrite orb_false_r.
  - change (set_all (j :: idxs) keep) with (set_all idxs (<[j := true]> keep)).
    destruct (decide (i = j)) as [->|Hne].
    + rewrite (IH _ true); [|apply list_lookup_insert_eq; by eapply lookup_lt_Some].
      rewrite (bool_decide_eq_true_2 (j ∈ j :: idxs)) by apply list_elem_of_here.
      by rewrite orb_true_r.
    + rewrite (IH _ b); [|by rewrite list_lookup_insert_ne].
      do 2 f_equal. apply bool_decide_ext. rewrite elem_of_cons. split; [by right|by intros [?|?]].
Qed.

Lemma foldl_set_all {X} (g : X → list nat) l keep :
  foldl (λ k x, set_all (g x) k) keep l = set_all (concat (map g l)) keep.
Proof.
  revert keep. induction l as [|x l IH]; intros; simpl; [done|]. by rewrite IH, set_all_app.
Qed.

Definition protect_idxs head referenced losers (own : list (option nat)) (iv : nat * GcVersion)
    : list nat :=
  let '(i, v) := iv in
  if is_protected head referenced losers v then
    match own !! i with Some (Some f) => [i; f] | _ => [i] end
  else [].

Definition diff_idxs (r : Retention) (kept : list nat) (fg : nat * list nat) : list nat :=
  let '(f, group) := fg in
  if bool_decide (f ∈ kept) then newest (diff_per_full r) group else [].

Lemma keep_mask_set_all head r referenced losers vers :
  keep_mask head r referenced losers vers =
  set_all (concat (map (protect_idxs head referenced losers (owning vers)) (enumerate vers)) ++
           kept_fulls r vers ++
           concat (map (diff_idxs r (kept_fulls r vers))
                     (map_to_list (diffs_by_full vers (owning vers)))))
    (replicate (length vers) false).
Proof.
  unfold keep_mask. rewrite !set_all_app, <- !foldl_set_all.
  assert (H1 : ∀ l k, foldl (protect_step head referenced losers (owning vers)) k l =
            foldl (λ k x, set_all (protect_idxs head referenced losers (owning vers) x) k) k l).
  { intros l. induction l as [|[i v] l IH]; intros k; simpl; [done|]. rewrite IH. f_equal.
    destruct (is_protected head referenced losers v); [|done].
    by destruct (owning vers !! i) as [[f|]|]. }
  rewrite H1.
  assert (H2 : ∀ l k, foldl (keep_diffs r (kept_fulls r vers)) k l =
            foldl (λ k x, set_all (diff_idxs r (kept_fulls r vers) x) k) k l).
  { intros l. induction l as [|[f g] l IH]; intros k; simpl; [done|]. rewrite IH. f_equal.
    unfold newest, saturating_sub. by destruct (bool_decide _). }
  by rewrite H2.
Qed.

Lemma keep_mask_length head r referenced losers vers :
  length (keep_mask head r referenced losers vers) = length vers.
Proof. by rewrite keep_mask_set_all, set_all_length, length_replicate. Qed.

Lemma elem_of_enumerate {A} (l : list A) i x : (i, x) ∈ enumerate l ↔ l !! i = Some x.
Proof.
  unfold enumerate. rewrite list_elem_of_lookup. split.
  - intros [j Hj]. rewrite list_lookup_imap in Hj.
    destruct (l !! j) eqn:E; simpl in Hj; [|done]. by injection Hj as -> ->.
  - intros Hi. exists i. by rewrite list_lookup_imap, Hi.
Qed.

(** The HashMap of diffs per full holds exactly the non-empty groups. *)
Lemma diffs_fold_lookup (own : list (option nat)) (l : list (nat * GcVersion))
    (m : gmap nat (list nat)) (f : nat) :
  foldl (fun m '(i, v) =>
           if decide (gv_kind v = "full") then m
           else match own !! i with
                | Some (Some f) => <[f := default [] (m !! f) ++ [i]]> m
                | _ => m
                end) m l !! f =
  let g := omap (fun '(i, v) => if decide (gv_kind v = "full") then None
             else if decide (own !! i = Some (Some f)) then Some i else None) l in
  match g with [] => m !! f | _ => Some (default [] (m !! f) ++ g) end.
Proof.
  revert m. induction l as [|[i v] l IH]; intros m; simpl; [done|]. rewrite IH.
  destruct (decide (gv_kind v = "full")); [done|].
  destruct (decide (own !! i = Some (Some f))) as [E|E].
  - rewrite E, lookup_insert_eq. simpl. unfold omap.
    destruct (list_omap _ _ _ l); [done|]. by rewrite <- app_assoc.
  - destruct (own !! i) as [[f'|]|]; [|done..].
    rewrite lookup_insert_ne; [done|congruence].
Qed.

Lemma diffs_by_full_lookup vers f g :
  diffs_by_full vers (owning vers) !! f = Some g ↔ g = diffs_of vers f ∧ g ≠ [].
Proof.
  unfold diffs_by_full. rewrite diffs_fold_lookup. fold (diffs_of vers f).
  rewrite lookup_empty. destruct (diffs_of vers f) as [|x l]; simpl; split; [done| | |]; naive_solver.
Qed.

(** The mask is the retention rule. *)
Lemma keep_mask_spec head r referenced losers vers i :
  i < length vers →
  ∃ b, keep_mask head r referenced losers vers !! i = Some b ∧
       (b = true ↔ should_keep head r referenced losers vers i).
Proof.
  intros Hi. rewrite keep_mask_set_all.
  rewrite (set_all_lookup _ _ i false) by (by apply lookup_replicate).
  simpl. eexists. split; [reflexivity|].
  rewrite bool_decide_eq_true, !elem_of_app, !elem_of_concat_map. unfold should_keep.
  fold (newest (full r) (full_idxs vers)).
  change (kept_fulls r vers) with (newest (full r) (full_idxs vers)).
  set (prot := is_protected head referenced losers).
  assert (HA : (∃ x, x ∈ enumerate vers ∧ i ∈ protect_idxs head referenced losers (owning vers) x) ↔
     (∃ v, vers !! i = Some v ∧ prot v = true) ∨
     (∃ j w, vers !! j = Some w ∧ prot w = true ∧ owning vers !! j = Some (Some i))).
  { split.
    - intros ([j w] & Hj%elem_of_enumerate & Hin). unfold protect_idxs in Hin. fold (prot w) in Hin.
      destruct (prot w) eqn:Hp; [|by apply elem_of_nil in Hin].
      destruct (owning vers !! j) as [[f|]|] eqn:Ho; rewrite ?elem_of_cons, ?elem_of_nil in Hin;
        naive_solver.
    - intros [(v & Hv & Hp)|(j & w & Hw & Hp & Ho)].
      + exists (i, v). split; [by apply elem_of_enumerate|]. unfold protect_idxs. fold (prot v).
        rewrite Hp. destruct (owning vers !! i) as [[f|]|]; apply list_elem_of_here.
      + exists (j, w). split; [by apply elem_of_enumerate|]. unfold protect_idxs. fold (prot w).
        rewrite Hp, Ho. apply list_elem_of_further, list_elem_of_here. }
  assert (HB : (∃ x, x ∈ map_to_list (diffs_by_full vers (owning vers)) ∧
                     i ∈ diff_idxs r (newest (full r) (full_idxs vers)) x) ↔
     ∃ f, f ∈ newest (full r) (full_idxs vers) ∧ i ∈ newest (diff_per_full r) (diffs_of vers f)).
  { split.
    - intros ([f g] & Hfg%elem_of_map_to_list & Hin). apply diffs_by_full_lookup in Hfg as [-> _].
      unfold diff_idxs in Hin. case_bool_decide; [eauto|by apply elem_of_nil in Hin].
    - intros (f & Hf & Hin). exists (f, diffs_of vers f). split.
      + apply elem_of_map_to_list, diffs_by_full_lookup. split; [done|]. intros Hn.
        rewrite Hn in Hin. by apply elem_of_nil in Hin.
      + unfold diff_idxs. by rewrite bool_decide_eq_true_2. }
  rewrite HA, HB. tauto.
Qed.
End Mask.

(** ** The deletion loop *)

Section Loop.
Context `{B3 : Blake3}.

Definition remove_versions (ids : list Uuid) (vs : list VersionRow) : list VersionRow :=
  foldl (λ vs id, remove_version id vs) vs ids.

Definition unkept (vk : list (GcVersion * bool)) : list Uuid :=
  omap (fun '(v, k) => if k : bool then None else Some (gv_id v)) vk.

(** The parent of a row is among [ids]. *)
Definition points_into (ids : list Uuid) (r : VersionRow) : bool :=
  match vr_parent r with Some p => bool_decide (p ∈ ids) | None => false end.

Lemma points_into_cons id ids r :
  points_into (id :: ids) r = bool_decide (vr_parent r = Some id) || points_into ids r.
Proof.
  unfold points_into. destruct (vr_parent r) as [p|]; [|done].
  apply eq_true_iff_eq. rewrite orb_true_iff, !bool_decide_eq_true, elem_of_cons.
  split; (intros [?|?]; [left; congruence|right; done]).
Qed.

Lemma elem_of_remove_versions ids vs r :
  r ∈ remove_versions ids vs ↔
  ∃ r0, r0 ∈ vs ∧ (vr_id r0 ∉ ids) ∧
        r = (if points_into ids r0 then set_vr_parent None r0 else r0).
Proof.
  revert vs r. induction ids as [|id ids IH]; intros vs r.
  - change (remove_versions [] vs) with vs.
    assert (Hp : ∀ r0, points_into [] r0 = false).
    { intros r0. unfold points_into. destruct (vr_parent r0); [|done].
      apply bool_decide_eq_false_2, not_elem_of_nil. }
    setoid_rewrite Hp. split.
    + intros Hr. exists r. split_and!; [done|apply not_elem_of_nil|done].
    + by intros (r0 & Hr0 & _ & ->).
  - change (remove_versions (id :: ids) vs) with (remove_versions ids (remove_version id vs)).
    rewrite IH. setoid_rewrite elem_of_remove_version. setoid_rewrite not_elem_of_cons.
    setoid_rewrite points_into_cons. split.
    + intros (r1 & (r0 & Hr0 & Hne & ->) & Hni & ->). exists r0.
      case_bool_decide as H1; simpl in *; split_and!; try done.
    + intros (r0 & Hr0 & [Hne Hni] & ->).
      exists (if bool_decide (vr_parent r0 = Some id) then set_vr_parent None r0 else r0).
      split; [eauto|]. by case_bool_decide.
Qed.

Lemma remove_versions_keeps ids vs r0 :
  r0 ∈ vs → vr_id r0 ∉ ids → ∃ r, r ∈ remove_versions ids vs ∧ vr_id r = vr_id r0 ∧
    vr_game_id r = vr_game_id r0 ∧ vr_account r = vr_account r0 ∧ vr_seq r = vr_seq r0 ∧
    vr_kind r = vr_kind r0 ∧ vr_blob_hash r = vr_blob_hash r0.
Proof.
  intros Hr0 Hid. eexists. split; [apply elem_of_remove_versions; eauto|].
  by destruct (points_into ids r0).
Qed.

Lemma remove_versions_gone ids vs id : id ∈ ids → id ∉ map vr_id (remove_versions ids vs).
Proof.
  intros Hid (r & -> & (r0 & _ & Hni & ->)%elem_of_remove_versions)%list_elem_of_fmap. apply Hni.
  by destruct (points_into ids r0).
Qed.

(** The blob files of [s'] still hold what the versions left need. *)
Definition blobs_intact (s s' : Store) : Prop :=
  ∀ v, v ∈ versions (db s') → objects (files s') !! vr_blob_hash v = objects (files s) !! vr_blob_hash v.

(** Every blob row has its file. *)
Definition backed (s : Store) : Prop :=
  ∀ b, b ∈ blobs (db s) → is_Some (objects (files s) !! br_hash b).

Lemma delete_version_ok s r stats :
  db_wf (db s) → r ∈ versions (db s) → (∀ g, g ∈ games (db s) → gr_head g ≠ Some (vr_id r)) →
  ∃ stats' s', delete_version_and_deref (vr_id r) (vr_blob_hash r) stats s = (Ok stats', s') ∧
    db_wf (db s') ∧ versions (db s') = remove_version (vr_id r) (versions (db s)) ∧
    games (db s') = games (db s) ∧ accounts (db s') = accounts (db s) ∧
    config (db s') = config (db s) ∧ resolved_conflicts (db s') = resolved_conflicts (db s) ∧
    versions_pruned stats' = (versions_pruned stats + 1)%Z ∧
    blobs_intact s s' ∧ (store_ok (files s) → store_ok (files s')) ∧ (backed s → backed s') ∧
    objects (files s') ⊆ objects (files s).
Proof.
  intros Hwf Hr Hh. destruct (delete_version_tx_wf (db s) r Hwf Hr Hh) as (b & d' & Hd & Hwf' & Hb).
  unfold delete_version_and_deref. rewrite Hd.
  destruct (delete_version_tx_ok _ _ _ _ _ Hd) as (Hv & Hg & Ha & Hc & Hrc & Hbl).
  destruct b; eexists _, _; (split; [reflexivity|]); simpl; split_and!; try done.
  - intros v Hvin. simpl in *. rewrite lookup_delete_ne; [done|]. intros Heq.
    destruct Hb as [Hb _]. specialize (Hb eq_refl).
    apply (proj1 (count_where_0 _ _)) with (r := v) in Hb; [|done].
    apply bool_decide_eq_false in Hb. congruence.
  - apply blob_delete_store_ok.
  - intros Hbk x Hx. simpl in *. rewrite Hbl in Hx.
    apply elem_of_filter_bool in Hx as [Hx Hne]. apply negb_true_iff, not_true_iff_false in Hne.
    rewrite is_blob_true in Hne. rewrite lookup_delete_ne by congruence.
    apply elem_of_bump in Hx as (x0 & Hx0 & -> & _). auto.
  - apply delete_subseteq.
  - intros Hbk x Hx. simpl in *. rewrite Hbl in Hx.
    apply elem_of_bump in Hx as (x0 & Hx0 & -> & _). auto.
Qed.

(** Every unkept row is present and no head: the loop deletes exactly those. *)
Lemma delete_unkept_ok vk : ∀ stats s,
  db_wf (db s) → NoDup (unkept vk) →
  (∀ v, (v, false) ∈ vk → ∃ r, r ∈ versions (db s) ∧ vr_id r = gv_id v ∧
                               vr_blob_hash r = gv_blob_hash v) →
  (∀ g h, g ∈ games (db s) → gr_head g = Some h → h ∉ unkept vk) →
  ∃ stats' s', delete_unkept vk stats s = (Ok stats', s') ∧
    db_wf (db s') ∧ versions (db s') = remove_versions (unkept vk) (versions (db s)) ∧
    games (db s') = games (db s) ∧ accounts (db s') = accounts (db s) ∧
    config (db s') = config (db s) ∧ resolved_conflicts (db s') = resolved_conflicts (db s) ∧
    versions_pruned stats' = (versions_pruned stats + Z.of_nat (length (unkept vk)))%Z ∧
    blobs_intact s s' ∧ (store_ok (files s) → store_ok (files s')) ∧ (backed s → backed s') ∧
    objects (files s') ⊆ objects (files s).
Proof.
  induction vk as [|[v [|]] vk IH]; intros stats s Hwf Hnd Hrow Hhead.
  - exists stats, s. simpl. split_and!; try done. lia.
  - apply IH; try done. intros w Hw. apply Hrow. by apply list_elem_of_further.
  - change (unkept ((v, false) :: vk)) with (gv_id v :: unkept vk) in *.
    apply list.NoDup_cons in Hnd as [Hni Hnd].
    destruct (Hrow v) as (r & Hr & Hid & Hh); [apply list_elem_of_here|].
    destruct (delete_version_ok s r stats Hwf Hr)
      as (stats1 & s1 & Hd & Hwf1 & Hv1 & Hg1 & Ha1 & Hc1 & Hr1 & Hp1 & Hb1 & Hs1 & Hk1 & Hf1).
    { intros g Hg Hgh. apply (Hhead g (vr_id r) Hg Hgh). rewrite Hid. apply list_elem_of_here. }
    simpl. rewrite <- Hid, <- Hh, Hd.
    destruct (IH stats1 s1 Hwf1 Hnd)
      as (stats2 & s2 & -> & Hwf2 & Hv2 & Hg2 & Ha2 & Hc2 & Hr2 & Hp2 & Hb2 & Hs2 & Hk2 & Hf2).
    { intros w Hw. destruct (Hrow w) as (r0 & Hr0 & Hid0 & Hh0); [by apply list_elem_of_further|].
      destruct (remove_version_to (vr_id r) (versions (db s)) r0 Hr0)
        as (r' & Hr' & Hi' & _ & _ & _ & _ & Hb').
      { intros He. apply Hni. unfold unkept. apply list_elem_of_omap. exists (w, false).
        split; [done|]. congruence. }
      exists r'. rewrite Hv1. split_and!; [done|congruence..]. }
    { intros g h. rewrite Hg1. intros Hg Hgh Hin. apply (Hhead g h Hg Hgh). by apply list_elem_of_further. }
    exists stats2, s2. split_and!; try congruence; try by auto.
    + rewrite Hp2, Hp1. simpl. lia.
    + intros x Hx. rewrite Hb2 by done. rewrite Hv2 in Hx.
      apply elem_of_remove_versions in Hx as (x0 & Hx0 & _ & ->).
      replace (vr_blob_hash (if points_into (unkept vk) x0 then _ else _)) with (vr_blob_hash x0)
        by (by destruct (points_into (unkept vk) x0)).
      by apply Hb1.
    + by etrans.
Qed.
End Loop.

(** ** Pruning one game *)

Section Prune.
Context `{B3 : Blake3}.

(** The rows of a game in ascending [seq]: what the mask's indices index. *)
Definition game_rows (account game : Uuid) (d : Db) : list VersionRow :=
  merge_sort seq_le (List.filter (of_game game account) (versions d)).

Lemma elem_of_game_rows account game d r :
  r ∈ game_rows account game d ↔ r ∈ versions d ∧ vr_game_id r = game ∧ vr_account r = account.
Proof.
  unfold game_rows. rewrite merge_sort_Permutation, elem_of_filter_bool, of_game_true. done.
Qed.

Lemma game_rows_ids account game d : db_wf d → NoDup (map vr_id (game_rows account game d)).
Proof.
  intros Hwf. unfold game_rows.
  rewrite (Permutation_map vr_id (merge_sort_Permutation seq_le _)).
  apply NoDup_key_filter, Hwf.
Qed.

Lemma gc_rows_ids account game d : map gv_id (gc_rows account game d) = map vr_id (game_rows account game d).
Proof. unfold gc_rows, game_rows. by rewrite map_map. Qed.

Lemma gc_rows_lookup account game d i v :
  gc_rows account game d !! i = Some v ↔
  ∃ r, game_rows account game d !! i = Some r ∧
       v = {| gv_id := vr_id r; gv_kind := vr_kind r; gv_blob_hash := vr_blob_hash r |}.
Proof.
  unfold gc_rows. fold (game_rows account game d). rewrite list_lookup_fmap_Some. naive_solver.
Qed.

Lemma elem_of_unkept vers keep id :
  id ∈ unkept (zip vers keep) ↔ ∃ i v, vers !! i = Some v ∧ keep !! i = Some false ∧ gv_id v = id.
Proof.
  unfold unkept. rewrite list_elem_of_omap. split.
  - intros ([v []] & Hin & Hs); [done|]. injection Hs as <-.
    apply list_elem_of_lookup in Hin as [i (x & y & [= <- <-] & ? & ?)%lookup_zip_with_Some]. eauto.
  - intros (i & v & Hv & Hk & <-). exists (v, false). split; [|done].
    apply list_elem_of_lookup. exists i. apply lookup_zip_with_Some. eauto.
Qed.

Lemma unkept_NoDup vers keep : NoDup (map gv_id vers) → NoDup (unkept (zip vers keep)).
Proof.
  revert keep. induction vers as [|v vers IH]; intros [|k keep] Hnd; try apply base.NoDup_nil_2.
  simpl in Hnd. apply list.NoDup_cons in Hnd as [Hni Hnd].
  destruct k; simpl; [by apply IH|]. apply list.NoDup_cons. split; [|by apply IH].
  intros (i & w & Hw & _ & Hid)%elem_of_unkept. apply Hni. rewrite <- Hid.
  apply list_elem_of_fmap_2. by eapply list_elem_of_lookup_2.
Qed.

(** Both tables list the version under the same id. *)
Definition survives (d' : Db) (r0 : VersionRow) : Prop := vr_id r0 ∈ map vr_id (versions d').

Lemma survives_remove d d' ids r0 :
  db_wf d → r0 ∈ versions d → versions d' = remove_versions ids (versions d) →
  survives d' r0 ↔ vr_id r0 ∉ ids.
Proof.
  intros Hwf Hr0 Hv. unfold survives. rewrite Hv. split.
  - intros (r & Hid & Hr)%list_elem_of_fmap.
    apply elem_of_remove_versions in Hr as (r1 & Hr1 & Hni & ->).
    replace (vr_id (if points_into ids r1 then _ else _)) with (vr_id r1) in Hid
      by (by destruct (points_into ids r1)). congruence.
  - intros Hni. destruct (remove_versions_keeps ids (versions d) r0 Hr0 Hni) as (r & Hr & Hid & _).
    apply list_elem_of_fmap. eauto.
Qed.

(** What becomes of a row that stays: it loses a parent that is gone. *)
Definition unlinked (d' : Db) (r0 r : VersionRow) : Prop :=
  r = r0 ∨ (r = set_vr_parent None r0 ∧ ∃ p, vr_parent r0 = Some p ∧ p ∉ map vr_id (versions d')).

(** The facts every stage of the sweep establishes about what it leaves. *)
Record gc_frame (s s' : Store) : Prop := {
  gf_wf : db_wf (db s');
  gf_games : games (db s') = games (db s);
  gf_accounts : accounts (db s') = accounts (db s);
  gf_config : config (db s') = config (db s);
  gf_resolved : resolved_conflicts (db s') = resolved_conflicts (db s);
  gf_rows r : r ∈ versions (db s') → ∃ r0, r0 ∈ versions (db s) ∧ unlinked (db s') r0 r;
  gf_blobs : blobs_intact s s';
  gf_store : store_ok (files s) → store_ok (files s');
  gf_backed : backed s → backed s';
  gf_files : objects (files s') ⊆ objects (files s);
}.

Lemma gf_from s s' r : gc_frame s s' → r ∈ versions (db s') → ∃ r0, r0 ∈ versions (db s) ∧ vr_id r = vr_id r0 ∧
  vr_game_id r = vr_game_id r0 ∧ vr_account r = vr_account r0 ∧ vr_kind r = vr_kind r0 ∧
  vr_blob_hash r = vr_blob_hash r0 ∧ (vr_parent r = vr_parent r0 ∨ vr_parent r = None).
Proof.
  intros Hf (r0 & Hr0 & Hu)%(gf_rows _ _ Hf). exists r0. destruct Hu as [->|[-> _]]; split_and!; auto.
Qed.

Lemma unlinked_trans s2 s3 r0 r1 r : gc_frame s2 s3 →
  unlinked (db s2) r0 r1 → unlinked (db s3) r1 r → unlinked (db s3) r0 r.
Proof.
  intros Hf [->|[-> (p & Hp & Hni)]] [->|[-> (q & Hq & Hnq)]]; [by left|right; eauto| |done].
  right. split; [done|]. exists p. split; [done|]. intros (x & Hid & Hx)%list_elem_of_fmap. apply Hni.
  destruct (gf_from _ _ _ Hf Hx) as (x0 & Hx0 & Hxid & _). apply list_elem_of_fmap. exists x0. split; congruence.
Qed.

Lemma gc_frame_refl s : db_wf (db s) → gc_frame s s.
Proof. intros. constructor; try done. intros r Hr. exists r. split; [done|by left]. Qed.

Lemma gc_frame_trans s1 s2 s3 : gc_frame s1 s2 → gc_frame s2 s3 → gc_frame s1 s3.
Proof.
  intros H1 H2. pose proof H1 as []. pose proof H2 as []. constructor; try congruence; auto.
  - intros r Hr. destruct (gf_rows1 r Hr) as (r1 & Hr1 & Hu1). destruct (gf_rows0 r1 Hr1) as (r0 & Hr0 & Hu0).
    exists r0. split; [done|]. by eapply unlinked_trans.
  - intros v Hv. rewrite gf_blobs1 by done.
    destruct (gf_from _ _ _ H2 Hv) as (v1 & Hv1 & _ & _ & _ & _ & -> & _). by apply gf_blobs0.
  - by etrans.
Qed.

(** The retention rule, and the ids its mask dooms, in terms of the database. *)
Definition keeps (account game : Uuid) (head : option Uuid) (r : Retention) (d : Db) (i : nat) : Prop :=
  should_keep head r (referenced_ids account game d) (resolved_losers account game d)
    (gc_rows account game d) i.

Definition doomed (account game : Uuid) (head : option Uuid) (r : Retention) (d : Db) : list Uuid :=
  let vers := gc_rows account game d in
  unkept (zip vers (keep_mask head r (referenced_ids account game d)
                      (resolved_losers account game d) vers)).

Lemma doomed_row account game head r d id :
  id ∈ doomed account game head r d →
  ∃ i r0, game_rows account game d !! i = Some r0 ∧ vr_id r0 = id ∧ ¬ keeps account game head r d i.
Proof.
  intros (i & v & Hv & Hk & Hid)%elem_of_unkept.
  destruct (keep_mask_spec head r (referenced_ids account game d) (resolved_losers account game d)
    (gc_rows account game d) i) as (b & Hb & Hs); [by eapply lookup_lt_Some|].
  rewrite Hk in Hb. injection Hb as <-.
  apply gc_rows_lookup in Hv as (r0 & Hr0 & ->). exists i, r0. split_and!; [done..|].
  intros Hsk. by apply Hs in Hsk.
Qed.

Lemma doomed_iff account game head r d i r0 :
  db_wf d → game_rows account game d !! i = Some r0 →
  vr_id r0 ∉ doomed account game head r d ↔ keeps account game head r d i.
Proof.
  intros Hwf Hi.
  destruct (keep_mask_spec head r (referenced_ids account game d) (resolved_losers account game d)
    (gc_rows account game d) i) as (b & Hb & Hs).
  { eapply lookup_lt_Some. apply gc_rows_lookup. eauto. }
  split.
  - intros Hn. apply Hs. destruct b; [done|]. exfalso. apply Hn, elem_of_unkept.
    eexists i, _. split_and!; [apply gc_rows_lookup; eauto|done..].
  - intros Hk (j & r1 & Hj & Hid & Hnk)%doomed_row.
    assert (i = j) as ->; [|done].
    apply (NoDup_lookup (map vr_id (game_rows account game d)) i j (vr_id r0)).
    + by apply game_rows_ids.
    + apply list_lookup_fmap_Some. eauto.
    + apply list_lookup_fmap_Some. eauto.
Qed.

(** No head is doomed. *)
Lemma doomed_head account game head r d g h :
  db_wf d → select_head game account d = Some head →
  g ∈ games d → gr_head g = Some h → h ∉ doomed account game head r d.
Proof.
  intros Hwf Hhead Hg Hgh (i & r0 & Hi & Hid & Hnk)%doomed_row.
  pose proof (list_elem_of_lookup_2 _ _ _ Hi) as (Hr0 & Hgame & Hacc)%elem_of_game_rows.
  destruct (wf_head _ Hwf g h Hg Hgh) as (w & Hw & Hwid & Hwg).
  assert (w = r0) as -> by (apply (NoDup_key_inj vr_id (versions d)); [apply Hwf|congruence..]).
  destruct (select_head_elem d game account head Hwf Hhead) as (g' & Hg' & Hgid' & _ & Hgh').
  assert (g' = g) as -> by (apply (NoDup_key_inj gr_id (games d)); [apply Hwf|congruence..]).
  apply Hnk. left. eexists. split; [apply gc_rows_lookup; eauto|].
  unfold is_protected. simpl. rewrite bool_decide_eq_true_2; [done|congruence].
Qed.

Lemma doomed_other_game account game head r d v :
  db_wf d → v ∈ versions d → of_game game account v = false → vr_id v ∉ doomed account game head r d.
Proof.
  intros Hwf Hv Hng (i & r1 & Hi & Hid & _)%doomed_row.
  pose proof (list_elem_of_lookup_2 _ _ _ Hi) as (Hr1 & Hgame & Hacc)%elem_of_game_rows.
  assert (r1 = v) as -> by (apply (NoDup_key_inj vr_id (versions d)); [apply Hwf|congruence..]).
  apply not_true_iff_false in Hng. by apply Hng, of_game_true.
Qed.

(** Pruning a game keeps exactly what the retention rule keeps. *)
Lemma prune_game_ok account game head r stats s :
  db_wf (db s) → select_head game account (db s) = Some head →
  ∃ stats' s', prune_game account game head r stats s = (Ok stats', s') ∧ gc_frame s s' ∧
    versions (db s') = remove_versions (doomed account game head r (db s)) (versions (db s)).
Proof.
  intros Hwf Hhead. unfold prune_game.
  set (vers := gc_rows account game (db s)). set (keep := keep_mask _ _ _ _ vers).
  destruct (delete_unkept_ok (zip vers keep) stats s Hwf)
    as (stats' & s' & Hd & Hwf' & Hv & Hg & Ha & Hc & Hr & _ & Hb & Hs & Hk & Hf).
  { apply unkept_NoDup. subst vers. rewrite gc_rows_ids. by apply game_rows_ids. }
  { intros v Hin. apply list_elem_of_lookup in Hin as [i (x & y & [= <- <-] & Hx & _)%lookup_zip_with_Some].
    apply gc_rows_lookup in Hx as (r0 & Hr0 & ->). exists r0. simpl.
    pose proof (list_elem_of_lookup_2 _ _ _ Hr0) as (?&_&_)%elem_of_game_rows. done. }
  { intros g h. apply doomed_head; done. }
  exists stats', s'. split_and!.
  - destruct vers; [simpl in *; congruence|done].
  - constructor; try done. intros x Hx. rewrite Hv in Hx.
    pose proof Hx as (x0 & Hx0 & _ & ->)%elem_of_remove_versions. exists x0. split; [done|].
    destruct (points_into _ x0) eqn:E; [right|by left]. split; [done|]. unfold points_into in E.
    destruct (vr_parent x0) as [p|]; [|done]. bool_simpl. exists p. split; [done|].
    rewrite Hv. by apply remove_versions_gone.
  - done.
Qed.
End Prune.

(** ** The sweep *)

Section Sweep.
Context `{B3 : Blake3}.

(** A version nothing of its game builds on and no resolution lost. *)
Definition unresolved_tip (d : Db) (r0 : VersionRow) : Prop :=
  (∀ w, w ∈ versions d → vr_game_id w = vr_game_id r0 → vr_parent w ≠ Some (vr_id r0)) ∧
  (∀ c, c ∈ resolved_conflicts d → rc_game c = vr_game_id r0 → rc_loser c ≠ vr_id r0).

Definition is_head_of (d : Db) (r0 : VersionRow) : Prop :=
  ∃ g, g ∈ games d ∧ gr_id g = vr_game_id r0 ∧ gr_head g = Some (vr_id r0).

Definition precious (d : Db) (r0 : VersionRow) : Prop := is_head_of d r0 ∨ unresolved_tip d r0.

Lemma unresolved_tip_protected account game head d r0 :
  unresolved_tip d r0 → vr_game_id r0 = game →
  is_protected head (referenced_ids account game d) (resolved_losers account game d)
    {| gv_id := vr_id r0; gv_kind := vr_kind r0; gv_blob_hash := vr_blob_hash r0 |} = true.
Proof.
  intros [Hp Hl] Hg. unfold is_protected. simpl.
  rewrite (bool_decide_eq_false_2 (_ ∈ referenced_ids _ _ _)).
  2:{ unfold referenced_ids. intros (w & Hw & Hwp)%list_elem_of_omap.
      apply elem_of_filter_bool in Hw as [Hw [Hwg _]%of_game_true].
      apply (Hp w); [done|congruence..]. }
  rewrite (bool_decide_eq_false_2 (_ ∈ resolved_losers _ _ _)); [apply orb_true_r|].
  unfold resolved_losers. intros (c & Hc & Hin)%list_elem_of_fmap.
  apply elem_of_filter_bool in Hin as [Hin Hm]. bool_simpl. apply (Hl c); [done|congruence..].
Qed.

(** A sweep step, seen from its precious versions. *)
Definition keeps_precious (s s' : Store) : Prop :=
  gc_frame s s' ∧ ∀ r0, r0 ∈ versions (db s) → precious (db s) r0 → survives (db s') r0.

Lemma precious_mono s s' r0 r :
  gc_frame s s' → precious (db s) r0 → vr_id r = vr_id r0 → vr_game_id r = vr_game_id r0 →
  precious (db s') r.
Proof.
  intros Hf [(g & Hg & Hgid & Hh)|[Hp Hl]] Hid Hgame; [left|right].
  - exists g. rewrite (gf_games _ _ Hf), Hid, Hgame. done.
  - split; rewrite Hid, Hgame.
    + intros w Hw Hwg Hwp.
      destruct (gf_from _ _ w Hf Hw) as (w0 & Hw0 & _ & Hg0 & _ & _ & _ & [Hp0|Hp0]); [|congruence].
      apply (Hp w0); [done|congruence..].
    + rewrite (gf_resolved _ _ Hf). auto.
Qed.

Lemma keeps_precious_trans s1 s2 s3 :
  db_wf (db s1) → keeps_precious s1 s2 → keeps_precious s2 s3 → keeps_precious s1 s3.
Proof.
  intros Hwf [Hf1 H1] [Hf2 H2]. split; [by eapply gc_frame_trans|].
  intros r0 Hr0 Hp. specialize (H1 r0 Hr0 Hp). unfold survives in H1 |- *.
  apply list_elem_of_fmap in H1 as (r1 & Hid & Hr1).
  destruct (gf_from _ _ r1 Hf1 Hr1) as (x & Hx & Hxid & Hxg & _).
  assert (x = r0) as -> by (apply (NoDup_key_inj vr_id (versions (db s1))); [apply Hwf|congruence..]).
  rewrite Hid. apply (H2 r1 Hr1). by eapply precious_mono.
Qed.

Lemma prune_game_precious g r stats s :
  db_wf (db s) → g ∈ games (db s) →
  ∃ stats' s', prune_game (gr_account g) (gr_id g)
      (mjoin (select_head (gr_id g) (gr_account g) (db s))) r stats s = (Ok stats', s') ∧
    keeps_precious s s'.
Proof.
  intros Hwf Hg. rewrite (select_head_of (db s) g Hwf Hg). simpl.
  destruct (prune_game_ok (gr_account g) (gr_id g) (gr_head g) r stats s Hwf)
    as (stats' & s' & -> & Hf & Hv); [by apply select_head_of|].
  eexists _, _. split; [reflexivity|]. split; [done|]. intros r0 Hr0 Hpr.
  apply (survives_remove (db s) (db s') _ r0 Hwf Hr0 Hv).
  intros (i & r1 & Hi & Hid & Hnk)%doomed_row.
  pose proof (list_elem_of_lookup_2 _ _ _ Hi) as (Hr1 & Hgame & Hacc)%elem_of_game_rows.
  assert (r1 = r0) as -> by (apply (NoDup_key_inj vr_id (versions (db s))); [apply Hwf|congruence..]).
  apply Hnk. left. eexists. split; [apply gc_rows_lookup; eauto|].
  destruct Hpr as [(g' & Hg' & Hgid & Hh)|Ht]; [|by apply unresolved_tip_protected].
  assert (g' = g) as -> by (apply (NoDup_key_inj gr_id (games (db s))); [apply Hwf|congruence..]).
  unfold is_protected. simpl. by rewrite bool_decide_eq_true_2.
Qed.

Lemma gc_games_ok a r gs : ∀ stats s,
  db_wf (db s) → (∀ g, g ∈ gs → ∃ x, x ∈ games (db s) ∧ gr_id x = g ∧ gr_account x = a) →
  ∃ stats' s', gc_games a r gs stats s = (Ok stats', s') ∧ keeps_precious s s'.
Proof.
  induction gs as [|g gs IH]; intros stats s Hwf Hgs.
  - exists stats, s. split; [done|]. split; [by apply gc_frame_refl|].
    intros r0 Hr0 _. by apply list_elem_of_fmap_2.
  - destruct (Hgs g) as (x & Hx & <- & <-); [apply list_elem_of_here|]. simpl.
    destruct (prune_game_precious x r stats s Hwf Hx) as (stats1 & s1 & -> & Hk1).
    destruct (IH stats1 s1) as (stats2 & s2 & -> & Hk2).
    + apply Hk1.
    + intros g Hg. rewrite (gf_games _ _ (proj1 Hk1)). apply Hgs. by apply list_elem_of_further.
    + eexists _, _. split; [reflexivity|]. by eapply keeps_precious_trans.
Qed.

Lemma gc_accounts_ok accs : ∀ stats s,
  db_wf (db s) → ∃ stats' s', gc_accounts accs stats s = (Ok stats', s') ∧ keeps_precious s s'.
Proof.
  induction accs as [|a accs IH]; intros stats s Hwf; simpl.
  - exists stats, s. split; [done|]. split; [by apply gc_frame_refl|].
    intros r0 Hr0 _. by apply list_elem_of_fmap_2.
  - destruct (gc_games_ok a (config_retention a (db s))
      (map gr_id (List.filter (λ g, bool_decide (gr_account g = a)) (games (db s)))) stats s Hwf)
      as (stats1 & s1 & -> & Hk1).
    { intros g (x & -> & Hx)%list_elem_of_fmap. apply elem_of_filter_bool in Hx as [Hx Ha].
      bool_simpl. eauto. }
    destruct (IH stats1 s1) as (stats2 & s2 & -> & Hk2); [apply Hk1|].
    eexists _, _. split; [reflexivity|]. by eapply keeps_precious_trans.
Qed.
Lemma run_gc_keeps s : db_wf (db s) → ∃ stats s', run_gc s = (Ok stats, s') ∧ keeps_precious s s'.
Proof. apply gc_accounts_ok. Qed.

(** The scheduled task, however often it ticks. *)
Lemma gc_task_keeps interval ticks s : db_wf (db s) → keeps_precious s (gc_task interval ticks s).
Proof.
  intros Hwf. assert (Hrefl : keeps_precious s s).
  { split; [by apply gc_frame_refl|]. intros r0 Hr0 _. by apply list_elem_of_fmap_2. }
  unfold gc_task. case_bool_decide; [done|]. clear interval H. induction ticks as [|n IH]; [done|]. simpl.
  destruct (run_gc_keeps (Nat.iter n (λ s, snd (run_gc s)) s)) as (stats & s' & -> & Hk); [apply IH|].
  by eapply keeps_precious_trans.
Qed.
End Sweep.
