(* ===== verification/VersionSpec.v ===== *)
(** * savr-server: what recording a version and resolving a conflict do

    [create_version] is a compare-and-swap on the game's head that never drops
    an upload: the version is recorded either way, and the answer tells a
    fast-forward from a fork.  [resolve_conflict] moves the head to the winner
    and logs the loser. *)

From S2P Require Import Prelude CoreTypes ServerError Auth Blobs ServerDb ServerGc DbWf.

Section Create.
Context `{B3 : Blake3} `{!Blake3Laws}.
Implicit Types (d : Db) (req : CreateVersion) (g : GameRow).

(** The foreign keys and the fresh primary key of a new version row. *)
Record insertable (d : Db) (req : CreateVersion) (id : Uuid) : Prop := {
  in_fresh : ∀ x, x ∈ versions d → vr_id x ≠ id;
  in_device : ∃ x, x ∈ devices d ∧ dr_id x = cv_device_id req;
  in_blob : ∃ b, b ∈ blobs d ∧ br_hash b = to_hex (cv_blob_hash req);
  in_parent : ∀ p, cv_parent req = Some p → ∃ w, w ∈ versions d ∧ vr_id w = p;
}.

Lemma insert_version_accepts account req id now d g :
  g ∈ games d → insertable d req id →
  insert_version (new_version_row account (gr_id g) req id (next_seq (gr_id g) d) now) d =
  Ok (with_versions (versions d ++
        [new_version_row account (gr_id g) req id (next_seq (gr_id g) d) now]) d).
Proof.
  intros Hg [Hf (dv & Hdv & Hdi) (b & Hb & Hbh) Hp]. unfold insert_version. simpl.
  rewrite (proj2 (existsb_elem_false _ _)).
  2:{ intros x Hx. apply orb_false_iff. split.
      - apply not_true_iff_false. rewrite is_version_true. auto.
      - apply andb_false_iff. destruct (decide (vr_game_id x = gr_id g)) as [E|E].
        + right. apply bool_decide_eq_false_2. pose proof (next_seq_above d _ x Hx E). lia.
        + left. by apply bool_decide_eq_false_2. }
  rewrite (proj2 (existsb_elem (is_game _) _)) by (exists g; by rewrite is_game_true).
  rewrite (proj2 (existsb_elem (is_device _) _)).
  2:{ exists dv. unfold is_device. by rewrite bool_decide_eq_true. }
  rewrite (proj2 (existsb_elem (is_blob _) _)) by (exists b; by rewrite is_blob_true).
  destruct (cv_parent req) as [p|]; [|done].
  destruct (Hp p eq_refl) as (w & Hw & Hwp).
  rewrite (proj2 (existsb_elem (is_version p) _)) by (exists w; by rewrite is_version_true).
  by rewrite orb_true_r.
Qed.

Lemma row_to_version_ok r :
  (∃ h, vr_blob_hash r = to_hex h) → ∃ v, row_to_version r = Ok v ∧ v_id v = vr_id r.
Proof.
  intros [h Hh]. unfold row_to_version, from_hex, to_hex in *.
  rewrite Hh, blake3_from_to_hex. eauto.
Qed.

(** A row of a well-formed database loads. *)
Lemma load_version_ok d r :
  db_wf d → r ∈ versions d → ∃ v, load_version (vr_id r) d = Ok v ∧ row_to_version r = Ok v ∧ v_id v = vr_id r.
Proof.
  intros Hwf Hr. destruct (row_to_version_ok r) as (v & Hv & Hid); [by apply Hwf|].
  exists v. unfold load_version. rewrite (fetch_version d r Hwf Hr). done.
Qed.

Lemma select_head_move d id game account expected h :
  select_head game account d = Some h →
  select_head game account (move_head id game account expected d) =
    Some (if decide (h = expected) then Some id else h).
Proof.
  unfold select_head, move_head. simpl. unfold fetch_optional.
  induction (games d) as [|x t IH]; simpl; [done|].
  destruct (my_game game account x) eqn:E; simpl.
  - intros [= <-]. case_bool_decide; [rewrite decide_True by done|rewrite decide_False by done];
      simpl; unfold my_game, is_game in *; simpl; rewrite E; done.
  - rewrite E. auto.
Qed.

(** The committed transaction: a row appended, and a CAS on the head. *)
Lemma create_version_tx_accepts account req id now d g :
  db_wf d → g ∈ games d → gr_account g = account → insertable d req id →
  create_version_tx account (gr_id g) req id now d =
  Ok (bool_decide (gr_head g = cv_parent req), gr_head g,
      move_head id (gr_id g) account (cv_parent req)
        (bump (to_hex (cv_blob_hash req))
           (with_versions (versions d ++
              [new_version_row account (gr_id g) req id (next_seq (gr_id g) d) now]) d))).
Proof.
  intros Hwf Hg <- Hin. unfold create_version_tx.
  rewrite (insert_version_accepts _ _ _ _ _ _ Hg Hin). simpl.
  pose proof (select_head_of d g Hwf Hg) as Hs. unfold select_head in *. simpl.
  rewrite Hs. simpl. unfold cas_head. simpl.
  rewrite (count_game d g) by (done || (intros x Hx; autorewrite with savr_rw in Hx; naive_solver)).
  rewrite (proj2 (existsb_elem (is_version id) _)), andb_false_r.
  2:{ eexists. split; [apply elem_of_app; right; apply list_elem_of_here|]. by apply is_version_true. }
  simpl. rewrite (proj2 (my_game_true _ _ _)) by done. simpl.
  by destruct (bool_decide (gr_head g = cv_parent req)).
Qed.

(** What [create_version] answers and leaves when the row can be inserted. *)
Lemma create_version_ok account req id now d g :
  db_wf d → g ∈ games d → gr_account g = account → insertable d req id →
  let row := new_version_row account (gr_id g) req id (next_seq (gr_id g) d) now in
  ∃ v d', row_to_version row = Ok v ∧ db_wf d' ∧ versions d' = versions d ++ [row] ∧
    devices d' = devices d ∧ blobs d' = blobs (bump (to_hex (cv_blob_hash req)) d) ∧
    if decide (gr_head g = cv_parent req)
    then create_version account (gr_id g) req id now d = (Ok (FastForward v), d') ∧
         select_head (gr_id g) account d' = Some (Some id)
    else ∃ tip, create_version account (gr_id g) req id now d = (Ok (Conflict tip v), d') ∧
                v_id <$> tip = gr_head g ∧ select_head (gr_id g) account d' = Some (gr_head g).
Proof.
  intros Hwf Hg Ha Hin row.
  pose proof (create_version_tx_accepts account req id now d g Hwf Hg Ha Hin) as Htx.
  fold row in Htx. set (d' := move_head _ _ _ _ _) in Htx.
  assert (Hwf' : db_wf d').
  { eapply create_version_tx_wf; [exact Hwf| |exact Htx]. intros Hs.
    destruct (in_parent _ _ _ Hin id Hs) as (w & Hw & Hwid). by apply (in_fresh _ _ _ Hin w Hw). }
  assert (Hsel : select_head (gr_id g) account d' =
            Some (if decide (gr_head g = cv_parent req) then Some id else gr_head g)).
  { apply select_head_move. subst account. by apply (select_head_of d). }
  destruct (load_version_ok d' row Hwf') as (v & Hl & Hv & _).
  { simpl. apply elem_of_app. right. apply list_elem_of_here. }
  exists v, d'. split_and!; try done.
  unfold create_version. rewrite Htx. change (vr_id row) with id in Hl. rewrite Hl.
  rewrite Hsel. case_decide as Hd.
  - rewrite bool_decide_eq_true_2 by done. done.
  - rewrite bool_decide_eq_false_2 by done. simpl.
    destruct (gr_head g) as [h|] eqn:Eh; [|by exists None].
    destruct (wf_head d Hwf g h Hg Eh) as (t & Ht & Htid & _).
    destruct (load_version_ok d' t Hwf') as (tv & Htl & _ & Htv).
    { simpl. apply elem_of_app. by left. }
    rewrite Htid in Htl. exists (Some tv). rewrite Htl. simpl. split_and!; [done| |done].
    congruence.
Qed.
End Create.

Section Create2.
Context `{B3 : Blake3} `{!Blake3Laws}.
Implicit Types (d : Db) (req : CreateVersion).

Lemma row_to_version_id r v : row_to_version r = Ok v → v_id v = vr_id r.
Proof. unfold row_to_version. by destruct (from_hex _); intros [= <-]. Qed.

(** What a transaction that went through says about its request. *)
Lemma create_version_tx_insertable account game req id now d adv prev d' :
  db_wf d → cv_parent req ≠ Some id →
  create_version_tx account game req id now d = Ok (adv, prev, d') →
  ∃ g, g ∈ games d ∧ gr_id g = game ∧ gr_account g = account ∧ insertable d req id.
Proof.
  intros Hwf Hself Htx.
  destruct (create_version_tx_ok _ _ _ _ _ _ _ _ _ Htx) as (Hi & Hsel & _).
  destruct (insert_version_ok _ _ _ Hi) as (_ & Hid & _ & _ & Hb & Hp). simpl in *.
  destruct (select_head_elem d game account prev Hwf Hsel) as (g & Hg & Hgid & Hga & _).
  exists g. split_and!; [done..|]. constructor; [done| |done|].
  - unfold insert_version in Hi. destruct (existsb _ (versions d)) in Hi; [done|].
    destruct (negb _) eqn:E in Hi; [done|]. bool_simpl.
    match goal with H : existsb (is_device _) _ = true |- _ =>
      apply existsb_elem in H as (x & Hx & Hxi) end.
    exists x. unfold is_device in Hxi. by apply bool_decide_eq_true in Hxi.
  - intros p Hps. destruct (Hp p Hps) as [->|?]; [congruence|done].
Qed.

Lemma create_version_tx_err account game req id now d e :
  create_version_tx account game req id now d = Err e → status e = 500%Z.
Proof.
  unfold create_version_tx, insert_version. intros Htx.
  destruct (existsb _ (versions d)) in Htx; [by injection Htx as <-|].
  destruct (negb _) in Htx; [by injection Htx as <-|]. simpl in Htx.
  destruct (select_head game account _) in Htx; simpl in Htx; [|by injection Htx as <-].
  unfold cas_head in Htx. case_match_in Htx; [by injection Htx as <-|done].
Qed.

(** A request that could be inserted still can after another one was. *)
Lemma insertable_after d d1 req1 req2 id1 id2 row :
  insertable d req2 id2 → id1 ≠ id2 → vr_id row = id1 →
  versions d1 = versions d ++ [row] → devices d1 = devices d →
  blobs d1 = blobs (bump (to_hex (cv_blob_hash req1)) d) → insertable d1 req2 id2.
Proof.
  intros [Hf Hd (b & Hb & Hbh) Hp] Hne Hid Hv Hdv Hbl. constructor.
  - rewrite Hv. intros x [Hx| ->%list_elem_of_singleton]%elem_of_app; [auto|congruence].
  - by rewrite Hdv.
  - rewrite Hbl. simpl. eexists. split; [apply elem_of_update_where; eauto|].
    by destruct (is_blob _ b).
  - intros p Hpp. destruct (Hp p Hpp) as (w & Hw & ?). exists w. rewrite Hv, elem_of_app. auto.
Qed.
End Create2.

(** ** Resolving *)

Section Resolve.
Context `{B3 : Blake3} `{!Blake3Laws} `{U : UuidText}.

Lemma cas_head_same d g w :
  db_wf d → g ∈ games d → w ∈ versions d →
  cas_head (vr_id w) (gr_id g) (gr_account g) (gr_head g) d =
  Ok (1, move_head (vr_id w) (gr_id g) (gr_account g) (gr_head g) d).
Proof.
  intros Hwf Hg Hw. unfold cas_head.
  rewrite (count_game d g) by (done || (intros x Hx; autorewrite with savr_rw in Hx; naive_solver)).
  rewrite (proj2 (my_game_true _ _ _)), bool_decide_eq_true_2 by done.
  rewrite (proj2 (existsb_elem (is_version _) _)); [done|]. exists w. by rewrite is_version_true.
Qed.

Lemma fetch_winner d account game winner :
  db_wf d →
  match fetch_optional (λ r, is_version winner r && of_game game account r)%bool (versions d) with
  | Some w => w ∈ versions d ∧ vr_id w = winner ∧ vr_game_id w = game ∧ vr_account w = account
  | None => ∀ w, w ∈ versions d → vr_game_id w = game → vr_account w = account → vr_id w ≠ winner
  end.
Proof.
  intros Hwf. destruct (fetch_optional _ _) as [w|] eqn:E.
  - apply fetch_optional_Some in E as [Hw Hm]. autorewrite with savr_rw in Hm. naive_solver.
  - rewrite fetch_optional_None in E. intros w Hw Hg Ha Hid. specialize (E w Hw).
    apply not_true_iff_false in E. apply E. by autorewrite with savr_rw.
Qed.

Lemma same_game_account d g w :
  db_wf d → g ∈ games d → w ∈ versions d → vr_game_id w = gr_id g → vr_account w = gr_account g.
Proof.
  intros Hwf Hg Hw E. destruct (wf_vgame d Hwf w Hw) as (g' & Hg' & Hid & <-).
  f_equal. apply (NoDup_key_inj gr_id (games d)); [apply Hwf|congruence..].
Qed.

(** The log only grows, by at most one row. *)
Lemma resolve_conflict_log account game winner kb id now d r d' :
  resolve_conflict account game winner kb id now d = (r, d') →
  length (resolved_conflicts d') = length (resolved_conflicts d) →
  resolved_conflicts d' = resolved_conflicts d.
Proof.
  unfold resolve_conflict, resolve_conflict_tx, cas_head.
  destruct (ok_or (select_head _ _ _) _) as [cur|e]; simpl; [|by intros [= <- <-]].
  destruct (ok_or (vr_seq <$> _) _) as [s|e]; simpl; [|by intros [= <- <-]].
  destruct (negb _ && _)%bool; simpl; [by intros [= <- <-]|].
  destruct (decide _); [|by intros [= <- <-]].
  destruct cur as [loser|]; [|by intros [= <- <-]].
  destruct (decide (loser = winner)); [by intros [= <- <-]|].
  destruct (existsb _ _); [by intros [= <- <-]|].
  intros [= <- <-]. simpl. rewrite length_app. simpl. lia.
Qed.

Lemma resolve_conflict_wins account kb id now d g w :
  db_wf d → (∀ c, c ∈ resolved_conflicts d → rc_id c ≠ id) →
  g ∈ games d → gr_account g = account → w ∈ versions d → vr_game_id w = gr_id g →
  ∃ d', resolve_conflict account (gr_id g) (vr_id w) kb id now d =
          (Ok ({| hr_head := Some (vr_id w); hr_seq := Some (vr_seq w) |}, vr_seq w), d') ∧
    db_wf d' ∧ versions d' = versions d ∧ select_head (gr_id g) account d' = Some (Some (vr_id w)) ∧
    map rc_loser (resolved_conflicts d') = map rc_loser (resolved_conflicts d) ++
      match gr_head g with
      | Some loser => if decide (loser = vr_id w) then [] else [loser]
      | None => []
      end.
Proof.
  intros Hwf Hfresh Hg <- Hw Hwg.
  pose proof (wf_seq_pos d Hwf w Hw) as Hpos.
  assert (Htx : ∃ d', resolve_conflict_tx (gr_account g) (gr_id g) (vr_id w) kb id now d = Ok (vr_seq w, d') ∧
    games d' = games (move_head (vr_id w) (gr_id g) (gr_account g) (gr_head g) d) ∧
    map rc_loser (resolved_conflicts d') = map rc_loser (resolved_conflicts d) ++
      match gr_head g with
      | Some loser => if decide (loser = vr_id w) then [] else [loser]
      | None => []
      end).
  { unfold resolve_conflict_tx. rewrite (select_head_of d g Hwf Hg). simpl.
    pose proof (fetch_winner d (gr_account g) (gr_id g) (vr_id w) Hwf) as Hf.
    destruct (fetch_optional _ (versions d)) as [w'|].
    2:{ exfalso. apply (Hf w); try done. by apply (same_game_account d g w). }
    destruct Hf as (Hw' & Hid & _).
    assert (w' = w) as -> by (apply (NoDup_key_inj vr_id (versions d)); [apply Hwf|done..]).
    simpl. rewrite (cas_head_same d g w Hwf Hg Hw). simpl.
    destruct (gr_head g) as [loser|]; [|eexists; split_and!; [done|done|by rewrite app_nil_r]].
    case_decide; [eexists; split_and!; [done|done|by rewrite app_nil_r]|].
    rewrite (proj2 (existsb_elem_false _ _)) by (intros c Hc; by apply bool_decide_eq_false_2, Hfresh).
    eexists. split_and!; [done|done|]. simpl. by rewrite map_app. }
  destruct Htx as (d' & Htx & Hgs & Hl). exists d'. unfold resolve_conflict. rewrite Htx.
  rewrite i64_as_u64_nonneg by lia. split_and!; [done|..|done].
  - by eapply resolve_conflict_tx_wf.
  - by apply resolve_conflict_tx_ok in Htx as (?&?&_&_&_&_&_&_&?&_).
  - unfold select_head. rewrite Hgs.
    pose proof (select_head_move d (vr_id w) (gr_id g) (gr_account g) (gr_head g) (gr_head g)
      (select_head_of d g Hwf Hg)) as Hm. by rewrite decide_True in Hm.
Qed.
End Resolve.
