(* ===== verification/AccountSpec.v ===== *)
(** * savr-server: config, pairing codes and replay

    The optimistic concurrency of the synced config, the single use of pairing
    codes, and what a reconnecting device is told it missed. *)

From S2P Require Import Prelude CoreTypes ServerError Auth Blobs ServerDb ServerGc DbWf.

(** ** Synced config: at most one writer per tag *)

Section Config.
(** One commit: the tag its reader saw, its fresh tag, the config it writes. *)
Record Commit := { c_stored : string; c_new : string; c_cfg : SyncedConfig }.

Definition commit (account : Uuid) (c : Commit) (d : Db) : outcome Db ApiError SyncedConfig :=
  put_config_commit account (c_cfg c) (c_stored c) (c_new c) d.

(** Commits in the order the database runs them, whoever issued them. *)
Definition run_commits (account : Uuid) (cs : list Commit) (d : Db) : Db :=
  foldl (λ d c, snd (commit account c d)) d cs.

Definition config_row (account : Uuid) (d : Db) : option ConfigRow :=
  fetch_optional (is_config account) (config d).

Lemma is_config_true a r : is_config a r = true ↔ cr_account r = a.
Proof. unfold is_config. apply bool_decide_eq_true. Qed.

Lemma cas_config_ok account st nt cfg d :
  NoDup (map cr_account (config d)) →
  cas_config account st nt cfg d =
  (if decide (select_tag account d = Some st) then 1 else 0, snd (cas_config account st nt cfg d)) ∧
  config_row account (snd (cas_config account st nt cfg d)) =
    (if decide (select_tag account d = Some st)
     then Some {| cr_account := account; cr_tag := nt; cr_data := cfg |} else config_row account d) ∧
  map cr_account (config (snd (cas_config account st nt cfg d))) = map cr_account (config d).
Proof.
  unfold cas_config, select_tag, config_row. simpl. intros Hnd.
  split_and!; [f_equal| |by apply map_update_where].
  - induction (config d) as [|r t IH]; [done|]. simpl in Hnd. apply list.NoDup_cons in Hnd as [Hni Hnd].
    rewrite count_where_cons. simpl. destruct (is_config account r) eqn:E; simpl; [|by apply IH].
    assert (count_where (λ r, (is_config account r && bool_decide (cr_tag r = st))%bool) t = 0) as ->.
    { apply count_where_0. intros x Hx. apply andb_false_iff. left. apply not_true_iff_false.
      rewrite is_config_true in *. intros Hxa. apply Hni. rewrite E, <- Hxa. by apply list_elem_of_fmap_2. }
    destruct (decide (cr_tag r = st)) as [->|Hne].
    + by rewrite bool_decide_eq_true_2, decide_True.
    + by rewrite bool_decide_eq_false_2, decide_False by congruence.
  - clear Hnd. induction (config d) as [|r t IH]; [done|]. simpl.
    destruct (is_config account r) eqn:E; simpl.
    + apply is_config_true in E. destruct (decide (cr_tag r = st)) as [->|Hne].
      * rewrite bool_decide_eq_true_2, decide_True by done. rewrite E.
        by rewrite (proj2 (is_config_true account _)).
      * rewrite bool_decide_eq_false_2, decide_False by congruence.
        by rewrite (proj2 (is_config_true account _)).
    + rewrite E. by rewrite IH.
Qed.

(** A commit goes through exactly when the stored tag is the one it read. *)
Lemma commit_ok account c d :
  NoDup (map cr_account (config d)) →
  if decide (select_tag account d = Some (c_stored c))
  then fst (commit account c d) = Ok (set_tag (c_new c) (c_cfg c)) ∧
       config_row account (snd (commit account c d)) =
         Some {| cr_account := account; cr_tag := c_new c; cr_data := set_tag (c_new c) (c_cfg c) |}
  else fst (commit account c d) = Err (config_conflict (default "" (select_tag account d))) ∧
       config_row account (snd (commit account c d)) = config_row account d.
Proof.
  intros Hnd. destruct (cas_config_ok account (c_stored c) (c_new c) (set_tag (c_new c) (c_cfg c)) d Hnd)
    as (E & Hr & _).
  unfold commit, put_config_commit. rewrite E.
  destruct (cas_config _ _ _ _ _) as [n d'] eqn:Ec; simpl in *.
  case_decide; simpl; [done|]. split; [|done]. do 3 f_equal.
  unfold select_tag. fold (config_row account d') (config_row account d). by rewrite Hr.
Qed.

Lemma commit_accounts account c d :
  NoDup (map cr_account (config d)) →
  map cr_account (config (snd (commit account c d))) = map cr_account (config d).
Proof.
  intros Hnd. destruct (cas_config_ok account (c_stored c) (c_new c) (set_tag (c_new c) (c_cfg c)) d Hnd)
    as (E & _ & Hm).
  unfold commit, put_config_commit. rewrite E.
  destruct (decide (select_tag account d = Some (c_stored c))); exact Hm.
Qed.

Lemma select_tag_row account d : select_tag account d = cr_tag <$> config_row account d.
Proof. done. Qed.

Lemma run_commits_accounts account cs d :
  NoDup (map cr_account (config d)) →
  map cr_account (config (run_commits account cs d)) = map cr_account (config d).
Proof.
  revert d. induction cs as [|c cs IH]; intros d Hnd; [done|]. simpl.
  rewrite IH; rewrite commit_accounts; done.
Qed.

(** Once the tag has moved on from [t] it never comes back. *)
Lemma run_commits_tag account t cs d :
  NoDup (map cr_account (config d)) → select_tag account d ≠ Some t →
  (∀ c, c ∈ cs → c_new c ≠ t) → select_tag account (run_commits account cs d) ≠ Some t.
Proof.
  revert d. induction cs as [|c cs IH]; intros d Hnd Ht Hc; [done|]. simpl. apply IH.
  - by rewrite commit_accounts.
  - pose proof (commit_ok account c d Hnd) as Hok. rewrite !select_tag_row in *.
    case_decide; destruct Hok as [_ ->]; [|done]. simpl. intros [= Heq].
    by apply (Hc c); [apply list_elem_of_here|].
  - intros x Hx. apply Hc. by apply list_elem_of_further.
Qed.
End Config.

(** ** Pairing codes *)

Section Pairing.
Context `{A2 : Argon2}.

Definition with_id (id : Uuid) (r : PairingRow) : bool := bool_decide (pc_id r = id).

Lemma burn_code_ok d r :
  NoDup (map pc_id (pairing_codes d)) → r ∈ pairing_codes d → pc_used r = 0%Z →
  burn_code (pc_id r) d = (1, snd (burn_code (pc_id r) d)) ∧
  pairing_codes (snd (burn_code (pc_id r) d)) = update_where (with_id (pc_id r)) set_used (pairing_codes d).
Proof.
  intros Hnd Hr Hu. unfold burn_code. simpl. split.
  - f_equal. rewrite (count_where_remove_key pc_id _ _ r) by done.
    rewrite !bool_decide_eq_true_2 by done. simpl.
    enough (count_where (λ r0, (bool_decide (pc_id r0 = pc_id r) && bool_decide (pc_used r0 = 0%Z))%bool)
      (List.filter (λ x, negb (bool_decide (pc_id x = pc_id r))) (pairing_codes d)) = 0) as -> by lia.
    apply count_where_0. intros x [_ Hx]%elem_of_filter_bool. bool_simpl.
    by rewrite bool_decide_eq_false_2.
  - apply map_ext_in. intros x Hx. apply list_elem_of_In in Hx. unfold with_id.
    destruct (decide (pc_id x = pc_id r)) as [E|E].
    + assert (x = r) as -> by (by apply (NoDup_key_inj pc_id (pairing_codes d))).
      by rewrite !bool_decide_eq_true_2.
    + by rewrite !(bool_decide_eq_false_2 (pc_id x = pc_id r)).
Qed.

Lemma burn_code_used d id :
  (∀ x, x ∈ pairing_codes d → pc_id x = id → pc_used x ≠ 0%Z) → fst (burn_code id d) = 0 ∧ snd (burn_code id d) = d.
Proof.
  intros Hu. unfold burn_code. simpl. split.
  - apply count_where_0. intros x Hx. apply andb_false_iff.
    destruct (decide (pc_id x = id)) as [E|E]; [right|left]; apply bool_decide_eq_false_2; eauto.
  - unfold with_pairing. destruct d; simpl in *. f_equal. rewrite <- map_id. apply map_ext_in.
    intros x Hx. apply list_elem_of_In in Hx. destruct (decide (pc_id x = id)) as [E|E].
    + rewrite (bool_decide_eq_false_2 (pc_used x = 0%Z)) by eauto. by rewrite andb_false_r.
    + by rewrite bool_decide_eq_false_2.
Qed.

(** The redemption loop over rows the database still holds unchanged. *)
Lemma redeem_rows_ok code rows d :
  NoDup (map pc_id (pairing_codes d)) →
  (∀ r, r ∈ rows → r ∈ pairing_codes d ∧ pc_used r = 0%Z) →
  match redeem_rows code rows d with
  | (Some a, d') => ∃ r, r ∈ rows ∧ verify_secret code (pc_code_hash r) = true ∧ a = pc_account r ∧
      pairing_codes d' = update_where (with_id (pc_id r)) set_used (pairing_codes d)
  | (None, d') => d' = d ∧ ∀ r, r ∈ rows → verify_secret code (pc_code_hash r) = false
  end.
Proof.
  intros Hnd. induction rows as [|r rows IH]; intros Hrows; cbn [redeem_rows].
  - split; [done|]. intros r Hr. by apply elem_of_nil in Hr.
  - destruct (verify_secret code (pc_code_hash r)) eqn:E.
    + destruct (Hrows r) as [Hr Hu]; [apply list_elem_of_here|].
      destruct (burn_code_ok d r Hnd Hr Hu) as [Hb Hp].
      rewrite Hb. destruct (decide (1 = 1)); [|done].
      exists r. split_and!; [apply list_elem_of_here|done..].
    + specialize (IH (λ x Hx, Hrows x (list_elem_of_further _ _ _ Hx))).
      destruct (redeem_rows code rows d) as [[a|] d'].
      * destruct IH as (x & Hx & ?). exists x. split; [by apply list_elem_of_further|done].
      * destruct IH as [-> Hno]. split; [done|]. intros x [->|Hx]%elem_of_cons; auto.
Qed.

(** Rows that are all used up yield nothing and change nothing. *)
Lemma redeem_rows_spent code rows d :
  (∀ r x, r ∈ rows → verify_secret code (pc_code_hash r) = true → x ∈ pairing_codes d →
          pc_id x = pc_id r → pc_used x ≠ 0%Z) →
  redeem_rows code rows d = (None, d).
Proof.
  induction rows as [|r rows IH]; intros Hs; cbn [redeem_rows]; [done|].
  assert (Hrest : redeem_rows code rows d = (None, d)).
  { apply IH. intros x y Hx. apply Hs. by apply list_elem_of_further. }
  destruct (verify_secret code (pc_code_hash r)) eqn:E; [|done].
  destruct (burn_code_used d (pc_id r)) as [H1 H2].
  { intros x Hx Hid. eapply Hs; eauto. apply list_elem_of_here. }
  destruct (burn_code (pc_id r) d) as [n d']. simpl in *. subst. by rewrite decide_False.
Qed.
End Pairing.

(** ** Replay *)

Section Replay.
Context `{B3 : Blake3}.
Implicit Types (d : Db) (last : gmap N Z).

Definition account_rows (account : Uuid) (d : Db) : list VersionRow :=
  merge_sort game_seq_le (List.filter (λ r, bool_decide (vr_account r = account)) (versions d)).

Lemma elem_of_account_rows account d r :
  r ∈ account_rows account d ↔ r ∈ versions d ∧ vr_account r = account.
Proof.
  unfold account_rows. rewrite merge_sort_Permutation, elem_of_filter_bool, bool_decide_eq_true. done.
Qed.

#[local] Instance game_seq_le_trans : Transitive game_seq_le.
Proof. intros a b c. unfold game_seq_le. lia. Qed.
#[local] Instance game_seq_le_total : Total game_seq_le.
Proof. intros a b. unfold game_seq_le. lia. Qed.

Lemma account_rows_sorted account d : StronglySorted game_seq_le (account_rows account d).
Proof. apply (StronglySorted_merge_sort game_seq_le). Qed.

Lemma elem_of_versions_since account last d g v s :
  db_wf d →
  (g, v, s) ∈ versions_since account last d ↔
  ∃ r, r ∈ versions d ∧ vr_account r = account ∧ vr_game_id r = g ∧ vr_id r = v ∧ vr_seq r = s ∧
       (default 0 (last !! g) < s)%Z.
Proof.
  intros Hwf. unfold versions_since. fold (account_rows account d). rewrite list_elem_of_omap. split.
  - intros (r & (Hr & Ha)%elem_of_account_rows & Hs). simpl in Hs. case_decide as Hlt; [|done].
    pose proof (wf_seq_pos d Hwf r Hr). rewrite i64_as_u64_nonneg in * by lia.
    simplify_eq. eauto 10.
  - intros (r & Hr & Ha & <- & <- & <- & Hlt). exists r. split; [by apply elem_of_account_rows|].
    pose proof (wf_seq_pos d Hwf r Hr). rewrite i64_as_u64_nonneg by lia. by rewrite decide_True.
Qed.

(** A client that takes each message's [seq] as the new mark of its game. *)
Definition catch_up (msgs : list (Uuid * Uuid * Z)) (last : gmap N Z) : gmap N Z :=
  foldl (fun m '(g, _, s) => <[g := s]> m) last msgs.

(** Messages of one game come in ascending [seq]. *)
Definition msg_le (a b : Uuid * Uuid * Z) : Prop := fst (fst a) = fst (fst b) → (snd a <= snd b)%Z.

Lemma catch_up_mark msgs : StronglySorted msg_le msgs → ∀ last g,
  ((∀ v s, (g, v, s) ∉ msgs) → catch_up msgs last !! g = last !! g) ∧
  (∀ v s, (g, v, s) ∈ msgs → ∃ s', catch_up msgs last !! g = Some s' ∧ (s <= s')%Z).
Proof.
  induction 1 as [|[[g0 v0] s0] msgs Hs IH Hall]; intros last g; simpl.
  - split; [done|]. intros v s Hin. by apply elem_of_nil in Hin.
  - destruct (IH (<[g0 := s0]> last) g) as [Hno Hyes]. rewrite list.Forall_forall in Hall. split.
    + intros Hn. rewrite Hno.
      * apply lookup_insert_ne. intros ->. apply (Hn v0 s0), list_elem_of_here.
      * intros v s Hin. apply (Hn v s). by apply list_elem_of_further.
    + intros v s [[= -> -> ->]|Hin]%elem_of_cons; [|eauto].
      destruct (decide (g0 ∈ map (λ m, fst (fst m)) msgs)) as [Hin|Hni].
      * apply list_elem_of_fmap in Hin as ([[g1 v1] s1] & Hg1 & Hin1). simpl in Hg1. subst g1.
        destruct (Hyes v1 s1 Hin1) as (s' & -> & Hle). exists s'. split; [done|].
        assert (s0 <= s1)%Z by (by apply (Hall _ Hin1)). lia.
      * exists s0. split; [|done]. rewrite Hno; [apply lookup_insert_eq|].
        intros v s Hin1. apply Hni. apply list_elem_of_fmap. by exists (g0, v, s).
Qed.

Lemma versions_since_sorted account last d :
  db_wf d → StronglySorted msg_le (versions_since account last d).
Proof.
  intros Hwf. unfold versions_since. fold (account_rows account d).
  assert (Hpos : ∀ r, r ∈ account_rows account d → (1 <= vr_seq r)%Z).
  { intros r [Hr _]%elem_of_account_rows. by apply (wf_seq_pos d Hwf). }
  induction (account_rows_sorted account d) as [|x rows Hs IH Hall]; [constructor|]. simpl.
  assert (Hpos' : ∀ r, r ∈ rows → (1 <= vr_seq r)%Z).
  { intros r Hr. apply Hpos. by apply list_elem_of_further. }
  destruct (decide _); [|by apply IH]. constructor; [by apply IH|].
  rewrite list.Forall_forall in Hall. apply list.Forall_forall. intros m (y & Hy & Hm)%list_elem_of_omap. simpl in Hm.
  case_decide; [|done]. injection Hm as <-. intros Hg. simpl in *.
  pose proof (Hpos x (list_elem_of_here _ _)). pose proof (Hpos' y Hy).
  rewrite !i64_as_u64_nonneg by lia. destruct (Hall y Hy) as [?|[_ ?]]; [lia|done].
Qed.
End Replay.
