(* ===== verification/ServerSystem.v ===== *)
(** * savr-server: the running server

    HTTP requests, socket events, the GC task and restarts of the process
    interleave on one [AppState].
    [server_step] is one of them, [reachable] the states they lead to from a
    first boot, and [server_ok] the invariant all of them keep: a well-formed
    database over a content-addressed store that has the bytes of every blob. *)

From S2P Require Import Prelude CoreTypes ServerError Auth Blobs Hub ServerDb ServerGc ServerApi Ws DbWf GcSpec VersionSpec.

Record server_ok `{Blake3} (app : AppState) : Prop := {
  so_db : db_wf (app_db app);
  so_store : store_ok (app_blobs app);
  so_backed : backed (store app);
}.

Section System.
Context `{B3 : Blake3} `{A2 : Argon2} `{J : Jwt} `{U : UuidText}.

(** A fresh UUID is not one the request already names. *)
Definition fresh_for (env : Env) (req : Request) : Prop :=
  match req with
  | Device (PostVersion _ r) => cv_parent r ≠ Some (e_uuid env)
  | _ => True
  end.

Inductive server_step (app : AppState) : AppState → Prop :=
  | step_http env header req :
      fresh_for env req → server_step app (snd (build_app env header req app))
  | step_gc : server_step app (with_store (snd (run_gc (store app))) app)
  | step_ws_open auth tx : channels app !! tx = None → server_step app (ws_open auth tx app)
  | step_ws now auth tx ev : server_step app (snd (ws_step now auth tx ev app))
  | step_ws_close auth tx : server_step app (ws_close auth tx app)
  | step_restart h env pw_bytes jwt_bytes app' fs s' :
      server_main h env pw_bytes jwt_bytes (store app) = (Ok app', fs, s') → server_step app app'.

Inductive boot : AppState → Prop :=
  | boot_intro password env secret :
      boot (AppState_new (snd (ensure_owner_account password env empty_db)) empty_store secret).

Inductive reachable : AppState → Prop :=
  | reach_boot app : boot app → reachable app
  | reach_step app app' : reachable app → server_step app app' → reachable app'.
End System.

(** ** Frames: what the handlers leave alone *)

Section Frames.
Context `{B3 : Blake3} `{!Blake3Laws}.

(** Only the three tables and the files matter to the invariant. *)
Lemma server_ok_frame app app' :
  server_ok app → versions (app_db app') = versions (app_db app) →
  games (app_db app') = games (app_db app) → blobs (app_db app') = blobs (app_db app) →
  app_blobs app' = app_blobs app → server_ok app'.
Proof.
  intros [Hw Hs Hb] Hv Hg Hbl Hf. constructor.
  - by eapply wf_frame.
  - by rewrite Hf.
  - intros b. unfold app_db, app_blobs in *. rewrite Hbl, Hf. apply Hb.
Qed.

Lemma server_ok_same app app' : server_ok app → store app' = store app → server_ok app'.
Proof. intros [] Hs. unfold app_db, app_blobs in *. constructor; unfold app_db, app_blobs; by rewrite Hs. Qed.

Lemma backed_rows s d f :
  backed s → f = files s → (∀ b, b ∈ blobs d → ∃ b0, b0 ∈ blobs (db s) ∧ br_hash b = br_hash b0) →
  backed {| db := d; files := f |}.
Proof. intros Hb -> Hd b (b0 & Hb0 & E)%Hd. simpl. rewrite E. auto. Qed.
End Frames.

(** The five tables' writers that touch neither versions, games nor blobs. *)
Definition same_core (d d' : Db) : Prop :=
  versions d' = versions d ∧ games d' = games d ∧ blobs d' = blobs d.

Lemma same_core_refl d : same_core d d.
Proof. done. Qed.
#[export] Hint Resolve same_core_refl : savr.

Section SameCore.
Context `{B3 : Blake3} `{A2 : Argon2}.

Lemma redeem_rows_core code rows d : same_core d (snd (redeem_rows code rows d)).
Proof.
  revert d. induction rows as [|r rows IH]; intros d; simpl; [done|].
  destruct (verify_secret _ _); [|apply IH].
  case_decide; [done|]. destruct (IH (snd (burn_code (pc_id r) d))) as (?&?&?).
  by split_and!.
Qed.

Lemma create_pairing_code_core account now code salt id d :
  same_core d (snd (create_pairing_code account now code salt id d)).
Proof. unfold create_pairing_code. repeat case_match; done. Qed.

Lemma create_device_core account device name os h now d d' :
  create_device account device name os h now d = Ok d' → same_core d d'.
Proof. unfold create_device. intros Hc. repeat (case_match_in Hc; [done|]). by injection Hc as <-. Qed.

Lemma seed_default_config_core account t d : same_core d (snd (seed_default_config account t d)).
Proof. unfold seed_default_config. repeat case_match; done. Qed.

Lemma ensure_owner_core password env d : same_core d (snd (ensure_owner_account password env d)) ∧
  devices (snd (ensure_owner_account password env d)) = devices d.
Proof.
  unfold ensure_owner_account, seed_default_config. destruct (accounts d); [|by split].
  repeat case_match; by simplify_eq.
Qed.

Lemma get_or_seed_core account t d : same_core d (snd (get_or_seed_config account t d)).
Proof.
  unfold get_or_seed_config. destruct (read_config account d); [done|].
  apply seed_default_config_core.
Qed.

Lemma put_config_core account cfg t1 t2 d : same_core d (snd (put_config account cfg t1 t2 d)).
Proof.
  assert (Hr : same_core d (snd (put_config_read account cfg t1 d))).
  { unfold put_config_read. destruct (select_tag account d); [done|].
    pose proof (seed_default_config_core account t1 d) as Hs.
    by destruct (seed_default_config account t1 d). }
  unfold put_config. destruct (put_config_read account cfg t1 d) as [[t|e] d1]; [|done].
  unfold put_config_commit. simpl in *. destruct (decide _); done.
Qed.
End SameCore.

(** ** Starting up *)

Section StartUp.
Context `{A2 : Argon2}.

(** What serving starts from: the tables but for the owner's account, the blobs,
    and nobody connected. *)
Lemma server_main_serves h env pw jwt s app fs s' : server_main h env pw jwt s = (Ok app, fs, s') →
  same_core (db s) (app_db app) ∧ devices (app_db app) = devices (db s) ∧ app_blobs app = files s ∧ store app = s' ∧
  jwt_secret app = fst (load_or_create_jwt_secret h jwt).
Proof.
  unfold server_main. pose proof (ensure_owner_core (owner_password h pw) env (db s)) as [Hc Hd].
  destruct (ensure_owner_account _ _ _) as [[u|e] d]; [|done]. destruct (load_or_create_jwt_secret h jwt) as [secret fs'].
  by intros [= <- <- <-].
Qed.
End StartUp.

(** ** Every step keeps the invariant *)

Section Preserve.
Context `{B3 : Blake3} `{!Blake3Laws} `{A2 : Argon2} `{J : Jwt} `{U : UuidText}.
Implicit Types (app : AppState).

Lemma ok_core app d : server_ok app → same_core (app_db app) d → server_ok (with_db d app).
Proof. intros Hok (?&?&?). by apply (server_ok_frame app). Qed.

(** A database whose blob rows are those of before, up to refcounts. *)
Lemma ok_rows app d :
  server_ok app → db_wf d →
  (∀ b, b ∈ blobs d → ∃ b0, b0 ∈ blobs (app_db app) ∧ br_hash b = br_hash b0) →
  server_ok (with_db d app).
Proof.
  intros [Hw Hs Hb] Hd Hrows. constructor; [done|done|]. by apply (backed_rows (store app)).
Qed.

Lemma create_version_state account game req id now d :
  create_version account game req id now d = (fst (create_version account game req id now d), d) ∨
  ∃ adv prev d', create_version_tx account game req id now d = Ok (adv, prev, d') ∧
    snd (create_version account game req id now d) = d'.
Proof.
  unfold create_version.
  destruct (create_version_tx account game req id now d) as [[[adv prev] d']|e]; eauto 10.
Qed.

Lemma create_version_keeps app account game req id now :
  server_ok app → cv_parent req ≠ Some id →
  server_ok (with_db (snd (create_version account game req id now (app_db app))) app).
Proof.
  intros Hok Hp.
  destruct (create_version_state account game req id now (app_db app)) as [->|(adv & prev & d' & Htx & ->)].
  - by apply ok_core.
  - apply ok_rows; [done|by eapply create_version_tx_wf; [apply Hok|..]|].
    apply create_version_tx_ok in Htx as (_ & _ & -> & _). simpl.
    intros b (b0 & Hb0 & E & _)%elem_of_bump. eauto.
Qed.

Lemma resolve_conflict_keeps app account game w kb id now :
  server_ok app →
  server_ok (with_db (snd (resolve_conflict account game w kb id now (app_db app))) app).
Proof.
  intros Hok. unfold resolve_conflict.
  destruct (resolve_conflict_tx account game w kb id now (app_db app)) as [[s d']|e] eqn:Htx; simpl;
    [|by apply ok_core].
  apply ok_rows; [done|by eapply resolve_conflict_tx_wf; [apply Hok|]|].
  apply resolve_conflict_tx_ok in Htx as (? & ? & _ & _ & _ & _ & _ & _ & _ & -> & _). eauto.
Qed.

Lemma ensure_game_keeps app account title appid id :
  server_ok app →
  server_ok (with_db (snd (ensure_game account title appid id (app_db app))) app).
Proof.
  intros Hok. destruct (ensure_game account title appid id (app_db app)) as [r d'] eqn:E. simpl.
  apply ok_rows; [done|eapply ensure_game_wf; [apply Hok|done]|].
  assert (blobs d' = blobs (app_db app)) as ->; [|eauto].
  unfold ensure_game, insert_game in E. repeat case_match; by simplify_eq.
Qed.

Lemma blob_put_keeps app h body :
  server_ok app → server_ok (snd (blob_put_handler h body app)).
Proof.
  intros Hok. destruct Hok as [Hw Hs Hb]. unfold blob_put_handler.
  destruct (valid_hash h); [|done].
  pose proof (blob_put_spec h body (app_blobs app)) as Hp.
  pose proof (blob_put_store_ok h body (app_blobs app) Hs) as Hs'.
  destruct (blob_put h body (app_blobs app)) as [[n|e] f'] eqn:E; simpl in *.
  - destruct (body_bytes body) as [b|]; [|by destruct Hp as (?&?&_)].
    case_decide; [|by destruct Hp]. destruct Hp as [_ Ho].
    constructor; [by apply insert_blob_row_wf'|done|]. intros x. simpl.
    unfold app_blobs in *. rewrite Ho, lookup_insert. case_decide as Hx; [eauto|].
    unfold insert_blob_row. destruct (existsb _ _); [auto|]. simpl.
    intros [Hxin| ->%list_elem_of_singleton]%elem_of_app; [auto|done].
  - assert (Ho : objects f' = objects (app_blobs app)).
    { destruct (body_bytes body) as [b|]; [case_decide; by destruct Hp|by destruct Hp as (?&_&?)]. }
    constructor; [done|done|]. intros x Hx. simpl. rewrite Ho. by apply Hb.
Qed.

Lemma handler_keeps env auth req app :
  server_ok app → fresh_for env (Device req) → server_ok (snd (device_handler env auth req app)).
Proof.
  intros Hok Hf. destruct req; simpl in *; try done.
  - unfold delete_device, revoke_device. simpl. destruct (negb _); by apply (server_ok_frame app).
  - unfold post_ensure_game.
    pose proof (ensure_game_keeps app (account_id auth) (eg_title req) (eg_steam_appid req) (e_uuid env) Hok).
    by destruct (ensure_game _ _ _ _ _) as [[g|e] d'].
  - unfold post_version. destruct (negb _); [done|].
    pose proof (create_version_keeps app (account_id auth) game req (e_uuid env) (e_now env) Hok Hf) as Hk.
    destruct (create_version _ _ _ _ _ _) as [[[v|hd v]|e] d']; simpl in *; [| |done];
      by eapply server_ok_same.
  - unfold resolve.
    pose proof (resolve_conflict_keeps app (account_id auth) game (rr_winner req) (rr_keep_both req)
      (e_uuid env) (e_now env) Hok) as Hk.
    destruct (resolve_conflict _ _ _ _ _ _ _) as [[[hd s]|e] d']; simpl in *; [|done].
    destruct (hr_head hd); [by eapply server_ok_same|done].
  - unfold get_config.
    pose proof (get_or_seed_core (account_id auth) (e_seed_tag env) (app_db app)) as Hc.
    destruct (get_or_seed_config _ _ _) as [[c|e] d']; by apply ok_core.
  - unfold put_config_handler.
    pose proof (put_config_core (account_id auth) cfg (e_seed_tag env) (e_tag env) (app_db app)) as Hc.
    destruct (put_config _ _ _ _ _) as [[c|e] d']; [|by apply ok_core].
    eapply server_ok_same; [by apply (ok_core app d')|done].
  - by apply blob_put_keeps.
Qed.

Lemma pair_keeps env req app : server_ok app → server_ok (snd (pair env req app)).
Proof.
  intros Hok. unfold pair. destruct (guard_check _ _); [|done].
  unfold redeem_pairing_code.
  pose proof (redeem_rows_core (pr_code req)
    (List.filter (code_active (e_now env)) (pairing_codes (app_db app))) (app_db app)) as Hc.
  destruct (redeem_rows _ _ _) as [[account|] d1]; simpl in *.
  - pose proof (ok_core app d1 Hok Hc) as Hok1.
    destruct (create_device _ _ _ _ _ _ _) as [d2|e] eqn:Ed; simpl; [|by eapply server_ok_same].
    apply create_device_core in Ed.
    eapply server_ok_same; [by apply (ok_core (with_db d1 app) d2)|done].
  - eapply server_ok_same; [by apply (ok_core app d1)|done].
Qed.

Lemma build_app_keeps env header req app :
  server_ok app → fresh_for env req → server_ok (snd (build_app env header req app)).
Proof.
  intros Hok Hf. destruct req; simpl; try done.
  - destruct (owner_session env header app); [|done]. simpl. unfold create_pair_code.
    pose proof (create_pairing_code_core a (e_now env) (generate_pairing_code (e_code_bytes env))
      (e_salt env) (e_uuid env) (app_db app)) as Hc.
    destruct (create_pairing_code _ _ _ _ _ _) as [[ce|e] d']; by apply (ok_core app d').
  - by apply pair_keeps.
  - destruct (authed env header app); [|done]. simpl. by apply handler_keeps.
Qed.

Lemma server_step_keeps app app' : server_ok app → server_step app app' → server_ok app'.
Proof.
  intros Hok Hst. destruct Hst as [env header req Hf| |auth tx _|now auth tx ev|auth tx|h env pw jwt app' fs s' Hm].
  - by apply build_app_keeps.
  - destruct Hok as [Hw Hs Hb].
    destruct (gc_accounts_ok (map ac_id (accounts (db (store app)))) GcStats_default (store app) Hw)
      as (stats & s' & E & Hf & _).
    unfold run_gc. rewrite E. constructor; simpl.
    + apply Hf.
    + by apply Hf.
    + by apply Hf.
  - by eapply server_ok_same.
  - destruct ev as [ok|ok|[[]|]|? ok| | | |]; simpl; repeat case_match; try done;
      try (by eapply server_ok_same).
    by apply (server_ok_frame app).
  - by eapply server_ok_same.
  - apply server_main_serves in Hm as ((Hv & Hg & Hb) & _ & Hf & _). by apply (server_ok_frame app).
Qed.

Lemma boot_ok app : boot app → server_ok app.
Proof.
  intros [password env secret].
  assert (Hc : same_core empty_db (snd (ensure_owner_account password env empty_db))).
  { unfold ensure_owner_account. simpl.
    match goal with |- context [seed_default_config ?i ?t ?d] =>
      pose proof (seed_default_config_core i t d) as Hs;
      by destruct (seed_default_config i t d) as [[]] end. }
  destruct Hc as (Hv & Hg & Hb). constructor.
  - by apply (wf_frame empty_db); [..|apply empty_db_wf].
  - intros h b. simpl. by rewrite lookup_empty.
  - intros b. simpl. rewrite Hb. intros Hin. by apply elem_of_nil in Hin.
Qed.

Lemma reachable_ok app : reachable app → server_ok app.
Proof. induction 1; [by apply boot_ok|by eapply server_step_keeps]. Qed.
End Preserve.
