(* ===== verification/DeviceSpec.v ===== *)
(** * savr-server: revocation is for good

    No step of the server gives a revoked device back its access: device rows
    are only appended under fresh ids, marked revoked, or touched. *)

From S2P Require Import Prelude CoreTypes ServerError Auth Blobs Hub ServerDb ServerGc ServerApi Ws DbWf ServerSystem.

(** How a device row may change. *)
Definition same_device (x y : DeviceRow) : Prop :=
  dr_id y = dr_id x ∧ dr_account y = dr_account x ∧ (dr_revoked x ≠ 0 → dr_revoked y ≠ 0)%Z.

Record devices_evolve (d d' : Db) : Prop := {
  de_old x : x ∈ devices d → ∃ y, y ∈ devices d' ∧ same_device x y;
  de_new y : y ∈ devices d' →
    (∃ x, x ∈ devices d ∧ same_device x y) ∨ (∀ x, x ∈ devices d → dr_id x ≠ dr_id y);
  de_ids : NoDup (map dr_id (devices d)) → NoDup (map dr_id (devices d'));
}.

Lemma same_device_refl x : same_device x x.
Proof. done. Qed.
#[export] Hint Resolve same_device_refl : savr.

Lemma devices_same d d' : devices d' = devices d → devices_evolve d d'.
Proof. intros E. constructor; rewrite E; eauto with savr. Qed.

Lemma devices_update d d' (p : DeviceRow → bool) (f : DeviceRow → DeviceRow) :
  devices d' = update_where p f (devices d) → (∀ x, same_device x (f x)) → devices_evolve d d'.
Proof.
  intros E Hf. constructor; rewrite E.
  - intros x Hx. eexists. split; [apply elem_of_update_where; eauto|]. by destruct (p x).
  - intros y (x & Hx & ->)%elem_of_update_where. left. exists x. split; [done|]. by destruct (p x).
  - intros Hnd. rewrite map_update_where; [done|]. intros x. apply Hf.
Qed.

(** The device [device] exists, and every row of it is revoked. *)
Definition banned (device : Uuid) (d : Db) : Prop :=
  (∃ x, x ∈ devices d ∧ dr_id x = device) ∧
  ∀ x, x ∈ devices d → dr_id x = device → dr_revoked x ≠ 0%Z.

Lemma banned_evolve device d d' : devices_evolve d d' → banned device d → banned device d'.
Proof.
  intros [Ho Hn _] [(x & Hx & Hid) Hall]. split.
  - destruct (Ho x Hx) as (y & Hy & E & _). exists y. split; [done|congruence].
  - intros y Hy Hyid. destruct (Hn y Hy) as [(z & Hz & E & _ & Hr)|Hf].
    + apply Hr, Hall; congruence.
    + exfalso. apply (Hf x Hx). congruence.
Qed.

Lemma banned_inactive device account d : banned device d → device_active account device d = false.
Proof.
  intros [_ Hall]. unfold device_active.
  destruct (fetch_optional _ _) as [x|] eqn:E; [|done]. simpl.
  apply fetch_optional_Some in E as [Hx Hm]. unfold my_device, is_device in Hm. bool_simpl.
  by apply bool_decide_eq_false_2, Hall.
Qed.

Lemma banned_credentials device d : banned device d →
  ∃ a h, device_credentials device d = Some (a, h, true).
Proof.
  intros [(x & Hx & Hid) Hall]. unfold device_credentials.
  destruct (fetch_optional_is_Some (is_device device) (devices d) x Hx) as (y & -> & Hy & Hm).
  { unfold is_device. by apply bool_decide_eq_true. }
  unfold is_device in Hm. apply bool_decide_eq_true in Hm. simpl.
  eexists _, _. rewrite bool_decide_eq_false_2 by auto. done.
Qed.

Section Evolve.
Context `{B3 : Blake3} `{A2 : Argon2} `{J : Jwt} `{U : UuidText}.
Implicit Types (s : Store) (d : Db) (app : AppState).

Lemma delete_unkept_devices vk : ∀ stats s,
  devices (db (snd (delete_unkept vk stats s))) = devices (db s).
Proof.
  induction vk as [|[v [|]] vk IH]; intros stats s; simpl; [done|apply IH|].
  unfold delete_version_and_deref.
  destruct (delete_version_tx (gv_id v) (gv_blob_hash v) (db s)) as [[b d']|e] eqn:E; [|done].
  assert (Hd : devices d' = devices (db s)).
  { unfold delete_version_tx in E. case_match_in E; [done|]. simpl in E.
    destruct (match _ with Some _ => _ | None => _ end) in E;
      [case_match_in E; [done|]|]; by injection E as <- <-. }
  destruct b; rewrite IH; exact Hd.
Qed.

Lemma gc_games_devices a r gs : ∀ stats s,
  devices (db (snd (gc_games a r gs stats s))) = devices (db s).
Proof.
  induction gs as [|g gs IH]; intros stats s; simpl; [done|].
  assert (Hp : ∀ h, devices (db (snd (prune_game a g h r stats s))) = devices (db s)).
  { intros h. unfold prune_game. destruct (gc_rows a g (db s)); [done|]. apply delete_unkept_devices. }
  specialize (Hp (mjoin (select_head g a (db s)))).
  destruct (prune_game _ _ _ _ _ _) as [[st|e] s']; [|done]. simpl in Hp. by rewrite IH.
Qed.

Lemma gc_accounts_devices accs : ∀ stats s,
  devices (db (snd (gc_accounts accs stats s))) = devices (db s).
Proof.
  induction accs as [|a accs IH]; intros stats s; simpl; [done|].
  pose proof (gc_games_devices a (config_retention a (db s))
    (map gr_id (List.filter (λ g, bool_decide (gr_account g = a)) (games (db s)))) stats s) as Hg.
  destruct (gc_games _ _ _ _ _) as [[st|e] s']; [|done]. simpl in Hg. by rewrite IH.
Qed.

Lemma redeem_rows_devices code rows d : devices (snd (redeem_rows code rows d)) = devices d.
Proof.
  revert d. induction rows as [|r rows IH]; intros d; simpl; [done|].
  destruct (verify_secret _ _); [|apply IH]. case_decide; [done|]. by rewrite IH.
Qed.

Lemma create_version_devices account game req id now d :
  devices (snd (create_version account game req id now d)) = devices d.
Proof.
  destruct (create_version_state account game req id now d) as [->|(adv & prev & d' & Htx & ->)]; [done|].
  by apply create_version_tx_ok in Htx as (_ & _ & -> & _).
Qed.

Lemma resolve_conflict_devices account game w kb id now d :
  devices (snd (resolve_conflict account game w kb id now d)) = devices d.
Proof.
  unfold resolve_conflict, resolve_conflict_tx, cas_head.
  destruct (select_head _ _ _) as [cur|]; [|done]. simpl.
  destruct (vr_seq <$> _); [|done]. simpl. destruct (negb _ && _)%bool; [done|]. simpl.
  by repeat case_match; simplify_eq.
Qed.

Lemma ensure_game_devices account title appid id d :
  devices (snd (ensure_game account title appid id d)) = devices d.
Proof. unfold ensure_game, insert_game. repeat case_match; by simplify_eq. Qed.

Lemma put_config_devices account cfg t1 t2 d : devices (snd (put_config account cfg t1 t2 d)) = devices d.
Proof.
  assert (Hs : devices (snd (seed_default_config account t1 d)) = devices d).
  { unfold seed_default_config. by repeat case_match. }
  assert (Hr : devices (snd (put_config_read account cfg t1 d)) = devices d).
  { unfold put_config_read. destruct (select_tag account d); [done|].
    by destruct (seed_default_config account t1 d). }
  unfold put_config.
  destruct (put_config_read account cfg t1 d) as [[t|e] d1]; [|done].
  unfold put_config_commit. simpl in *. destruct (decide _); done.
Qed.

Lemma create_device_evolve account device name os h now d d' :
  create_device account device name os h now d = Ok d' → devices_evolve d d'.
Proof.
  unfold create_device. intros Hc.
  destruct (existsb (is_device device) (devices d)) eqn:E; [done|].
  case_match_in Hc; [done|]. injection Hc as <-. rewrite existsb_elem_false in E.
  assert (Hf : ∀ x, x ∈ devices d → dr_id x ≠ device).
  { intros x Hx. specialize (E x Hx). by apply bool_decide_eq_false in E. }
  constructor; simpl.
  - intros x Hx. exists x. split; [|done]. apply elem_of_app. by left.
  - intros y [Hy| ->%list_elem_of_singleton]%elem_of_app; [left|right]; eauto with savr.
  - intros Hnd. by apply NoDup_key_snoc.
Qed.
End Evolve.

Section Steps.
Context `{B3 : Blake3} `{A2 : Argon2} `{J : Jwt} `{U : UuidText}.
Implicit Types (app : AppState).

Lemma pair_evolve env req app : devices_evolve (app_db app) (app_db (snd (pair env req app))).
Proof.
  unfold pair. destruct (guard_check _ _); [|by apply devices_same].
  unfold redeem_pairing_code.
  pose proof (redeem_rows_devices (pr_code req)
    (List.filter (code_active (e_now env)) (pairing_codes (app_db app))) (app_db app)) as Hr.
  destruct (redeem_rows _ _ _) as [[account|] d1]; simpl in *; [|by apply devices_same].
  destruct (create_device _ _ _ _ _ _ _) as [d2|e] eqn:Ed; simpl; [|by apply devices_same].
  assert (devices_evolve d1 d2) as [Ho Hn Hi] by (eapply create_device_evolve; exact Ed).
  rewrite Hr in *. by constructor.
Qed.

Lemma handler_evolve env auth req app :
  devices_evolve (app_db app) (app_db (snd (device_handler env auth req app))).
Proof.
  destruct req; simpl; try (by apply devices_same).
  - unfold delete_device. simpl.
    destruct (negb _); eapply devices_update; done.
  - unfold post_ensure_game.
    pose proof (ensure_game_devices (account_id auth) (eg_title req) (eg_steam_appid req) (e_uuid env) (app_db app)).
    destruct (ensure_game _ _ _ _ _) as [[g|e] d']; by apply devices_same.
  - unfold post_version. destruct (negb _); [by apply devices_same|].
    pose proof (create_version_devices (account_id auth) game req (e_uuid env) (e_now env) (app_db app)).
    destruct (create_version _ _ _ _ _ _) as [[[v|hd v]|e] d']; by apply devices_same.
  - unfold resolve.
    pose proof (resolve_conflict_devices (account_id auth) game (rr_winner req) (rr_keep_both req)
      (e_uuid env) (e_now env) (app_db app)).
    destruct (resolve_conflict _ _ _ _ _ _ _) as [[[hd s]|e] d']; simpl in *; [|by apply devices_same].
    destruct (hr_head hd); by apply devices_same.
  - unfold get_config, get_or_seed_config.
    destruct (read_config _ _); [by apply devices_same|].
    assert (Hs : devices (snd (seed_default_config (account_id auth) (e_seed_tag env) (app_db app))) =
                 devices (app_db app)) by (unfold seed_default_config; by repeat case_match).
    destruct (seed_default_config _ _ _) as [[c|e] d']; by apply devices_same.
  - unfold put_config_handler.
    pose proof (put_config_devices (account_id auth) cfg (e_seed_tag env) (e_tag env) (app_db app)).
    destruct (put_config _ _ _ _ _) as [[c|e] d']; by apply devices_same.
  - unfold blob_put_handler. destruct (valid_hash h); [|by apply devices_same].
    destruct (blob_put _ _ _) as [[n|e] f']; apply devices_same; [|done]. simpl.
    unfold insert_blob_row. by case_match.
Qed.

Lemma step_evolve app app' : server_step app app' → devices_evolve (app_db app) (app_db app').
Proof.
  intros Hst. destruct Hst as [env header req _| |auth tx _|now auth tx ev|auth tx|h env pw jwt app' fs s' Hm];
    try (by apply devices_same).
  - destruct req; simpl; try (by apply devices_same).
    + destruct (owner_session env header app); [|by apply devices_same]. simpl.
      unfold create_pair_code.
      destruct (create_pairing_code _ _ _ _ _ _) as [[ce|e] d'] eqn:E; apply devices_same;
        unfold create_pairing_code in E; repeat case_match; by simplify_eq.
    + apply pair_evolve.
    + destruct (authed env header app); [|by apply devices_same]. apply handler_evolve.
  - apply devices_same. apply gc_accounts_devices.
  - destruct ev as [ok|ok|[[]|]|? ok| | | |]; simpl; repeat case_match; try (by apply devices_same).
    by eapply devices_update.
  - apply server_main_serves in Hm as (_ & Hd & _). by apply devices_same.
Qed.

Lemma boot_devices app : boot app → devices (app_db app) = [].
Proof.
  intros [password env secret]. simpl. unfold ensure_owner_account, seed_default_config. simpl.
  repeat case_match; by simplify_eq.
Qed.

Lemma reachable_device_ids app : reachable app → NoDup (map dr_id (devices (app_db app))).
Proof.
  induction 1 as [app Hb|app app' _ IH Hst].
  - rewrite boot_devices by done. apply base.NoDup_nil_2.
  - by apply (step_evolve app app' Hst).
Qed.

(** Revoking bans the device. *)
Lemma revoke_banned account device d :
  NoDup (map dr_id (devices d)) → fst (revoke_device account device d) = true →
  banned device (snd (revoke_device account device d)).
Proof.
  intros Hnd Hc. unfold revoke_device in *. simpl in *. apply bool_decide_eq_true in Hc.
  assert (∃ x, x ∈ devices d ∧ my_device device account x = true) as (x & Hx & Hm).
  { apply existsb_elem. apply not_false_iff_true. intros Hn. rewrite existsb_elem_false in Hn.
    apply count_where_0 in Hn. lia. }
  pose proof Hm as Hm'. unfold my_device, is_device in Hm'. bool_simpl. split; simpl.
  - eexists. split; [apply elem_of_update_where; exists x; split; [done|reflexivity]|]. by rewrite Hm.
  - intros y (z & Hz & ->)%elem_of_update_where. destruct (my_device device account z) eqn:E; [done|].
    intros Hid. assert (z = x) as -> by (apply (NoDup_key_inj dr_id (devices d)); congruence).
    congruence.
Qed.
End Steps.

(** ** What access rests on: the signing secret and the owner's account *)

Section Access.
Context `{B3 : Blake3} `{A2 : Argon2} `{J : Jwt} `{U : UuidText}.
Implicit Types (app : AppState) (d : Db).

Definition same_access app app' : Prop := jwt_secret app' = jwt_secret app ∧ accounts (app_db app') = accounts (app_db app).

Lemma redeem_rows_owner code rows d : accounts (snd (redeem_rows code rows d)) = accounts d.
Proof.
  revert d. induction rows as [|r rows IH]; intros d; simpl; [done|].
  destruct (verify_secret _ _); [|apply IH]. case_decide; [done|]. by rewrite IH.
Qed.

Lemma create_version_owner account game req id now d :
  accounts (snd (create_version account game req id now d)) = accounts d.
Proof.
  destruct (create_version_state account game req id now d) as [->|(adv & prev & d' & Htx & ->)]; [done|].
  by apply create_version_tx_ok in Htx as (_ & _ & -> & _).
Qed.

Lemma resolve_conflict_owner account game w kb id now d :
  accounts (snd (resolve_conflict account game w kb id now d)) = accounts d.
Proof.
  unfold resolve_conflict, resolve_conflict_tx, cas_head.
  destruct (select_head _ _ _) as [cur|]; [|done]. simpl.
  destruct (vr_seq <$> _); [|done]. simpl. destruct (negb _ && _)%bool; [done|]. simpl.
  repeat case_match; by simplify_eq.
Qed.

Lemma ensure_game_owner account title appid id d : accounts (snd (ensure_game account title appid id d)) = accounts d.
Proof. unfold ensure_game, insert_game. repeat case_match; by simplify_eq. Qed.

Lemma seed_owner account t d : accounts (snd (seed_default_config account t d)) = accounts d.
Proof. unfold seed_default_config. by repeat case_match. Qed.

Lemma put_config_owner account cfg t1 t2 d : accounts (snd (put_config account cfg t1 t2 d)) = accounts d.
Proof.
  assert (Hr : accounts (snd (put_config_read account cfg t1 d)) = accounts d).
  { unfold put_config_read. destruct (select_tag account d); [done|]. pose proof (seed_owner account t1 d).
    by destruct (seed_default_config account t1 d). }
  unfold put_config. destruct (put_config_read account cfg t1 d) as [[t|e] d1]; [|done].
  unfold put_config_commit. simpl in *. destruct (decide _); done.
Qed.

Lemma handler_access env auth req app : same_access app (snd (device_handler env auth req app)).
Proof.
  destruct req; simpl; try done.
  - unfold delete_device. simpl. by destruct (negb _).
  - unfold post_ensure_game.
    pose proof (ensure_game_owner (account_id auth) (eg_title req) (eg_steam_appid req) (e_uuid env) (app_db app)).
    by destruct (ensure_game _ _ _ _ _) as [[g|e] d'].
  - unfold post_version. destruct (negb _); [done|].
    pose proof (create_version_owner (account_id auth) game req (e_uuid env) (e_now env) (app_db app)).
    by destruct (create_version _ _ _ _ _ _) as [[[v|hd v]|e] d'].
  - unfold resolve. pose proof (resolve_conflict_owner (account_id auth) game (rr_winner req) (rr_keep_both req)
      (e_uuid env) (e_now env) (app_db app)).
    destruct (resolve_conflict _ _ _ _ _ _ _) as [[[hd s]|e] d']; simpl in *; [|done]. by destruct (hr_head hd).
  - unfold get_config, get_or_seed_config. destruct (read_config _ _); [done|].
    pose proof (seed_owner (account_id auth) (e_seed_tag env) (app_db app)).
    by destruct (seed_default_config _ _ _) as [[c|e] d'].
  - unfold put_config_handler.
    pose proof (put_config_owner (account_id auth) cfg (e_seed_tag env) (e_tag env) (app_db app)).
    by destruct (put_config _ _ _ _ _) as [[c|e] d'].
  - unfold blob_put_handler. destruct (valid_hash h); [|done]. destruct (blob_put _ _ _) as [[n|e] f']; [|done].
    simpl. split; [done|]. simpl. unfold insert_blob_row. by case_match.
Qed.

Lemma build_app_access env header req app : same_access app (snd (build_app env header req app)).
Proof.
  destruct req; simpl; try done.
  - destruct (owner_session env header app); [|done]. simpl. unfold create_pair_code.
    destruct (create_pairing_code _ _ _ _ _ _) as [[ce|e] d'] eqn:E;
      unfold create_pairing_code in E; repeat case_match; by simplify_eq.
  - unfold pair. destruct (guard_check _ _); [|done]. unfold redeem_pairing_code.
    pose proof (redeem_rows_owner (pr_code req)
      (List.filter (code_active (e_now env)) (pairing_codes (app_db app))) (app_db app)) as Hr.
    destruct (redeem_rows _ _ _) as [[account|] d1]; simpl in *; [|done].
    destruct (create_device _ _ _ _ _ _ _) as [d2|e] eqn:Ed; [|done].
    unfold create_device in Ed. repeat (case_match_in Ed; [done|]). by injection Ed as <-.
  - destruct (authed env header app); [|done]. apply handler_access.
Qed.

(** ** The secret file *)

Definition secret_path (h : Host) : string := env_or (h_vars h) "SAVR_JWT_SECRET_FILE" "data/jwt.secret".

(** The secret is configured, on file, or can be put there. *)
Definition durable (h : Host) : Prop :=
  (∃ s, h_vars h "SAVR_JWT_SECRET" = Some s ∧ s ≠ "") ∨ (∃ s, h_files h !! secret_path h = Some s ∧ s ≠ "") ∨
  h_writable h (secret_path h) = true.

(** A later start on the same machine. *)
Record same_host (h : Host) (random : list Byte.byte) (h' : Host) : Prop := {
  sh_secret : h_vars h' "SAVR_JWT_SECRET" = h_vars h "SAVR_JWT_SECRET";
  sh_path : h_vars h' "SAVR_JWT_SECRET_FILE" = h_vars h "SAVR_JWT_SECRET_FILE";
  sh_files : h_files h' = snd (load_or_create_jwt_secret h random);
}.

Lemma generated_secret random : random ≠ [] → generate_refresh_secret random ≠ "".
Proof. destruct random as [|b r]; [done|]. intros _. by destruct b. Qed.

Lemma load_again h random h' random' : durable h → random ≠ [] → same_host h random h' →
  fst (load_or_create_jwt_secret h' random') = fst (load_or_create_jwt_secret h random).
Proof.
  intros Hd Hne [Hs Hp Hf]. unfold load_or_create_jwt_secret in *. unfold durable, secret_path, env_or in *. rewrite Hs, Hp, Hf.
  set (path := default _ _) in *. pose proof (generated_secret random Hne) as Hg.
  destruct (h_vars h "SAVR_JWT_SECRET") as [s|]; [case_bool_decide as Hempty; [subst s|done]|];
    (destruct (h_files h !! path) as [t|] eqn:Ef; [case_bool_decide as Ht|]; simpl;
     [| rewrite Ef; by rewrite bool_decide_eq_false_2|]);
    (destruct (h_writable h path); simpl;
     [by rewrite lookup_insert_eq, bool_decide_eq_false_2|]);
    destruct Hd as [(x & [= ?] & ?)|[(x & [= ?] & ?)|[=]]]; congruence.
Qed.
End Access.
