(* ===== verification/Instances.v ===== *)
(** * Concrete instances of the third-party interfaces

    The crates blake3, uuid, argon2 and jsonwebtoken are parameters of the
    development.  This file gives one small executable function for each that
    satisfies the laws assumed of it, so that the laws are seen to be
    consistent and the examples of the other files can be evaluated. *)

From S2P Require Import Prelude CoreTypes Auth.
From stdpp Require Import countable.
From Stdlib Require Import Ascii.

(** ** Text of a positive: one character per bit *)

Fixpoint pos_text (p : positive) : string :=
  match p with
  | xH => EmptyString
  | xO p => String "0"%char (pos_text p)
  | xI p => String "1"%char (pos_text p)
  end.
Fixpoint text_pos (s : string) : option positive :=
  match s with
  | EmptyString => Some xH
  | String "0"%char r => xO <$> text_pos r
  | String "1"%char r => xI <$> text_pos r
  | _ => None
  end.

Lemma text_pos_text p : text_pos (pos_text p) = Some p.
Proof. induction p as [p IH|p IH|]; simpl; by rewrite ?IH. Qed.

Lemma pos_text_no_space p :
  forallb (λ c, negb (is_space c)) (String.list_ascii_of_string (pos_text p)) = true.
Proof. by induction p. Qed.

Definition to_text {A} `{Countable A} (x : A) : string := pos_text (encode x).
Definition of_text {A} `{Countable A} (s : string) : option A := text_pos s ≫= decode.

Lemma of_to_text {A} `{Countable A} (x : A) : of_text (to_text x) = Some x.
Proof. unfold of_text, to_text. rewrite text_pos_text. simpl. apply decode_encode. Qed.

(** ** Hex digits *)

Fixpoint hex_of (k : nat) (n : N) : string :=
  match k with
  | O => EmptyString
  | S k => String (hex_digit (N.to_nat (n mod 16))) (hex_of k (n / 16))
  end.

Definition hex_value (c : Ascii.ascii) : option N :=
  let n := Ascii.N_of_ascii c in
  if ((48 <=? n) && (n <=? 57))%N then Some (n - 48)%N
  else if ((97 <=? n) && (n <=? 102))%N then Some (n - 87)%N
  else None.

Fixpoint of_hex (s : string) : option N :=
  match s with
  | EmptyString => Some 0%N
  | String c r => d ← hex_value c; n ← of_hex r; Some (d + 16 * n)%N
  end.

Lemma hex_digit_ok (n : N) : (n < 16)%N →
  hex_value (hex_digit (N.to_nat n)) = Some n ∧ is_hex_digit (hex_digit (N.to_nat n)) = true.
Proof.
  intros Hn. assert (Hin : n ∈ map N.of_nat (seq 0 16)).
  { apply list_elem_of_fmap. exists (N.to_nat n). split; [lia|]. apply elem_of_seq. lia. }
  simpl in Hin. rewrite !elem_of_cons in Hin.
  repeat (destruct Hin as [->|Hin]; [by split|]). by apply elem_of_nil in Hin.
Qed.

Lemma of_hex_of k n : (n < 16 ^ N.of_nat k)%N → of_hex (hex_of k n) = Some n.
Proof.
  revert n. induction k as [|k IH]; intros n Hn.
  - simpl in *. f_equal. lia.
  - cbn [hex_of of_hex]. destruct (hex_digit_ok (n mod 16)) as [-> _]; [by apply N.mod_lt|]. simpl.
    rewrite IH.
    + simpl. f_equal. pose proof (N.div_mod n 16). lia.
    + apply N.Div0.div_lt_upper_bound. rewrite <- N.pow_succ_r'. by rewrite Nat2N.inj_succ in Hn.
Qed.

Lemma hex_of_length k n : String.length (hex_of k n) = k.
Proof. revert n. induction k as [|k IH]; intros n; simpl; by rewrite ?IH. Qed.

Lemma hex_of_digits k n : forallb is_hex_digit (String.list_ascii_of_string (hex_of k n)) = true.
Proof.
  revert n. induction k as [|k IH]; intros n; [done|]. cbn [hex_of String.list_ascii_of_string forallb].
  rewrite IH. destruct (hex_digit_ok (n mod 16)) as [_ ->]; [by apply N.mod_lt|done].
Qed.

(** ** The instances *)

Definition mk_hash (n : N) : Blake3Hash.
Proof.
  refine (MkBlake3Hash (n mod 2 ^ 256) _). apply Is_true_true, N.ltb_lt, N.mod_lt. done.
Defined.

Definition hash_of_text (s : string) : option Blake3Hash :=
  if (String.length s =? 64)%nat then mk_hash <$> of_hex s else None.

Lemma hash_of_text_hex (h : Blake3Hash) : hash_of_text (hex_of 64 (hash_bits h)) = Some h.
Proof.
  unfold hash_of_text. rewrite hex_of_length, Nat.eqb_refl.
  destruct h as [n Hn]. pose proof Hn as Hlt. apply Is_true_true, N.ltb_lt in Hlt.
  change (hash_bits _) with n. rewrite of_hex_of.
  - change (mk_hash <$> Some n) with (Some (mk_hash n)). f_equal. apply Blake3Hash_eq.
    by apply N.mod_small.
  - exact Hlt.
Qed.

#[export] Instance toy_Blake3 : Blake3 := {|
  blake3_hash bs := mk_hash (foldl (λ a b, N.land (a * 29 + Byte.to_N b + 1) (N.ones 40)) 1%N bs);
  blake3_to_hex h := hex_of 64 (hash_bits h);
  blake3_from_hex := hash_of_text;
|}.

#[export] Instance toy_Blake3Laws : Blake3Laws.
Proof.
  constructor.
  - exact hash_of_text_hex.
  - intros h. apply hex_of_length.
  - intros h. apply hex_of_digits.
Qed.

#[export] Instance toy_UuidText : UuidText := {| uuid_to_string := to_text; uuid_parse := of_text |}.
#[export] Instance toy_UuidTextLaws : UuidTextLaws.
Proof. constructor. intros u. apply of_to_text. Qed.

#[export] Instance toy_Argon2 : Argon2 := {|
  argon2_hash secret salt := to_text (secret, salt);
  argon2_verify secret stored :=
    match of_text (A := string * string) stored with Some (s, _) => bool_decide (s = secret) | None => false end;
|}.
#[export] Instance toy_Argon2Laws : Argon2Laws.
Proof.
  constructor; simpl.
  - intros s salt. rewrite (of_to_text (A := string * string)). by apply bool_decide_eq_true.
  - intros s s' salt. rewrite (of_to_text (A := string * string)). intros E. by apply bool_decide_eq_true in E.
Qed.

Definition payload_key : Type :=
  string * (option string * option string * option string * option Z * option string).

Definition payload_tuple (key : string) (p : Payload) : payload_key :=
  (key, (p_sub p, p_acc p, p_role p, p_exp p, p_typ p)).

#[export] Instance toy_Jwt : Jwt := {|
  jwt_encode key p := to_text (payload_tuple key p);
  jwt_decode key v now token :=
    match of_text (A := payload_key) token with
    | Some (k, (s, a, r, e, t)) =>
      if decide (k = key) then
        match e with
        | None => if required_exp v then None
                  else Some {| p_sub := s; p_acc := a; p_role := r; p_exp := e; p_typ := t |}
        | Some x => if (validate_exp v && bool_decide (x < now - leeway v)%Z)%bool then None
                    else Some {| p_sub := s; p_acc := a; p_role := r; p_exp := e; p_typ := t |}
        end
      else None
    | None => None
    end;
|}.
#[export] Instance toy_JwtLaws : JwtLaws.
Proof.
  constructor.
  - intros key p. apply pos_text_no_space.
  - intros key v now [s a r e t]. simpl.
    rewrite (of_to_text (A := payload_key)). simpl. by rewrite decide_True.
Qed.
