(* ===== verification/Demo.v ===== *)
(** * A worked run of the server

    A first boot and the requests of one paired device, evaluated with the
    concrete instances: the states the examples of the other files start from.
    All of them are reachable, so the server's invariant holds of them. *)

From S2P Require Import Prelude CoreTypes ServerError Auth Blobs Hub ServerDb ServerGc ServerApi Ws DbWf GcSpec VersionSpec Instances ServerSystem.

Definition env_at (id : Uuid) (t : Z) : Env := {|
  e_now := secs t; e_instant := secs t; e_uuid := id;
  e_tag := "tag" +:+ uuid_to_string id; e_seed_tag := "seed";
  e_code_bytes := [Byte.x01; Byte.x02]; e_secret_bytes := [Byte.x0a; Byte.xff]; e_salt := "salt";
|}.

Definition the_account : Uuid := 1.
Definition the_device : Uuid := 3.
Definition the_game : Uuid := 4.
Definition the_auth : Authed := {| account_id := the_account; device_id := the_device |}.

(** What the owner types, and the tokens the server hands out at time 0. *)
Definition owner_header : option string := Some ("Bearer " +:+ mint_owner_session "key" 0 the_account).
Definition device_header : option string :=
  Some ("Bearer " +:+ mint_access_token "key" 0 the_account the_device).

Definition save_bytes : bytes := [Byte.x61; Byte.x62].
Definition save_hash : Blake3Hash := hash_of save_bytes.

Definition upload (parent : option Uuid) : CreateVersion := {|
  cv_parent := parent; cv_kind := Full; cv_files := []; cv_blob_hash := save_hash; cv_bytes := 2;
  cv_device_id := the_device |}.

Definition booted : AppState :=
  AppState_new (snd (ensure_owner_account "pw" (env_at the_account 0) empty_db)) empty_store "key".

Definition script : list (Env * option string * Request) := [
  (env_at 2 0, owner_header, PairCode);
  (env_at the_device 0, None,
   Pair {| pr_code := generate_pairing_code [Byte.x01; Byte.x02]; pr_device_name := "deck"; pr_os := Linux |});
  (env_at the_game 1, device_header, Device (EnsureGame {| eg_title := "Game"; eg_steam_appid := None |}));
  (env_at 5 1, device_header, Device (PutBlob (to_hex save_hash) [Ok [Byte.x61]; Ok [Byte.x62]]))
].

Definition run (reqs : list (Env * option string * Request)) (app : AppState) : AppState :=
  foldl (fun app '(env, header, req) => snd (build_app env header req app)) app reqs.

(** One paired device, one game, one uploaded blob. *)
Definition ready : AppState := run script booted.

(** A first version (10), then a second device's view: a fork from the root (11). *)
Definition with_v10 : AppState :=
  run [(env_at 10 2, device_header, Device (PostVersion the_game (upload None)))] ready.
Definition forked : AppState :=
  run [(env_at 11 3, device_header, Device (PostVersion the_game (upload None)))] with_v10.

Lemma run_reachable reqs app :
  reachable app → (∀ x, x ∈ reqs → fresh_for (fst (fst x)) (snd x)) → reachable (run reqs app).
Proof.
  revert app. induction reqs as [|[[env header] req] reqs IH]; intros app Ha Hf; [done|].
  apply IH.
  - eapply reach_step; [exact Ha|]. apply step_http. apply (Hf (env, header, req)), list_elem_of_here.
  - intros x Hx. apply Hf. by apply list_elem_of_further.
Qed.

Ltac run_fresh :=
  apply run_reachable; [|intros x Hx; rewrite !elem_of_cons in Hx;
    repeat (destruct Hx as [->|Hx]; [by vm_compute|]); by apply elem_of_nil in Hx].

Lemma ready_reachable : reachable ready.
Proof. unfold ready, script. run_fresh. apply reach_boot. exact (boot_intro _ _ _). Qed.
Lemma with_v10_reachable : reachable with_v10.
Proof. unfold with_v10. run_fresh. apply ready_reachable. Qed.
Lemma forked_reachable : reachable forked.
Proof. unfold forked. run_fresh. apply with_v10_reachable. Qed.

Lemma ready_wf : db_wf (app_db ready).
Proof. apply reachable_ok, ready_reachable. Qed.
Lemma with_v10_wf : db_wf (app_db with_v10).
Proof. apply reachable_ok, with_v10_reachable. Qed.
Lemma forked_wf : db_wf (app_db forked).
Proof. apply reachable_ok, forked_reachable. Qed.

Example forked_versions : map vr_id (versions (app_db forked)) = [10; 11]%N ∧
  map gr_head (games (app_db forked)) = [Some 10%N].
Proof. vm_compute. done. Qed.

(** ** Checks the examples evaluate *)

Definition insertableb `{Blake3} (d : Db) (req : CreateVersion) (id : Uuid) : bool :=
  forallb (λ x, negb (is_version id x)) (versions d) &&
  existsb (is_device (cv_device_id req)) (devices d) &&
  existsb (is_blob (to_hex (cv_blob_hash req))) (blobs d) &&
  match cv_parent req with Some p => existsb (is_version p) (versions d) | None => true end.

Lemma insertableb_ok `{Blake3} d req id : insertableb d req id = true → insertable d req id.
Proof.
  unfold insertableb. intros Hb. bool_simpl. constructor.
  - intros x Hx Hid. match goal with Hf : forallb _ _ = true |- _ =>
      rewrite forallb_forall in Hf; apply list_elem_of_In in Hx; specialize (Hf x Hx) end.
    bool_simpl. by apply is_version_true in Hid as Hid'; congruence.
  - match goal with Hd : existsb (is_device _) _ = true |- _ =>
      apply existsb_elem in Hd as (x & Hx & Hm) end.
    exists x. unfold is_device in Hm. by apply bool_decide_eq_true in Hm.
  - match goal with Hd : existsb (is_blob _) _ = true |- _ =>
      apply existsb_elem in Hd as (x & Hx & Hm%is_blob_true) end. eauto.
  - intros p Hp. rewrite Hp in *.
    match goal with Hd : existsb (is_version _) _ = true |- _ =>
      apply existsb_elem in Hd as (x & Hx & Hm%is_version_true) end. eauto.
Qed.

Definition unresolvedb (d : Db) (v : VersionRow) : bool :=
  forallb (λ w, negb (bool_decide (vr_game_id w = vr_game_id v) && bool_decide (vr_parent w = Some (vr_id v))))
    (versions d) &&
  forallb (λ c, negb (bool_decide (rc_game c = vr_game_id v) && bool_decide (rc_loser c = vr_id v)))
    (resolved_conflicts d).

Lemma unresolvedb_ok d v : unresolvedb d v = true → unresolved_tip d v.
Proof.
  unfold unresolvedb. rewrite andb_true_iff, !forallb_forall. intros [H1 H2]. split.
  - intros w Hw Hg Hp. apply list_elem_of_In in Hw. specialize (H1 w Hw).
    by rewrite !bool_decide_eq_true_2 in H1.
  - intros c Hc Hg Hp. apply list_elem_of_In in Hc. specialize (H2 c Hc).
    by rewrite !bool_decide_eq_true_2 in H2.
Qed.

(** A row found by evaluation is in its table. *)
Lemma found {R} (p : R → bool) t r : fetch_optional p t = Some r → r ∈ t.
Proof. by intros [? _]%fetch_optional_Some. Qed.

Definition game_row (h : option Uuid) : GameRow := {|
  gr_id := the_game; gr_account := the_account; gr_title := "Game"; gr_steam_appid := None; gr_head := h |}.
