(* ===== verification/ServerTheorems.v ===== *)
(** * savr-server: theorems about versions, retention and the running server *)

From S2P Require Import Prelude CoreTypes ServerError Auth Blobs Hub ServerDb ServerGc ServerApi Ws DbWf GcSpec VersionSpec AccountSpec Instances ServerSystem DeviceSpec Demo.

Section Theorems.
Context `{B3 : Blake3} `{!Blake3Laws} `{A2 : Argon2} `{J : Jwt} `{U : UuidText}.



(** Two devices that both build on the current head and race: whichever
    upload the database runs second is answered with the conflict of exactly
    these two tips, the first stays head, and both versions are kept. *)
Theorem racing_uploads_both_kept account req1 req2 id1 id2 now1 now2 d g :
  db_wf d → g ∈ games d → gr_account g = account →
  cv_parent req1 = gr_head g → cv_parent req2 = gr_head g →
  insertable d req1 id1 → insertable d req2 id2 → id1 ≠ id2 →
  ∃ v1 v2 tip d1 d2,
    create_version account (gr_id g) req1 id1 now1 d = (Ok (FastForward v1), d1) ∧
    create_version account (gr_id g) req2 id2 now2 d1 = (Ok (Conflict (Some tip) v2), d2) ∧
    v_id v1 = id1 ∧ v_id tip = id1 ∧ v_id v2 = id2 ∧
    select_head (gr_id g) account d2 = Some (Some id1) ∧
    map vr_id (versions d2) = map vr_id (versions d) ++ [id1; id2].
Proof.
  intros Hwf Hg Ha Hp1 Hp2 Hi1 Hi2 Hne.
  destruct (create_version_ok account req1 id1 now1 d g Hwf Hg Ha Hi1)
    as (v1 & d1 & Hv1 & Hwf1 & Hvs1 & Hd1 & Hb1 & Hr1).
  rewrite decide_True in Hr1 by done. destruct Hr1 as [Hc1 Hs1].
  destruct (select_head_elem d1 (gr_id g) account (Some id1) Hwf1 Hs1) as (g1 & Hg1 & Hgid & Hga & Hgh).
  destruct (create_version_ok account req2 id2 now2 d1 g1 Hwf1 Hg1 Hga)
    as (v2 & d2 & Hv2 & Hwf2 & Hvs2 & _ & _ & Hr2).
  { by eapply insertable_after; [exact Hi2|exact Hne| |exact Hvs1|exact Hd1|exact Hb1]. }
  rewrite decide_False in Hr2.
  2:{ rewrite Hgh, Hp2. intros Heq. destruct (wf_head d Hwf g id1 Hg (eq_sym Heq)) as (w & Hw & Hwid & _).
      by apply (in_fresh _ _ _ Hi1 w Hw). }
  destruct Hr2 as (tip & Hc2 & Htip & Hs2). rewrite Hgh in Htip, Hs2.
  destruct tip as [tip|]; [|done]. injection Htip as Htip. rewrite Hgid in *.
  exists v1, v2, tip, d1, d2. split_and!; try done.
  - by apply row_to_version_id in Hv1.
  - by apply row_to_version_id in Hv2.
  - rewrite Hvs2, Hvs1, !map_app. by rewrite <- app_assoc.
Qed.



(** C27. Resolving a conflict points the head at the winner, whatever it was
    before, and logs the previous head as the loser unless it is the winner;
    it deletes no version.  A winner that is no version of the game is
    answered 404 and changes nothing. *)
Theorem resolve_conflict_moves_head account game winner kb id now d :
  db_wf d → (∀ c, c ∈ resolved_conflicts d → rc_id c ≠ id) →
  (∃ g w, g ∈ games d ∧ gr_id g = game ∧ gr_account g = account ∧
     w ∈ versions d ∧ vr_id w = winner ∧ vr_game_id w = game ∧
     ∃ d', resolve_conflict account game winner kb id now d =
             (Ok ({| hr_head := Some winner; hr_seq := Some (vr_seq w) |}, vr_seq w), d') ∧
       db_wf d' ∧ versions d' = versions d ∧ select_head game account d' = Some (Some winner) ∧
       map rc_loser (resolved_conflicts d') = map rc_loser (resolved_conflicts d) ++
         match gr_head g with
         | Some loser => if decide (loser = winner) then [] else [loser]
         | None => []
         end) ∨
  (∃ e, resolve_conflict account game winner kb id now d = (Err e, d) ∧ status e = 404%Z ∧
     ∀ g w, g ∈ games d → gr_id g = game → gr_account g = account →
            w ∈ versions d → vr_game_id w = game → vr_id w ≠ winner).
Proof.
  intros Hwf Hfresh.
  pose proof (fetch_winner d account game winner Hwf) as Hf.
  destruct (select_head game account d) as [cur|] eqn:Es.
  - destruct (select_head_elem d game account cur Hwf Es) as (g & Hg & <- & <- & Hh).
    destruct (fetch_optional _ (versions d)) as [w|] eqn:Ew.
    + destruct Hf as (Hw & <- & Hwg & Hwa). left.
      destruct (resolve_conflict_wins (gr_account g) kb id now d g w Hwf Hfresh Hg eq_refl Hw Hwg)
        as (d' & Hrest). exists g, w. eauto 10.
    + right. exists (not_found "winner version"). split_and!; [|done|].
      * unfold resolve_conflict, resolve_conflict_tx. rewrite Es. simpl. by rewrite Ew.
      * intros g' w Hg' Hgid Hga Hw Hwg. apply Hf; [done..|].
        rewrite <- Hga. apply (same_game_account d g' w); [done..|congruence].
  - right. exists (not_found "game"). split_and!; [|done|].
    + unfold resolve_conflict, resolve_conflict_tx. by rewrite Es.
    + intros g w Hg <- <-. by rewrite (select_head_of d g Hwf Hg) in Es.
Qed.

(** Resolving a fork in favour of the current head records nothing: the
    losing tip is in no row of [resolved_conflicts], so it stays an unresolved
    tip, and the retention sweep that follows keeps it whatever the retention
    says. *)
Theorem resolving_for_the_head_keeps_the_fork account kb id now d g h v f :
  db_wf d → (∀ c, c ∈ resolved_conflicts d → rc_id c ≠ id) →
  g ∈ games d → gr_account g = account → gr_head g = Some h →
  v ∈ versions d → unresolved_tip d v →
  ∃ hr d', resolve_conflict account (gr_id g) h kb id now d = (Ok hr, d') ∧
    resolved_conflicts d' = resolved_conflicts d ∧ unresolved_tip d' v ∧
    ∃ stats s', run_gc {| db := d'; files := f |} = (Ok stats, s') ∧ survives (db s') v.
Proof.
  intros Hwf Hfresh Hg Ha Hh Hv [Hp Hl].
  destruct (wf_head d Hwf g h Hg Hh) as (w & Hw & <- & Hwg).
  destruct (resolve_conflict_wins account kb id now d g w Hwf Hfresh Hg Ha Hw Hwg)
    as (d' & E & Hwf' & Hvs & _ & Hrc).
  rewrite Hh, decide_True, app_nil_r in Hrc by done.
  assert (Hres : resolved_conflicts d' = resolved_conflicts d).
  { assert (Hlen : length (resolved_conflicts d') = length (resolved_conflicts d)).
    { apply (f_equal length) in Hrc. by rewrite !length_map in Hrc. }
    by eapply resolve_conflict_log. }
  assert (Htip : unresolved_tip d' v) by (split; rewrite ?Hvs, ?Hres; done).
  eexists _, d'. split_and!; [exact E|done|done|].
  destruct (gc_accounts_ok (map ac_id (accounts d')) GcStats_default {| db := d'; files := f |} Hwf')
    as (stats & s' & Egc & _ & Hpr).
  exists stats, s'. split; [exact Egc|]. apply Hpr; [simpl; by rewrite Hvs|by right].
Qed.
End Theorems.

(** ** The hypotheses hold: the worked run *)



Lemma racing_uploads_both_kept_witness :
  ∃ v1 v2 tip d1 d2,
    create_version the_account the_game (upload None) 10 (secs 2) (app_db ready) = (Ok (FastForward v1), d1) ∧
    create_version the_account the_game (upload None) 11 (secs 3) d1 = (Ok (Conflict (Some tip) v2), d2) ∧
    v_id v1 = 10%N ∧ v_id tip = 10%N ∧ v_id v2 = 11%N ∧
    select_head the_game the_account d2 = Some (Some 10%N) ∧
    map vr_id (versions d2) = map vr_id (versions (app_db ready)) ++ [10; 11]%N.
Proof.
  apply (racing_uploads_both_kept the_account (upload None) (upload None) 10 11 (secs 2) (secs 3)
    (app_db ready) (game_row None) ready_wf); try done.
  - apply (found (is_game the_game)). by vm_compute.
  - apply insertableb_ok. by vm_compute.
  - apply insertableb_ok. by vm_compute.
Defined.



Lemma resolve_conflict_moves_head_witness :
  ∃ d', resolve_conflict the_account the_game 11 true 20 (secs 4) (app_db forked) =
          (Ok ({| hr_head := Some 11%N; hr_seq := Some 2%Z |}, 2%Z), d') ∧
    select_head the_game the_account d' = Some (Some 11%N) ∧
    map rc_loser (resolved_conflicts d') = [10%N].
Proof.
  destruct (resolve_conflict_moves_head the_account the_game 11 true 20 (secs 4) (app_db forked) forked_wf)
    as [(g & w & Hg & _ & _ & _ & _ & _ & d' & E & _ & _ & Hs & Hl)|(e & E & _)].
  - intros c Hc. change (resolved_conflicts (app_db forked)) with (@nil ResolvedRow) in Hc.
    by apply elem_of_nil in Hc.
  - set (r := resolve_conflict the_account the_game 11 true 20 (secs 4) (app_db forked)) in *.
    assert (Hr : fst r = Ok ({| hr_head := Some 11%N; hr_seq := Some 2%Z |}, 2%Z)) by by vm_compute.
    assert (Hd : d' = snd r) by by rewrite E. rewrite E in Hr. simpl in Hr. injection Hr as Hseq.
    rewrite Hseq in E. exists d'. split; [exact E|]. split; [exact Hs|]. rewrite Hd. by vm_compute.
  - vm_compute in E. discriminate.
Defined.

Lemma resolving_for_the_head_keeps_the_fork_witness :
  ∃ hr d', resolve_conflict the_account the_game 10 false 20 (secs 4) (app_db forked) = (Ok hr, d') ∧
    ∀ v, v ∈ versions (app_db forked) → vr_id v = 11%N → unresolved_tip d' v.
Proof.
  assert (Hv : ∃ v, fetch_optional (is_version 11) (versions (app_db forked)) = Some v ∧
    unresolvedb (app_db forked) v = true) by (vm_compute; eauto).
  destruct Hv as (v & Hfv & Hun%unresolvedb_ok).
  apply fetch_optional_Some in Hfv as [Hv Hid%is_version_true].
  destruct (resolving_for_the_head_keeps_the_fork the_account false 20 (secs 4) (app_db forked)
    (game_row (Some 10%N)) 10 v empty_store forked_wf) as (hr & d' & E & _ & Ht & _).
  - intros c Hc. change (resolved_conflicts (app_db forked)) with (@nil ResolvedRow) in Hc.
    by apply elem_of_nil in Hc.
  - apply (found (is_game the_game)). by vm_compute.
  - reflexivity.
  - reflexivity.
  - exact Hv.
  - exact Hun.
  - exists hr, d'. split; [exact E|]. intros w Hw Hwid.
    assert (w = v) as ->; [|done].
    apply (NoDup_key_inj vr_id (versions (app_db forked))); [apply forked_wf|congruence..].
Defined.
