(* ===== verification/TenantSpec.v ===== *)
(** * savr-server: a device request touches its own account only

    [foreign a d] is everything the database holds for accounts other than [a];
    no request of a device of [a] changes it. *)

From S2P Require Import Prelude CoreTypes ServerError Auth Blobs Hub ServerDb ServerGc ServerApi DbWf.

Record Foreign := {
  f_devices : list DeviceRow;
  f_games : list GameRow;
  f_versions : list VersionRow;
  f_config : list ConfigRow;
  f_pairing : list PairingRow;
  f_resolved : list ResolvedRow;
}.

Definition not_of {R} (acc : R → Uuid) (a : Uuid) (t : list R) : list R :=
  List.filter (λ r, negb (bool_decide (acc r = a))) t.

Definition foreign (a : Uuid) (d : Db) : Foreign := {|
  f_devices := not_of dr_account a (devices d);
  f_games := not_of gr_account a (games d);
  f_versions := not_of vr_account a (versions d);
  f_config := not_of cr_account a (config d);
  f_pairing := not_of pc_account a (pairing_codes d);
  f_resolved := not_of rc_account a (resolved_conflicts d);
|}.

Section NotOf.
Context {R : Type} (acc : R → Uuid).

Lemma not_of_snoc a t r : acc r = a → not_of acc a (t ++ [r]) = not_of acc a t.
Proof.
  intros E. unfold not_of. rewrite filter_app. simpl.
  by rewrite bool_decide_eq_true_2, app_nil_r.
Qed.

Lemma not_of_update a p f t :
  (∀ r, p r = true → acc r = a ∧ acc (f r) = a) → not_of acc a (update_where p f t) = not_of acc a t.
Proof.
  intros Hp. unfold not_of. induction t as [|r t IH]; simpl; [done|]. rewrite IH.
  destruct (p r) eqn:E; [|done]. destruct (Hp r E) as [H1 H2].
  by rewrite !bool_decide_eq_true_2.
Qed.
End NotOf.

Section Handlers.
Context `{B3 : Blake3} `{A2 : Argon2} `{J : Jwt} `{U : UuidText}.
Implicit Types (d : Db) (a : Uuid).

Lemma cas_head_foreign new game a expected d n d' :
  cas_head new game a expected d = Ok (n, d') → foreign a d' = foreign a d.
Proof.
  unfold cas_head. intros E. case_match_in E; [done|]. injection E as <- <-.
  unfold foreign. simpl. rewrite (not_of_update gr_account); [done|].
  intros r Hr. bool_simpl. match goal with H : my_game _ _ _ = true |- _ => apply my_game_true in H as [_ ?] end.
  done.
Qed.

Lemma create_version_foreign a game req id now d :
  foreign a (snd (create_version a game req id now d)) = foreign a d.
Proof.
  unfold create_version, create_version_tx.
  destruct (insert_version _ d) as [d1|e] eqn:Ei; [|done]. simpl.
  assert (H1 : foreign a d1 = foreign a d).
  { unfold insert_version in Ei. repeat case_match_in Ei; try done. injection Ei as <-.
    unfold foreign. simpl. by rewrite (not_of_snoc vr_account). }
  destruct (ok_or _ _); [|done]. simpl.
  destruct (cas_head _ _ _ _ _) as [[n d3]|e] eqn:Ec; [|done]. simpl.
  apply cas_head_foreign in Ec. rewrite Ec. exact H1.
Qed.

Lemma resolve_conflict_foreign a game w kb id now d :
  foreign a (snd (resolve_conflict a game w kb id now d)) = foreign a d.
Proof.
  unfold resolve_conflict, resolve_conflict_tx.
  destruct (ok_or (select_head _ _ _) _) as [cur|e]; [|done]. simpl.
  destruct (ok_or (vr_seq <$> _) _) as [s|e]; [|done]. simpl.
  destruct (cas_head _ _ _ _ _) as [[n d1]|e] eqn:Ec; [|done]. simpl.
  apply cas_head_foreign in Ec. destruct (decide (n = 1)); [|done].
  destruct cur as [loser|]; [|done]. destruct (decide (loser = w)); [done|].
  destruct (existsb _ _); [done|]. simpl. rewrite <- Ec. unfold foreign. simpl.
  by rewrite (not_of_snoc rc_account).
Qed.

Lemma ensure_game_foreign a title appid id d :
  foreign a (snd (ensure_game a title appid id d)) = foreign a d.
Proof.
  unfold ensure_game. destruct (match appid with Some _ => _ | None => _ end); [done|].
  destruct (insert_game _ d) as [d'|e] eqn:Ei; [|done]. simpl.
  unfold insert_game in Ei. destruct (existsb _ (games d)) in Ei; [by injection Ei as <-|].
  repeat case_match_in Ei; try done. injection Ei as <-.
  unfold foreign. simpl. by rewrite (not_of_snoc gr_account).
Qed.

Lemma seed_default_config_foreign a t d : foreign a (snd (seed_default_config a t d)) = foreign a d.
Proof.
  unfold seed_default_config. destruct (existsb _ _); [done|]. destruct (negb _); [done|].
  unfold foreign. simpl. by rewrite (not_of_snoc cr_account).
Qed.

Lemma put_config_foreign a cfg t1 t2 d : foreign a (snd (put_config a cfg t1 t2 d)) = foreign a d.
Proof.
  assert (Hr : foreign a (snd (put_config_read a cfg t1 d)) = foreign a d).
  { unfold put_config_read. destruct (select_tag a d); [done|].
    pose proof (seed_default_config_foreign a t1 d) as Hs.
    by destruct (seed_default_config a t1 d). }
  unfold put_config. destruct (put_config_read a cfg t1 d) as [[t|e] d1]; [|done].
  unfold put_config_commit. rewrite <- Hr.
  assert (Hc : foreign a (snd (cas_config a t t2 (set_tag t2 cfg) d1)) = foreign a d1).
  { unfold foreign. simpl. rewrite (not_of_update cr_account); [done|].
    intros r Hm. bool_simpl. unfold is_config in *. by bool_simpl. }
  destruct (cas_config _ _ _ _ _) as [n d2]. simpl in *. by destruct (decide _).
Qed.

Lemma handler_foreign env auth req app :
  foreign (account_id auth) (app_db (snd (device_handler env auth req app))) =
  foreign (account_id auth) (app_db app).
Proof.
  destruct req; simpl; try done.
  - unfold delete_device. simpl.
    assert (Hd : foreign (account_id auth)
      (with_devices (update_where (my_device id (account_id auth)) (set_revoked 1) (devices (app_db app)))
         (app_db app)) = foreign (account_id auth) (app_db app)).
    { unfold foreign. simpl. rewrite (not_of_update dr_account); [done|].
      intros r Hm. unfold my_device in Hm. by bool_simpl. }
    by destruct (negb _).
  - unfold post_ensure_game.
    pose proof (ensure_game_foreign (account_id auth) (eg_title req) (eg_steam_appid req) (e_uuid env) (app_db app)).
    by destruct (ensure_game _ _ _ _ _) as [[g|e] d'].
  - unfold post_version. destruct (negb _); [done|].
    pose proof (create_version_foreign (account_id auth) game req (e_uuid env) (e_now env) (app_db app)).
    by destruct (create_version _ _ _ _ _ _) as [[[v|hd v]|e] d'].
  - unfold resolve.
    pose proof (resolve_conflict_foreign (account_id auth) game (rr_winner req) (rr_keep_both req)
      (e_uuid env) (e_now env) (app_db app)).
    destruct (resolve_conflict _ _ _ _ _ _ _) as [[[hd s]|e] d']; simpl in *; [|done].
    by destruct (hr_head hd).
  - unfold get_config, get_or_seed_config. destruct (read_config _ _); [done|].
    pose proof (seed_default_config_foreign (account_id auth) (e_seed_tag env) (app_db app)).
    by destruct (seed_default_config _ _ _) as [[c|e] d'].
  - unfold put_config_handler.
    pose proof (put_config_foreign (account_id auth) cfg (e_seed_tag env) (e_tag env) (app_db app)).
    by destruct (put_config _ _ _ _ _) as [[c|e] d'].
  - unfold blob_put_handler. destruct (valid_hash h); [|done].
    destruct (blob_put _ _ _) as [[n|e] f']; [|done]. simpl. unfold insert_blob_row.
    by destruct (existsb _ _).
Qed.
End Handlers.
