(* ===== verification/AccountTheorems.v ===== *)
(** * savr-server: theorems about accounts, devices and notifications *)

From S2P Require Import Prelude CoreTypes ServerError Auth Blobs Hub ServerDb ServerGc ServerApi Ws DbWf AccountSpec ServerSystem DeviceSpec TenantSpec Instances Demo.
From stdpp Require Import relations.

Section Theorems.
Context `{B3 : Blake3} `{A2 : Argon2} `{J : Jwt} `{U : UuidText}.

(** C28. The synced config has no lost update: of all the [PUT /config]
    requests that read the same tag, in whatever order their guarded UPDATEs
    run and with whatever other writers in between, at most the first to run is
    accepted; every later one is answered [config_conflict] and leaves the
    config alone, as long as the tags minted meanwhile are fresh. *)
Theorem put_config_no_lost_update account d before c1 between c2 :
  NoDup (map cr_account (config d)) →
  (∀ c, c ∈ c1 :: between → c_new c ≠ c_stored c1) → c_stored c2 = c_stored c1 →
  let d1 := run_commits account before d in
  let d2 := run_commits account (before ++ c1 :: between) d in
  is_ok (fst (commit account c1 d1)) = true →
  fst (commit account c2 d2) = Err (config_conflict (default "" (select_tag account d2))) ∧
  config_row account (snd (commit account c2 d2)) = config_row account d2.
Proof.
  intros Hnd Hfresh Hst d1 d2 Hok.
  assert (Hnd1 : NoDup (map cr_account (config d1))) by (unfold d1, d2; by rewrite run_commits_accounts).
  assert (Hnd2 : NoDup (map cr_account (config d2))) by (unfold d1, d2; by rewrite run_commits_accounts).
  assert (Ht : select_tag account d2 ≠ Some (c_stored c1)).
  { unfold d2, run_commits. rewrite foldl_app. simpl. fold (run_commits account before d). fold d1.
    apply run_commits_tag.
    - by rewrite commit_accounts.
    - pose proof (commit_ok account c1 d1 Hnd1) as Hc1. rewrite select_tag_row.
      case_decide; destruct Hc1 as [Hf Hr]; [|by rewrite Hf in Hok]. rewrite Hr. simpl.
      intros [= E]. by apply (Hfresh c1); [apply list_elem_of_here|].
    - intros c Hc. apply Hfresh. by apply list_elem_of_further. }
  pose proof (commit_ok account c2 d2 Hnd2) as Hc2. rewrite decide_False in Hc2 by congruence. done.
Qed.

(** C30. Redeeming a pairing code burns it.  On success the code verified
    against one unexpired, unused row, whose account is returned and which is
    the only row that changes, to used; and when that row is the only one the
    code opens, neither a rival that read the same rows before the burn nor any
    later attempt gets anything.
    On failure no unexpired, unused row verifies, and nothing changes. *)
Theorem pairing_code_single_use code now d :
  NoDup (map pc_id (pairing_codes d)) →
  let rows := List.filter (code_active now) (pairing_codes d) in
  match redeem_pairing_code code now d with
  | (Some a, d') => ∃ r, r ∈ rows ∧ verify_secret code (pc_code_hash r) = true ∧ a = pc_account r ∧
      pairing_codes d' = update_where (with_id (pc_id r)) set_used (pairing_codes d) ∧
      ((∀ x, x ∈ rows → verify_secret code (pc_code_hash x) = true → x = r) →
       redeem_rows code rows d' = (None, d') ∧
       ∀ later, (now <= later)%Z → redeem_pairing_code code later d' = (None, d'))
  | (None, d') => d' = d ∧ ∀ r, r ∈ rows → verify_secret code (pc_code_hash r) = false
  end.
Proof.
  intros Hnd rows. unfold redeem_pairing_code. fold rows.
  pose proof (redeem_rows_ok code rows d Hnd) as Hr.
  destruct (redeem_rows code rows d) as [[a|] d'].
  2:{ apply Hr. intros r [Hin Hact]%elem_of_filter_bool. unfold code_active in Hact. by bool_simpl. }
  destruct Hr as (r & Hin & Hv & Ha & Hp).
  { intros r [Hin Hact]%elem_of_filter_bool. unfold code_active in Hact. by bool_simpl. }
  exists r. split_and!; [done..|]. intros Hone. split.
  - apply redeem_rows_spent. intros x y Hx Hvx Hy Hid. rewrite (Hone x Hx Hvx) in Hid.
    rewrite Hp in Hy. apply elem_of_update_where in Hy as (z & Hz & ->).
    unfold with_id in *. case_bool_decide; [done|]. congruence.
  - intros later Hl. apply redeem_rows_spent. intros x y [Hx Hact]%elem_of_filter_bool Hvx Hy Hid.
    rewrite Hp in Hx, Hy. apply elem_of_update_where in Hx as (x0 & Hx0 & ->).
    unfold with_id in *. case_bool_decide as Hx0id; [by unfold code_active in Hact|].
    exfalso. apply Hx0id. rewrite (Hone x0); [done| |done].
    apply elem_of_filter_bool. split; [done|]. unfold code_active in *. bool_simpl.
    rewrite !bool_decide_eq_true_2; [done|lia|done].
Qed.
End Theorems.

Section Theorems2.
Context `{B3 : Blake3} `{!Blake3Laws} `{A2 : Argon2} `{J : Jwt} `{U : UuidText}.

(** A reconnecting device is told of exactly the versions of its account
    whose [seq] is past the mark it sent for their game, and a client that
    moves its mark to each message's [seq] as it arrives is told nothing the
    next time. *)
Theorem replay_catches_up account last d :
  db_wf d →
  (∀ g v s, (g, v, s) ∈ versions_since account last d ↔
     ∃ r, r ∈ versions d ∧ vr_account r = account ∧ vr_game_id r = g ∧ vr_id r = v ∧ vr_seq r = s ∧
          (default 0 (last !! g) < s)%Z) ∧
  versions_since account (catch_up (versions_since account last d) last) d = [].
Proof.
  intros Hwf. split; [intros g v s; by apply elem_of_versions_since|].
  set (msgs := versions_since account last d).
  destruct (versions_since account (catch_up msgs last) d) as [|[[g v] s] rest] eqn:E; [done|].
  assert (Hin : (g, v, s) ∈ versions_since account (catch_up msgs last) d).
  { rewrite E. apply list_elem_of_here. }
  apply elem_of_versions_since in Hin as (r & Hr & Ha & Hg & Hv & Hs & Hlt); [|done].
  exfalso. destruct (catch_up_mark msgs (versions_since_sorted account last d Hwf) last g) as [Hno Hyes].
  destruct (decide (g ∈ map (λ m, fst (fst m)) msgs)) as [Hing|Hni].
  - apply list_elem_of_fmap in Hing as ([[g1 v1] s1] & Hg1 & Hin1). simpl in Hg1. subst g1.
    destruct (Hyes v1 s1 Hin1) as (s' & Hm & Hle). rewrite Hm in Hlt. simpl in Hlt.
    apply elem_of_versions_since in Hin1 as (_ & _ & _ & _ & _ & _ & Hlast); [|done].
    assert (Hmsg : (g, v, s) ∈ msgs).
    { apply elem_of_versions_since; [done|]. exists r. split_and!; try done. lia. }
    destruct (Hyes v s Hmsg) as (s2 & Hm2 & Hle2). rewrite Hm in Hm2. injection Hm2 as <-. lia.
  - rewrite Hno in Hlt.
    + apply Hni, list_elem_of_fmap. exists (g, v, s). split; [done|].
      apply elem_of_versions_since; [done|]. eauto 10.
    + intros v1 s1 Hin1. apply Hni, list_elem_of_fmap. by exists (g, v1, s1).
Qed.

(** C31. Revocation is for good: once a device has been revoked, no request,
    socket event or GC sweep lets it back.  In every later state no access
    token authenticates it, its refresh secret mints no new token, and its
    open socket closes at the next heartbeat. *)
Theorem revoked_device_locked_out env auth id app resp app1 app2 :
  reachable app → device_handler env auth (DeleteDevice id) app = (Ok resp, app1) →
  rtc server_step app1 app2 →
  (∀ env' header a, authed env' header app2 ≠ Ok {| account_id := a; device_id := id |}) ∧
  (∀ env' secret, refresh env' {| rf_device_id := id; rf_refresh_secret := secret |} app2 =
     (Err (unauthorized "invalid device credentials"), app2)) ∧
  (∀ now a tx ok, ws_step now {| account_id := a; device_id := id |} tx (EvTick ok) app2 = (false, [], app2)).
Proof.
  intros Hre Hdel Hsteps.
  assert (Hban : banned id (app_db app2)).
  { assert (H1 : banned id (app_db app1)).
    { simpl in Hdel. unfold delete_device in Hdel.
      pose proof (revoke_banned (account_id auth) id (app_db app) (reachable_device_ids app Hre)) as Hrv.
      destruct (revoke_device (account_id auth) id (app_db app)) as [b d'].
      destruct b; simpl in Hdel; [|done]. injection Hdel as _ <-. by apply Hrv. }
    clear Hdel. induction Hsteps as [x|x y z Hxy _ IH]; [done|]. apply IH.
    by eapply banned_evolve; [apply step_evolve|]. }
  split_and!.
  - intros env' header a Hau. unfold authed in Hau.
    destruct (bearer header) as [tok|]; [|done]. simpl in Hau.
    destruct (verify_access _ _ tok) as [cl|]; [|done]. simpl in Hau.
    destruct (uuid_parse (acc cl)) as [a'|]; [|done]. simpl in Hau.
    destruct (uuid_parse (sub cl)) as [dev|]; [|done]. simpl in Hau.
    destruct (device_active a' dev (app_db app2)) eqn:Eact; simpl in Hau; [|done].
    injection Hau as -> ->. by rewrite banned_inactive in Eact.
  - intros env' secret. unfold refresh. simpl.
    destruct (banned_credentials id (app_db app2) Hban) as (a & h & ->). done.
  - intros now a tx ok. simpl. by rewrite banned_inactive.
Qed.

(** C11. Every route that takes a device answers 401 and changes nothing,
    unless the request carries a bearer token that verifies as an access token
    of an account and a device, and that device is active in that account; only
    then does the handler run, on behalf of exactly that account and device. *)
Theorem device_routes_need_an_active_device env header req app r app' :
  build_app env header (Device req) app = (r, app') →
  (app' = app ∧ ∃ e, r = Err e ∧ status e = 401%Z) ∨
  ∃ token claims auth, bearer header = Ok token ∧
    verify_access (jwt_secret app) (timestamp env) token = Ok claims ∧
    uuid_parse (acc claims) = Some (account_id auth) ∧ uuid_parse (sub claims) = Some (device_id auth) ∧
    device_active (account_id auth) (device_id auth) (app_db app) = true ∧
    device_handler env auth req app = (r, app').
Proof.
  simpl. unfold authed.
  destruct (bearer header) as [tok|e] eqn:Eb.
  2:{ simpl. intros [= <- <-]. left. split; [done|]. exists e. split; [done|].
      unfold bearer in Eb. destruct header as [v|]; [|by injection Eb as <-].
      cbn -[Prelude.strip_prefix] in Eb. destruct (Prelude.strip_prefix "Bearer " v); [done|by injection Eb as <-]. }
  simpl. destruct (verify_access (jwt_secret app) (timestamp env) tok) as [cl|e] eqn:Ev.
  2:{ simpl. intros [= <- <-]. left. split; [done|]. exists e. split; [done|].
      unfold verify_access in Ev. destruct (jwt_decode _ _ _ tok ≫= decode_access); [|by injection Ev as <-].
      case_match_in Ev; [done|by injection Ev as <-]. }
  simpl. destruct (uuid_parse (acc cl)) as [a|] eqn:Ea; simpl; [|intros [= <- <-]; eauto].
  destruct (uuid_parse (sub cl)) as [dv|] eqn:Ed; simpl; [|intros [= <- <-]; eauto].
  destruct (device_active a dv (app_db app)) eqn:Eact; simpl; [|intros [= <- <-]; eauto].
  intros Hh. right. exists tok, cl, {| account_id := a; device_id := dv |}. done.
Qed.

(** C14. A request of a device of one account changes no row of any other:
    their devices, games, versions, configs, pairing codes and resolutions are
    exactly what they were. *)
Theorem requests_touch_their_own_account env auth req app :
  foreign (account_id auth) (app_db (snd (device_handler env auth req app))) =
  foreign (account_id auth) (app_db app).
Proof. apply handler_foreign. Qed.

(** A recorded fast-forward is announced once to every other connected
    device of the account, and not to the device that uploaded it. *)
Theorem fast_forward_announced env auth game req app v app' :
  senders_distinct (account_id auth) (hub app) →
  post_version env auth game req app = (Ok {| resp_status := 201; resp_body := BVersion v |}, app') →
  ∀ c, (∀ d, sender_of (account_id auth) d (hub app) = Some c → d ≠ v_device_id v →
          channels app' !! c = (λ q, q ++ [VersionAvailable game (v_id v) (v_seq v)]) <$> channels app !! c) ∧
       ((∀ d, sender_of (account_id auth) d (hub app) = Some c → d = v_device_id v) →
          channels app' !! c = channels app !! c).
Proof.
  intros Hd Hp c. unfold post_version in Hp. destruct (negb _); [done|].
  destruct (create_version _ _ _ _ _ _) as [[[w|hd w]|e] d'] eqn:E; simpl in Hp; [|done|done].
  injection Hp as <- <-. simpl. by apply broadcast_except_lookup.
Qed.

(** A device that reconnects before its old socket has ended is cut off
    when that one ends: the old loop's [deregister] removes the device, whatever
    sender the hub holds for it by then, so the live socket's channel hears no
    broadcast of the account although it is open. *)
Theorem stale_socket_deregisters_live_one auth tx1 tx2 msg app :
  tx1 ≠ tx2 → (∀ d, sender_of (account_id auth) d (hub app) ≠ Some tx2) →
  let app' := ws_close auth tx1 (ws_open auth tx2 (ws_open auth tx1 app)) in
  channels app' !! tx2 = Some [] ∧
  sender_of (account_id auth) (device_id auth) (hub app') = None ∧
  channels (tell_account (account_id auth) msg app') !! tx2 = Some [].
Proof.
  intros Hne Hno app'.
  assert (Hc : channels app' !! tx2 = Some []).
  { unfold app', ws_close, ws_open. simpl. rewrite lookup_delete_ne by done. apply lookup_insert_eq. }
  assert (Hs : ∀ d, sender_of (account_id auth) d (hub app') =
    if decide (d = device_id auth) then None else sender_of (account_id auth) d (hub app)).
  { intros d. unfold app', ws_close, ws_open. simpl. rewrite sender_deregister, !sender_register.
    destruct (decide (d = device_id auth)) as [->|Hd].
    - by rewrite decide_True.
    - by rewrite !decide_False by naive_solver. }
  split_and!; [done| |].
  - rewrite Hs. by rewrite decide_True.
  - unfold tell_account. simpl. rewrite broadcast_account_other; [done|].
    intros d. rewrite Hs. case_decide; [done|apply Hno].
Qed.
(** C13. Restarts keep access.  No request changes the signing secret or the
    owner's account.  A start on a database with an account succeeds and changes
    nothing in it, whatever SAVR_OWNER_PASSWORD holds by then, and nobody is
    connected; and when the secret is configured, on file, or could be written
    there, every token is worth the same afterwards, and so is the password. *)
Theorem restarts_keep_access h random app :
  jwt_secret app = fst (load_or_create_jwt_secret h random) → accounts (app_db app) ≠ [] →
  (∀ env header req, same_access app (snd (build_app env header req app))) ∧
  ∀ h' env pw_bytes jwt_bytes, same_host h random h' →
    ∃ app', server_main h' env pw_bytes jwt_bytes (store app) =
        (Ok app', snd (load_or_create_jwt_secret h' jwt_bytes), store app) ∧
      store app' = store app ∧ hub app' = ∅ ∧ channels app' = ∅ ∧
      (durable h → random ≠ [] →
       (∀ e header, authed e header app' = authed e header app ∧ owner_session e header app' = owner_session e header app) ∧
       ∀ e password, fst (login e password app') = fst (login e password app)).
Proof.
  intros Hsec Hacc. split; [intros env header req; apply build_app_access|]. intros h' env pw jwt Hh.
  unfold server_main, ensure_owner_account. unfold app_db in Hacc. destruct (accounts (db (store app))) as [|a l] eqn:Ea; [done|].
  destruct (load_or_create_jwt_secret h' jwt) as [secret fs] eqn:El.
  assert (Hst : {| db := db (store app); files := files (store app) |} = store app) by by destruct (store app).
  exists (AppState_new (db (store app)) (files (store app)) secret). split; [by rewrite Hst|].
  split; [exact Hst|]. split; [done|]. split; [done|]. intros Hd Hne.
  pose proof (load_again h random h' jwt Hd Hne Hh) as Hl. rewrite El, <- Hsec in Hl. simpl in Hl. subst secret.
  split; [|done]. by intros e header.
Qed.
End Theorems2.

(** ** The hypotheses hold: the worked run *)

Lemma put_config_no_lost_update_witness :
  let cfg := SyncedConfig_default in
  let c1 := {| c_stored := "seed"; c_new := "t1"; c_cfg := cfg |} in
  let c2 := {| c_stored := "seed"; c_new := "t2"; c_cfg := cfg |} in
  let d2 := run_commits the_account [c1] (app_db ready) in
  fst (commit the_account c2 d2) = Err (config_conflict "t1").
Proof.
  intros cfg c1 c2 d2.
  destruct (put_config_no_lost_update the_account (app_db ready) [] c1 [] c2) as [E _].
  - apply (bool_decide_unpack _). by vm_compute.
  - intros c Hc. apply list_elem_of_singleton in Hc as ->. done.
  - done.
  - by vm_compute.
  - etransitivity; [exact E|]. by vm_compute.
Defined.

Lemma pairing_code_single_use_witness :
  let d := app_db (run (take 1 script) booted) in
  let code := generate_pairing_code [Byte.x01; Byte.x02] in
  ∃ r d', redeem_pairing_code code (secs 0) d = (Some (pc_account r), d') ∧
    pairing_codes d' = update_where (with_id (pc_id r)) set_used (pairing_codes d).
Proof.
  intros d code.
  assert (Hnd : NoDup (map pc_id (pairing_codes d))) by (apply (bool_decide_unpack _); by vm_compute).
  pose proof (pairing_code_single_use code (secs 0) d Hnd) as Hp.
  assert (Hs : is_Some (fst (redeem_pairing_code code (secs 0) d))) by (vm_compute; eauto).
  destruct (redeem_pairing_code code (secs 0) d) as [[a|] d'].
  - destruct Hp as (r & _ & _ & -> & Hp & _). eauto.
  - by destruct Hs.
Defined.

Lemma replay_catches_up_witness :
  versions_since the_account (catch_up (versions_since the_account ∅ (app_db forked)) ∅) (app_db forked) = [].
Proof. apply (replay_catches_up the_account ∅ (app_db forked) forked_wf). Defined.

Lemma revoked_device_locked_out_witness :
  let app1 := snd (delete_device the_auth the_device ready) in
  authed (env_at 9 9) device_header ready = Ok the_auth ∧ authed (env_at 9 9) device_header app1 ≠ Ok the_auth.
Proof.
  intros app1. split; [by vm_compute|].
  apply (revoked_device_locked_out (env_at 9 9) the_auth the_device ready
    {| resp_status := 204; resp_body := NoBody |} app1 app1 ready_reachable).
  - by vm_compute.
  - apply rtc_refl.
Defined.

Lemma device_routes_need_an_active_device_witness :
  ∃ e, build_app (env_at 9 9) None (Device ListDevices) ready = (Err e, ready) ∧ status e = 401%Z.
Proof.
  destruct (device_routes_need_an_active_device (env_at 9 9) None ListDevices ready
    (Err (unauthorized "missing Authorization header")) ready) as [[_ (e & E & Hs)]|(t & _ & _ & Hb & _)].
  - done.
  - exists e. split; [|done]. by rewrite <- E.
  - done.
Defined.

Lemma hub_with_hub h app : hub (with_hub h app) = h.
Proof. reflexivity. Qed.

Lemma fast_forward_announced_witness :
  let app := with_hub (register the_account 7 70 ∅) (with_channels {[70%N := []]} ready) in
  let r := post_version (env_at 10 2) the_auth the_game (upload None) app in
  ∃ v, fst r = Ok {| resp_status := 201; resp_body := BVersion v |} ∧
    channels (snd r) !! 70%N = Some [VersionAvailable the_game (v_id v) (v_seq v)].
Proof.
  intros app r.
  assert (Hso : ∀ d, sender_of the_account d (hub app) = if decide (d = 7%N) then Some 70%N else None).
  { intros d. unfold app. rewrite hub_with_hub, sender_register.
    destruct (decide (d = 7%N)) as [->|Hd]; [by rewrite decide_True|].
    rewrite decide_False; [done|]. intros [_ ?]. done. }
  assert (Hd : senders_distinct the_account (hub app)).
  { intros d1 d2 c. rewrite !Hso. repeat case_decide; congruence. }
  assert (Hv : ∃ v, fst r = Ok {| resp_status := 201; resp_body := BVersion v |} ∧
                    v_device_id v = the_device) by (vm_compute; eauto).
  destruct Hv as (v & Hv & Hdev). exists v. split; [done|].
  destruct (fast_forward_announced (env_at 10 2) the_auth the_game (upload None) app v (snd r)) with (c := 70%N)
    as [Hc _].
  - exact Hd.
  - rewrite <- Hv. apply surjective_pairing.
  - rewrite (Hc 7%N); [done| |by rewrite Hdev].
    change (account_id the_auth) with the_account. by rewrite Hso.
Defined.

Lemma stale_socket_deregisters_live_one_witness :
  sender_of the_account the_device (hub (ws_close the_auth 1 (ws_open the_auth 2 (ws_open the_auth 1 ready)))) = None.
Proof.
  destruct (stale_socket_deregisters_live_one the_auth 1 2 Pong ready) as (_ & Hs & _); [done| |exact Hs].
  intros d. change (hub ready) with (∅ : Hub). unfold sender_of. rewrite lookup_empty. done.
Defined.

(** A machine without variables whose secret file holds the key. *)
Definition the_host : Host :=
  {| h_vars _ := None; h_files := {[ "data/jwt.secret" := "key" ]}; h_writable _ := false |}.
(** The same one later, with a password for the owner. *)
Definition later_host : Host := {|
  h_vars k := if bool_decide (k = "SAVR_OWNER_PASSWORD") then Some "new" else None;
  h_files := h_files the_host; h_writable _ := false |}.

Lemma restarts_keep_access_witness :
  ∃ app', server_main later_host (env_at 9 9) [] [] (store ready) = (Ok app', h_files the_host, store ready) ∧
    authed (env_at 9 9) device_header app' = authed (env_at 9 9) device_header ready ∧
    is_ok (authed (env_at 9 9) device_header ready) = true ∧ is_ok (fst (login (env_at 9 9) "new" app')) = false.
Proof.
  destruct (restarts_keep_access the_host [Byte.x01] ready) as [_ Hr]; [by vm_compute|by vm_compute|].
  assert (Hh : same_host the_host [Byte.x01] later_host) by (constructor; vm_compute; reflexivity).
  destruct (Hr later_host (env_at 9 9) [] [] Hh) as (app' & Hm & _ & _ & _ & Hkeep).
  destruct Hkeep as [Hauth Hlogin]; [right; left; exists "key"; split; [vm_compute; reflexivity|discriminate]|discriminate|].
  exists app'. split; [exact Hm|]. split; [apply Hauth|]. split; [by vm_compute|]. rewrite Hlogin. by vm_compute.
Defined.
