(* ===== verification/AuthTheorems.v ===== *)
(** * savr-server: theorems about tokens, secrets and the lock-out *)

From S2P Require Import Prelude CoreTypes ServerError Auth Blobs Hub ServerDb ServerGc ServerApi DbWf AccountSpec ServerSystem DeviceSpec Instances Demo.

(** ** The bearer header *)

Definition no_space (s : string) : Prop :=
  forallb (λ c, negb (is_space c)) (String.list_ascii_of_string s) = true.

Lemma trim_start_id s : no_space s → trim_start s = s.
Proof.
  unfold no_space. destruct s as [|c s]; simpl; [done|]. intros H. bool_simpl.
  by rewrite (proj1 (not_true_iff_false _)) by congruence.
Qed.

Lemma string_rev_list s : String.list_ascii_of_string (string_rev s) = rev (String.list_ascii_of_string s).
Proof. unfold string_rev. by rewrite String.list_ascii_of_string_of_list_ascii. Qed.

Lemma string_rev_invol s : string_rev (string_rev s) = s.
Proof.
  unfold string_rev at 1. rewrite string_rev_list, rev_involutive.
  apply String.string_of_list_ascii_of_string.
Qed.

Lemma no_space_rev s : no_space s → no_space (string_rev s).
Proof.
  unfold no_space. rewrite string_rev_list, !forallb_forall. intros H c Hc. apply H. by apply in_rev.
Qed.

Lemma trim_id s : no_space s → trim s = s.
Proof.
  intros H. unfold trim. rewrite (trim_start_id s) by done.
  rewrite trim_start_id by (by apply no_space_rev). apply string_rev_invol.
Qed.

Lemma bearer_ok t : no_space t → bearer (Some ("Bearer " +:+ t)) = Ok t.
Proof.
  intros H. unfold bearer. cbn -[strip_prefix]. rewrite strip_prefix_app. simpl. by rewrite trim_id.
Qed.

(** ** The lock-out guard *)

Section Guard.
Implicit Types (g : PairGuard) (t : Z).

(** What the two updates keep: five failures are counted exactly when a lock
    has been set. *)
Definition guard_inv g : Prop :=
  (0 <= fails g)%Z ∧ (locked_until g = None ↔ fails g < MAX_PAIR_FAILS)%Z.

(** A failing attempt at [t]: refused, or let through and counted. *)
Definition attempt g t : bool * PairGuard :=
  match guard_check g t with
  | Ok _ => (true, record_fail g t)
  | Err _ => (false, g)
  end.

Fixpoint attempts g (ts : list Z) : nat * PairGuard :=
  match ts with
  | [] => (0, g)
  | t :: rest =>
    let '(passed, g) := attempt g t in
    let '(n, g) := attempts g rest in
    ((if passed : bool then 1 else 0) + n, g)
  end.

Lemma guard_inv_new : guard_inv PairGuard_new.
Proof. unfold guard_inv, MAX_PAIR_FAILS. simpl. split; [lia|]. split; [lia|done]. Qed.

Lemma guard_check_ok g t :
  guard_check g t = Ok tt ↔ ∀ u, locked_until g = Some u → (u <= t)%Z.
Proof.
  unfold guard_check. destruct (locked_until g) as [u|]; [|naive_solver].
  case_decide; split; try done; intros H1.
  - specialize (H1 u eq_refl). lia.
  - intros u' [= <-]. lia.
Qed.

Lemma record_fail_inv g t : guard_inv g → guard_inv (record_fail g t).
Proof.
  unfold guard_inv, record_fail, MAX_PAIR_FAILS. intros [H0 Hl].
  destruct (locked_until g) as [u|] eqn:E.
  - assert (5 <= fails g)%Z by (destruct (decide (fails g < 5)%Z) as [Hd|Hd]; [apply Hl in Hd; done|lia]).
    case_decide; simpl; [by split; [lia|]; split; [lia|]|].
    rewrite decide_True by lia. split; [lia|]. split; [done|lia].
  - assert (fails g < 5)%Z by (by apply Hl). simpl.
    case_decide; rewrite ?E; split; try lia; split; try done; lia.
Qed.

Lemma attempts_pass g t ts :
  guard_check g t = Ok tt → fst (attempts g (t :: ts)) = S (fst (attempts (record_fail g t) ts)).
Proof.
  intros H. cbn [attempts]. unfold attempt. rewrite H. by destruct (attempts (record_fail g t) ts).
Qed.

(** A locked guard refuses everything before its deadline. *)
Lemma attempts_locked g u ts :
  locked_until g = Some u → Forall (λ t, (t < u)%Z) ts → attempts g ts = (0, g).
Proof.
  intros Hl Hts. induction Hts as [|t ts Ht _ IH]; simpl; [done|].
  unfold attempt, guard_check. rewrite Hl, decide_True by done. by rewrite IH.
Qed.

(** An unlocked guard lets through what is left of five, then locks. *)
Lemma attempts_unlocked ts : ∀ g t0,
  guard_inv g → locked_until g = None → Forall (λ t, (t0 <= t < t0 + secs PAIR_LOCK_SECS)%Z) ts →
  (Z.of_nat (fst (attempts g ts)) <= MAX_PAIR_FAILS - fails g)%Z.
Proof.
  induction ts as [|t ts IH]; intros g t0 Hg Hu Hts.
  - simpl. destruct Hg as [_ Hg]. apply Hg in Hu. lia.
  - apply list.Forall_cons in Hts as [Ht Hts].
    assert (Hlt : (fails g < MAX_PAIR_FAILS)%Z) by by apply Hg.
    pose proof (record_fail_inv g t Hg) as Hg'. cbn [attempts]. unfold attempt, guard_check. rewrite Hu.
    assert (Hf : fails (record_fail g t) = (fails g + 1)%Z) by (unfold record_fail; by rewrite Hu).
    destruct (locked_until (record_fail g t)) as [u|] eqn:El.
    + assert (u = t + secs PAIR_LOCK_SECS)%Z as ->.
      { unfold record_fail in El. rewrite Hu in El. simpl in El. rewrite Hu in El. case_decide; congruence. }
      rewrite (attempts_locked _ _ ts El); [simpl; lia|].
      eapply list.Forall_impl; [exact Hts|]. simpl. lia.
    + specialize (IH (record_fail g t) t0 Hg' El Hts).
      destruct (attempts (record_fail g t) ts) as [n g']. simpl in *. lia.
Qed.
End Guard.

Section Theorems.
Context `{A2 : Argon2} `{J : Jwt} `{!JwtLaws} `{U : UuidText}.

(** C32. The two kinds of token do not stand in for each other, and each lives
    for its time to live plus the five seconds of leeway.  An access token
    verifies as the access of exactly its device and account, and never as an
    owner session; an owner session never verifies as an access token. *)
Theorem token_kinds_and_lifetimes secret account device minted now :
  verify_access secret now (mint_access_token secret minted account device) =
    (if decide (now <= minted + ACCESS_TTL_SECS + 5)%Z
     then Ok {| sub := uuid_to_string device; acc := uuid_to_string account;
                exp := (minted + ACCESS_TTL_SECS)%Z; typ := TYP_ACCESS |}
     else Err (unauthorized "invalid or expired access token")) ∧
  verify_owner_session secret now (mint_owner_session secret minted account) =
    (if decide (now <= minted + SESSION_TTL_SECS + 5)%Z
     then Ok {| s_acc := uuid_to_string account; s_role := TYP_OWNER;
                s_exp := (minted + SESSION_TTL_SECS)%Z; s_typ := TYP_OWNER |}
     else Err (unauthorized "invalid or expired session token")) ∧
  is_ok (verify_access secret now (mint_owner_session secret minted account)) = false ∧
  is_ok (verify_owner_session secret now (mint_access_token secret minted account device)) = false.
Proof.
  unfold verify_access, verify_owner_session, mint_access_token, mint_owner_session.
  rewrite !jwt_decode_encode. simpl. unfold SESSION_TTL_SECS, ACCESS_TTL_SECS.
  split_and!.
  - case_bool_decide; case_decide; (lia || done).
  - case_bool_decide; case_decide; (lia || done).
  - by case_bool_decide.
  - by case_bool_decide.
Qed.

End Theorems.

(** ** Random material *)

Definition all_bytes : list Byte.byte := omap Byte.of_N (map N.of_nat (seq 0 256)).

Lemma all_bytes_complete b : b ∈ all_bytes.
Proof.
  unfold all_bytes. apply list_elem_of_omap. exists (Byte.to_N b). split; [|apply Byte.of_to_N].
  apply list_elem_of_fmap. exists (N.to_nat (Byte.to_N b)). split; [lia|]. apply elem_of_seq.
  pose proof (Byte.to_N_bounded b). lia.
Qed.

Lemma bytes_to_hex_cons b bs :
  bytes_to_hex (b :: bs) =
  String (hex_digit (N.to_nat (Byte.to_N b) / 16)) (String (hex_digit (N.to_nat (Byte.to_N b) mod 16)) (bytes_to_hex bs)).
Proof. done. Qed.

Lemma hex_pair_inj b1 b2 :
  hex_digit (N.to_nat (Byte.to_N b1) / 16) = hex_digit (N.to_nat (Byte.to_N b2) / 16) →
  hex_digit (N.to_nat (Byte.to_N b1) mod 16) = hex_digit (N.to_nat (Byte.to_N b2) mod 16) → b1 = b2.
Proof.
  set (f := λ b, (hex_digit (N.to_nat (Byte.to_N b) / 16), hex_digit (N.to_nat (Byte.to_N b) mod 16))).
  intros H1 H2. assert (Hf : f b1 = f b2) by (unfold f; congruence). clear H1 H2.
  assert (Hnd : NoDup (map f all_bytes)) by (apply (bool_decide_unpack _); by vm_compute).
  apply (NoDup_key_inj f all_bytes); auto using all_bytes_complete.
Qed.

Section Secrets.

(** The random material keeps its entropy.  A refresh secret is the hex of
    its random bytes, two digits each, and no two byte strings give the same
    secret.  A pairing code has one glyph of the unambiguous alphabet per byte,
    and every glyph comes from exactly eight of the 256 bytes, so a uniform
    byte gives a uniform glyph. *)
Theorem secrets_keep_their_entropy :
  (∀ b1 b2, generate_refresh_secret b1 = generate_refresh_secret b2 → b1 = b2) ∧
  (∀ b, String.length (generate_refresh_secret b) = 2 * length b) ∧
  (∀ b, String.length (generate_pairing_code b) = length b) ∧
  (∀ b c, c ∈ String.list_ascii_of_string (generate_pairing_code b) → c ∈ PAIRING_ALPHABET) ∧
  (∀ c, c ∈ PAIRING_ALPHABET →
     length (List.filter (λ b, bool_decide (pairing_char b = c)) all_bytes) = 8).
Proof.
  unfold generate_refresh_secret, generate_pairing_code. split_and!.
  - intros b1. induction b1 as [|x b1 IH]; intros [|y b2]; [done..|].
    rewrite !bytes_to_hex_cons. intros [= H1 H2 H3]. f_equal; [by apply hex_pair_inj|auto].
  - induction b as [|x b IH]; [done|]. rewrite bytes_to_hex_cons. simpl. rewrite IH. lia.
  - intros b. rewrite <- (length_map pairing_char b). generalize (map pairing_char b).
    induction l as [|c l IH]; simpl; [done|by rewrite IH].
  - intros b c. rewrite String.list_ascii_of_string_of_list_ascii.
    intros (x & -> & _)%list_elem_of_fmap. unfold pairing_char.
    apply list_elem_of_In, nth_In, Nat.mod_upper_bound. done.
  - assert (Hall : forallb (λ c, (length (List.filter (λ b, bool_decide (pairing_char b = c)) all_bytes) =? 8)%nat)
      PAIRING_ALPHABET = true) by by vm_compute.
    rewrite forallb_forall in Hall. intros c Hc. by apply Nat.eqb_eq, Hall, list_elem_of_In.
Qed.
End Secrets.

Section Pairing.
Context `{B3 : Blake3} `{A2 : Argon2} `{!Argon2Laws} `{J : Jwt} `{!JwtLaws} `{U : UuidText} `{!UuidTextLaws}.

(** Pairing hands out credentials that work: right after a successful
    [POST /devices/pair], the access token authenticates exactly the new device
    in the account of the code, and the refresh secret mints another access
    token for it. *)
Theorem pairing_grants_working_credentials env req app device account secret token ttl app' :
  (∀ x, x ∈ devices (app_db app) → dr_id x ≠ e_uuid env) →
  pair env req app =
    (Ok {| resp_status := 200; resp_body := BPair device account secret token ttl |}, app') →
  authed env (Some ("Bearer " +:+ token)) app' = Ok {| account_id := account; device_id := device |} ∧
  refresh env {| rf_device_id := device; rf_refresh_secret := secret |} app' =
    (Ok {| resp_status := 200;
           resp_body := BToken (mint_access_token (jwt_secret app') (timestamp env) account device)
                          ACCESS_TTL_SECS |}, app').
Proof.
  intros Hfresh Hp. unfold pair in Hp. destruct (guard_check _ _); [|done].
  unfold redeem_pairing_code in Hp.
  pose proof (redeem_rows_devices (pr_code req)
    (List.filter (code_active (e_now env)) (pairing_codes (app_db app))) (app_db app)) as Hdev.
  destruct (redeem_rows _ _ _) as [[acct|] d1]; simpl in Hdev; [|done].
  set (app1 := with_guard _ _) in Hp.
  destruct (create_device _ _ _ _ _ _ _) as [d2|e] eqn:Ed; [|done].
  injection Hp as <- <- <- <- <- <-.
  set (row := {| dr_id := e_uuid env; dr_account := acct; dr_name := pr_device_name req;
    dr_os := os_str (pr_os req); dr_token_hash := hash_secret (generate_refresh_secret (e_secret_bytes env)) (e_salt env);
    dr_last_seen := Some (e_now env); dr_revoked := 0 |}).
  assert (Hd2 : devices d2 = devices (app_db app) ++ [row]).
  { unfold create_device in Ed. case_match_in Ed; [done|]. case_match_in Ed; [done|].
    injection Ed as <-. change (devices d1 ++ [row] = devices (app_db app) ++ [row]). by rewrite Hdev. }
  assert (Hfind : ∀ p : DeviceRow → bool, (∀ x, p x = true → dr_id x = e_uuid env) → p row = true →
            fetch_optional p (devices d2) = Some row).
  { intros p Hpid Hrow. rewrite Hd2. clear -Hfresh Hpid Hrow. unfold fetch_optional.
    induction (devices (app_db app)) as [|x l IH]; simpl; [by rewrite Hrow|].
    destruct (p x) eqn:Ex.
    - exfalso. apply (Hfresh x); [apply list_elem_of_here|auto].
    - apply IH. intros y Hy. apply Hfresh. by apply list_elem_of_further. }
  split.
  - unfold authed. rewrite bearer_ok by apply jwt_no_space. simpl.
    unfold verify_access, mint_access_token. rewrite jwt_decode_encode. simpl.
    rewrite bool_decide_eq_false_2 by (unfold ACCESS_TTL_SECS; lia). simpl.
    rewrite !uuid_parse_to_string. simpl. unfold device_active.
    rewrite Hfind; [done| |].
    + intros x Hx. unfold my_device, is_device in Hx. by bool_simpl.
    + unfold my_device, is_device. simpl. by rewrite !bool_decide_eq_true_2.
  - unfold refresh. simpl. unfold device_credentials.
    rewrite Hfind; simpl.
    + unfold verify_secret, hash_secret. by rewrite argon2_verify_hash.
    + intros x Hx. unfold is_device in Hx. by apply bool_decide_eq_true in Hx.
    + unfold is_device. simpl. by rewrite bool_decide_eq_true_2.
Qed.
End Pairing.

(** ** The hypotheses hold *)

Lemma token_kinds_and_lifetimes_witness :
  is_ok (verify_access "key" 905 (mint_access_token "key" 0 the_account the_device)) = true ∧
  is_ok (verify_access "key" 906 (mint_access_token "key" 0 the_account the_device)) = false ∧
  is_ok (verify_access "key" 0 (mint_owner_session "key" 0 the_account)) = false.
Proof.
  destruct (token_kinds_and_lifetimes "key" the_account the_device 0 905) as (H1 & _ & _ & _).
  destruct (token_kinds_and_lifetimes "key" the_account the_device 0 906) as (H2 & _ & _ & _).
  destruct (token_kinds_and_lifetimes "key" the_account the_device 0 0) as (_ & _ & H3 & _).
  rewrite H1, H2. split_and!; [done|done|exact H3].
Defined.


Lemma pairing_grants_working_credentials_witness :
  let app := run (take 1 script) booted in
  let env := env_at the_device 0 in
  let req := {| pr_code := generate_pairing_code [Byte.x01; Byte.x02]; pr_device_name := "deck"; pr_os := Linux |} in
  ∃ token, authed env (Some ("Bearer " +:+ token)) (snd (pair env req app)) = Ok the_auth.
Proof.
  intros app env req.
  destruct (pair env req app) as [[[st bd]|e] app'] eqn:E.
  2:{ exfalso. assert (Hok : is_ok (fst (pair env req app)) = true) by by vm_compute. by rewrite E in Hok. }
  assert (Hb : fst (pair env req app) =
    Ok {| resp_status := 200;
          resp_body := BPair the_device the_account (generate_refresh_secret [Byte.x0a; Byte.xff])
                         (mint_access_token "key" 0 the_account the_device) ACCESS_TTL_SECS |}) by by vm_compute.
  rewrite E in Hb. simpl in Hb. injection Hb as -> ->. eexists. simpl.
  eapply (pairing_grants_working_credentials env req app); [|exact E].
  intros x Hx. by apply elem_of_nil in Hx.
Defined.
