(* ===== verification/Snapshot.v ===== *)
(** * savr-core: snapshots and their diff (src/crates/savr-core/src/snapshot.rs)

    The file system is a tree of nodes; a [Path] is the list of its components,
    the root's ["/"] first.  The glob crate is a parameter: what a pattern
    matches on this file system, and whether an exclude pattern matches a
    relative path. *)

From S2P Require Import Prelude CoreTypes.

Abbreviation Path := (list string).

(** A directory entry as [symlink_metadata] reports it. *)
Inductive Node :=
  | FileN (mtime : Z) (content : bytes)
  | DirN (entries : list (string * Node))
  | OtherN.

(** [glob::glob] on this file system ([None] when the pattern is invalid), and
    [glob::Pattern::new] with [matches]. *)
Class Glob := {
  glob_paths : string → option (list Path);
  pattern_new : string → bool;
  pattern_matches : string → string → bool;
}.

Record Snapshot := { sn_game_id : GameId; sn_files : list FileEntry; taken_at : DateTime }.

(** [Vec::join("/")]. *)
Definition join (sep : string) (l : list string) : string := String.concat sep l.

(** [Path::strip_prefix], by components. *)
Fixpoint strip_components (anchor path : Path) : option Path :=
  match anchor, path with
  | [], _ => Some path
  | a :: anchor', p :: path' => if decide (a = p) then strip_components anchor' path' else None
  | _ :: _, [] => None
  end.

Definition snapshot_rel_path (path anchor : Path) : string :=
  join "/" (default path (strip_components anchor path)).

(** [replace('\\', "/")]. *)
Fixpoint slashes (s : string) : string :=
  match s with
  | EmptyString => EmptyString
  | String c r => String (if decide (Ascii.nat_of_ascii c = 92) then Ascii.ascii_of_nat 47 else c) (slashes r)
  end.

(** The node a path names. *)
Fixpoint node_at (path : Path) (n : Node) : option Node :=
  match path with
  | [] => Some n
  | c :: rest =>
    match n with
    | DirN es => child ← fetch_optional (λ e, bool_decide (fst e = c)) es; node_at rest (snd child)
    | _ => None
    end
  end.

Section Build.
Context `{B3 : Blake3} `{G : Glob}.

Definition file_entry (rel : string) (mtime : Z) (content : bytes) : FileEntry :=
  {| rel_path := rel; size := Z.of_nat (length content); mtime := mtime; hash := hash_of content |}.

Definition excluded (excludes : list string) (rel : string) : bool :=
  existsb (λ g, pattern_matches g (slashes rel)) excludes.

(** [collect], on the node found at [path]. *)
Fixpoint collect (anchor : Path) (excludes : list string) (path : Path) (n : Node)
    (out : gmap string FileEntry) {struct n} : gmap string FileEntry :=
  match n with
  | DirN es =>
    (fix go es out := match es with
       | [] => out
       | (name, child) :: es => go es (collect anchor excludes (path ++ [name]) child out)
       end) es out
  | FileN mtime content =>
    let rel := snapshot_rel_path path anchor in
    if excluded excludes rel then out else <[rel := file_entry rel mtime content]> out
  | OtherN => out
  end.

(** The two nested loops of [build]: each pattern, each path it matches. *)
Fixpoint collect_paths (root : Node) (anchor : Path) (excludes : list string) (paths : list Path)
    (out : gmap string FileEntry) : result CoreError (gmap string FileEntry) :=
  match paths with
  | [] => Ok out
  | p :: rest =>
    match node_at p root with
    | None => Err EIo
    | Some n => collect_paths root anchor excludes rest (collect anchor excludes p n out)
    end
  end.

Fixpoint collect_patterns (root : Node) (anchor : Path) (excludes patterns : list string)
    (out : gmap string FileEntry) : result CoreError (gmap string FileEntry) :=
  match patterns with
  | [] => Ok out
  | pat :: rest =>
    paths ← ok_or (glob_paths pat) EGlob;
    out ← collect_paths root anchor excludes paths out;
    collect_patterns root anchor excludes rest out
  end.

(** [Snapshot::build]: exclude patterns that do not parse are dropped. *)
Definition build (root : Node) (now : DateTime) (game_id : GameId) (patterns excludes : list string)
    (anchor : Path) : result CoreError Snapshot :=
  files ← collect_patterns root anchor (List.filter pattern_new excludes) patterns ∅;
  Ok {| sn_game_id := game_id; sn_files := btree_values files; taken_at := now |}.
End Build.

(** ** The diff *)

Record Diff := { changed : list FileEntry; deleted : list string }.

Definition diff_is_empty (d : Diff) : bool :=
  match changed d, deleted d with [], [] => true | _, _ => false end.

(** [collect] into a BTreeMap: a later entry of the same path replaces. *)
Definition by_path (files : list FileEntry) : gmap string FileEntry :=
  foldl (λ m f, <[rel_path f := f]> m) ∅ files.

Definition diff (old new : Snapshot) : Diff :=
  let old_by_path := by_path (sn_files old) in
  let new_paths := by_path (sn_files new) in
  {| changed := List.filter (λ f, match old_by_path !! rel_path f with
                                  | Some o => negb (bool_decide (hash o = hash f))
                                  | None => true
                                  end) (sn_files new);
     deleted := map rel_path
       (List.filter (λ f, bool_decide (new_paths !! rel_path f = None)) (sn_files old)) |}.
