(* ===== verification/SnapshotSpec.v ===== *)
(** * savr-core: what a snapshot holds and what a diff says *)

From S2P Require Import Prelude CoreTypes Snapshot.

(** ** The walk *)

(** The regular files at or below a node found at [p]. *)
Inductive file_under : Path → Node → Path → Z → bytes → Prop :=
  | under_file p m b : file_under p (FileN m b) p m b
  | under_dir p es name child q m b :
      (name, child) ∈ es → file_under (p ++ [name]) child q m b → file_under p (DirN es) q m b.

(** Induction over the tree, through the lists of entries. *)
Lemma node_induction (P : Node → Prop) :
  (∀ m b, P (FileN m b)) → P OtherN →
  (∀ es, Forall (λ e, P (snd e)) es → P (DirN es)) → ∀ n, P n.
Proof.
  intros Hfile Hother Hdir. fix IH 1. intros [m b|es|]; [apply Hfile| |apply Hother]. apply Hdir.
  induction es as [|[name child] es IHes]; constructor; [apply IH|exact IHes].
Qed.

Section Walk.
Context `{B3 : Blake3} `{G : Glob}.
Implicit Types (out : gmap string FileEntry) (anchor : Path).

(** A file the walk records, and the entry it records for it. *)
Definition records anchor excludes (k : string) (f : FileEntry) q m b : Prop :=
  k = snapshot_rel_path q anchor ∧ excluded excludes k = false ∧ f = file_entry k m b.

Record collected anchor excludes (under : Path → Z → bytes → Prop) out out' : Prop := {
  co_from k f : out' !! k = Some f →
    out !! k = Some f ∨ ∃ q m b, under q m b ∧ records anchor excludes k f q m b;
  co_all q m b : under q m b → excluded excludes (snapshot_rel_path q anchor) = false →
    is_Some (out' !! snapshot_rel_path q anchor);
  co_mono k : is_Some (out !! k) → is_Some (out' !! k);
}.

Lemma collected_seq anchor excludes (u1 u2 u : Path → Z → bytes → Prop) out out1 out2 :
  (∀ q m b, u q m b ↔ u1 q m b ∨ u2 q m b) →
  collected anchor excludes u1 out out1 → collected anchor excludes u2 out1 out2 →
  collected anchor excludes u out out2.
Proof.
  intros Hu [F1 A1 M1] [F2 A2 M2]. constructor.
  - intros k f Hk. destruct (F2 k f Hk) as [H1|(q & m & b & Hq & Hr)].
    + destruct (F1 k f H1) as [?|(q & m & b & Hq & Hr)]; [by left|right].
      exists q, m, b. split; [apply Hu; by left|done].
    + right. exists q, m, b. split; [apply Hu; by right|done].
  - intros q m b [Hq|Hq]%Hu He; eauto.
  - auto.
Qed.

Lemma collected_none anchor excludes (u : Path → Z → bytes → Prop) out :
  (∀ q m b, ¬ u q m b) → collected anchor excludes u out out.
Proof. intros Hu. constructor; [by left| |done]. intros q m b Hq. by apply Hu in Hq. Qed.

Lemma collected_ext anchor excludes (u v : Path → Z → bytes → Prop) out out' :
  (∀ q m b, u q m b ↔ v q m b) → collected anchor excludes u out out' → collected anchor excludes v out out'.
Proof.
  intros Huv [F A M]. constructor; [|intros q m b Hv; by apply A with m b, Huv|done].
  intros k f Hk. destruct (F k f Hk) as [?|(q & m & b & Hq & ?)]; [by left|right].
  exists q, m, b. split; [by apply Huv|done].
Qed.

Lemma collect_collected anchor excludes n : ∀ p out,
  collected anchor excludes (file_under p n) out (collect anchor excludes p n out).
Proof.
  induction n as [m b| |es IH] using node_induction; intros p out.
  - simpl. destruct (excluded excludes (snapshot_rel_path p anchor)) eqn:E; constructor.
    + by left.
    + inversion 1; subst. congruence.
    + done.
    + intros k f. rewrite lookup_insert. case_decide; [|by left].
      intros [= <-]. right. exists p, m, b. split; [constructor|]. by subst.
    + inversion 1; subst. rewrite lookup_insert_eq. eauto.
    + intros k [x Hx]. rewrite lookup_insert. case_decide; eauto.
  - simpl. apply collected_none. inversion 1.
  - simpl. revert out.
    assert (Hgo : ∀ out, collected anchor excludes
      (λ q m b, ∃ name child, (name, child) ∈ es ∧ file_under (p ++ [name]) child q m b) out
      ((fix go es out := match es with
       | [] => out
       | (name, child) :: es => go es (collect anchor excludes (p ++ [name]) child out)
       end) es out)).
    { induction IH as [|[name child] es Hc Hes IHes]; intros out.
      - apply collected_none. intros q m b (? & ? & Hin & _). by apply elem_of_nil in Hin.
      - eapply collected_seq; [|apply Hc|apply IHes]. simpl. intros q m b.
        setoid_rewrite elem_of_cons. split.
        + intros (nm & ch & [[= -> ->]|Hin] & Hf); [by left|right; eauto].
        + intros [Hf|(nm & ch & Hin & Hf)]; eauto 10. }
    intros out. eapply collected_ext; [|apply Hgo]. intros q m b. split.
    + intros (name & child & Hin & Hf). by econstructor.
    + inversion 1; subst. eauto.
Qed.

Lemma collect_paths_collected root anchor excludes paths : ∀ out out',
  collect_paths root anchor excludes paths out = Ok out' →
  collected anchor excludes
    (λ q m b, ∃ p n, p ∈ paths ∧ node_at p root = Some n ∧ file_under p n q m b) out out'.
Proof.
  induction paths as [|p paths IH]; intros out out' Hc; simpl in Hc.
  - injection Hc as <-. apply collected_none. intros q m b (? & ? & Hin & _). by apply elem_of_nil in Hin.
  - destruct (node_at p root) as [n|] eqn:E; [|done].
    eapply collected_seq; [|apply collect_collected|by apply IH]. simpl. intros q m b.
    setoid_rewrite elem_of_cons. split.
    + intros (p' & n' & [->|Hin] & Hn & Hf); [left; congruence|right; eauto].
    + intros [Hf|(p' & n' & Hin & Hn & Hf)]; eauto 10.
Qed.

(** Some pattern matches a path at or above the file. *)
Definition matched (root : Node) (patterns : list string) (q : Path) (m : Z) (b : bytes) : Prop :=
  ∃ pat paths p n, pat ∈ patterns ∧ glob_paths pat = Some paths ∧ p ∈ paths ∧
    node_at p root = Some n ∧ file_under p n q m b.

Lemma collect_patterns_collected root anchor excludes patterns : ∀ out out',
  collect_patterns root anchor excludes patterns out = Ok out' →
  collected anchor excludes (matched root patterns) out out'.
Proof.
  induction patterns as [|pat patterns IH]; intros out out' Hc; simpl in Hc.
  - injection Hc as <-. apply collected_none. intros q m b (? & ? & ? & ? & Hin & _). by apply elem_of_nil in Hin.
  - destruct (glob_paths pat) as [paths|] eqn:Eg; [|done]. simpl in Hc.
    destruct (collect_paths root anchor excludes paths out) as [out1|] eqn:E1; [|done]. simpl in Hc.
    eapply collected_seq; [|by apply collect_paths_collected|by apply IH]. unfold matched.
    intros q m b. setoid_rewrite elem_of_cons. split.
    + intros (pat' & ps & p & n & [->|Hin] & Hg & Hp & Hn & Hf).
      * left. exists p, n. split_and!; [congruence|done..].
      * right. exists pat', ps, p, n. done.
    + intros [(p & n & Hp & Hn & Hf)|(pat' & ps & p & n & Hin & Hg & Hp & Hn & Hf)].
      * exists pat, paths, p, n. eauto 10.
      * exists pat', ps, p, n. eauto 10.
Qed.

(** Every entry of the map is stored under its own path. *)
Lemma collected_keys anchor excludes u out out' :
  collected anchor excludes u out out' → (∀ k f, out !! k = Some f → rel_path f = k) →
  ∀ k f, out' !! k = Some f → rel_path f = k.
Proof.
  intros [F _ _] Hout k f Hk. destruct (F k f Hk) as [?|(q & m & b & _ & _ & _ & ->)]; [auto|done].
Qed.
End Walk.

(** ** Values of a BTreeMap keyed by path *)

Lemma btree_values_keys (m : gmap string FileEntry) :
  (∀ k f, m !! k = Some f → rel_path f = k) → map rel_path (btree_values m) = map fst (btree_iter m).
Proof.
  intros Hk. unfold btree_values. rewrite map_map. apply map_ext_in. intros [k f] Hin. simpl.
  apply Hk, elem_of_btree_iter. by apply list_elem_of_In.
Qed.

Lemma elem_of_btree_values (m : gmap string FileEntry) f :
  (∀ k f, m !! k = Some f → rel_path f = k) → f ∈ btree_values m ↔ m !! rel_path f = Some f.
Proof.
  intros Hk. unfold btree_values. rewrite list_elem_of_fmap. split.
  - intros ([k f'] & -> & Hin%elem_of_btree_iter). simpl. by rewrite (Hk k f' Hin).
  - intros Hf. exists (rel_path f, f). split; [done|]. by apply elem_of_btree_iter.
Qed.

(** ** What a snapshot lists *)

Section BuildFiles.
Context `{B3 : Blake3} `{G : Glob}.

Lemma build_files root now game_id patterns excludes anchor sn :
  build root now game_id patterns excludes anchor = Ok sn →
  let out := excluded (List.filter pattern_new excludes) in
  NoDup (map rel_path (sn_files sn)) ∧
  StronglySorted (λ a b, string_le a b = true) (map rel_path (sn_files sn)) ∧
  (∀ f, f ∈ sn_files sn → out (rel_path f) = false ∧
     ∃ q m b, matched root patterns q m b ∧ f = file_entry (snapshot_rel_path q anchor) m b) ∧
  (∀ q m b, matched root patterns q m b → out (snapshot_rel_path q anchor) = false →
     snapshot_rel_path q anchor ∈ map rel_path (sn_files sn)).
Proof.
  unfold build. intros Hb. cbv zeta. destruct (collect_patterns _ _ _ _ _) as [files|] eqn:E; [|done].
  injection Hb as <-. simpl.
  apply collect_patterns_collected in E.
  assert (Hk : ∀ k f, files !! k = Some f → rel_path f = k).
  { eapply collected_keys; [exact E|]. intros k f Hk. by rewrite lookup_empty in Hk. }
  destruct E as [F A _]. rewrite btree_values_keys by done. split_and!.
  - apply btree_iter_keys.
  - pose proof (btree_iter_sorted files) as Hs. induction Hs as [|x l Hs IH Hx]; constructor; [done|].
    by apply list.Forall_fmap.
  - intros f Hf. apply elem_of_btree_values in Hf; [|done].
    destruct (F _ _ Hf) as [Hn|(q & m & b & Hq & Hp & Hx & ->)]; [by rewrite lookup_empty in Hn|].
    split; [done|]. exists q, m, b. split; [done|]. by rewrite Hp.
  - intros q m b Hq Hx. destruct (A q m b Hq Hx) as [f Hf]. apply list_elem_of_fmap.
    exists (snapshot_rel_path q anchor, f). split; [done|]. by apply elem_of_btree_iter.
Qed.
End BuildFiles.

(** ** Diffs as patches of path-to-hash maps *)

Section Diff.
Implicit Types (files : list FileEntry) (m : gmap string Blake3Hash).

(** What matters of a file set: the content hash at each path. *)
Definition content files : gmap string Blake3Hash := hash <$> by_path files.

Definition patch (d : Diff) m : gmap string Blake3Hash :=
  foldl (λ m p, delete p m) (foldl (λ m f, <[rel_path f := hash f]> m) m (changed d)) (deleted d).

Definition has_path (p : string) (f : FileEntry) : bool := bool_decide (rel_path f = p).

Lemma by_path_lookup files p :
  NoDup (map rel_path files) → by_path files !! p = fetch_optional (has_path p) files.
Proof.
  intros Hnd. unfold by_path. rewrite (foldl_insert_lookup rel_path (λ f, f)) by done.
  unfold has_path. destruct (fetch_optional _ _); [done|]. apply lookup_empty.
Qed.

Lemma content_lookup files p :
  NoDup (map rel_path files) → content files !! p = hash <$> fetch_optional (has_path p) files.
Proof. intros Hnd. unfold content. by rewrite lookup_fmap, by_path_lookup. Qed.

Lemma fetch_path files f :
  NoDup (map rel_path files) → f ∈ files → fetch_optional (has_path (rel_path f)) files = Some f.
Proof. intros Hnd Hf. unfold has_path. by apply fetch_key. Qed.

Lemma fetch_path_None files p :
  fetch_optional (has_path p) files = None ↔ p ∉ map rel_path files.
Proof.
  rewrite fetch_optional_None. split.
  - intros Hf (f & -> & Hin)%list_elem_of_fmap. specialize (Hf f Hin).
    unfold has_path in Hf. by rewrite bool_decide_eq_true_2 in Hf.
  - intros Hni f Hf. apply bool_decide_eq_false_2. intros <-. by apply Hni, list_elem_of_fmap_2.
Qed.

Lemma fetch_path_filter (q : FileEntry → bool) files p :
  NoDup (map rel_path files) →
  fetch_optional (has_path p) (List.filter q files) =
  match fetch_optional (has_path p) files with
  | Some f => if q f then Some f else None
  | None => None
  end.
Proof.
  intros Hnd. destruct (fetch_optional (has_path p) files) as [f|] eqn:E.
  - apply fetch_optional_Some in E as [Hf Hp]. apply bool_decide_eq_true in Hp as <-.
    destruct (q f) eqn:Eq.
    + apply fetch_path; [by apply NoDup_key_filter|by apply elem_of_filter_bool].
    + apply fetch_path_None. intros (f' & Hk & [Hf' Hq]%elem_of_filter_bool)%list_elem_of_fmap.
      rewrite (NoDup_key_inj rel_path files f f') in Eq; congruence.
  - apply fetch_path_None. apply fetch_path_None in E. contradict E.
    apply list_elem_of_fmap in E as (f & -> & [Hf _]%elem_of_filter_bool). by apply list_elem_of_fmap_2.
Qed.

Lemma deleted_iff old new p :
  NoDup (map rel_path (sn_files new)) →
  p ∈ deleted (diff old new) ↔ p ∈ map rel_path (sn_files old) ∧ p ∉ map rel_path (sn_files new).
Proof.
  intros Hnd. simpl. rewrite !list_elem_of_fmap. split.
  - intros (f & -> & [Hf Hn]%elem_of_filter_bool). apply bool_decide_eq_true in Hn.
    rewrite by_path_lookup, fetch_path_None in Hn by done. split; [eauto|].
    by rewrite <- list_elem_of_fmap.
  - intros [(f & -> & Hf) Hn]. exists f. split; [done|]. apply elem_of_filter_bool. split; [done|].
    apply bool_decide_eq_true. rewrite by_path_lookup, fetch_path_None by done.
    by rewrite list_elem_of_fmap.
Qed.

(** A diff, applied to the old content, gives the new. *)
Lemma patch_diff old new :
  NoDup (map rel_path (sn_files old)) → NoDup (map rel_path (sn_files new)) →
  patch (diff old new) (content (sn_files old)) = content (sn_files new).
Proof.
  intros Ho Hn. apply map_eq. intros p. unfold patch.
  rewrite foldl_delete_lookup, (foldl_insert_lookup rel_path hash) by (by apply NoDup_key_filter).
  change (λ r : FileEntry, bool_decide (rel_path r = p)) with (has_path p).
  set (q := λ f, match by_path (sn_files old) !! rel_path f with
                 | Some o => negb (bool_decide (hash o = hash f))
                 | None => true
                 end).
  change (changed (diff old new)) with (List.filter q (sn_files new)).
  rewrite fetch_path_filter by done. rewrite !content_lookup by done.
  destruct (decide (p ∈ deleted (diff old new))) as [Hd|Hd].
  - apply deleted_iff in Hd as [_ Hd]; [|done]. apply fetch_path_None in Hd. by rewrite Hd.
  - destruct (fetch_optional (has_path p) (sn_files new)) as [f|] eqn:E; simpl.
    + apply fetch_optional_Some in E as [Hf Hp]. apply bool_decide_eq_true in Hp as <-.
      unfold q. rewrite by_path_lookup by done.
      destruct (fetch_optional (has_path (rel_path f)) (sn_files old)) as [o|]; [|done].
      case_bool_decide as Hh; simpl; [by rewrite Hh|done].
    + apply fetch_path_None in E. destruct (fetch_optional (has_path p) (sn_files old)) as [o|] eqn:Eo; [|done].
      exfalso. apply Hd, deleted_iff; [done|]. split; [|done].
      apply fetch_optional_Some in Eo as [Hof Hp]. apply bool_decide_eq_true in Hp as <-.
      by apply list_elem_of_fmap_2.
Qed.

(** Nothing changed and nothing deleted means the same content, and back. *)
Lemma diff_is_empty_iff old new :
  NoDup (map rel_path (sn_files old)) → NoDup (map rel_path (sn_files new)) →
  diff_is_empty (diff old new) = true ↔ content (sn_files old) = content (sn_files new).
Proof.
  intros Ho Hn. unfold diff_is_empty. split.
  - intros He. rewrite <- (patch_diff old new Ho Hn). unfold patch.
    destruct (changed (diff old new)); [|done]. by destruct (deleted (diff old new)).
  - intros Hc. assert (Hch : changed (diff old new) = []).
    { destruct (changed (diff old new)) as [|f l] eqn:E; [done|]. exfalso.
      assert (Hf : f ∈ changed (diff old new)) by (rewrite E; apply list_elem_of_here).
      apply elem_of_filter_bool in Hf as [Hf Hq]. rewrite by_path_lookup in Hq by done.
      pose proof (f_equal (lookup (rel_path f)) Hc) as Hl. cbv beta in Hl.
      rewrite !content_lookup, (fetch_path (sn_files new)) in Hl by done.
      destruct (fetch_optional _ (sn_files old)) as [o|]; [|done]. simpl in Hl. injection Hl as Hl.
      by rewrite bool_decide_eq_true_2 in Hq. }
    rewrite Hch. destruct (deleted (diff old new)) as [|p l] eqn:E; [done|]. exfalso.
    assert (Hp : p ∈ deleted (diff old new)) by (rewrite E; apply list_elem_of_here).
    apply deleted_iff in Hp as [Hpo Hpn]; [|done].
    pose proof (f_equal (lookup p) Hc) as Hl. cbv beta in Hl. rewrite !content_lookup in Hl by done.
    apply fetch_path_None in Hpn. rewrite Hpn in Hl.
    destruct (fetch_optional _ (sn_files old)) as [o|] eqn:Eo; [done|]. by apply fetch_path_None in Eo.
Qed.
End Diff.
