(* ===== verification/Archive.v ===== *)
(** * savr-core: the .savr archive (src/crates/savr-core/src/archive.rs)

    An archive is the list of named entries of its tar stream.  The zstd and tar
    crates are the class [Tar], serde_json on [ArchiveMeta] the class
    [MetaJson].  The destination directory is the map of the files under it, by
    their components; a directory exists where some file lies below it. *)

From S2P Require Import Prelude CoreTypes Snapshot.

Definition META_PATH : string := "meta.json".
Definition REGISTRY_PATH : string := "registry.json".
Definition FILES_PREFIX : string := "files/".

Record ArchiveMeta := {
  am_game_id : GameId;
  am_device_id : DeviceId;
  am_parent : option VersionId;
  am_kind : VersionKind;
  am_files : list FileEntry;
  am_deletions : list string;
  am_created_at : DateTime;
}.

Record Unpacked := { up_meta : ArchiveMeta; up_registry : option bytes }.

(** [tar_write] fails on a name the crate refuses to store; [tar_read] yields
    the entries in order, ending with an error when the stream is damaged. *)
Class Tar := {
  tar_write : list (string * bytes) → option bytes;
  tar_read : bytes → list (result CoreError (string * bytes));
}.
Class TarLaws `{Tar} : Prop := {
  tar_read_write es b : tar_write es = Some b → tar_read b = map Ok es;
}.

Class MetaJson := {
  meta_to_vec : ArchiveMeta → bytes;
  meta_from_slice : bytes → option ArchiveMeta;
}.
Class MetaJsonLaws `{MetaJson} : Prop := {
  meta_from_to m : meta_from_slice (meta_to_vec m) = Some m;
}.

(** ** Paths *)

Fixpoint split_on (c : Ascii.ascii) (s : string) : list string :=
  match s with
  | EmptyString => [EmptyString]
  | String x r =>
    if decide (x = c) then EmptyString :: split_on c r
    else match split_on c r with
         | h :: t => String x h :: t
         | [] => [String x EmptyString]
         end
  end.

Definition slash : Ascii.ascii := Ascii.ascii_of_nat 47.

(** [std::path::Component], as [Path::components] yields them on Unix. *)
Inductive Component := RootDir | CurDir | ParentDir | Normal (s : string).

#[export] Instance Component_eq_dec : EqDecision Component.
Proof. solve_decision. Defined.

Definition component (s : string) : list Component :=
  if decide (s = "" ∨ s = ".") then []
  else if decide (s = "..") then [ParentDir] else [Normal s].

(** An empty or "." segment is dropped, except a leading "."; a leading slash
    is the root. *)
Definition components (s : string) : list Component :=
  match split_on slash s with
  | seg :: rest =>
    let body := concat (map component (seg :: rest)) in
    if decide (seg = "" ∧ rest ≠ []) then RootDir :: body
    else if decide (seg = ".") then CurDir :: body
    else body
  | [] => []
  end.

Definition is_normal (c : Component) : bool := match c with Normal _ => true | _ => false end.

Definition is_safe_rel_path (s : string) : bool := negb (existsb (λ c, negb (is_normal c)) (components s)).

Definition normal_names (cs : list Component) : list string :=
  omap (λ c, match c with Normal s => Some s | _ => None end) cs.

(** ** Writing *)

Section Pack.
Context `{T : Tar} `{MJ : MetaJson}.

(** [std::fs::read]-like access to the payload's source files. *)
Variable read_file : Path → option bytes.

Definition payload_entry (p : string * Path) : result CoreError (string * bytes) :=
  b ← ok_or (read_file (snd p)) EIo; Ok (FILES_PREFIX +:+ fst p, b).

Definition pack (meta : ArchiveMeta) (payload : list (string * Path)) (registry_json : option bytes)
    : result CoreError bytes :=
  files ← mapM payload_entry payload;
  ok_or (tar_write ((META_PATH, meta_to_vec meta) ::
                    match registry_json with Some r => [(REGISTRY_PATH, r)] | None => [] end ++ files))
        EIo.
End Pack.

(** ** Reading *)

Abbreviation Tree := (gmap (list string) bytes).

Definition strict_prefix (a b : list string) : bool :=
  bool_decide (length a < length b) && bool_decide (take (length a) b = a).

(** [create_dir_all] of the parent, then [File::create]: refused where a file
    stands in for a parent directory, or a directory for the file. *)
Definition write_file (target : list string) (b : bytes) (t : Tree) : result CoreError Tree :=
  if decide (target = []) then Err EIo
  else if existsb (λ e, strict_prefix (fst e) target || strict_prefix target (fst e)) (map_to_list t)
  then Err EIo
  else Ok (<[target := b]> t).

Section Unpack.
Context `{T : Tar} `{MJ : MetaJson}.

Fixpoint unpack_entries (es : list (result CoreError (string * bytes)))
    (meta : option ArchiveMeta) (registry : option bytes) (dest : Tree)
    : outcome Tree CoreError (option ArchiveMeta * option bytes) :=
  match es with
  | [] => (Ok (meta, registry), dest)
  | Err e :: _ => (Err e, dest)
  | Ok (name, b) :: rest =>
    if decide (name = META_PATH) then
      match meta_from_slice b with
      | Some m => unpack_entries rest (Some m) registry dest
      | None => (Err (EManifest "meta.json"), dest)
      end
    else if decide (name = REGISTRY_PATH) then unpack_entries rest meta (Some b) dest
    else match strip_prefix FILES_PREFIX name with
         | Some rel =>
           if negb (is_safe_rel_path rel) then (Err (EManifest ("unsafe path in archive: " +:+ name)), dest)
           else match write_file (normal_names (components rel)) b dest with
                | Err e => (Err e, dest)
                | Ok dest' => unpack_entries rest meta registry dest'
                end
         | None => unpack_entries rest meta registry dest
         end
  end.

Definition unpack (input : bytes) (dest : Tree) : outcome Tree CoreError Unpacked :=
  let '(r, dest') := unpack_entries (tar_read input) None None dest in
  ('(meta, registry) ← r;
   m ← ok_or meta (EManifest "archive missing meta.json");
   Ok {| up_meta := m; up_registry := registry |}, dest').
End Unpack.
