(* ===== verification/ArchiveSpec.v ===== *)
(** * savr-core: archives read back what they were given, and stay inside *)

From S2P Require Import Prelude CoreTypes Snapshot Archive.

(** ** Splitting and joining paths *)

Definition has_char (c : Ascii.ascii) (s : string) : bool :=
  existsb (λ x, bool_decide (x = c)) (String.list_ascii_of_string s).

(** A name a directory entry can have. *)
Definition normal_name (s : string) : Prop :=
  s ≠ "" ∧ s ≠ "." ∧ s ≠ ".." ∧ has_char slash s = false.

Lemma split_on_nonempty c s : split_on c s ≠ [].
Proof. destruct s as [|x s]; simpl; [done|]. case_decide; [done|]. by destruct (split_on c s). Qed.

Lemma split_on_no_char c s : Forall (λ x, has_char c x = false) (split_on c s).
Proof.
  induction s as [|x s IH]; simpl; [by repeat constructor|].
  case_decide as Hx; [by constructor|].
  destruct (split_on c s) as [|h t]; constructor; inversion IH; subst; try done.
  - unfold has_char. simpl. by rewrite bool_decide_eq_false_2.
  - unfold has_char in *. simpl. by rewrite bool_decide_eq_false_2.
Qed.

Lemma split_on_none c s : has_char c s = false → split_on c s = [s].
Proof.
  unfold has_char. induction s as [|x s IH]; simpl; [done|]. intros H. bool_simpl.
  rewrite decide_False by done. by rewrite IH.
Qed.

Lemma split_on_app c a b :
  has_char c a = false →
  split_on c (a +:+ String c b) = a :: split_on c b.
Proof.
  unfold has_char. induction a as [|x a IH]; simpl; intros H.
  - by rewrite decide_True.
  - bool_simpl. rewrite decide_False by done. by rewrite IH.
Qed.

Lemma split_on_join (p : list string) :
  p ≠ [] → Forall (λ s, has_char slash s = false) p → split_on slash (join "/" p) = p.
Proof.
  intros Hne Hp. induction Hp as [|s p Hs Hp IH]; [done|].
  destruct p as [|s' p]; [by apply split_on_none|].
  change (join "/" (s :: s' :: p)) with (s +:+ String slash (join "/" (s' :: p))).
  rewrite split_on_app by done. by rewrite IH.
Qed.

Lemma component_normal s : normal_name s → component s = [Normal s].
Proof.
  intros (H1 & H2 & H3 & _). unfold component.
  rewrite decide_False by naive_solver. by rewrite decide_False.
Qed.

Lemma concat_components (p : list string) : Forall normal_name p → concat (map component p) = map Normal p.
Proof. induction 1 as [|s p Hs _ IH]; simpl; [done|]. by rewrite component_normal, IH. Qed.

Lemma components_join (p : list string) :
  p ≠ [] → Forall normal_name p → components (join "/" p) = map Normal p.
Proof.
  intros Hne Hp. unfold components. rewrite split_on_join; [|done|].
  2:{ eapply list.Forall_impl; [exact Hp|]. by intros s (_ & _ & _ & ?). }
  destruct p as [|s p]; [done|]. inversion Hp as [|? ? (H1 & H2 & _ & _) _]; subst.
  rewrite decide_False by naive_solver. rewrite decide_False by done. by apply concat_components.
Qed.

(** Whatever the text, a normal component is a name. *)
Lemma component_names s x : has_char slash s = false → Normal x ∈ component s → normal_name x.
Proof.
  intros Hs. unfold component. case_decide as H1; [intros H; by apply elem_of_nil in H|].
  case_decide as H2; intros [= ->]%list_elem_of_singleton. unfold normal_name.
  split_and!; [naive_solver..|done].
Qed.

Lemma components_names s x : Normal x ∈ components s → normal_name x.
Proof.
  unfold components. pose proof (split_on_no_char slash s) as Hs.
  destruct (split_on slash s) as [|seg rest]; [intros H; by apply elem_of_nil in H|].
  intros Hin. assert (Hb : Normal x ∈ concat (map component (seg :: rest))).
  { cbv zeta in Hin.
    destruct (decide (seg = "" ∧ rest ≠ [])); [|destruct (decide (seg = "."))]; [| |exact Hin];
      (apply elem_of_cons in Hin as [?|Hin]; [done|exact Hin]). }
  apply list_elem_of_In, in_concat in Hb as (l & Hl & Hx).
  apply in_map_iff in Hl as (y & <- & Hy). apply list_elem_of_In in Hx, Hy.
  rewrite list.Forall_forall in Hs. apply (component_names y); [by apply Hs|done].
Qed.

Lemma normal_names_ok s : Forall normal_name (normal_names (components s)).
Proof.
  apply list.Forall_forall. intros x (c & Hc & Hx)%list_elem_of_omap.
  destruct c; try done. injection Hx as ->. by apply (components_names s).
Qed.

Lemma normal_names_join (p : list string) :
  p ≠ [] → Forall normal_name p →
  is_safe_rel_path (join "/" p) = true ∧ normal_names (components (join "/" p)) = p.
Proof.
  intros Hne Hp. unfold is_safe_rel_path. rewrite components_join by done. split.
  - clear. induction p; [done|]. simpl. done.
  - clear. induction p as [|s p IH]; [done|]. simpl. f_equal. exact IH.
Qed.

(** ** Writing under the destination *)

Lemma write_file_ok target b t t' :
  write_file target b t = Ok t' → target ≠ [] ∧ t' = <[target := b]> t.
Proof. unfold write_file. intros E. repeat case_match_in E; try done. by injection E as <-. Qed.

(** No path is a directory of another. *)
Definition prefix_free (ps : list (list string)) : Prop :=
  ∀ a b, a ∈ ps → b ∈ ps → strict_prefix a b = false.

Lemma write_file_fits (target : list string) (b : bytes) (t : Tree) :
  target ≠ [] →
  (∀ k, is_Some (t !! k) → strict_prefix k target = false ∧ strict_prefix target k = false) →
  write_file target b t = Ok (<[target := b]> t).
Proof.
  intros Hne Hk. unfold write_file. rewrite decide_False by done.
  assert (Hex : existsb (λ e, strict_prefix (fst e) target || strict_prefix target (fst e))%bool
                  (map_to_list t) = false).
  { apply not_true_iff_false. rewrite existsb_exists. intros ([k v] & Hin & Hp).
    apply list_elem_of_In, elem_of_map_to_list in Hin. destruct (Hk k) as [H1 H2]; [eauto|].
    simpl in Hp. by rewrite H1, H2 in Hp. }
  by rewrite Hex.
Qed.

Section Unpack.
Context `{T : Tar} `{MJ : MetaJson}.
Implicit Types (dest : Tree).

(** Everything unpacking changes is a file named by plain names. *)
Lemma unpack_entries_inside es : ∀ meta reg dest r dest',
  unpack_entries es meta reg dest = (r, dest') →
  ∀ k, dest' !! k ≠ dest !! k → k ≠ [] ∧ Forall normal_name k.
Proof.
  induction es as [|[[name b]|e] es IH]; intros meta reg dest r dest' Hu k Hk; simpl in Hu;
    [by injection Hu as <- <-| |by injection Hu as <- <-].
  case_decide; [destruct (meta_from_slice b); [exact (IH _ _ _ _ _ Hu k Hk)|by injection Hu as <- <-]|].
  case_decide; [exact (IH _ _ _ _ _ Hu k Hk)|].
  destruct (strip_prefix FILES_PREFIX name) as [rel|]; [|exact (IH _ _ _ _ _ Hu k Hk)].
  destruct (negb (is_safe_rel_path rel)); [by injection Hu as <- <-|].
  destruct (write_file _ b dest) as [dest1|e] eqn:Ew; [|by injection Hu as <- <-].
  apply write_file_ok in Ew as [Hne ->].
  destruct (decide (k = normal_names (components rel))) as [->|Hd].
  - split; [done|]. apply normal_names_ok.
  - apply (IH _ _ _ _ _ Hu). by rewrite lookup_insert_ne.
Qed.

(** An archive that unpacks has only safe file entries. *)
Lemma unpack_entries_safe es : ∀ meta reg dest x dest',
  unpack_entries es meta reg dest = (Ok x, dest') →
  ∀ name b rel, Ok (name, b) ∈ es → strip_prefix FILES_PREFIX name = Some rel →
    name ≠ META_PATH → name ≠ REGISTRY_PATH → is_safe_rel_path rel = true.
Proof.
  induction es as [|[[name b]|e] es IH]; intros meta reg dest x dest' Hu n b' rel Hin Hs H1 H2;
    [by apply elem_of_nil in Hin| |done]. simpl in Hu.
  apply elem_of_cons in Hin as [[= -> ->]|Hin].
  - rewrite !decide_False in Hu by done. rewrite Hs in Hu.
    by destruct (is_safe_rel_path rel).
  - case_decide; [destruct (meta_from_slice b); [exact (IH _ _ _ _ _ Hu n b' rel Hin Hs H1 H2)|done]|].
    case_decide; [exact (IH _ _ _ _ _ Hu n b' rel Hin Hs H1 H2)|].
    destruct (strip_prefix FILES_PREFIX name); [|exact (IH _ _ _ _ _ Hu n b' rel Hin Hs H1 H2)].
    destruct (negb _); [done|]. destruct (write_file _ b dest); [exact (IH _ _ _ _ _ Hu n b' rel Hin Hs H1 H2)|done].
Qed.

Lemma files_prefix_names rel :
  FILES_PREFIX +:+ rel ≠ META_PATH ∧ FILES_PREFIX +:+ rel ≠ REGISTRY_PATH.
Proof. by split. Qed.

(** Unpacking the file entries of prefix-free, plain paths writes them all. *)
Lemma unpack_files meta reg (fs : list (list string * bytes)) : ∀ dest,
  (∀ p, p ∈ map fst fs → p ≠ [] ∧ Forall normal_name p) → prefix_free (map fst fs) →
  (∀ k p, is_Some (dest !! k) → p ∈ map fst fs → strict_prefix k p = false ∧ strict_prefix p k = false) →
  unpack_entries (map Ok (map (λ f, (FILES_PREFIX +:+ join "/" (fst f), snd f)) fs)) meta reg dest =
  (Ok (meta, reg), foldl (λ t f, <[fst f := snd f]> t) dest fs).
Proof.
  induction fs as [|[p b] fs IH]; intros dest Hp Hpf Hd; [done|]. cbn [map unpack_entries fst snd foldl].
  destruct (files_prefix_names (join "/" p)) as [H1 H2]. rewrite !decide_False by done.
  rewrite strip_prefix_app.
  destruct (Hp p) as [Hne Hn]; [apply list_elem_of_here|].
  destruct (normal_names_join p Hne Hn) as [-> ->]. simpl negb.
  rewrite write_file_fits; [|done|].
  2:{ intros k Hk. apply Hd; [done|apply list_elem_of_here]. }
  apply IH.
  - intros q Hq. apply Hp. by apply list_elem_of_further.
  - intros x y Hx Hy. apply Hpf; by apply list_elem_of_further.
  - intros k q Hk Hq. destruct (decide (k = p)) as [->|Hkp].
    + split; apply Hpf; simpl; auto using list_elem_of_here, list_elem_of_further.
    + rewrite lookup_insert_ne in Hk by done. apply Hd; [done|by apply list_elem_of_further].
Qed.

Lemma mapM_payload read_file (payload : list (list string * Path)) files :
  mapM (payload_entry read_file) (map (λ p, (join "/" (fst p), snd p)) payload) = Ok files →
  ∃ contents, Forall2 (λ p c, read_file (snd p) = Some c) payload contents ∧
    files = map (λ f, (FILES_PREFIX +:+ join "/" (fst f), snd f)) (zip (map fst payload) contents).
Proof.
  revert files. induction payload as [|[p src] payload IH]; intros files Hm; simpl in Hm.
  - injection Hm as <-. exists []. by split.
  - destruct (payload_entry read_file (join "/" p, src)) as [x|] eqn:Ex; [|done].
    unfold payload_entry in Ex. simpl in Ex.
    destruct (read_file src) as [c|] eqn:Er; [|done]. injection Ex as <-.
    simpl in Hm. destruct (mapM _ _) as [fs|] eqn:Em; [|done]. injection Hm as <-.
    destruct (IH fs eq_refl) as (cs & Hcs & ->). exists (c :: cs). split; [by constructor|done].
Qed.
End Unpack.

(** ** The round trip *)

Section RoundTrip.
Context `{T : Tar} `{!TarLaws} `{MJ : MetaJson} `{!MetaJsonLaws}.

Lemma unpack_pack (read_file : Path → option bytes) (meta : ArchiveMeta) (payload : list (list string * Path)) (reg : option bytes) (archive : bytes) (dest : Tree) :
  pack read_file meta (map (λ p, (join "/" (fst p), snd p)) payload) reg = Ok archive →
  (∀ p, p ∈ map fst payload → p ≠ [] ∧ Forall normal_name p) →
  NoDup (map fst payload) → prefix_free (map fst payload) →
  (∀ k p, is_Some (dest !! k) → p ∈ map fst payload → strict_prefix k p = false ∧ strict_prefix p k = false) →
  ∃ dest', unpack archive dest = (Ok {| up_meta := meta; up_registry := reg |}, dest') ∧
    (∀ p src, (p, src) ∈ payload → is_Some (dest' !! p) ∧ dest' !! p = read_file src) ∧
    (∀ k, k ∉ map fst payload → dest' !! k = dest !! k).
Proof.
  unfold pack. intros Hp Hnames Hnd Hpf Hfit.
  destruct (mapM (payload_entry read_file) _) as [files|] eqn:Em; [|done]. simpl in Hp.
  destruct (mapM_payload read_file payload files Em) as (cs & Hcs & ->).
  destruct (tar_write _) as [b|] eqn:Et; [|done]. injection Hp as <-.
  set (fs := zip (map fst payload) cs) in *.
  assert (Hfst : map fst fs = map fst payload).
  { unfold fs. apply fst_zip. rewrite length_map. rewrite (Forall2_length Hcs). lia. }
  exists (foldl (λ t f, <[fst f := snd f]> t) dest fs). split_and!.
  - unfold unpack. rewrite (tar_read_write _ _ Et), map_cons. cbn [unpack_entries].
    rewrite decide_True by done. rewrite meta_from_to, map_app.
    assert (Hu : ∀ r, unpack_entries (map Ok (map (λ f, (FILES_PREFIX +:+ join "/" (fst f), snd f)) fs)) (Some meta) r dest
                 = (Ok (Some meta, r), foldl (λ t f, <[fst f := snd f]> t) dest fs)).
    { intros r. apply unpack_files; by rewrite Hfst. }
    destruct reg as [r|]; simpl; rewrite Hu; done.
  - intros p src Hin. apply list_elem_of_lookup in Hin as [i Hi].
    destruct (Forall2_lookup_l _ _ _ _ _ Hcs Hi) as (c & Hc & Hr). simpl in Hr.
    rewrite (foldl_insert_lookup fst snd) by by rewrite Hfst.
    assert (Hf : (p, c) ∈ fs).
    { apply list_elem_of_lookup. exists i. unfold fs.
      apply lookup_zip_Some. split; [|done].
      by rewrite list_lookup_fmap, Hi. }
    assert (Hk : fetch_optional (λ r, bool_decide (fst r = p)) fs = Some (p, c)).
    { apply (fetch_key fst fs (p, c)); [by rewrite Hfst|done]. }
    rewrite Hk. simpl. rewrite Hr. eauto.
  - intros k Hk. rewrite (foldl_insert_lookup fst snd) by by rewrite Hfst.
    destruct (fetch_optional _ fs) as [[q c]|] eqn:Ef; [|done].
    apply fetch_optional_Some in Ef as [Hin Hq]. apply bool_decide_eq_true in Hq as <-.
    exfalso. apply Hk. rewrite <- Hfst. by apply list_elem_of_fmap_2.
Qed.
End RoundTrip.
