(* ===== verification/IpcFrame.v ===== *)
(** * savr-core: IPC frames (src/crates/savr-core/src/ipc.rs)

    [encode_frame], [write_frame] and [read_frame] over a byte stream that ends.
    serde_json is the class [Json] of the message type. *)

From S2P Require Import Prelude CoreTypes.

Definition MAX_FRAME : Z := 32 * 1024 * 1024.

Class Json (T : Type) := {
  to_vec : T → bytes;
  from_slice : bytes → option T;
}.
Class JsonLaws (T : Type) `{Json T} : Prop := {
  from_slice_to_vec (x : T) : from_slice (to_vec x) = Some x;
}.

Inductive IoError := Other (m : string) | UnexpectedEof | InvalidData.

(** [u32::to_le_bytes] and [u32::from_le_bytes]. *)
Definition byte_of (n : Z) : Byte.byte := default Byte.x00 (Byte.of_N (Z.to_N (n mod 256))).
Definition u32_to_le_bytes (n : Z) : bytes :=
  [byte_of n; byte_of (n / 256); byte_of (n / 65536); byte_of (n / 16777216)].
Definition u32_from_le_bytes (b : bytes) : Z :=
  foldr (λ x acc, (Z.of_N (Byte.to_N x) + 256 * acc)%Z) 0%Z b.

Section Frames.
Context {T : Type} `{J : Json T}.

(** [u32::try_from] of the length, then the bound. *)
Definition encode_frame (msg : T) : result IoError bytes :=
  let body := to_vec msg in
  let len := Z.of_nat (length body) in
  if decide (u32_max < len)%Z then Err (Other "frame too large")
  else if decide (MAX_FRAME < len)%Z then Err (Other "frame too large")
  else Ok (u32_to_le_bytes len ++ body).

(** Appends the frame to what the peer will read. *)
Definition write_frame (msg : T) (stream : bytes) : outcome bytes IoError unit :=
  match encode_frame msg with
  | Ok frame => (Ok tt, stream ++ frame)
  | Err e => (Err e, stream)
  end.

(** [read_exact]: all [n] bytes, or EOF with whatever was there consumed. *)
Definition read_exact (n : nat) (stream : bytes) : outcome bytes IoError bytes :=
  if decide (n <= length stream) then (Ok (take n stream), drop n stream)
  else (Err UnexpectedEof, []).

Definition read_frame (stream : bytes) : outcome bytes IoError (option T) :=
  match read_exact 4 stream with
  | (Err UnexpectedEof, s) => (Ok None, s)
  | (Err e, s) => (Err e, s)
  | (Ok len_buf, s) =>
    let len := u32_from_le_bytes len_buf in
    if decide (MAX_FRAME < len)%Z then (Err (Other "frame exceeds MAX_FRAME"), s)
    else match read_exact (Z.to_nat len) s with
         | (Err e, s') => (Err e, s')
         | (Ok body, s') =>
           (match from_slice body with Some m => Ok (Some m) | None => Err InvalidData end, s')
         end
  end.

(** Reading until the stream ends or fails, at most [fuel] frames. *)
Fixpoint read_frames (fuel : nat) (stream : bytes) : result IoError (list T) :=
  match fuel with
  | O => Ok []
  | S fuel =>
    match read_frame stream with
    | (Ok None, _) => Ok []
    | (Ok (Some m), rest) => l ← read_frames fuel rest; Ok (m :: l)
    | (Err e, _) => Err e
    end
  end.

(** ** The codec *)

Lemma byte_of_val n : Z.of_N (Byte.to_N (byte_of n)) = (n mod 256)%Z.
Proof.
  unfold byte_of. pose proof (Z.mod_pos_bound n 256 ltac:(lia)) as Hb.
  destruct (Byte.of_N (Z.to_N (n mod 256))) as [b|] eqn:E; simpl.
  - apply Byte.to_of_N in E. lia.
  - apply Byte.of_N_None_iff in E. lia.
Qed.

Lemma le_bytes_roundtrip n : (0 <= n <= u32_max)%Z → u32_from_le_bytes (u32_to_le_bytes n) = n.
Proof.
  unfold u32_max, u32_from_le_bytes, u32_to_le_bytes. intros Hn. simpl. rewrite !byte_of_val.
  Z.to_euclidean_division_equations. lia.
Qed.

Lemma read_exact_app n a rest : length a = n → read_exact n (a ++ rest) = (Ok a, rest).
Proof.
  intros <-. unfold read_exact. rewrite length_app, decide_True by lia.
  by rewrite take_app_length, drop_app_length.
Qed.

Lemma read_frame_encoded `{!JsonLaws T} (msg : T) frame rest :
  encode_frame msg = Ok frame → read_frame (frame ++ rest) = (Ok (Some msg), rest).
Proof.
  unfold encode_frame. intros E. case_decide as H1; [done|]. case_decide as H2; [done|].
  apply ok_inj in E as <-. unfold read_frame. rewrite <- app_assoc, read_exact_app by done.
  rewrite le_bytes_roundtrip by (unfold u32_max in *; lia). rewrite decide_False by done.
  rewrite Nat2Z.id, read_exact_app by done. by rewrite from_slice_to_vec.
Qed.

Lemma encode_frame_length msg frame :
  encode_frame msg = Ok frame → length frame = 4 + length (to_vec msg) ∧ (Z.of_nat (length frame) <= 4 + MAX_FRAME)%Z.
Proof.
  unfold encode_frame. intros E. repeat (case_decide; [done|]). injection E as <-. simpl. lia.
Qed.
End Frames.
