(* ===== verification/Manifest.v ===== *)
(** * savr-core: save locations (src/crates/savr-core/src/manifest.rs)

    [save_targets] of a manifest entry and [resolve], which expands the
    placeholders of a save-path template with the roots of the machine.
    serde_yaml, which parses the manifest text, is not modelled: an entry is the
    value it parses to. *)

From S2P Require Import Prelude CoreTypes.

Record When := { when_os : option string; when_store : option string }.
Record FileMeta := { fm_tags : list string; fm_when : option (list When) }.

Record ManifestEntry := {
  me_files : gmap string FileMeta;
  me_install_dir : list string;
  me_registry : gmap string FileMeta;
  me_steam : option Z;
}.

Definition save_targets (e : ManifestEntry) : list SaveTarget :=
  map (fun '(glob, meta) => {|
         st_glob := glob;
         st_tags := omap SaveTag_parse (fm_tags meta);
         st_os_hint := w ← fm_when meta; f ← head w; o ← when_os f; Os_parse o;
         st_registry := false |}) (btree_iter (me_files e)) ++
  map (fun '(key, meta) => {|
         st_glob := key;
         st_tags := omap SaveTag_parse (fm_tags meta);
         st_os_hint := Some Windows;
         st_registry := true |}) (btree_iter (me_registry e)).

(** Paths are their display text. *)
Record Roots := {
  home : string;
  win_app_data : option string;
  win_local_app_data : option string;
  win_documents : option string;
  xdg_data : option string;
  xdg_config : option string;
  os_user_name : option string;
  roots_os : Os;
}.

(** What the dirs crate answers. *)
Record Dirs := {
  home_dir : option string; config_dir : option string; data_local_dir : option string;
  document_dir : option string; data_dir : option string;
}.

Definition Roots_current (d : Dirs) (env : Environment) (target_os : string) : Roots := {|
  home := default "" (home_dir d);
  win_app_data := config_dir d;
  win_local_app_data := data_local_dir d;
  win_documents := document_dir d;
  xdg_data := data_dir d;
  xdg_config := config_dir d;
  os_user_name := match env "USER" with Some u => Some u | None => env "USERNAME" end;
  roots_os := Os_current target_os;
|}.

(** [str::contains] and [str::replace] of a non-empty needle, left to right. *)
Fixpoint contains (needle s : string) : bool :=
  match strip_prefix needle s with
  | Some _ => true
  | None => match s with EmptyString => false | String _ r => contains needle r end
  end.

(** [skip] characters still belong to the match just replaced. *)
Fixpoint replace_from (skip : nat) (needle v s : string) : string :=
  match s with
  | EmptyString => EmptyString
  | String c r =>
    match skip with
    | S k => replace_from k needle v r
    | O => match strip_prefix needle s with
           | Some _ => v +:+ replace_from (Nat.pred (String.length needle)) needle v r
           | None => String c (replace_from 0 needle v r)
           end
    end
  end.
Definition replace (needle v s : string) : string := replace_from 0 needle v s.

Definition subs (roots : Roots) (base : option string) : list (string * option string) := [
  ("<base>", base);
  ("<home>", Some (home roots));
  ("<winAppData>", win_app_data roots);
  ("<winLocalAppData>", win_local_app_data roots);
  ("<winDocuments>", win_documents roots);
  ("<xdgData>", xdg_data roots);
  ("<xdgConfig>", xdg_config roots);
  ("<osUserName>", os_user_name roots)
].

Fixpoint apply_subs (l : list (string * option string)) (out : string) : option string :=
  match l with
  | [] => Some out
  | (ph, val) :: rest =>
    if contains ph out then
      match val with Some v => apply_subs rest (replace ph v out) | None => None end
    else apply_subs rest out
  end.

Definition resolve_template (template : string) (roots : Roots) (base : option string) : option string :=
  out ← apply_subs (subs roots base) template;
  if contains "<" out then None else Some out.
