(* ===== verification/ManifestSpec.v ===== *)
(** * savr-core: what a save-path template resolves to

    A template is read as parts: text without an opening angle bracket, and
    placeholders.  The replacements [resolve] makes one after the other amount
    to expanding every placeholder once, in place. *)

From S2P Require Import Prelude CoreTypes Manifest Archive ArchiveSpec.

Definition langle : Ascii.ascii := Ascii.ascii_of_nat 60.

Inductive Part := Lit (s : string) | Ph (p : string).

#[export] Instance Part_eq_dec : EqDecision Part.
Proof. solve_decision. Defined.

Definition part_text (p : Part) : string := match p with Lit s => s | Ph p => p end.

Fixpoint text (ps : list Part) : string :=
  match ps with [] => "" | p :: ps => part_text p +:+ text ps end.

Definition PLACEHOLDERS : list string :=
  ["<base>"; "<home>"; "<winAppData>"; "<winLocalAppData>"; "<winDocuments>"; "<xdgData>";
   "<xdgConfig>"; "<osUserName>"].

Definition part_ok (p : Part) : Prop :=
  match p with Lit s => has_char langle s = false | Ph p => p ∈ PLACEHOLDERS end.

Lemma text_app a b : text (a ++ b) = text a +:+ text b.
Proof. induction a as [|p a IH]; [done|]. simpl. by rewrite IH, append_assoc. Qed.

(** ** One needle *)

Section Needle.
Context (n r : string) (Hn : n = String langle r) (Hr : has_char langle r = false).

Lemma strip_needle_lit c s : c ≠ langle → strip_prefix n (String c s) = None.
Proof. subst n. intros Hc. unfold strip_prefix. by rewrite decide_False. Qed.

Lemma replace_skip v a s : replace_from (String.length a) n v (a +:+ s) = replace n v s.
Proof. induction a as [|c a IH]; [done|]. rewrite append_cons. exact IH. Qed.

Lemma replace_lit v a s : has_char langle a = false → replace n v (a +:+ s) = a +:+ replace n v s.
Proof.
  unfold has_char, replace. induction a as [|c a IH]; intros H; [done|].
  rewrite !append_cons. simpl in *. bool_simpl. rewrite strip_needle_lit by done. by rewrite IH.
Qed.

Lemma contains_lit a s : has_char langle a = false → contains n (a +:+ s) = contains n s.
Proof.
  unfold has_char. induction a as [|c a IH]; intros H; [done|].
  rewrite append_cons. simpl in *. bool_simpl. rewrite strip_needle_lit by done. by apply IH.
Qed.

Lemma replace_hit v s : replace n v (n +:+ s) = v +:+ replace n v s.
Proof.
  pose proof (strip_prefix_app n s) as Hs. pose proof (replace_skip v r s) as Hk.
  assert (Hlen : Nat.pred (String.length n) = String.length r) by by rewrite Hn.
  assert (E : n +:+ s = String langle (r +:+ s)) by by rewrite Hn.
  rewrite E in *. unfold replace at 1. cbn [replace_from]. by rewrite Hs, Hlen, Hk.
Qed.

Lemma contains_hit s : contains n (n +:+ s) = true.
Proof.
  pose proof (strip_prefix_app n s) as Hs.
  assert (E : n +:+ s = String langle (r +:+ s)) by by rewrite Hn.
  rewrite E in *. cbn [contains]. by rewrite Hs.
Qed.

Lemma replace_other v q rq s :
  q = String langle rq → has_char langle rq = false → strip_prefix n (q +:+ s) = None →
  replace n v (q +:+ s) = q +:+ replace n v s.
Proof.
  intros -> Hq Hs. rewrite !append_cons in *. unfold replace at 1. cbn [replace_from]. rewrite Hs.
  f_equal. by apply replace_lit.
Qed.

Lemma contains_other q rq s :
  q = String langle rq → has_char langle rq = false → strip_prefix n (q +:+ s) = None →
  contains n (q +:+ s) = contains n s.
Proof.
  intros -> Hq Hs. rewrite append_cons in *. cbn [contains]. rewrite Hs. by apply contains_lit.
Qed.
End Needle.

(** The placeholders open with a bracket, hold no other, and none is a prefix
    of another. *)
Lemma placeholder_shape p : p ∈ PLACEHOLDERS → ∃ r, p = String langle r ∧ has_char langle r = false.
Proof.
  unfold PLACEHOLDERS. rewrite !elem_of_cons.
  intros Hp. repeat (destruct Hp as [->|Hp]; [eexists; split; reflexivity|]). by apply elem_of_nil in Hp.
Qed.

Lemma placeholder_other p q s :
  p ∈ PLACEHOLDERS → q ∈ PLACEHOLDERS → p ≠ q → strip_prefix p (q +:+ s) = None.
Proof.
  unfold PLACEHOLDERS. rewrite !elem_of_cons. intros Hp Hq Hne.
  repeat (destruct Hp as [->|Hp];
    [repeat (destruct Hq as [->|Hq]; [first [reflexivity|by destruct Hne]|]); by apply elem_of_nil in Hq|]).
  by apply elem_of_nil in Hp.
Qed.

(** ** All of them in turn *)

Definition subst_part (ph v : string) (p : Part) : Part :=
  match p with Lit s => Lit s | Ph q => if decide (q = ph) then Lit v else Ph q end.

Lemma replace_text ph v ps :
  ph ∈ PLACEHOLDERS → Forall part_ok ps → replace ph v (text ps) = text (map (subst_part ph v) ps).
Proof.
  intros Hph Hps. destruct (placeholder_shape ph Hph) as (r & Hr & Hno).
  induction Hps as [|p ps Hp _ IH]; [done|].
  destruct p as [s|q]; cbn [text part_text map subst_part part_ok] in *.
  - by rewrite (replace_lit ph r Hr), IH.
  - destruct (decide (q = ph)) as [->|Hne]; [by rewrite (replace_hit ph r Hr), IH|].
    destruct (placeholder_shape q Hp) as (rq & Hrq & Hnoq).
    rewrite (replace_other ph r Hr v q rq); [by rewrite IH|done..|].
    apply placeholder_other; congruence.
Qed.

Lemma contains_text ph ps :
  ph ∈ PLACEHOLDERS → Forall part_ok ps → contains ph (text ps) = bool_decide (Ph ph ∈ ps).
Proof.
  intros Hph Hps. destruct (placeholder_shape ph Hph) as (r & Hr & Hno).
  induction Hps as [|p ps Hp _ IH].
  - rewrite bool_decide_eq_false_2 by apply not_elem_of_nil. by rewrite Hr.
  - simpl. destruct p as [s|q]; simpl in *.
    + rewrite (contains_lit ph r Hr), IH by done. apply bool_decide_ext.
      rewrite elem_of_cons. naive_solver.
    + destruct (decide (q = ph)) as [->|Hne].
      * rewrite (contains_hit ph r Hr). symmetry. apply bool_decide_eq_true_2, list_elem_of_here.
      * destruct (placeholder_shape q Hp) as (rq & Hrq & Hnoq).
        rewrite (contains_other ph r Hr q rq); [|done..|apply placeholder_other; congruence].
        rewrite IH. apply bool_decide_ext. rewrite elem_of_cons. naive_solver.
Qed.

(** What one part becomes under the remaining substitutions. *)
Definition assoc (p : string) (l : list (string * option string)) : option (option string) :=
  snd <$> fetch_optional (λ x, bool_decide (fst x = p)) l.

Definition step_part (l : list (string * option string)) (p : Part) : option Part :=
  match p with
  | Lit s => Some (Lit s)
  | Ph p => match assoc p l with
            | Some (Some v) => Some (Lit v)
            | Some None => None
            | None => Some (Ph p)
            end
  end.

Lemma mapM_subst ph v l ps :
  mapM (step_part l) (map (subst_part ph v) ps) = mapM (step_part ((ph, Some v) :: l)) ps.
Proof.
  induction ps as [|p ps IH]; [done|]. simpl. rewrite IH. f_equal. unfold subst_part.
  destruct p as [s|q]; [done|]. unfold step_part, assoc, fetch_optional.
  destruct (decide (q = ph)) as [->|Hne]; simpl.
  - by rewrite bool_decide_eq_true_2.
  - by rewrite bool_decide_eq_false_2 by congruence.
Qed.

Lemma mapM_absent ph val l ps :
  Ph ph ∉ ps → mapM (step_part ((ph, val) :: l)) ps = mapM (step_part l) ps.
Proof.
  induction ps as [|p ps IH]; intros Hni; [done|]. rewrite not_elem_of_cons in Hni.
  destruct Hni as [Hne Hni]. simpl. rewrite IH by done. f_equal.
  destruct p as [s|q]; [done|]. simpl. unfold assoc. simpl.
  rewrite bool_decide_eq_false_2 by congruence. done.
Qed.

Lemma mapM_missing ph l ps : Ph ph ∈ ps → mapM (step_part ((ph, None) :: l)) ps = None.
Proof.
  induction ps as [|p ps IH]; intros Hin; [by apply elem_of_nil in Hin|]. simpl.
  destruct (decide (p = Ph ph)) as [->|Hne].
  - simpl. unfold assoc. simpl. by rewrite bool_decide_eq_true_2.
  - apply elem_of_cons in Hin as [?|Hin]; [congruence|]. rewrite IH by done.
    by destruct (step_part _ p).
Qed.

Lemma apply_subs_text l : ∀ ps,
  Forall (λ x, fst x ∈ PLACEHOLDERS ∧ ∀ v, snd x = Some v → has_char langle v = false) l →
  Forall part_ok ps → apply_subs l (text ps) = text <$> mapM (step_part l) ps.
Proof.
  induction l as [|[ph val] l IH]; intros ps Hl Hps; simpl.
  - assert (mapM (step_part []) ps = Some ps) as ->; [|done].
    clear. induction ps as [|p ps IH]; [done|]. simpl. rewrite IH. by destruct p.
  - apply list.Forall_cons in Hl as [[Hph Hv] Hl]. simpl in *.
    rewrite contains_text by done. case_bool_decide as Hin.
    + destruct val as [v|]; [|by rewrite mapM_missing].
      rewrite replace_text, IH by (done || (apply list.Forall_fmap; eapply list.Forall_impl; [exact Hps|];
        intros p Hp; unfold compose; destruct p; simpl in *; [done|case_decide; simpl; auto])).
      by rewrite mapM_subst.
    + rewrite IH by done. by rewrite mapM_absent.
Qed.

Lemma no_langle_contains s : has_char langle s = false → contains "<" s = false.
Proof.
  unfold has_char. induction s as [|c s IH]; intros H; simpl in *; [done|]. bool_simpl.
  rewrite (strip_needle_lit "<" "" eq_refl) by done. by apply IH.
Qed.

Lemma has_char_app c a b : has_char c (a +:+ b) = has_char c a || has_char c b.
Proof.
  unfold has_char. induction a as [|x a IH]; [done|]. rewrite append_cons. simpl. by rewrite IH, orb_assoc.
Qed.
