(* ===== verification/CoreInstances.v ===== *)
(** * Concrete instances of savr-core's third-party interfaces

    One executable function for each of the glob, tar, zstd and serde_json
    operations that the archive, the frames and the snapshots call, with the
    laws assumed of them. *)

From stdpp Require Import countable.
From S2P Require Import Prelude CoreTypes Instances Snapshot Archive IpcFrame.

(** ** Two bits of a positive to a byte *)

Fixpoint pos_bytes (p : positive) : bytes :=
  match p with
  | xH => [Byte.x00]
  | xO xH => [Byte.x01]
  | xI xH => [Byte.x02]
  | xO (xO p) => Byte.x03 :: pos_bytes p
  | xO (xI p) => Byte.x04 :: pos_bytes p
  | xI (xO p) => Byte.x05 :: pos_bytes p
  | xI (xI p) => Byte.x06 :: pos_bytes p
  end.
Fixpoint bytes_pos (b : bytes) : option positive :=
  match b with
  | [Byte.x00] => Some xH
  | [Byte.x01] => Some 2%positive
  | [Byte.x02] => Some 3%positive
  | Byte.x03 :: r => (λ p, xO (xO p)) <$> bytes_pos r
  | Byte.x04 :: r => (λ p, xO (xI p)) <$> bytes_pos r
  | Byte.x05 :: r => (λ p, xI (xO p)) <$> bytes_pos r
  | Byte.x06 :: r => (λ p, xI (xI p)) <$> bytes_pos r
  | _ => None
  end.

Lemma bytes_pos_bytes p : bytes_pos (pos_bytes p) = Some p.
Proof.
  revert p. fix IH 1. intros [[p|p|]|[p|p|]|]; cbn [pos_bytes bytes_pos]; rewrite ?IH; reflexivity.
Qed.

Definition to_bytes {A} `{Countable A} (x : A) : bytes := pos_bytes (encode x).
Definition of_bytes {A} `{Countable A} (b : bytes) : option A := bytes_pos b ≫= decode.

Lemma of_to_bytes {A} `{Countable A} (x : A) : of_bytes (to_bytes x) = Some x.
Proof. unfold of_bytes, to_bytes. rewrite bytes_pos_bytes. simpl. apply decode_encode. Qed.

(** ** Entries as chunks: every byte behind a mark, then an end mark *)

Definition chunk (b : bytes) : bytes := concat (map (λ x, [Byte.x01; x]) b) ++ [Byte.x00].

Fixpoint read_chunk (b : bytes) : option (bytes * bytes) :=
  match b with
  | Byte.x00 :: r => Some ([], r)
  | Byte.x01 :: x :: r => '(c, rest) ← read_chunk r; Some (x :: c, rest)
  | _ => None
  end.

Lemma read_chunk_app b rest : read_chunk (chunk b ++ rest) = Some (b, rest).
Proof.
  unfold chunk. induction b as [|x b IH]; [done|]. cbn [map concat app read_chunk]. simpl in IH. by rewrite IH.
Qed.

Definition write_entries (es : list (string * bytes)) : bytes :=
  concat (map (λ e, chunk (String.list_byte_of_string (fst e)) ++ chunk (snd e)) es).

Fixpoint read_entries (fuel : nat) (b : bytes) : option (list (string * bytes)) :=
  match fuel, b with
  | _, [] => Some []
  | O, _ => None
  | S fuel, _ =>
    '(name, b) ← read_chunk b; '(content, b) ← read_chunk b;
    (cons (String.string_of_list_byte name, content)) <$> read_entries fuel b
  end.

Lemma chunk_cons b : ∃ x r, chunk b = x :: r.
Proof. destruct b; by repeat eexists. Qed.

Lemma read_entries_ok es fuel : length es <= fuel → read_entries fuel (write_entries es) = Some es.
Proof.
  revert fuel. induction es as [|[n c] es IH]; intros fuel Hf; [by destruct fuel|].
  destruct fuel as [|fuel]; [simpl in Hf; lia|]. unfold write_entries. cbn [map concat fst snd].
  rewrite <- app_assoc. destruct (chunk_cons (String.list_byte_of_string n)) as (x & r & Hx).
  pose proof (read_chunk_app (String.list_byte_of_string n)
    (chunk c ++ concat (map (λ e, chunk (String.list_byte_of_string (fst e)) ++ chunk (snd e)) es))) as Hr.
  rewrite Hx. rewrite Hx in Hr. cbn [app read_entries]. cbn [app] in Hr. rewrite Hr. simpl.
  rewrite read_chunk_app. simpl. fold (write_entries es). rewrite IH by (simpl in Hf; lia). simpl.
  by rewrite String.string_of_list_byte_of_string.
Qed.

Lemma write_entries_length es : length es <= length (write_entries es).
Proof.
  induction es as [|[n c] es IH]; [done|]. unfold write_entries in *. cbn [map concat].
  destruct (chunk_cons (String.list_byte_of_string (fst (n, c)))) as (x & r & ->).
  rewrite !length_app. simpl. lia.
Qed.

(** ** Countable wire types *)

#[export] Instance hash_countable : Countable Blake3Hash.
Proof.
  refine (inj_countable hash_bits (λ n, Some (mk_hash n)) _). intros h. f_equal.
  destruct h as [n Hn]. apply Blake3Hash_eq. simpl.
  pose proof Hn as Hlt. apply Is_true_true, N.ltb_lt in Hlt. by apply N.mod_small.
Defined.

#[export] Instance FileEntry_countable : Countable FileEntry.
Proof.
  refine (inj_countable' (λ f, (rel_path f, size f, mtime f, hash f))
            (λ '(p, s, m, h), {| rel_path := p; size := s; mtime := m; hash := h |}) _).
  by intros [].
Defined.

#[export] Instance VersionKind_countable : Countable VersionKind.
Proof.
  refine (inj_countable' (λ k, bool_decide (k = Full)) (λ b, if b then Full else Differential) _).
  by intros [].
Defined.

#[export] Instance ArchiveMeta_eq_dec : EqDecision ArchiveMeta.
Proof. solve_decision. Defined.
#[export] Instance ArchiveMeta_countable : Countable ArchiveMeta.
Proof.
  refine (inj_countable'
    (λ m, (am_game_id m, am_device_id m, am_parent m, am_kind m, am_created_at m, am_deletions m, am_files m))
    (λ '(g, d, p, k, t, x, f), {| am_game_id := g; am_device_id := d; am_parent := p; am_kind := k;
       am_files := f; am_deletions := x; am_created_at := t |}) _).
  by intros [].
Defined.

(** ** The instances *)

#[export] Instance toy_Tar : Tar := {|
  tar_write es := Some (write_entries es);
  tar_read b := match read_entries (length b) b with Some es => map Ok es | None => [Err EIo] end;
|}.
#[export] Instance toy_TarLaws : TarLaws.
Proof. constructor. intros es b [= <-]. simpl. by rewrite read_entries_ok by apply write_entries_length. Qed.

#[export] Instance toy_MetaJson : MetaJson := {| meta_to_vec := to_bytes; meta_from_slice := of_bytes |}.
#[export] Instance toy_MetaJsonLaws : MetaJsonLaws.
Proof. constructor. intros m. apply of_to_bytes. Qed.

#[export] Instance toy_Json {A} `{Countable A} : Json A := {| to_vec := to_bytes; from_slice := of_bytes |}.
#[export] Instance toy_JsonLaws {A} `{Countable A} : JsonLaws A.
Proof. constructor. intros x. apply of_to_bytes. Qed.

(** A pattern is the one absolute path it spells; an exclude matches itself. *)
#[export] Instance toy_Glob : Glob := {|
  glob_paths pat := if decide (pat = "[") then None
    else Some ["/" :: List.filter (λ x, negb (bool_decide (x = "" ∨ x = "."))) (tail (split_on slash pat))];
  pattern_new pat := negb (bool_decide (pat = "["));
  pattern_matches pat rel := bool_decide (pat = rel);
|}.
