(* ===== verification/CoreTheorems.v ===== *)
(** * savr-core: theorems about snapshots, archives, frames and templates *)

From S2P Require Import Prelude CoreTypes Instances Snapshot SnapshotSpec Archive ArchiveSpec IpcFrame Manifest ManifestSpec CoreInstances.

(** ** Snapshots *)

Section Snapshots.
Context `{B3 : Blake3} `{G : Glob}.

(** C38. A snapshot lists, once each and in path order, exactly the regular
    files at or below a path that one of the patterns matches whose relative
    path no well-formed exclude pattern matches, each with the size, mtime and
    hash of a file found there. *)
Theorem snapshot_records_matched_files root now game_id patterns excludes anchor sn :
  build root now game_id patterns excludes anchor = Ok sn →
  let out := excluded (List.filter pattern_new excludes) in
  NoDup (map rel_path (sn_files sn)) ∧
  StronglySorted (λ a b, string_le a b = true) (map rel_path (sn_files sn)) ∧
  (∀ f, f ∈ sn_files sn → out (rel_path f) = false ∧
     ∃ q m b, matched root patterns q m b ∧ f = file_entry (snapshot_rel_path q anchor) m b) ∧
  (∀ q m b, matched root patterns q m b → out (snapshot_rel_path q anchor) = false →
     snapshot_rel_path q anchor ∈ map rel_path (sn_files sn)).
Proof. apply build_files. Qed.
End Snapshots.

(** A save directory with one excluded file. *)
Definition save_tree : Node :=
  DirN [("/", DirN [("s", DirN [("a", FileN 1 [Byte.x41]); ("d", DirN [("b", FileN 2 [Byte.x42; Byte.x43])]);
                               ("log", FileN 3 [])])])].

Lemma snapshot_records_matched_files_witness :
  ∃ sn, build save_tree 0 7%N ["/s"] ["log"; "["] ["/"; "s"] = Ok sn ∧ map rel_path (sn_files sn) = ["a"; "d/b"] ∧
    NoDup (map rel_path (sn_files sn)).
Proof.
  destruct (build save_tree 0 7%N ["/s"] ["log"; "["] ["/"; "s"]) as [sn|e] eqn:E;
    [|vm_compute in E; discriminate E].
  exists sn. split; [reflexivity|]. split; [|exact (proj1 (snapshot_records_matched_files _ _ _ _ _ _ sn E))].
  vm_compute in E. injection E as <-. reflexivity.
Defined.

(** C18. A diff is the change: it names only files that are new or whose hash
    differs and paths that are gone, its patch of the old content is the new
    content, and it is empty exactly when the contents agree. *)
Theorem diff_is_the_change old new :
  NoDup (map rel_path (sn_files old)) → NoDup (map rel_path (sn_files new)) →
  (∀ f, f ∈ changed (diff old new) ↔
     f ∈ sn_files new ∧ content (sn_files old) !! rel_path f ≠ Some (hash f)) ∧
  (∀ p, p ∈ deleted (diff old new) ↔ p ∈ map rel_path (sn_files old) ∧ p ∉ map rel_path (sn_files new)) ∧
  patch (diff old new) (content (sn_files old)) = content (sn_files new) ∧
  (diff_is_empty (diff old new) = true ↔ content (sn_files old) = content (sn_files new)).
Proof.
  intros Ho Hn. split_and!; [|intros p; by apply deleted_iff|by apply patch_diff|by apply diff_is_empty_iff].
  intros f. simpl. rewrite elem_of_filter_bool, content_lookup, by_path_lookup by done.
  destruct (fetch_optional _ _) as [o|]; simpl; [|by split; intros [??]].
  rewrite negb_true_iff, bool_decide_eq_false. split; intros [? Hne]; split; congruence.
Qed.

Definition fe (p : string) (n : N) : FileEntry := {| rel_path := p; size := 1; mtime := 0; hash := mk_hash n |}.
Definition sn_of (l : list FileEntry) : Snapshot := {| sn_game_id := 7%N; sn_files := l; taken_at := 0 |}.

Lemma diff_is_the_change_witness :
  let old := sn_of [fe "a" 1; fe "b" 2; fe "c" 3] in let new := sn_of [fe "a" 1; fe "b" 5; fe "d" 4] in
  patch (diff old new) (content (sn_files old)) = content (sn_files new) ∧
  changed (diff old new) = [fe "b" 5; fe "d" 4] ∧ deleted (diff old new) = ["c"].
Proof.
  intros old new. split; [|by split; vm_compute].
  apply (diff_is_the_change old new); apply (bool_decide_unpack _); by vm_compute.
Defined.

(** ** Archives *)

Section Archives.
Context `{T : Tar} `{!TarLaws} `{MJ : MetaJson} `{!MetaJsonLaws}.

(** C10. Unpacking undoes packing.  An archive packed from files with plain,
    distinct paths, none a directory of another, unpacks into a destination
    they fit in: the manifest and registry export come back, every file has the
    bytes that were read when packing, and nothing else there changes. *)
Theorem unpack_undoes_pack (read_file : Path → option bytes) (meta : ArchiveMeta) (payload : list (list string * Path)) (reg : option bytes) (archive : bytes) (dest : Tree) :
  pack read_file meta (map (λ p, (join "/" (fst p), snd p)) payload) reg = Ok archive →
  (∀ p, p ∈ map fst payload → p ≠ [] ∧ Forall normal_name p) →
  NoDup (map fst payload) → prefix_free (map fst payload) →
  (∀ k p, is_Some (dest !! k) → p ∈ map fst payload → strict_prefix k p = false ∧ strict_prefix p k = false) →
  ∃ dest', unpack archive dest = (Ok {| up_meta := meta; up_registry := reg |}, dest') ∧
    (∀ p src, (p, src) ∈ payload → is_Some (dest' !! p) ∧ dest' !! p = read_file src) ∧
    (∀ k, k ∉ map fst payload → dest' !! k = dest !! k).
Proof. intros. by apply unpack_pack. Qed.

(** C22. Unpacking stays inside the destination.  Whatever the archive holds
    and wherever it stops, the files it creates or changes are at non-empty
    paths of plain names, with no root, ["."] or [".."] among them; and an
    archive with a [files/] entry whose path is not of that form is refused. *)
Theorem unpack_stays_inside input dest :
  let '(r, dest') := unpack input dest in
  (∀ k, dest' !! k ≠ dest !! k → k ≠ [] ∧ Forall normal_name k) ∧
  (∀ name b rel, Ok (name, b) ∈ tar_read input → strip_prefix FILES_PREFIX name = Some rel →
     is_safe_rel_path rel = false → is_ok r = false).
Proof.
  unfold unpack. destruct (unpack_entries (tar_read input) None None dest) as [r dest'] eqn:E. split.
  - intros k Hk. by apply (unpack_entries_inside _ _ _ _ _ _ E).
  - intros name b rel Hin Hs Hsafe. destruct r as [x|e]; [|done]. exfalso.
    assert (Hn : name ≠ META_PATH ∧ name ≠ REGISTRY_PATH).
    { split; intros ->; by vm_compute in Hs. }
    destruct Hn as [H1 H2].
    pose proof (unpack_entries_safe _ _ _ _ _ _ E name b rel Hin Hs H1 H2). congruence.
Qed.
End Archives.

Definition toy_meta : ArchiveMeta := {|
  am_game_id := 7%N; am_device_id := 1%N; am_parent := None; am_kind := Full;
  am_files := [fe "a" 1]; am_deletions := []; am_created_at := 0;
|}.
Definition toy_files (p : Path) : option bytes :=
  if decide (p = ["x"]) then Some [Byte.x41] else if decide (p = ["y"]) then Some [] else None.

Lemma unpack_stays_inside_witness :
  is_ok (fst (unpack (write_entries [("files/../x", [Byte.x00])]) ∅)) = false.
Proof.
  pose proof (unpack_stays_inside (write_entries [("files/../x", [Byte.x00])]) ∅) as Hs.
  destruct (unpack _ _) as [r dest']. destruct Hs as [_ Hr].
  apply (Hr "files/../x" [Byte.x00] "../x"); [|reflexivity|by vm_compute].
  vm_compute. apply list_elem_of_here.
Defined.

Lemma unpack_undoes_pack_witness :
  ∃ archive dest', pack toy_files toy_meta [("a", ["x"]); ("d/b", ["y"])] (Some [Byte.x7b]) = Ok archive ∧
    unpack archive {[ ["old"] := [] ]} = (Ok {| up_meta := toy_meta; up_registry := Some [Byte.x7b] |}, dest') ∧
    dest' !! ["d"; "b"] = Some [].
Proof.
  set (payload := [(["a"], ["x"]); (["d"; "b"], ["y"])] : list (list string * Path)).
  destruct (pack toy_files toy_meta (map (λ p, (join "/" (fst p), snd p)) payload) (Some [Byte.x7b]))
    as [archive|] eqn:E; [|vm_compute in E; discriminate E].
  destruct (unpack_undoes_pack toy_files toy_meta payload (Some [Byte.x7b]) archive {[ ["old"] := [] ]} E)
    as (dest' & Hu & Hf & _).
  - intros p Hp. simpl in Hp. rewrite !elem_of_cons in Hp.
    destruct Hp as [->|[->|Hp]]; [split; [done|by repeat constructor]..|by apply elem_of_nil in Hp].
  - apply (bool_decide_unpack _). by vm_compute.
  - intros a b Ha Hb. simpl in Ha, Hb. rewrite !elem_of_cons in Ha, Hb.
    destruct Ha as [->|[->|Ha]]; [| |by apply elem_of_nil in Ha];
      (destruct Hb as [->|[->|Hb]]; [done|done|by apply elem_of_nil in Hb]).
  - intros k p Hk Hp. destruct (decide (k = ["old"])) as [->|Hne].
    + simpl in Hp. rewrite !elem_of_cons in Hp.
      destruct Hp as [->|[->|Hp]]; [done|done|by apply elem_of_nil in Hp].
    + rewrite lookup_singleton_ne in Hk by done. by destruct Hk.
  - exists archive, dest'. split; [exact E|]. split; [exact Hu|].
    destruct (Hf ["d"; "b"] ["y"]) as [_ ->]; [apply list_elem_of_further, list_elem_of_here|reflexivity].
Defined.

(** ** Frames *)

Section Frames.
Context {M : Type} `{J : Json M} `{!JsonLaws M}.

(** What is written is what is read: encoding succeeds exactly for a body
    of at most [MAX_FRAME] bytes, and reading a stream of encoded frames until
    it ends yields the messages in order, whatever comes of the rest. *)
Theorem frames_roundtrip (msgs : list M) frames rest :
  mapM encode_frame msgs = Ok frames →
  (∀ m, is_ok (encode_frame m) = bool_decide (Z.of_nat (length (to_vec m)) <= MAX_FRAME)%Z) ∧
  ∀ fuel, read_frames (length msgs + fuel) (concat frames ++ rest) = (app msgs) <$> read_frames fuel rest.
Proof.
  intros Hm. split.
  - intros m. unfold encode_frame, MAX_FRAME, u32_max.
    case_bool_decide; repeat case_decide; simpl; done || lia.
  - intros fuel. revert frames Hm. induction msgs as [|m msgs IH]; intros frames Hm; simpl in Hm.
    + injection Hm as <-. simpl. by destruct (read_frames fuel rest).
    + destruct (encode_frame m) as [f|] eqn:Ef; [|done]. simpl in Hm.
      destruct (mapM encode_frame msgs) as [fs|] eqn:Em; [|done]. injection Hm as <-.
      simpl. rewrite <- app_assoc, (read_frame_encoded m f _ Ef), (IH fs eq_refl).
      by destruct (read_frames fuel rest).
Qed.

(** A header cut short reads as a clean end of the stream: with one, two or
    three bytes left [read_frame] consumes them and answers [Ok None], just as
    at a true end, while a body cut short is an error. *)
Theorem truncated_header_reads_as_end (stream : bytes) :
  (length stream < 4 → read_frame (T := M) stream = (Ok None, [])) ∧
  (∀ n body, (0 <= n <= MAX_FRAME)%Z → (Z.of_nat (length body) < n)%Z →
     fst (read_frame (T := M) (u32_to_le_bytes n ++ body)) = Err UnexpectedEof).
Proof.
  split.
  - intros Hl. unfold read_frame, read_exact. by rewrite decide_False by lia.
  - intros n body Hn Hb. unfold read_frame. rewrite read_exact_app by done.
    rewrite le_bytes_roundtrip by (unfold u32_max, MAX_FRAME in *; lia).
    rewrite decide_False by lia. unfold read_exact. by rewrite decide_False by lia.
Qed.
End Frames.

Lemma truncated_header_reads_as_end_witness :
  read_frame (T := bool) [Byte.x02; Byte.x00] = (Ok None, []) ∧
  fst (read_frame (T := bool) (u32_to_le_bytes 2 ++ [Byte.x01])) = Err UnexpectedEof.
Proof.
  split.
  - apply (truncated_header_reads_as_end (M := bool)). simpl. lia.
  - apply (truncated_header_reads_as_end (M := bool) []); simpl; unfold MAX_FRAME; lia.
Defined.

Lemma frames_roundtrip_witness :
  ∃ frames, mapM (encode_frame (T := string)) ["hi"; "there"] = Ok frames ∧
    read_frames 3 (concat frames) = Ok ["hi"; "there"].
Proof.
  destruct (mapM (encode_frame (T := string)) ["hi"; "there"]) as [frames|] eqn:E; [|vm_compute in E; discriminate E].
  exists frames. split; [reflexivity|].
  pose proof (proj2 (frames_roundtrip ["hi"; "there"] frames [] E) 1) as H. rewrite app_nil_r in H. exact H.
Defined.

(** ** Save-path templates *)

(** The value of a placeholder, and what a part of the template becomes. *)
Definition placeholder_value (roots : Roots) (base : option string) (p : string) : option string :=
  mjoin (assoc p (subs roots base)).
Definition expand (roots : Roots) (base : option string) (p : Part) : option string :=
  match p with Lit s => Some s | Ph q => placeholder_value roots base q end.

Lemma subs_known roots base p : p ∈ PLACEHOLDERS → is_Some (assoc p (subs roots base)).
Proof.
  unfold PLACEHOLDERS. rewrite !elem_of_cons. intros Hp.
  repeat (destruct Hp as [->|Hp]; [eexists; reflexivity|]). by apply elem_of_nil in Hp.
Qed.

Lemma subs_placeholders roots base x : x ∈ subs roots base → fst x ∈ PLACEHOLDERS.
Proof.
  unfold subs, PLACEHOLDERS. rewrite !elem_of_cons. intros Hx.
  repeat (destruct Hx as [->|Hx]; [simpl; tauto|]). by apply elem_of_nil in Hx.
Qed.

Lemma assoc_elem p l v : assoc p l = Some v → (p, v) ∈ l.
Proof.
  unfold assoc. destruct (fetch_optional _ l) as [[q w]|] eqn:E; intros [= ->].
  apply fetch_optional_Some in E as [Hin Hq]. apply bool_decide_eq_true in Hq as <-. done.
Qed.

Lemma mapM_expand roots base ps :
  Forall part_ok ps → mapM (step_part (subs roots base)) ps = map Lit <$> mapM (expand roots base) ps.
Proof.
  induction 1 as [|p ps Hp _ IH]; [done|]. simpl. rewrite IH.
  destruct p as [s|q]; cbn [expand step_part].
  - simpl. by destruct (mapM (expand roots base) ps).
  - destruct (subs_known roots base q Hp) as [[v|] Hv]; unfold placeholder_value; rewrite Hv; simpl; [|done].
    by destruct (mapM (expand roots base) ps).
Qed.

Lemma text_lits vs : text (map Lit vs) = String.concat "" vs.
Proof.
  induction vs as [|v vs IH]; [done|]. simpl. rewrite IH.
  destruct vs as [|w vs]; [|done]. simpl. induction v as [|c v IHv]; [done|]. by rewrite append_cons, IHv.
Qed.

(** A template resolves by expanding each placeholder in place.  Written as
    literal text and the eight known placeholders, with no angle bracket in the
    literals or the values, it resolves to the texts joined, or to [None]
    exactly when the value of a placeholder it holds is missing. *)
Theorem resolve_template_expands roots base (ps : list Part) :
  Forall part_ok ps →
  (∀ p v, (p, Some v) ∈ subs roots base → has_char langle v = false) →
  resolve_template (text ps) roots base = String.concat "" <$> mapM (expand roots base) ps.
Proof.
  intros Hps Hv. unfold resolve_template. rewrite apply_subs_text, mapM_expand; [|done| |done].
  2:{ apply list.Forall_forall. intros [p v] Hx. split; [by apply (subs_placeholders roots base (p, v))|].
      simpl. intros w ->. by apply (Hv p). }
  destruct (mapM (expand roots base) ps) as [vs|] eqn:Em; [|done]. simpl. rewrite text_lits.
  rewrite no_langle_contains; [done|]. rewrite <- text_lits. revert vs Em.
  induction Hps as [|p ps Hp _ IH]; intros vs Em; simpl in Em; [by injection Em as <-|].
  destruct (expand roots base p) as [v|] eqn:Ev; [|done]. simpl in Em.
  destruct (mapM (expand roots base) ps) as [ws|]; [|done]. injection Em as <-. simpl.
  rewrite has_char_app, (IH ws eq_refl), orb_false_r. destruct p as [s|q]; [by injection Ev as <-|].
  cbn [expand] in Ev. unfold placeholder_value in Ev.
  destruct (assoc q (subs roots base)) as [w|] eqn:Eq; [|done]. simpl in Ev. subst w.
  apply assoc_elem in Eq. by apply (Hv q).
Qed.

Definition linux_roots : Roots := {|
  home := "/home/u"; win_app_data := None; win_local_app_data := None; win_documents := None;
  xdg_data := Some "/home/u/.local/share"; xdg_config := Some "/home/u/.config";
  os_user_name := Some "u"; roots_os := Linux;
|}.

Lemma resolve_template_expands_witness :
  resolve_template "<home>/saves/<osUserName>.dat" linux_roots None = Some "/home/u/saves/u.dat" ∧
  resolve_template "<winAppData>/x" linux_roots None = None.
Proof.
  assert (Hv : ∀ p v, (p, Some v) ∈ subs linux_roots None → has_char langle v = false).
  { intros p v Hin. unfold subs in Hin. rewrite !elem_of_cons in Hin.
    repeat (destruct Hin as [[= -> ->]|Hin] || (destruct Hin as [?|Hin]; [done|])); try done.
    by apply elem_of_nil in Hin. }
  split.
  - exact (resolve_template_expands linux_roots None [Ph "<home>"; Lit "/saves/"; Ph "<osUserName>"; Lit ".dat"]
      ltac:(repeat constructor; apply (bool_decide_unpack _); by vm_compute) Hv).
  - exact (resolve_template_expands linux_roots None [Ph "<winAppData>"; Lit "/x"]
      ltac:(repeat constructor; apply (bool_decide_unpack _); by vm_compute) Hv).
Defined.
