(* ===== verification/LocalState.v ===== *)
(** * savr-daemon: local state (src/crates/savr-daemon/src/state.rs, naming.rs)

    The daemon's own SQLite database, a field per table.  A table whose key is
    looked up is a finite map, one whose order matters the list of its rows.
    Rows hold values where the program stores their JSON, RFC 3339 or UUID text,
    except in [meta], whose values the program reads as text, and in the outbox,
    whose payload is opaque bytes.  Statements do not fail. *)

From Stdlib Require Import DecimalString DecimalFacts DecimalN.
From S2P Require Import Prelude CoreTypes Snapshot Archive.

(** ** naming.rs *)

Definition is_ascii_alphanumeric (c : Ascii.ascii) : bool :=
  let n := Ascii.nat_of_ascii c in
  ((48 <=? n) && (n <=? 57) || (65 <=? n) && (n <=? 90) || (97 <=? n) && (n <=? 122))%bool.
Definition to_ascii_lowercase (c : Ascii.ascii) : Ascii.ascii :=
  let n := Ascii.nat_of_ascii c in
  if ((65 <=? n) && (n <=? 90))%bool then Ascii.ascii_of_nat (n + 32) else c.

Fixpoint normalize_title (s : string) : string :=
  match s with
  | EmptyString => EmptyString
  | String c r =>
    if is_ascii_alphanumeric c then String (to_ascii_lowercase c) (normalize_title r)
    else normalize_title r
  end.

(** ** Text of numbers: [u32::to_string] and [str::parse::<u32>] *)

Definition u32_to_string (n : N) : string := NilZero.string_of_uint (N.to_uint n).
Definition u32_parse (s : string) : option N :=
  d ← NilZero.uint_of_string (default s (strip_prefix "+" s));
  let n := N.of_uint d in
  if decide (Z.of_N n <= u32_max)%Z then Some n else None.

(** The text forms meta values have: chrono's RFC 3339 and serde_json's. *)
Class TextForm (A : Type) := {
  to_str : A → string;
  from_str : string → option A;
}.
Class TextFormLaws (A : Type) `{TextForm A} : Prop := {
  from_to_str (x : A) : from_str (to_str x) = Some x;
}.

(** ** Rows *)

Record StoredSnapshot := {
  ss_files : list FileEntry;
  ss_taken_at : DateTime;
  local_head : option VersionId;
}.
Record PlayRow := {
  session_start : option DateTime;
  last_played : option DateTime;
  last_session_secs : option Z;
  total_secs : Z;
}.
Record PlayStat := {
  ps_last_played : option DateTime;
  ps_last_session_secs : option Z;
  ps_total_secs : Z;
}.
Record CustomGame := {
  cg_title : string;
  cg_install_path : option string;
  cg_save_root : string;
  include : list string;
  exclude : list string;
}.
(** A row of [custom_games]: the globs joined by newlines. *)
Record CustomRow := {
  norm_title : string;
  cr_title : string;
  cr_install_path : option string;
  cr_save_root : string;
  include_glob : string;
  exclude_glob : string;
}.
Record OutboxRow := {
  ob_version_id : VersionId;
  ob_payload : bytes;
  ob_attempts : Z;
  next_retry : option DateTime;
}.
Record OutboxItem := { oi_version_id : VersionId; oi_payload : bytes; oi_attempts : Z }.

Inductive RootKind := SteamRoot | Drive | Emulator | Launcher.
Record RootRow := { rt_id : Uuid; rt_kind : string; rt_path : string }.
Record Root := { root_id : Uuid; root_kind : RootKind; root_path : string }.

Record LocalState := {
  local_snapshots : gmap GameId StoredSnapshot;
  exe_index : gmap string (GameId * Z);
  outbox : list OutboxRow;
  roots : list RootRow;
  meta : gmap string string;
  play_stats : gmap GameId PlayRow;
  custom_games : list CustomRow;
}.

(** A new database. *)
Definition LocalState_open : LocalState := {|
  local_snapshots := ∅; exe_index := ∅; outbox := []; roots := []; meta := ∅; play_stats := ∅;
  custom_games := [] |}.

Definition with_snapshots s (st : LocalState) : LocalState :=
  {| local_snapshots := s; exe_index := exe_index st; outbox := outbox st; roots := roots st;
     meta := meta st; play_stats := play_stats st; custom_games := custom_games st |}.
Definition with_exe_index x (st : LocalState) : LocalState :=
  {| local_snapshots := local_snapshots st; exe_index := x; outbox := outbox st; roots := roots st;
     meta := meta st; play_stats := play_stats st; custom_games := custom_games st |}.
Definition with_outbox o (st : LocalState) : LocalState :=
  {| local_snapshots := local_snapshots st; exe_index := exe_index st; outbox := o; roots := roots st;
     meta := meta st; play_stats := play_stats st; custom_games := custom_games st |}.
Definition with_roots r (st : LocalState) : LocalState :=
  {| local_snapshots := local_snapshots st; exe_index := exe_index st; outbox := outbox st; roots := r;
     meta := meta st; play_stats := play_stats st; custom_games := custom_games st |}.
Definition with_meta m (st : LocalState) : LocalState :=
  {| local_snapshots := local_snapshots st; exe_index := exe_index st; outbox := outbox st; roots := roots st;
     meta := m; play_stats := play_stats st; custom_games := custom_games st |}.
Definition with_play_stats p (st : LocalState) : LocalState :=
  {| local_snapshots := local_snapshots st; exe_index := exe_index st; outbox := outbox st; roots := roots st;
     meta := meta st; play_stats := p; custom_games := custom_games st |}.
Definition with_custom_games c (st : LocalState) : LocalState :=
  {| local_snapshots := local_snapshots st; exe_index := exe_index st; outbox := outbox st; roots := roots st;
     meta := meta st; play_stats := play_stats st; custom_games := c |}.

(** ** Snapshots *)

Definition get_snapshot (game_id : GameId) (st : LocalState) : option StoredSnapshot :=
  local_snapshots st !! game_id.

Definition put_snapshot (game_id : GameId) (files : list FileEntry) (taken_at : DateTime)
    (head : option VersionId) (st : LocalState) : LocalState :=
  with_snapshots (<[game_id := {| ss_files := files; ss_taken_at := taken_at; local_head := head |}]>
                    (local_snapshots st)) st.

Definition set_local_head (game_id : GameId) (head : VersionId) (st : LocalState) : LocalState :=
  with_snapshots (alter (λ s, {| ss_files := ss_files s; ss_taken_at := ss_taken_at s; local_head := Some head |})
                    game_id (local_snapshots st)) st.

(** ** Exe index *)

Definition load_exe_rows (st : LocalState) : list (string * GameId * Z) :=
  map (λ '(k, (g, c)), (k, g, c)) (map_to_list (exe_index st)).

Definition replace_exe_index (rows : list (string * GameId * Z)) (st : LocalState) : LocalState :=
  with_exe_index (foldl (λ m '(k, g, c), <[k := (g, c)]> m) ∅ rows) st.

(** ** Outbox *)

Definition is_item (id : VersionId) (r : OutboxRow) : bool := bool_decide (ob_version_id r = id).

(** [INSERT OR REPLACE]: a row of the same id is removed first. *)
Definition enqueue_outbox (id : VersionId) (payload : bytes) (retry : DateTime) (st : LocalState) : LocalState :=
  let attempts := match fetch_optional (is_item id) (outbox st) with Some r => ob_attempts r | None => 0%Z end in
  with_outbox (List.filter (λ r, negb (is_item id r)) (outbox st) ++
               [{| ob_version_id := id; ob_payload := payload; ob_attempts := attempts;
                   next_retry := Some retry |}]) st.

Definition due (now : DateTime) (r : OutboxRow) : bool :=
  match next_retry r with None => true | Some t => bool_decide (t <= now)%Z end.

(** [ORDER BY next_retry ASC]: SQLite puts NULL first. *)
Definition retry_le (a b : OutboxRow) : Prop :=
  match next_retry a, next_retry b with
  | None, _ => True
  | Some _, None => False
  | Some x, Some y => (x <= y)%Z
  end.
#[export] Instance retry_le_dec : RelDecision retry_le.
Proof. intros a b. unfold retry_le. destruct (next_retry a), (next_retry b); apply _. Defined.

Definition due_outbox (now : DateTime) (st : LocalState) : list OutboxItem :=
  map (λ r, {| oi_version_id := ob_version_id r; oi_payload := ob_payload r; oi_attempts := ob_attempts r |})
    (merge_sort retry_le (List.filter (due now) (outbox st))).

Definition bump_outbox_attempt (id : VersionId) (retry : DateTime) (st : LocalState) : LocalState :=
  with_outbox (update_where (is_item id)
    (λ r, {| ob_version_id := ob_version_id r; ob_payload := ob_payload r;
             ob_attempts := (ob_attempts r + 1)%Z; next_retry := Some retry |}) (outbox st)) st.

Definition remove_outbox (id : VersionId) (st : LocalState) : LocalState :=
  with_outbox (List.filter (λ r, negb (is_item id r)) (outbox st)) st.

Definition outbox_count (st : LocalState) : Z := Z.of_nat (length (outbox st)) mod (u32_max + 1).

(** ** Roots *)

Definition root_kind_str (k : RootKind) : string :=
  match k with SteamRoot => "steam" | Drive => "drive" | Emulator => "emulator" | Launcher => "launcher" end.
Definition root_kind_from_str (s : string) : RootKind :=
  if decide (s = "drive") then Drive
  else if decide (s = "emulator") then Emulator
  else if decide (s = "launcher") then Launcher
  else SteamRoot.

(** [id] is the UUID minted for the root. *)
Definition add_root (id : Uuid) (kind : RootKind) (path : string) (st : LocalState) : Root * LocalState :=
  ({| root_id := id; root_kind := kind; root_path := path |},
   with_roots (roots st ++ [{| rt_id := id; rt_kind := root_kind_str kind; rt_path := path |}]) st).

Definition remove_root (id : Uuid) (st : LocalState) : LocalState :=
  with_roots (List.filter (λ r, negb (bool_decide (rt_id r = id))) (roots st)) st.

Definition path_le (a b : RootRow) : Prop := string_le (rt_path a) (rt_path b) = true.
#[export] Instance path_le_dec : RelDecision path_le := λ a b, bool_eq_dec (string_le (rt_path a) (rt_path b)) true.

Definition list_roots (st : LocalState) : list Root :=
  map (λ r, {| root_id := rt_id r; root_kind := root_kind_from_str (rt_kind r); root_path := rt_path r |})
    (merge_sort path_le (roots st)).

(** ** Meta *)

Definition get_meta (key : string) (st : LocalState) : option string := meta st !! key.
Definition set_meta (key value : string) (st : LocalState) : LocalState :=
  with_meta (<[key := value]> (meta st)) st.

Section Meta.
Context `{TD : TextForm DateTime} `{TC : TextForm SyncedConfig}.

Definition synced_config (st : LocalState) : result string (option SyncedConfig) :=
  match get_meta "synced_config" st with
  | Some json => c ← ok_or (from_str json) "synced_config"; Ok (Some c)
  | None => Ok None
  end.
Definition set_synced_config (c : SyncedConfig) (st : LocalState) : LocalState :=
  set_meta "synced_config" (to_str c) st.

Definition last_backup_at (st : LocalState) : result string (option DateTime) :=
  match get_meta "last_backup_at" st with
  | Some s => t ← ok_or (from_str s) "last_backup_at"; Ok (Some t)
  | None => Ok None
  end.
Definition set_last_backup_at (t : DateTime) (st : LocalState) : LocalState :=
  set_meta "last_backup_at" (to_str t) st.
End Meta.

(** ** Play stats *)

Definition nanos : Z := 1000000000.

(** [ON CONFLICT DO UPDATE] leaves the columns it does not name. *)
Definition play_start (game_id : GameId) (at_ : DateTime) (st : LocalState) : LocalState :=
  let row := match play_stats st !! game_id with
    | Some r => {| session_start := Some at_; last_played := Some at_;
                   last_session_secs := last_session_secs r; total_secs := total_secs r |}
    | None => {| session_start := Some at_; last_played := Some at_;
                 last_session_secs := None; total_secs := 0 |}
    end in
  with_play_stats (<[game_id := row]> (play_stats st)) st.

(** [Duration::num_seconds] truncates towards zero. *)
Definition session_secs (started ended : DateTime) : Z := Z.max 0 (Z.quot (ended - started) nanos).

Definition play_stop (game_id : GameId) (at_ : DateTime) (st : LocalState) : LocalState :=
  let row := match play_stats st !! game_id with
    | Some r =>
      match session_start r with
      | Some started =>
        let secs := session_secs started at_ in
        {| session_start := None; last_played := Some at_; last_session_secs := Some secs;
           total_secs := (total_secs r + secs)%Z |}
      | None => {| session_start := session_start r; last_played := Some at_;
                   last_session_secs := last_session_secs r; total_secs := total_secs r |}
      end
    | None => {| session_start := None; last_played := Some at_; last_session_secs := None; total_secs := 0 |}
    end in
  with_play_stats (<[game_id := row]> (play_stats st)) st.

Definition close_orphaned_sessions (st : LocalState) : LocalState :=
  with_play_stats ((λ r, {| session_start := None; last_played := last_played r;
                            last_session_secs := last_session_secs r; total_secs := total_secs r |})
                   <$> play_stats st) st.

Definition play_stats_all (st : LocalState) : gmap GameId PlayStat :=
  (λ r, {| ps_last_played := last_played r; ps_last_session_secs := last_session_secs r;
           ps_total_secs := total_secs r |}) <$> play_stats st.

(** ** Custom games *)

Definition newline : Ascii.ascii := Ascii.ascii_of_nat 10.
Definition carriage : Ascii.ascii := Ascii.ascii_of_nat 13.

(** A carriage return before the newline belongs to the line's end. *)
Fixpoint chomp (s : string) : string :=
  match s with
  | EmptyString => EmptyString
  | String c EmptyString => if decide (c = carriage) then EmptyString else s
  | String c r => String c (chomp r)
  end.

(** [str::lines], of which the program keeps the non-empty ones: the last line
    keeps a carriage return that no newline follows. *)
Fixpoint lines_of (segments : list string) : list string :=
  match segments with
  | [] => []
  | [last] => [last]
  | s :: rest => chomp s :: lines_of rest
  end.
Definition split_globs (s : string) : list string :=
  List.filter (λ l, negb (bool_decide (l = ""))) (lines_of (split_on newline s)).

Definition join_lines (l : list string) : string := join (String newline "") l.

Definition add_custom_game (g : CustomGame) (st : LocalState) : outcome LocalState string unit :=
  let norm := normalize_title (cg_title g) in
  if decide (norm = "") then (Err "game title must contain letters or digits", st)
  else if existsb (λ r, bool_decide (norm_title r = norm)) (custom_games st)
  then (Err ("a game named '" +:+ cg_title g +:+ "' is already added"), st)
  else (Ok tt, with_custom_games (custom_games st ++
          [{| norm_title := norm; cr_title := cg_title g; cr_install_path := cg_install_path g;
              cr_save_root := cg_save_root g; include_glob := join_lines (include g);
              exclude_glob := join_lines (exclude g) |}]) st).

Definition title_le (a b : CustomRow) : Prop := string_le (cr_title a) (cr_title b) = true.
#[export] Instance title_le_dec : RelDecision title_le := λ a b, bool_eq_dec (string_le (cr_title a) (cr_title b)) true.

Definition read_custom (r : CustomRow) : CustomGame := {|
  cg_title := cr_title r; cg_install_path := cr_install_path r; cg_save_root := cr_save_root r;
  include := split_globs (include_glob r); exclude := split_globs (exclude_glob r) |}.

Definition list_custom_games (st : LocalState) : list CustomGame :=
  map read_custom (merge_sort title_le (custom_games st)).

Definition remove_custom_game (norm : string) (st : LocalState) : LocalState :=
  with_custom_games (List.filter (λ r, negb (bool_decide (norm_title r = norm))) (custom_games st)) st.

(** ** Decimal text reads back *)

Lemma u32_parse_to_string n : (Z.of_N n <= u32_max)%Z → u32_parse (u32_to_string n) = Some n.
Proof.
  intros Hn. unfold u32_parse, u32_to_string.
  assert (Hp : strip_prefix "+" (NilZero.string_of_uint (N.to_uint n)) = None).
  { by destruct (N.to_uint n). }
  rewrite Hp. simpl. rewrite NilZero.usu.
  - simpl. rewrite DecimalN.Unsigned.of_to. by rewrite decide_True.
  - intros E. apply (f_equal N.of_uint) in E as E'. rewrite DecimalN.Unsigned.of_to in E'. simpl in E'.
    by subst n.
Qed.
