(* ===== verification/Client.v ===== *)
(** * savr-daemon: the REST client (src/crates/savr-daemon/src/client.rs)

    [ServerClient] over any server: the class [Server] is one HTTP exchange, so
    the client's theorems hold for every server that keeps its laws, and the
    server of this development is one instance ([World]).  The JSON both sides
    exchange is the values of the shared wire types; a reply whose body is not of
    the expected type fails to decode. *)

From S2P Require Import Prelude CoreTypes ServerError Auth Hub Blobs ServerDb ServerGc ServerApi.

(** What the daemon's [anyhow::Error] carries; [Hang] stands for a call that
    does not return. *)
Inductive AnyError :=
  | Hang
  | Transport
  | BadStatus (s : Z)
  | BadBody
  | NotPaired
  | CreateFailed (s : Z)
  | FileError
  | CoreErr (e : CoreError)
  | Bail (m : string).

(** A fallible step on a state. *)
Definition M (S A : Type) : Type := S → outcome S AnyError A.

#[export] Instance M_ret S : MRet (M S) := λ _ a s, (Ok a, s).
#[export] Instance M_bind S : MBind (M S) := λ _ _ f m s,
  match m s with
  | (Ok a, s') => f a s'
  | (Err e, s') => (Err e, s')
  end.

Definition fail {S A} (e : AnyError) : M S A := λ s, (Err e, s).
Definition gets {S A} (f : S → A) : M S A := λ s, (Ok (f s), s).
Definition modify {S} (f : S → S) : M S unit := λ s, (Ok tt, f s).
Definition of_option {S A} (o : option A) (e : AnyError) : M S A := λ s, (ok_or o e, s).

Lemma M_bind_ok {S A B} (m : M S A) (f : A → M S B) s b s' :
  (m ≫= f) s = (Ok b, s') → ∃ a s1, m s = (Ok a, s1) ∧ f a s1 = (Ok b, s').
Proof.
  unfold mbind, M_bind. destruct (m s) as [[a|e] s1] eqn:E; [|done]. eauto.
Qed.

(** ** One exchange *)

Record HttpResponse := { h_status : Z; h_body : result ApiError Body }.

Definition http_of (r : result ApiError Response) : HttpResponse :=
  match r with
  | Ok x => {| h_status := resp_status x; h_body := Ok (resp_body x) |}
  | Err e => {| h_status := status e; h_body := Err e |}
  end.

Class Server (St : Type) := {
  send : option string → Request → St → outcome St AnyError HttpResponse;
}.

(** What a client may rely on of a reply to [POST /versions]: the version it
    describes is the one that was sent. *)
Definition made_from (game : GameId) (req : CreateVersion) (v : Version) : Prop :=
  v_game_id v = game ∧ v_parent v = cv_parent req ∧ v_kind v = cv_kind req ∧
  v_files v = cv_files req ∧ v_blob_hash v = cv_blob_hash req ∧ v_device_id v = cv_device_id req.

Class ServerLaws (St : Type) `{Server St} : Prop := {
  send_created header game req s resp s' v :
    send header (Device (PostVersion game req)) s = (Ok resp, s') →
    h_body resp = Ok (BVersion v) → made_from game req v;
  send_conflict header game req s resp s' e hd v :
    send header (Device (PostVersion game req)) s = (Ok resp, s') →
    h_body resp = Err e → detail e = TipsDetail hd v → made_from game req v;
  send_error header req s e s' : send header req s = (Err e, s') → e = Transport;
}.

(** ** The client *)

Record Credentials := { cred_device_id : DeviceId; cred_account_id : Uuid; refresh_secret : string }.
Record ServerClient := { access : option string; creds : option Credentials }.
Definition ServerClient_new : ServerClient := {| access := None; creds := None |}.

Definition set_credentials (c : Credentials) (cl : ServerClient) : ServerClient :=
  {| access := access cl; creds := Some c |}.
Definition set_access_token (t : string) (cl : ServerClient) : ServerClient :=
  {| access := Some t; creds := creds cl |}.
Definition is_authenticated (cl : ServerClient) : bool := bool_decide (is_Some (access cl)).

Inductive CreateOutcome :=
  | Created (v : Version)
  | ConflictOutcome (head : option Version) (incoming : Version).

(** [reqwest::Response::error_for_status]. *)
Definition error_for_status (r : HttpResponse) : result AnyError HttpResponse :=
  if bool_decide (400 <= h_status r < 600)%Z then Err (BadStatus (h_status r)) else Ok r.

(** [resp.json::<A>()]. *)
Definition json_as {A} (f : Body → option A) (r : HttpResponse) : result AnyError A :=
  match h_body r with
  | Ok b => ok_or (f b) BadBody
  | Err _ => Err BadBody
  end.

Section Client.
Context {St : Type} `{SV : Server St}.

Definition Net : Type := ServerClient * St.

Definition http_send (header : option string) (req : Request) : M Net HttpResponse := λ n,
  let '(r, s') := send header req (snd n) in (r, (fst n, s')).

(** The Authorization header of the current token. *)
Definition bearer_of (cl : ServerClient) : option string := (λ t, "Bearer " +:+ t) <$> access cl.

Definition lift_result {A} (r : result AnyError A) : M Net A := λ n, (r, n).

Definition client_pair (code device_name : string) (os : Os) : M Net (DeviceId * AccountId * string * string) :=
  resp ← http_send None (Pair {| pr_code := code; pr_device_name := device_name; pr_os := os |});
  resp ← lift_result (error_for_status resp);
  p ← lift_result (json_as (λ b, match b with BPair d a r t _ => Some (d, a, r, t) | _ => None end) resp);
  let '(d, a, r, t) := p in
  _ ← modify (λ n, ({| access := Some t;
        creds := Some {| cred_device_id := d; cred_account_id := a; refresh_secret := r |} |}, snd n));
  mret (d, a, r, t).

Definition client_refresh : M Net unit :=
  cl ← gets fst;
  c ← of_option (creds cl) NotPaired;
  resp ← http_send None (Refresh {| rf_device_id := cred_device_id c; rf_refresh_secret := refresh_secret c |});
  resp ← lift_result (error_for_status resp);
  t ← lift_result (json_as (λ b, match b with BToken t _ => Some t | _ => None end) resp);
  modify (λ n, (set_access_token t (fst n), snd n)).

(** The request with the bearer of the moment. *)
Definition send_once (req : Request) : M Net HttpResponse :=
  cl ← gets fst;
  http_send (bearer_of cl) req.

(** After a 401: refresh once, and send again only if that worked. *)
Definition retry_once (req : Request) (resp : HttpResponse) : M Net HttpResponse := λ n,
  match client_refresh n with
  | (Ok _, n') => send_once req n'
  | (Err _, n') => (Ok resp, n')
  end.

Definition send_authed (req : Request) : M Net HttpResponse :=
  resp ← send_once req;
  if negb (bool_decide (h_status resp = 401%Z)) then mret resp else retry_once req resp.

(** An authenticated call whose body is decoded. *)
Definition call {A} (req : Request) (f : Body → option A) : M Net A :=
  resp ← send_authed req;
  resp ← lift_result (error_for_status resp);
  lift_result (json_as f resp).

Definition client_ensure_game (title : string) (appid : option Z) : M Net GameRow :=
  call (Device (EnsureGame {| eg_title := title; eg_steam_appid := appid |}))
    (λ b, match b with BGame g => Some g | _ => None end).

Definition client_get_head (game : GameId) : M Net HeadResponse :=
  call (Device (GetHead game)) (λ b, match b with BHead h => Some h | _ => None end).

Definition client_list_versions (game : GameId) : M Net (list Version) :=
  call (Device (ListVersions game)) (λ b, match b with BVersions l => Some l | _ => None end).

Definition as_version (b : Body) : option Version := match b with BVersion v => Some v | _ => None end.

Definition read_create (resp : HttpResponse) : result AnyError CreateOutcome :=
  if bool_decide (h_status resp = 201%Z ∨ h_status resp = 200%Z) then Created <$> json_as as_version resp
  else if bool_decide (h_status resp = 409%Z) then
    match h_body resp with
    | Err e => match detail e with
               | TipsDetail hd incoming => Ok (ConflictOutcome hd incoming)
               | _ => Err BadBody
               end
    | Ok _ => Err BadBody
    end
  else Err (CreateFailed (h_status resp)).

Definition client_create_version (game : GameId) (req : CreateVersion) : M Net CreateOutcome :=
  resp ← send_authed (Device (PostVersion game req));
  lift_result (read_create resp).

Definition client_resolve_conflict (game : GameId) (req : ResolveRequest) : M Net unit :=
  resp ← send_authed (Device (Resolve game req));
  _ ← lift_result (error_for_status resp);
  mret tt.

Definition client_get_config : M Net SyncedConfig :=
  call (Device GetConfig) (λ b, match b with BConfig c => Some c | _ => None end).

Definition client_put_config (cfg : SyncedConfig) : M Net SyncedConfig :=
  call (Device (PutConfig cfg)) (λ b, match b with BConfig c => Some c | _ => None end).

Context `{B3 : Blake3}.

(** [StatusCode::is_success]. *)
Definition client_blob_exists (h : Blake3Hash) : M Net bool :=
  resp ← send_authed (Device (HeadBlob (to_hex h)));
  mret (bool_decide (200 <= h_status resp < 300)%Z).

(** [file] is what the archive's path holds. *)
Definition client_blob_put_file (h : Blake3Hash) (file : option bytes) : M Net unit :=
  b ← of_option file FileError;
  resp ← send_authed (Device (PutBlob (to_hex h) [Ok b]));
  _ ← lift_result (error_for_status resp);
  mret tt.

(** The bytes that end in the destination file. *)
Definition client_blob_get (h : Blake3Hash) : M Net bytes :=
  call (Device (GetBlob (to_hex h))) (λ b, match b with BBlob x => Some x | _ => None end).
End Client.
#[global] Arguments Net : clear implicits.

(** ** This development's server over a faulty link *)

Section World.
Context `{B3 : Blake3} `{A2 : Argon2} `{J : Jwt} `{U : UuidText}.

(** What becomes of the next exchange: served, served but the answer is lost,
    or never delivered; or another client is served first. *)
Inductive Link :=
  | Served (env : Env)
  | Lost (env : Env)
  | Down
  | Before (env : Env) (header : option string) (req : Request).

Record World := { w_app : AppState; w_links : list Link }.

Fixpoint exchange (header : option string) (req : Request) (app : AppState) (links : list Link)
    : outcome World AnyError HttpResponse :=
  match links with
  | [] => (Err Transport, {| w_app := app; w_links := [] |})
  | Served env :: rest =>
    let '(r, app') := build_app env header req app in (Ok (http_of r), {| w_app := app'; w_links := rest |})
  | Lost env :: rest =>
    (Err Transport, {| w_app := snd (build_app env header req app); w_links := rest |})
  | Down :: rest => (Err Transport, {| w_app := app; w_links := rest |})
  | Before env h r :: rest => exchange header req (snd (build_app env h r app)) rest
  end.

#[export] Instance world_server : Server World := {|
  send header req w := exchange header req (w_app w) (w_links w);
|}.
End World.
