(* ===== verification/ClientSpec.v ===== *)
(** * savr-daemon: what the client may rely on

    The laws of [Server] hold of this development's server over any link, and
    they carry over to the client's calls, whichever token ends up used. *)

From S2P Require Import Prelude CoreTypes ServerError Auth Hub Blobs ServerDb ServerGc ServerApi DbWf VersionSpec Client.

(** ** The server keeps the laws *)

Section ServerSide.
Context `{B3 : Blake3} `{!Blake3Laws} `{A2 : Argon2} `{J : Jwt} `{U : UuidText}.

Lemma bind_detail {A B} (r : result ApiError A) (f : A → result ApiError B) e :
  (∀ e, r = Err e → detail e = NoDetail) → (∀ a e, f a = Err e → detail e = NoDetail) →
  r ≫= f = Err e → detail e = NoDetail.
Proof. intros Hr Hf. destruct r as [a|e']; simpl; [apply Hf|]. intros [= ->]. by apply Hr. Qed.

Lemma ok_or_detail {A} (o : option A) e e' : detail e = NoDetail → ok_or o e = Err e' → detail e' = NoDetail.
Proof. intros He. destruct o; simpl; congruence. Qed.

Lemma load_version_detail id d e : load_version id d = Err e → detail e = NoDetail.
Proof.
  apply bind_detail; [intros e'; by apply ok_or_detail|]. intros r e'. unfold row_to_version, from_hex.
  by destruct (blake3_from_hex _); [done|intros [= <-]].
Qed.

Lemma create_version_detail account game req id now d e d' :
  create_version account game req id now d = (Err e, d') → detail e = NoDetail.
Proof.
  unfold create_version. destruct (create_version_tx _ _ _ _ _ _) as [[[adv prev] d1]|e1] eqn:Htx.
  - intros [= Hr _]. revert Hr. apply bind_detail; [apply load_version_detail|].
    intros inc e'. destruct adv; [done|]. destruct prev; [|done].
    apply bind_detail; [apply load_version_detail|done].
  - intros [= <- _]. unfold create_version_tx in Htx. revert Htx.
    apply bind_detail; [|intros d1 e'; apply bind_detail; [intros e2; by apply ok_or_detail|]].
    + intros e'. unfold insert_version. destruct (existsb _ _); [by intros [= <-]|].
      destruct (negb _); by intros [= <-].
    + intros h e2. apply bind_detail; [|by intros [??]]. intros e3. unfold cas_head.
      destruct (_ && _)%bool; by intros [= <-].
Qed.

Lemma kind_roundtrip k : kind_of_str (kind_to_str k) = k.
Proof. by destruct k. Qed.

Lemma fetch_snoc_new {R} (p : R → bool) l r :
  (∀ x, x ∈ l → p x = false) → p r = true → fetch_optional p (l ++ [r]) = Some r.
Proof.
  intros Hl Hr. unfold fetch_optional. induction l as [|x l IH]; simpl; [by rewrite Hr|].
  rewrite (Hl x) by apply list_elem_of_here. apply IH. intros y Hy. apply Hl. by apply list_elem_of_further.
Qed.

Lemma authed_detail env header app e : authed env header app = Err e → detail e = NoDetail.
Proof.
  unfold authed. apply bind_detail.
  - intros e'. unfold bearer. apply bind_detail; [intros ?; by apply ok_or_detail|].
    intros v e2. destruct (strip_prefix _ v); simpl; by intros [= <-].
  - intros t e'. apply bind_detail.
    + intros e2. unfold verify_access. destruct (jwt_decode _ _ _ _ ≫= _); [|by intros [= <-]].
      case_decide; by intros [= <-].
    + intros c e2. apply bind_detail; [intros ?; by apply ok_or_detail|]. intros a e3.
      apply bind_detail; [intros ?; by apply ok_or_detail|]. intros dv e4.
      destruct (negb _); by intros [= <-].
Qed.

(** A recorded version loads back as it was requested. *)
Definition row_of (req : CreateVersion) (game : GameId) (id : VersionId) (seq : Z) (now : DateTime) : Version := {|
  v_id := id; v_game_id := game; v_device_id := cv_device_id req; v_parent := cv_parent req;
  v_kind := cv_kind req; v_files := cv_files req; v_blob_hash := cv_blob_hash req;
  v_bytes := i64_as_u64 (u64_as_i64 (cv_bytes req)); v_seq := i64_as_u64 seq; v_created_at := now |}.

Lemma row_of_ok account game req id seq now :
  row_to_version (new_version_row account game req id seq now) = Ok (row_of req game id seq now).
Proof. unfold row_to_version, from_hex, to_hex. simpl. rewrite blake3_from_to_hex. simpl. by rewrite kind_roundtrip. Qed.

Definition incoming_of (adv : Advance) : Version := match adv with FastForward v => v | Conflict _ v => v end.

(** [create_version] records the row under a new id and answers with it, or
    leaves the database as it was. *)
Lemma create_version_row account game req id now d r d' :
  create_version account game req id now d = (r, d') →
  (d' = d ∧ is_ok r = false) ∨
  (∃ seq, versions d' = versions d ++ [new_version_row account game req id seq now] ∧
     (∀ x, x ∈ versions d → vr_id x ≠ id) ∧
     ∀ adv, r = Ok adv → incoming_of adv = row_of req game id seq now).
Proof.
  unfold create_version. destruct (create_version_tx _ _ _ _ _ _) as [[[b prev] d1]|e1] eqn:Htx.
  2:{ intros [= <- <-]. by left. }
  apply create_version_tx_ok in Htx as (Hi & _ & -> & _). destruct (insert_version_ok _ _ _ Hi) as (_ & Hid & _).
  set (seq := next_seq game d) in *. set (row := new_version_row _ _ _ _ _ _) in *.
  assert (Hl : load_version id (move_head id game account (cv_parent req)
            (bump (to_hex (cv_blob_hash req)) (with_versions (versions d ++ [row]) d))) = Ok (row_of req game id seq now)).
  { rewrite <- (row_of_ok account). unfold load_version. cbn [move_head bump with_versions with_blobs with_games versions].
    rewrite fetch_snoc_new; [done| |by apply is_version_true].
    intros x Hx. apply not_true_iff_false. rewrite is_version_true. by apply Hid. }
  rewrite Hl. intros [= Hr <-]. right. exists seq. split; [done|]. split; [done|]. intros adv ->.
  destruct b; [by injection Hr as <-|]. destruct prev as [h|]; [|by injection Hr as <-].
  simpl in Hr. destruct (load_version h _); simpl in Hr; [|done]. by injection Hr as <-.
Qed.

(** The version loaded back is the one requested. *)
Lemma create_version_made account game req id now d adv d' :
  create_version account game req id now d = (Ok adv, d') → made_from game req (incoming_of adv).
Proof. intros [[_ ?]|(seq & _ & _ & ->)]%create_version_row; done || by auto. Qed.

(** What [POST /versions] can answer. *)
Lemma post_version_replies env header game req app r app' :
  build_app env header (Device (PostVersion game req)) app = (r, app') →
  match r with
  | Ok resp => ∀ v, resp_body resp = BVersion v → made_from game req v
  | Err e => ∀ hd v, detail e = TipsDetail hd v → made_from game req v
  end.
Proof.
  simpl. unfold andThen. destruct (authed env header app) as [auth|e] eqn:Ea.
  - unfold post_version. destruct (negb _); [by intros [= <- _]|].
    destruct (create_version _ _ _ _ _ _) as [[adv|e] d'] eqn:Ec; cbn [andThen].
    + apply create_version_made in Ec. destruct adv as [v|hd v]; intros [= <- _]; simpl; [by intros ? [= <-]|].
      by intros ?? [= <- <-].
    + intros [= <- _] hd v Hd. by rewrite (create_version_detail _ _ _ _ _ _ _ _ Ec) in Hd.
  - intros [= <- _] hd v Hd. by rewrite (authed_detail _ _ _ _ Ea) in Hd.
Qed.

#[export] Instance world_laws : ServerLaws World.
Proof.
  constructor; intros header;
    [intros game req [app links]; simpl; revert app ..|
     intros req [app links] e s'; simpl; revert app;
     induction links as [|[env|env| |env h r] links IH]; intros app; cbn [exchange];
     [by intros [= <- _]|by destruct (build_app _ _ _ _)|by intros [= <- _]..|apply IH]]; (induction links as [|[env|env| |env h r] links IH]; intros app; cbn [exchange];
      [done| |done|done|by apply IH]);
    destruct (build_app env header _ app) as [r app'] eqn:E; apply post_version_replies in E.
  - intros resp s' v [= <- _]. destruct r as [x|e]; [|done]. simpl. intros [= ?]. by apply E.
  - intros resp s' e hd v [= <- _]. destruct r as [x|e']; [done|]. simpl. intros [= <-]. apply E.
Qed.
End ServerSide.

(** ** The client's calls *)

(** What a call can fail with. *)
Definition net_error (e : AnyError) : Prop :=
  match e with Transport | BadStatus _ | BadBody | NotPaired | CreateFailed _ => True | _ => False end.

Section ClientSide.
Context {St : Type} `{SV : Server St}.

(** A reply of [send_authed] is a reply of the server to that very request. *)
Lemma send_authed_reply req n resp n' :
  send_authed req n = (Ok resp, n') →
  ∃ header s s', send header req s = (Ok resp, s').
Proof.
  assert (Honce : ∀ n resp n', send_once req n = (Ok resp, n') →
            ∃ header s s', send header req s = (Ok resp, s')).
  { intros m r m'. unfold send_once, http_send, gets, mbind, M_bind.
    destruct (send _ req (snd m)) as [r' s'] eqn:E. intros [= -> <-]. eauto. }
  unfold send_authed, mbind, M_bind. destruct (send_once req n) as [[r|e] n1] eqn:E1; [|done].
  destruct (negb _).
  - intros [= <- <-]. by apply (Honce _ _ _ E1).
  - unfold retry_once. destruct (client_refresh n1) as [[u|e] n2]; [apply Honce|].
    intros [= <- <-]. by apply (Honce _ _ _ E1).
Qed.

Lemma client_create_version_made `{!ServerLaws St} game req n o n' :
  client_create_version game req n = (Ok o, n') →
  made_from game req (match o with Created v => v | ConflictOutcome _ v => v end).
Proof.
  intros (resp & n1 & Hs & Hr)%M_bind_ok. apply send_authed_reply in Hs as (header & s & s' & Hs).
  unfold lift_result in Hr. injection Hr as Hr _. unfold read_create in Hr.
  case_bool_decide as H1; [|case_bool_decide as H2; [|done]].
  - unfold json_as in Hr. destruct (h_body resp) as [b|] eqn:Eb; [|done].
    destruct b; try done. injection Hr as <-. by eapply send_created.
  - destruct (h_body resp) as [|e] eqn:Eb; [done|]. destruct (detail e) as [| | |hd v|] eqn:Ed; try done.
    injection Hr as <-. by eapply send_conflict.
Qed.
(** Steps whose every error is a [net_error]. *)
Definition nets {S A} (m : M S A) : Prop := ∀ s e s', m s = (Err e, s') → net_error e.

Lemma nets_bind {S A B} (m : M S A) (f : A → M S B) : nets m → (∀ a, nets (f a)) → nets (m ≫= f).
Proof.
  intros Hm Hf s e s'. unfold mbind, M_bind. destruct (m s) as [[a|e1] s1] eqn:E; [apply Hf|].
  intros [= <- _]. by apply (Hm s e1 s1).
Qed.

Lemma nets_result {A} (r : result AnyError A) : (∀ e, r = Err e → net_error e) → nets (lift_result (St := St) r).
Proof. intros Hr s e s' [= -> _]. by apply Hr. Qed.

Lemma nets_status r : nets (lift_result (St := St) (error_for_status r)).
Proof. apply nets_result. intros e. unfold error_for_status. case_bool_decide; by intros [= <-]. Qed.

Lemma nets_json {A} (f : Body → option A) r : nets (lift_result (St := St) (json_as f r)).
Proof.
  apply nets_result. intros e. unfold json_as. destruct (h_body r) as [b|]; [|by intros [= <-]].
  destruct (f b); simpl; by intros [= <-].
Qed.

Lemma send_authed_nets `{!ServerLaws St} req : nets (send_authed (St := St) req).
Proof.
  assert (Hs : ∀ h r, nets (http_send (St := St) h r)).
  { intros h r n e n'. unfold http_send. destruct (send h r (snd n)) as [x s'] eqn:E. intros [= -> _].
    by rewrite (send_error _ _ _ _ _ E). }
  assert (Ho : nets (send_once (St := St) req)) by (apply nets_bind; [done|intros; apply Hs]).
  apply nets_bind; [done|]. intros r. destruct (negb _); [done|].
  intros n e n'. unfold retry_once. destruct (client_refresh n) as [[u|e1] n1]; [apply Ho|done].
Qed.

Lemma call_nets `{!ServerLaws St} {A} req (f : Body → option A) : nets (call (St := St) req f).
Proof.
  apply nets_bind; [apply send_authed_nets|]. intros r. apply nets_bind; [apply nets_status|].
  intros r'. apply nets_json.
Qed.
End ClientSide.
