(* ===== verification/Backup.v ===== *)
(** * savr-daemon: the backup pipeline (src/crates/savr-daemon/src/backup.rs)

    [run_backup] and [retry_outbox] on the daemon's state: its database, the
    directory of packed archives by file name, and its client with the server
    behind it.  What a run finds on disk and mints is the record [BackupEnv];
    the game's files may change between the snapshot and the packing. *)

From S2P Require Import Prelude CoreTypes Blobs Snapshot Archive IpcFrame LocalState Client.

Record BackupJob := {
  job_game_id : GameId;
  patterns : list string;
  anchor : Path;
  registry_keys : list string;
  job_excludes : list string;
}.

Inductive BackupOutcome :=
  | NoChange
  | Uploaded (v : Version)
  | Queued
  | Conflicted (head : option Version) (incoming : Version).

Record OutboxPayload := {
  op_game_id : GameId;
  blob_hex : string;
  op_create_version : CreateVersion;
}.

(** The file system when the snapshot is taken and when the archive is packed,
    the instants the run reads, and the UUIDs of the temporary archive and of
    the outbox entry. *)
Record BackupEnv := {
  b_root : Node;
  b_pack_root : Node;
  b_taken_at : DateTime;
  b_packed_at : DateTime;
  b_done_at : DateTime;
  b_tmp_id : Uuid;
  b_outbox_id : Uuid;
}.

(** [Path::join]: an absolute path replaces. *)
Definition component_name (c : Component) : string :=
  match c with RootDir => "/" | CurDir => "." | ParentDir => ".." | Normal s => s end.
Definition path_join (p : Path) (rel : string) : Path :=
  match components rel with
  | RootDir :: _ => map component_name (components rel)
  | cs => p ++ map component_name cs
  end.

Definition read_file (root : Node) (p : Path) : option bytes :=
  match node_at p root with Some (FileN _ b) => Some b | _ => None end.

Definition build_payload (files : list FileEntry) (anchor : Path) : list (string * Path) :=
  map (λ f, (rel_path f, path_join anchor (rel_path f))) files.

(** [capture_registry] off Windows, and its stub there. *)
Definition capture_registry (keys : list string) : option bytes := None.

(** ** Decisions *)

Definition unconfirmed_key `{UuidText} (g : GameId) : string := "unconfirmed:" +:+ uuid_to_string g.
Definition diff_count_key `{UuidText} (g : GameId) : string := "diffcount:" +:+ uuid_to_string g.

(** The changed files and the deletions against the last snapshot; [None] when
    there is nothing to back up. *)
Definition changes (job : BackupJob) (last : option StoredSnapshot) (new : Snapshot)
    : option (list FileEntry * list string) :=
  match last with
  | Some prev =>
    let old := {| sn_game_id := job_game_id job; sn_files := ss_files prev; taken_at := ss_taken_at prev |} in
    let d := diff old new in
    if diff_is_empty d && bool_decide (registry_keys job = []) then None
    else Some (changed d, deleted d)
  | None => Some (sn_files new, [])
  end.

Definition choose_kind (parent : option VersionId) (prior_diffs full_every : N) (unconfirmed : bool) : VersionKind :=
  if bool_decide (parent = None) || (full_every <=? prior_diffs)%N || unconfirmed then Full else Differential.

(** [2u64.saturating_pow(attempts.min(9))], at most 300 seconds. *)
Definition backoff_delay (attempts : Z) : Z := Z.min (2 ^ Z.min attempts 9) 300.

(** ** The daemon *)

Record Daemon (St : Type) := {
  d_local : LocalState;
  d_cache : gmap string bytes;
  d_net : Net St;
}.
#[global] Arguments d_local {St} _.
#[global] Arguments d_cache {St} _.
#[global] Arguments d_net {St} _.

Section Backup.
Context {St : Type} `{SV : Server St}.
Context `{B3 : Blake3} `{U : UuidText} `{G : Glob} `{T : Tar} `{MJ : MetaJson}
        `{JO : Json OutboxPayload} `{TD : TextForm DateTime}.

Definition local (f : LocalState → LocalState) : M (Daemon St) unit :=
  modify (λ d, {| d_local := f (d_local d); d_cache := d_cache d; d_net := d_net d |}).
Definition cache (f : gmap string bytes → gmap string bytes) : M (Daemon St) unit :=
  modify (λ d, {| d_local := d_local d; d_cache := f (d_cache d); d_net := d_net d |}).
Definition net {A} (m : M (Net St) A) : M (Daemon St) A := λ d,
  let '(r, n') := m (d_net d) in (r, {| d_local := d_local d; d_cache := d_cache d; d_net := n' |}).
(** [match .. .await]: the outcome as a value. *)
Definition attempt {S A} (m : M S A) : M S (result AnyError A) := λ s, let '(r, s') := m s in (Ok r, s').
Definition authed_client : M (Daemon St) bool := gets (λ d, is_authenticated (fst (d_net d))).

Definition cache_name (hex : string) : string := hex +:+ ".savr".

(** [File::create], [archive::pack] into it, and the hash and length of what was
    written; a failed pack leaves the file behind. *)
Definition pack_to_file (root : Node) (meta : ArchiveMeta) (payload : list (string * Path))
    (registry : option bytes) (out : string) : M (Daemon St) (Blake3Hash * Z) :=
  match pack (read_file root) meta payload registry with
  | Ok b => _ ← cache <[out := b]>; mret (hash_of b, Z.of_nat (length b))
  | Err e => _ ← cache <[out := []]>; fail (CoreErr e)
  end.

(** [std::fs::rename] within the cache. *)
Definition cache_rename (from to : string) (c : gmap string bytes) : gmap string bytes :=
  match c !! from with Some b => <[to := b]> (delete from c) | None => c end.

Definition enqueue (env : BackupEnv) (g : GameId) (create : CreateVersion) (h : Blake3Hash) : LocalState → LocalState :=
  enqueue_outbox (b_outbox_id env)
    (to_vec {| op_game_id := g; blob_hex := to_hex h; op_create_version := create |}) (b_done_at env).

(** The writes of [queue_backup], in order. *)
Definition queue_steps (env : BackupEnv) (g : GameId) (create : CreateVersion) (h : Blake3Hash)
    (files : list FileEntry) (taken : DateTime) (parent : option VersionId) : list (LocalState → LocalState) :=
  [enqueue env g create h; put_snapshot g files taken parent; set_meta (unconfirmed_key g) "1"].

Definition run_steps (steps : list (LocalState → LocalState)) (st : LocalState) : LocalState :=
  foldl (λ st f, f st) st steps.

Definition queue_backup (env : BackupEnv) (g : GameId) (create : CreateVersion) (h : Blake3Hash)
    (files : list FileEntry) (taken : DateTime) (parent : option VersionId) : M (Daemon St) unit :=
  local (run_steps (queue_steps env g create h files taken parent)).

Definition bump_diff_counter (key : string) (kind : VersionKind) (prior : N) : LocalState → LocalState :=
  set_meta key (u32_to_string (match kind with Full => 0 | Differential => prior + 1 end)%N).

(** [archive]: the cache entry to send when the server lacks the blob. *)
Definition upload_version (g : GameId) (create : CreateVersion) (archive : string) : M (Daemon St) CreateOutcome :=
  ex ← net (client_blob_exists (cv_blob_hash create));
  file ← gets (λ d, d_cache d !! archive);
  _ ← (if ex : bool then mret tt else net (client_blob_put_file (cv_blob_hash create) file));
  net (client_create_version g create).

(** What follows the packing. *)
Definition deliver (env : BackupEnv) (client : bool) (g : GameId) (create : CreateVersion) (h : Blake3Hash)
    (new : Snapshot) (prior : N) : M (Daemon St) BackupOutcome :=
  let files := sn_files new in
  let archive := cache_name (to_hex h) in
  let queue := queue_backup env g create h files (taken_at new) (cv_parent create) in
  authed ← authed_client;
  if (client && authed)%bool then
    r ← attempt (upload_version g create archive);
    match r with
    | Ok (Created v) =>
      _ ← local (put_snapshot g files (taken_at new) (Some (v_id v)));
      _ ← local (set_meta (unconfirmed_key g) "0");
      _ ← local (bump_diff_counter (diff_count_key g) (cv_kind create) prior);
      _ ← local (set_last_backup_at (b_done_at env));
      _ ← cache (delete archive);
      mret (Uploaded v)
    | Ok (ConflictOutcome hd v) =>
      _ ← local (put_snapshot g files (taken_at new) (Some (v_id v)));
      _ ← local (set_meta (unconfirmed_key g) "0");
      _ ← cache (delete archive);
      mret (Conflicted hd v)
    | Err _ => _ ← queue; mret Queued
    end
  else (_ ← queue; mret Queued).

(** [client] is whether a client was passed. *)
Definition run_backup (env : BackupEnv) (client : bool) (device_id : DeviceId) (full_every : N)
    (job : BackupJob) : M (Daemon St) BackupOutcome :=
  let g := job_game_id job in
  if bool_decide (patterns job = []) && bool_decide (registry_keys job = []) then mret NoChange
  else match build (b_root env) (b_taken_at env) g (patterns job) (job_excludes job) (anchor job) with
  | Err e => fail (CoreErr e)
  | Ok new =>
    st ← gets d_local;
    let last := get_snapshot g st in
    let parent := s ← last; local_head s in
    match changes job last new with
    | None => mret NoChange
    | Some (chg, dels) =>
      let prior := default 0%N (get_meta (diff_count_key g) st ≫= u32_parse) in
      let unconfirmed := bool_decide (get_meta (unconfirmed_key g) st = Some "1") in
      let kind := choose_kind parent prior full_every unconfirmed in
      let payload_files := match kind with Full => sn_files new | Differential => chg end in
      let deletions := match kind with Full => [] | Differential => dels end in
      let meta := {| am_game_id := g; am_device_id := device_id; am_parent := parent; am_kind := kind;
                     am_files := sn_files new; am_deletions := deletions; am_created_at := b_packed_at env |} in
      let tmp := "packing-" +:+ uuid_to_string (b_tmp_id env) +:+ ".savr" in
      '(h, n) ← pack_to_file (b_pack_root env) meta (build_payload payload_files (anchor job))
                  (capture_registry (registry_keys job)) tmp;
      _ ← cache (cache_rename tmp (cache_name (to_hex h)));
      let create := {| cv_parent := parent; cv_kind := kind; cv_files := sn_files new;
                       cv_blob_hash := h; cv_bytes := n; cv_device_id := device_id |} in
      deliver env client g create h new prior
    end
  end.

(** ** Draining the outbox *)

Definition u32_of_i64 (x : Z) : Z := x mod (u32_max + 1).

Definition retry_item (now done_at : DateTime) (item : OutboxItem) : M (Daemon St) unit :=
  match from_slice (T := OutboxPayload) (oi_payload item) with
  | None => local (remove_outbox (oi_version_id item))
  | Some p =>
    let archive := cache_name (blob_hex p) in
    r ← attempt (upload_version (op_game_id p) (op_create_version p) archive);
    match r with
    | Ok (Created v) =>
      _ ← local (set_local_head (op_game_id p) (v_id v));
      _ ← local (set_last_backup_at done_at);
      _ ← local (remove_outbox (oi_version_id item));
      cache (delete archive)
    | Ok (ConflictOutcome _ v) =>
      _ ← local (set_local_head (op_game_id p) (v_id v));
      _ ← local (remove_outbox (oi_version_id item));
      cache (delete archive)
    | Err _ =>
      local (bump_outbox_attempt (oi_version_id item)
               (now + backoff_delay (u32_of_i64 (oi_attempts item)) * nanos)%Z)
    end
  end.

Fixpoint retry_items (now done_at : DateTime) (items : list OutboxItem) : M (Daemon St) unit :=
  match items with
  | [] => mret tt
  | item :: rest => _ ← retry_item now done_at item; retry_items now done_at rest
  end.

Definition retry_outbox (now done_at : DateTime) : M (Daemon St) unit :=
  authed ← authed_client;
  if negb authed then mret tt
  else (st ← gets d_local; retry_items now done_at (due_outbox now st)).
End Backup.
