(* ===== verification/Programs.v ===== *)
(** * Programs over a state

    A program of the monad [M] has its state and the one it leaves related by a
    preorder, whatever it returns ([Moves]), or fails only by not returning
    ([Returns]).  Both are found by the structure of the program. *)

From S2P Require Import Prelude CoreTypes IpcFrame LocalState Client Backup.

(** ** Preorders *)

Class Moves {S A} (R : relation S) (m : M S A) : Prop := moves s : R s (snd (m s)).

Section Moves.
Context {S : Type} (R : relation S) `{!PreOrder R}.

#[export] Instance moves_ret {A} (a : A) : Moves R (mret a).
Proof. intros s. simpl. reflexivity. Qed.
#[export] Instance moves_fail {A} e : Moves R (fail (A := A) e).
Proof. intros s. simpl. reflexivity. Qed.
#[export] Instance moves_gets {A} (f : S → A) : Moves R (gets f).
Proof. intros s. simpl. reflexivity. Qed.
#[export] Instance moves_value {A} (r : result AnyError A) : Moves R (λ s, (r, s)).
Proof. intros s. simpl. reflexivity. Qed.
#[export] Instance moves_bind {A B} (m : M S A) (f : A → M S B) :
  Moves R m → (∀ a, Moves R (f a)) → Moves R (m ≫= f).
Proof.
  intros Hm Hf s. unfold mbind, M_bind. specialize (Hm s). destruct (m s) as [[a|e] s']; simpl in *; [|done].
  etrans; [exact Hm|apply Hf].
Qed.
#[export] Instance moves_attempt {A} (m : M S A) : Moves R m → Moves R (attempt m).
Proof. intros Hm s. specialize (Hm s). unfold attempt. by destruct (m s). Qed.
Lemma moves_modify f : (∀ s, R s (f s)) → Moves R (modify f).
Proof. intros Hf s. apply Hf. Qed.
End Moves.

(** Structure, then case analysis. *)
Ltac solve_moves :=
  repeat first [ apply _ | progress intros | progress cbv beta zeta | apply moves_bind | apply moves_attempt | case_match ].

(** A program whose only error is not to return. *)
Class Returns {S A} (m : M S A) : Prop := returns s e : fst (m s) = Err e → e = Hang.

Section Returns.
Context {S : Type}.

#[export] Instance returns_ret {A} (a : A) : Returns (S := S) (mret a).
Proof. by intros s e. Qed.
#[export] Instance returns_hang {A} : Returns (S := S) (fail (A := A) Hang).
Proof. by intros s e [=]. Qed.
#[export] Instance returns_gets {A} (f : S → A) : Returns (gets f).
Proof. by intros s e. Qed.
#[export] Instance returns_modify (f : S → S) : Returns (modify f).
Proof. by intros s e. Qed.
#[export] Instance returns_bind {A B} (m : M S A) (f : A → M S B) :
  Returns m → (∀ a, Returns (f a)) → Returns (m ≫= f).
Proof.
  intros Hm Hf s e. unfold mbind, M_bind. specialize (Hm s). destruct (m s) as [[a|e'] s']; [apply Hf|].
  intros [= <-]. by apply Hm.
Qed.
#[export] Instance returns_attempt {A} (m : M S A) : Returns (attempt m).
Proof. intros s e. unfold attempt. by destruct (m s). Qed.
End Returns.
Ltac solve_returns :=
  repeat first [ apply _ | progress intros | progress cbv beta zeta | apply returns_bind | case_match ].
