(* ===== verification/Restore.v ===== *)
(** * savr-daemon: the restore pipeline (src/crates/savr-daemon/src/restore.rs)

    [run_restore] on the daemon, its scratch directory and the disk. *)

From S2P Require Import Prelude CoreTypes Blobs Snapshot Archive IpcFrame LocalState Client Backup.

Record RestoreRequest := {
  rq_game_id : GameId;
  rq_version_id : VersionId;
  rq_anchor : Path;
  rq_patterns : list string;
  rq_registry_keys : list string;
}.

(** ** The chain of versions *)

Definition versions_by_id (versions : list Version) : gmap VersionId Version :=
  foldl (λ m v, <[v_id v := v]> m) ∅ versions.

(** The [while let] of [build_chain]; [None] when the fuel runs out. *)
Fixpoint walk_chain (fuel : nat) (by_id : gmap VersionId Version) (cursor : option VersionId)
    (chain : list Version) : option (result AnyError (list Version)) :=
  match fuel with
  | O => None
  | S fuel =>
    match cursor with
    | None => Some (Ok chain)
    | Some id =>
      match by_id !! id with
      | None => Some (Err (Bail "version missing from history"))
      | Some v =>
        if decide (v_kind v = Full) then Some (Ok (chain ++ [v]))
        else walk_chain fuel by_id (v_parent v) (chain ++ [v])
      end
    end
  end.

(** The check after the loop, and [chain.reverse()]. *)
Definition full_first (chain : list Version) : result AnyError (list Version) :=
  if decide (option_map v_kind (list.last chain) = Some Full) then Ok (rev chain)
  else Err (Bail "differential chain never reaches a full backup").

Definition build_chain (fuel : nat) (versions : list Version) (target : VersionId)
    : option (result AnyError (list Version)) :=
  match walk_chain fuel (versions_by_id versions) (Some target) [] with
  | Some (Ok chain) => Some (full_first chain)
  | Some (Err e) => Some (Err e)
  | None => None
  end.

(** More steps than versions means a cycle. *)
Definition chain_fuel (versions : list Version) : nat := 2 + length versions.

(** ** Files on disk *)

Fixpoint set_entry (name : string) (n : Node) (es : list (string * Node)) : list (string * Node) :=
  match es with
  | [] => [(name, n)]
  | (x, m) :: es => if decide (x = name) then (x, n) :: es else (x, m) :: set_entry name n es
  end.
Definition get_entry (name : string) (es : list (string * Node)) : option Node :=
  snd <$> fetch_optional (λ e, bool_decide (fst e = name)) es.

(** [create_dir_all] of the parent, then a file of these bytes at the path:
    refused where a file stands for a directory or a directory for the file. *)
Fixpoint put_file (path : Path) (mtime : Z) (b : bytes) (n : Node) : option Node :=
  match path, n with
  | c :: rest, DirN es =>
    match rest with
    | [] => match get_entry c es with
            | Some (DirN _) => None
            | _ => Some (DirN (set_entry c (FileN mtime b) es))
            end
    | _ => child ← put_file rest mtime b (default (DirN []) (get_entry c es));
           Some (DirN (set_entry c child es))
    end
  | _, _ => None
  end.

(** [remove_file], whose failure is ignored. *)
Fixpoint remove_file (path : Path) (n : Node) : Node :=
  match path, n with
  | c :: rest, DirN es =>
    match rest with
    | [] => match get_entry c es with
            | Some (DirN _) | None => n
            | Some _ => DirN (List.filter (λ e, negb (bool_decide (fst e = c))) es)
            end
    | _ => match get_entry c es with
           | Some child => DirN (set_entry c (remove_file rest child) es)
           | None => n
           end
    end
  | _, _ => n
  end.

(** [Path::with_extension]: the stem ends before the last dot that is not the
    first character. *)
Fixpoint before_last_dot (s : string) : option string :=
  match s with
  | EmptyString => None
  | String c r =>
    match before_last_dot r with
    | Some b => Some (String c b)
    | None => if decide (Ascii.nat_of_ascii c = 46) then Some "" else None
    end
  end.
Definition file_stem (name : string) : string :=
  match before_last_dot name with
  | Some b => if decide (b = "") then name else b
  | None => name
  end.
Fixpoint with_extension (ext : string) (p : Path) : Path :=
  match p with
  | [] => []
  | [name] => [if decide (name = ".." ∨ name = "/") then name else file_stem name +:+ "." +:+ ext]
  | c :: rest => c :: with_extension ext rest
  end.

Definition TMP_EXT : string := "savr-restore-tmp".

(** [fs::copy] to the temporary name, then [fs::rename] over the destination. *)
Definition replace_file (dest : Path) (now : Z) (b : bytes) (disk : Node) : option Node :=
  disk1 ← put_file (with_extension TMP_EXT dest) now b disk;
  put_file dest now b (remove_file (with_extension TMP_EXT dest) disk1).

(** ** Restoring *)

Record Scratch := {
  staged : gmap string Tree;
  archives : gmap string bytes;
}.

Record Restorer (St : Type) := {
  r_daemon : Daemon St;
  r_scratch : Scratch;
  r_disk : Node;
}.
#[global] Arguments r_daemon {St} _.
#[global] Arguments r_scratch {St} _.
#[global] Arguments r_disk {St} _.

(** The files under a staged directory, by relative path. *)
Definition walk_rel (t : Tree) : list (string * bytes) :=
  map (λ e, (join "/" (fst e), snd e)) (map_to_list t).

Definition merge (t : Tree) (deletions : list string) (merged : gmap string bytes) : gmap string bytes :=
  foldl (λ m p, delete p m) (foldl (λ m e, <[fst e := snd e]> m) merged (walk_rel t)) deletions.

Section Restore.
Context {St : Type} `{SV : Server St} `{HI : HashIter}.
Context `{B3 : Blake3} `{U : UuidText} `{G : Glob} `{T : Tar} `{MJ : MetaJson}
        `{JO : Json OutboxPayload} `{TD : TextForm DateTime}.

Definition daemon {A} (m : M (Daemon St) A) : M (Restorer St) A := λ s,
  let '(r, d) := m (r_daemon s) in (r, {| r_daemon := d; r_scratch := r_scratch s; r_disk := r_disk s |}).

Definition verify_blob (b : bytes) (expected : Blake3Hash) : result AnyError unit :=
  if decide (hash_of b = expected) then Ok tt else Err (Bail "archive integrity check failed").

Definition save_archive (h : Blake3Hash) (b : bytes) : M (Restorer St) unit :=
  modify (λ s, {| r_daemon := r_daemon s;
    r_scratch := {| staged := staged (r_scratch s);
                    archives := <[to_hex h +:+ ".savr" := b]> (archives (r_scratch s)) |};
    r_disk := r_disk s |}).

Definition staged_dir (dir : string) (s : Restorer St) : Tree := default ∅ (staged (r_scratch s) !! dir).

(** [unpack] into the version's directory, which keeps what a failed unpack
    wrote. *)
Definition unpack_staged (dir : string) (b : bytes) : M (Restorer St) Unpacked := λ s,
  let '(r, t) := unpack b (staged_dir dir s) in
  (match r with Ok u => Ok u | Err e => Err (CoreErr e) end,
   {| r_daemon := r_daemon s;
      r_scratch := {| staged := <[dir := t]> (staged (r_scratch s)); archives := archives (r_scratch s) |};
      r_disk := r_disk s |}).

Definition apply_version (v : Version) (merged : gmap string bytes) : M (Restorer St) (gmap string bytes) :=
  b ← daemon (net (client_blob_get (v_blob_hash v)));
  _ ← save_archive (v_blob_hash v) b;
  _ ← (λ s, (verify_blob b (v_blob_hash v), s)) : M (Restorer St) unit;
  u ← unpack_staged (uuid_to_string (v_id v)) b;
  t ← gets (staged_dir (uuid_to_string (v_id v)));
  mret (merge t (am_deletions (up_meta u)) merged).

Fixpoint apply_chain (chain : list Version) (merged : gmap string bytes) : M (Restorer St) (gmap string bytes) :=
  match chain with
  | [] => mret merged
  | v :: rest => m ← apply_version v merged; apply_chain rest m
  end.

Definition on_disk (f : Node → option Node) : M (Restorer St) unit := λ s,
  match f (r_disk s) with
  | Some n => (Ok tt, {| r_daemon := r_daemon s; r_scratch := r_scratch s; r_disk := n |})
  | None => (Err FileError, s)
  end.

(** Step 4: each file in turn; a failure leaves the earlier ones replaced. *)
Fixpoint swap_in (anchor : Path) (now : Z) (files : list (string * bytes)) : M (Restorer St) unit :=
  match files with
  | [] => mret tt
  | (rel, b) :: rest => _ ← on_disk (replace_file (path_join anchor rel) now b); swap_in anchor now rest
  end.

(** Step 5. *)
Definition delete_stale (anchor : Path) (merged : gmap string bytes) (files : list FileEntry) (disk : Node) : Node :=
  foldl (λ n f, if decide (merged !! rel_path f = None) then remove_file (path_join anchor (rel_path f)) n else n)
    disk files.

Definition pre_backup (req : RestoreRequest) : BackupJob := {|
  job_game_id := rq_game_id req; patterns := rq_patterns req; anchor := rq_anchor req;
  registry_keys := rq_registry_keys req; job_excludes := [] |}.

(** The game does not run, so the disk stands still while it is packed. *)
Definition on_this_disk (env : BackupEnv) (disk : Node) : BackupEnv := {|
  b_root := disk; b_pack_root := disk; b_taken_at := b_taken_at env; b_packed_at := b_packed_at env;
  b_done_at := b_done_at env; b_tmp_id := b_tmp_id env; b_outbox_id := b_outbox_id env |}.

(** Steps 4 to 6, with what to write known. *)
Definition finish_restore (now : Z) (req : RestoreRequest) (chain : list Version)
    (merged : gmap string bytes) : M (Restorer St) unit :=
  _ ← swap_in (rq_anchor req) now (hash_iter merged);
  st ← gets (λ s, d_local (r_daemon s));
  _ ← on_disk (λ n, Some (match get_snapshot (rq_game_id req) st with
                          | Some prev => delete_stale (rq_anchor req) merged (ss_files prev) n
                          | None => n
                          end));
  target ← of_option (list.last chain) (Bail "empty restore chain");
  daemon (local (put_snapshot (rq_game_id req) (v_files target) (v_created_at target) (Some (v_id target)))).

Definition run_restore (env : BackupEnv) (now : Z) (device_id : DeviceId) (req : RestoreRequest)
    (game_running : bool) : M (Restorer St) unit :=
  if game_running then fail (Bail "refusing to restore: game is running")
  else if bool_decide (rq_patterns req = []) && bool_decide (rq_registry_keys req = [])
  then fail (Bail "refusing to restore: no known save paths for this game")
  else
    disk ← gets r_disk;
    r ← attempt (daemon (run_backup (on_this_disk env disk) true device_id (Z.to_N u32_max) (pre_backup req)));
    match r with
    | Err _ => fail (Bail "pre-restore backup failed, aborting restore")
    | Ok _ =>
      versions ← daemon (net (client_list_versions (rq_game_id req)));
      match build_chain (chain_fuel versions) versions (rq_version_id req) with
      | None => fail Hang
      | Some (Err e) => fail e
      | Some (Ok chain) => merged ← apply_chain chain ∅; finish_restore now req chain merged
      end
    end.
End Restore.
