(* ===== verification/ExeIndex.v ===== *)
(** * savr-daemon: the executable index (src/crates/savr-daemon/src/detection/exe_index.rs)

    Which game a process's executable belongs to.  Paths are their text.  The
    case fold of [exe_key], the identity except on Windows and macOS, is a
    parameter, and so are the execute bit and the target of a symbolic link,
    which [Node] does not record. *)

From S2P Require Import Prelude CoreTypes Snapshot Archive Backup.

Inductive Confidence := Basename | PathHit.
#[export] Instance Confidence_eq_dec : EqDecision Confidence.
Proof. solve_decision. Defined.

Definition as_i64 (c : Confidence) : Z := match c with Basename => 1 | PathHit => 2 end.
Definition from_i64 (v : Z) : Confidence := if decide (2 <= v)%Z then PathHit else Basename.

Record ExeIndex := {
  by_path_key : gmap string GameId;
  by_basename : gmap string (list GameId);
}.

Class Platform := {
  fold_case : string → string;
  is_executable : string → bool;
  (** Where a symbolic link leads: nowhere, or to a directory or not. *)
  follow_link : string → option bool;
}.

(** [Path::join], and the path a text denotes. *)
Definition text_join (dir name : string) : string :=
  if starts_with "/" name || bool_decide (dir = "") then name
  else if ends_with "/" dir then dir +:+ name else dir +:+ "/" +:+ name.
Definition path_of_text (s : string) : Path := map component_name (components s).

(** [Path::file_name]. *)
Definition file_name (p : string) : option string :=
  match list.last (components p) with Some (Normal n) => Some n | _ => None end.

(** [Path::exists] and [Path::is_dir], which follow links. *)
Definition path_exists `{Platform} (root : Node) (p : string) : bool :=
  match node_at (path_of_text p) root with
  | Some OtherN => bool_decide (is_Some (follow_link p))
  | Some _ => true
  | None => false
  end.
Definition path_is_dir `{Platform} (root : Node) (p : string) : bool :=
  match node_at (path_of_text p) root with
  | Some (DirN _) => true
  | Some OtherN => default false (follow_link p)
  | _ => false
  end.

Section ExeIndex.
Context `{PF : Platform} `{HI : HashIter}.

Definition exe_key (p : string) : string := fold_case p.
Definition basename_key (p : string) : option string := fold_case <$> file_name p.

Definition ExeIndex_new : ExeIndex := {| by_path_key := ∅; by_basename := ∅ |}.

Definition push_basename (key : string) (g : GameId) (idx : ExeIndex) : ExeIndex :=
  let games := default [] (by_basename idx !! key) in
  {| by_path_key := by_path_key idx;
     by_basename := <[key := if bool_decide (g ∈ games) then games else games ++ [g]]> (by_basename idx) |}.

Definition set_path (key : string) (g : GameId) (idx : ExeIndex) : ExeIndex :=
  {| by_path_key := <[key := g]> (by_path_key idx); by_basename := by_basename idx |}.

Definition add_row (idx : ExeIndex) (row : string * GameId * Z) : ExeIndex :=
  let '(key, g, conf) := row in
  match from_i64 conf with PathHit => set_path key g idx | Basename => push_basename key g idx end.
Definition from_rows (rows : list (string * GameId * Z)) : ExeIndex := foldl add_row ExeIndex_new rows.

Definition insert_exe (exe : string) (g : GameId) (idx : ExeIndex) : ExeIndex :=
  let idx := set_path (exe_key exe) g idx in
  match basename_key exe with Some bn => push_basename bn g idx | None => idx end.

(** [walk]: the listing order of a directory is that of its entries. *)
Fixpoint walk (depth : nat) (dir : string) (n : Node) : list string :=
  match n with
  | DirN es =>
    concat (map (λ '(name, child),
      let path := text_join dir name in
      match child with
      | DirN _ => match depth with S d => walk d path child | O => [] end
      | _ => if is_executable path then [path] else []
      end) es)
  | _ => []
  end.

Definition find_executables (root : Node) (dir : string) (max_depth : nat) : list string :=
  match node_at (path_of_text dir) root with Some n => walk max_depth dir n | None => [] end.

Definition index_install_dir (root : Node) (dir : string) (g : GameId) (idx : ExeIndex) : ExeIndex :=
  foldl (λ idx exe, insert_exe exe g idx) idx (find_executables root dir 6).

Definition match_exe (p : string) (idx : ExeIndex) : option (GameId * Confidence) :=
  match by_path_key idx !! exe_key p with
  | Some g => Some (g, PathHit)
  | None =>
    bn ← basename_key p;
    match by_basename idx !! bn with
    | Some games => if decide (length games = 1) then (λ g, (g, Basename)) <$> head games else None
    | None => None
    end
  end.

Definition to_rows (idx : ExeIndex) : list (string * GameId * Z) :=
  map (λ '(k, g), (k, g, as_i64 PathHit)) (hash_iter (by_path_key idx)) ++
  omap (λ '(k, games), match games with [only] => Some (k, only, as_i64 Basename) | _ => None end)
    (hash_iter (by_basename idx)).

Definition index_is_empty (idx : ExeIndex) : bool :=
  bool_decide (by_path_key idx = ∅) && bool_decide (by_basename idx = ∅).
End ExeIndex.
