(* ===== verification/ExeSpec.v ===== *)
(** * Properties of the executable index

    An index is determined, up to what [match_exe] answers, by its path entries
    and its unambiguous basenames. *)

From S2P Require Import Prelude CoreTypes Snapshot Archive LocalState Backup ExeIndex.

Section ExeSpec.
Context `{PF : Platform} `{HI : HashIter} `{!HashIterLaws}.

(** What [match_exe] can see of a basename. *)
Definition claim (idx : ExeIndex) (bn : string) : option GameId :=
  match by_basename idx !! bn with Some [g] => Some g | _ => None end.

Lemma match_exe_claim p idx :
  match_exe p idx =
    match by_path_key idx !! exe_key p with
    | Some g => Some (g, PathHit)
    | None => (λ g, (g, Basename)) <$> (basename_key p ≫= claim idx)
    end.
Proof.
  unfold match_exe, claim. destruct (by_path_key idx !! exe_key p); [done|].
  destruct (basename_key p) as [bn|]; [|done]. simpl.
  destruct (by_basename idx !! bn) as [[|g [|g' l]]|]; done.
Qed.

Lemma match_exe_ext p idx idx' :
  by_path_key idx = by_path_key idx' → (∀ bn, claim idx bn = claim idx' bn) → match_exe p idx = match_exe p idx'.
Proof. intros Hp Hc. rewrite !match_exe_claim, Hp. by destruct (basename_key p); simpl; rewrite ?Hc. Qed.

(** ** Rows *)

Definition row_key (r : string * GameId * Z) : Confidence * string := (from_i64 (snd r), fst (fst r)).

Lemma push_basename_other k k' g idx : k ≠ k' → by_basename (push_basename k g idx) !! k' = by_basename idx !! k'.
Proof. intros Hk. by apply lookup_insert_ne. Qed.

Lemma add_row_path idx k g c k' :
  by_path_key (add_row idx (k, g, c)) !! k' =
    if decide (from_i64 c = PathHit ∧ k = k') then Some g else by_path_key idx !! k'.
Proof.
  unfold add_row. destruct (from_i64 c) eqn:Ec; [by rewrite decide_False by naive_solver|].
  cbn [set_path by_path_key]. destruct (decide (k = k')) as [->|Hk].
  - rewrite decide_True by done. apply lookup_insert_eq.
  - rewrite decide_False by naive_solver. by apply lookup_insert_ne.
Qed.

Lemma add_row_base idx k g c k' :
  by_basename (add_row idx (k, g, c)) !! k' =
    if decide (from_i64 c = Basename ∧ k = k') then by_basename (push_basename k g idx) !! k'
    else by_basename idx !! k'.
Proof.
  unfold add_row. destruct (from_i64 c) eqn:Ec; [|by rewrite decide_False by naive_solver].
  destruct (decide (k = k')) as [->|Hk]; [by rewrite decide_True|].
  rewrite decide_False by naive_solver. by apply push_basename_other.
Qed.

(** Rows whose keys are distinct within their kind each take effect. *)
Lemma add_rows_path rows idx k :
  NoDup (map row_key rows) →
  by_path_key (foldl add_row idx rows) !! k =
    match fetch_optional (λ r, bool_decide (row_key r = (PathHit, k))) rows with
    | Some r => Some (snd (fst r))
    | None => by_path_key idx !! k
    end.
Proof.
  revert idx. induction rows as [|[[k1 g1] c1] rows IH]; intros idx Hnd; [done|].
  apply list.NoDup_cons in Hnd as [Hni Hnd]. cbn [foldl]. rewrite IH, add_row_path by done. rewrite fetch_optional_cons. change (row_key (k1, g1, c1)) with (from_i64 c1, k1) in *.
  destruct (decide (from_i64 c1 = PathHit ∧ k1 = k)) as [[Hc ->]|Hne].
  - rewrite bool_decide_eq_true_2 by (by rewrite Hc).
    destruct (fetch_optional _ rows) as [r|] eqn:Ef; [|done]. exfalso. apply Hni.
    apply fetch_optional_Some in Ef as [Hin Hr%bool_decide_eq_true].
    rewrite Hc, <- Hr. by apply (list_elem_of_fmap_2 row_key).
  - rewrite bool_decide_eq_false_2; [done|]. intros [= ??]. naive_solver.
Qed.

Lemma add_rows_base rows idx k :
  NoDup (map row_key rows) → by_basename idx !! k = None →
  by_basename (foldl add_row idx rows) !! k =
    match fetch_optional (λ r, bool_decide (row_key r = (Basename, k))) rows with
    | Some r => Some [snd (fst r)]
    | None => None
    end.
Proof.
  revert idx. induction rows as [|[[k1 g1] c1] rows IH]; intros idx Hnd Hidx; [done|].
  apply list.NoDup_cons in Hnd as [Hni Hnd]. cbn [foldl]. rewrite fetch_optional_cons. change (row_key (k1, g1, c1)) with (from_i64 c1, k1) in *.
  destruct (decide (from_i64 c1 = Basename ∧ k1 = k)) as [[Hc ->]|Hne].
  - rewrite bool_decide_eq_true_2 by (by rewrite Hc). cbn [fst snd]. clear IH.
    assert (Hfix : by_basename (add_row idx (k, g1, c1)) !! k = Some [g1]).
    { rewrite add_row_base, decide_True by done. simpl. rewrite Hidx. simpl. apply lookup_insert_eq. }
    revert Hfix. generalize (add_row idx (k, g1, c1)). clear Hnd Hidx idx.
    induction rows as [|[[k2 g2] c2] rows IH]; intros idx Hfix; [done|]. 
    apply not_elem_of_cons in Hni as [Hne Hni]. cbn [foldl]. apply IH; [exact Hni|].
    rewrite add_row_base, decide_False; [done|]. intros [Hc2 ->]. apply Hne. by rewrite Hc, <- Hc2.
  - rewrite bool_decide_eq_false_2 by (intros [= ??]; naive_solver).
    apply IH; [done|]. by rewrite add_row_base, decide_False.
Qed.

(** ** Rows that hold an index *)

Record rows_of (idx : ExeIndex) (rows : list (string * GameId * Z)) : Prop := {
  ro_keys : NoDup (map row_key rows);
  ro_rows k g c : (k, g, c) ∈ rows ↔
    (c = as_i64 PathHit ∧ by_path_key idx !! k = Some g) ∨ (c = as_i64 Basename ∧ claim idx k = Some g);
}.

Lemma rows_of_fetch idx rows c k :
  rows_of idx rows →
  (λ r, snd (fst r)) <$> fetch_optional (λ r, bool_decide (row_key r = (c, k))) rows =
    match c with PathHit => by_path_key idx !! k | Basename => claim idx k end.
Proof.
  intros [Hk Hr]. destruct (fetch_optional _ rows) as [[[k' g] c']|] eqn:Ef; simpl.
  - apply fetch_optional_Some in Ef as [Hin [= Hc ->]%bool_decide_eq_true]. simpl in Hc.
    apply Hr in Hin as [[-> Hp]|[-> Hp]]; subst c; symmetry; exact Hp.
  - rewrite fetch_optional_None in Ef. symmetry. apply eq_None_not_Some. intros [g Hg].
    assert (Hin : (k, g, as_i64 c) ∈ rows) by (apply Hr; destruct c; auto).
    specialize (Ef _ Hin). rewrite bool_decide_eq_true_2 in Ef; [done|]. by destruct c.
Qed.

Lemma rows_of_match idx rows p : rows_of idx rows → match_exe p (from_rows rows) = match_exe p idx.
Proof.
  intros Hr. pose proof (ro_keys _ _ Hr) as Hnd. apply match_exe_ext.
  - apply map_eq. intros k. unfold from_rows. rewrite add_rows_path by done.
    rewrite <- (rows_of_fetch _ _ PathHit k Hr). by destruct (fetch_optional _ rows).
  - intros bn. unfold claim at 1, from_rows. rewrite add_rows_base by done.
    rewrite <- (rows_of_fetch _ _ Basename bn Hr). by destruct (fetch_optional _ rows).
Qed.

Lemma to_rows_of idx : rows_of idx (to_rows idx).
Proof.
  assert (Hin : ∀ k g c, (k, g, c) ∈ to_rows idx ↔
    (c = as_i64 PathHit ∧ by_path_key idx !! k = Some g) ∨ (c = as_i64 Basename ∧ claim idx k = Some g)).
  { intros k g c. unfold to_rows, claim. rewrite elem_of_app, list_elem_of_fmap, list_elem_of_omap. split.
    - intros [([k' g'] & [= -> -> ->] & Hm)|([k' gs] & Hm & Hs)].
      + left. by apply elem_of_hash_iter in Hm.
      + right. apply elem_of_hash_iter in Hm. destruct gs as [|g' [|]]; [done| |done].
        injection Hs as <- <- <-. by rewrite Hm.
    - intros [[-> Hp]|[-> Hp]].
      + left. exists (k, g). by rewrite elem_of_hash_iter.
      + right. destruct (by_basename idx !! k) as [[|g' [|]]|] eqn:E; [done| |done|done]. injection Hp as ->.
        exists (k, [g]). by rewrite elem_of_hash_iter. }
  split; [|exact Hin]. unfold to_rows. rewrite map_app. apply list.NoDup_app. split_and!.
  - rewrite map_map. rewrite (map_ext _ (λ e, (PathHit, fst e))) by (by intros []).
    rewrite <- (map_map fst (λ k, (PathHit, k))). apply (NoDup_fmap_2 _), hash_iter_keys.
  - intros ck ([[k g] c] & -> & Hm)%list_elem_of_fmap ([[k' g'] c'] & Hk & Hm')%list_elem_of_fmap.
    apply list_elem_of_fmap in Hm as ([] & [= -> -> ->] & _).
    apply list_elem_of_omap in Hm' as ([k2 [|g2 [|]]] & _ & [= <- <- <-]). discriminate Hk.
  - pose proof (hash_iter_keys (by_basename idx)) as Hnd. revert Hnd.
    induction (hash_iter (by_basename idx)) as [|[k gs] l IH]; [constructor|]. simpl.
    intros [Hni Hnd]%list.NoDup_cons. specialize (IH Hnd). destruct gs as [|g [|g' gs]]; [exact IH| |exact IH].
    simpl. constructor; [|exact IH]. intros ([[k' g'] c'] & [= _ ->] & Hm)%list_elem_of_fmap. apply Hni.
    apply list_elem_of_omap in Hm as ([k2 [|g2 [|]]] & Hm & Hs); [done| |done]. injection Hs as -> _ _.
    by apply (list_elem_of_fmap_2 fst) in Hm.
Qed.

(** ** Rows through the table *)

Lemma insert_rows_lookup (rows : list (string * GameId * Z)) k g c :
  NoDup (map (λ r, fst (fst r)) rows) →
  (foldl (λ m '(k, g, c), <[k := (g, c)]> m) (∅ : gmap string (GameId * Z)) rows) !! k = Some (g, c) ↔ (k, g, c) ∈ rows.
Proof.
  intros Hnd. enough (Hgen : ∀ m : gmap string (GameId * Z),
    (foldl (λ m '(k, g, c), <[k := (g, c)]> m) m rows) !! k = Some (g, c) ↔
    (k, g, c) ∈ rows ∨ (k ∉ map (λ r, fst (fst r)) rows ∧ m !! k = Some (g, c))).
  { rewrite Hgen, lookup_empty. naive_solver. }
  induction rows as [|[[k' g'] c'] rows IH]; intros m; cbn [foldl map fst].
  { rewrite elem_of_nil. split; [|naive_solver]. intros ?. right. split; [apply not_elem_of_nil|done]. }
  apply list.NoDup_cons in Hnd as [Hni Hnd]. rewrite (IH Hnd), !elem_of_cons. destruct (decide (k = k')) as [->|Hk].
  - rewrite lookup_insert_eq. simpl in Hni. split; [|naive_solver].
    intros [Hin|[_ [= -> ->]]]; [|by left; left]. left. by right.
  - rewrite lookup_insert_ne by done. naive_solver.
Qed.

Lemma stored_rows_of idx rows st :
  rows_of idx rows → NoDup (map (λ r, fst (fst r)) rows) → rows_of idx (load_exe_rows (replace_exe_index rows st)).
Proof.
  intros [Hk Hr] Hnd. unfold load_exe_rows, replace_exe_index. cbn [exe_index with_exe_index].
  set (m := foldl _ _ _). split.
  - rewrite map_map. apply (NoDup_fmap_1 snd). rewrite <- (list_fmap_compose _ snd).
    rewrite (list_fmap_ext _ fst); [apply NoDup_fst_map_to_list|]. by intros i [k [g c]] _.
  - intros k g c. rewrite <- Hr, <- (insert_rows_lookup _ k g c Hnd), list_elem_of_fmap. split.
    + intros ([k' [g' c']] & [= -> -> ->] & Hm). by apply elem_of_map_to_list in Hm.
    + intros Hm. exists (k, (g, c)). split; [done|]. by apply elem_of_map_to_list.
Qed.

(** ** An index built by inserting executables *)

Definition index_of (l : list (string * GameId)) : ExeIndex :=
  foldl (λ idx e, insert_exe (fst e) (snd e) idx) ExeIndex_new l.

(** The last executable of the list with this key. *)
Definition last_owner (l : list (string * GameId)) (k : string) : option GameId :=
  snd <$> list.last (List.filter (λ e, bool_decide (exe_key (fst e) = k)) l).

Definition claims (l : list (string * GameId)) (bn : string) (g : GameId) : Prop :=
  ∃ exe, (exe, g) ∈ l ∧ basename_key exe = Some bn.

Lemma index_of_snoc l e : index_of (l ++ [e]) = insert_exe (fst e) (snd e) (index_of l).
Proof. unfold index_of. by rewrite foldl_app. Qed.

Lemma index_of_path l k : by_path_key (index_of l) !! k = last_owner l k.
Proof.
  induction l as [|[exe g] l IH] using rev_ind; [done|].
  rewrite index_of_snoc. unfold last_owner, insert_exe. rewrite List.filter_app. simpl.
  assert (Hset : by_path_key (set_path (exe_key exe) g (index_of l)) !! k =
    if decide (exe_key exe = k) then Some g else last_owner l k).
  { unfold set_path. simpl. destruct (decide (exe_key exe = k)) as [->|Hk].
    - apply lookup_insert_eq.
    - rewrite lookup_insert_ne by done. exact IH. }
  transitivity (by_path_key (set_path (exe_key exe) g (index_of l)) !! k); [by destruct (basename_key exe)|].
  rewrite Hset. case_decide as Hk; simpl.
  - rewrite bool_decide_eq_true_2 by done. by rewrite last_snoc.
  - rewrite bool_decide_eq_false_2 by done. by rewrite app_nil_r.
Qed.

Lemma claims_snoc l exe g bn g' :
  claims (l ++ [(exe, g)]) bn g' ↔ claims l bn g' ∨ (basename_key exe = Some bn ∧ g' = g).
Proof.
  unfold claims. setoid_rewrite elem_of_app. setoid_rewrite list_elem_of_singleton. naive_solver.
Qed.

Lemma index_of_base l bn :
  NoDup (default [] (by_basename (index_of l) !! bn)) ∧
  (∀ g, g ∈ default [] (by_basename (index_of l) !! bn) ↔ claims l bn g).
Proof.
  induction l as [|[exe g0] l [IHnd IHin]] using rev_ind.
  { split; [constructor|]. intros g. simpl. split; [by intros ?%elem_of_nil|]. by intros (? & ?%elem_of_nil & _). }
  rewrite index_of_snoc. setoid_rewrite claims_snoc. unfold insert_exe. cbn [fst snd].
  destruct (basename_key exe) as [bn'|]; [|split; [exact IHnd|]; intros g; rewrite IHin; naive_solver].
  destruct (decide (bn' = bn)) as [->|Hbn].
  - unfold push_basename, set_path. cbn [by_basename]. rewrite lookup_insert_eq. cbn [default id].
    set (gs := default [] _) in *. destruct (decide (g0 ∈ gs)) as [Hin|Hni].
    + rewrite bool_decide_eq_true_2 by done. split; [done|]. intros g. rewrite IHin. split; [naive_solver|].
      intros [?|[_ ->]]; [done|]. by apply IHin.
    + rewrite bool_decide_eq_false_2 by done. split.
      * apply list.NoDup_app. split_and!; [done| |apply NoDup_singleton]. intros x Hx ->%list_elem_of_singleton. done.
      * intros g. rewrite elem_of_app, list_elem_of_singleton, IHin. naive_solver.
  - rewrite push_basename_other by done. split; [exact IHnd|]. intros g. cbn [set_path by_basename]. rewrite IHin. naive_solver.
Qed.

Lemma index_of_claim l bn g :
  claim (index_of l) bn = Some g ↔ claims l bn g ∧ ∀ g', claims l bn g' → g' = g.
Proof.
  destruct (index_of_base l bn) as [Hnd Hin]. unfold claim.
  destruct (by_basename (index_of l) !! bn) as [[|x [|y gs]]|]; simpl in Hnd, Hin.
  - split; [done|]. by intros [?%Hin%elem_of_nil _].
  - setoid_rewrite <- Hin. setoid_rewrite list_elem_of_singleton. naive_solver.
  - split; [done|]. intros [_ Hu]. exfalso. apply list.NoDup_cons in Hnd as [Hni _]. apply Hni.
    rewrite (Hu x) by (apply Hin, list_elem_of_here).
    rewrite <- (Hu y) by (apply Hin, list_elem_of_further, list_elem_of_here). apply list_elem_of_here.
  - split; [done|]. by intros [?%Hin%elem_of_nil _].
Qed.
End ExeSpec.
