(* ===== verification/Watcher.v ===== *)
(** * savr-daemon: the process watcher (src/crates/savr-daemon/src/detection/mod.rs)

    One turn of [run_watcher]'s loop as a function of its state, what the poll
    found and the clock readings of the turn. *)

From S2P Require Import Prelude CoreTypes ExeIndex.

(** ipc.rs: [DetectionEvent]. *)
Inductive DetectionEvent :=
  | GameStarted (game_id : GameId) (pid : Z) (at_ : DateTime)
  | GameStopped (game_id : GameId) (at_ : DateTime)
  | ManualBackupRequested (game_id : GameId)
  | SaveDirChanged (game_id : GameId)
  | BackupCompleted (game_id : GameId)
  | BackupConflict (game_id : GameId)
  | SaveAvailable (game_id : GameId)
  | CatalogUpdated.

#[export] Instance DetectionEvent_eq_dec : EqDecision DetectionEvent.
Proof. solve_decision. Defined.

Record WatchTuning := { active_interval : Z; idle_interval : Z; settle : Z }.

Definition next_interval (busy : bool) (t : WatchTuning) : Z :=
  if busy then active_interval t else idle_interval t.

(** ** One poll *)

Section Scan.
Context `{PF : Platform}.

(** [scan_running_games] on the processes in the order they are listed: each
    executable is looked up once, and a game keeps the first process found. *)
Fixpoint scan_processes (idx : ExeIndex) (procs : list (Z * option string)) (seen : gset string)
    (out : gmap GameId Z) : gmap GameId Z :=
  match procs with
  | [] => out
  | (pid, None) :: rest => scan_processes idx rest seen out
  | (pid, Some exe) :: rest =>
    if decide (exe ∈ seen) then scan_processes idx rest seen out
    else
      let out := match match_exe exe idx with
                 | Some (g, _) => match out !! g with Some _ => out | None => <[g := pid]> out end
                 | None => out
                 end in
      scan_processes idx rest ({[exe]} ∪ seen) out
  end.

Definition scan_running_games (idx : ExeIndex) (procs : list (Z * option string)) : gmap GameId Z :=
  scan_processes idx procs ∅ ∅.
End Scan.

(** ** One turn *)

Record Watcher := {
  w_running : gmap GameId Z;
  pending_stop : gmap GameId Z;
}.
Definition Watcher_new : Watcher := {| w_running := ∅; pending_stop := ∅ |}.

(** Clock readings of a turn: the monotonic clock when the timer of a game is
    armed and when settled stops are fired, and the wall clock of each event. *)
Record Clock := {
  t_armed : GameId → Z;
  t_fired : Z;
  t_utc : GameId → DateTime;
}.

Section Turn.
Context `{HI : HashIter}.

(** The first loop: starts are announced, and a game seen again is not about to stop. *)
Definition see_one (c : Clock) (running : gmap GameId Z) (acc : list DetectionEvent * gmap GameId Z) (e : GameId * Z) :=
  let '(evs, pending) := acc in
  let '(g, pid) := e in
  (match running !! g with Some _ => evs | None => evs ++ [GameStarted g pid (t_utc c g)] end, delete g pending).

Definition see_running (c : Clock) (running : gmap GameId Z) (seen : list (GameId * Z))
    (pending : gmap GameId Z) : list DetectionEvent * gmap GameId Z :=
  foldl (see_one c running) ([], pending) seen.

(** The second loop: a game that vanished is given the settle time. *)
Definition arm (c : Clock) (settle : Z) (now_running : gmap GameId Z) (games : list GameId)
    (pending : gmap GameId Z) : gmap GameId Z :=
  foldl (λ pending g,
    match now_running !! g, pending !! g with
    | None, None => <[g := (t_armed c g + settle)%Z]> pending
    | _, _ => pending
    end) pending games.

Definition fired (c : Clock) (now_running pending : gmap GameId Z) : list GameId :=
  map fst (List.filter (λ e, bool_decide (now_running !! fst e = None) && bool_decide (snd e <= t_fired c)%Z)
             (hash_iter pending)).

Definition stop_all (c : Clock) (games : list GameId) (pending : gmap GameId Z)
    : list DetectionEvent * gmap GameId Z :=
  foldl (λ '(evs, pending) g, (evs ++ [GameStopped g (t_utc c g)], delete g pending)) ([], pending) games.

Definition watch_turn (tuning : WatchTuning) (c : Clock) (now_running : gmap GameId Z) (w : Watcher)
    : list DetectionEvent * Z * Watcher :=
  let '(starts, pending) := see_running c (w_running w) (hash_iter now_running) (pending_stop w) in
  let pending := arm c (settle tuning) now_running (map fst (hash_iter (w_running w))) pending in
  let '(stops, pending) := stop_all c (fired c now_running pending) pending in
  let busy := negb (bool_decide (now_running = ∅)) || negb (bool_decide (pending = ∅)) in
  (starts ++ stops, next_interval busy tuning, {| w_running := now_running; pending_stop := pending |}).

(** A run of the loop: the events of its turns in order. *)
Fixpoint run_watcher (tuning : WatchTuning) (turns : list (Clock * gmap GameId Z)) (w : Watcher)
    : list DetectionEvent * Watcher :=
  match turns with
  | [] => ([], w)
  | (c, now) :: rest =>
    let '(evs, _, w) := watch_turn tuning c now w in
    let '(later, w) := run_watcher tuning rest w in (evs ++ later, w)
  end.
End Turn.
