(* ===== verification/WatcherSpec.v ===== *)
(** * The watcher, game by game

    Each game goes through its own small automaton: idle, playing, or gone but
    settling.  The loop's hash maps of running games and deadlines implement one
    such automaton for every game at once. *)

From S2P Require Import Prelude CoreTypes Watcher.

(** ** The automaton *)

Inductive Phase := Idle | Playing | Settling (deadline : Z).

(** What one turn does to one game: [seen] is the process found for it. *)
Definition phase_turn (tuning : WatchTuning) (c : Clock) (g : GameId) (seen : option Z) (p : Phase)
    : list DetectionEvent * Phase :=
  let settle_until d :=
    if bool_decide (d <= t_fired c)%Z then ([GameStopped g (t_utc c g)], Idle) else ([], Settling d) in
  match seen, p with
  | Some _, Playing => ([], Playing)
  | Some pid, _ => ([GameStarted g pid (t_utc c g)], Playing)
  | None, Idle => ([], Idle)
  | None, Playing => settle_until (t_armed c g + settle tuning)%Z
  | None, Settling d => settle_until d
  end.

Fixpoint phase_run (tuning : WatchTuning) (g : GameId) (turns : list (Clock * gmap GameId Z)) (p : Phase)
    : list DetectionEvent * Phase :=
  match turns with
  | [] => ([], p)
  | (c, now) :: rest =>
    let '(evs, p) := phase_turn tuning c g (now !! g) p in
    let '(later, p) := phase_run tuning g rest p in (evs ++ later, p)
  end.

(** The phase the maps hold for a game. *)
Definition phase_of (w : Watcher) (g : GameId) : Phase :=
  match w_running w !! g, pending_stop w !! g with
  | Some _, _ => Playing
  | None, Some d => Settling d
  | None, None => Idle
  end.

(** No running game has a deadline. *)
Definition watch_inv (w : Watcher) : Prop := ∀ g, is_Some (w_running w !! g) → pending_stop w !! g = None.

Definition about (g : GameId) (e : DetectionEvent) : bool :=
  match e with GameStarted g' _ _ | GameStopped g' _ => bool_decide (g' = g) | _ => false end.
Definition events_of (g : GameId) (evs : list DetectionEvent) : list DetectionEvent := List.filter (about g) evs.

Lemma events_of_app g a b : events_of g (a ++ b) = events_of g a ++ events_of g b.
Proof. apply List.filter_app. Qed.

Lemma events_of_own g e : about g e = true → events_of g [e] = [e].
Proof. unfold events_of. simpl. by intros ->. Qed.

Lemma events_of_other g e : about g e = false → events_of g [e] = [].
Proof. unfold events_of. simpl. by intros ->. Qed.

Section WatcherSpec.
Context `{HI : HashIter} `{!HashIterLaws}.

(** ** The three loops of a turn *)

Lemma see_other c running seen g evs pending :
  g ∉ map fst seen →
  let '(evs', pending') := foldl (see_one c running) (evs, pending) seen in
  events_of g evs' = events_of g evs ∧ pending' !! g = pending !! g.
Proof.
  revert evs pending. induction seen as [|[g' pid] seen IH]; intros evs pending Hni; [done|].
  apply not_elem_of_cons in Hni as [Hne Hni]. cbn [foldl see_one]. simpl in Hne.
  specialize (IH (match running !! g' with Some _ => evs | None => evs ++ [GameStarted g' pid (t_utc c g')] end)
    (delete g' pending) Hni).
  destruct (foldl _ _ seen) as [evs' pending']. destruct IH as [-> ->]. split.
  - destruct (running !! g'); [done|]. rewrite events_of_app, (events_of_other g); [apply app_nil_r|].
    simpl. by apply bool_decide_eq_false.
  - by apply lookup_delete_ne.
Qed.

Lemma see_running_game c running seen pending g :
  NoDup (map fst seen) →
  let '(evs, pending') := see_running c running seen pending in
  (∀ pid, (g, pid) ∈ seen →
     events_of g evs = match running !! g with Some _ => [] | None => [GameStarted g pid (t_utc c g)] end ∧
     pending' !! g = None) ∧
  (g ∉ map fst seen → events_of g evs = [] ∧ pending' !! g = pending !! g).
Proof.
  intros Hnd. unfold see_running. destruct (foldl _ _ seen) as [evs' pending'] eqn:Ef. split.
  - intros pid Hin. apply list_elem_of_split in Hin as (l1 & l2 & ->).
    rewrite map_app in Hnd. apply list.NoDup_app in Hnd as (_ & Hd & [Hni _]%list.NoDup_cons).
    assert (Hn1 : g ∉ map fst l1) by (intros Hin; apply (Hd g Hin), list_elem_of_here).
    rewrite foldl_app in Ef. pose proof (see_other c running l1 g [] pending Hn1) as H1.
    destruct (foldl _ _ l1) as [evs1 p1]. destruct H1 as [He1 Hp1]. cbn [foldl see_one] in Ef.
    pose proof (see_other c running l2 g
      (match running !! g with Some _ => evs1 | None => evs1 ++ [GameStarted g pid (t_utc c g)] end) (delete g p1) Hni) as H2.
    rewrite Ef in H2. destruct H2 as [-> ->]. split; [|apply lookup_delete_eq].
    destruct (running !! g); [done|]. rewrite events_of_app, He1. apply events_of_own. simpl. by apply bool_decide_eq_true.
  - intros Hni. pose proof (see_other c running seen g [] pending Hni) as Ho. by rewrite Ef in Ho.
Qed.

Lemma arm_game c s now games pending g :
  arm c s now games pending !! g =
    match now !! g, pending !! g with
    | None, None => if decide (g ∈ games) then Some (t_armed c g + s)%Z else None
    | _, _ => pending !! g
    end.
Proof.
  unfold arm. revert pending. induction games as [|g' games IH]; intros pending; cbn [foldl].
  { rewrite decide_False by apply not_elem_of_nil. by destruct (now !! g), (pending !! g). }
  rewrite IH. clear IH. destruct (decide (g' = g)) as [->|Hne].
  - rewrite (decide_True (P := g ∈ g :: games)) by apply list_elem_of_here.
    destruct (now !! g) eqn:En; [done|]. destruct (pending !! g) eqn:Ep; [by rewrite Ep|]. by rewrite lookup_insert_eq.
  - assert (Hl : (match now !! g', pending !! g' with
                  | None, None => <[g' := (t_armed c g' + s)%Z]> pending | _, _ => pending end) !! g = pending !! g).
    { destruct (now !! g'), (pending !! g'); try done. by apply lookup_insert_ne. }
    rewrite Hl. destruct (now !! g), (pending !! g); try done. apply decide_ext. rewrite elem_of_cons. naive_solver.
Qed.

Lemma stop_all_game c games pending g :
  NoDup games →
  let '(evs, pending') := stop_all c games pending in
  events_of g evs = (if decide (g ∈ games) then [GameStopped g (t_utc c g)] else []) ∧
  pending' !! g = (if decide (g ∈ games) then None else pending !! g).
Proof.
  intros Hnd. unfold stop_all.
  enough (Hgen : ∀ evs, let '(evs', pending') := foldl (λ '(evs, pending) g, (evs ++ [GameStopped g (t_utc c g)], delete g pending)) (evs, pending) games in
    events_of g evs' = events_of g evs ++ (if decide (g ∈ games) then [GameStopped g (t_utc c g)] else []) ∧
    pending' !! g = (if decide (g ∈ games) then None else pending !! g)) by (exact (Hgen [])).
  revert pending. induction games as [|g' games IH]; intros pending evs; cbn [foldl].
  { rewrite !decide_False by apply not_elem_of_nil. by rewrite app_nil_r. }
  apply list.NoDup_cons in Hnd as [Hni Hnd].
  specialize (IH Hnd (delete g' pending) (evs ++ [GameStopped g' (t_utc c g')])).
  destruct (foldl _ _ games) as [evs' pending']. destruct IH as [-> ->]. rewrite events_of_app.
  destruct (decide (g' = g)) as [->|Hne].
  - assert (Hhere : g ∈ g :: games) by apply list_elem_of_here.
    rewrite !(decide_False (P := g ∈ games)), !(decide_True (P := g ∈ g :: games)) by done.
    rewrite (events_of_own g) by (simpl; by apply bool_decide_eq_true). by rewrite app_nil_r, lookup_delete_eq.
  - rewrite (events_of_other g) by (simpl; by apply bool_decide_eq_false). rewrite app_nil_r, lookup_delete_ne by done.
    assert (Hiff : g ∈ games ↔ g ∈ g' :: games) by (rewrite elem_of_cons; naive_solver).
    split; [f_equal|]; by apply decide_ext.
Qed.

(** ** A turn, a run *)

Lemma elem_of_fired c now pending g :
  g ∈ fired c now pending ↔ now !! g = None ∧ ∃ d, pending !! g = Some d ∧ (d <= t_fired c)%Z.
Proof.
  unfold fired. rewrite list_elem_of_fmap. split.
  - intros ([g' d] & -> & Hin). apply list_elem_of_In, filter_In in Hin as [Hin Hb].
    apply list_elem_of_In, elem_of_hash_iter in Hin. bool_simpl. simpl in *. eauto.
  - intros (Hn & d & Hp & Hd). exists (g, d). split; [done|]. apply list_elem_of_In, filter_In. split.
    + by apply list_elem_of_In, elem_of_hash_iter.
    + simpl. by rewrite !bool_decide_eq_true_2.
Qed.

Lemma fired_NoDup c now pending : NoDup (fired c now pending).
Proof. apply NoDup_key_filter, hash_iter_keys. Qed.

Lemma elem_of_keys {V} (m : gmap GameId V) g : g ∈ map fst (hash_iter m) ↔ is_Some (m !! g).
Proof.
  rewrite list_elem_of_fmap. split.
  - intros ([g' v] & -> & Hin%elem_of_hash_iter). by eexists.
  - intros [v Hv]. exists (g, v). by rewrite elem_of_hash_iter.
Qed.

(** The deadline of a game once the second loop has run. *)
Definition deadline (c : Clock) (s : Z) (w : Watcher) (g : GameId) : option Z :=
  match pending_stop w !! g, w_running w !! g with
  | Some d, _ => Some d
  | None, Some _ => Some (t_armed c g + s)%Z
  | None, None => None
  end.

Lemma watch_turn_game tuning c now w g :
  let '(evs, _, w') := watch_turn tuning c now w in
  match now !! g with
  | Some pid =>
    events_of g evs = match w_running w !! g with Some _ => [] | None => [GameStarted g pid (t_utc c g)] end ∧
    pending_stop w' !! g = None
  | None =>
    match deadline c (settle tuning) w g with
    | Some d => if bool_decide (d <= t_fired c)%Z
                then events_of g evs = [GameStopped g (t_utc c g)] ∧ pending_stop w' !! g = None
                else events_of g evs = [] ∧ pending_stop w' !! g = Some d
    | None => events_of g evs = [] ∧ pending_stop w' !! g = None
    end
  end ∧ w_running w' = now.
Proof.
  unfold watch_turn.
  pose proof (see_running_game c (w_running w) (hash_iter now) (pending_stop w) g (hash_iter_keys now)) as Hs.
  destruct (see_running _ _ _ _) as [starts p1]. destruct Hs as [Hseen Hunseen].
  pose proof (arm_game c (settle tuning) now (map fst (hash_iter (w_running w))) p1 g) as Ha.
  set (p2 := arm _ _ _ _ p1) in *.
  pose proof (stop_all_game c (fired c now p2) p2 g (fired_NoDup _ _ _)) as Hst.
  destruct (stop_all _ _ _) as [stops p3]. destruct Hst as [He Hp]. cbn [fst snd w_running pending_stop].
  rewrite events_of_app, He, Hp. clear He Hp. split; [|done]. destruct (now !! g) as [pid|] eqn:En.
  - destruct (Hseen pid) as [-> Hp1]; [by apply elem_of_hash_iter|].
    rewrite !decide_False by (rewrite elem_of_fired, En; naive_solver). by rewrite app_nil_r, Ha, Hp1.
  - destruct Hunseen as [-> Hp1]; [rewrite elem_of_keys, En; by intros [? ?]|]. rewrite Hp1 in Ha.
    assert (Hd : p2 !! g = deadline c (settle tuning) w g).
    { rewrite Ha. unfold deadline. destruct (pending_stop w !! g); [done|].
      destruct (w_running w !! g) eqn:Er; [rewrite decide_True|rewrite decide_False]; try done;
        rewrite elem_of_keys, Er; [by eexists|by intros [? ?]]. }
    pose proof (elem_of_fired c now p2 g) as Hf. rewrite Hd, En in Hf. rewrite Hd. cbn [app].
    destruct (deadline c (settle tuning) w g) as [d|].
    + destruct (decide (d <= t_fired c)%Z) as [Hle|Hgt].
      * rewrite bool_decide_eq_true_2, !decide_True by naive_solver. done.
      * rewrite bool_decide_eq_false_2, !decide_False by naive_solver. done.
    + rewrite !decide_False by naive_solver. done.
Qed.

Lemma watch_turn_phase tuning c now w g :
  watch_inv w →
  let '(evs, _, w') := watch_turn tuning c now w in
  (events_of g evs, phase_of w' g) = phase_turn tuning c g (now !! g) (phase_of w g).
Proof.
  intros Hw. pose proof (watch_turn_game tuning c now w g) as Ht.
  destruct (watch_turn tuning c now w) as [[evs i] w']. destruct Ht as [Ht Hr].
  unfold phase_of, phase_turn. rewrite Hr. specialize (Hw g). unfold deadline in Ht.
  destruct (now !! g) as [pid|].
  - destruct Ht as [-> _]. destruct (w_running w !! g); [done|]. by destruct (pending_stop w !! g).
  - destruct (w_running w !! g) as [pid|]; [rewrite Hw in Ht by (by eexists)|destruct (pending_stop w !! g)];
      try case_bool_decide; by destruct Ht as [-> ->].
Qed.

Lemma watch_turn_inv tuning c now w :
  let '(_, _, w') := watch_turn tuning c now w in watch_inv w'.
Proof.
  pose proof (watch_turn_game tuning c now w) as Ht. destruct (watch_turn tuning c now w) as [[evs i] w'].
  intros g [pid Hg]. destruct (Ht g) as [Hc Hr]. rewrite Hr in Hg. rewrite Hg in Hc. by destruct Hc.
Qed.

Lemma run_watcher_phase tuning turns w g :
  watch_inv w →
  let '(evs, w') := run_watcher tuning turns w in
  (events_of g evs, phase_of w' g) = phase_run tuning g turns (phase_of w g) ∧ watch_inv w'.
Proof.
  revert w. induction turns as [|[c now] turns IH]; intros w Hw; [done|]. cbn [run_watcher phase_run].
  pose proof (watch_turn_phase tuning c now w g Hw) as Hp. pose proof (watch_turn_inv tuning c now w) as Hi.
  destruct (watch_turn tuning c now w) as [[evs i] w1]. specialize (IH w1 Hi).
  destruct (run_watcher tuning turns w1) as [later w2]. destruct IH as [IH Hi2]. split; [|done].
  rewrite events_of_app, <- Hp, <- IH. done.
Qed.

(** ** Sessions *)

(** Turns in which a game is not seen. *)
Definition absent (g : GameId) (turns : list (Clock * gmap GameId Z)) : Prop :=
  Forall (λ t, snd t !! g = None) turns.

Lemma idle_run tuning g turns : absent g turns → phase_run tuning g turns Idle = ([], Idle).
Proof.
  induction turns as [|[c now] turns IH]; [done|]. intros [Hn Ha]%list.Forall_cons. simpl in *.
  rewrite Hn. simpl. by rewrite IH.
Qed.

Lemma settling_run tuning g turns d :
  absent g turns →
  phase_run tuning g turns (Settling d) =
    match fetch_optional (λ t, bool_decide (d <= t_fired (fst t))%Z) turns with
    | Some (c, _) => ([GameStopped g (t_utc c g)], Idle)
    | None => ([], Settling d)
    end.
Proof.
  induction turns as [|[c now] turns IH]; [done|]. intros [Hn Ha]%list.Forall_cons. simpl in Hn.
  rewrite fetch_optional_cons. cbn [phase_run fst]. rewrite Hn. cbn [phase_turn]. case_bool_decide; cbv beta iota.
  - by rewrite idle_run.
  - rewrite IH by done. by destruct (fetch_optional _ turns) as [[c' now']|].
Qed.

Lemma playing_run tuning g c now turns :
  absent g ((c, now) :: turns) →
  phase_run tuning g ((c, now) :: turns) Playing =
    let d := (t_armed c g + settle tuning)%Z in
    match fetch_optional (λ t, bool_decide (d <= t_fired (fst t))%Z) ((c, now) :: turns) with
    | Some (c', _) => ([GameStopped g (t_utc c' g)], Idle)
    | None => ([], Settling d)
    end.
Proof.
  intros [Hn Ha]%list.Forall_cons. simpl in Hn. cbv zeta. rewrite fetch_optional_cons. cbn [phase_run fst].
  rewrite Hn. cbn [phase_turn]. case_bool_decide; cbv beta iota; [by rewrite idle_run|].
  rewrite settling_run by done. by destruct (fetch_optional _ turns) as [[c' now']|].
Qed.
End WatcherSpec.
