(* ===== verification/Steam.v ===== *)
(** * savr-daemon: Steam libraries (src/crates/savr-daemon/src/detection/steam.rs)

    The KeyValues parser, and what is read from Steam's files with it.  Text is
    the string of its UTF-8 bytes.  The loops and the mutual recursion run on
    fuel; [None] is running out of it, which SteamSpec.v shows does not happen. *)

From S2P Require Import Prelude CoreTypes Snapshot Archive LocalState Backup ExeIndex.
From Stdlib Require Import Ascii.

(** ** UTF-8 *)

Definition in_range (lo hi : nat) (c : ascii) : bool := (lo <=? nat_of_ascii c) && (nat_of_ascii c <=? hi).
Definition cont_byte : ascii → bool := in_range 128 191.

(** [str::from_utf8] accepts exactly the well-formed byte sequences. *)
Fixpoint utf8_valid (s : string) : bool :=
  match s with
  | EmptyString => true
  | String a r =>
    if in_range 0 127 a then utf8_valid r
    else if in_range 194 223 a then
      match r with String b r => cont_byte b && utf8_valid r | _ => false end
    else if in_range 224 239 a then
      match r with
      | String b (String c r) =>
        (if in_range 224 224 a then in_range 160 191 b else if in_range 237 237 a then in_range 128 159 b else cont_byte b)
        && cont_byte c && utf8_valid r
      | _ => false
      end
    else if in_range 240 244 a then
      match r with
      | String b (String c (String d r)) =>
        (if in_range 240 240 a then in_range 144 191 b else if in_range 244 244 a then in_range 128 143 b else cont_byte b)
        && cont_byte c && cont_byte d && utf8_valid r
      | _ => false
      end
    else false
  end.

Definition utf8_len (first : ascii) : nat :=
  if in_range 0 127 first then 1
  else if in_range 192 223 first then 2
  else if in_range 224 239 first then 3
  else 4.

(** [char::from] of a byte, encoded. *)
Definition char_of_byte (b : ascii) : string :=
  let n := nat_of_ascii b in
  if in_range 0 127 b then String b ""
  else String (ascii_of_nat (192 + n / 64)) (String (ascii_of_nat (128 + n mod 64)) "").

(** ** Tokens *)

Inductive Token := TStr (s : string) | TOpen | TClose.
#[export] Instance Token_eq_dec : EqDecision Token.
Proof. solve_decision. Defined.

Definition quote : ascii := ascii_of_nat 34.
Definition backslash : ascii := ascii_of_nat 92.
Definition brace_open : ascii := ascii_of_nat 123.
Definition brace_close : ascii := ascii_of_nat 125.
Definition newline_char : ascii := ascii_of_nat 10.
Definition tab_char : ascii := ascii_of_nat 9.

Fixpoint drop_bytes (n : nat) (s : string) : string :=
  match n, s with S n, String _ r => drop_bytes n r | _, _ => s end.
Fixpoint take_bytes (n : nat) (s : string) : string :=
  match n, s with S n, String c r => String c (take_bytes n r) | _, _ => EmptyString end.

Definition unescape (b : ascii) : string :=
  if decide (b = "n"%char) then String newline_char ""
  else if decide (b = "t"%char) then String tab_char ""
  else char_of_byte b.

(** The body of a quoted string, from after its opening quote: its value and
    what follows the closing quote. *)
Fixpoint lex_string (fuel : nat) (s acc : string) : option (option (string * string)) :=
  match fuel with
  | O => None
  | S fuel =>
    match s with
    | EmptyString => Some None
    | String a r =>
      if decide (a = quote) then Some (Some (acc, r))
      else if decide (a = backslash) then
        match r with
        | EmptyString => Some None
        | String b r => lex_string fuel r (acc +:+ unescape b)
        end
      else
        let ch := take_bytes (utf8_len a) s in
        if utf8_valid ch then lex_string fuel (drop_bytes (utf8_len a) s) (acc +:+ ch) else Some None
    end
  end.

(** To the end of a line comment. *)
Fixpoint skip_line (s : string) : string :=
  match s with
  | EmptyString => EmptyString
  | String a r => if decide (a = newline_char) then s else skip_line r
  end.

Fixpoint tokenize_from (fuel : nat) (s : string) (tokens : list Token) : option (option (list Token)) :=
  match fuel with
  | O => None
  | S fuel =>
    match s with
    | EmptyString => Some (Some tokens)
    | String a r =>
      if decide (a = brace_open) then tokenize_from fuel r (tokens ++ [TOpen])
      else if decide (a = brace_close) then tokenize_from fuel r (tokens ++ [TClose])
      else if decide (a = quote) then
        match lex_string fuel r "" with
        | None => None
        | Some None => Some None
        | Some (Some (v, rest)) => tokenize_from fuel rest (tokens ++ [TStr v])
        end
      else if starts_with "//" s then tokenize_from fuel (skip_line s) tokens
      else tokenize_from fuel r tokens
    end
  end.

Definition text_fuel (s : string) : nat := 2 + String.length s.
Definition tokenize (s : string) : option (option (list Token)) := tokenize_from (text_fuel s) s [].

(** ** Trees *)

Inductive Kv := KStr (s : string) | KObj (entries : list (string * Kv)).

Definition kv_entries (k : Kv) : list (string * Kv) := match k with KObj e => e | KStr _ => [] end.
Definition as_str (k : Kv) : option string := match k with KStr s => Some s | KObj _ => None end.
Definition kv_get (key : string) (k : Kv) : option Kv :=
  snd <$> List.find (λ e, bool_decide (fst e = key)) (kv_entries k).
(** [.and_then(Kv::as_str)] of a child. *)
Definition kv_text (key : string) (k : Kv) : option string :=
  match kv_get key k with Some v => as_str v | None => None end.

Section Parse.
(** What [parse_pair] and [parse_obj] yield: a value and the tokens left. *)
Definition Parsed (A : Type) : Type := option (option (A * list Token)).

Fixpoint parse_pair (fuel : nat) (tokens : list Token) : Parsed (string * Kv) :=
  match tokens with
  | TStr key :: TStr s :: rest => Some (Some ((key, KStr s), rest))
  | TStr key :: TOpen :: rest =>
    match fuel with
    | O => None
    | S fuel =>
      match parse_obj fuel rest [] with
      | Some (Some (obj, rest)) => Some (Some ((key, obj), rest))
      | Some None => Some None
      | None => None
      end
    end
  | _ => Some None
  end
with parse_obj (fuel : nat) (tokens : list Token) (entries : list (string * Kv)) : Parsed Kv :=
  match tokens with
  | [] => Some None
  | TClose :: rest => Some (Some (KObj entries, rest))
  | _ =>
    match fuel with
    | O => None
    | S fuel =>
      match parse_pair fuel tokens with
      | Some (Some (e, rest)) => parse_obj fuel rest (entries ++ [e])
      | Some None => Some None
      | None => None
      end
    end
  end.

Fixpoint parse_root (fuel : nat) (tokens : list Token) (root : list (string * Kv)) : option (option Kv) :=
  match tokens with
  | [] => Some (Some (KObj root))
  | _ =>
    match fuel with
    | O => None
    | S fuel =>
      match parse_pair fuel tokens with
      | Some (Some (e, rest)) => parse_root fuel rest (root ++ [e])
      | Some None => Some None
      | None => None
      end
    end
  end.

Definition token_fuel (tokens : list Token) : nat := 2 * length tokens.

Definition parse_text (text : string) : option (option Kv) :=
  match tokenize text with
  | Some (Some tokens) => parse_root (token_fuel tokens) tokens []
  | Some None => Some None
  | None => None
  end.
(** [steam::parse]. *)
Definition parse_kv (text : string) : option Kv := mjoin (parse_text text).
End Parse.

(** ** Library folders and app manifests *)

Record SteamGame := { sg_appid : N; sg_installdir : string; sg_name : string }.
Record SteamLibrary := { lib_path : string; lib_games : list SteamGame }.

Definition install_path (lib : SteamLibrary) (g : SteamGame) : string :=
  foldl text_join (lib_path lib) ["steamapps"; "common"; sg_installdir g].
Definition proton_drive_c (lib : SteamLibrary) (appid : N) : string :=
  foldl text_join (lib_path lib) ["steamapps"; "compatdata"; u32_to_string appid; "pfx"; "drive_c"].
Definition userdata_dir (lib : SteamLibrary) : string := text_join (lib_path lib) "userdata".

Fixpoint ascii_lowercase (s : string) : string :=
  match s with EmptyString => EmptyString | String c r => String (to_ascii_lowercase c) (ascii_lowercase r) end.
Definition eq_ignore_ascii_case (a b : string) : bool := bool_decide (ascii_lowercase a = ascii_lowercase b).

Definition parse_library_paths (vdf : string) : list string :=
  match parse_kv vdf with
  | None => []
  | Some root =>
    let container :=
      match List.find (λ e, eq_ignore_ascii_case (fst e) "libraryfolders") (kv_entries root) with
      | Some (_, v) => v
      | None => root
      end in
    omap (λ '(key, value),
      match u32_parse key with
      | None => None
      | Some _ =>
        match value with
        | KStr p => Some p
        | KObj _ => kv_text "path" value
        end
      end) (kv_entries container)
  end.

Definition is_ascii_digit (c : ascii) : bool := in_range 48 57 c.
Definition first_is_digit (s : string) : bool :=
  match s with String c _ => is_ascii_digit c | EmptyString => false end.

Definition is_non_game_app (appid : N) (installdir : string) : bool :=
  (bool_decide (appid = 228980%N) || bool_decide (appid = 250820%N)) ||
  starts_with "SteamLinuxRuntime" installdir || bool_decide (installdir = "Steamworks Shared") ||
  bool_decide (installdir = "Proton Hotfix") || bool_decide (installdir = "Proton Next") ||
  starts_with "Proton - " installdir || starts_with "Proton EasyAntiCheat" installdir ||
  match strip_prefix "Proton " installdir with Some rest => first_is_digit rest | None => false end.

(** [char::is_whitespace], as the UTF-8 encodings of its characters. *)
Definition utf8_seq (l : list nat) : string := String.string_of_list_ascii (map ascii_of_nat l).
Definition white_space : list string := map utf8_seq (
  map (λ n, [n]) [9; 10; 11; 12; 13; 32] ++ [[194; 133]; [194; 160]; [225; 154; 128]] ++
  map (λ n, [226; 128; n]) [128; 129; 130; 131; 132; 133; 134; 135; 136; 137; 138; 168; 169; 175] ++
  [[226; 129; 159]; [227; 128; 128]]).

Definition strip_one (prefixes : list string) (s : string) : option string :=
  head (omap (λ p, strip_prefix p s) prefixes).
Fixpoint strip_while (prefixes : list string) (fuel : nat) (s : string) : string :=
  match fuel with
  | O => s
  | S fuel => match strip_one prefixes s with Some r => strip_while prefixes fuel r | None => s end
  end.
(** [str::trim]. *)
Definition trim_ws (s : string) : string :=
  let s := strip_while white_space (String.length s) s in
  String.rev (strip_while (map String.rev white_space) (String.length s) (String.rev s)).

Definition game_name (state : Kv) (installdir : string) : string :=
  match kv_text "name" state with
  | Some n => if decide (trim_ws n = "") then installdir else trim_ws n
  | None => installdir
  end.

Definition parse_app_manifest (acf : string) : option SteamGame :=
  root ← parse_kv acf;
  state ← kv_get "AppState" root;
  appid_text ← kv_text "appid" state;
  appid ← u32_parse appid_text;
  let flags := match kv_text "StateFlags" state with Some s => default 0%N (u32_parse s) | None => 0%N end in
  if decide (N.land flags 4 = 0%N) then None : option SteamGame
  else
    installdir ← kv_text "installdir" state;
    if is_non_game_app appid installdir then None
    else Some {| sg_appid := appid; sg_installdir := installdir; sg_name := game_name state installdir |}.

(** ** On the disk *)

(** [fs::read_to_string]. *)
Definition read_to_string (root : Node) (path : string) : option string :=
  b ← read_file root (path_of_text path);
  let s := String.string_of_list_byte b in
  if utf8_valid s then Some s else None.

(** [fs::read_dir]: the entries in listing order. *)
Definition read_dir (root : Node) (path : string) : option (list (string * Node)) :=
  match node_at (path_of_text path) root with Some (DirN es) => Some es | _ => None end.

Definition is_dir (n : Node) : bool := match n with DirN _ => true | _ => false end.

Definition steam_account_ids (root : Node) (userdata : string) : list string :=
  match read_dir root userdata with
  | None => []
  | Some es =>
    List.filter (λ n, negb (bool_decide (n = "0")) && negb (bool_decide (n = "")) &&
                      forallb is_ascii_digit (String.list_ascii_of_string n))
      (map fst (List.filter (λ e, is_dir (snd e)) es))
  end.

Definition read_manifests (root : Node) (steamapps : string) (es : list (string * Node)) : list SteamGame :=
  omap (λ '(name, _),
    if starts_with "appmanifest_" name && ends_with ".acf" name
    then read_to_string root (text_join steamapps name) ≫= parse_app_manifest
    else None) es.

Definition discover_libraries (root : Node) (steam_root : string) : list SteamLibrary :=
  let vdf_path := foldl text_join steam_root ["steamapps"; "libraryfolders.vdf"] in
  let lib_paths := match read_to_string root vdf_path with Some t => parse_library_paths t | None => [] end in
  let lib_paths :=
    if existsb (λ p, bool_decide (path_of_text p = path_of_text steam_root)) lib_paths then lib_paths
    else lib_paths ++ [steam_root] in
  omap (λ lib,
    let steamapps := text_join lib "steamapps" in
    es ← read_dir root steamapps;
    Some {| lib_path := lib; lib_games := read_manifests root steamapps es |}) lib_paths.

Definition default_steam_roots `{Platform} (root : Node) (os : Os) (home : string) : list string :=
  List.filter (path_exists root)
    match os with
    | Macos => [text_join home "Library/Application Support/Steam"]
    | Windows => ["C:\Program Files (x86)\Steam"; "C:\Program Files\Steam"]
    | Linux => map (text_join home) [".steam/steam"; ".local/share/Steam"; ".var/app/com.valvesoftware.Steam/data/Steam"]
    end.
