(* ===== verification/SteamSpec.v ===== *)
(** * Properties of the KeyValues parser

    The fuel given to the lexer and the parser is enough on every input, and a
    printed tree parses back to itself. *)

From S2P Require Import Prelude CoreTypes Snapshot Archive LocalState Backup ExeIndex Steam.
From Stdlib Require Import Ascii.

Lemma append_nil_r (a : string) : a +:+ "" = a.
Proof. induction a as [|x a IH]; [done|]. by rewrite append_cons, IH. Qed.

Lemma string_length_app (a b : string) : String.length (a +:+ b) = String.length a + String.length b.
Proof. induction a as [|x a IH]; [done|]. rewrite append_cons. simpl. by rewrite IH. Qed.

(** ** The lexer ends *)

Lemma drop_bytes_length n s : String.length (drop_bytes n s) <= String.length s.
Proof. revert s. induction n as [|n IH]; intros [|a s]; simpl; try lia. specialize (IH s). lia. Qed.

Lemma utf8_len_pos a : ∃ n, utf8_len a = S n.
Proof. unfold utf8_len. repeat case_match; eauto. Qed.

Lemma skip_line_length s : String.length (skip_line s) <= String.length s.
Proof. induction s as [|a s IH]; simpl; [lia|]. case_decide; simpl; lia. Qed.

Lemma lex_string_total fuel s acc :
  String.length s < fuel →
  ∃ r, lex_string fuel s acc = Some r ∧ ∀ v rest, r = Some (v, rest) → String.length rest < String.length s.
Proof.
  revert s acc. induction fuel as [|fuel IH]; intros s acc Hf; [lia|].
  assert (Hrec : ∀ s' acc', String.length s' < String.length s →
    ∃ r, lex_string fuel s' acc' = Some r ∧ ∀ v rest, r = Some (v, rest) → String.length rest < String.length s).
  { intros s' acc' Hs. destruct (IH s' acc') as (r & Hr & Hl); [lia|]. exists r. split; [done|].
    intros v rest E. specialize (Hl v rest E). lia. }
  destruct s as [|a s]; cbn [lex_string]; [by eexists|]. case_decide.
  { eexists. split; [done|]. intros v rest [= _ <-]. simpl. lia. }
  case_decide.
  { destruct s as [|b s]; [by eexists|]. apply Hrec. simpl. lia. }
  destruct (utf8_valid _); [|by eexists]. apply Hrec.
  destruct (utf8_len_pos a) as [n ->]. simpl. pose proof (drop_bytes_length n s). lia.
Qed.

Lemma tokenize_from_total fuel s ts : String.length s < fuel → ∃ r, tokenize_from fuel s ts = Some r.
Proof.
  revert s ts. induction fuel as [|fuel IH]; intros s ts Hf; [lia|].
  destruct s as [|a s]; cbn [tokenize_from]; [by eexists|]. simpl in Hf.
  case_decide; [apply IH; lia|]. case_decide; [apply IH; lia|]. case_decide.
  { destruct (lex_string_total fuel s "") as ([[v rest]|] & -> & Hl); [lia| |by eexists].
    specialize (Hl v rest eq_refl). apply IH. lia. }
  destruct (starts_with _ _) eqn:Es; [|apply IH; lia]. apply IH.
  assert (Ha : a ≠ newline_char).
  { intros ->. apply bool_decide_eq_true in Es as [r Hr]. discriminate Hr. }
  simpl. rewrite decide_False by done. pose proof (skip_line_length s). lia.
Qed.

(** ** More fuel changes nothing *)

Lemma lex_string_more f s acc r : lex_string f s acc = Some r → ∀ f', f <= f' → lex_string f' s acc = Some r.
Proof.
  revert s acc. induction f as [|f IH]; intros s acc Hr f' Hf; [done|].
  destruct f' as [|f']; [lia|]. cbn [lex_string] in *. destruct s as [|a s]; [done|].
  repeat case_decide; [done| |].
  - destruct s; [done|]. apply IH; [done|lia].
  - destruct (utf8_valid _); [|done]. apply IH; [done|lia].
Qed.

Lemma tokenize_from_more f s ts r : tokenize_from f s ts = Some r → ∀ f', f <= f' → tokenize_from f' s ts = Some r.
Proof.
  revert s ts. induction f as [|f IH]; intros s ts Hr f' Hf; [done|].
  destruct f' as [|f']; [lia|]. cbn [tokenize_from] in *. destruct s as [|a s]; [done|].
  repeat case_decide; try (apply IH; [done|lia]).
  - destruct (lex_string f s "") as [r0|] eqn:El; [|done].
    rewrite (lex_string_more _ _ _ _ El) by lia. destruct r0 as [[v rest]|]; [|done]. apply IH; [done|lia].
  - destruct (starts_with _ _); apply IH; (done || lia).
Qed.

Definition tok (s : string) (ts : list Token) : option (option (list Token)) := tokenize_from (text_fuel s) s ts.

Lemma tok_fuel f s ts : String.length s < f → tokenize_from f s ts = tok s ts.
Proof.
  intros Hf. destruct (tokenize_from_total f s ts Hf) as [r Hr]. unfold tok, text_fuel.
  destruct (tokenize_from_total (S (String.length s)) s ts) as [r' Hr']; [lia|].
  rewrite (tokenize_from_more _ _ _ _ Hr' (2 + String.length s)) by lia.
  destruct (decide (f <= S (String.length s))) as [Hle|Hgt].
  - by rewrite Hr, <- Hr', (tokenize_from_more _ _ _ _ Hr (S (String.length s))).
  - by rewrite (tokenize_from_more _ _ _ _ Hr' f) by lia.
Qed.

Lemma text_fuel_cons a r : text_fuel (String a r) = S (text_fuel r).
Proof. done. Qed.

Lemma tok_rest s ts : tokenize_from (text_fuel s) s ts = tok s ts.
Proof. done. Qed.

Lemma tok_junk a r ts :
  a ≠ brace_open → a ≠ brace_close → a ≠ quote → a ≠ "/"%char → tok (String a r) ts = tok r ts.
Proof.
  intros H1 H2 H3 H4. unfold tok at 1. rewrite text_fuel_cons. cbn [tokenize_from]. rewrite !decide_False by done.
  destruct (starts_with _ _) eqn:Es; [|apply tok_rest].
  exfalso. apply bool_decide_eq_true in Es as [x Hx].
  change (strip_prefix "//" (String a r)) with (if decide ("/"%char = a) then strip_prefix "/" r else None) in Hx.
  rewrite decide_False in Hx by congruence. discriminate Hx.
Qed.

Lemma tok_open r ts : tok (String brace_open r) ts = tok r (ts ++ [TOpen]).
Proof. unfold tok at 1. rewrite text_fuel_cons. cbn [tokenize_from]. rewrite decide_True by done. apply tok_rest. Qed.

Lemma tok_close r ts : tok (String brace_close r) ts = tok r (ts ++ [TClose]).
Proof.
  unfold tok at 1. rewrite text_fuel_cons. cbn [tokenize_from]. rewrite decide_False, decide_True by done.
  apply tok_rest.
Qed.

(** ** Quoted strings *)

Fixpoint escape (s : string) : string :=
  match s with
  | EmptyString => EmptyString
  | String a r =>
    if decide (a = quote ∨ a = backslash) then String backslash (String a (escape r)) else String a (escape r)
  end.
Definition show_string (s : string) : string := String quote (escape s +:+ String quote "").

Lemma ascii_small a : a = quote ∨ a = backslash → in_range 0 127 a = true.
Proof. by intros [->| ->]. Qed.

Lemma escape_high a r : in_range 0 127 a = false → escape (String a r) = String a (escape r).
Proof.
  intros Ha. simpl. rewrite decide_False; [done|]. intros Hq. by rewrite (ascii_small a Hq) in Ha.
Qed.

Ltac range_tac :=
  unfold in_range in *;
  rewrite ?andb_true_iff, ?andb_false_iff, ?Nat.leb_le, ?Nat.leb_gt in *; lia.

Lemma range_high lo hi a : 127 < lo → in_range lo hi a = true → in_range 0 127 a = false.
Proof. intros. range_tac. Qed.

Lemma cont_high a : cont_byte a = true → in_range 0 127 a = false.
Proof. unfold cont_byte. apply range_high. lia. Qed.

Lemma in_range_sub lo hi lo' hi' a : in_range lo hi a = true → lo' <= lo → hi <= hi' → in_range lo' hi' a = true.
Proof. intros. range_tac. Qed.

Lemma in_range_disj lo hi lo' hi' a : in_range lo hi a = true → hi < lo' ∨ hi' < lo → in_range lo' hi' a = false.
Proof. intros. range_tac. Qed.

(** The first character of a well-formed text that is not ASCII. *)
Lemma utf8_first a r :
  utf8_valid (String a r) = true → in_range 0 127 a = false →
  ∃ c r', String a r = c +:+ r' ∧ take_bytes (utf8_len a) (String a r) = c ∧ drop_bytes (utf8_len a) (String a r) = r' ∧
    utf8_valid c = true ∧ utf8_valid r' = true ∧ (∀ x, escape (c +:+ x) = c +:+ escape x) ∧
    (∀ x, take_bytes (utf8_len a) (c +:+ x) = c ∧ drop_bytes (utf8_len a) (c +:+ x) = x).
Proof.
  intros Hv Ha. cbn [utf8_valid] in Hv. rewrite Ha in Hv.
  destruct (in_range 194 223 a) eqn:H2.
  { destruct r as [|b r]; [done|]. apply andb_true_iff in Hv as [Hb Hr]. exists (String a (String b "")), r.
    unfold utf8_len. rewrite Ha, (in_range_sub _ _ 192 223 _ H2) by lia. split_and!; try done.
    - cbn [utf8_valid]. by rewrite Ha, H2, Hb.
    - intros x. rewrite ?append_cons, ?append_nil_l. by rewrite !escape_high by eauto using cont_high. }
  destruct (in_range 224 239 a) eqn:H3.
  { destruct r as [|b [|c r]]; [done..|]. apply andb_true_iff in Hv as [[Hb Hc]%andb_true_iff Hr].
    exists (String a (String b (String c ""))), r.
    unfold utf8_len. rewrite Ha, (in_range_disj _ _ 192 223 _ H3), H3 by lia. split_and!; try done.
    - cbn [utf8_valid]. by rewrite Ha, H2, H3, Hb, Hc.
    - assert (Hb' : in_range 0 127 b = false) by (repeat case_match; (eapply range_high; [|exact Hb]); lia).
      intros x. rewrite ?append_cons, ?append_nil_l. by rewrite !escape_high by eauto using cont_high. }
  destruct (in_range 240 244 a) eqn:H4; [|done].
  destruct r as [|b [|c [|d r]]]; [done..|]. apply andb_true_iff in Hv as [[[Hb Hc]%andb_true_iff Hd]%andb_true_iff Hr].
  exists (String a (String b (String c (String d "")))), r.
  unfold utf8_len. rewrite Ha, (in_range_disj _ _ 192 223 _ H4), H3 by lia. split_and!; try done.
  - cbn [utf8_valid]. by rewrite Ha, H2, H3, H4, Hb, Hc, Hd.
  - assert (Hb' : in_range 0 127 b = false) by (repeat case_match; (eapply range_high; [|exact Hb]); lia).
    intros x. rewrite ?append_cons, ?append_nil_l. by rewrite !escape_high by eauto using cont_high.
Qed.

Lemma lex_escaped n s fuel acc rest :
  String.length s <= n → utf8_valid s = true → String.length (escape s) < fuel →
  lex_string fuel (escape s +:+ String quote rest) acc = Some (Some (acc +:+ s, rest)).
Proof.
  revert s fuel acc. induction n as [|n IH]; intros s fuel acc Hn Hv Hf.
  { destruct s; [|simpl in Hn; lia]. destruct fuel as [|fuel]; [simpl in Hf; lia|]. by rewrite append_nil_r. }
  destruct fuel as [|fuel]; [lia|]. destruct s as [|a s]; [by rewrite append_nil_r|].
  destruct (in_range 0 127 a) eqn:Ha.
  - assert (Hs : utf8_valid s = true) by (cbn [utf8_valid] in Hv; by rewrite Ha in Hv).
    assert (Hacc : acc +:+ String a s = (acc +:+ String a "") +:+ s) by (by rewrite append_assoc).
    simpl in Hn, Hf. simpl escape. destruct (decide (a = quote ∨ a = backslash)) as [Hq|Hq]; simpl in Hf.
    + rewrite ?append_cons, ?append_nil_l; cbn [lex_string]. rewrite decide_False, decide_True by done.
      assert (Hu : unescape a = String a "") by (by destruct Hq as [->| ->]).
      rewrite Hu, Hacc. apply IH; [lia|done|lia].
    + rewrite ?append_cons, ?append_nil_l; cbn [lex_string]. rewrite decide_False, decide_False by naive_solver.
      unfold utf8_len. rewrite Ha. cbn [take_bytes drop_bytes utf8_valid]. rewrite Ha, Hacc.
      apply IH; [lia|done|lia].
  - destruct (utf8_first a s Hv Ha) as (c & r' & Hs & Htk & Hdr & Hc & Hr & He & Htd).
    rewrite Hs, He, append_assoc.
    destruct c as [|a' c]; [exfalso; destruct (utf8_len_pos a) as [k Hk]; by rewrite Hk in Htk|].
    assert (a' = a) as -> by (rewrite append_cons in Hs; by injection Hs).
    specialize (Htd (escape r' +:+ String quote rest)). rewrite append_cons in Htd. rewrite append_cons. cbn [lex_string].
    rewrite decide_False by (intros ->; by rewrite (ascii_small quote) in Ha by auto).
    rewrite decide_False by (intros ->; by rewrite (ascii_small backslash) in Ha by auto).
    destruct Htd as [-> ->]. rewrite Hc.
    rewrite Hs in Hn, Hf. rewrite He in Hf. rewrite append_cons in Hn, Hf. simpl in Hn, Hf.
    rewrite <- append_assoc.
    rewrite string_length_app in Hn, Hf. apply IH; [lia|done|lia].
Qed.

Lemma tok_string s rest ts :
  utf8_valid s = true → tok (show_string s +:+ rest) ts = tok rest (ts ++ [TStr s]).
Proof.
  intros Hv. unfold show_string. rewrite ?append_cons, ?append_nil_l. unfold tok at 1. rewrite text_fuel_cons. cbn [tokenize_from].
  rewrite decide_False, decide_False, decide_True by done. rewrite append_assoc. rewrite ?append_cons, ?append_nil_l.
  rewrite (lex_escaped (String.length s)); [|done|done|unfold text_fuel; rewrite string_length_app; simpl; lia].
  apply tok_fuel. unfold text_fuel. rewrite string_length_app. simpl. lia.
Qed.

(** ** The parser ends *)

(** It answers, and what is left after a value is shorter by at least [k]. *)
Definition answers {A} (k : nat) (tokens : list Token) (p : Parsed A) : Prop :=
  ∃ r, p = Some r ∧ ∀ a rest, r = Some (a, rest) → length rest + k <= length tokens.

Lemma answers_none {A} k tokens : answers (A := A) k tokens (Some None).
Proof. by eexists. Qed.

Lemma answers_some {A} k tokens (a : A) rest :
  length rest + k <= length tokens → answers k tokens (Some (Some (a, rest))).
Proof. intros Hl. eexists. split; [done|]. by intros a' r [= _ <-]. Qed.

Lemma parse_obj_step fuel t rest es :
  t ≠ TClose →
  parse_obj (S fuel) (t :: rest) es =
    match parse_pair fuel (t :: rest) with
    | Some (Some (e, r)) => parse_obj fuel r (es ++ [e])
    | Some None => Some None
    | None => None
    end.
Proof. by destruct t. Qed.

Lemma parse_total fuel :
  (∀ tokens, length tokens <= S fuel → answers 2 tokens (parse_pair fuel tokens)) ∧
  (∀ tokens es, length tokens <= fuel → answers 1 tokens (parse_obj fuel tokens es)).
Proof.
  induction fuel as [|fuel [IHp IHo]].
  - split.
    + intros [|[k| |] [|[v| |] rest]] Hf; simpl in Hf; try lia; apply answers_none.
    + intros [|t rest] es Hf; [apply answers_none|simpl in Hf; lia].
  - split.
    + intros [|[k| |] [|[v| |] rest]] Hf; try apply answers_none; simpl in Hf.
      { apply answers_some. simpl. lia. }
      cbn [parse_pair]. destruct (IHo rest []) as (r & -> & Hl); [lia|].
      destruct r as [[o rest']|]; [|apply answers_none]. specialize (Hl o rest' eq_refl).
      apply answers_some. simpl. lia.
    + intros [|t rest] es Hf; [apply answers_none|].
      destruct (decide (t = TClose)) as [->|Ht]; [apply answers_some; simpl; lia|].
      rewrite parse_obj_step by done. destruct (IHp (t :: rest)) as (r & -> & Hl); [done|].
      destruct r as [[e r]|]; [|apply answers_none]. specialize (Hl e r eq_refl). simpl in Hf, Hl.
      destruct (IHo r (es ++ [e])) as (r' & Hr' & Hl'); [lia|]. exists r'. split; [done|].
      intros o x E. specialize (Hl' o x E). simpl. lia.
Qed.

Lemma parse_root_total fuel tokens root :
  length tokens <= fuel → ∃ r, parse_root fuel tokens root = Some r.
Proof.
  revert tokens root. induction fuel as [|fuel IH]; intros tokens root Hf.
  { destruct tokens; [by eexists|simpl in Hf; lia]. }
  destruct tokens as [|t rest]; [by eexists|]. cbn [parse_root].
  destruct (parse_total fuel) as [Hp _]. destruct (Hp (t :: rest)) as (r & -> & Hl); [done|].
  destruct r as [[e r]|]; [|by eexists]. specialize (Hl e r eq_refl). simpl in Hf, Hl. apply IH. lia.
Qed.

Lemma parse_text_total text : is_Some (parse_text text).
Proof.
  unfold parse_text, tokenize. destruct (tokenize_from_total (text_fuel text) text []) as [r ->]; [unfold text_fuel; lia|].
  destruct r as [ts|]; [|by eexists]. destruct (parse_root_total (token_fuel ts) ts []) as [r ->]; [unfold token_fuel; lia|].
  by eexists.
Qed.

(** ** Printing *)

Section KvInd.
Variable P : Kv → Prop.
Hypothesis HS : ∀ s, P (KStr s).
Hypothesis HO : ∀ es, Forall (λ e, P (snd e)) es → P (KObj es).

Lemma kv_induction k : P k.
Proof.
  revert k. fix IH 1. intros [s|es]; [apply HS|]. apply HO.
  induction es as [|[n k] es IHes]; constructor; [apply IH|exact IHes].
Qed.
End KvInd.

Fixpoint show_value (k : Kv) : string :=
  match k with
  | KStr s => show_string s
  | KObj es => String brace_open (String.concat "" (map (λ '(n, v), show_string n +:+ " " +:+ show_value v +:+ " ") es)
                                 +:+ String brace_close "")
  end.
Definition show_entry (e : string * Kv) : string := show_string (fst e) +:+ " " +:+ show_value (snd e) +:+ " ".
(** A document: a line of the file after the other. *)
Definition show_kv (es : list (string * Kv)) : string := String.concat "" (map show_entry es).

Fixpoint tokens_of (k : Kv) : list Token :=
  match k with
  | KStr s => [TStr s]
  | KObj es => TOpen :: concat (map (λ '(n, v), TStr n :: tokens_of v) es) ++ [TClose]
  end.
Definition entry_tokens (e : string * Kv) : list Token := TStr (fst e) :: tokens_of (snd e).

(** Every string in the tree is text. *)
Fixpoint kv_text_ok (k : Kv) : bool :=
  match k with
  | KStr s => utf8_valid s
  | KObj es => forallb (λ '(n, v), utf8_valid n && kv_text_ok v) es
  end.
Definition entry_ok (e : string * Kv) : bool := utf8_valid (fst e) && kv_text_ok (snd e).

Lemma concat_cons_string x l : String.concat "" (x :: l) = x +:+ String.concat "" l.
Proof. simpl. destruct l as [|y l]; [symmetry; apply append_nil_r|done]. Qed.

Lemma tok_space r ts : tok (" " +:+ r) ts = tok r ts.
Proof. rewrite append_cons, append_nil_l. by apply tok_junk. Qed.

Lemma tok_entries es rest ts :
  Forall (λ e, ∀ rest ts, kv_text_ok (snd e) = true → tok (show_value (snd e) +:+ rest) ts = tok rest (ts ++ tokens_of (snd e))) es →
  forallb entry_ok es = true →
  tok (show_kv es +:+ rest) ts = tok rest (ts ++ concat (map entry_tokens es)).
Proof.
  intros Hes. revert ts. induction Hes as [|[n v] es Hv Hes IH]; intros ts Hok; simpl in Hok.
  { by rewrite append_nil_l, app_nil_r. }
  apply andb_true_iff in Hok as [[Hn Hk]%andb_true_iff Hok]. unfold show_kv. cbn [map]. rewrite concat_cons_string.
  unfold show_entry at 1. cbn [fst snd]. rewrite !append_assoc, tok_string, tok_space by done. simpl in Hv.
  rewrite Hv, tok_space by done. fold (show_kv es). rewrite IH by done.
  unfold entry_tokens at 2. cbn [concat fst snd]. by rewrite <- !(assoc_L (++)).
Qed.

Lemma tok_value k : ∀ rest ts, kv_text_ok k = true → tok (show_value k +:+ rest) ts = tok rest (ts ++ tokens_of k).
Proof.
  induction k as [s|es IH] using kv_induction; intros rest ts Hok; [by apply tok_string|].
  cbn [show_value tokens_of]. rewrite append_cons, append_assoc, tok_open.
  assert (Hs : map (λ '(n, v), show_string n +:+ " " +:+ show_value v +:+ " ") es = map show_entry es)
    by (apply map_ext; by intros []).
  assert (Ht : map (λ '(n, v), TStr n :: tokens_of v) es = map entry_tokens es) by (apply map_ext; by intros []).
  rewrite Hs, Ht. fold (show_kv es). rewrite tok_entries; [|exact IH|].
  - rewrite append_cons, append_nil_l, tok_close. f_equal. by rewrite <- !(assoc_L (++)).
  - cbn [kv_text_ok] in Hok. rewrite <- Hok. clear. induction es as [|[n v] es IH]; [done|]. simpl. by rewrite IH.
Qed.

(** ** Parsing what was printed *)

Lemma parse_entries fuel es rest acc :
  Forall (λ e, ∀ fuel rest, length (entry_tokens e) <= S fuel →
               parse_pair fuel (entry_tokens e ++ rest) = Some (Some (e, rest))) es →
  length (concat (map entry_tokens es)) <= fuel →
  parse_obj fuel (concat (map entry_tokens es) ++ TClose :: rest) acc = Some (Some (KObj (acc ++ es), rest)).
Proof.
  intros Hes. revert fuel acc. induction Hes as [|e es He Hes IH]; intros fuel acc Hf.
  { destruct fuel; by rewrite app_nil_r. }
  destruct fuel as [|fuel]; [destruct e; simpl in Hf; lia|]. cbn [map concat] in *. rewrite length_app in Hf.
  rewrite <- (assoc_L (++)). unfold entry_tokens at 1. cbn [app]. rewrite parse_obj_step by done.
  change (TStr (fst e) :: tokens_of (snd e) ++ ?x) with (entry_tokens e ++ x). rewrite He by lia.
  rewrite IH by (unfold entry_tokens in Hf at 1; simpl in Hf; lia). by rewrite <- (assoc_L (++)).
Qed.

Lemma parse_entry k : ∀ n fuel rest, length (entry_tokens (n, k)) <= S fuel →
  parse_pair fuel (entry_tokens (n, k) ++ rest) = Some (Some ((n, k), rest)).
Proof.
  induction k as [s|es IH] using kv_induction; intros n fuel rest Hf; [by destruct fuel|].
  unfold entry_tokens at 1. unfold entry_tokens in Hf at 1. cbn [fst snd tokens_of] in *.
  assert (Ht : map (λ '(n, v), TStr n :: tokens_of v) es = map entry_tokens es) by (apply map_ext; by intros []).
  rewrite Ht in *. simpl in Hf. rewrite length_app in Hf. simpl in Hf.
  destruct fuel as [|fuel]; [lia|]. cbn [app parse_pair]. rewrite <- (assoc_L (++)). cbn [app].
  rewrite parse_entries; [done| |lia].
  apply list.Forall_forall. intros [m v] Hin. rewrite list.Forall_forall in IH. by apply (IH (m, v)).
Qed.

Lemma parse_root_entries fuel es acc :
  length (concat (map entry_tokens es)) <= fuel →
  parse_root fuel (concat (map entry_tokens es)) acc = Some (Some (KObj (acc ++ es))).
Proof.
  revert fuel acc. induction es as [|[n v] es IH]; intros fuel acc Hf.
  { destruct fuel; by rewrite app_nil_r. }
  destruct fuel as [|fuel]; [simpl in Hf; lia|]. cbn [map concat] in *. rewrite length_app in Hf.
  assert (Hroot : ∀ x, parse_root (S fuel) (entry_tokens (n, v) ++ x) acc =
    match parse_pair fuel (entry_tokens (n, v) ++ x) with
    | Some (Some (e, rest)) => parse_root fuel rest (acc ++ [e]) | Some None => Some None | None => None end) by done.
  rewrite Hroot, parse_entry by lia. rewrite IH by (unfold entry_tokens in Hf at 1; simpl in Hf; lia).
  by rewrite <- (assoc_L (++)).
Qed.

Lemma parse_show es : forallb entry_ok es = true → parse_text (show_kv es) = Some (Some (KObj es)).
Proof.
  intros Hok. unfold parse_text, tokenize. fold (tok (show_kv es) []).
  rewrite <- (append_nil_r (show_kv es)), tok_entries; [|apply list.Forall_forall; intros e _; apply tok_value|done].
  change (tok "" ([] ++ ?ts)) with (Some (Some ts)). cbn iota beta.
  by rewrite parse_root_entries by (unfold token_fuel; lia).
Qed.
