(* ===== verification/Scan.v ===== *)
(** * savr-daemon: matching folders to the manifest (src/crates/savr-daemon/src/scan.rs) *)

From S2P Require Import Prelude CoreTypes Snapshot Archive Manifest LocalState Backup ExeIndex Steam.

Abbreviation Manifest := (gmap string ManifestEntry).

Inductive Match := One (title : string) | Ambiguous.

(** The closure [add] of [ManifestMatcher::build]. *)
Definition add_match (index : gmap string Match) (claim : string * string) : gmap string Match :=
  let '(key, title) := claim in
  if decide (key = "") then index
  else match index !! key with
       | None => <[key := One title]> index
       | Some (One existing) => if decide (existing = title) then index else <[key := Ambiguous]> index
       | Some Ambiguous => index
       end.

Definition entry_claims (e : string * ManifestEntry) : list (string * string) :=
  (normalize_title (fst e), fst e) :: map (λ dir, (normalize_title dir, fst e)) (me_install_dir (snd e)).

Definition matcher_build (m : Manifest) : gmap string Match :=
  foldl add_match ∅ (concat (map entry_claims (btree_iter m))).

Definition match_folder (index : gmap string Match) (folder_name : string) : option string :=
  match index !! normalize_title folder_name with
  | Some (One title) => Some title
  | _ => None
  end.

(** [scan_folder_root]: directories whose name is text, in listing order. *)
Definition scan_folder_root `{Platform} (disk : Node) (root : string) : list (string * string) :=
  match read_dir disk root with
  | None => []
  | Some es =>
    omap (λ e,
      let path := text_join root (fst e) in
      if path_is_dir disk path && utf8_valid (fst e) then Some (fst e, path) else None) es
  end.

(** ** What a matcher answers *)

(** [title] is a name for [key] in the manifest. *)
Definition names (m : Manifest) (key title : string) : Prop :=
  ∃ e, m !! title = Some e ∧
    (normalize_title title = key ∨ ∃ dir, dir ∈ me_install_dir e ∧ normalize_title dir = key).

Lemma names_claims m key title :
  names m key title ↔ (key, title) ∈ concat (map entry_claims (btree_iter m)).
Proof.
  rewrite elem_of_concat_map. split.
  - intros (e & He & Hk). exists (title, e). split; [by apply elem_of_btree_iter|].
    unfold entry_claims. cbn [fst snd]. rewrite elem_of_cons. destruct Hk as [<-|(dir & Hin & <-)]; [by left|].
    right. by apply (list_elem_of_fmap_2 (λ dir, (normalize_title dir, title))).
  - intros ([t e] & He%elem_of_btree_iter & Hin). unfold entry_claims in Hin. cbn [fst snd] in Hin.
    rewrite elem_of_cons, list_elem_of_fmap in Hin. destruct Hin as [[= -> ->]|(dir & [= -> ->] & Hd)].
    + exists e. by split; [|left].
    + exists e. split; [done|]. right. by exists dir.
Qed.

Lemma add_match_fold claims index key :
  key ≠ "" →
  match index !! key, foldl add_match index claims !! key with
  | None, None => ∀ t, (key, t) ∉ claims
  | None, Some (One t) => ∀ t', (key, t') ∈ claims ↔ t' = t
  | None, Some Ambiguous => ∃ t t', t ≠ t' ∧ (key, t) ∈ claims ∧ (key, t') ∈ claims
  | Some (One t0), r => (∀ t, (key, t) ∈ claims → t = t0) ∧ r = Some (One t0) ∨
                        (∃ t, (key, t) ∈ claims ∧ t ≠ t0) ∧ r = Some Ambiguous
  | Some Ambiguous, r => r = Some Ambiguous
  end.
Proof.
  intros Hk. revert index. induction claims as [|[k t] claims IH]; intros index; cbn [foldl].
  { destruct (index !! key) as [[t0|]|]; [left|done|]; [split; [|done]|]; intros t; by intros ?%elem_of_nil. }
  specialize (IH (add_match index (k, t))).
  assert (Hother : k ≠ key → add_match index (k, t) !! key = index !! key).
  { intros Hne. unfold add_match. case_decide; [done|]. destruct (index !! k) as [[e|]|]; [case_decide| |];
      rewrite ?lookup_insert_ne by done; done. }
  assert (Hc : ∀ t', (key, t') ∈ (k, t) :: claims ↔ (key = k ∧ t' = t) ∨ (key, t') ∈ claims).
  { intros t'. rewrite elem_of_cons. naive_solver. }
  destruct (decide (k = key)) as [->|Hne].
  - assert (Hself : add_match index (key, t) !! key =
      match index !! key with
      | None => Some (One t) | Some (One e) => if decide (e = t) then Some (One e) else Some Ambiguous
      | Some Ambiguous => Some Ambiguous end).
    { unfold add_match. rewrite decide_False by done. destruct (index !! key) as [[e|]|] eqn:E; [case_decide|done|];
        rewrite ?lookup_insert_eq; done. }
    rewrite Hself in IH. destruct (index !! key) as [[e|]|].
    + setoid_rewrite Hc. destruct (decide (e = t)) as [->|Het].
      * destruct IH as [[Ha ->]|[(x & Hx & Hne) ->]]; [left|right]; naive_solver.
      * rewrite IH. right. split; [|done]. exists t. naive_solver.
    + done.
    + destruct IH as [[Ha ->]|[(x & Hx & Hne) ->]].
      * setoid_rewrite Hc. naive_solver.
      * exists t, x. rewrite !Hc. naive_solver.
  - rewrite (Hother Hne) in IH.
    assert (Hc' : ∀ t', (key, t') ∈ (k, t) :: claims ↔ (key, t') ∈ claims) by (intros t'; rewrite Hc; naive_solver).
    destruct (index !! key) as [[e|]|]; [setoid_rewrite Hc'; exact IH|done|].
    destruct (foldl _ _ claims !! key) as [[t0|]|]; setoid_rewrite Hc'; exact IH.
Qed.

Lemma match_folder_unique m folder title :
  match_folder (matcher_build m) folder = Some title ↔
  normalize_title folder ≠ "" ∧ ∀ t, names m (normalize_title folder) t ↔ t = title.
Proof.
  unfold match_folder, matcher_build. set (key := normalize_title folder).
  destruct (decide (key = "")) as [Hk|Hk].
  - assert (Hn : ∀ cl (ix : gmap string Match), ix !! "" = None → foldl add_match ix cl !! "" = None).
    { intros cl. induction cl as [|[k t] cl IH]; intros ix Hix; [done|]. apply IH. unfold add_match.
      case_decide; [done|]. destruct (ix !! k) as [[e|]|]; [case_decide| |]; rewrite ?lookup_insert_ne by done; done. }
    rewrite Hk, Hn by apply lookup_empty. naive_solver.
  - pose proof (add_match_fold (concat (map entry_claims (btree_iter m))) ∅ key Hk) as Hf.
    rewrite lookup_empty in Hf. setoid_rewrite names_claims.
    destruct (foldl _ _ _ !! key) as [[t|]|].
    + split; [intros [= ->]; by split|]. intros [_ Hu]. f_equal. apply Hu, Hf. done.
    + split; [done|]. intros [_ Hu]. destruct Hf as (t1 & t2 & Hne & H1%Hu & H2%Hu). congruence.
    + split; [done|]. intros [_ Hu]. exfalso. apply (Hf title), Hu. done.
Qed.
