(* ===== verification/Paths.v ===== *)
(** * savr-daemon: save locations (src/crates/savr-daemon/src/paths.rs)

    From a game's save templates to glob patterns and the anchor its snapshots
    are relative to. *)

From S2P Require Import Prelude CoreTypes Snapshot Archive Manifest LocalState Backup ExeIndex Steam.
From Stdlib Require Import Ascii.

Record ResolvedGame := {
  rs_patterns : list string;
  rs_registry_keys : list string;
  rs_anchor : Path;
  rs_excludes : list string;
}.

Record ResolveContext := {
  ctx_roots : Roots;
  steam_libs : list SteamLibrary;
}.

Definition push_unique (v : list string) (s : string) : list string :=
  if bool_decide (s ∈ v) then v else v ++ [s].

(** [ResolveContext::install_dir]. *)
Definition ctx_install_dir (ctx : ResolveContext) (appid : option Z) : option string :=
  match appid with
  | None => None
  | Some a =>
    head (omap (λ lib,
      match List.find (λ g, bool_decide (Z.of_N (sg_appid g) = a)) (lib_games lib) with
      | Some g => Some (install_path lib g)
      | None => None
      end) (steam_libs ctx))
  end.

Definition proton_prefix_roots (base : Roots) (drive_c : string) : Roots :=
  let user := text_join (text_join drive_c "users") "steamuser" in
  {| home := user;
     win_app_data := Some (text_join (text_join user "AppData") "Roaming");
     win_local_app_data := Some (text_join (text_join user "AppData") "Local");
     win_documents := Some (text_join user "Documents");
     xdg_data := xdg_data base;
     xdg_config := xdg_config base;
     os_user_name := Some "steamuser";
     roots_os := Windows |}.

(** ** Anchors *)

Definition is_glob (s : string) : bool :=
  existsb (λ c, bool_decide (c ∈ String.list_ascii_of_string "*?[]{}")) (String.list_ascii_of_string s).

(** The leading components that hold no glob, and whether one stopped them. *)
Fixpoint fixed_prefix (cs : list Component) : list Component * bool :=
  match cs with
  | [] => ([], false)
  | c :: rest =>
    if is_glob (component_name c) then ([], true)
    else let '(acc, hit) := fixed_prefix rest in (c :: acc, hit)
  end.

(** [Path::parent], on components: the root and the empty path have none. *)
Definition parent (cs : list Component) : option (list Component) :=
  match list.last cs with
  | None | Some RootDir => None
  | Some _ => Some (removelast cs)
  end.

Definition anchor_candidate (pattern : string) : list Component :=
  let '(acc, hit_glob) := fixed_prefix (components pattern) in
  if hit_glob then acc else default acc (parent acc).

Fixpoint shared (a b : list Component) : list Component :=
  match a, b with
  | x :: a, y :: b => if decide (x = y) then x :: shared a b else []
  | _, _ => []
  end.

Definition common_ancestor (paths : list (list Component)) : option (list Component) :=
  match paths with
  | [] => None
  | first :: rest => Some (foldl shared first rest)
  end.

Definition compute_anchor (patterns : list string) (roots : Roots) : Path :=
  match patterns with
  | [] => path_of_text (home roots)
  | _ => match common_ancestor (map anchor_candidate patterns) with
         | Some cs => map component_name cs
         | None => path_of_text (home roots)
         end
  end.

(** ** Templates *)

Section Resolve.
Context `{PF : Platform}.
(** The disk the Steam directories are on. *)
Variable disk : Node.

Definition proton_roots (ctx : ResolveContext) (appid : option Z) : list Roots :=
  match appid with
  | None => []
  | Some a =>
    omap (λ lib,
      let drive_c := proton_drive_c lib (Z.to_N a) in
      if path_exists disk drive_c then Some (proton_prefix_roots (ctx_roots ctx) drive_c) else None)
      (steam_libs ctx)
  end.

Definition expand_steam_placeholders (tpl : string) (libs : list SteamLibrary) : list string :=
  let needs_root := contains "<root>" tpl in
  let needs_uid := contains "<storeUserId>" tpl in
  if negb needs_root && negb needs_uid then [tpl]
  else
    foldl (λ out lib,
      let root := lib_path lib in
      if needs_uid then
        foldl (λ out uid,
          let s := if needs_root then replace "<root>" root tpl else tpl in
          push_unique out (replace "<storeUserId>" uid s))
          out (steam_account_ids disk (userdata_dir lib))
      else push_unique out (replace "<root>" root tpl)) [] libs.

(** The templates and the registry keys of a game: an override redirects it. *)
Definition templates_of (game : Game) (overrides : list PathOverride) : list string * list string :=
  match List.find (λ o, bool_decide (po_game_id o = g_id game)) overrides with
  | Some ov => (po_globs ov, [])
  | None =>
    foldl (λ '(templates, keys) target,
      if st_registry target then (templates, push_unique keys (st_glob target))
      else (templates ++ [st_glob target], keys)) ([], []) (g_save_targets game)
  end.

Definition push_resolved (patterns : list string) (r : option string) : list string :=
  match r with Some p => push_unique patterns p | None => patterns end.

(** What one template resolves to, in the order it is tried. *)
Definition template_patterns (ctx : ResolveContext) (base : option string) (proton : list Roots) (tpl : string)
    : list (option string) :=
  map (λ concrete, resolve_template concrete (ctx_roots ctx) base) (expand_steam_placeholders tpl (steam_libs ctx)) ++
  map (λ pr, resolve_template tpl pr base) proton.

Definition resolve_game (game : Game) (overrides : list PathOverride) (ctx : ResolveContext)
    (base_override : option string) : ResolvedGame :=
  let base := match base_override with Some b => Some b | None => ctx_install_dir ctx (g_steam_appid game) end in
  let proton := proton_roots ctx (g_steam_appid game) in
  let '(templates, registry_keys) := templates_of game overrides in
  let patterns := foldl (λ patterns tpl, foldl push_resolved patterns (template_patterns ctx base proton tpl)) [] templates in
  {| rs_patterns := patterns;
     rs_registry_keys := registry_keys;
     rs_anchor := compute_anchor patterns (ctx_roots ctx);
     rs_excludes := [] |}.
End Resolve.

(** ** Hand-registered games *)

Fixpoint trim_start_char (c : ascii) (s : string) : string :=
  match s with
  | String a r => if decide (a = c) then trim_start_char c r else s
  | EmptyString => EmptyString
  end.
Definition trim_end_char (c : ascii) (s : string) : string := String.rev (trim_start_char c (String.rev s)).

Definition resolve_custom (save_root : string) (include exclude : list string) : ResolvedGame :=
  let root := trim_end_char slash (slashes save_root) in
  let includes := match include with [] => ["**/*"] | _ => map slashes include end in
  {| rs_patterns := map (λ g, root +:+ "/" +:+ trim_start_char slash g) includes;
     rs_registry_keys := [];
     rs_anchor := path_of_text root;
     rs_excludes := map slashes exclude |}.
