(* ===== verification/Config.v ===== *)
(** * savr-daemon: configuration and autostart (src/crates/savr-daemon/src: config.rs, autostart.rs)

    [daemon.toml] with the environment on top.  The TOML parser and the
    platform's directories are parameters; the environment is a function from
    variable names.  The registry value of the login autostart is a cell whose key
    may not open and may not be written. *)

From S2P Require Import Prelude CoreTypes Snapshot Archive LocalState Client Backup ExeIndex.

Record GameOverride := {
  ov_globs : list string;
  ov_conflict_policy : option ConflictPolicy;
  ov_autopull : option AutoPullPolicy;
  ov_ignore : bool;
}.

Record DaemonConfig := {
  server_url : string;
  poll_interval_ms : Z;
  poll_idle_interval_ms : Z;
  settle_ms : Z;
  dc_autopull : AutoPullPolicy;
  dc_conflict_policy : ConflictPolicy;
  full_every : N;
  dc_manifest_dir : option string;
  dc_games : gmap string GameOverride;
}.

Definition DEFAULT_POLL_ACTIVE_MS : Z := 3000.
Definition DEFAULT_POLL_IDLE_MS : Z := 12000.
Definition DEFAULT_SETTLE_MS : Z := 5000.
Definition DEFAULT_FULL_EVERY : N := 10.

Definition DaemonConfig_default : DaemonConfig := {|
  server_url := "http://localhost:8080";
  poll_interval_ms := DEFAULT_POLL_ACTIVE_MS;
  poll_idle_interval_ms := DEFAULT_POLL_IDLE_MS;
  settle_ms := DEFAULT_SETTLE_MS;
  dc_autopull := Ask;
  dc_conflict_policy := Manual;
  full_every := DEFAULT_FULL_EVERY;
  dc_manifest_dir := None;
  dc_games := ∅;
|}.

Definition env_parse (env : Environment) (key : string) : option Z :=
  match env key with Some v => u64_parse v | None => None end.

Definition apply_env (env : Environment) (cfg : DaemonConfig) : DaemonConfig := {|
  server_url := default (server_url cfg) (env "SAVR_SERVER_URL");
  poll_interval_ms := default (poll_interval_ms cfg) (env_parse env "SAVR_POLL_INTERVAL_MS");
  poll_idle_interval_ms := default (poll_idle_interval_ms cfg) (env_parse env "SAVR_POLL_IDLE_INTERVAL_MS");
  settle_ms := default (settle_ms cfg) (env_parse env "SAVR_SETTLE_MS");
  dc_autopull := dc_autopull cfg;
  dc_conflict_policy := dc_conflict_policy cfg;
  full_every := full_every cfg;
  dc_manifest_dir := match env "SAVR_MANIFEST_DIR" with Some v => Some v | None => dc_manifest_dir cfg end;
  dc_games := dc_games cfg;
|}.

Definition with_server_url (url : string) (cfg : DaemonConfig) : DaemonConfig := {|
  server_url := url;
  poll_interval_ms := poll_interval_ms cfg;
  poll_idle_interval_ms := poll_idle_interval_ms cfg;
  settle_ms := settle_ms cfg;
  dc_autopull := dc_autopull cfg;
  dc_conflict_policy := dc_conflict_policy cfg;
  full_every := full_every cfg;
  dc_manifest_dir := dc_manifest_dir cfg;
  dc_games := dc_games cfg;
|}.

(** What reading [daemon.toml] gives. *)
Inductive FileRead := NotFound | ReadError | Text (s : string).

Class Toml := { toml_from_str : string → option DaemonConfig }.

Definition DaemonConfig_load `{Toml} (env : Environment) (file : FileRead) : result string DaemonConfig :=
  match file with
  | Text t => match toml_from_str t with Some cfg => Ok (apply_env env cfg) | None => Err "parsing" end
  | NotFound => Ok (apply_env env DaemonConfig_default)
  | ReadError => Err "read"
  end.

Definition config_root (env : Environment) (config_dir : option string) : string :=
  match env "SAVR_STATE_DIR" with
  | Some p => p
  | None => text_join (default "." config_dir) "savr"
  end.
Definition data_root (env : Environment) (data_dir : option string) : string :=
  match env "SAVR_STATE_DIR" with
  | Some p => p
  | None => text_join (default "." data_dir) "savr"
  end.
Definition default_path (env : Environment) (config_dir : option string) : string :=
  match env "SAVR_CONFIG" with
  | Some p => p
  | None => text_join (config_root env config_dir) "daemon.toml"
  end.
Definition manifest_dir (env : Environment) (data_dir : option string) (cfg : DaemonConfig) : string :=
  default (text_join (data_root env data_dir) "manifests") (dc_manifest_dir cfg).

Definition conflict_policy_for (key : string) (cfg : DaemonConfig) : ConflictPolicy :=
  match dc_games cfg !! key with
  | Some g => default (dc_conflict_policy cfg) (ov_conflict_policy g)
  | None => dc_conflict_policy cfg
  end.

(** main.rs: the URL persisted by pairing, unless the environment sets one. *)
Definition startup_config (env : Environment) (st : LocalState) (cfg : DaemonConfig) : DaemonConfig :=
  match env "SAVR_SERVER_URL" with
  | Some _ => cfg
  | None => match get_meta "server_url" st with Some url => with_server_url url cfg | None => cfg end
  end.

(** ** autostart.rs *)

Definition quoted (s : string) : string :=
  let q := String (Ascii.ascii_of_nat 34) EmptyString in q +:+ s +:+ q.

(** The Run key of the user and its value for the daemon: whether the key opens,
    and whether a write or a deletion of the value goes through. *)
Record RunKey := { rk_opens : bool; rk_writable : bool; rk_value : option string }.
Definition with_value (v : option string) (k : RunKey) : RunKey :=
  {| rk_opens := rk_opens k; rk_writable := rk_writable k; rk_value := v |}.

Definition autostart_set_windows (exe : option string) (enabled : bool) (k : RunKey) : result AnyError unit * RunKey :=
  if negb (rk_opens k) then (Err (Bail "open HKCU Run key"), k)
  else if enabled then
    match exe with
    | None => (Err (Bail "resolve daemon exe path"), k)
    | Some path =>
      if rk_writable k then (Ok tt, with_value (Some (quoted path)) k) else (Err (Bail "write Run value"), k)
    end
  else
    match rk_value k with
    | None => (Ok tt, k)
    | Some _ => if rk_writable k then (Ok tt, with_value None k) else (Err (Bail "delete Run value"), k)
    end.
Definition autostart_enabled_windows (k : RunKey) : bool := rk_opens k && bool_decide (is_Some (rk_value k)).

(** Everywhere else. *)
Definition autostart_set_other (enabled : bool) : result AnyError unit :=
  Err (Bail "login autostart is only supported on Windows").
Definition autostart_enabled_other : bool := false.

Lemma autostart_set_read exe enabled k k' :
  autostart_set_windows exe enabled k = (Ok tt, k') → autostart_enabled_windows k' = enabled.
Proof.
  unfold autostart_set_windows, autostart_enabled_windows. intros E. repeat case_match; simplify_eq/=; try done.
  all: destruct (rk_opens _); try done; simpl; try (by rewrite bool_decide_eq_true_2 by eauto).
  all: by match goal with Hv : rk_value _ = None |- _ => rewrite Hv end.
Qed.
