(* ===== verification/Secrets.v ===== *)
(** * savr-daemon: the device's credential (src/crates/savr-daemon/src/secrets.rs)

    [SecretStore] as an interface with the laws the engine relies on, and its
    two implementations.  The keychain is one optional text; the file has a text
    and its permission bits. *)

From S2P Require Import Prelude CoreTypes LocalState Client Backup ExeIndex Config.

(** The trait.  A state is what persists. *)
Class SecretStore (S : Type) := {
  sec_load : S → result AnyError (option Credentials);
  sec_store : Credentials → S → outcome S AnyError unit;
  sec_clear : S → outcome S AnyError unit;
}.
Class SecretStoreLaws (S : Type) `{SecretStore S} : Prop := {
  load_stored c s s' : sec_store c s = (Ok tt, s') → sec_load s' = Ok (Some c);
  load_cleared s s' : sec_clear s = (Ok tt, s') → sec_load s' = Ok None;
}.

Section Secrets.
Context `{JC : TextForm Credentials}.

(** ** The OS keychain: [get_password], [set_password], [delete_credential] *)

Record KeyringStore := {
  kr_available : bool;
  kr_password : option string;
}.

Definition keyring_load (k : KeyringStore) : result AnyError (option Credentials) :=
  if negb (kr_available k) then Err (Bail "keyring")
  else match kr_password k with
       | Some json => c ← ok_or (from_str json) BadBody; Ok (Some c)
       | None => Ok None
       end.
Definition keyring_store (c : Credentials) (k : KeyringStore) : outcome KeyringStore AnyError unit :=
  if negb (kr_available k) then (Err (Bail "keyring"), k)
  else (Ok tt, {| kr_available := true; kr_password := Some (to_str c) |}).
Definition keyring_clear (k : KeyringStore) : outcome KeyringStore AnyError unit :=
  if negb (kr_available k) then (Err (Bail "keyring"), k)
  else (Ok tt, {| kr_available := true; kr_password := None |}).

#[export] Instance keyring_SecretStore : SecretStore KeyringStore :=
  {| sec_load := keyring_load; sec_store := keyring_store; sec_clear := keyring_clear |}.

(** ** A plain file *)

(** Which of the calls on the file system fail, the permission bits a new file
    gets, and what a failing write leaves. *)
Record Faults := {
  can_mkdir : bool;
  can_write : bool;
  can_chmod : bool;
  can_remove : bool;
  new_mode : Z;
  torn : FileRead;
}.
Record FileStore := {
  file_faults : Faults;
  file_text : FileRead;
  file_mode : Z;
}.

Definition with_file (text : FileRead) (mode : Z) (s : FileStore) : FileStore :=
  {| file_faults := file_faults s; file_text := text; file_mode := mode |}.

Definition file_load (s : FileStore) : result AnyError (option Credentials) :=
  match file_text s with
  | Text t => c ← ok_or (from_str t) BadBody; Ok (Some c)
  | NotFound => Ok None
  | ReadError => Err FileError
  end.

(** [std::fs::write]: an existing file keeps its permission bits. *)
Definition put_text (t : string) (s : FileStore) : outcome FileStore AnyError unit :=
  let mode := match file_text s with NotFound => new_mode (file_faults s) | _ => file_mode s end in
  if can_write (file_faults s) then (Ok tt, with_file (Text t) mode s)
  else (Err FileError, with_file (torn (file_faults s)) mode s).

(** [restrict_perms] on Unix. *)
Definition restrict_perms (s : FileStore) : outcome FileStore AnyError unit :=
  if can_chmod (file_faults s) then (Ok tt, with_file (file_text s) 384 s) else (Err FileError, s).

Definition file_store (c : Credentials) (s : FileStore) : outcome FileStore AnyError unit :=
  if negb (can_mkdir (file_faults s)) then (Err FileError, s)
  else match put_text (to_str c) s with
       | (Err e, s) => (Err e, s)
       | (Ok _, s) => restrict_perms s
       end.

Definition file_clear (s : FileStore) : outcome FileStore AnyError unit :=
  match file_text s with
  | NotFound => (Ok tt, s)
  | _ => if can_remove (file_faults s) then (Ok tt, with_file NotFound (file_mode s) s) else (Err FileError, s)
  end.

#[export] Instance file_SecretStore : SecretStore FileStore :=
  {| sec_load := file_load; sec_store := file_store; sec_clear := file_clear |}.

(** ** The choice *)

Inductive Backend := KeyringBackend | FileBackend (path : string).
Definition from_env (env : Environment) (config_dir : string) : Backend :=
  match env "SAVR_SECRET_BACKEND" with
  | Some v => if decide (v = "file") then FileBackend (text_join config_dir "credentials.json") else KeyringBackend
  | None => KeyringBackend
  end.

(** ** The laws *)

#[export] Instance keyring_laws `{!TextFormLaws Credentials} : SecretStoreLaws KeyringStore.
Proof.
  constructor; [intros c k k'|intros k k']; cbn [sec_store sec_clear sec_load keyring_SecretStore];
    unfold keyring_store, keyring_clear, keyring_load; destruct (kr_available k); simpl; intros [= <-]; [|done].
  simpl. by rewrite from_to_str.
Qed.

#[export] Instance file_laws `{!TextFormLaws Credentials} : SecretStoreLaws FileStore.
Proof.
  constructor; [intros c s s'|intros s s']; cbn [sec_store sec_clear sec_load file_SecretStore].
  - unfold file_store, put_text, restrict_perms, file_load. destruct (negb _); [done|].
    destruct (can_write _); [|done]. cbn [with_file file_faults]. destruct (can_chmod _); [|done].
    intros [= <-]. simpl. by rewrite from_to_str.
  - unfold file_clear, file_load. destruct (file_text s) eqn:E; [intros [= <-]; by rewrite E|..];
      (destruct (can_remove _); [|done]); by intros [= <-].
Qed.
End Secrets.
