(* ===== verification/Engine.v ===== *)
(** * savr-daemon: the engine (src/crates/savr-daemon/src/engine.rs)

    The daemon's state as one record, the catalog it builds, the requests it
    answers and the events and pushes it reacts to.  Its locks are taken one
    call at a time, so each operation is a step on the record.  Statements on
    the local database do not fail, except the read of a game's id, whose
    failure the code tells apart. *)

From S2P Require Import Prelude CoreTypes ServerError Auth Blobs Hub ServerDb ServerGc ServerApi Snapshot Archive IpcFrame Manifest LocalState Client Backup Restore ExeIndex Watcher Steam Scan Paths Config.

(** ** ipc.rs: what the GUI sends and gets *)

Record RootSpec := { sp_kind : RootKind; sp_path : string }.
Record CustomGameSpec := {
  cs_title : string;
  cs_install_path : option string;
  cs_save_root : string;
  cs_include : list string;
  cs_exclude : list string;
}.
Inductive ResolveChoice := KeepMine | KeepTheirs | KeepBoth.

Record DaemonStatus := {
  version : string;
  uptime_s : Z;
  rss_bytes : Z;
  watched_games : Z;
  st_server_connected : bool;
  st_last_backup_at : option DateTime;
  pending_outbox : Z;
  autostart_enabled : bool;
}.

Inductive GuiRequest :=
  | ListGames
  | ListRoots
  | AddRoot (spec : RootSpec)
  | RemoveRoot (id : Uuid)
  | BackupNow (game_id : GameId)
  | GuiListVersions (game_id : GameId)
  | GuiRestore (game_id : GameId) (version_id : VersionId)
  | GuiResolveConflict (game_id : GameId) (choice : ResolveChoice)
  | GetStatus
  | GuiGetConfig
  | UpdateConfig (cfg : SyncedConfig)
  | EnterLearnMode (game_id : GameId)
  | PairDevice (url code device_name : string)
  | SetAutostart (enabled : bool)
  | AddCustomGame (spec : CustomGameSpec)
  | RemoveCustomGame (title : string)
  | GetLogs (max_lines : nat)
  | Shutdown.

Inductive DaemonMsg :=
  | Games (l : list Game)
  | Versions (l : list Version)
  | RootsMsg (l : list Root)
  | Logs (l : list string)
  | Status (s : DaemonStatus)
  | ConfigMsg (c : SyncedConfig)
  | Event (e : DetectionEvent)
  | ConflictRaised (game_id : GameId) (tips : list VersionId)
  | Paired (device_id : Uuid)
  | OkMsg
  | ErrorMsg (message : string).

(** [Display] of an error. *)
Class ErrorText := { error_text : AnyError → string }.

(** ** State *)

Record GameEntry := { ge_game : Game; ge_resolved : ResolvedGame }.

Definition backup_job (e : GameEntry) : BackupJob := {|
  job_game_id := g_id (ge_game e);
  patterns := rs_patterns (ge_resolved e);
  anchor := rs_anchor (ge_resolved e);
  registry_keys := rs_registry_keys (ge_resolved e);
  job_excludes := rs_excludes (ge_resolved e);
|}.

Record ConflictTips := { mine : VersionId; theirs : VersionId }.

Record Engine (St : Type) := {
  en_config : DaemonConfig;
  en_restorer : Restorer St;
  secret_store : option Credentials;
  en_events : list DetectionEvent;
  en_exe_index : ExeIndex;
  en_manifest : Manifest;
  en_games : gmap GameId GameEntry;
  conflicts : gmap GameId ConflictTips;
  en_running : gset GameId;
  learn_mode : option GameId;
  server_connected : bool;
  en_device_id : option DeviceId;
}.
#[global] Arguments en_config {St} _.
#[global] Arguments en_restorer {St} _.
#[global] Arguments secret_store {St} _.
#[global] Arguments en_events {St} _.
#[global] Arguments en_exe_index {St} _.
#[global] Arguments en_manifest {St} _.
#[global] Arguments en_games {St} _.
#[global] Arguments conflicts {St} _.
#[global] Arguments en_running {St} _.
#[global] Arguments learn_mode {St} _.
#[global] Arguments server_connected {St} _.
#[global] Arguments en_device_id {St} _.

Section Setters.
Context {St : Type}.
Implicit Type en : Engine St.

Definition with_restorer r en : Engine St :=
  {| en_config := en_config en; en_restorer := r; secret_store := secret_store en; en_events := en_events en;
     en_exe_index := en_exe_index en; en_manifest := en_manifest en; en_games := en_games en; conflicts := conflicts en;
     en_running := en_running en; learn_mode := learn_mode en; server_connected := server_connected en; en_device_id := en_device_id en |}.
Definition with_secret c en : Engine St :=
  {| en_config := en_config en; en_restorer := en_restorer en; secret_store := c; en_events := en_events en;
     en_exe_index := en_exe_index en; en_manifest := en_manifest en; en_games := en_games en; conflicts := conflicts en;
     en_running := en_running en; learn_mode := learn_mode en; server_connected := server_connected en; en_device_id := en_device_id en |}.
Definition with_events l en : Engine St :=
  {| en_config := en_config en; en_restorer := en_restorer en; secret_store := secret_store en; en_events := l;
     en_exe_index := en_exe_index en; en_manifest := en_manifest en; en_games := en_games en; conflicts := conflicts en;
     en_running := en_running en; learn_mode := learn_mode en; server_connected := server_connected en; en_device_id := en_device_id en |}.
Definition with_catalog g x en : Engine St :=
  {| en_config := en_config en; en_restorer := en_restorer en; secret_store := secret_store en; en_events := en_events en;
     en_exe_index := x; en_manifest := en_manifest en; en_games := g; conflicts := conflicts en;
     en_running := en_running en; learn_mode := learn_mode en; server_connected := server_connected en; en_device_id := en_device_id en |}.
Definition set_manifest m en : Engine St :=
  {| en_config := en_config en; en_restorer := en_restorer en; secret_store := secret_store en; en_events := en_events en;
     en_exe_index := en_exe_index en; en_manifest := m; en_games := en_games en; conflicts := conflicts en;
     en_running := en_running en; learn_mode := learn_mode en; server_connected := server_connected en; en_device_id := en_device_id en |}.
Definition with_conflicts c en : Engine St :=
  {| en_config := en_config en; en_restorer := en_restorer en; secret_store := secret_store en; en_events := en_events en;
     en_exe_index := en_exe_index en; en_manifest := en_manifest en; en_games := en_games en; conflicts := c;
     en_running := en_running en; learn_mode := learn_mode en; server_connected := server_connected en; en_device_id := en_device_id en |}.
Definition with_running r en : Engine St :=
  {| en_config := en_config en; en_restorer := en_restorer en; secret_store := secret_store en; en_events := en_events en;
     en_exe_index := en_exe_index en; en_manifest := en_manifest en; en_games := en_games en; conflicts := conflicts en;
     en_running := r; learn_mode := learn_mode en; server_connected := server_connected en; en_device_id := en_device_id en |}.
Definition with_learn l en : Engine St :=
  {| en_config := en_config en; en_restorer := en_restorer en; secret_store := secret_store en; en_events := en_events en;
     en_exe_index := en_exe_index en; en_manifest := en_manifest en; en_games := en_games en; conflicts := conflicts en;
     en_running := en_running en; learn_mode := l; server_connected := server_connected en; en_device_id := en_device_id en |}.
Definition with_connected b en : Engine St :=
  {| en_config := en_config en; en_restorer := en_restorer en; secret_store := secret_store en; en_events := en_events en;
     en_exe_index := en_exe_index en; en_manifest := en_manifest en; en_games := en_games en; conflicts := conflicts en;
     en_running := en_running en; learn_mode := learn_mode en; server_connected := b; en_device_id := en_device_id en |}.
Definition with_device d en : Engine St :=
  {| en_config := en_config en; en_restorer := en_restorer en; secret_store := secret_store en; en_events := en_events en;
     en_exe_index := en_exe_index en; en_manifest := en_manifest en; en_games := en_games en; conflicts := conflicts en;
     en_running := en_running en; learn_mode := learn_mode en; server_connected := server_connected en; en_device_id := d |}.

Definition en_local en : LocalState := d_local (r_daemon (en_restorer en)).
Definition en_client en : ServerClient := fst (d_net (r_daemon (en_restorer en))).
Definition en_disk en : Node := r_disk (en_restorer en).
End Setters.

(** What an operation reads besides its state: clocks, minted ids, whether a
    database read or the secret store fails, and facts of the process. *)
Record Readings := {
  e_backup : BackupEnv;
  e_wall : Z;
  e_game_uuid : string → Uuid;
  e_root_uuid : nat → Uuid;
  e_read_ok : string → bool;
  e_store_ok : bool;
  e_os : Os;
  e_roots : Roots;
  e_version : string;
  e_uptime : Z;
  e_rss : Z;
  e_elsewhere : string → Request → result AnyError HttpResponse;
  e_autostart : bool;
  e_set_autostart : bool → result AnyError unit;
  e_logs : nat → list string;
}.
