(* ===== verification/Catalog.v ===== *)
(** * savr-daemon: the game catalog (src/crates/savr-daemon/src/engine.rs)

    [refresh_games]: the three sources of games, in their order of precedence,
    and the stable id each game gets. *)

From S2P Require Import Prelude CoreTypes ServerError Auth Blobs Hub ServerDb ServerGc ServerApi Snapshot Archive IpcFrame Manifest LocalState Client Backup Restore ExeIndex Watcher Steam Scan Paths Config Engine.

(** The catalog under construction. *)
Record Catalog := {
  cat_games : gmap GameId GameEntry;
  cat_index : ExeIndex;
  cat_seen : gset string;
}.

(** [Path::parent] of a text, as the text before its last component. *)
Definition dot : Ascii.ascii := Ascii.ascii_of_nat 46.
Fixpoint trim_sep (r : string) : string :=
  match r with
  | String a r' =>
    if decide (a = slash) then trim_sep r'
    else if decide (a = dot) then
      match r' with String b _ => if decide (b = slash) then trim_sep r' else r | EmptyString => r end
    else r
  | EmptyString => EmptyString
  end.
Fixpoint drop_name (r : string) : string :=
  match r with
  | String a r' => if decide (a = slash) then r else drop_name r'
  | EmptyString => EmptyString
  end.
Definition text_parent (p : string) : option string :=
  match parent (components p) with
  | None => None
  | Some [] => Some ""
  | Some [RootDir] => Some "/"
  | Some _ => Some (String.rev (trim_sep (drop_name (trim_sep (String.rev p)))))
  end.

Section Catalog.
Context {St : Type} `{SV : Server St} `{HI : HashIter} `{PF : Platform}.
Context `{B3 : Blake3} `{U : UuidText} `{G : Glob} `{T : Tar} `{MJ : MetaJson}
        `{JO : Json OutboxPayload} `{TD : TextForm DateTime} `{TC : TextForm SyncedConfig}.

Definition on_restorer {A} (m : M (Restorer St) A) : M (Engine St) A := λ en,
  let '(r, s) := m (en_restorer en) in (r, with_restorer s en).
Definition en_daemon {A} (m : M (Daemon St) A) : M (Engine St) A := on_restorer (daemon m).
Definition on_local (f : LocalState → LocalState) : M (Engine St) unit := en_daemon (local f).
Definition send_event (e : DetectionEvent) : M (Engine St) unit :=
  modify (λ en, with_events (en_events en ++ [e]) en).

(** ** Ids *)

Definition game_key (appid : option Z) (title : string) : string :=
  match appid with
  | Some a => "gameid:steam:" +:+ u32_to_string (Z.to_N a)
  | None => "gameid:name:" +:+ normalize_title title
  end.

(** Without an answer of the server: the cached id, or a new one, persisted only
    when the key is known to be absent. *)
Definition local_game_id (env : Readings) (key : string) (cached : option GameId) : M (Engine St) GameId :=
  match cached with
  | Some id => mret id
  | None =>
    let id := e_game_uuid env key in
    if e_read_ok env key then _ ← on_local (set_meta key (uuid_to_string id)); mret id else mret id
  end.

Definition game_id_for (env : Readings) (appid : option Z) (title : string) (authed : bool) : M (Engine St) GameId :=
  let key := game_key appid title in
  st ← gets en_local;
  let cached := if e_read_ok env key then match get_meta key st with Some s => uuid_parse s | None => None end else None in
  if authed then
    r ← attempt (en_daemon (net (client_ensure_game title appid)));
    match r with
    | Ok ensured =>
      if bool_decide (cached = Some (gr_id ensured)) then mret (gr_id ensured)
      else _ ← on_local (set_meta key (uuid_to_string (gr_id ensured))); mret (gr_id ensured)
    | Err _ => local_game_id env key cached
    end
  else local_game_id env key cached.

(** ** Sources *)

Definition discover_steam_libraries : M (Engine St) (list SteamLibrary) := gets (λ en,
  concat (map (λ r, match root_kind r with SteamRoot => discover_libraries (en_disk en) (root_path r) | _ => [] end)
            (list_roots (en_local en)))).

(** Later titles of one appid win. *)
Definition by_appid (m : Manifest) : gmap Z (string * ManifestEntry) :=
  foldl (λ acc e, match me_steam (snd e) with Some id => <[id := e]> acc | None => acc end) ∅ (btree_iter m).

Definition is_ignored (title : string) (cfg : DaemonConfig) : bool :=
  match dc_games cfg !! title with Some g => ov_ignore g | None => false end.

Definition new_game (id : GameId) (title : string) (source : GameSource) (appid : option Z)
    (targets : list SaveTarget) : Game := {|
  g_id := id; g_title := title; g_source := source; g_steam_appid := appid; g_save_targets := targets;
  g_running := false; g_last_played := None; g_last_session_secs := None; g_total_secs := 0 |}.

Definition add_entry (e : GameEntry) (index : ExeIndex → ExeIndex) (seen : gset string) (cat : Catalog) : Catalog := {|
  cat_games := <[g_id (ge_game e) := e]> (cat_games cat);
  cat_index := index (cat_index cat);
  cat_seen := seen;
|}.

(** What a refresh has read before its loops. *)
Record Inputs := {
  in_env : Readings;
  in_disk : Node;
  in_config : DaemonConfig;
  in_manifest : Manifest;
  in_overrides : list PathOverride;
  in_ctx : ResolveContext;
  in_authed : bool;
}.

Fixpoint refresh_steam (inp : Inputs) (games : list (SteamLibrary * SteamGame)) (cat : Catalog) : M (Engine St) Catalog :=
  match games with
  | [] => mret cat
  | (lib, sg) :: rest =>
    let appid := Some (Z.of_N (sg_appid sg)) in
    let manifest_match := by_appid (in_manifest inp) !! Z.of_N (sg_appid sg) in
    let title := match manifest_match with Some (t, _) => t | None => sg_name sg end in
    if is_ignored title (in_config inp) then refresh_steam inp rest cat
    else
      id ← game_id_for (in_env inp) appid title (in_authed inp);
      let '(source, targets) := match manifest_match with
                                | Some (_, entry) => (ManifestSrc, save_targets entry)
                                | None => (SteamSrc, [])
                                end in
      let game := new_game id title source appid targets in
      let resolved := resolve_game (in_disk inp) game (in_overrides inp) (in_ctx inp) None in
      refresh_steam inp rest (add_entry {| ge_game := game; ge_resolved := resolved |}
        (index_install_dir (in_disk inp) (install_path lib sg) id) (cat_seen cat) cat)
  end.

(** The titles taken so far, as the later sources compare them. *)
Definition seen_titles (games : gmap GameId GameEntry) : gset string :=
  list_to_set (map (λ e, normalize_title (g_title (ge_game (snd e)))) (map_to_list games)).

Fixpoint refresh_folders (inp : Inputs) (folders : list (string * string)) (cat : Catalog) : M (Engine St) Catalog :=
  match folders with
  | [] => mret cat
  | (folder_name, install_dir) :: rest =>
    match match_folder (matcher_build (in_manifest inp)) folder_name with
    | None => refresh_folders inp rest cat
    | Some title =>
      let norm := normalize_title title in
      if decide (norm ∈ cat_seen cat) then refresh_folders inp rest cat
      else
        match in_manifest inp !! title with
        | None => refresh_folders inp rest cat
        | Some entry =>
          if is_ignored title (in_config inp) then refresh_folders inp rest cat
          else
            id ← game_id_for (in_env inp) None title (in_authed inp);
            let game := new_game id title ManifestSrc None (save_targets entry) in
            let resolved := resolve_game (in_disk inp) game (in_overrides inp) (in_ctx inp) (Some install_dir) in
            refresh_folders inp rest (add_entry {| ge_game := game; ge_resolved := resolved |}
              (index_install_dir (in_disk inp) install_dir id) ({[norm]} ∪ cat_seen cat) cat)
        end
    end
  end.

(** The executables of a hand-registered game. *)
Definition index_custom (disk : Node) (path : option string) (id : GameId) (idx : ExeIndex) : ExeIndex :=
  match path with
  | None => idx
  | Some p =>
    if path_is_dir disk p then index_install_dir disk p id idx
    else
      let idx := insert_exe p id idx in
      match text_parent p with
      | Some dir => if path_is_dir disk dir then index_install_dir disk dir id idx else idx
      | None => idx
      end
  end.

Fixpoint refresh_custom (inp : Inputs) (games : list CustomGame) (cat : Catalog) : M (Engine St) Catalog :=
  match games with
  | [] => mret cat
  | cg :: rest =>
    let norm := normalize_title (cg_title cg) in
    if decide (norm ∈ cat_seen cat) then refresh_custom inp rest cat
    else
      id ← game_id_for (in_env inp) None (cg_title cg) (in_authed inp);
      let game := new_game id (cg_title cg) CustomSrc None [] in
      let resolved := resolve_custom (cg_save_root cg) (include cg) (exclude cg) in
      refresh_custom inp rest (add_entry {| ge_game := game; ge_resolved := resolved |}
        (index_custom (in_disk inp) (cg_install_path cg) id) ({[norm]} ∪ cat_seen cat) cat)
  end.

(** ** Refresh *)

Definition steam_games (libs : list SteamLibrary) : list (SteamLibrary * SteamGame) :=
  concat (map (λ lib, map (λ sg, (lib, sg)) (lib_games lib)) libs).

Definition drive_folders (disk : Node) (roots : list Root) : list (string * string) :=
  concat (map (λ r, match root_kind r with Drive => scan_folder_root disk (root_path r) | _ => [] end) roots).

Definition Catalog_new : Catalog := {| cat_games := ∅; cat_index := ExeIndex_new; cat_seen := ∅ |}.

(** The overrides of the synced config; one that does not parse stops the refresh. *)
Definition read_overrides (st : LocalState) : result AnyError (list PathOverride) :=
  match synced_config st with
  | Ok (Some c) => Ok (overrides c)
  | Ok None => Ok []
  | Err m => Err (Bail m)
  end.

Definition refresh_games (env : Readings) (enrich_ids : bool) : M (Engine St) unit :=
  libs ← discover_steam_libraries;
  en ← gets id;
  ovs ← (λ s, (read_overrides (en_local en), s));
  let inp := {|
    in_env := env; in_disk := en_disk en; in_config := en_config en; in_manifest := en_manifest en;
    in_overrides := ovs; in_ctx := {| ctx_roots := e_roots env; steam_libs := libs |};
    in_authed := enrich_ids && is_authenticated (en_client en) |} in
  cat ← refresh_steam inp (steam_games libs) Catalog_new;
  let cat := {| cat_games := cat_games cat; cat_index := cat_index cat; cat_seen := seen_titles (cat_games cat) |} in
  st ← gets en_local;
  cat ← refresh_folders inp (drive_folders (en_disk en) (list_roots st)) cat;
  st ← gets en_local;
  cat ← refresh_custom inp (list_custom_games st) cat;
  _ ← on_local (replace_exe_index (to_rows (cat_index cat)));
  _ ← modify (with_catalog (cat_games cat) (cat_index cat));
  send_event CatalogUpdated.

Definition ensure_default_roots (env : Readings) (home : string) : M (Engine St) unit :=
  en ← gets id;
  match list_roots (en_local en) with
  | [] =>
    on_local (λ st, snd (foldl (λ '(n, st) path, (S n, snd (add_root (e_root_uuid env n) SteamRoot path st))) (O, st)
      (default_steam_roots (en_disk en) (e_os env) home)))
  | _ => mret tt
  end.
End Catalog.
