(* ===== verification/EngineOps.v ===== *)
(** * savr-daemon: requests, events and pushes (src/crates/savr-daemon/src/engine.rs)

    What the engine does with each [GuiRequest], each detection event and each
    push of the server.  A handler of a request gives a reply; [Err Hang] is a
    handler that does not return. *)

From S2P Require Import Prelude CoreTypes ServerError Auth Blobs Hub ServerDb ServerGc ServerApi Snapshot Archive IpcFrame Manifest LocalState Client Backup Restore ExeIndex Watcher Steam Scan Paths Config Engine Catalog.

(** A server of which only its answers matter. *)
Definition answering (f : Request → result AnyError HttpResponse) : Server unit :=
  {| send _ req u := (f req, u) |}.

(** [<server_url>/api/v1], which names the server. *)
Definition api_base (url : string) : string := trim_end_char slash url +:+ "/api/v1".

(** [Uuid::nil]. *)
Definition nil_uuid : Uuid := 0%N.

Section EngineOps.
Context {St : Type} `{SV : Server St} `{HI : HashIter} `{PF : Platform}.
Context `{B3 : Blake3} `{U : UuidText} `{G : Glob} `{T : Tar} `{MJ : MetaJson}
        `{JO : Json OutboxPayload} `{TD : TextForm DateTime} `{TC : TextForm SyncedConfig} `{ET : ErrorText}.

Definition err (e : AnyError) : DaemonMsg := ErrorMsg (error_text e).

(** [match m.await { Ok(a) => k(a), Err(e) => err(e) }]. *)
Definition or_err {A} (m : M (Engine St) A) (k : A → M (Engine St) DaemonMsg) : M (Engine St) DaemonMsg :=
  r ← attempt m;
  match r with
  | Ok a => k a
  | Err Hang => fail Hang
  | Err e => mret (err e)
  end.
(** [let _ = m.await]. *)
Definition ignore {A} (m : M (Engine St) A) : M (Engine St) unit :=
  r ← attempt m;
  match r with Err Hang => fail Hang | _ => mret tt end.

Definition device_or_nil : M (Engine St) DeviceId := gets (λ en, default nil_uuid (en_device_id en)).
Definition unknown_game (g : GameId) : DaemonMsg := ErrorMsg ("unknown game " +:+ uuid_to_string g).

(** ** Backups *)

(** The snapshot is of the disk as it is; a game started meanwhile may change it
    before the packing. *)
Definition files_now (env : BackupEnv) (disk : Node) : BackupEnv := {|
  b_root := disk; b_pack_root := b_pack_root env; b_taken_at := b_taken_at env; b_packed_at := b_packed_at env;
  b_done_at := b_done_at env; b_tmp_id := b_tmp_id env; b_outbox_id := b_outbox_id env |}.

Definition engine_backup (env : Readings) (e : GameEntry) : M (Engine St) BackupOutcome :=
  device ← device_or_nil;
  en ← gets id;
  en_daemon (run_backup (files_now (e_backup env) (en_disk en)) true device
    (full_every (en_config en)) (backup_job e)).

Definition record_conflict (g : GameId) (head : option VersionId) (incoming : VersionId) : M (Engine St) DaemonMsg :=
  let tips := {| mine := incoming; theirs := default incoming head |} in
  _ ← modify (λ en, with_conflicts (<[g := tips]> (conflicts en)) en);
  mret (ConflictRaised g [theirs tips; mine tips]).

Definition backup_now (env : Readings) (g : GameId) : M (Engine St) DaemonMsg :=
  en ← gets id;
  match en_games en !! g with
  | None => mret (unknown_game g)
  | Some e =>
    or_err (engine_backup env e) (λ out,
      match out with
      | Conflicted head incoming => record_conflict g (v_id <$> head) (v_id incoming)
      | _ => mret OkMsg
      end)
  end.

(** A backup the event loop spawned. *)
Definition trigger_backup (env : Readings) (g : GameId) : M (Engine St) unit :=
  en ← gets id;
  match en_games en !! g with
  | None => mret tt
  | Some e =>
    r ← attempt (engine_backup env e);
    match r with
    | Ok (Uploaded v) => send_event (BackupCompleted g)
    | Ok (Conflicted head incoming) =>
      _ ← record_conflict g (v_id <$> head) (v_id incoming);
      send_event (BackupConflict g)
    | Ok Queued => mret tt
    | Ok NoChange => mret tt
    | Err Hang => fail Hang
    | Err _ => mret tt
    end
  end.

(** ** Restores and conflicts *)

Definition restore_request (e : GameEntry) (g : GameId) (v : VersionId) : RestoreRequest := {|
  rq_game_id := g; rq_version_id := v; rq_anchor := rs_anchor (ge_resolved e);
  rq_patterns := rs_patterns (ge_resolved e); rq_registry_keys := rs_registry_keys (ge_resolved e) |}.

Definition engine_restore (env : Readings) (g : GameId) (v : VersionId) : M (Engine St) DaemonMsg :=
  en ← gets id;
  match en_games en !! g with
  | None => mret (unknown_game g)
  | Some e =>
    device ← device_or_nil;
    or_err (on_restorer (run_restore (e_backup env) (e_wall env) device (restore_request e g v)
                        (bool_decide (g ∈ en_running en))))
      (λ _, mret OkMsg)
  end.

Definition engine_resolve_conflict (g : GameId) (choice : ResolveChoice) : M (Engine St) DaemonMsg :=
  en ← gets id;
  match conflicts en !! g with
  | None => mret (ErrorMsg ("no pending conflict for " +:+ uuid_to_string g))
  | Some tips =>
    let '(winner, keep_both) := match choice with
                                | KeepMine => (mine tips, false)
                                | KeepTheirs => (theirs tips, false)
                                | KeepBoth => (mine tips, true)
                                end in
    or_err (en_daemon (net (client_resolve_conflict g {| rr_winner := winner; rr_keep_both := keep_both |})))
      (λ _, _ ← modify (λ en, with_conflicts (delete g (conflicts en)) en); mret OkMsg)
  end.

(** ** Roots, custom games and the config *)

Definition engine_add_root (env : Readings) (spec : RootSpec) : M (Engine St) DaemonMsg :=
  _ ← on_local (λ st, snd (add_root (e_root_uuid env 0) (sp_kind spec) (sp_path spec) st));
  _ ← ignore (refresh_games env true);
  mret OkMsg.

Definition engine_remove_root (env : Readings) (id : Uuid) : M (Engine St) DaemonMsg :=
  _ ← on_local (remove_root id);
  _ ← ignore (refresh_games env true);
  mret OkMsg.

Definition custom_of_spec (s : CustomGameSpec) : CustomGame := {|
  cg_title := cs_title s; cg_install_path := cs_install_path s; cg_save_root := cs_save_root s;
  include := cs_include s; exclude := cs_exclude s |}.

Definition engine_add_custom_game (env : Readings) (spec : CustomGameSpec) : M (Engine St) DaemonMsg :=
  st ← gets en_local;
  match add_custom_game (custom_of_spec spec) st with
  | (Err m, _) => mret (ErrorMsg m)
  | (Ok _, st') => _ ← on_local (λ _, st'); _ ← ignore (refresh_games env true); mret OkMsg
  end.

Definition engine_remove_custom_game (env : Readings) (title : string) : M (Engine St) DaemonMsg :=
  _ ← on_local (remove_custom_game (normalize_title title));
  _ ← ignore (refresh_games env true);
  mret OkMsg.

Definition update_config (env : Readings) (cfg : SyncedConfig) : M (Engine St) DaemonMsg :=
  _ ← on_local (set_synced_config cfg);
  authed ← en_daemon authed_client;
  _ ← (if authed : bool then
         r ← attempt (en_daemon (net (client_put_config cfg)));
         match r with
         | Ok updated => on_local (set_synced_config updated)
         | Err Hang => fail Hang
         | Err _ => mret tt
         end
       else mret tt);
  _ ← ignore (refresh_games env true);
  mret OkMsg.

(** ** Pairing *)

(** The exchange of a fresh client with the server at [url]: the engine's own,
    or another one. *)
Definition pair_at (env : Readings) (url code device_name : string)
    : M (Engine St) (DeviceId * AccountId * string * string) := λ en,
  if decide (api_base url = api_base (server_url (en_config en))) then
    en_daemon (λ d,
      let '(r, n) := client_pair code device_name (e_os env) (ServerClient_new, snd (d_net d)) in
      (r, {| d_local := d_local d; d_cache := d_cache d; d_net := (fst (d_net d), snd n) |})) en
  else (fst (client_pair (SV := answering (e_elsewhere env url)) code device_name (e_os env)
               (ServerClient_new, tt)), en).

Definition on_client (f : ServerClient → ServerClient) : M (Engine St) unit :=
  en_daemon (modify (λ d, {| d_local := d_local d; d_cache := d_cache d;
                             d_net := (f (fst (d_net d)), snd (d_net d)) |})).

Definition engine_pair (env : Readings) (url code device_name : string) : M (Engine St) DaemonMsg :=
  or_err (pair_at env url code device_name) (λ paired,
    let '(device, account, secret, token) := paired in
    let creds := {| cred_device_id := device; cred_account_id := account; refresh_secret := secret |} in
    if e_store_ok env then
      _ ← modify (with_secret (Some creds));
      _ ← on_local (set_meta "server_url" url);
      _ ← modify (with_device (Some device));
      _ ← on_client (set_credentials creds);
      _ ← on_client (set_access_token token);
      mret (Paired device)
    else mret (err FileError)).

(** ** Answers *)

Definition listed_game (en : Engine St) (e : GameEntry) : Game :=
  let g := ge_game e in
  let s := play_stats_all (en_local en) !! g_id g in
  {| g_id := g_id g; g_title := g_title g; g_source := g_source g; g_steam_appid := g_steam_appid g;
     g_save_targets := g_save_targets g;
     g_running := bool_decide (g_id g ∈ en_running en);
     g_last_played := match s with Some p => ps_last_played p | None => g_last_played g end;
     g_last_session_secs := match s with Some p => ps_last_session_secs p | None => g_last_session_secs g end;
     g_total_secs := match s with Some p => ps_total_secs p | None => g_total_secs g end |}.

Definition list_games (en : Engine St) : list Game := map (λ e, listed_game en (snd e)) (hash_iter (en_games en)).

Definition engine_status (env : Readings) (en : Engine St) : DaemonStatus := {|
  version := e_version env;
  uptime_s := e_uptime env;
  rss_bytes := e_rss env;
  watched_games := Z.of_nat (base.size (en_games en)) mod (u32_max + 1);
  st_server_connected := server_connected en || is_authenticated (en_client en);
  st_last_backup_at := match last_backup_at (en_local en) with Ok t => t | Err _ => None end;
  pending_outbox := outbox_count (en_local en);
  autostart_enabled := e_autostart env |}.

Definition current_config (st : LocalState) : SyncedConfig :=
  match synced_config st with Ok (Some c) => c | _ => SyncedConfig_default end.

Definition handle_request (env : Readings) (req : GuiRequest) : M (Engine St) DaemonMsg :=
  match req with
  | ListGames => en ← gets id; mret (Games (list_games en))
  | ListRoots => st ← gets en_local; mret (RootsMsg (list_roots st))
  | AddRoot spec => engine_add_root env spec
  | RemoveRoot id => engine_remove_root env id
  | BackupNow g => backup_now env g
  | GuiListVersions g => or_err (en_daemon (net (client_list_versions g))) (λ l, mret (Versions l))
  | GuiRestore g v => engine_restore env g v
  | GuiResolveConflict g choice => engine_resolve_conflict g choice
  | GetStatus => en ← gets id; mret (Status (engine_status env en))
  | GuiGetConfig => st ← gets en_local; mret (ConfigMsg (current_config st))
  | UpdateConfig cfg => update_config env cfg
  | EnterLearnMode g => _ ← modify (with_learn (Some g)); mret OkMsg
  | PairDevice url code device_name => engine_pair env url code device_name
  | SetAutostart enabled =>
    mret (match e_set_autostart env enabled with Ok _ => OkMsg | Err e => err e end)
  | AddCustomGame spec => engine_add_custom_game env spec
  | RemoveCustomGame title => engine_remove_custom_game env title
  | GetLogs max_lines => mret (Logs (e_logs env max_lines))
  | Shutdown => mret OkMsg
  end.

(** ** Detection events *)

Definition on_event (ev : DetectionEvent) : M (Engine St) (option GameId) :=
  match ev with
  | GameStarted g _ at_ =>
    _ ← on_local (play_start g at_);
    _ ← modify (λ en, with_running ({[g]} ∪ en_running en) en);
    _ ← send_event CatalogUpdated;
    mret None
  | GameStopped g at_ =>
    _ ← on_local (play_stop g at_);
    _ ← modify (λ en, with_running (en_running en ∖ {[g]}) en);
    _ ← send_event CatalogUpdated;
    mret (Some g)
  | ManualBackupRequested g => mret (Some g)
  | SaveDirChanged _ => mret None
  | BackupCompleted _ | BackupConflict _ | SaveAvailable _ | CatalogUpdated => mret None
  end.

(** ** Pushes of the server *)

Definition pull_policy (en : Engine St) (g : GameId) : AutoPullPolicy :=
  let own := match en_games en !! g with
             | Some e => match dc_games (en_config en) !! g_title (ge_game e) with
                         | Some o => ov_autopull o
                         | None => None
                         end
             | None => None
             end in
  default (dc_autopull (en_config en)) own.

Definition on_version_available (env : Readings) (g : GameId) (v : VersionId) : M (Engine St) unit :=
  en ← gets id;
  match pull_policy en g, bool_decide (g ∈ en_running en) with
  | Auto, false => _ ← engine_restore env g v; mret tt
  | _, _ => send_event (SaveAvailable g)
  end.

Definition record_ws_conflict (g : GameId) (tips : list VersionId) : M (Engine St) unit :=
  _ ← (match tips with
       | theirs :: mine :: _ =>
         modify (λ en, with_conflicts (<[g := {| mine := mine; theirs := theirs |}]> (conflicts en)) en)
       | _ => mret tt
       end);
  send_event (BackupConflict g).

Definition flush_outbox (env : Readings) : M (Engine St) unit :=
  ignore (en_daemon (retry_outbox (b_taken_at (e_backup env)) (b_done_at (e_backup env)))).

Definition pull_config (env : Readings) : M (Engine St) unit :=
  authed ← en_daemon authed_client;
  if negb authed then mret tt
  else
    cfg ← en_daemon (net client_get_config);
    _ ← on_local (set_synced_config cfg);
    refresh_games env true.

(** ** Construction *)

(** The client is seeded with the stored credential, and its account id as the
    first bearer. *)
Definition Engine_new (cfg : DaemonConfig) (st : LocalState) (stored : option Credentials)
    (cache : gmap string bytes) (scratch : Scratch) (disk : Node) (srv : St) : Engine St := {|
  en_config := cfg;
  en_restorer := {|
    r_daemon := {|
      d_local := st; d_cache := cache;
      d_net := (match stored with
                | Some c => set_access_token (uuid_to_string (cred_account_id c))
                              (set_credentials c ServerClient_new)
                | None => ServerClient_new
                end, srv) |};
    r_scratch := scratch; r_disk := disk |};
  secret_store := stored;
  en_events := [];
  en_exe_index := ExeIndex_new;
  en_manifest := ∅;
  en_games := ∅;
  conflicts := ∅;
  en_running := ∅;
  learn_mode := None;
  server_connected := false;
  en_device_id := cred_device_id <$> stored |}.
End EngineOps.
