(* ===== verification/DaemonWs.v ===== *)
(** * savr-daemon: the WebSocket client (src/crates/savr-daemon/src/ws.rs)

    A connection is driven by what its [select!] loop wakes on; the client
    connects again after a growing delay. *)

From S2P Require Import Prelude CoreTypes ServerError Auth Blobs Hub ServerDb ServerGc ServerApi Snapshot Archive IpcFrame Manifest LocalState Client Backup Restore ExeIndex Watcher Steam Scan Paths Config Engine Catalog EngineOps.

Definition ws_url (url : string) : string :=
  let base := trim_end_char slash url in
  let swapped := match strip_prefix "https://" base with
                 | Some rest => "wss://" +:+ rest
                 | None => match strip_prefix "http://" base with
                           | Some rest => "ws://" +:+ rest
                           | None => base
                           end
                 end in
  swapped +:+ "/ws".

(** A frame of the server, and what the loop may wake on.  A text carries what
    its handling reads. *)
Inductive Frame :=
  | TextFrame (env : Readings) (text : bytes)
  | PingFrame
  | CloseFrame
  | OtherFrame.
Inductive Wake :=
  | ShutdownChanged (down : bool)
  | HeartbeatTick
  | Arrived (f : Frame)
  | StreamEnd
  | StreamError
  | WriteError.

Inductive Outgoing := Say (m : ClientMsg) | PongOut | CloseOut.
Inductive Ending := Running | Closed | Failed | Stuck.

Section DaemonWs.
Context {St : Type} `{SV : Server St} `{HI : HashIter} `{PF : Platform}.
Context `{B3 : Blake3} `{U : UuidText} `{G : Glob} `{T : Tar} `{MJ : MetaJson}
        `{JO : Json OutboxPayload} `{TD : TextForm DateTime} `{TC : TextForm SyncedConfig} `{ET : ErrorText}.
Context `{JS : Json ServerMsg}.

Definition ws_handle (env : Readings) (msg : ServerMsg) : M (Engine St) unit :=
  match msg with
  | VersionAvailable g v _ => on_version_available env g v
  | ConflictMsg g tips => record_ws_conflict g tips
  | ConfigUpdated _ => ignore (pull_config env)
  | DeviceAdded _ | Pong => mret tt
  end.

Definition mark_connected (b : bool) : M (Engine St) unit := modify (with_connected b).

(** The [select!] loop: what it sends, and how it ends. *)
Fixpoint session (wakes : list Wake) (en : Engine St) : list Outgoing * Ending * Engine St :=
  match wakes with
  | [] => ([], Running, en)
  | ShutdownChanged true :: _ => ([CloseOut], Closed, en)
  | ShutdownChanged false :: rest => session rest en
  | HeartbeatTick :: rest => let '(out, e, en) := session rest en in (Say PingMsg :: out, e, en)
  | Arrived (TextFrame env text) :: rest =>
    match from_slice text with
    | Some msg =>
      match ws_handle env msg en with
      | (Ok _, en) => session rest en
      | (Err _, en) => ([], Stuck, en)
      end
    | None => session rest en
    end
  | Arrived PingFrame :: rest => let '(out, e, en) := session rest en in (PongOut :: out, e, en)
  | Arrived CloseFrame :: _ => ([], Closed, en)
  | Arrived OtherFrame :: rest => session rest en
  | StreamEnd :: _ => ([], Closed, en)
  | StreamError :: _ => ([], Failed, en)
  | WriteError :: _ => ([], Failed, en)
  end.

(** The bearer and the frames of the connection; [reachable] is whether the
    handshake succeeds with that address and header. *)
Definition connect_and_run (reachable : string → string → bool) (wakes : list Wake) (en : Engine St)
    : list Outgoing * Ending * Engine St :=
  match access (en_client en), en_device_id en with
  | Some token, Some device =>
    if reachable (ws_url (server_url (en_config en))) ("Bearer " +:+ token) then
      let '(out, e, en) := session wakes (with_connected true en) in
      (Say (Hello device ∅) :: Say (Subscribe ["*"]) :: out, e, en)
    else ([], Failed, en)
  | _, _ => ([], Failed, en)
  end.

(** One turn of the outer loop: what a connection met, and whether the shutdown
    flag was up after it. *)
Record Try := { try_reachable : string → string → bool; try_wakes : list Wake; try_down : bool }.

(** The delays slept, in order; a shutdown, a running or a stuck connection ends
    the list. *)
Fixpoint run_ws_client (tries : list Try) (attempt : Z) (en : Engine St) : list Z * Engine St :=
  match tries with
  | [] => ([], en)
  | t :: rest =>
    let '(_, e, en) := connect_and_run (try_reachable t) (try_wakes t) en in
    match e with
    | Running | Stuck => ([], en)
    | Closed | Failed =>
      let attempt := match e with Failed => Z.min (attempt + 1) u32_max | _ => 0%Z end in
      let en := with_connected false en in
      if try_down t then ([], en)
      else let '(delays, en) := run_ws_client rest attempt en in (backoff_delay attempt :: delays, en)
    end
  end.
End DaemonWs.
