(* ===== verification/IpcServer.v ===== *)
(** * savr-daemon: the IPC server (src/crates/savr-daemon/src/ipc.rs)

    One connection of a GUI: its requests are read from a byte stream and
    answered in order; the replies and the pushed events share one writer.  And
    the endpoint that daemons of one user share, from the guard of [main] over
    the bind of [run_ipc_server] to its end, as steps on the socket file. *)

From S2P Require Import Prelude CoreTypes ServerError Auth Blobs Hub ServerDb ServerGc ServerApi Snapshot Archive IpcFrame Manifest LocalState Client Backup Restore ExeIndex Watcher Steam Scan Paths Config Engine Catalog EngineOps.

Section Writer.
Context `{JD : Json DaemonMsg}.

Definition io_text (e : IoError) : string :=
  match e with Other m => m | UnexpectedEof => "unexpected end of file" | InvalidData => "invalid data" end.

(** A message that does not encode degrades to an error. *)
Definition frame_or_error (msg : DaemonMsg) : option bytes :=
  match encode_frame msg with
  | Ok f => Some f
  | Err e =>
    match encode_frame (ErrorMsg ("daemon could not encode reply: " +:+ io_text e)) with
    | Ok f => Some f
    | Err _ => None
    end
  end.

(** The writer task, to what the GUI reads. *)
Fixpoint write_all (msgs : list DaemonMsg) : bytes :=
  match msgs with
  | [] => []
  | m :: rest => match frame_or_error m with Some f => f ++ write_all rest | None => [] end
  end.
End Writer.

Section IpcServer.
Context {St : Type} `{SV : Server St} `{HI : HashIter} `{PF : Platform}.
Context `{B3 : Blake3} `{U : UuidText} `{G : Glob} `{T : Tar} `{MJ : MetaJson}
        `{JO : Json OutboxPayload} `{TD : TextForm DateTime} `{TC : TextForm SyncedConfig} `{ET : ErrorText}.
Context `{JG : Json GuiRequest}.

(** How the request loop of a connection ended: the stream did, it broke, the
    GUI asked the daemon to stop, or a handler never returned. *)
Inductive ConnEnd := AtEof | BadFrame | AskedShutdown | Hung.

(** The request loop; [envs n] is what the [n]th request's handler reads. *)
Fixpoint serve_requests (envs : nat → Readings) (fuel n : nat) (stream : bytes) (en : Engine St)
    : list DaemonMsg * ConnEnd * Engine St :=
  match fuel with
  | O => ([], Hung, en)
  | S fuel =>
    match read_frame (T := GuiRequest) stream with
    | (Err _, _) => ([], BadFrame, en)
    | (Ok None, _) => ([], AtEof, en)
    | (Ok (Some Shutdown), _) => ([OkMsg], AskedShutdown, en)
    | (Ok (Some req), rest) =>
      match handle_request (envs n) req en with
      | (Err _, en) => ([], Hung, en)
      | (Ok reply, en) =>
        let '(out, e, en) := serve_requests envs fuel (S n) rest en in (reply :: out, e, en)
      end
    end
  end.

(** Every frame takes at least its length's four bytes. *)
Definition serve_connection (envs : nat → Readings) (stream : bytes) (en : Engine St)
    : list DaemonMsg * ConnEnd * Engine St :=
  serve_requests envs (S (length stream)) 0 stream en.

(** What the shared shutdown channel holds afterwards. *)
Definition trips_shutdown (e : ConnEnd) : bool := match e with AskedShutdown => true | _ => false end.
End IpcServer.

(** The writer's queue: the replies in their order, with pushed events between. *)
Inductive Mixed : list DaemonMsg → list DetectionEvent → list DaemonMsg → Prop :=
  | mixed_nil : Mixed [] [] []
  | mixed_reply r rs evs out : Mixed rs evs out → Mixed (r :: rs) evs (r :: out)
  | mixed_event ev rs evs out : Mixed rs evs out → Mixed rs (ev :: evs) (Event ev :: out).

(** ** The endpoint *)

Definition default_ipc_endpoint (windows : bool) (env : Environment) (runtime_dir : option string) : string :=
  let platform :=
    if windows then "savr-daemon"
    else match runtime_dir with
         | Some dir => text_join (text_join dir "savr") "daemon.sock"
         | None => "/tmp/savr-daemon.sock"
         end in
  match env "SAVR_IPC_PATH" with
  | Some p => if bool_decide (p = "") then platform else p
  | None => platform
  end.

(** How far a daemon is on a Unix system: before the guard of [main]; past it;
    past the second probe, in [run_ipc_server]; with the leftover file cleared;
    bound and accepting; told to stop, the listener still open; waiting for its
    other tasks; or running without an endpoint, since [main] only logs that
    [run_ipc_server] failed. *)
Inductive Phase := Starting | Guarded | Probed | FileCleared | Listening | Closing | Draining | Deaf.

(** Whose socket file is at the path, and the daemons that run. *)
Record Endpoint := { socket : option nat; daemons : gmap nat Phase }.
Definition Endpoint_new : Endpoint := {| socket := None; daemons := ∅ |}.

Definition listens (ph : Phase) : bool := match ph with Listening | Closing => true | _ => false end.

(** Somebody answers a connection to the path. *)
Definition is_listening (e : Endpoint) : bool :=
  match socket e with
  | Some p => match daemons e !! p with Some ph => listens ph | None => false end
  | None => false
  end.

Definition at_phase (p : nat) (ph : Phase) (e : Endpoint) : Endpoint :=
  {| socket := socket e; daemons := <[p := ph]> (daemons e) |}.
Definition with_socket (s : option nat) (e : Endpoint) : Endpoint := {| socket := s; daemons := daemons e |}.
Definition exits (p : nat) (e : Endpoint) : Endpoint := {| socket := socket e; daemons := delete p (daemons e) |}.

(** The next thing a daemon does to the endpoint. *)
Definition advance (p : nat) (ph : Phase) (e : Endpoint) : Endpoint :=
  match ph with
  | Starting => if is_listening e then exits p e else at_phase p Guarded e
  | Guarded => if is_listening e then at_phase p Deaf e else at_phase p Probed e
  | Probed => at_phase p FileCleared (with_socket None e)
  | FileCleared =>
    match socket e with
    | None => at_phase p Listening (with_socket (Some p) e)
    | Some _ => at_phase p Deaf e
    end
  | Closing => at_phase p Draining (with_socket None e)
  | Draining => exits p e
  | Listening | Deaf => e
  end.

Inductive endpoint_step (e : Endpoint) : Endpoint → Prop :=
  | ep_launched p : daemons e !! p = None → socket e ≠ Some p → endpoint_step e (at_phase p Starting e)
  | ep_advances p ph : daemons e !! p = Some ph → endpoint_step e (advance p ph e)
  | ep_bind_fails p : daemons e !! p = Some FileCleared ∨ daemons e !! p = Some Probed → endpoint_step e (at_phase p Deaf e)
  | ep_told p : daemons e !! p = Some Listening → endpoint_step e (at_phase p Closing e)
  | ep_dies p : endpoint_step e (exits p e).
