(* ===== verification/GuiApp.v ===== *)
(** * savr-app: the GUI's side (src/crates/savr-app/src-tauri/src)

    The IPC client (ipc_client.rs), the commands (commands.rs) and the toasts.
    Frames are read from what the daemon wrote; Tauri itself is not modelled. *)

From S2P Require Import Prelude CoreTypes IpcFrame LocalState Watcher Engine.

(** error.rs *)
Inductive CmdError :=
  | DaemonUnreachable (m : string)
  | DaemonError (m : string)
  | ProtocolError (got : DaemonMsg)
  | CmdIo (e : IoError).

Section Request.
Context `{JD : Json DaemonMsg} `{JG : Json GuiRequest}.

(** The reply: events that were pushed before it are skipped. *)
Fixpoint await_reply (fuel : nat) (stream : bytes) : option (result CmdError DaemonMsg) :=
  match fuel with
  | O => None
  | S fuel =>
    match read_frame (T := DaemonMsg) stream with
    | (Err e, _) => Some (Err (CmdIo e))
    | (Ok (Some (Event _)), rest) => await_reply fuel rest
    | (Ok (Some (ErrorMsg m)), _) => Some (Err (DaemonError m))
    | (Ok (Some msg), _) => Some (Ok msg)
    | (Ok None, _) => Some (Err (DaemonUnreachable "daemon closed the connection without responding"))
    end
  end.

(** [request] over a connection: what it writes, and what it makes of what the
    daemon wrote back. *)
Definition request_frame (req : GuiRequest) : result CmdError bytes :=
  match encode_frame req with Ok f => Ok f | Err e => Err (CmdIo e) end.
Definition read_reply (stream : bytes) : option (result CmdError DaemonMsg) := await_reply (S (length stream)) stream.
End Request.

(** ** Commands *)

(** What a command makes of the reply. *)
Inductive CmdValue :=
  | VUnit
  | VGames (l : list Game)
  | VRoots (l : list Root)
  | VVersions (l : list Version)
  | VStatus (s : DaemonStatus)
  | VConfig (c : SyncedConfig)
  | VDevice (id : Uuid)
  | VLines (l : list string).

Definition expect_ok (msg : DaemonMsg) : result CmdError CmdValue :=
  match msg with OkMsg => Ok VUnit | other => Err (ProtocolError other) end.

(** One command per request; [restart_for_update] ignores what it gets. *)
Definition command (req : GuiRequest) (msg : DaemonMsg) : result CmdError CmdValue :=
  match req with
  | ListGames => match msg with Games l => Ok (VGames l) | other => Err (ProtocolError other) end
  | ListRoots => match msg with RootsMsg l => Ok (VRoots l) | other => Err (ProtocolError other) end
  | BackupNow _ => match msg with OkMsg | ConflictRaised _ _ => Ok VUnit | other => Err (ProtocolError other) end
  | GuiListVersions _ => match msg with Versions l => Ok (VVersions l) | other => Err (ProtocolError other) end
  | GetStatus => match msg with Status s => Ok (VStatus s) | other => Err (ProtocolError other) end
  | GuiGetConfig => match msg with ConfigMsg c => Ok (VConfig c) | other => Err (ProtocolError other) end
  | PairDevice _ _ _ => match msg with Paired d => Ok (VDevice d) | other => Err (ProtocolError other) end
  | GetLogs _ => match msg with Logs l => Ok (VLines l) | other => Err (ProtocolError other) end
  | Shutdown => Ok VUnit
  | AddRoot _ | RemoveRoot _ | GuiRestore _ _ | GuiResolveConflict _ _ | UpdateConfig _ | EnterLearnMode _
  | SetAutostart _ | AddCustomGame _ | RemoveCustomGame _ => expect_ok msg
  end.

(** A command on what [request] gave. *)
Definition run_command (req : GuiRequest) (r : result CmdError DaemonMsg) : result CmdError CmdValue :=
  match r with Ok msg => command req msg | Err e => match req with Shutdown => Ok VUnit | _ => Err e end end.

(** ** Toasts *)

(** The titles kept, and the catalog a lookup got, if any. *)
Definition refresh_titles (games : option (list Game)) (titles : gmap GameId string) : gmap GameId string :=
  match games with
  | Some l => foldl (λ m g, <[g_id g := g_title g]> m) ∅ l
  | None => titles
  end.
Definition title_for (games : option (list Game)) (g : GameId) (titles : gmap GameId string)
    : string * gmap GameId string :=
  let titles := refresh_titles games titles in (default "your game" (titles !! g), titles).

Definition toast_for (games : option (list Game)) (ev : DetectionEvent) (titles : gmap GameId string)
    : option (string * string) * gmap GameId string :=
  match ev with
  | GameStarted g _ _ =>
    let '(t, titles) := title_for games g titles in
    (Some ("Now watching " +:+ t, "Savr backs up your save when you close the game."), titles)
  | GameStopped g _ =>
    let '(t, titles) := title_for games g titles in (Some (t +:+ " closed", "Checking for new save data…"), titles)
  | BackupCompleted g =>
    let '(t, titles) := title_for games g titles in
    (Some (t +:+ " backed up", "Your latest save is safe with Savr."), titles)
  | BackupConflict g =>
    let '(t, titles) := title_for games g titles in
    (Some ("Sync conflict", t +:+ " — open Savr to choose which save to keep."), titles)
  | SaveAvailable g =>
    let '(t, titles) := title_for games g titles in
    (Some ("New save available", t +:+ " — open Savr to download it."), titles)
  | ManualBackupRequested _ | SaveDirChanged _ | CatalogUpdated => (None, titles)
  end.

(** What a frame makes the subscription do. *)
Inductive AppEffect := EmitCatalogUpdated | ShowToast (title body : string).

(** [subscribe_once] on the messages read until the connection ends, each with
    the catalog a lookup at that time gets. *)
Fixpoint subscribe_once (msgs : list (DaemonMsg * option (list Game))) (titles : gmap GameId string)
    : list AppEffect * gmap GameId string :=
  match msgs with
  | [] => ([], titles)
  | (Event CatalogUpdated, _) :: rest =>
    let '(fx, titles) := subscribe_once rest titles in (EmitCatalogUpdated :: fx, titles)
  | (Event ev, games) :: rest =>
    let '(toast, titles) := toast_for games ev titles in
    let '(fx, titles) := subscribe_once rest titles in
    (match toast with Some (t, b) => ShowToast t b :: fx | None => fx end, titles)
  | (_, _) :: rest => subscribe_once rest titles
  end.
Definition subscription (msgs : list (DaemonMsg * option (list Game))) (titles : gmap GameId string)
    : list AppEffect * gmap GameId string :=
  let '(fx, titles) := subscribe_once msgs titles in (EmitCatalogUpdated :: fx, titles).

(** The connections one after the other, [None] where none could be opened; the
    titles outlive them. *)
Fixpoint run_event_subscription (connections : list (option (list (DaemonMsg * option (list Game)))))
    (titles : gmap GameId string) : list AppEffect :=
  match connections with
  | [] => []
  | None :: rest => run_event_subscription rest titles
  | Some msgs :: rest =>
    let '(fx, titles) := subscription msgs titles in fx ++ run_event_subscription rest titles
  end.
