(* ===== verification/ManifestSync.v ===== *)
(** * savr-daemon: the cached manifest and the log tail
    (src/crates/savr-daemon/src/manifest_sync.rs, logs.rs)

    The two cached files, the reply of the manifest's host and what a write
    leaves behind when it fails are arguments; so is the YAML parser. *)

From S2P Require Import Prelude CoreTypes Snapshot Archive Manifest LocalState Client Backup ExeIndex Steam Scan Config.

Class Yaml := { manifest_parse : string → option Manifest }.

Record Cache := { c_manifest : FileRead; c_etag : FileRead }.
Definition Cache_empty : Cache := {| c_manifest := NotFound; c_etag := NotFound |}.

Record RefreshOutcome := { ro_manifest : Manifest; not_modified : bool; entry_count : nat }.

(** What becomes of a [fs::write]: all of it, or the file as the failure leaves it. *)
Inductive Write := Written | Torn (rest : FileRead).
Definition fs_write (w : Write) (text : string) : result AnyError unit * FileRead :=
  match w with
  | Written => (Ok tt, Text text)
  | Torn rest => (Err FileError, rest)
  end.

(** The answer to the conditional request: no answer, or a status, the ETag and
    the body, which may fail to arrive. *)
Inductive Fetched :=
  | Unreachable
  | Answered (status : Z) (etag : option string) (body : option string).

Record SyncEnv := {
  dir_ok : bool;
  fetch : option string → Fetched;
  on_manifest : Write;
  on_etag : Write;
}.

Section ManifestSync.
Context `{Y : Yaml}.

Definition load_cached (c : Cache) : result AnyError (option Manifest) :=
  match c_manifest c with
  | Text t => m ← ok_or (manifest_parse t) BadBody; Ok (Some m)
  | NotFound => Ok None
  | ReadError => Err FileError
  end.

Definition outcome_of (m : Manifest) (unmodified : bool) : RefreshOutcome :=
  {| ro_manifest := m; not_modified := unmodified; entry_count := base.size m |}.

(** The [If-None-Match] header. *)
Definition stored_etag (c : Cache) : option string := match c_etag c with Text t => Some (trim_ws t) | _ => None end.

Definition sync_manifest (env : SyncEnv) : M Cache RefreshOutcome := λ c,
  if negb (dir_ok env) then (Err FileError, c)
  else match fetch env (stored_etag c) with
  | Unreachable =>
    match load_cached c with
    | Err e => (Err e, c)
    | Ok (Some m) => (Ok (outcome_of m true), c)
    | Ok None => (Err Transport, c)
    end
  | Answered status etag body =>
    if decide (status = 304%Z) then
      match load_cached c with
      | Err e => (Err e, c)
      | Ok (Some m) => (Ok (outcome_of m true), c)
      | Ok None => (Err (Bail "server said 304 but no cached manifest exists"), c)
      end
    else if decide (400 <= status < 600)%Z then (Err (BadStatus status), c)
    else match body with
    | None => (Err Transport, c)
    | Some body =>
      match manifest_parse body with
      | None => (Err BadBody, c)
      | Some m =>
        match fs_write (on_manifest env) body with
        | (Err e, f) => (Err e, {| c_manifest := f; c_etag := c_etag c |})
        | (Ok _, f) =>
          let c := {| c_manifest := f; c_etag := c_etag c |} in
          match etag with
          | None => (Ok (outcome_of m false), c)
          | Some tag =>
            match fs_write (on_etag env) tag with
            | (Err e, f) => (Err e, {| c_manifest := c_manifest c; c_etag := f |})
            | (Ok _, f) => (Ok (outcome_of m false), {| c_manifest := c_manifest c; c_etag := f |})
            end
          end
        end
      end
    end
  end.
End ManifestSync.

(** ** logs.rs *)

(** [str::lines]: the text after the last newline is a line unless it is empty. *)
Definition str_lines (s : string) : list string :=
  let l := lines_of (split_on newline s) in
  match list.last l with Some "" => removelast l | _ => l end.

Definition is_log (e : string * Node) : bool := starts_with "daemon.log" (fst e).

(** The greatest file name, the first of equals. *)
Definition newest_log_file (es : list (string * Node)) : option string :=
  foldl (λ newest e,
    if is_log e then
      match newest with
      | Some cur => if string_le (fst e) cur then newest else Some (fst e)
      | None => Some (fst e)
      end
    else newest) None es.

Definition tail_from (root : Node) (dir : string) (max_lines : nat) : list string :=
  match read_dir root dir ≫= newest_log_file with
  | None => ["(no daemon log file yet under " +:+ dir +:+ ")"]
  | Some name =>
    match read_to_string root (text_join dir name) with
    | None => ["(could not read " +:+ text_join dir name +:+ ")"]
    | Some contents =>
      let lines := str_lines contents in
      drop (length lines - Nat.max max_lines 1) lines
    end
  end.

Definition log_tail (env : Environment) (data_dir : option string) (root : Node) (max_lines : nat) : list string :=
  tail_from root (text_join (data_root env data_dir) "logs") max_lines.
