(* ===== verification/Supervisor.v ===== *)
(** * savr-app: the daemon's supervisor and the window (src/crates/savr-app/src-tauri/src: daemon.rs, lib.rs,
    and the relaunch of commands.rs)

    The task that keeps the bundled daemon alive and the quits of the app as
    steps on the shared state behind one lock.  A process is a number; a kill
    ends it. *)

From S2P Require Import Prelude CoreTypes.

Definition MAX_FAST_RESTARTS : nat := 5.
Definition RESTART_DELAY : Z := 2000.
Definition FAST_RESTART : Z := 3000.

Record Inner := { child : option nat; shutting_down : bool }.
Definition Inner_default : Inner := {| child := None; shutting_down := false |}.

(** The state behind the lock and the processes that run. *)
Record Shared := { inner : Inner; alive : gset nat }.

Definition kill (c : nat) (procs : gset nat) : gset nat := procs ∖ {[c]}.

Definition adopt (c : nat) (s : Shared) : bool * Shared :=
  if shutting_down (inner s) then (false, {| inner := inner s; alive := kill c (alive s) |})
  else (true, {| inner := {| child := Some c; shutting_down := shutting_down (inner s) |}; alive := alive s |}).

Definition clear_child (s : Shared) : Shared :=
  {| inner := {| child := None; shutting_down := shutting_down (inner s) |}; alive := alive s |}.

Definition shutdown (s : Shared) : Shared := {|
  inner := {| child := None; shutting_down := true |};
  alive := match child (inner s) with Some c => kill c (alive s) | None => alive s end |}.

(** Where the task is: the head of its loop, between the check and the spawn,
    with a child it has not handed over, watching one since some instant, with
    the child cleared, asleep, or returned. *)
Inductive Task :=
  | Head (fast : nat)
  | Spawning (fast : nat)
  | Holding (c fast : nat)
  | Watching (c : nat) (since : Z) (fast : nat)
  | Cleared (since : Z) (fast : nat)
  | Asleep (fast : nat)
  | Returned.

Record App := { shared : Shared; task : Task }.

(** [supervise] on an endpoint where a daemon already listens returns at once. *)
Definition App_start (daemon_running : bool) : App := {|
  shared := {| inner := Inner_default; alive := ∅ |};
  task := if daemon_running then Returned else Head 0 |}.

(** One fast death, or one failed spawn, more. *)
Definition count_fast (fast : nat) : Task :=
  if decide (MAX_FAST_RESTARTS <= S fast) then Returned else Asleep (S fast).

Definition after_exit (since now : Z) (fast : nat) : Task :=
  if decide (now - since < FAST_RESTART)%Z then count_fast fast else Asleep 0.

Inductive app_step : App → App → Prop :=
  | step_check s fast :
      app_step {| shared := s; task := Head fast |}
               {| shared := s; task := if shutting_down (inner s) then Returned else Spawning fast |}
  | step_spawned s fast c :
      c ∉ alive s →
      app_step {| shared := s; task := Spawning fast |}
               {| shared := {| inner := inner s; alive := {[c]} ∪ alive s |}; task := Holding c fast |}
  | step_missing s fast :
      app_step {| shared := s; task := Spawning fast |} {| shared := s; task := Returned |}
  | step_spawn_failed s fast :
      app_step {| shared := s; task := Spawning fast |} {| shared := s; task := count_fast fast |}
  | step_adopt s fast c now :
      app_step {| shared := s; task := Holding c fast |}
               {| shared := snd (adopt c s);
                  task := if fst (adopt c s) then Watching c now fast else Returned |}
  | step_exit_seen s fast c since :
      c ∉ alive s →
      app_step {| shared := s; task := Watching c since fast |}
               {| shared := clear_child s; task := Cleared since fast |}
  | step_cleared s fast since now :
      app_step {| shared := s; task := Cleared since fast |}
               {| shared := s; task := if shutting_down (inner s) then Returned else after_exit since now fast |}
  | step_woken s fast :
      app_step {| shared := s; task := Asleep fast |} {| shared := s; task := Head fast |}
  | step_died s t c :
      app_step {| shared := s; task := t |}
               {| shared := {| inner := inner s; alive := alive s ∖ {[c]} |}; task := t |}
  | step_shutdown s t :
      app_step {| shared := s; task := t |} {| shared := shutdown s; task := t |}.

(** ** The window and the tray (lib.rs)

    What the user and the system do to the app: a tray menu item, a click on the
    tray icon, the window's close button, a second launch (forwarded to this
    instance), macOS's Dock icon, an update's relaunch, and the end of the event
    loop. *)

Inductive MouseButton := LeftButton | OtherButton.
Inductive ButtonState := ButtonUp | ButtonDown.
Inductive UiEvent :=
  | MenuEvent (id : string)
  | TrayClick (button : MouseButton) (state : ButtonState)
  | TrayOther
  | CloseRequested
  | SecondLaunch
  | Reopen
  | UpdateRelaunch
  | ExitEvent.

Record Desktop := { app : App; visible : bool; running : bool }.
Definition Desktop_start (daemon_running : bool) : Desktop :=
  {| app := App_start daemon_running; visible := true; running := true |}.

Definition with_visible (v : bool) (d : Desktop) : Desktop := {| app := app d; visible := v; running := running d |}.
Definition show_main (d : Desktop) : Desktop := with_visible true d.
(** [app.state::<Supervisor>().shutdown()]. *)
Definition shut_down (d : Desktop) : Desktop :=
  {| app := {| shared := shutdown (shared (app d)); task := task (app d) |}; visible := visible d; running := running d |}.

(** commands.rs: the daemon is asked to stop, whoever started it, and the answer
    is ignored; a daemon that obeys dies by itself. *)
Definition restart_for_update (d : Desktop) : Desktop := shut_down d.

Definition on_menu_event (id : string) (d : Desktop) : Desktop :=
  if bool_decide (id = "open") then show_main d
  else if bool_decide (id = "quit") then shut_down d
  else d.

(** [app.exit] and [app.restart] end the event loop, whose last event is
    [RunEvent::Exit]. *)
Definition on_ui_event (ev : UiEvent) (d : Desktop) : Desktop :=
  match ev with
  | MenuEvent id => on_menu_event id d
  | TrayClick LeftButton ButtonUp => show_main d
  | TrayClick _ _ | TrayOther => d
  | CloseRequested => with_visible false d
  | SecondLaunch | Reopen => show_main d
  | UpdateRelaunch => restart_for_update d
  | ExitEvent => {| app := app (shut_down d); visible := visible d; running := false |}
  end.

(** Once the app has ended so has its task; the processes it left go on. *)
Inductive desktop_step (d : Desktop) : Desktop → Prop :=
  | step_task a : running d = true → app_step (app d) a → desktop_step d {| app := a; visible := visible d; running := true |}
  | step_ui ev : running d = true → desktop_step d (on_ui_event ev d).
