(* ===== verification/Startup.v ===== *)
(** * savr-daemon: start-up and the running daemon (src/crates/savr-daemon/src/main.rs)

    What [main] does before its tasks run, and the daemon with its tasks as one
    step function: requests of the GUI, events of the watcher on the bus, the
    event loop that consumes them, the backups it spawns, pushes of the server
    and the periodic tasks.  A handler is one step. *)

From S2P Require Import Prelude CoreTypes ServerError Auth Blobs Hub ServerDb ServerGc ServerApi Snapshot Archive IpcFrame Manifest LocalState Client Backup Restore ExeIndex Watcher Steam Scan Paths Config Engine Catalog EngineOps DaemonWs ManifestSync.

Section Startup.
Context {St : Type} `{SV : Server St} `{HI : HashIter} `{PF : Platform}.
Context `{B3 : Blake3} `{U : UuidText} `{G : Glob} `{T : Tar} `{MJ : MetaJson}
        `{JO : Json OutboxPayload} `{TD : TextForm DateTime} `{TC : TextForm SyncedConfig} `{ET : ErrorText}.
Context `{Y : Yaml} `{TM : Toml}.

(** ** Start-up *)

(** What the process finds: its environment and files, its stored credential and
    whether another daemon answers on the endpoint. *)
Record Machine := {
  m_env : Environment;
  m_config_file : FileRead;
  m_stored : option Credentials;
  m_archives : gmap string bytes;
  m_scratch : Scratch;
  m_disk : Node;
  m_listening : bool;
}.

(** Up to the single-instance guard; the database is on disk, so its state
    survives a process that exits. *)
Definition boot_engine (m : Machine) (st : LocalState) (srv : St) : result string (Engine St) :=
  cfg ← DaemonConfig_load (m_env m) (m_config_file m);
  let st := close_orphaned_sessions st in
  Ok (Engine_new (startup_config (m_env m) st cfg) st (m_stored m) (m_archives m) (m_scratch m) (m_disk m) srv).

Inductive Launch := Exits (st : LocalState) | Runs (en : Engine St) | Fails (e : string).

Definition launch (m : Machine) (st : LocalState) (srv : St) : Launch :=
  match boot_engine m st srv with
  | Err e => Fails e
  | Ok en => if m_listening m then Exits (en_local en) else Runs en
  end.

(** The catalog before and after the manifest; a cached manifest that does not
    parse ends the process. *)
Definition first_catalog (env : Readings) (home : string) (sync : SyncEnv) (c : Cache) : M (Engine St) Cache :=
  _ ← ignore (ensure_default_roots env home);
  _ ← ignore (refresh_games env false);
  let '(r, c) := sync_manifest sync c in
  match r with
  | Ok o =>
    _ ← modify (set_manifest (ro_manifest o));
    _ ← ignore (refresh_games env true);
    mret c
  | Err _ =>
    match load_cached c with
    | Err e => fail e
    | Ok (Some man) =>
      _ ← modify (set_manifest man);
      _ ← ignore (refresh_games env true);
      mret c
    | Ok None => mret c
    end
  end.

(** One tick of the daily refresh. *)
Definition manifest_tick (env : Readings) (sync : SyncEnv) (c : Cache) : M (Engine St) Cache :=
  let '(r, c) := sync_manifest sync c in
  match r with
  | Ok o =>
    if not_modified o then mret c
    else
      _ ← modify (set_manifest (ro_manifest o));
      _ ← ignore (refresh_games env true);
      mret c
  | Err _ => mret c
  end.

(** ** The tasks *)

(** The engine, how far the event loop has read the bus, the backups it spawned
    that have not run yet, and the manifest cache. *)
Record System := {
  sys_engine : Engine St;
  sys_read : nat;
  sys_spawned : list GameId;
  sys_cache : Cache;
}.
Definition System_new (en : Engine St) (c : Cache) : System :=
  {| sys_engine := en; sys_read := length (en_events en); sys_spawned := []; sys_cache := c |}.

Inductive Input :=
  | GuiAsks (env : Readings) (req : GuiRequest)
  | Detected (ev : DetectionEvent)
  | LoopReads
  | LoopLags (n : nat)
  | BackupRuns (env : Readings) (i : nat)
  | ServerPushes (env : Readings) (msg : ServerMsg)
  | OutboxTick (env : Readings)
  | ManifestTick (env : Readings) (sync : SyncEnv)
  | FilesChange (disk : Node).

Definition with_engine (en : Engine St) (s : System) : System :=
  {| sys_engine := en; sys_read := sys_read s; sys_spawned := sys_spawned s; sys_cache := sys_cache s |}.

(** A handler on the engine; one that never returns stops nothing else. *)
Definition engine_step {A} (m : M (Engine St) A) (s : System) : System := with_engine (snd (m (sys_engine s))) s.

Definition remove_nth {A} (i : nat) (l : list A) : list A := take i l ++ drop (S i) l.

(** The event loop takes the next event off the bus. *)
Definition loop_reads (s : System) : System :=
  match en_events (sys_engine s) !! sys_read s with
  | None => s
  | Some ev =>
    let '(r, en) := on_event ev (sys_engine s) in
    {| sys_engine := en; sys_read := S (sys_read s);
       sys_spawned := sys_spawned s ++ match r with Ok (Some g) => [g] | _ => [] end;
       sys_cache := sys_cache s |}
  end.

Definition backup_runs (env : Readings) (i : nat) (s : System) : System :=
  match sys_spawned s !! i with
  | None => s
  | Some g =>
    {| sys_engine := snd (trigger_backup env g (sys_engine s)); sys_read := sys_read s;
       sys_spawned := remove_nth i (sys_spawned s); sys_cache := sys_cache s |}
  end.

Definition manifest_ticks (env : Readings) (sync : SyncEnv) (s : System) : System :=
  let '(r, en) := manifest_tick env sync (sys_cache s) (sys_engine s) in
  {| sys_engine := en; sys_read := sys_read s; sys_spawned := sys_spawned s;
     sys_cache := snd (sync_manifest sync (sys_cache s)) |}.

(** The broadcast channel drops events the loop is too slow for. *)
Definition loop_lags (n : nat) (s : System) : System :=
  {| sys_engine := sys_engine s;
     sys_read := Nat.min (sys_read s + n) (length (en_events (sys_engine s)));
     sys_spawned := sys_spawned s; sys_cache := sys_cache s |}.

Definition files_change (disk : Node) (s : System) : System :=
  engine_step (modify (λ en, with_restorer
    {| r_daemon := r_daemon (en_restorer en); r_scratch := r_scratch (en_restorer en); r_disk := disk |} en)) s.

Definition system_step (i : Input) (s : System) : System :=
  match i with
  | GuiAsks env req => engine_step (handle_request env req) s
  | Detected ev => engine_step (send_event ev) s
  | LoopReads => loop_reads s
  | LoopLags n => loop_lags n s
  | BackupRuns env i => backup_runs env i s
  | ServerPushes env msg => engine_step (ws_handle env msg) s
  | OutboxTick env => engine_step (flush_outbox env) s
  | ManifestTick env sync => manifest_ticks env sync s
  | FilesChange disk => files_change disk s
  end.

Definition system_run (inputs : list Input) (s : System) : System := foldl (λ s i, system_step i s) s inputs.
End Startup.
#[global] Arguments System : clear implicits.
