(* ===== verification/DaemonInstances.v ===== *)
(** * Concrete instances of the daemon's third-party interfaces *)

From stdpp Require Import countable.
From S2P Require Import Prelude CoreTypes Instances Snapshot Archive IpcFrame CoreInstances LocalState Client Backup Restore.

#[export] Instance CreateVersion_countable : Countable CreateVersion.
Proof.
  refine (inj_countable'
    (λ c, (cv_parent c, cv_kind c, cv_device_id c, cv_bytes c, cv_blob_hash c, cv_files c))
    (λ '(p, k, d, b, h, f), {| cv_parent := p; cv_kind := k; cv_files := f; cv_blob_hash := h;
       cv_bytes := b; cv_device_id := d |}) _).
  by intros [].
Defined.

#[export] Instance OutboxPayload_eq_dec : EqDecision OutboxPayload.
Proof. solve_decision. Defined.
#[export] Instance OutboxPayload_countable : Countable OutboxPayload.
Proof.
  refine (inj_countable' (λ p, (op_game_id p, blob_hex p, op_create_version p))
    (λ '(g, h, c), {| op_game_id := g; blob_hex := h; op_create_version := c |}) _).
  by intros [].
Defined.

#[export] Instance toy_TextForm {A} `{Countable A} : TextForm A := {| to_str := to_text; from_str := of_text |}.
#[export] Instance toy_TextFormLaws {A} `{Countable A} : TextFormLaws A.
Proof. constructor. intros x. apply of_to_text. Qed.

#[export] Instance toy_HashIter : HashIter := {| hash_iter K _ _ V m := map_to_list m |}.
#[export] Instance toy_HashIterLaws : HashIterLaws.
Proof. constructor. done. Qed.
