(* ===== verification/ChainSpec.v ===== *)
(** * savr-daemon: the chain of versions a restore applies

    [build_chain] on histories in which a parent is older than its child. *)

From S2P Require Import Prelude CoreTypes ServerError Blobs ServerDb DbWf VersionSpec Client Restore.

(** The versions of one game, each once, parents before children. *)
Record history_ok (vs : list Version) : Prop := {
  hi_ids : NoDup (map v_id vs);
  hi_older v w : v ∈ vs → w ∈ vs → v_parent v = Some (v_id w) → (v_seq w < v_seq v)%Z;
}.

(** [chain_to vs v l]: [l] leads from a full version to [v], each differential
    after its parent. *)
Inductive chain_to (vs : list Version) : Version → list Version → Prop :=
  | chain_full v : v ∈ vs → v_kind v = Full → chain_to vs v [v]
  | chain_diff v p l :
      v ∈ vs → v_kind v = Differential → p ∈ vs → v_parent v = Some (v_id p) →
      chain_to vs p l → chain_to vs v (l ++ [v]).

Section Chain.
Context (vs : list Version) (Hvs : history_ok vs).

Lemma by_id_lookup id :
  versions_by_id vs !! id = fetch_optional (λ v, bool_decide (v_id v = id)) vs.
Proof.
  unfold versions_by_id. rewrite (foldl_insert_lookup v_id (λ v, v)) by apply Hvs.
  by destruct (fetch_optional _ vs).
Qed.

Lemma by_id_elem v : v ∈ vs → versions_by_id vs !! v_id v = Some v.
Proof. intros Hv. rewrite by_id_lookup. apply fetch_key; [apply Hvs|done]. Qed.

Lemma by_id_None id : versions_by_id vs !! id = None → ∀ v, v ∈ vs → v_id v ≠ id.
Proof. intros Hn v Hv <-. by rewrite by_id_elem in Hn. Qed.

Lemma chain_to_in v l : chain_to vs v l → v ∈ vs.
Proof. by destruct 1. Qed.

Lemma chain_to_shape v l :
  chain_to vs v l → list.last l = Some v ∧ ∃ f, head l = Some f ∧ v_kind f = Full.
Proof.
  induction 1 as [v Hv Hk|v p l Hv Hk Hp Hpar _ (_ & f & Hf & Hfk)]; [eauto|].
  split; [by rewrite list.last_snoc|]. exists f. split; [|done]. by destruct l.
Qed.

(** A version has one chain. *)
Lemma chain_to_det v l : chain_to vs v l → ∀ l', chain_to vs v l' → l = l'.
Proof.
  induction 1 as [v Hv Hk|v p l Hv Hk Hp Hpar _ IH]; intros l' Hl'; destruct Hl' as [w Hw Hwk|w q l' Hw Hwk Hq Hqp Hl'];
    try congruence.
  rewrite Hpar in Hqp. injection Hqp as Hid.
  rewrite <- (NoDup_key_inj v_id vs p q (hi_ids vs Hvs) Hp Hq Hid) in Hl'. by rewrite (IH l' Hl').
Qed.

(** How many versions are older: what bounds the walk. *)
Definition older (v : Version) : nat := count_where (λ w, bool_decide (v_seq w < v_seq v)%Z) vs.

Lemma count_where_le (p q : Version → bool) (l : list Version) :
  (∀ x, p x = true → q x = true) → count_where p l ≤ count_where q l.
Proof.
  intros Hpq. induction l as [|x l IH]; [done|]. rewrite !count_where_cons.
  destruct (p x) eqn:E; [rewrite (Hpq x E)|destruct (q x)]; lia.
Qed.

Lemma count_where_lt (p q : Version → bool) (l : list Version) w :
  (∀ x, p x = true → q x = true) → w ∈ l → p w = false → q w = true → count_where p l < count_where q l.
Proof.
  intros Hpq Hw Hp Hq. induction l as [|x l IH]; [by apply elem_of_nil in Hw|].
  rewrite !count_where_cons. apply elem_of_cons in Hw as [<-|Hw].
  - rewrite Hp, Hq. pose proof (count_where_le p q l Hpq). lia.
  - specialize (IH Hw). destruct (p x) eqn:E; [rewrite (Hpq x E)|destruct (q x)]; lia.
Qed.

Lemma older_parent v w : v ∈ vs → w ∈ vs → v_parent v = Some (v_id w) → older w < older v.
Proof.
  intros Hv Hw Hp. pose proof (hi_older vs Hvs v w Hv Hw Hp) as Hlt. unfold older.
  apply (count_where_lt _ _ _ w); [|done|apply bool_decide_eq_false_2; lia|by apply bool_decide_eq_true_2].
  intros x Hx. apply bool_decide_eq_true in Hx. apply bool_decide_eq_true. lia.
Qed.

Lemma older_bound v : older v ≤ length vs.
Proof. unfold older, count_where. apply filter_length_le. Qed.

(** What the walk from a version finds. *)
Definition walk_found (v : Version) (chain : list Version) (r : result AnyError (list Version)) : Prop :=
  (∃ l, chain_to vs v l ∧ r = Ok (chain ++ rev l)) ∨
  ((∀ l, ¬ chain_to vs v l) ∧
   ((∃ m, r = Err (Bail m)) ∨ ∃ c, r = Ok (chain ++ c) ∧ option_map v_kind (list.last c) = Some Differential)).

Lemma walk_chain_found fuel : ∀ v chain, v ∈ vs → older v + 2 ≤ fuel →
  ∃ r, walk_chain fuel (versions_by_id vs) (Some (v_id v)) chain = Some r ∧ walk_found v chain r.
Proof.
  induction fuel as [|fuel IH]; intros v chain Hv Hf; [lia|]. cbn [walk_chain].
  rewrite by_id_elem by done. destruct (decide (v_kind v = Full)) as [Hk|Hk].
  { eexists. split; [done|]. left. exists [v]. split; [by constructor|done]. }
  assert (Hd : v_kind v = Differential) by by destruct (v_kind v).
  destruct (v_parent v) as [p|] eqn:Ep.
  2:{ destruct fuel as [|fuel]; [lia|]. cbn [walk_chain]. eexists. split; [done|]. right. split.
      - intros l Hl. destruct Hl; congruence.
      - right. exists [v]. split; [done|]. simpl. by rewrite Hd. }
  destruct (versions_by_id vs !! p) as [w|] eqn:Ew.
  - rewrite by_id_lookup in Ew. apply fetch_optional_Some in Ew as [Hw Hwp].
    apply bool_decide_eq_true in Hwp as <-.
    destruct (IH w (chain ++ [v]) Hw) as (r & -> & Hr); [pose proof (older_parent v w Hv Hw Ep); lia|].
    exists r. split; [done|]. destruct Hr as [(l & Hl & ->)|(Hno & Hr)].
    + left. exists (l ++ [v]). split; [by apply (chain_diff vs v w l)|]. by rewrite rev_app_distr, <- app_assoc.
    + right. split.
      * intros l Hl. destruct Hl as [|v' p' l' Hv' _ Hp' Hpar' Hl']; [congruence|].
        rewrite Ep in Hpar'. injection Hpar' as Hid.
        rewrite <- (NoDup_key_inj v_id vs w p' (hi_ids vs Hvs) Hw Hp' Hid) in Hl'. by apply (Hno l').
      * destruct Hr as [He|(c & -> & Hc)]; [by left|right]. exists (v :: c).
        rewrite <- app_assoc. split; [done|]. destruct c as [|x c]; [done|]. exact Hc.
  - destruct fuel as [|fuel]; [lia|]. cbn [walk_chain]. rewrite Ew. eexists. split; [done|]. right. split.
    + intros l Hl. destruct Hl as [|v' p' l' _ _ Hp' Hpar' _]; [congruence|].
      rewrite Ep in Hpar'. injection Hpar' as ->. by apply (by_id_None _ Ew p').
    + left. eauto.
Qed.

Lemma build_chain_found target fuel :
  chain_fuel vs ≤ fuel →
  ∃ r, build_chain fuel vs target = Some r ∧
    match r with
    | Ok l => ∃ v, v_id v = target ∧ chain_to vs v l
    | Err e => e ≠ Hang ∧ ∀ v l, v_id v = target → ¬ chain_to vs v l
    end.
Proof.
  intros Hf. unfold build_chain, chain_fuel in *.
  destruct (versions_by_id vs !! target) as [v|] eqn:Ev.
  - rewrite by_id_lookup in Ev. apply fetch_optional_Some in Ev as [Hv Hid].
    apply bool_decide_eq_true in Hid as <-.
    destruct (walk_chain_found fuel v [] Hv) as (r & -> & Hr); [pose proof (older_bound v); lia|].
    destruct Hr as [(l & Hl & ->)|(Hno & Hr)].
    + eexists. split; [done|]. unfold full_first. destruct (chain_to_shape v l Hl) as (_ & f & Hf' & Hk).
      simpl. rewrite rev_involutive. destruct l as [|x l]; [done|]. injection Hf' as ->. simpl.
      rewrite list.last_snoc. simpl. rewrite Hk, decide_True by done. eauto.
    + destruct Hr as [[m ->]|(c & -> & Hc)]; eexists; (split; [done|]).
      * split; [done|]. intros w l Hw Hl. pose proof (chain_to_in _ _ Hl) as Hwv.
        rewrite (NoDup_key_inj v_id vs w v (hi_ids vs Hvs) Hwv Hv Hw) in Hl. by apply (Hno l).
      * unfold full_first. simpl. rewrite Hc, decide_False by done.
        split; [done|]. intros w l Hw Hl. pose proof (chain_to_in _ _ Hl) as Hwv.
        rewrite (NoDup_key_inj v_id vs w v (hi_ids vs Hvs) Hwv Hv Hw) in Hl. by apply (Hno l).
  - destruct fuel as [|fuel]; [lia|]. cbn [walk_chain]. rewrite Ev. eexists. split; [done|].
    split; [done|]. intros v l Hv Hl. by apply (by_id_None _ Ev v (chain_to_in _ _ Hl)).
Qed.
End Chain.

(** ** Histories the server sends *)

Section Server.
Context `{B3 : Blake3} `{!Blake3Laws}.

Lemma row_to_version_fields r v :
  row_to_version r = Ok v → v_id v = vr_id r ∧ v_parent v = vr_parent r ∧ v_seq v = i64_as_u64 (vr_seq r).
Proof. unfold row_to_version. by destruct (from_hex _); intros [= <-]. Qed.

Lemma mapM_ok_Forall2 {A B} (f : A → result ApiError B) l l' :
  mapM f l = Ok l' → Forall2 (λ x y, f x = Ok y) l l'.
Proof.
  revert l'. induction l as [|x l IH]; intros l' Hm; simpl in Hm; [injection Hm as <-; constructor|].
  destruct (f x) as [y|] eqn:E; [|done]. simpl in Hm. destruct (mapM f l) as [ys|]; [|done].
  injection Hm as <-. constructor; [done|by apply IH].
Qed.

(** Each listed version is the one of a row of the game. *)
Lemma list_versions_rows account game d vs v :
  list_versions account game d = Ok vs → v ∈ vs →
  ∃ r, r ∈ versions d ∧ vr_game_id r = game ∧ row_to_version r = Ok v.
Proof.
  intros Hl%mapM_ok_Forall2 [i Hi]%list_elem_of_lookup.
  destruct (Forall2_lookup_r _ _ _ _ _ Hl Hi) as (r & Hr%list_elem_of_lookup_2 & Er).
  rewrite merge_sort_Permutation in Hr.
  apply elem_of_filter_bool in Hr as [Hr Hg]. apply of_game_true in Hg as [Hg _]. eauto.
Qed.

Lemma list_versions_history account game d vs :
  db_wf d → list_versions account game d = Ok vs → history_ok vs.
Proof.
  intros Hwf Hl. pose proof (λ v, list_versions_rows _ _ _ _ v Hl) as Hin. apply mapM_ok_Forall2 in Hl.
  set (rows := merge_sort _ _) in Hl.
  assert (Hperm : rows ≡ₚ List.filter (of_game game account) (versions d)) by apply merge_sort_Permutation.
  constructor.
  - assert (Hids : map v_id vs = map vr_id rows).
    { clear - Hl. induction Hl as [|r v rows vs Hrv _ IH]; [done|]. simpl. rewrite IH. f_equal.
      by apply row_to_version_fields. }
    rewrite Hids, Hperm. apply NoDup_key_filter. apply Hwf.
  - intros v w Hv Hw Hp. destruct (Hin v Hv) as (r & Hr & Hrg & Er), (Hin w Hw) as (q & Hq & Hqg & Eq).
    apply row_to_version_fields in Er as (_ & Hrp & ->), Eq as (Hqi & _ & ->).
    rewrite Hrp in Hp. destruct (wf_parent d Hwf r (v_id w) Hr Hp) as (x & Hx & Hxi & Hlt).
    assert (x = q) as -> by (apply (NoDup_key_inj vr_id (versions d)); [apply Hwf|done|done|congruence]).
    pose proof (wf_seq_pos d Hwf q Hq). pose proof (wf_seq_pos d Hwf r Hr).
    rewrite !i64_as_u64_nonneg by lia. apply Hlt. congruence.
Qed.
End Server.

(** ** The shape of a chain *)

Section Shape.
Context (vs : list Version).

(** A full version, then differentials only. *)
Lemma chain_to_kinds v l : chain_to vs v l →
  ∃ f ds, l = f :: ds ∧ v_kind f = Full ∧ Forall (λ w, v_kind w = Differential) ds.
Proof.
  induction 1 as [v Hv Hk|v p l Hv Hk Hp Hpar Hl (f & ds & -> & Hf & Hds)].
  - exists v, []. split_and!; [done|done|constructor].
  - exists f, (ds ++ [v]). split_and!; [done|done|]. apply list.Forall_app. split; [done|by constructor].
Qed.
End Shape.
