(* ===== verification/RestoreSpec.v ===== *)
(** * savr-daemon: what applying a chain of archives rebuilds

    An archive fits a version when it holds what the backup that made it packed:
    every file for a full version, the difference to its parent's files for a
    differential.  Applying the archives of a chain then rebuilds the content of
    its last version. *)

From S2P Require Import Prelude CoreTypes Snapshot SnapshotSpec Archive ArchiveSpec IpcFrame LocalState Client ClientSpec Backup Restore ChainSpec.

(** ** Files with plain paths *)

Definition path_of (f : FileEntry) : list string := normal_names (components (rel_path f)).

Definition plain (f : FileEntry) : Prop :=
  path_of f ≠ [] ∧ Forall normal_name (path_of f) ∧ rel_path f = join "/" (path_of f).

(** Distinct plain paths, none a directory of another: what a directory tree
    has. *)
Record plain_files (files : list FileEntry) : Prop := {
  pf_paths : NoDup (map rel_path files);
  pf_plain f : f ∈ files → plain f;
  pf_free : prefix_free (map path_of files);
}.

Definition snapshot_of (v : Version) : Snapshot :=
  {| sn_game_id := v_game_id v; sn_files := v_files v; taken_at := v_created_at v |}.

(** The files an archive of [v] carries and the deletions it lists, [prev]
    being the version before it in the chain. *)
Definition payload_of (prev : option Version) (v : Version) : option (list FileEntry * list string) :=
  match v_kind v with
  | Full => Some (v_files v, [])
  | Differential => p ← prev; Some (changed (diff (snapshot_of p) (snapshot_of v)),
                                     deleted (diff (snapshot_of p) (snapshot_of v)))
  end.

Lemma payload_sub prev v chg dels : payload_of prev v = Some (chg, dels) →
  ∃ q, chg = List.filter q (v_files v).
Proof.
  unfold payload_of. destruct (v_kind v).
  - intros [= <- _]. exists (λ _, true). symmetry. apply forallb_filter_id. by apply forallb_forall.
  - destruct prev as [p|]; [|done]. intros [= <- _]. by eexists.
Qed.

Lemma plain_sub (q : FileEntry → bool) files : plain_files files → plain_files (List.filter q files).
Proof.
  intros [Hnd Hp Hf]. constructor.
  - by apply NoDup_key_filter.
  - intros f [Hin _]%elem_of_filter_bool. by apply Hp.
  - intros a b Ha Hb. apply Hf;
      [apply list_elem_of_fmap in Ha as (f & -> & [Hin _]%elem_of_filter_bool)
      |apply list_elem_of_fmap in Hb as (f & -> & [Hin _]%elem_of_filter_bool)];
      by apply list_elem_of_fmap_2.
Qed.

Lemma plain_names files : plain_files files → NoDup (map path_of files).
Proof.
  intros [Hnd Hp _]. induction files as [|f files IH]; simpl; [constructor|].
  simpl in Hnd. apply list.NoDup_cons in Hnd as [Hni Hnd]. apply list.NoDup_cons. split.
  - intros (g & Heq & Hg)%list_elem_of_fmap. apply Hni.
    destruct (Hp f) as (_ & _ & ->); [apply list_elem_of_here|]. rewrite Heq.
    destruct (Hp g) as (_ & _ & <-); [by apply list_elem_of_further|]. by apply list_elem_of_fmap_2.
  - apply IH; [done|]. intros g Hg. apply Hp. by apply list_elem_of_further.
Qed.

(** The entry of a path is found by its names as well as by its text. *)
Lemma plain_path f p : plain f → p ≠ [] → Forall normal_name p → rel_path f = join "/" p ↔ path_of f = p.
Proof.
  intros (_ & _ & Hj) Hne Hp. split.
  - intros He. unfold path_of. rewrite He. by apply normal_names_join.
  - intros <-. exact Hj.
Qed.

Section Apply.
Context `{B3 : Blake3} `{T : Tar} `{!TarLaws} `{MJ : MetaJson} `{!MetaJsonLaws}.

(** What the backup wrote: the archive of those files, read with the hashes the
    snapshot recorded. *)
Definition packed (prev : option Version) (v : Version) (archive : bytes) : Prop :=
  ∃ read meta anchor reg chg dels,
    payload_of prev v = Some (chg, dels) ∧ am_deletions meta = dels ∧
    pack read meta (build_payload chg anchor) reg = Ok archive ∧
    ∀ f b, f ∈ chg → read (path_join anchor (rel_path f)) = Some b → hash_of b = hash f.

(** A staged directory that holds the files of [chg] and nothing else. *)
Definition stages (chg : list FileEntry) (t : Tree) : Prop :=
  (∀ f, f ∈ chg → ∃ b, t !! path_of f = Some b ∧ hash_of b = hash f) ∧
  (∀ k, is_Some (t !! k) → k ∈ map path_of chg).

(** Unpacking a fitting archive, possibly over leftovers of an earlier try. *)
Lemma unpack_packed (prev : option Version) (v : Version) (archive : bytes) (t : Tree) (chg : list FileEntry)
    (dels : list string) :
  packed prev v archive → payload_of prev v = Some (chg, dels) → plain_files (v_files v) →
  (∀ k, is_Some (t !! k) → k ∈ map path_of chg) →
  ∃ u t', unpack archive t = (Ok u, t') ∧ am_deletions (up_meta u) = dels ∧ stages chg t'.
Proof.
  intros (read & meta & anchor & reg & chg' & dels' & Hpay & Hdel & Hpack & Hread) Hpay' Hfiles Hleft.
  rewrite Hpay' in Hpay. injection Hpay as <- <-.
  destruct (payload_sub _ _ _ _ Hpay') as [q ->]. pose proof (plain_sub q _ Hfiles) as Hplain.
  set (chg := List.filter q (v_files v)) in *.
  set (pl := map (λ f, (path_of f, path_join anchor (rel_path f))) chg).
  assert (Hpl : build_payload chg anchor = map (λ p, (join "/" (fst p), snd p)) pl).
  { unfold pl, build_payload. rewrite map_map. apply map_ext_in. intros f Hf. simpl. f_equal.
    apply Hplain. by apply list_elem_of_In. }
  assert (Hfst : map fst pl = map path_of chg) by (unfold pl; by rewrite map_map).
  rewrite Hpl in Hpack.
  destruct (unpack_pack read meta pl reg archive t Hpack) as (t' & Hu & Hin & Hout); rewrite ?Hfst.
  - intros p (f & -> & Hf)%list_elem_of_fmap. destruct (pf_plain _ Hplain f Hf) as (? & ? & _). done.
  - by apply plain_names.
  - apply Hplain.
  - intros k p Hk Hp. split; apply (pf_free _ Hplain); auto.
  - eexists _, t'. split; [exact Hu|]. split; [done|]. rewrite Hfst in Hout. split.
    + intros f Hf. assert (Hpf : (path_of f, path_join anchor (rel_path f)) ∈ pl)
        by (apply list_elem_of_fmap; eauto).
      destruct (Hin _ _ Hpf) as [[b Hb] Hr]. exists b. split; [done|]. apply Hread; [done|congruence].
    + intros k Hk. destruct (decide (k ∈ map path_of chg)) as [|Hn]; [done|].
      rewrite (Hout k Hn) in Hk. by apply Hleft.
Qed.

(** ** Merging *)

Lemma walk_rel_keys chg t :
  plain_files chg → stages chg t → NoDup (map fst (walk_rel t)).
Proof.
  intros Hplain [_ Hk]. unfold walk_rel. rewrite map_map. simpl.
  rewrite <- (map_map fst (join "/")). apply NoDup_fmap_2_strong; [|apply NoDup_fst_map_to_list].
  intros x y Hx Hy He.
  assert (Hn : ∀ z, z ∈ map fst (map_to_list t) → z ≠ [] ∧ Forall normal_name z).
  { intros z ([z' b] & -> & Hz)%list_elem_of_fmap. apply elem_of_map_to_list in Hz. simpl.
    assert (Hz' : z' ∈ map path_of chg) by (apply Hk; eauto).
    apply list_elem_of_fmap in Hz' as (f & -> & Hf). destruct (pf_plain _ Hplain f Hf) as (? & ? & _). done. }
  destruct (Hn x Hx), (Hn y Hy).
  destruct (normal_names_join x) as [_ Ex]; [done..|]. destruct (normal_names_join y) as [_ Ey]; [done..|].
  congruence.
Qed.

Lemma merge_content chg dels t merged :
  plain_files chg → stages chg t →
  hash_of <$> merge t dels merged =
  foldl (λ m p, delete p m) (foldl (λ m f, <[rel_path f := hash f]> m) (hash_of <$> merged) chg) dels.
Proof.
  intros Hplain Hst. pose proof (walk_rel_keys chg t Hplain Hst) as Hkeys. destruct Hst as [Hin Hk].
  apply map_eq. intros k. unfold merge. rewrite lookup_fmap, !foldl_delete_lookup.
  destruct (decide (k ∈ dels)); [done|].
  rewrite (foldl_insert_lookup fst snd) by done.
  rewrite (foldl_insert_lookup rel_path hash) by apply Hplain.
  change (λ r : FileEntry, bool_decide (rel_path r = k)) with (has_path k).
  destruct (fetch_optional _ (walk_rel t)) as [[k' b]|] eqn:Ew.
  - apply fetch_optional_Some in Ew as [Hw Hke]. apply bool_decide_eq_true in Hke as Hkk. simpl in Hkk. subst k'.
    unfold walk_rel in Hw. apply list_elem_of_fmap in Hw as ([p b'] & [= -> ->] & Hp). simpl in *.
    apply elem_of_map_to_list in Hp.
    assert (Hpc : p ∈ map path_of chg) by (apply Hk; eauto).
    apply list_elem_of_fmap in Hpc as (f & -> & Hf).
    destruct (pf_plain _ Hplain f Hf) as (_ & _ & Hj). rewrite <- Hj, (fetch_path chg f); [|apply Hplain|done].
    destruct (Hin f Hf) as (b & Hb & Hh). rewrite Hp in Hb. injection Hb as ->. simpl. by rewrite Hh.
  - destruct (fetch_optional (has_path k) chg) as [f|] eqn:Ef; [|by rewrite lookup_fmap].
    exfalso. apply fetch_optional_Some in Ef as [Hf Hfk]. unfold has_path in Hfk. apply bool_decide_eq_true in Hfk as <-.
    destruct (Hin f Hf) as (b & Hb & _). destruct (pf_plain _ Hplain f Hf) as (_ & _ & Hj).
    assert (Hw : (rel_path f, b) ∈ walk_rel t).
    { unfold walk_rel. apply list_elem_of_fmap. exists (path_of f, b). simpl. rewrite <- Hj.
      split; [done|]. by apply elem_of_map_to_list. }
    apply fetch_optional_None with (r := (rel_path f, b)) in Ew; [|done].
    simpl in Ew. by rewrite bool_decide_eq_true_2 in Ew.
Qed.

Lemma content_foldl files : foldl (λ m f, <[rel_path f := hash f]> m) ∅ files = content files.
Proof.
  unfold content, by_path. rewrite <- (fmap_empty hash). generalize (∅ : gmap string FileEntry) as m.
  induction files as [|f files IH]; intros m; [done|]. simpl. by rewrite <- IH, fmap_insert.
Qed.

(** One step of the chain: from the content of the version before to its own. *)
Lemma merge_version prev v chg dels t merged :
  payload_of prev v = Some (chg, dels) → plain_files (v_files v) → stages chg t →
  match v_kind v with
  | Full => merged = ∅
  | Differential => ∀ p, prev = Some p → plain_files (v_files p) ∧ hash_of <$> merged = content (v_files p)
  end →
  hash_of <$> merge t dels merged = content (v_files v).
Proof.
  intros Hpay Hfiles Hst Hprev. destruct (payload_sub _ _ _ _ Hpay) as [q Hq].
  rewrite (merge_content chg) by (done || (subst chg; by apply plain_sub)).
  unfold payload_of in Hpay. destruct (v_kind v).
  - injection Hpay as <- <-. subst merged. simpl. rewrite fmap_empty. apply content_foldl.
  - destruct prev as [p|]; [|done]. injection Hpay as <- <-. destruct (Hprev p eq_refl) as [Hp ->].
    apply (patch_diff (snapshot_of p) (snapshot_of v)); [apply Hp|apply Hfiles].
Qed.
End Apply.

(** ** The whole chain *)

Section Chain.
Context {St : Type} `{SV : Server St} `{!ServerLaws St}.
Context `{B3 : Blake3} `{T : Tar} `{!TarLaws} `{MJ : MetaJson} `{!MetaJsonLaws} `{U : UuidText} `{!UuidTextLaws}.

(** In the state a version is applied in: the bytes received for it, once they
    have its hash, are its archive, and leftovers staged under its id are of
    that archive's files. *)
Definition version_ok (s : Restorer St) (prev : option Version) (v : Version) : Prop :=
  plain_files (v_files v) ∧
  (∀ b n', client_blob_get (v_blob_hash v) (d_net (r_daemon s)) = (Ok b, n') →
     hash_of b = v_blob_hash v → packed prev v b) ∧
  (∀ k chg dels, payload_of prev v = Some (chg, dels) →
     is_Some (staged_dir (uuid_to_string (v_id v)) s !! k) → k ∈ map path_of chg).

(** So along the chain, each version in the state the one before leaves. *)
Fixpoint chain_ok (s : Restorer St) (prev : option Version) (chain : list Version) : Prop :=
  match chain with
  | [] => True
  | v :: rest => version_ok s prev v ∧ chain_ok (snd (apply_version v ∅ s)) (Some v) rest
  end.

(** The state a version leaves does not depend on what was merged before. *)
Lemma apply_version_state v merged (s : Restorer St) :
  snd (apply_version v merged s) = snd (apply_version v ∅ s).
Proof.
  unfold apply_version, mbind, M_bind, daemon, net, save_archive, modify, verify_blob, unpack_staged.
  destruct (client_blob_get _ _) as [[b|e] n']; [|done]. simpl. case_decide; [|done].
  by destruct (unpack b _) as [[u|e] t].
Qed.

Definition integrity : AnyError := Bail "archive integrity check failed".

Lemma uuid_to_string_inj u1 u2 : uuid_to_string u1 = uuid_to_string u2 → u1 = u2.
Proof. intros E. apply (f_equal uuid_parse) in E. rewrite !uuid_parse_to_string in E. congruence. Qed.

(** One version: an error is the network's or the integrity check's. *)
Lemma apply_version_ok prev v merged (s : Restorer St) :
  version_ok s prev v → is_Some (payload_of prev v) →
  match v_kind v with
  | Full => merged = ∅
  | Differential => ∀ p, prev = Some p → plain_files (v_files p) ∧ hash_of <$> merged = content (v_files p)
  end →
  let '(r, s') := apply_version v merged s in
  r_disk s' = r_disk s ∧ d_local (r_daemon s') = d_local (r_daemon s) ∧
  match r with
  | Ok m => hash_of <$> m = content (v_files v)
  | Err e => net_error e ∨ e = integrity
  end.
Proof.
  intros (Hplain & Harch & Hleft) [[chg dels] Hpay] Hprev.
  unfold apply_version, mbind, M_bind, daemon, net.
  destruct (client_blob_get (v_blob_hash v) (d_net (r_daemon s))) as [[b|e] n'] eqn:Eg.
  2:{ split_and!; [done|done|]. left. eapply call_nets. exact Eg. }
  unfold save_archive, modify, verify_blob. simpl.
  destruct (decide (hash_of b = v_blob_hash v)) as [Hh|Hh]; [|by split_and!; [| |right]].
  unfold unpack_staged. simpl.
  change (staged_dir _ {| r_daemon := _; r_scratch := _; r_disk := _ |})
    with (staged_dir (uuid_to_string (v_id v)) s).
  destruct (unpack_packed prev v b (staged_dir (uuid_to_string (v_id v)) s) chg dels (Harch b n' eq_refl Hh) Hpay Hplain)
    as (u & t' & -> & Hdel & Hst); [intros k; by apply (Hleft k chg dels)|].
  unfold gets, staged_dir, mret, M_ret. simpl. rewrite lookup_insert_eq. simpl. split_and!; [done|done|].
  rewrite Hdel. by apply (merge_version prev v chg).
Qed.

Lemma apply_diffs_ok ds : ∀ p merged (s : Restorer St),
  Forall (λ w, v_kind w = Differential) ds → chain_ok s (Some p) ds →
  plain_files (v_files p) → hash_of <$> merged = content (v_files p) →
  let '(r, s') := apply_chain ds merged s in
  r_disk s' = r_disk s ∧ d_local (r_daemon s') = d_local (r_daemon s) ∧
  match r with
  | Ok m => hash_of <$> m = content (v_files (default p (list.last ds)))
  | Err e => net_error e ∨ e = integrity
  end.
Proof.
  induction ds as [|v ds IH]; intros p merged s Hd Hc Hp Hm; [by split_and!|].
  apply list.Forall_cons in Hd as [Hk Hd].
  destruct Hc as [Hv Hc]. cbn [apply_chain]. unfold mbind, M_bind at 1.
  pose proof (apply_version_ok (Some p) v merged s Hv) as Ha. rewrite Hk in Ha.
  rewrite <- (apply_version_state v merged) in Hc.
  destruct (apply_version v merged s) as [[m|e] s1].
  2:{ apply Ha; [unfold payload_of; rewrite Hk; by eexists|by intros ? [= <-]]. }
  destruct Ha as (Hdk & Hst & Hm'); [unfold payload_of; rewrite Hk; by eexists|by intros ? [= <-]|].
  specialize (IH v m s1 Hd Hc (proj1 Hv) Hm'). destruct (apply_chain ds m s1) as [r s'].
  destruct IH as (Hdk' & Hst' & Hr). split_and!; [congruence..|]. destruct r as [m'|e]; [|done].
  rewrite Hr. destruct ds as [|w ds]; [done|].
  simpl. by destruct (list.last (w :: ds)) eqn:El; [|by apply list.last_None in El].
Qed.

Lemma apply_chain_ok vs v l (s : Restorer St) :
  chain_to vs v l → chain_ok s None l →
  let '(r, s') := apply_chain l ∅ s in
  r_disk s' = r_disk s ∧ d_local (r_daemon s') = d_local (r_daemon s) ∧
  match r with
  | Ok m => hash_of <$> m = content (v_files v)
  | Err e => net_error e ∨ e = integrity
  end.
Proof.
  intros Hl Hc. pose proof (chain_to_shape vs v l Hl) as [Hlast _].
  destruct (chain_to_kinds vs v l Hl) as (f & ds & -> & Hf & Hds).
  destruct Hc as [Hv Hc]. cbn [apply_chain].
  unfold mbind, M_bind at 1. pose proof (apply_version_ok None f ∅ s Hv) as Ha. rewrite Hf in Ha.
  destruct (apply_version f ∅ s) as [[m|e] s1].
  2:{ apply Ha; [unfold payload_of; rewrite Hf; by eexists|done]. }
  destruct Ha as (Hdk & Hst & Hm); [unfold payload_of; rewrite Hf; by eexists|done|].
  pose proof (apply_diffs_ok ds f m s1 Hds Hc (proj1 Hv) Hm) as Hr.
  destruct (apply_chain ds m s1) as [r s']. destruct Hr as (Hdk' & Hst' & Hr).
  split_and!; [congruence..|]. destruct r as [m'|e]; [|done]. rewrite Hr.
  destruct ds as [|w ds]; [injection Hlast as ->; done|].
  change (list.last (f :: w :: ds)) with (list.last (w :: ds)) in Hlast. by rewrite Hlast.
Qed.
End Chain.
