(* ===== verification/TreeSpec.v ===== *)
(** * Saves on disk: tidy trees and the snapshots of them

    A tidy tree has in each directory distinct, plain names.  A snapshot of one,
    taken of patterns that match below a directory, lists plain paths, and
    joining a listed path to that directory names the file it was taken of. *)

From S2P Require Import Prelude CoreTypes Snapshot SnapshotSpec Archive ArchiveSpec Backup Restore RestoreSpec.

Inductive tidy : Node → Prop :=
  | tidy_file m b : tidy (FileN m b)
  | tidy_other : tidy OtherN
  | tidy_dir es : NoDup (map fst es) → Forall normal_name (map fst es) → Forall tidy (map snd es) → tidy (DirN es).

Lemma node_at_app p q n : node_at (p ++ q) n = node_at p n ≫= node_at q.
Proof.
  revert n. induction p as [|c p IH]; intros n; simpl; [done|]. destruct n as [m b|es|]; try done.
  destruct (fetch_optional _ es) as [e|]; [|done]. simpl. apply IH.
Qed.

(** In a tidy tree the walk finds what the path names. *)
Lemma file_under_node n : tidy n → ∀ p q m b,
  file_under p n q m b → ∃ rest, q = p ++ rest ∧ Forall normal_name rest ∧ node_at rest n = Some (FileN m b).
Proof.
  intros Ht p q m b Hu. induction Hu as [p m b|p es name child q m b Hin Hu IH].
  - exists []. by rewrite app_nil_r.
  - inversion Ht as [| |? Hnd Hnn Htt]; subst. destruct IH as (rest & -> & Hr & Hn).
    { rewrite list.Forall_forall in Htt. by apply Htt, (list_elem_of_fmap_2 snd _ (name, child)). }
    exists (name :: rest). rewrite <- app_assoc. split_and!; [done| |].
    + constructor; [|done]. rewrite list.Forall_forall in Hnn. by apply Hnn, (list_elem_of_fmap_2 fst _ (name, child)).
    + simpl. rewrite (fetch_key fst es (name, child)) by done. done.
Qed.

Lemma tidy_node_at p n n' : tidy n → node_at p n = Some n' → tidy n'.
Proof.
  revert n. induction p as [|c p IH]; intros n Ht Hn; simpl in Hn; [by injection Hn as <-|].
  destruct n as [m b|es|]; try done. inversion Ht as [| |? _ _ Htt]; subst.
  destruct (fetch_optional _ es) as [[x child]|] eqn:E; [|done]. simpl in Hn.
  apply (IH child); [|done]. apply fetch_optional_Some in E as [Hin _].
  rewrite list.Forall_forall in Htt. by apply Htt, (list_elem_of_fmap_2 snd _ (x, child)).
Qed.

Lemma path_join_plain anchor (p : list string) :
  p ≠ [] → Forall normal_name p → path_join anchor (join "/" p) = anchor ++ p.
Proof.
  intros Hne Hp. unfold path_join. rewrite components_join by done.
  destruct p as [|s p]; [done|]. simpl. f_equal. f_equal. rewrite map_map. simpl.
  apply map_id.
Qed.

(** A save location: a directory that all the patterns match below. *)
Record save_dir `{Glob} (root : Node) (anchor : Path) (patterns : list string) : Prop := {
  sd_dir : ∃ es, node_at anchor root = Some (DirN es) ∧ tidy (DirN es);
  sd_below pat paths p : pat ∈ patterns → glob_paths pat = Some paths → p ∈ paths →
    ∃ rest, p = anchor ++ rest ∧ Forall normal_name rest;
}.

Lemma strip_components_app anchor p : strip_components anchor (anchor ++ p) = Some p.
Proof. induction anchor as [|a anchor IH]; [done|]. simpl. by rewrite decide_True. Qed.

Lemma snapshot_rel_below anchor rest : snapshot_rel_path (anchor ++ rest) anchor = join "/" rest.
Proof. unfold snapshot_rel_path. by rewrite strip_components_app. Qed.

Lemma strict_prefix_app a b : strict_prefix a b = true → ∃ c r, b = a ++ c :: r.
Proof.
  unfold strict_prefix. intros H. bool_simpl. rewrite <- (take_drop (length a) b).
  match goal with He : take _ _ = _ |- _ => rewrite He end.
  destruct (drop (length a) b) as [|c r] eqn:E; [|eauto].
  apply (f_equal length) in E. rewrite length_drop in E. simpl in E. lia.
Qed.

Section Snapshots.
Context `{B3 : Blake3} `{G : Glob}.

(** A matched file of a save location, named from its directory. *)
Lemma matched_below root anchor patterns q m b :
  save_dir root anchor patterns → matched root patterns q m b →
  ∃ es rest, node_at anchor root = Some (DirN es) ∧ tidy (DirN es) ∧ q = anchor ++ rest ∧ rest ≠ [] ∧
    Forall normal_name rest ∧ node_at rest (DirN es) = Some (FileN m b).
Proof.
  intros [(es & Ha & Ht) Hbelow] (pat & paths & p & n & Hpat & Hg & Hp & Hn & Hu).
  destruct (Hbelow pat paths p Hpat Hg Hp) as (rest & -> & Hrest).
  rewrite node_at_app, Ha in Hn. simpl in Hn.
  destruct (file_under_node n (tidy_node_at _ _ _ Ht Hn) _ _ _ _ Hu) as (rest' & -> & Hr' & Hn').
  exists es, (rest ++ rest'). rewrite <- app_assoc, node_at_app, Hn. split_and!; [done..| | |done].
  - destruct (rest ++ rest') eqn:E; [|done]. apply app_eq_nil in E as [-> ->]. simpl in *. congruence.
  - by apply list.Forall_app.
Qed.

Lemma snapshot_files_named root now g patterns excludes anchor sn f :
  save_dir root anchor patterns → build root now g patterns excludes anchor = Ok sn → f ∈ sn_files sn →
  ∃ es rest m b, node_at anchor root = Some (DirN es) ∧ rest ≠ [] ∧ Forall normal_name rest ∧
    node_at rest (DirN es) = Some (FileN m b) ∧ rel_path f = join "/" rest ∧ path_of f = rest ∧ hash f = hash_of b.
Proof.
  intros Hs Hb Hf. destruct (build_files _ _ _ _ _ _ _ Hb) as (_ & _ & Hfrom & _).
  destruct (Hfrom f Hf) as (_ & q & m & b & Hq & ->).
  destruct (matched_below _ _ _ _ _ _ Hs Hq) as (es & rest & Ha & _ & -> & Hne & Hn & Hat).
  exists es, rest, m, b. unfold path_of. cbn [rel_path hash file_entry].
  rewrite snapshot_rel_below. split_and!; [done..| |done]. by apply normal_names_join.
Qed.

(** The archive reads the bytes the snapshot hashed. *)
Lemma snapshot_reads root now g patterns excludes anchor sn f :
  save_dir root anchor patterns → build root now g patterns excludes anchor = Ok sn → f ∈ sn_files sn →
  ∃ b, read_file root (path_join anchor (rel_path f)) = Some b ∧ hash_of b = hash f.
Proof.
  intros Hs Hb Hf.
  destruct (snapshot_files_named _ _ _ _ _ _ _ _ Hs Hb Hf) as (es & rest & m & b & Ha & Hne & Hn & Hat & -> & _ & ->).
  exists b. rewrite path_join_plain by done. unfold read_file. rewrite node_at_app, Ha. simpl. by rewrite Hat.
Qed.

Lemma snapshot_plain root now g patterns excludes anchor sn :
  save_dir root anchor patterns → build root now g patterns excludes anchor = Ok sn → plain_files (sn_files sn).
Proof.
  intros Hs Hb. destruct (build_files _ _ _ _ _ _ _ Hb) as (Hnd & _). constructor; [done| |].
  - intros f Hf.
    destruct (snapshot_files_named _ _ _ _ _ _ _ _ Hs Hb Hf) as (_ & rest & _ & _ & _ & Hne & Hn & _ & Hr & Hp & _).
    unfold plain. by rewrite Hp.
  - intros a b (f & -> & Hf)%list_elem_of_fmap (f' & -> & Hf')%list_elem_of_fmap.
    destruct (snapshot_files_named _ _ _ _ _ _ _ _ Hs Hb Hf) as (es & r & m & c & Ha & _ & _ & Hat & _ & -> & _).
    destruct (snapshot_files_named _ _ _ _ _ _ _ _ Hs Hb Hf') as (es' & r' & m' & c' & Ha' & _ & _ & Hat' & _ & -> & _).
    apply not_true_iff_false. intros (x & y & ->)%strict_prefix_app.
    assert (es' = es) as -> by congruence. rewrite node_at_app, Hat in Hat'. done.
Qed.
End Snapshots.
