(* ===== verification/PathsSpec.v ===== *)
(** * Anchors contain the saves

    The anchor of a resolved game is the deepest directory all its patterns
    share, and what the patterns match lies below it. *)

From S2P Require Import Prelude CoreTypes Snapshot SnapshotSpec Archive ArchiveSpec Manifest LocalState Backup TreeSpec ExeIndex Steam Paths.

(** ** Common prefixes *)

Lemma shared_l a b : shared a b `prefix_of` a.
Proof.
  revert b. induction a as [|x a IH]; intros [|y b]; simpl; try apply prefix_nil.
  case_decide; [subst; by apply prefix_cons|apply prefix_nil].
Qed.

Lemma shared_r a b : shared a b `prefix_of` b.
Proof.
  revert b. induction a as [|x a IH]; intros [|y b]; simpl; try apply prefix_nil.
  case_decide; [subst; by apply prefix_cons|apply prefix_nil].
Qed.

Lemma shared_greatest l a b : l `prefix_of` a → l `prefix_of` b → l `prefix_of` shared a b.
Proof.
  revert a b. induction l as [|x l IH]; intros a b [ka ->] [kb ->]; [apply prefix_nil|].
  simpl. rewrite decide_True by done. apply prefix_cons, IH; by eexists.
Qed.

Lemma common_ancestor_spec paths cs :
  common_ancestor paths = Some cs →
  (∀ p, p ∈ paths → cs `prefix_of` p) ∧ (∀ l, (∀ p, p ∈ paths → l `prefix_of` p) → l `prefix_of` cs).
Proof.
  destruct paths as [|first rest]; [done|]. intros [= <-].
  enough (Hgen : ∀ acc, foldl shared acc rest `prefix_of` acc ∧ (∀ p, p ∈ rest → foldl shared acc rest `prefix_of` p) ∧
    (∀ l, l `prefix_of` acc → (∀ p, p ∈ rest → l `prefix_of` p) → l `prefix_of` foldl shared acc rest)).
  { destruct (Hgen first) as (H1 & H2 & H3). split.
    - intros p [->|Hp]%elem_of_cons; [done|by apply H2].
    - intros l Hl. apply H3; [apply Hl, list_elem_of_here|]. intros p Hp. by apply Hl, list_elem_of_further. }
  clear first. induction rest as [|y rest IH]; intros acc; cbn [foldl].
  { split_and!; [done| |by intros]. intros p Hp. by apply elem_of_nil in Hp. }
  destruct (IH (shared acc y)) as (H1 & H2 & H3). split_and!.
  - etrans; [exact H1|apply shared_l].
  - intros p [->|Hp]%elem_of_cons; [|by apply H2]. etrans; [exact H1|apply shared_r].
  - intros l Hl Hp. apply H3; [|intros p Hin; by apply Hp, list_elem_of_further].
    apply shared_greatest; [done|]. apply Hp, list_elem_of_here.
Qed.

Lemma removelast_prefix {A} (l : list A) : removelast l `prefix_of` l.
Proof.
  destruct l as [|x l]; [done|]. exists [List.last (x :: l) x]. by apply app_removelast_last.
Qed.

Lemma fixed_prefix_prefix cs : fst (fixed_prefix cs) `prefix_of` cs.
Proof.
  induction cs as [|c cs IH]; simpl; [done|]. destruct (is_glob _); [apply prefix_nil|].
  destruct (fixed_prefix cs) as [acc hit]. by apply prefix_cons.
Qed.

Lemma parent_prefix cs : default cs (parent cs) `prefix_of` cs.
Proof. unfold parent. destruct (list.last cs) as [[| | |]|]; simpl; (done || apply removelast_prefix). Qed.

Lemma anchor_candidate_prefix pattern :
  anchor_candidate pattern `prefix_of` fst (fixed_prefix (components pattern)).
Proof.
  unfold anchor_candidate. destruct (fixed_prefix _) as [acc []]; simpl; [done|apply parent_prefix].
Qed.

(** ** Absolute patterns *)

Definition absolute (s : string) : Prop := ∃ r, s = String slash r.
Definition plain_pattern (s : string) : Prop := absolute s ∧ ParentDir ∉ components s.

(** The components below the root. *)
Definition body (s : string) : list Component := concat (map component (split_on slash s)).

Lemma components_absolute r : components (String slash r) = RootDir :: body r.
Proof.
  unfold components. cbn [split_on]. rewrite decide_True by done. cbv zeta. rewrite decide_True; [done|].
  split; [done|apply split_on_nonempty].
Qed.

Lemma body_names s c : c ∈ body s → c ≠ ParentDir → ∃ n, c = Normal n ∧ normal_name n.
Proof.
  intros Hc Hp. unfold body in Hc. apply elem_of_concat_map in Hc as (x & Hx & Hc).
  pose proof (split_on_no_char slash s) as Hs. rewrite list.Forall_forall in Hs.
  assert (Hn : ∃ n, c = Normal n).
  { unfold component in Hc. repeat case_decide; [by apply elem_of_nil in Hc| |];
      apply list_elem_of_singleton in Hc; [done|by eexists]. }
  destruct Hn as [n ->]. exists n. split; [done|]. by apply (component_names x); [apply Hs|].
Qed.

Lemma anchor_candidate_root pattern :
  absolute pattern → ∃ cs, anchor_candidate pattern = RootDir :: cs.
Proof.
  intros [r ->]. unfold anchor_candidate. rewrite components_absolute. cbn [fixed_prefix].
  change (is_glob (component_name RootDir)) with false. cbv iota.
  destruct (fixed_prefix (body r)) as [acc []]; [by eexists|].
  unfold parent. destruct acc as [|c acc]; [by exists []|].
  assert (Hl : ∃ x, list.last (RootDir :: c :: acc) = Some x ∧ (x = RootDir → default (RootDir :: c :: acc) None = RootDir :: c :: acc)).
  { destruct (list.last (RootDir :: c :: acc)) eqn:E; [by eexists|]. by apply last_None in E. }
  destruct Hl as (x & -> & _). destruct x; simpl; by eexists.
Qed.

(** What a match of a pattern is known to be: its path spells out the
    components of the pattern before the first glob one, and goes on with names
    of directory entries. *)
Class GlobLaws `{Glob} : Prop := {
  glob_below pat paths p :
    plain_pattern pat → glob_paths pat = Some paths → p ∈ paths →
    ∃ rest, p = map component_name (fst (fixed_prefix (components pat))) ++ rest ∧ Forall normal_name rest;
}.

Lemma below_prefix cs pat full rest :
  plain_pattern pat → RootDir :: cs `prefix_of` fst (fixed_prefix (components pat)) →
  full = map component_name (fst (fixed_prefix (components pat))) ++ rest → Forall normal_name rest →
  ∃ rest', full = map component_name (RootDir :: cs) ++ rest' ∧ Forall normal_name rest'.
Proof.
  intros [[r ->] Hnp] [k Hk] -> Hr. exists (map component_name k ++ rest). rewrite Hk, map_app, <- app_assoc.
  split; [done|]. apply list.Forall_app. split; [|done].
  assert (Hsub : ∀ c, c ∈ k → c ∈ body r).
  { intros c Hc. pose proof (fixed_prefix_prefix (components (String slash r))) as [x Hx].
    rewrite Hk, components_absolute in Hx. injection Hx as Hx. rewrite Hx. rewrite !elem_of_app. by left; right. }
  apply list.Forall_forall. intros n (c & -> & Hc)%list_elem_of_fmap.
  destruct (body_names r c (Hsub c Hc)) as (m & -> & Hm); [|exact Hm].
  intros ->. apply Hnp. rewrite components_absolute. by apply list_elem_of_further, Hsub.
Qed.

Lemma compute_anchor_root patterns roots :
  patterns ≠ [] → Forall absolute patterns →
  ∃ cs, compute_anchor patterns roots = map component_name (RootDir :: cs) ∧
    ∀ p, p ∈ patterns → RootDir :: cs `prefix_of` anchor_candidate p.
Proof.
  intros Hne Habs. unfold compute_anchor. destruct patterns as [|p0 ps]; [done|].
  destruct (common_ancestor (map anchor_candidate (p0 :: ps))) as [cs|] eqn:E; [|done].
  destruct (common_ancestor_spec _ _ E) as [Hpre Hgr]. rewrite list.Forall_forall in Habs.
  assert (Hroot : [RootDir] `prefix_of` cs).
  { apply Hgr. intros q (p & -> & Hp)%list_elem_of_fmap.
    destruct (anchor_candidate_root p) as [x ->]; [by apply Habs|]. by exists x. }
  destruct Hroot as [x ->]. exists x. split; [done|]. intros p Hp. by apply Hpre, list_elem_of_fmap_2.
Qed.

Lemma anchored_save_dir `{GlobLaws} root patterns cs es :
  Forall plain_pattern patterns →
  (∀ p, p ∈ patterns → RootDir :: cs `prefix_of` fst (fixed_prefix (components p))) →
  node_at (map component_name (RootDir :: cs)) root = Some (DirN es) → tidy (DirN es) →
  save_dir root (map component_name (RootDir :: cs)) patterns.
Proof.
  intros Hplain Hpre Hd Ht. split; [by exists es|]. intros pat paths p Hpat Hg Hp.
  rewrite list.Forall_forall in Hplain. destruct (glob_below pat paths p (Hplain pat Hpat) Hg Hp) as (rest & Hfull & Hr).
  by apply (below_prefix cs pat p rest); [apply Hplain|apply Hpre| |].
Qed.

(** ** Resolving a game's templates *)

Lemma elem_of_push_unique v s x : x ∈ push_unique v s ↔ x ∈ v ∨ x = s.
Proof.
  unfold push_unique. case_bool_decide; [naive_solver|]. by rewrite elem_of_app, list_elem_of_singleton.
Qed.

Lemma push_unique_NoDup v s : NoDup v → NoDup (push_unique v s).
Proof.
  unfold push_unique. case_bool_decide as Hs; intros Hv; [done|].
  apply list.NoDup_app. split_and!; [done| |apply NoDup_singleton]. by intros x Hx ->%list_elem_of_singleton.
Qed.

Lemma push_resolved_all rs v :
  NoDup v → NoDup (foldl push_resolved v rs) ∧
  ∀ x, x ∈ foldl push_resolved v rs ↔ x ∈ v ∨ Some x ∈ rs.
Proof.
  revert v. induction rs as [|r rs IH]; intros v Hv; cbn [foldl].
  { split; [done|]. intros x. rewrite elem_of_nil. naive_solver. }
  destruct (IH (push_resolved v r)) as [Hnd Hin]; [destruct r; [by apply push_unique_NoDup|done]|].
  split; [done|]. intros x. rewrite Hin, elem_of_cons. destruct r as [p|]; simpl.
  - rewrite elem_of_push_unique. naive_solver.
  - naive_solver.
Qed.

Section Templates.
Context `{PF : Platform}.

Lemma push_templates disk ctx base proton tpls v :
  NoDup v →
  let out := foldl (λ patterns tpl, foldl push_resolved patterns (template_patterns disk ctx base proton tpl)) v tpls in
  NoDup out ∧ ∀ x, x ∈ out ↔ x ∈ v ∨ ∃ tpl, tpl ∈ tpls ∧ Some x ∈ template_patterns disk ctx base proton tpl.
Proof.
  cbv zeta. revert v. induction tpls as [|t tpls IH]; intros v Hv; cbn [foldl].
  { split; [done|]. intros x. split; [by left|]. intros [?|(? & ?%elem_of_nil & _)]; done. }
  destruct (push_resolved_all (template_patterns disk ctx base proton t) v Hv) as [Hnd Hin].
  destruct (IH _ Hnd) as [Hnd' Hin']. split; [done|]. intros x. rewrite Hin', Hin.
  setoid_rewrite elem_of_cons. naive_solver.
Qed.

Lemma elem_of_template_patterns disk ctx base proton tpl x :
  Some x ∈ template_patterns disk ctx base proton tpl ↔
    (∃ c, c ∈ expand_steam_placeholders disk tpl (steam_libs ctx) ∧ resolve_template c (ctx_roots ctx) base = Some x) ∨
    (∃ pr, pr ∈ proton ∧ resolve_template tpl pr base = Some x).
Proof.
  unfold template_patterns. rewrite elem_of_app, !list_elem_of_fmap. naive_solver.
Qed.
End Templates.

(** ** Hand-registered games *)

Lemma split_on_slash a b : split_on slash (a +:+ String slash b) = split_on slash a ++ split_on slash b.
Proof.
  induction a as [|x a IH].
  - rewrite append_nil_l. cbn [split_on]. by rewrite decide_True.
  - rewrite append_cons. cbn [split_on]. case_decide; [by rewrite IH|]. rewrite IH.
    destruct (split_on slash a) as [|h t] eqn:E; [by apply split_on_nonempty in E|done].
Qed.

Lemma body_app a b : body (a +:+ String slash b) = body a ++ body b.
Proof. unfold body. by rewrite split_on_slash, map_app, concat_app. Qed.

Lemma is_glob_split s x : is_glob s = false → x ∈ split_on slash s → is_glob x = false.
Proof.
  unfold is_glob. revert x. induction s as [|c s IH]; intros x Hs Hx; simpl in *.
  { apply list_elem_of_singleton in Hx as ->. done. }
  apply orb_false_iff in Hs as [Hc Hs]. case_decide.
  { apply elem_of_cons in Hx as [->|Hx]; [done|by apply IH]. }
  destruct (split_on slash s) as [|h t] eqn:E; [by apply split_on_nonempty in E|].
  apply elem_of_cons in Hx as [->|Hx]; [|apply IH; [done|by apply list_elem_of_further]].
  simpl. rewrite Hc. apply IH; [done|apply list_elem_of_here].
Qed.

Lemma fixed_prefix_app cs ds :
  Forall (λ c, is_glob (component_name c) = false) cs →
  fst (fixed_prefix (cs ++ ds)) = cs ++ fst (fixed_prefix ds).
Proof.
  induction 1 as [|c cs Hc _ IH]; [done|]. simpl. rewrite Hc.
  destruct (fixed_prefix (cs ++ ds)) as [acc hit]. simpl in *. by rewrite IH.
Qed.

Lemma body_not_glob s : is_glob s = false → Forall (λ c, is_glob (component_name c) = false) (body s).
Proof.
  intros Hs. apply list.Forall_forall. intros c Hc. unfold body in Hc.
  apply elem_of_concat_map in Hc as (x & Hx & Hc). pose proof (is_glob_split s x Hs Hx) as Hg.
  unfold component in Hc. repeat case_decide; [by apply elem_of_nil in Hc| |];
    apply list_elem_of_singleton in Hc as ->; done.
Qed.

(** The patterns of a custom game start with its save root. *)
Lemma custom_prefix r g :
  is_glob r = false →
  RootDir :: body r `prefix_of` fst (fixed_prefix (components (String slash r +:+ "/" +:+ g))).
Proof.
  intros Hr. rewrite append_cons, components_absolute.
  change ("/" +:+ g) with (String slash g). rewrite body_app.
  change (RootDir :: body r ++ body g) with ((RootDir :: body r) ++ body g).
  rewrite fixed_prefix_app; [by eexists|]. constructor; [done|]. by apply body_not_glob.
Qed.

Lemma custom_plain r g :
  ParentDir ∉ body r → ParentDir ∉ body g → plain_pattern (String slash r +:+ "/" +:+ g).
Proof.
  intros Hr Hg. split; [rewrite append_cons; by eexists|].
  rewrite append_cons, components_absolute. change ("/" +:+ g) with (String slash g).
  rewrite body_app. intros [?|[?|?]%elem_of_app]%elem_of_cons; done.
Qed.
