(* ===== verification/BackupSpec.v ===== *)
(** * savr-daemon: what a backup run does

    The outcomes of [run_backup] with the database they leave, the invariant of
    the diff base, and the archives' fit to the versions they are sent as. *)

From S2P Require Import Prelude CoreTypes Snapshot SnapshotSpec Archive ArchiveSpec IpcFrame LocalState Client ClientSpec Backup Programs Restore RestoreSpec TreeSpec.

Section Backup.
Context {St : Type} `{SV : Server St} `{!ServerLaws St}.
Context `{B3 : Blake3} `{U : UuidText} `{!UuidTextLaws} `{G : Glob} `{T : Tar} `{MJ : MetaJson}
        `{JO : Json OutboxPayload} `{TD : TextForm DateTime}.
Implicit Types (d : Daemon St) (st : LocalState).

(** ** Frames *)

Lemma get_set_meta k k' v st : get_meta k (set_meta k' v st) = if decide (k' = k) then Some v else get_meta k st.
Proof. unfold get_meta, set_meta. simpl. apply lookup_insert. Qed.

Lemma get_put_snapshot g g' files t h st :
  get_snapshot g (put_snapshot g' files t h st) =
  if decide (g' = g) then Some {| ss_files := files; ss_taken_at := t; local_head := h |} else get_snapshot g st.
Proof. unfold get_snapshot, put_snapshot. simpl. apply lookup_insert. Qed.

Lemma unconfirmed_key_inj g g' : unconfirmed_key g = unconfirmed_key g' → g = g'.
Proof.
  unfold unconfirmed_key. intros E. apply uuid_to_string_inj.
  pose proof (f_equal (strip_prefix "unconfirmed:") E) as E'. rewrite !strip_prefix_app in E'. congruence.
Qed.

Lemma upload_version_local g create archive d :
  d_local (snd (upload_version (St := St) g create archive d)) = d_local d.
Proof.
  unfold upload_version, mbind, M_bind, net, gets.
  destruct (client_blob_exists _ _) as [[ex|e] n1]; [|done]. cbn -[client_blob_put_file client_create_version].
  destruct ex; cbn -[client_blob_put_file client_create_version].
  - by destruct (client_create_version _ _ _).
  - destruct (client_blob_put_file _ _ _) as [[u|e] n2]; [|done]. cbn -[client_create_version].
    by destruct (client_create_version _ _ _).
Qed.

Lemma upload_version_made g create archive d o d' :
  upload_version (St := St) g create archive d = (Ok o, d') →
  made_from g create (match o with Created v => v | ConflictOutcome _ v => v end).
Proof.
  intros (ex & d1 & _ & Hk)%M_bind_ok. apply M_bind_ok in Hk as (file & d2 & _ & Hk).
  apply M_bind_ok in Hk as (u & d3 & _ & Hk). unfold net in Hk.
  destruct (client_create_version g create (d_net d3)) as [r n'] eqn:Ec. injection Hk as -> _.
  by apply client_create_version_made in Ec.
Qed.

(** ** Delivery *)

(** The database after each outcome. *)
Definition confirmed (g : GameId) (files : list FileEntry) (t : DateTime) (v : Version) : LocalState → LocalState :=
  λ st, set_meta (unconfirmed_key g) "0" (put_snapshot g files t (Some (v_id v)) st).

Definition delivered (env : BackupEnv) (g : GameId) (create : CreateVersion) (h : Blake3Hash) (new : Snapshot)
    (prior : N) (o : BackupOutcome) st st' : Prop :=
  match o with
  | NoChange => False
  | Uploaded v => made_from g create v ∧
      st' = set_last_backup_at (b_done_at env) (bump_diff_counter (diff_count_key g) (cv_kind create) prior
              (confirmed g (sn_files new) (taken_at new) v st))
  | Conflicted hd v => made_from g create v ∧ st' = confirmed g (sn_files new) (taken_at new) v st
  | Queued => st' = run_steps (queue_steps env g create h (sn_files new) (taken_at new) (cv_parent create)) st
  end.

Lemma deliver_ok env client g create h new prior d r d' :
  deliver (St := St) env client g create h new prior d = (r, d') →
  ∃ o, r = Ok o ∧ delivered env g create h new prior o (d_local d) (d_local d').
Proof.
  unfold deliver, mbind at 1, M_bind at 1, authed_client, gets.
  destruct (client && _)%bool.
  2:{ intros [= <- <-]. by eexists. }
  unfold mbind at 1, M_bind at 1, attempt.
  pose proof (upload_version_local g create (cache_name (to_hex h)) d) as Hl.
  destruct (upload_version g create (cache_name (to_hex h)) d) as [[o|e] d1] eqn:Eu; simpl in Hl.
  - apply upload_version_made in Eu. destruct o as [v|hd v]; intros [= <- <-]; eexists; (split; [done|]);
      simpl; unfold confirmed; by rewrite Hl.
  - intros [= <- <-]. eexists. split; [done|]. simpl. by rewrite Hl.
Qed.

(** ** The run *)

Definition prior_diffs (g : GameId) st : N := default 0%N (get_meta (diff_count_key g) st ≫= u32_parse).
Definition is_unconfirmed (g : GameId) st : bool := bool_decide (get_meta (unconfirmed_key g) st = Some "1").
Definition base_head (g : GameId) st : option VersionId := s ← get_snapshot g st; local_head s.

(** The archive a run packs, if it gets there. *)
Definition archive_of (env : BackupEnv) (dev : DeviceId) (full_every : N) (job : BackupJob) st : option bytes :=
  match build (b_root env) (b_taken_at env) (job_game_id job) (patterns job) (job_excludes job) (anchor job) with
  | Err _ => None
  | Ok new =>
    '(chg, dels) ← changes job (get_snapshot (job_game_id job) st) new;
    let parent := base_head (job_game_id job) st in
    let kind := choose_kind parent (prior_diffs (job_game_id job) st) full_every (is_unconfirmed (job_game_id job) st) in
    let meta := {| am_game_id := job_game_id job; am_device_id := dev; am_parent := parent; am_kind := kind;
                   am_files := sn_files new; am_deletions := match kind with Full => [] | Differential => dels end;
                   am_created_at := b_packed_at env |} in
    match pack (read_file (b_pack_root env)) meta
      (build_payload (match kind with Full => sn_files new | Differential => chg end) (anchor job))
      (capture_registry (registry_keys job)) with
    | Ok b => Some b
    | Err _ => None
    end
  end.

(** What a run that packs sends: its request, and the archive behind it. *)
Record packs (env : BackupEnv) (dev : DeviceId) (full_every : N) (job : BackupJob) st
    (create : CreateVersion) (new : Snapshot) (archive : bytes) : Prop := {
  pk_built : build (b_root env) (b_taken_at env) (job_game_id job) (patterns job) (job_excludes job) (anchor job) = Ok new;
  pk_files : cv_files create = sn_files new;
  pk_parent : cv_parent create = base_head (job_game_id job) st;
  pk_kind : cv_kind create = choose_kind (cv_parent create) (prior_diffs (job_game_id job) st) full_every
              (is_unconfirmed (job_game_id job) st);
  pk_hash : cv_blob_hash create = hash_of archive;
  pk_pack : ∃ chg dels meta, changes job (get_snapshot (job_game_id job) st) new = Some (chg, dels) ∧
    am_deletions meta = (match cv_kind create with Full => [] | Differential => dels end) ∧
    pack (read_file (b_pack_root env)) meta
      (build_payload (match cv_kind create with Full => sn_files new | Differential => chg end) (anchor job))
      (capture_registry (registry_keys job)) = Ok archive;
  pk_archive : archive_of env dev full_every job st = Some archive;
}.

(** Where a run packs before it knows the hash. *)
Definition tmp_name (env : BackupEnv) : string := "packing-" +:+ uuid_to_string (b_tmp_id env) +:+ ".savr".

(** A run does nothing, or packs an archive and delivers what it packed. *)
Lemma run_backup_delivers env client dev full_every job d r d' :
  run_backup (St := St) env client dev full_every job d = (r, d') →
  (d_local d' = d_local d ∧ d_net d' = d_net d ∧ (d' = d ∨ is_ok r = false) ∧ (∀ o, r = Ok o → o = NoChange) ∧
   ∀ k, k ≠ tmp_name env → d_cache d' !! k = d_cache d !! k) ∨
  ∃ create new archive d1, packs env dev full_every job (d_local d) create new archive ∧
    d_local d1 = d_local d ∧ d_net d1 = d_net d ∧
    d_cache d1 = <[cache_name (to_hex (hash_of archive)) := archive]> (delete (tmp_name env) (d_cache d)) ∧
    deliver env client (job_game_id job) create (hash_of archive) new (prior_diffs (job_game_id job) (d_local d)) d1 =
      (r, d').
Proof.
  unfold run_backup. destruct (_ && _)%bool; [intros [= <- <-]; left; split_and!; try done; first [by left|by intros ? [= <-]]|].
  destruct (build _ _ _ _ _ _) as [new|e] eqn:Eb; [|intros [= <- <-]; left; split_and!; try done; by left].
  unfold mbind at 1, M_bind at 1, gets. fold (base_head (job_game_id job) (d_local d)).
  fold (prior_diffs (job_game_id job) (d_local d)) (is_unconfirmed (job_game_id job) (d_local d)).
  destruct (changes job _ new) as [[chg dels]|] eqn:Ec; [|intros [= <- <-]; left; split_and!; try done; first [by left|by intros ? [= <-]]].
  cbv zeta. set (kind := choose_kind _ _ _ _). unfold pack_to_file.
  set (meta := {| am_game_id := _ |}). set (payload := build_payload _ _).
  destruct (pack _ meta payload _) as [archive|e] eqn:Ep.
  2:{ unfold mbind, M_bind, cache, modify, fail. intros [= <- <-]. left. split_and!; [done|done|by right|done|].
      intros k Hk. by apply lookup_insert_ne. }
  unfold mbind at 1, M_bind at 1. unfold mbind at 1, M_bind at 1. unfold cache at 1, modify at 1.
  unfold mret at 1, M_ret at 1. unfold mbind at 1, M_bind at 1, cache, modify.
  set (create := {| cv_parent := _ |}). intros Hd. right. exists create, new, archive. eexists. split.
  - constructor; try done; [exists chg, dels, meta; by split_and!|].
    unfold archive_of. rewrite Eb, Ec. cbn [mbind option_bind].
    transitivity (match pack (read_file (b_pack_root env)) meta payload (capture_registry (registry_keys job)) with
                  | Ok b => Some b | Err _ => None end); [done|by rewrite Ep].
  - split; [|split; [|split; [|exact Hd]]]; [done|done|]. simpl. unfold cache_rename. rewrite lookup_insert_eq.
    by rewrite delete_insert_eq.
Qed.

Lemma run_backup_ok env client dev full_every job d r d' :
  run_backup (St := St) env client dev full_every job d = (r, d') →
  match r with
  | Err _ => d_local d' = d_local d
  | Ok NoChange => d' = d
  | Ok o => ∃ create new archive, packs env dev full_every job (d_local d) create new archive ∧
      delivered env (job_game_id job) create (hash_of archive) new (prior_diffs (job_game_id job) (d_local d))
        o (d_local d) (d_local d')
  end.
Proof.
  intros [(Hl & _ & Hd & Ho & _)|(create & new & archive & d1 & Hpk & Hl & _ & _ & Hd)]%run_backup_delivers.
  - destruct r as [o|e]; [|done]. rewrite (Ho o eq_refl). by destruct Hd.
  - apply deliver_ok in Hd as (o & -> & Hdel). rewrite Hl in Hdel. destruct o; [done| | |]; eauto.
Qed.

(** ** The diff base *)

(** While a game is not marked unconfirmed, its stored files are those of the
    version its local head names; [known] is what the server has told of versions. *)
Definition base_ok (known : gmap VersionId Version) (g : GameId) st : Prop :=
  ∀ s p, get_snapshot g st = Some s → is_unconfirmed g st = false → local_head s = Some p →
  ∃ v, known !! p = Some v ∧ v_files v = ss_files s.

Lemma base_ok_same known g st st' :
  get_snapshot g st' = get_snapshot g st → get_meta (unconfirmed_key g) st' = get_meta (unconfirmed_key g) st →
  base_ok known g st → base_ok known g st'.
Proof. unfold base_ok, is_unconfirmed. by intros -> ->. Qed.

Lemma base_ok_learn known g st v :
  known !! v_id v = None → base_ok known g st → base_ok (<[v_id v := v]> known) g st.
Proof.
  intros Hn Hb s p Hs Hu Hh. destruct (Hb s p Hs Hu Hh) as (w & Hw & Hf). exists w. split; [|done].
  rewrite lookup_insert_ne; [done|congruence].
Qed.

(** A key of another kind. *)
Lemma get_unconfirmed_other g k v st :
  strip_prefix "unconfirmed:" k = None → get_meta (unconfirmed_key g) (set_meta k v st) = get_meta (unconfirmed_key g) st.
Proof.
  intros Hk. rewrite get_set_meta. rewrite decide_False; [done|]. intros ->.
  unfold unconfirmed_key in Hk. by rewrite strip_prefix_app in Hk.
Qed.

Lemma confirmed_other g g' files t v st :
  g' ≠ g → get_snapshot g' (confirmed g files t v st) = get_snapshot g' st ∧
  get_meta (unconfirmed_key g') (confirmed g files t v st) = get_meta (unconfirmed_key g') st.
Proof.
  intros Hne. unfold confirmed. split.
  - change (get_snapshot g' (put_snapshot g files t (Some (v_id v)) st) = get_snapshot g' st).
    rewrite get_put_snapshot, decide_False; congruence.
  - rewrite get_set_meta, decide_False; [done|]. intros E%unconfirmed_key_inj. congruence.
Qed.

Lemma confirmed_base known g files t v st :
  v_files v = files → base_ok (<[v_id v := v]> known) g (confirmed g files t v st).
Proof.
  intros Hf s p Hs _ Hh. unfold confirmed in Hs.
  change (get_snapshot g (put_snapshot g files t (Some (v_id v)) st) = Some s) in Hs.
  rewrite get_put_snapshot, decide_True in Hs by done. injection Hs as <-. simpl in *. injection Hh as <-.
  exists v. split; [apply lookup_insert_eq|done].
Qed.

(** What a run taught of the server's versions. *)
Definition told (o : BackupOutcome) (known : gmap VersionId Version) : gmap VersionId Version :=
  match o with Uploaded v | Conflicted _ v => <[v_id v := v]> known | _ => known end.
Definition new_version (o : BackupOutcome) (known : gmap VersionId Version) : Prop :=
  match o with Uploaded v | Conflicted _ v => known !! v_id v = None | _ => True end.

Lemma delivered_base env g create h new prior o st st' known g' :
  delivered env g create h new prior o st st' → cv_files create = sn_files new → new_version o known →
  base_ok known g' st → base_ok (told o known) g' st'.
Proof.
  intros Hd Hfiles Hnew Hb. destruct o as [|v| |hd v]; [done| | |].
  - destruct Hd as [(_ & _ & _ & Hvf & _) ->].
    eapply (base_ok_same _ _ (confirmed g (sn_files new) (taken_at new) v st)); [done| |].
    { unfold set_last_backup_at, bump_diff_counter. by rewrite !get_unconfirmed_other. }
    destruct (decide (g' = g)) as [->|Hne]; [apply confirmed_base; congruence|].
    destruct (confirmed_other g g' (sn_files new) (taken_at new) v st Hne).
    eapply base_ok_same; [done|done|]. by apply base_ok_learn.
  - simpl in Hd. subst st'. intros s p Hs Hu Hh.
    destruct (decide (g' = g)) as [->|Hne].
    + unfold is_unconfirmed, run_steps, queue_steps in Hu. simpl in Hu.
      rewrite get_set_meta, decide_True in Hu by done. by rewrite bool_decide_eq_true_2 in Hu.
    + apply (Hb s p); [| |done].
      * rewrite <- Hs. symmetry. unfold run_steps, queue_steps. simpl.
        change (get_snapshot g' (put_snapshot g (sn_files new) (taken_at new) (cv_parent create)
                  (enqueue env g create h st)) = get_snapshot g' st).
        rewrite get_put_snapshot, decide_False by congruence. done.
      * rewrite <- Hu. unfold is_unconfirmed, run_steps, queue_steps. simpl.
        rewrite get_set_meta, decide_False; [done|]. intros E%unconfirmed_key_inj. congruence.
  - destruct Hd as [(_ & _ & _ & Hvf & _) ->].
    destruct (decide (g' = g)) as [->|Hne]; [apply confirmed_base; congruence|].
    destruct (confirmed_other g g' (sn_files new) (taken_at new) v st Hne).
    eapply base_ok_same; [done|done|]. by apply base_ok_learn.
Qed.

(** ** The archives *)

(** Differentials are only taken on a confirmed base. *)
Lemma choose_kind_diff parent prior full_every u :
  choose_kind parent prior full_every u = Differential → is_Some parent ∧ (prior < full_every)%N ∧ u = false.
Proof.
  unfold choose_kind. destruct (_ || _)%bool eqn:E; [done|]. intros _. bool_simpl.
  split_and!; [|by apply N.leb_gt|done].
  destruct parent; [by eexists|]. done.
Qed.

Lemma packs_fit env dev full_every job st create new archive v known :
  packs env dev full_every job st create new archive → made_from (job_game_id job) create v →
  b_pack_root env = b_root env → save_dir (b_root env) (anchor job) (patterns job) →
  base_ok known (job_game_id job) st →
  plain_files (v_files v) ∧ v_blob_hash v = hash_of archive ∧
  packed (v_parent v ≫= λ p, known !! p) v archive.
Proof.
  intros [Hbuilt Hfiles Hparent Hkind Hhash (chg & dels & meta & Hch & Hdel & Hpack) _]
    (_ & Hvp & Hvk & Hvf & Hvh & _) Hroot Hsd Hbase.
  rewrite Hvf, Hfiles, Hvh. split; [by eapply snapshot_plain|]. split; [done|].
  rewrite Hroot in Hpack. unfold packed, payload_of. rewrite Hvk, Hvf, Hvp, Hfiles.
  destruct (cv_kind create) eqn:Ek.
  - eexists _, meta, _, _, _, _. split; [done|]. split; [done|]. split; [exact Hpack|].
    intros f b Hf Hr. destruct (snapshot_reads _ _ _ _ _ _ _ f Hsd Hbuilt Hf) as (b' & Hb' & <-). congruence.
  - symmetry in Hkind. apply choose_kind_diff in Hkind as ([p Hp] & _ & Hu). rewrite Hp.
    rewrite Hparent in Hp. unfold base_head in Hp.
    destruct (get_snapshot (job_game_id job) st) as [s|] eqn:Es; [|done]. simpl in Hp.
    destruct (Hbase s p Es Hu Hp) as (pv & HH & Hpf).
    change (Some p ≫= λ p, known !! p) with (known !! p). rewrite HH.
    unfold changes in Hch. destruct (_ && _)%bool; [done|]. injection Hch as <- <-.
    assert (Hdiff : diff (snapshot_of pv) (snapshot_of v) =
      diff {| sn_game_id := job_game_id job; sn_files := ss_files s; taken_at := ss_taken_at s |} new).
    { unfold diff, snapshot_of. simpl. by rewrite Hpf, Hvf, Hfiles. }
    eexists _, meta, _, _, _, _. split; [reflexivity|]. rewrite Hdiff. split; [done|]. split; [exact Hpack|].
    intros f b [Hf _]%elem_of_filter_bool Hr.
    destruct (snapshot_reads _ _ _ _ _ _ _ f Hsd Hbuilt Hf) as (b' & Hb' & <-). congruence.
Qed.
End Backup.
