(* ===== verification/DiskSpec.v ===== *)
(** * savr-daemon: the disk under a restore

    What reading a path gives after a file is written, removed or swapped in. *)

From S2P Require Import Prelude CoreTypes Snapshot Archive ArchiveSpec LocalState Client Backup Restore RestoreSpec TreeSpec.

Lemma get_set_entry c x n es : get_entry c (set_entry x n es) = if decide (c = x) then Some n else get_entry c es.
Proof.
  unfold get_entry. induction es as [|[y m] es IH]; simpl.
  - case_bool_decide; case_decide; by simplify_eq.
  - destruct (decide (y = x)) as [->|Hne]; simpl.
    + case_bool_decide; case_decide; by simplify_eq.
    + case_bool_decide as Hy; [|exact IH]. by rewrite decide_False by congruence.
Qed.

Lemma get_entry_filter c x es :
  get_entry c (List.filter (λ e, negb (bool_decide (fst e = x))) es) = if decide (c = x) then None else get_entry c es.
Proof.
  unfold get_entry. induction es as [|[y m] es IH]; simpl; [by case_decide|].
  case_bool_decide as Hyx; simpl.
  - rewrite IH. case_decide; [done|]. case_bool_decide; congruence.
  - case_bool_decide as Hyc; [|done]. by rewrite decide_False by congruence.
Qed.

Lemma read_cons c q es : read_file (DirN es) (c :: q) = get_entry c es ≫= λ n, read_file n q.
Proof.
  unfold read_file, get_entry. simpl. destruct (fetch_optional _ es) as [e|]; done.
Qed.

Lemma read_nil_dir es : read_file (DirN es) [] = None.
Proof. done. Qed.

Lemma read_not_dir n c q : (∀ es, n ≠ DirN es) → read_file n (c :: q) = None.
Proof. destruct n as [| es|]; [done| |done]. intros H. by destruct (H es). Qed.

(** A file written where the path allowed it. *)
Lemma read_put path mtime b : ∀ n n' q, put_file path mtime b n = Some n' →
  read_file n' q = if decide (q = path) then Some b else read_file n q.
Proof.
  induction path as [|c path IH]; intros n n' q Hp; [done|].
  destruct n as [m0 b0|es|]; try done. cbn [put_file] in Hp. destruct path as [|c' path].
  - assert (Hn : n' = DirN (set_entry c (FileN mtime b) es) ∧ ∀ ds, get_entry c es ≠ Some (DirN ds)).
    { destruct (get_entry c es) as [[]|]; by simplify_eq. }
    destruct Hn as [-> Hnd]. destruct q as [|x q]; [by rewrite decide_False|].
    rewrite !read_cons, get_set_entry. destruct (decide (x = c)) as [->|Hx]; [|by rewrite decide_False by congruence].
    simpl. destruct q as [|y q]; [by rewrite decide_True|]. rewrite decide_False by done.
    rewrite read_not_dir by done. destruct (get_entry c es) as [n|]; [|done]. simpl. symmetry.
    apply read_not_dir. intros ds ->. by destruct (Hnd ds).
  - destruct (put_file (c' :: path) mtime b _) as [child|] eqn:E; [|done]. injection Hp as <-.
    destruct q as [|x q]; [by rewrite decide_False|].
    rewrite !read_cons, get_set_entry. destruct (decide (x = c)) as [->|Hx]; [|by rewrite decide_False by congruence].
    simpl. rewrite (IH _ _ q E). destruct (decide (q = c' :: path)) as [->|Hq]; [by rewrite decide_True|].
    rewrite decide_False by congruence. destruct (get_entry c es) as [n|]; [done|]. simpl. by destruct q.
Qed.

Lemma read_remove path : ∀ n q, path ≠ [] →
  read_file (remove_file path n) q = if decide (q = path) then None else read_file n q.
Proof.
  induction path as [|c path IH]; intros n q Hne; [done|].
  destruct n as [m0 b0|es|]; cbn [remove_file].
  - case_decide as E; [by rewrite E|done].
  - destruct path as [|c' path].
    + destruct q as [|x q]; [destruct (get_entry c es) as [[]|]; by rewrite decide_False|].
      destruct (get_entry c es) as [n|] eqn:Ec.
      2:{ case_decide as E; [|done]. injection E as -> ->. by rewrite read_cons, Ec. }
      destruct n as [m b|ds|]; rewrite !read_cons, ?get_entry_filter.
      * destruct (decide (x = c)) as [->|Hx]; [|by rewrite decide_False by congruence].
        rewrite Ec. simpl. by destruct q; case_decide.
      * case_decide as E; [|done]. injection E as -> ->. by rewrite Ec.
      * destruct (decide (x = c)) as [->|Hx]; [|by rewrite decide_False by congruence].
        rewrite Ec. simpl. by destruct q; case_decide.
    + destruct (get_entry c es) as [child|] eqn:Ec.
      2:{ case_decide as E; [|done]. subst q. by rewrite read_cons, Ec. }
      destruct q as [|x q]; [by rewrite decide_False|].
      rewrite !read_cons, get_set_entry. destruct (decide (x = c)) as [->|Hx]; [|by rewrite decide_False by congruence].
      rewrite Ec. cbn [mbind option_bind]. rewrite IH by done.
      destruct (decide (q = c' :: path)) as [->|Hq]; [by rewrite decide_True|]. by rewrite decide_False by congruence.
  - case_decide as E; [by rewrite E|done].
Qed.

(** ** Temporary names *)

Definition is_tmp (p : Path) : Prop := ∃ d x, p = d ++ [x +:+ "." +:+ TMP_EXT].

Lemma with_extension_tmp (p : list string) anchor :
  p ≠ [] → Forall normal_name p → is_tmp (with_extension TMP_EXT (anchor ++ p)).
Proof.
  intros Hne Hp. destruct (exists_last Hne) as (d & x & ->). apply list.Forall_app in Hp as [_ Hx].
  apply list.Forall_singleton in Hx as (_ & _ & Hdd & Hs). exists (anchor ++ d), (file_stem x).
  rewrite app_assoc. generalize (anchor ++ d). intros e. induction e as [|c e IH]; simpl.
  - rewrite decide_False; [done|]. intros [?| ->]; [done|]. by vm_compute in Hs.
  - rewrite IH. by destruct e.
Qed.

Lemma read_replace dest now b disk disk' q :
  with_extension TMP_EXT dest ≠ [] → replace_file dest now b disk = Some disk' →
  read_file disk' q =
    if decide (q = dest) then Some b
    else if decide (q = with_extension TMP_EXT dest) then None else read_file disk q.
Proof.
  unfold replace_file. intros Hne Hr. set (tmp := with_extension TMP_EXT dest) in *.
  destruct (put_file tmp now b disk) as [d1|] eqn:E1; [|done]. simpl in Hr.
  rewrite (read_put _ _ _ _ _ q Hr). case_decide; [done|]. rewrite read_remove by done.
  destruct (decide (q = tmp)); [done|]. rewrite (read_put _ _ _ _ _ q E1). by rewrite decide_False.
Qed.

(** ** Swapping in and cleaning up *)

Section Finish.
Context {St : Type} `{SV : Server St} `{HI : HashIter} `{!HashIterLaws}.
Context `{B3 : Blake3}.

(** A name a save file has: plain, and not a temporary's. *)
Definition save_name (p : list string) : Prop := p ≠ [] ∧ Forall normal_name p ∧ ∀ d x, p ≠ d ++ [x +:+ "." +:+ TMP_EXT].

Definition save_names (keys : list string) : Prop := ∀ k, k ∈ keys → ∃ p, k = join "/" p ∧ save_name p.

Lemma join_inj (p q : list string) : p ≠ [] → q ≠ [] → Forall normal_name p → Forall normal_name q →
  join "/" p = join "/" q → p = q.
Proof.
  intros Hp Hq Hnp Hnq E. destruct (normal_names_join p Hp Hnp) as [_ <-].
  destruct (normal_names_join q Hq Hnq) as [_ <-]. by rewrite E.
Qed.

Lemma save_not_tmp anchor p : save_name p → ¬ is_tmp (anchor ++ p).
Proof.
  intros (Hne & _ & Hnt) (d & x & E). destruct (exists_last Hne) as (d' & y & ->).
  rewrite app_assoc in E. apply app_inj_tail in E as [_ ->]. by apply (Hnt d' x).
Qed.

Lemma swap_in_reads anchor now files : ∀ (s s' : Restorer St) p,
  swap_in anchor now files s = (Ok tt, s') → save_names (map fst files) → NoDup (map fst files) → save_name p →
  r_daemon s' = r_daemon s ∧
  read_file (r_disk s') (anchor ++ p) =
    match fetch_optional (λ e, bool_decide (fst e = join "/" p)) files with
    | Some e => Some (snd e)
    | None => read_file (r_disk s) (anchor ++ p)
    end.
Proof.
  induction files as [|[rel b] files IH]; intros s s' p Hs Hn Hnd Hp; simpl in Hs; [by injection Hs as <-|].
  apply M_bind_ok in Hs as (u & s1 & Hd & Hs). unfold on_disk in Hd.
  destruct (replace_file _ now b (r_disk s)) as [n|] eqn:Er; [|done]. injection Hd as _ <-.
  simpl in Hnd. apply list.NoDup_cons in Hnd as [Hni Hnd].
  destruct (IH _ s' p Hs) as [Hdm Hr]; [intros k Hk; apply Hn; by apply list_elem_of_further|done|done|].
  simpl in Hdm, Hr. split; [done|].
  destruct (Hn rel) as (q & -> & (Hqne & Hqn & Hqt)); [apply list_elem_of_here|].
  rewrite path_join_plain in Er by done. destruct Hp as (Hpne & Hpn & Hpt). cbn [fetch_optional List.find fst snd].
  destruct (decide (q = p)) as [->|Hqp].
  - rewrite bool_decide_eq_true_2 by done. rewrite Hr.
    assert (Hnone : fetch_optional (λ e, bool_decide (fst e = join "/" p)) files = None).
    { apply fetch_optional_None. intros e He. apply bool_decide_eq_false_2. intros E. apply Hni.
      cbn [fst]. rewrite <- E. by apply list_elem_of_fmap_2. }
    rewrite Hnone. simpl. rewrite (read_replace _ _ _ _ _ _ ltac:(
      destruct (with_extension_tmp p anchor Hpne Hpn) as (? & ? & ->); by destruct x) Er).
    by rewrite decide_True.
  - rewrite bool_decide_eq_false_2 by (intros E; apply Hqp; by apply join_inj). rewrite Hr.
    change (List.find ?f files) with (fetch_optional f files). destruct (fetch_optional _ files); [done|]. simpl.
    rewrite (read_replace _ _ _ _ _ _ ltac:(
      destruct (with_extension_tmp q anchor Hqne Hqn) as (? & ? & ->); by destruct x) Er).
    rewrite decide_False by (intros E; apply app_inv_head in E; congruence).
    rewrite decide_False; [done|]. intros E. apply (save_not_tmp anchor p (conj Hpne (conj Hpn Hpt))).
    rewrite E. by apply with_extension_tmp.
Qed.

Lemma delete_stale_reads anchor (merged : gmap string bytes) files p : ∀ disk,
  save_name p → (∀ f, f ∈ files → plain f) →
  read_file (delete_stale anchor merged files disk) (anchor ++ p) =
    if decide (merged !! join "/" p = None ∧ join "/" p ∈ map rel_path files) then None
    else read_file disk (anchor ++ p).
Proof.
  induction files as [|f files IH]; intros disk Hp Hf.
  - rewrite decide_False; [done|]. intros [_ Hx]. by apply elem_of_nil in Hx.
  - unfold delete_stale in *. cbn [foldl map]. rewrite IH; [|done|].
    2:{ intros g Hg. apply Hf. by apply list_elem_of_further. }
    destruct (Hf f) as (Hne & Hn & Hj); [apply list_elem_of_here|]. destruct Hp as (Hpne & Hpn & Hpt).
    destruct (decide (merged !! join "/" p = None ∧ join "/" p ∈ map rel_path files)) as [[H1 H2]|Hno].
    { rewrite decide_True; [done|]. split; [done|]. by apply list_elem_of_further. }
    destruct (decide (rel_path f = join "/" p)) as [E|E].
    + rewrite E. destruct (decide (merged !! join "/" p = None)) as [Hm|Hm].
      * rewrite decide_True by (split; [done|apply list_elem_of_here]).
        rewrite path_join_plain by done. rewrite read_remove by (by destruct anchor, p). by rewrite decide_True.
      * rewrite decide_False by tauto. done.
    + rewrite (decide_ext (merged !! join "/" p = None ∧ join "/" p ∈ rel_path f :: map rel_path files)
                 (merged !! join "/" p = None ∧ join "/" p ∈ map rel_path files)).
      2:{ rewrite elem_of_cons. split; [intros [? [?|?]]; [congruence|done]|tauto]. }
      rewrite (decide_False (P := merged !! join "/" p = None ∧ join "/" p ∈ map rel_path files)) by exact Hno.
      case_decide; [|done]. rewrite Hj, path_join_plain by done.
      rewrite read_remove by (by destruct anchor, (path_of f)).
      rewrite decide_False; [done|]. intros E'. apply app_inv_head in E'. congruence.
Qed.

Lemma finish_restore_ok now req chain target (merged : gmap string bytes) (s s' : Restorer St) :
  finish_restore now req chain merged s = (Ok tt, s') →
  list.last chain = Some target → save_names (map fst (map_to_list merged)) →
  (∀ prev f, get_snapshot (rq_game_id req) (d_local (r_daemon s)) = Some prev → f ∈ ss_files prev → plain f) →
  d_local (r_daemon s') = put_snapshot (rq_game_id req) (v_files target) (v_created_at target) (Some (v_id target))
                            (d_local (r_daemon s)) ∧
  ∀ p, save_name p →
    read_file (r_disk s') (rq_anchor req ++ p) =
      match merged !! join "/" p with
      | Some b => Some b
      | None => match get_snapshot (rq_game_id req) (d_local (r_daemon s)) with
                | Some prev => if decide (join "/" p ∈ map rel_path (ss_files prev)) then None
                               else read_file (r_disk s) (rq_anchor req ++ p)
                | None => read_file (r_disk s) (rq_anchor req ++ p)
                end
      end.
Proof.
  intros Hf Hlast Hnames Hplain. unfold finish_restore in Hf.
  apply M_bind_ok in Hf as ([] & s1 & Hsw & Hf). apply M_bind_ok in Hf as (st & s2 & Hg & Hf).
  injection Hg as <- <-. apply M_bind_ok in Hf as (u & s3 & Hd & Hf). unfold on_disk in Hd. injection Hd as _ <-.
  rewrite Hlast in Hf. apply M_bind_ok in Hf as (t & s4 & Ht & Hf). injection Ht as <- <-.
  injection Hf as <-. simpl.
  assert (Hkeys : map fst (hash_iter merged) ≡ₚ map fst (map_to_list merged)) by (by rewrite (hash_iter_perm merged)).
  assert (Hsw' : ∀ p, save_name p → r_daemon s1 = r_daemon s ∧
    read_file (r_disk s1) (rq_anchor req ++ p) =
      match merged !! join "/" p with Some b => Some b | None => read_file (r_disk s) (rq_anchor req ++ p) end).
  { intros p Hp. destruct (swap_in_reads _ _ _ _ _ p Hsw) as [Hdm Hr]; [| |done|].
    - intros k Hk. apply Hnames. by rewrite <- Hkeys.
    - rewrite Hkeys. apply NoDup_fst_map_to_list.
    - split; [done|]. rewrite Hr. destruct (fetch_optional _ (hash_iter merged)) as [[k b]|] eqn:Ef.
      + apply fetch_optional_Some in Ef as [Hin Hk]. apply bool_decide_eq_true in Hk. simpl in *. subst k.
        rewrite hash_iter_perm in Hin. apply elem_of_map_to_list in Hin. by rewrite Hin.
      + destruct (merged !! join "/" p) as [b|] eqn:Em; [|done]. exfalso.
        apply elem_of_map_to_list in Em. rewrite <- (hash_iter_perm merged) in Em.
        rewrite fetch_optional_None in Ef. specialize (Ef _ Em). simpl in Ef. by rewrite bool_decide_eq_true_2 in Ef. }
  assert (Hdm : r_daemon s1 = r_daemon s).
  { apply (Hsw' ["a"]). split_and!; [done|repeat constructor; done|]. intros [|y [|z d]] x; try done.
    intros [= E]. destruct x as [|c [|c' x]]; by vm_compute in E. }
  rewrite Hdm. split; [done|]. intros p Hp. destruct (Hsw' p Hp) as [_ Hr].
  destruct (get_snapshot _ _) as [prev|] eqn:Eg.
  - rewrite delete_stale_reads; [|done|intros f; by apply (Hplain prev)].
    rewrite Hr. destruct (merged !! join "/" p) as [b|]; [by rewrite decide_False by naive_solver|].
    destruct (decide (join "/" p ∈ map rel_path (ss_files prev))); [by rewrite decide_True|].
    by rewrite decide_False by naive_solver.
  - rewrite Hr. by destruct (merged !! _).
Qed.
End Finish.
