(* ===== verification/RestoreRun.v ===== *)
(** * savr-daemon: a whole restore

    [run_restore] from its guards to the disk it leaves. *)

From S2P Require Import Prelude CoreTypes Snapshot SnapshotSpec Archive ArchiveSpec IpcFrame LocalState Client ClientSpec Backup Restore ChainSpec RestoreSpec TreeSpec BackupSpec DiskSpec.

Section Run.
Context {St : Type} `{SV : Server St} `{!ServerLaws St} `{HI : HashIter} `{!HashIterLaws}.
Context `{B3 : Blake3} `{U : UuidText} `{!UuidTextLaws} `{G : Glob} `{T : Tar} `{!TarLaws} `{MJ : MetaJson} `{!MetaJsonLaws}
        `{JO : Json OutboxPayload} `{TD : TextForm DateTime}.

(** The daemon after the pre-restore backup. *)
Definition after_backup (env : BackupEnv) (dev : DeviceId) (req : RestoreRequest) (s : Restorer St) : Daemon St :=
  snd (run_backup (on_this_disk env (r_disk s)) true dev (Z.to_N u32_max) (pre_backup req) (r_daemon s)).

(** The restorer once the server listed the game's versions. *)
Definition after_listing (env : BackupEnv) (dev : DeviceId) (req : RestoreRequest) (s : Restorer St) (n : Net St)
    : Restorer St :=
  let d := after_backup env dev req s in
  {| r_daemon := {| d_local := d_local d; d_cache := d_cache d; d_net := n |};
     r_scratch := r_scratch s; r_disk := r_disk s |}.

(** The history the run is given: parents older, the archives of the chain to
    the target received whole, and its files named like saves. *)
Definition given_history (env : BackupEnv) (dev : DeviceId) (req : RestoreRequest) (s : Restorer St) : Prop :=
  ∀ vs n, client_list_versions (rq_game_id req) (d_net (after_backup env dev req s)) = (Ok vs, n) →
  history_ok vs ∧
  ∀ v l, v_id v = rq_version_id req → chain_to vs v l →
    save_names (map rel_path (v_files v)) ∧ chain_ok (after_listing env dev req s n) None l.

Lemma content_keys files (m : gmap string bytes) k :
  hash_of <$> m = content files → k ∈ map fst (map_to_list m) → k ∈ map rel_path files.
Proof.
  intros Hc ([k' b] & -> & Hk)%list_elem_of_fmap. apply elem_of_map_to_list in Hk. simpl.
  pose proof (f_equal (lookup k') Hc) as Hl. cbv beta in Hl. rewrite lookup_fmap, Hk in Hl.
  unfold content in Hl. rewrite lookup_fmap in Hl. simpl in Hl.
  assert (Hin : ∀ (l : list FileEntry) (acc : gmap string FileEntry),
    is_Some (foldl (λ m f, <[rel_path f := f]> m) acc l !! k') → is_Some (acc !! k') ∨ k' ∈ map rel_path l).
  { induction l as [|f l IH]; intros acc Hs; [by left|]. simpl in Hs.
    destruct (IH _ Hs) as [Hi|Hi]; [|right; by apply list_elem_of_further].
    rewrite lookup_insert in Hi. case_decide as E; [right|by left]. rewrite <- E. apply list_elem_of_here. }
  destruct (Hin files ∅) as [Hi|Hi]; [| |done].
  - unfold by_path in Hl. destruct (foldl _ _ files !! k'); [by eexists|done].
  - rewrite lookup_empty in Hi. by destruct Hi.
Qed.

Lemma swap_in_errors anchor now files : ∀ (s s' : Restorer St) e, swap_in anchor now files s = (Err e, s') → e = FileError.
Proof.
  induction files as [|[rel b] files IH]; intros s s' e; simpl; [done|].
  unfold mbind, M_bind, on_disk. destruct (replace_file _ _ _ _); [apply IH|by intros [= <- _]].
Qed.

Lemma finish_restore_errors now req chain v merged (s s' : Restorer St) e :
  list.last chain = Some v → finish_restore now req chain merged s = (Err e, s') → e = FileError.
Proof.
  intros Hl. unfold finish_restore, mbind, M_bind.
  destruct (swap_in _ _ _ _) as [[u|e1] s1] eqn:E; [|intros [= <- _]; by apply swap_in_errors in E].
  simpl. by rewrite Hl.
Qed.

(** What a restore that goes through leaves, and what one that fails does not
    touch. *)
Definition restored (env : BackupEnv) (dev : DeviceId) (req : RestoreRequest) (s s' : Restorer St) : Prop :=
  ∃ vs n v merged, client_list_versions (rq_game_id req) (d_net (after_backup env dev req s)) = (Ok vs, n) ∧ v ∈ vs ∧
    v_id v = rq_version_id req ∧ hash_of <$> merged = content (v_files v) ∧
    get_snapshot (rq_game_id req) (d_local (r_daemon s')) =
      Some {| ss_files := v_files v; ss_taken_at := v_created_at v; local_head := Some (v_id v) |} ∧
    ∀ p, save_name p →
      read_file (r_disk s') (rq_anchor req ++ p) =
        match merged !! join "/" p with
        | Some b => Some b
        | None => match get_snapshot (rq_game_id req) (d_local (after_backup env dev req s)) with
                  | Some prev => if decide (join "/" p ∈ map rel_path (ss_files prev)) then None
                                 else read_file (r_disk s) (rq_anchor req ++ p)
                  | None => read_file (r_disk s) (rq_anchor req ++ p)
                  end
        end.

Lemma net_not_file e : net_error e ∨ e = integrity → e ≠ Hang ∧ e ≠ FileError.
Proof. intros [He| ->]; [|done]. by destruct e. Qed.

Lemma run_restore_ok env now dev req (s : Restorer St) :
  given_history env dev req s →
  (∀ prev f, get_snapshot (rq_game_id req) (d_local (after_backup env dev req s)) = Some prev →
     f ∈ ss_files prev → plain f) →
  match run_restore env now dev req false s with
  | (Ok _, s') => restored env dev req s s'
  | (Err e, s') => e ≠ Hang ∧ (e ≠ FileError → r_disk s' = r_disk s)
  end.
Proof.
  intros Hgiven Hplain. unfold run_restore. destruct (_ && _)%bool; [done|].
  unfold mbind at 1, M_bind at 1, gets. unfold mbind at 1, M_bind at 1, attempt, daemon at 1.
  destruct (run_backup _ _ _ _ _ (r_daemon s)) as [[o|e] d] eqn:Eb; [|done].
  assert (Hd : after_backup env dev req s = d) by (unfold after_backup; by rewrite Eb).
  unfold given_history in Hgiven. unfold after_listing in Hgiven. rewrite Hd in Hgiven, Hplain.
  unfold mbind at 1, M_bind at 1, daemon at 1, net at 1. cbn [r_daemon].
  destruct (client_list_versions (rq_game_id req) (d_net d)) as [[vs|e] n] eqn:El.
  2:{ split; [|done]. apply (net_not_file e). left. eapply call_nets. exact El. }
  destruct (Hgiven vs n eq_refl) as [Hvs Hchain].
  destruct (build_chain_found vs Hvs (rq_version_id req) (chain_fuel vs)) as (r & -> & Hr); [done|].
  cbn [r_daemon r_scratch r_disk].
  destruct r as [l|e].
  2:{ by destruct Hr. }
  destruct Hr as (v & Hid & Hl). destruct (Hchain v l Hid Hl) as [Hnames Hok].
  unfold mbind at 1, M_bind at 1.
  pose proof (apply_chain_ok vs v l _ Hl Hok) as Ha. revert Ha.
  set (s1 := {| r_daemon := _ |}). destruct (apply_chain l ∅ s1) as [[merged|e] s2]; intros (Hdk & Hst & Hm).
  2:{ destruct (net_not_file e Hm). split; [done|]. by rewrite Hdk. }
  destruct (finish_restore now req l merged s2) as [[[]|e] s3] eqn:Ef.
  - destruct (finish_restore_ok now req l v merged s2 s3 Ef) as [Hloc Hread].
    + by apply (chain_to_shape vs).
    + intros k Hk. apply Hnames. by apply (content_keys _ merged).
    + rewrite Hst. exact Hplain.
    + exists vs, n, v, merged. split_and!; [by rewrite Hd|by eapply chain_to_in|done|done| |].
      * rewrite Hloc, get_put_snapshot. by rewrite decide_True.
      * intros p Hp. rewrite (Hread p Hp), Hst, Hdk, Hd. done.
  - rewrite (finish_restore_errors now req l v merged s2 s3 e); [done| |done].
    by apply (chain_to_shape vs).
Qed.

(** Refused restores, and a pre-restore backup that fails, change nothing on
    disk; the first two change nothing at all. *)
Lemma run_restore_refuses env now dev req (s : Restorer St) :
  (∃ m, run_restore env now dev req true s = (Err (Bail m), s)) ∧
  (rq_patterns req = [] → rq_registry_keys req = [] →
   ∃ m, run_restore env now dev req false s = (Err (Bail m), s)) ∧
  (∀ e d, run_backup (on_this_disk env (r_disk s)) true dev (Z.to_N u32_max) (pre_backup req) (r_daemon s) = (Err e, d) →
   ∃ m s', run_restore env now dev req false s = (Err (Bail m), s') ∧ r_disk s' = r_disk s ∧ r_scratch s' = r_scratch s).
Proof.
  split_and!.
  - by eexists.
  - intros Hp Hr. unfold run_restore. rewrite !bool_decide_eq_true_2 by done. by eexists.
  - intros e d Hb. unfold run_restore. destruct (_ && _)%bool; [by do 2 eexists|].
    unfold mbind at 1, M_bind at 1, gets. unfold mbind at 1, M_bind at 1, attempt, daemon at 1.
    rewrite Hb. by do 2 eexists.
Qed.
End Run.
