(* ===== verification/OutboxSpec.v ===== *)
(** * savr-daemon: the outbox, play time and hand-registered games

    What one retry does to the outbox, and a whole drain to each of its rows;
    sessions and their total; the globs of a hand-registered game as text. *)

From S2P Require Import Prelude CoreTypes Snapshot Archive ArchiveSpec IpcFrame LocalState Client Backup Programs BackupSpec.

Section Outbox.
Context {St : Type} `{SV : Server St} `{!ServerLaws St}.
Context `{B3 : Blake3} `{U : UuidText} `{JO : Json OutboxPayload} `{TD : TextForm DateTime}.
Implicit Types (d : Daemon St) (r : OutboxRow).

(** The server has answered the upload of an outbox entry. *)
Definition answered (p : OutboxPayload) : Prop :=
  ∃ (n n' : Net St) o, client_create_version (op_game_id p) (op_create_version p) n = (Ok o, n').

Definition item_of (r : OutboxRow) : OutboxItem :=
  {| oi_version_id := ob_version_id r; oi_payload := ob_payload r; oi_attempts := ob_attempts r |}.

(** A row put off. *)
Definition put_off (now : DateTime) (r : OutboxRow) : OutboxRow :=
  {| ob_version_id := ob_version_id r; ob_payload := ob_payload r; ob_attempts := (ob_attempts r + 1)%Z;
     next_retry := Some (now + backoff_delay (u32_of_i64 (ob_attempts r)) * nanos)%Z |}.

Lemma upload_version_answered g create archive d o d' :
  upload_version (St := St) g create archive d = (Ok o, d') →
  ∃ n n', client_create_version g create n = (Ok o, n').
Proof.
  intros (ex & d1 & _ & Hk)%M_bind_ok. apply M_bind_ok in Hk as (file & d2 & _ & Hk).
  apply M_bind_ok in Hk as (u & d3 & _ & Hk). unfold net in Hk.
  destruct (client_create_version g create (d_net d3)) as [r n'] eqn:Ec. injection Hk as -> _. eauto.
Qed.

Lemma filter_keep_all id (l : list OutboxRow) :
  (∀ r, r ∈ l → ob_version_id r ≠ id) → List.filter (λ r, negb (is_item id r)) l = l.
Proof.
  intros Hl. apply forallb_filter_id, forallb_forall. intros r Hr%list_elem_of_In.
  unfold is_item. by rewrite bool_decide_eq_false_2 by (by apply Hl).
Qed.

(** What one retry makes of the outbox: the entry goes, for a reason, or is put
    off; no other row changes. *)
Definition retried (why : OutboxPayload → Prop) (now : DateTime) (i : OutboxItem) (st st' : LocalState) : Prop :=
  (outbox st' = outbox (remove_outbox (oi_version_id i) st) ∧
   (from_slice (T := OutboxPayload) (oi_payload i) = None ∨
    ∃ p, from_slice (oi_payload i) = Some p ∧ why p)) ∨
  outbox st' = outbox (bump_outbox_attempt (oi_version_id i)
    (now + backoff_delay (u32_of_i64 (oi_attempts i)) * nanos)%Z st).

Lemma retry_item_ok now done_at i d :
  ∃ d', retry_item (St := St) now done_at i d = (Ok tt, d') ∧ retried answered now i (d_local d) (d_local d').
Proof.
  unfold retry_item, retried. destruct (from_slice (oi_payload i)) as [p|] eqn:Ep.
  2:{ eexists. split; [done|]. left. split; [done|]. by left. }
  unfold mbind at 1, M_bind at 1, attempt.
  pose proof (upload_version_local (op_game_id p) (op_create_version p) (cache_name (blob_hex p)) d) as Hl.
  destruct (upload_version _ _ _ d) as [[o|e] d1] eqn:Eu; simpl in Hl.
  - apply upload_version_answered in Eu as (n & n' & Hc). destruct o as [v|hd v]; eexists; (split; [done|]);
      left; (split; [simpl; by rewrite Hl|]); right; exists p; (split; [done|]); by exists n, n'; eexists.
  - eexists. split; [done|]. right. simpl. by rewrite Hl.
Qed.

Lemma put_off_id now r : ob_version_id (put_off now r) = ob_version_id r.
Proof. done. Qed.

(** The row of one item, and the others. *)
Lemma retried_row why now r st st' :
  NoDup (map ob_version_id (outbox st)) → r ∈ outbox st → retried why now (item_of r) st st' →
  NoDup (map ob_version_id (outbox st')) ∧
  (∀ x, x ∈ outbox st → ob_version_id x ≠ ob_version_id r → x ∈ outbox st') ∧
  (put_off now r ∈ outbox st' ∨
   from_slice (T := OutboxPayload) (ob_payload r) = None ∨
   ∃ p, from_slice (ob_payload r) = Some p ∧ why p).
Proof.
  intros Hnd Hr [[Ho Hwhy]|Ho]; rewrite Ho; simpl.
  - split_and!; [by apply NoDup_key_filter| |by right].
    intros x Hx Hne. apply elem_of_filter_bool. split; [done|]. unfold is_item. by rewrite bool_decide_eq_false_2.
  - split_and!.
    + by rewrite map_update_where.
    + intros x Hx Hne. apply elem_of_update_where. exists x. split; [done|].
      unfold is_item. by rewrite bool_decide_eq_false_2.
    + left. apply elem_of_update_where. exists r. split; [done|]. unfold is_item. by rewrite bool_decide_eq_true_2.
Qed.

(** ** A whole drain

    What every retry keeps, and what is true of an upload that has gone out. *)

Variables (now done_at : DateTime) (kept : Daemon St → Prop) (sent : OutboxPayload → Daemon St → Prop).
Hypothesis retry_keeps : ∀ r d, kept d → r ∈ outbox (d_local d) →
  ∃ d', retry_item now done_at (item_of r) d = (Ok tt, d') ∧ kept d' ∧ (∀ p, sent p d → sent p d') ∧
    retried (λ p, sent p d') now (item_of r) (d_local d) (d_local d').

Definition fate (r : OutboxRow) d' : Prop :=
  put_off now r ∈ outbox (d_local d') ∨
  from_slice (T := OutboxPayload) (ob_payload r) = None ∨
  ∃ p, from_slice (ob_payload r) = Some p ∧ sent p d'.

Lemma retry_items_ok rows : ∀ d, kept d →
  NoDup (map ob_version_id (outbox (d_local d))) → NoDup (map ob_version_id rows) →
  (∀ r, r ∈ rows → r ∈ outbox (d_local d)) →
  ∃ d', retry_items (St := St) now done_at (map item_of rows) d = (Ok tt, d') ∧ kept d' ∧
    (∀ p, sent p d → sent p d') ∧
    ∀ r, r ∈ outbox (d_local d) → (r ∉ rows ∧ r ∈ outbox (d_local d')) ∨ (r ∈ rows ∧ fate r d').
Proof.
  induction rows as [|r0 rows IH]; intros d Hk Hnd Hids Hin.
  { eexists. split_and!; [done..|]. intros r Hr. left. split; [apply not_elem_of_nil|done]. }
  simpl in Hids. apply list.NoDup_cons in Hids as [Hni Hids]. cbn [map retry_items].
  assert (Hr0 : r0 ∈ outbox (d_local d)) by apply Hin, list_elem_of_here.
  unfold mbind, M_bind at 1. destruct (retry_keeps r0 d Hk Hr0) as (d1 & -> & Hk1 & Hs1 & Hre).
  destruct (retried_row _ now r0 _ _ Hnd Hr0 Hre) as (Hnd1 & Hkeep & Hfate).
  assert (Hoth : ∀ r, r ∈ rows → ob_version_id r ≠ ob_version_id r0).
  { intros r Hr E. apply Hni. rewrite <- E. by apply list_elem_of_fmap_2. }
  destruct (IH d1 Hk1 Hnd1 Hids) as (d2 & -> & Hk2 & Hs2 & Hall).
  { intros r Hr. apply Hkeep; [by apply Hin, list_elem_of_further|by apply Hoth]. }
  exists d2. split_and!; [done|done|by eauto|]. intros r Hr.
  destruct (decide (ob_version_id r = ob_version_id r0)) as [E|Hne].
  - rewrite (NoDup_key_inj ob_version_id _ r r0 Hnd Hr Hr0 E). right. split; [apply list_elem_of_here|].
    destruct Hfate as [Hp|[Hwhy|(p & Hp & Hs)]]; [|by right; left|right; right; eauto].
    left. destruct (Hall _ Hp) as [[_ ?]|[Hx _]]; [done|]. exfalso. by apply (Hoth (put_off now r0)).
  - destruct (Hall r (Hkeep r Hr Hne)) as [[Hn Hr']|[Hx Hf]].
    + left. split; [|done]. intros [->|?]%elem_of_cons; done.
    + right. split; [by apply list_elem_of_further|done].
Qed.

Lemma retry_outbox_ok d : kept d → NoDup (map ob_version_id (outbox (d_local d))) →
  ∃ d', retry_outbox (St := St) now done_at d = (Ok tt, d') ∧ kept d' ∧
    ∀ r, r ∈ outbox (d_local d) → r ∈ outbox (d_local d') ∨ (due now r = true ∧ fate r d').
Proof.
  intros Hk Hnd. unfold retry_outbox, mbind at 1, M_bind at 1, authed_client, gets.
  destruct (negb _); [eexists; split_and!; [done..|]; by left|].
  unfold mbind, M_bind. unfold due_outbox. set (rows := merge_sort _ _).
  assert (Hperm : rows ≡ₚ List.filter (due now) (outbox (d_local d))) by apply merge_sort_Permutation.
  destruct (retry_items_ok rows d Hk Hnd) as (d' & Hd' & Hk' & _ & Hall).
  - rewrite Hperm. by apply NoDup_key_filter.
  - intros r. rewrite Hperm. intros Hr. by apply elem_of_filter_bool in Hr as [? _].
  - exists d'. split_and!; [exact Hd'|done|]. intros r Hr. destruct (Hall r Hr) as [[_ ?]|[Hx Hf]]; [by left|right].
    rewrite Hperm in Hx. apply elem_of_filter_bool in Hx as [_ Hdue]. done.
Qed.
End Outbox.

(** ** The archive cache *)

Section Cache.
Context {St : Type} `{SV : Server St}.
Context `{B3 : Blake3} `{!Blake3Laws} `{U : UuidText} `{G : Glob} `{T : Tar} `{MJ : MetaJson}
        `{JO : Json OutboxPayload} `{TD : TextForm DateTime}.

Lemma append_inj_length (a b s t : string) : String.length a = String.length b → a +:+ s = b +:+ t → a = b.
Proof.
  revert b. induction a as [|c a IH]; intros [|c' b]; try done. intros [= Hl]. rewrite !append_cons.
  intros [= -> E]. f_equal. by apply IH.
Qed.

Lemma cache_name_inj h h' : cache_name (to_hex h) = cache_name (to_hex h') → h = h'.
Proof. intros E. apply to_hex_inj. eapply append_inj_length; [|exact E]. unfold to_hex. by rewrite !blake3_to_hex_len. Qed.

(** A hash does not start like [packing-]. *)
Lemma cache_name_tmp h env : cache_name (to_hex h) ≠ tmp_name env.
Proof.
  unfold cache_name, tmp_name, to_hex. pose proof (blake3_to_hex_len h) as Hl. pose proof (blake3_to_hex_digits h) as Hd.
  destruct (blake3_to_hex h) as [|c s]; [done|]. simpl in Hd. intros E.
  rewrite !append_cons in E. injection E as -> _. done.
Qed.

(** A delivery only takes archives out of the cache. *)
Definition drops (d d' : Daemon St) : Prop := d_cache d' ⊆ d_cache d.
#[local] Instance drops_preorder : PreOrder drops.
Proof. unfold drops. split; [intros d; reflexivity|intros a b c Hab Hbc; by etrans]. Qed.
#[local] Instance local_drops f : Moves drops (local f).
Proof. intros d. by change (d_cache d ⊆ d_cache d). Qed.
#[local] Instance net_drops {A} (m : M (Net St) A) : Moves drops (net m).
Proof. intros d. unfold net. destruct (m (d_net d)). by change (d_cache d ⊆ d_cache d). Qed.
#[local] Instance delete_drops k : Moves drops (cache (delete k)).
Proof. intros d. apply delete_subseteq. Qed.

#[export] Instance upload_drops g create archive : Moves drops (upload_version g create archive).
Proof. unfold upload_version. solve_moves. Qed.
Lemma deliver_drops env client g create h new prior : Moves drops (deliver env client g create h new prior).
Proof. unfold deliver, queue_backup, authed_client. solve_moves. Qed.
Lemma retry_item_drops now done_at i : Moves drops (retry_item now done_at i).
Proof. unfold retry_item. solve_moves. Qed.
End Cache.

(** ** Backing off *)

Lemma backoff_values a : (0 <= a)%Z →
  backoff_delay a = (if decide (a < 9)%Z then 2 ^ a else 300)%Z ∧ (1 <= backoff_delay a <= 300)%Z.
Proof.
  intros Ha. unfold backoff_delay. case_decide as Hlt.
  - rewrite (Z.min_l a 9) by lia.
    assert (H1 : (1 <= 2 ^ a)%Z) by (change 1%Z with (2 ^ 0)%Z; apply Z.pow_le_mono_r; lia).
    assert (H8 : (2 ^ a <= 2 ^ 8)%Z) by (apply Z.pow_le_mono_r; lia). change (2 ^ 8)%Z with 256%Z in H8. lia.
  - rewrite (Z.min_r a 9) by lia. by split.
Qed.

Lemma u32_of_i64_nonneg x : (0 <= u32_of_i64 x)%Z.
Proof. unfold u32_of_i64, u32_max. apply Z.mod_pos_bound. lia. Qed.

(** ** Play time *)

Definition total_played (g : GameId) (st : LocalState) : Z :=
  match play_stats st !! g with Some r => total_secs r | None => 0 end.

Definition open_session (g : GameId) (st : LocalState) : option DateTime := r ← play_stats st !! g; session_start r.

Lemma play_start_row g at_ st :
  total_played g (play_start g at_ st) = total_played g st ∧ open_session g (play_start g at_ st) = Some at_.
Proof.
  unfold total_played, open_session, play_start. simpl. rewrite !lookup_insert_eq. simpl.
  by destruct (play_stats st !! g).
Qed.

Lemma play_stop_row g at_ st :
  total_played g (play_stop g at_ st) =
    (total_played g st + match open_session g st with Some s => session_secs s at_ | None => 0 end)%Z ∧
  open_session g (play_stop g at_ st) = None.
Proof.
  unfold total_played, open_session, play_stop. simpl. rewrite !lookup_insert_eq. simpl.
  destruct (play_stats st !! g) as [r|]; [|done]. simpl. destruct (session_start r) eqn:E; simpl; [done|].
  split; [lia|done].
Qed.

Lemma play_other g g' at_ st : g ≠ g' →
  play_stats (play_start g' at_ st) !! g = play_stats st !! g ∧
  play_stats (play_stop g' at_ st) !! g = play_stats st !! g.
Proof. intros Hne. unfold play_start, play_stop. simpl. by rewrite !lookup_insert_ne by done. Qed.

Lemma close_orphaned_row g st :
  total_played g (close_orphaned_sessions st) = total_played g st ∧ open_session g (close_orphaned_sessions st) = None.
Proof.
  unfold total_played, open_session, close_orphaned_sessions. simpl. rewrite !lookup_fmap.
  by destruct (play_stats st !! g).
Qed.

Lemma session_secs_nonneg a b : (0 <= session_secs a b)%Z.
Proof. unfold session_secs. lia. Qed.

(** ** Globs as lines of text *)

Definition clean_glob (s : string) : Prop := s ≠ "" ∧ has_char newline s = false ∧ has_char carriage s = false.

Lemma chomp_clean s : has_char carriage s = false → chomp s = s.
Proof.
  unfold has_char. induction s as [|c s IH]; [done|]. intros Hs. simpl in Hs. bool_simpl.
  destruct s as [|c' s]; simpl; [by rewrite decide_False|]. f_equal. by apply IH.
Qed.

Lemma lines_of_clean l : Forall (λ s, has_char carriage s = false) l → lines_of l = l.
Proof.
  induction 1 as [|s l Hs Hl IH]; [done|]. destruct l as [|s' l]; [done|].
  change (chomp s :: lines_of (s' :: l) = s :: s' :: l). by rewrite chomp_clean, IH.
Qed.

Lemma split_join_lines (l : list string) : l ≠ [] → Forall clean_glob l → split_on newline (join_lines l) = l.
Proof.
  intros Hne Hl. induction Hl as [|s l (_ & Hs & _) Hl IH]; [done|].
  destruct l as [|s' l]; [by apply split_on_none|].
  change (join_lines (s :: s' :: l)) with (s +:+ String newline (join_lines (s' :: l))).
  rewrite split_on_app by done. by rewrite IH.
Qed.

Lemma globs_roundtrip l : Forall clean_glob l → split_globs (join_lines l) = l.
Proof.
  intros Hl. unfold split_globs. destruct l as [|s l]; [done|]. rewrite split_join_lines by done.
  rewrite lines_of_clean.
  - apply forallb_filter_id, forallb_forall. intros x Hx%list_elem_of_In.
    rewrite list.Forall_forall in Hl. destruct (Hl x Hx) as (Hne & _).
    by rewrite bool_decide_eq_false_2.
  - eapply list.Forall_impl; [exact Hl|]. by intros x (_ & _ & ?).
Qed.

Definition clean_game (g : CustomGame) : Prop := Forall clean_glob (include g) ∧ Forall clean_glob (exclude g).

Lemma list_custom_perm st : list_custom_games st ≡ₚ map read_custom (custom_games st).
Proof. unfold list_custom_games. by rewrite (merge_sort_Permutation title_le). Qed.
