(* ===== verification/LibrarySpec.v ===== *)
(** * The versions a server holds, and the devices that add to them

    [lib_ok]: every version of the server has its archive in the store, and the
    archive fits it.  A backup of a device whose diff base is that of a version
    of the server keeps this, over any link: what one request does to the server
    carries over to the client's call, with its retry after a refresh, when
    exchanges are answered, lost or not delivered. *)

From S2P Require Import Prelude CoreTypes ServerError Auth Blobs Hub ServerDb ServerGc ServerApi DbWf GcSpec VersionSpec ServerSystem Snapshot SnapshotSpec Archive ArchiveSpec IpcFrame LocalState Client ClientSpec Backup Programs Restore ChainSpec RestoreSpec TreeSpec BackupSpec DiskSpec.

(** The archives in play: everything devices pack and the server stores, no two
    of which share a hash. *)
Class Archives `{Blake3} := {
  in_play : bytes → Prop;
  in_play_inj a b : in_play a → in_play b → hash_of a = hash_of b → a = b;
}.

Section Library.
Context `{B3 : Blake3} `{!Blake3Laws} `{A2 : Argon2} `{J : Jwt} `{U : UuidText} `{!UuidTextLaws}.
Context `{T : Tar} `{!TarLaws} `{MJ : MetaJson} `{!MetaJsonLaws} `{AR : !Archives}.
Implicit Types (app : AppState) (lib : gmap VersionId Version) (v : Version).

(** ** The library *)

Definition known_row (r : VersionRow) : option (VersionId * Version) :=
  match row_to_version r with Ok v => Some (vr_id r, v) | Err _ => None end.
Definition known app : gmap VersionId Version := list_to_map (omap known_row (versions (app_db app))).

Definition parent_in lib v : option Version := v_parent v ≫= λ p, lib !! p.

Record fits lib (store : FsBlobStore) v : Prop := {
  fit_files : plain_files (v_files v);
  fit_names : save_names (map rel_path (v_files v));
  fit_archive : ∃ archive, objects store !! to_hex (v_blob_hash v) = Some archive ∧ packed (parent_in lib v) v archive;
}.

Record lib_ok app : Prop := {
  lo_server : server_ok app;
  lo_fits id v : known app !! id = Some v → fits (known app) (app_blobs app) v;
  lo_play h b : objects (app_blobs app) !! h = Some b → in_play b;
}.

Lemma known_row_id r id v : known_row r = Some (id, v) → id = vr_id r ∧ v_id v = vr_id r ∧ row_to_version r = Ok v.
Proof.
  unfold known_row. destruct (row_to_version r) as [w|e] eqn:E; [|done]. intros [= <- <-].
  split_and!; [done|by eapply row_to_version_id|done].
Qed.

Lemma known_keys (rows : list VersionRow) : NoDup (map vr_id rows) → NoDup (omap known_row rows).*1.
Proof.
  induction rows as [|r rows IH]; simpl; [constructor|]. intros [Hni Hnd]%list.NoDup_cons.
  destruct (known_row r) as [[id v]|] eqn:E; [|by apply IH]. simpl. apply known_row_id in E as (-> & _).
  constructor; [|by apply IH]. intros ([id w] & Hid & Hin)%list_elem_of_fmap. apply Hni. simpl in Hid. subst id.
  apply list_elem_of_omap in Hin as (q & Hq & Hk%known_row_id). destruct Hk as (-> & _).
  by apply list_elem_of_fmap_2.
Qed.

Lemma known_lookup app id v : server_ok app →
  known app !! id = Some v ↔ ∃ r, r ∈ versions (app_db app) ∧ vr_id r = id ∧ row_to_version r = Ok v.
Proof.
  intros Hok. unfold known. rewrite <- elem_of_list_to_map by apply known_keys, (so_db _ Hok).
  rewrite list_elem_of_omap. split.
  - intros (r & Hr & (-> & _ & Hv)%known_row_id). eauto.
  - intros (r & Hr & <- & Hv). exists r. split; [done|]. unfold known_row. by rewrite Hv.
Qed.

Lemma known_id app id v : server_ok app → known app !! id = Some v → v_id v = id.
Proof. intros Hok. rewrite known_lookup by done. intros (r & _ & <- & Hv). by eapply row_to_version_id. Qed.

Lemma known_same app app' : versions (app_db app') = versions (app_db app) → known app' = known app.
Proof. unfold known. by intros ->. Qed.

(** What only depends on the rows of versions and the stored objects. *)
Lemma lib_ok_frame app app' : lib_ok app → server_ok app' →
  versions (app_db app') = versions (app_db app) → objects (app_blobs app') = objects (app_blobs app) → lib_ok app'.
Proof.
  intros [Hok Hf Hp] Hok' Hv Ho. constructor; [done| |by rewrite Ho]. rewrite (known_same app app') by done.
  intros id v [? ? Ha]%Hf. constructor; [done..|]. by rewrite Ho.
Qed.

(** ** Growth *)

Lemma payload_parent lib lib' v : lib ⊆ lib' → is_Some (payload_of (parent_in lib v) v) →
  payload_of (parent_in lib' v) v = payload_of (parent_in lib v) v.
Proof.
  intros Hsub [x Hx]. unfold payload_of in *. destruct (v_kind v); [done|].
  unfold parent_in in *. destruct (v_parent v) as [p|]; [|done]. simpl in *.
  destruct (lib !! p) as [w|] eqn:E; [|done]. by rewrite (lookup_weaken _ _ _ _ E Hsub).
Qed.

Lemma packed_payload prev v archive prev' v' :
  packed prev v archive → payload_of prev' v' = payload_of prev v → packed prev' v' archive.
Proof. intros (rd & meta & anchor & reg & chg & dels & Hp & Hrest) E. exists rd, meta, anchor, reg, chg, dels. by rewrite E. Qed.

Lemma packed_some prev v archive : packed prev v archive → is_Some (payload_of prev v).
Proof. intros (rd & meta & anchor & reg & chg & dels & -> & _). by eexists. Qed.

Lemma packed_grows lib lib' v archive :
  lib ⊆ lib' → packed (parent_in lib v) v archive → packed (parent_in lib' v) v archive.
Proof. intros Hsub Hp. eapply packed_payload; [exact Hp|]. by apply payload_parent; [|eapply packed_some]. Qed.

Lemma fits_grows lib lib' store store' v : lib ⊆ lib' →
  (∀ h b, objects store !! h = Some b → objects store' !! h = Some b) → fits lib store v → fits lib' store' v.
Proof.
  intros Hsub Hst [Hf Hn (archive & Ha & Hp)]. constructor; [done..|]. exists archive. split; [by apply Hst|].
  by eapply packed_grows.
Qed.

(** ** One upload *)

(** A request and the archive behind it, packed on top of the versions [lib]. *)
Record made lib (create : CreateVersion) (archive : bytes) : Prop := {
  md_files : plain_files (cv_files create);
  md_names : save_names (map rel_path (cv_files create));
  md_hash : cv_blob_hash create = hash_of archive;
  md_play : in_play archive;
  md_parent p : cv_parent create = Some p → is_Some (lib !! p);
  md_packed g id seq now : packed (cv_parent create ≫= λ p, lib !! p) (row_of create g id seq now) archive;
}.

Lemma made_grows lib lib' create archive : lib ⊆ lib' → made lib create archive → made lib' create archive.
Proof.
  intros Hsub []. constructor; try done.
  - intros p [v Hv]%md_parent0. exists v. by eapply lookup_weaken.
  - intros g id seq now. by apply (packed_grows lib).
Qed.

(** What a device has at hand when it sends one. *)
Record sendable lib (create : CreateVersion) (archive : bytes) app : Prop := {
  sd_lib : lib_ok app;
  sd_sub : lib ⊆ known app;
  sd_made : made lib create archive;
}.

Lemma play_alone app archive b : lib_ok app → in_play archive →
  objects (app_blobs app) !! to_hex (hash_of archive) = Some b → b = archive.
Proof.
  intros Hlib Hp Hb. apply in_play_inj; [by eapply lo_play|done|].
  by apply to_hex_inj, (so_store _ (lo_server _ Hlib)).
Qed.

(** ** Sweeps *)

(** A version whose parent was swept. *)
Definition orphaned v : Version :=
  {| v_id := v_id v; v_game_id := v_game_id v; v_device_id := v_device_id v; v_parent := None; v_kind := v_kind v;
     v_files := v_files v; v_blob_hash := v_blob_hash v; v_bytes := v_bytes v; v_seq := v_seq v; v_created_at := v_created_at v |}.

(** What a sweep leaves that takes no differential's parent. *)
Record thinned lib lib' : Prop := {
  th_from id v' : lib' !! id = Some v' → ∃ v, lib !! id = Some v ∧ (v' = v ∨ (v_kind v = Full ∧ v' = orphaned v));
  th_diff id v p : lib' !! id = Some v → v_kind v = Differential → v_parent v = Some p → is_Some (lib' !! p);
}.

Lemma thinned_files lib lib' id v v' : thinned lib lib' → lib !! id = Some v → lib' !! id = Some v' → v_files v' = v_files v.
Proof. intros [Hf _] Hv (w & Hw & Ho)%Hf. rewrite Hv in Hw. injection Hw as <-. by destruct Ho as [->|[_ ->]]. Qed.

Lemma thinned_over lib lib' p v : thinned lib lib' → is_Some (lib' !! p) → payload_of (lib' !! p) v = payload_of (lib !! p) v.
Proof. intros [Hf _] [w' Hw']. destruct (Hf p w' Hw') as (w & Hw & Ho). rewrite Hw, Hw'. by destruct Ho as [->|[_ ->]]. Qed.

Lemma thinned_payload lib lib' id v v' : thinned lib lib' → lib !! id = Some v → lib' !! id = Some v' →
  payload_of (parent_in lib' v') v' = payload_of (parent_in lib v) v.
Proof.
  intros Hth Hv Hv'. destruct (th_from _ _ Hth id v' Hv') as (w & Hw & Ho). rewrite Hv in Hw. injection Hw as <-.
  destruct (v_kind v) eqn:Ek; [unfold payload_of; destruct Ho as [->|[_ ->]]; simpl; by rewrite Ek|].
  destruct Ho as [->|[[=] _]]. unfold parent_in. destruct (v_parent v) as [p|] eqn:Ep; [|done].
  apply (thinned_over lib lib' p v Hth). by eapply th_diff.
Qed.

(** The archive of a listed version is in the store. *)
Lemma version_archive app r v : server_ok app → r ∈ versions (app_db app) → row_to_version r = Ok v →
  is_Some (objects (app_blobs app) !! to_hex (v_blob_hash v)).
Proof.
  intros [Hw _ Hb] Hr Hv. destruct (wf_hash _ Hw r Hr) as [h Hh]. destruct (wf_vblob _ Hw r Hr) as (b & Hbin & Eb).
  destruct (Hb b Hbin) as [x Hx]. exists x. unfold row_to_version, from_hex, to_hex in *. rewrite Hh, blake3_from_to_hex in Hv.
  injection Hv as <-. simpl. rewrite <- Hh, <- Eb. exact Hx.
Qed.

Lemma lib_ok_thinned app app' : lib_ok app → server_ok app' → thinned (known app) (known app') →
  objects (app_blobs app') ⊆ objects (app_blobs app) → lib_ok app'.
Proof.
  intros [Hok Hfits Hplay] Hok' Hth Hsub. constructor; [done| |].
  2:{ intros h b Hb. apply (Hplay h). by eapply lookup_weaken. }
  intros id v' Hv'. destruct (th_from _ _ Hth id v' Hv') as (v & Hv & Ho). destruct (Hfits id v Hv) as [Hf Hn (archive & Ha & Hp)].
  assert (Hsame : v_files v' = v_files v ∧ v_blob_hash v' = v_blob_hash v) by (by destruct Ho as [->|[_ ->]]).
  destruct Hsame as [Ef Eh]. constructor; rewrite ?Ef; [done..|]. exists archive. split.
  - apply known_lookup in Hv' as (r & Hr & _ & Hrow); [|done].
    destruct (version_archive app' r v' Hok' Hr Hrow) as [b Hb]. rewrite Eh in *.
    rewrite (lookup_weaken _ _ _ _ Hb Hsub) in Ha. by injection Ha as <-.
  - eapply packed_payload; [exact Hp|]. by eapply thinned_payload.
Qed.

Lemma made_thinned lib lib' create archive : thinned lib lib' →
  (∀ p, cv_parent create = Some p → is_Some (lib' !! p)) → made lib create archive → made lib' create archive.
Proof.
  intros Hth Hpar [Hf Hn Hh Hp _ Hpk]. constructor; [done..|]. intros g id seq now.
  eapply packed_payload; [apply Hpk|]. destruct (cv_parent create) as [p|]; [|done]. by apply thinned_over, Hpar.
Qed.

(** The sweep itself. *)
Definition swept app : AppState := with_store (snd (run_gc (store app))) app.

Lemma row_unlinked r0 r v : row_to_version r = Ok v → r = set_vr_parent None r0 →
  ∃ v0, row_to_version r0 = Ok v0 ∧ v = orphaned v0 ∧ v_parent v0 = vr_parent r0.
Proof.
  intros Hv ->. unfold row_to_version in *. simpl in Hv. destruct (from_hex _); [|done]. injection Hv as <-.
  eexists. split; [reflexivity|]. by split.
Qed.

Lemma swept_frame app : lib_ok app → gc_frame (store app) (store (swept app)).
Proof.
  intros [Hok _ _]. destruct (gc_accounts_ok (map ac_id (accounts (db (store app)))) GcStats_default (store app) (so_db _ Hok))
    as (stats & s' & E & Hf & _). unfold swept, run_gc. by rewrite E.
Qed.

Lemma swept_ok app : lib_ok app → server_ok (swept app).
Proof. intros [Hok _ _]. eapply server_step_keeps; [exact Hok|]. apply step_gc. Qed.

Lemma swept_thinned app : lib_ok app →
  (∀ id v p, known app !! id = Some v → v_kind v = Differential → v_parent v = Some p →
     is_Some (known (swept app) !! id) → is_Some (known (swept app) !! p)) →
  thinned (known app) (known (swept app)).
Proof.
  intros Hlib Hspare. pose proof (swept_frame app Hlib) as Hfr. pose proof (swept_ok app Hlib) as Hok'.
  pose proof (lo_server _ Hlib) as Hok.
  assert (Hfrom : ∀ id v', known (swept app) !! id = Some v' → ∃ v, known app !! id = Some v ∧
    (v' = v ∨ (v' = orphaned v ∧ ∃ p, v_parent v = Some p ∧ known (swept app) !! p = None))).
  { intros id v' (r & Hr & <- & Hv)%known_lookup; [|done].
    destruct (gf_rows _ _ Hfr r Hr) as (r0 & Hr0 & [->|[E (p & Hp & Hni)]]).
    - exists v'. split; [apply known_lookup; eauto|by left].
    - destruct (row_unlinked _ _ _ Hv E) as (v & Hv0 & -> & Hpar). exists v. split; [apply known_lookup; [done|]; exists r0; by rewrite E|].
      right. split; [done|]. exists p. split; [congruence|]. apply eq_None_not_Some. intros [w Hw]. apply Hni.
      apply known_lookup in Hw as (x & Hx & <- & _); [|done]. by apply list_elem_of_fmap_2. }
  constructor.
  - intros id v' Hv'. destruct (Hfrom id v' Hv') as (v & Hv & [->|[-> (p & Hp & Hno)]]); [by eauto|].
    exists v. split; [done|]. destruct (v_kind v) eqn:Ek; [by right|]. exfalso.
    destruct (Hspare id v p Hv Ek Hp) as [w Hw]; [by eexists|]. congruence.
  - intros id v' p Hv' Hk Hp. destruct (Hfrom id v' Hv') as (v & Hv & [->|[-> _]]); [|done].
    eapply Hspare; [exact Hv|done|done|by eexists].
Qed.

(** ** Replies *)

(** A reply that announces a version, and the version it announces. *)
Definition announces (resp : HttpResponse) v : Prop :=
  h_body resp = Ok (BVersion v) ∨ ∃ e hd, h_body resp = Err e ∧ detail e = TipsDetail hd v.
Definition announced lib (resp : HttpResponse) app : Prop :=
  ∀ v, announces resp v → known app !! v_id v = Some v ∧ lib !! v_id v = None.

Lemma sendable_frame lib create archive app app' : sendable lib create archive app → server_ok app' →
  versions (app_db app') = versions (app_db app) → objects (app_blobs app') = objects (app_blobs app) →
  sendable lib create archive app'.
Proof.
  intros [] Hok Hv Ho. constructor; [by apply (lib_ok_frame app)|by rewrite (known_same app app')|done].
Qed.

Lemma known_snoc app app' row v : server_ok app → server_ok app' → versions (app_db app') = versions (app_db app) ++ [row] →
  row_to_version row = Ok v → known app ⊆ known app' ∧ known app' !! v_id v = Some v ∧
  ∀ id w, known app' !! id = Some w → known app !! id = Some w ∨ w = v.
Proof.
  intros Hok Hok' Hv Hr. split_and!.
  - apply map_subseteq_spec. intros id w (r & Hin & Hid & Hw)%known_lookup; [|done].
    apply known_lookup; [done|]. exists r. rewrite Hv. set_solver.
  - apply known_lookup; [done|]. exists row. rewrite Hv. split_and!; [set_solver| |done].
    symmetry. by eapply row_to_version_id.
  - intros id w (r & Hin & Hid & Hw)%known_lookup; [|done]. rewrite Hv in Hin.
    apply elem_of_app in Hin as [Hin| ->%list_elem_of_singleton]; [left|right; congruence].
    apply known_lookup; eauto.
Qed.

(** [POST /versions] of what was packed. *)
Lemma post_version_step lib create archive g env header app : sendable lib create archive app →
  let '(r, app') := build_app env header (Device (PostVersion g create)) app in
  sendable lib create archive app' ∧ announced lib (http_of r) app'.
Proof.
  intros Hs. pose proof Hs as [Hlib Hsub Hmade]. pose proof Hlib as [Hok Hfits Hplay].
  pose proof Hmade as [Hfiles Hnames Hhash Hpl Hparent Hpacked].
  assert (Hquiet : ∀ e, detail e = NoDetail ∨ (∃ h, detail e = BlobDetail h) → announced lib (http_of (Err e)) app).
  { intros e He v [Hb|(e' & hd & [= <-] & Hd)]; [done|]. destruct He as [He|[h He]]; congruence. }
  simpl. destruct (authed env header app) as [auth|e] eqn:Ea; cbn [andThen].
  2:{ split; [done|]. apply Hquiet. left. by eapply authed_detail. }
  unfold post_version. destruct (blob_exists _ _) eqn:Eb; cbn [negb]; [|split; [done|apply Hquiet; right; by eexists]].
  destruct (create_version _ _ _ _ _ _) as [r d'] eqn:Ec.
  pose proof (create_version_keeps app (account_id auth) g create (e_uuid env) (e_now env) Hok) as Hkeep.
  rewrite Ec in Hkeep. cbn [snd] in Hkeep.
  destruct (create_version_row _ _ _ _ _ _ _ _ Ec) as [[-> Hr]|(seq & Hv & Hnew & Hadv)].
  { destruct r as [|e]; [done|]. cbn [andThen]. split.
    { apply (sendable_frame lib create archive app); [done|by apply ok_core, same_core_refl|done|done]. }
    intros v [Hb|(e' & hd & [= <-] & Hd)]; [done|]. by rewrite (create_version_detail _ _ _ _ _ _ _ _ Ec) in Hd. }
  set (v := row_of create g (e_uuid env) seq (e_now env)) in *.
  assert (Hfresh : known app !! e_uuid env = None).
  { apply eq_None_not_Some. intros [w (x & Hx & Hid & _)%known_lookup]; [by apply (Hnew x)|done]. }
  assert (Hok' : server_ok (with_db d' app)).
  { apply Hkeep. intros Hp. destruct (Hparent _ Hp) as [w Hw].
    by rewrite (lookup_weaken _ _ _ _ Hw Hsub) in Hfresh. }
  destruct (known_snoc app (with_db d' app) _ v Hok Hok' Hv) as (Hgrow & Hin & Hout); [apply row_of_ok|].
  apply bool_decide_eq_true in Eb as [b Hb]. rewrite Hhash in Hb. pose proof (play_alone _ _ _ Hlib Hpl Hb) as ->.
  assert (Hs' : sendable lib create archive (with_db d' app)).
  { constructor; [|by etrans|done]. constructor; [done| |exact Hplay]. intros id w Hw.
    destruct (Hout id w Hw) as [Hold| ->].
    - eapply fits_grows; [exact Hgrow|done|by apply (Hfits id)].
    - constructor; [done..|]. exists archive. simpl. rewrite Hhash. split; [exact Hb|].
      eapply (packed_grows lib); [by etrans|apply Hpacked]. }
  assert (Hann : known (with_db d' app) !! v_id v = Some v ∧ lib !! v_id v = None).
  { split; [done|]. by eapply lookup_weaken_None. }
  assert (Htold : ∀ ch, sendable lib create archive (with_channels ch (with_db d' app))).
  { intros ch. apply (sendable_frame lib create archive (with_db d' app)); [done| |done|done].
    by apply (server_ok_same (with_db d' app)). }
  destruct r as [adv|e]; cbn [andThen].
  - pose proof (Hadv adv eq_refl) as Hinc.
    destruct adv as [w|hd w]; simpl in Hinc; subst w; (split; [apply Htold|]).
    + intros w [[= <-]|(e & hd & [=] & _)]. exact Hann.
    + intros w [[=]|(e & hd' & [= <-] & [= <- <-])]. exact Hann.
  - split; [done|]. intros w [Hb'|(e' & hd & [= <-] & Hd)]; [done|].
    by rewrite (create_version_detail _ _ _ _ _ _ _ _ Ec) in Hd.
Qed.

(** [PUT /blobs] of the archive. *)
Lemma put_blob_step lib create archive env header app : sendable lib create archive app →
  sendable lib create archive (snd (build_app env header (Device (PutBlob (to_hex (hash_of archive)) [Ok archive])) app)).
Proof.
  intros Hs. pose proof Hs as [Hlib Hsub Hmade]. pose proof Hlib as [Hok Hfits Hplay].
  pose proof (md_play _ _ _ Hmade) as Hpl. simpl. destruct (authed env header app) as [auth|e]; cbn [andThen]; [|done].
  pose proof (blob_put_keeps app (to_hex (hash_of archive)) [Ok archive] Hok) as Hok'.
  pose proof (blob_put_spec (to_hex (hash_of archive)) [Ok archive] (app_blobs app)) as Hput.
  cbn [body_bytes mbind option_bind] in Hput. rewrite app_nil_r, decide_True in Hput by done. revert Hok'.
  unfold blob_put_handler. destruct (valid_hash _); [|done].
  destruct (blob_put _ _ _) as [[n|e] f']; cbn [fst snd] in *; [|by destruct Hput]. destruct Hput as [_ Ho]. intros Hok'.
  assert (Hst : ∀ h b, objects (app_blobs app) !! h = Some b → objects f' !! h = Some b).
  { intros h b Hb. rewrite Ho, lookup_insert. case_decide as Hh; [|done]. subst h. f_equal. symmetry. by eapply play_alone. }
  assert (Hver : ∀ d, versions (insert_blob_row (to_hex (hash_of archive)) (u64_as_i64 n) d) = versions d).
  { intros d. unfold insert_blob_row. by destruct (existsb _ _). }
  pose proof (known_same app (with_db (insert_blob_row (to_hex (hash_of archive)) (u64_as_i64 n) (app_db (with_files f' app)))
    (with_files f' app)) (Hver (app_db app))) as Hk.
  constructor; [|by rewrite Hk|done]. constructor; [done| |].
  - rewrite Hk. intros id w Hw. apply (fits_grows (known app) _ (app_blobs app)); [done|exact Hst|by apply (Hfits id)].
  - intros h b Hb. change (objects f' !! h = Some b) in Hb. rewrite Ho, lookup_insert in Hb. case_decide; [congruence|by eapply Hplay].
Qed.

(** Requests that only read. *)
Definition only_reads (req : Request) : bool :=
  match req with
  | Refresh _ | Device (HeadBlob _) | Device (GetBlob _) | Device (ListVersions _) => true
  | _ => false
  end.
Lemma only_reads_step env header req app : only_reads req = true → snd (build_app env header req app) = app.
Proof.
  destruct req as [| | | | | |[]]; try done; intros _; simpl; by destruct (authed env header app).
Qed.
End Library.

(** ** A device's calls to the server *)

Section Link.
Context `{B3 : Blake3} `{!Blake3Laws} `{A2 : Argon2} `{J : Jwt} `{U : UuidText} `{!UuidTextLaws}.
Context `{T : Tar} `{!TarLaws} `{MJ : MetaJson} `{!MetaJsonLaws} `{AR : !Archives}.
Implicit Types (app : AppState) (n : Net World) (d : Daemon World).

(** Nobody else is served in between. *)
Definition private_link (l : Link) : Prop := match l with Before _ _ _ => False | _ => True end.
Definition app_of n : AppState := w_app (snd n).
Definition quiet n : Prop := Forall private_link (w_links (snd n)).

(** ** Requests *)

Definition steps_to (P : AppState → Prop) (Q : HttpResponse → AppState → Prop) (req : Request) : Prop :=
  ∀ env header app, P app → let '(r, app') := build_app env header req app in P app' ∧ Q (http_of r) app'.

Lemma exchange_steps P Q req header app links r w :
  steps_to P Q req → Forall private_link links → P app → exchange header req app links = (r, w) →
  Forall private_link (w_links w) ∧ P (w_app w) ∧ ∀ resp, r = Ok resp → Q resp (w_app w).
Proof.
  intros Hst Hq HP. destruct Hq as [|[env|env| |env h rq] links Hl Hq]; cbn [exchange]; try done.
  - by intros [= <- <-].
  - specialize (Hst env header app HP). destruct (build_app env header req app) as [x app'].
    intros [= <- <-]. destruct Hst as [HP' HQ]. split_and!; [done|done|]. by intros resp [= <-].
  - specialize (Hst env header app HP). destruct (build_app env header req app) as [x app'].
    intros [= <- <-]. by destruct Hst.
  - by intros [= <- <-].
Qed.

(** The answer of a server that stays as it is. *)
Definition answers app (req : Request) (resp : HttpResponse) : Prop :=
  ∃ env header, resp = http_of (fst (build_app env header req app)).

Lemma reads_step app req : only_reads req = true →
  steps_to (λ a, a = app) (λ resp _, answers app req resp) req.
Proof.
  intros Hr env header a ->. pose proof (only_reads_step env header req app Hr) as Hs.
  destruct (build_app env header req app) as [x app'] eqn:E. simpl in Hs. split; [done|].
  exists env, header. by rewrite E.
Qed.

(** ** Calls *)

Lemma http_send_steps P Q req header n r n' :
  steps_to P Q req → quiet n → P (app_of n) → http_send header req n = (r, n') →
  quiet n' ∧ P (app_of n') ∧ ∀ resp, r = Ok resp → Q resp (app_of n').
Proof.
  unfold http_send. simpl. destruct (exchange _ _ _ _) as [x w] eqn:E. intros Hst Hq HP [= <- <-].
  by eapply exchange_steps.
Qed.

Lemma send_once_steps P Q req n r n' :
  steps_to P Q req → quiet n → P (app_of n) → send_once req n = (r, n') →
  quiet n' ∧ P (app_of n') ∧ ∀ resp, r = Ok resp → Q resp (app_of n').
Proof. unfold send_once, mbind, M_bind, gets. apply http_send_steps. Qed.

Lemma client_refresh_same n r n' : quiet n → client_refresh n = (r, n') → quiet n' ∧ app_of n' = app_of n.
Proof.
  intros Hq. unfold client_refresh, mbind, M_bind, gets, of_option.
  destruct (creds (fst n)) as [c|]; [|by intros [= _ <-]]. cbn -[http_send error_for_status json_as].
  set (req := {| rf_device_id := cred_device_id c; rf_refresh_secret := refresh_secret c |}).
  destruct (http_send None (Refresh req) n) as [x n1] eqn:E.
  destruct (http_send_steps _ _ _ _ _ _ _ (reads_step (app_of n) (Refresh req) eq_refl) Hq eq_refl E) as (Hq1 & Ha1 & _).
  destruct x as [resp|e]; [|by intros [= _ <-]].
  destruct (error_for_status resp); [|by intros [= _ <-]].
  destruct (json_as _ _); [|by intros [= _ <-]]. by intros [= _ <-].
Qed.

Lemma send_authed_steps P Q req n r n' :
  steps_to P Q req → quiet n → P (app_of n) → send_authed req n = (r, n') →
  quiet n' ∧ P (app_of n') ∧ ∀ resp, r = Ok resp → Q resp (app_of n').
Proof.
  intros Hst Hq HP. unfold send_authed, mbind, M_bind. destruct (send_once req n) as [x n1] eqn:E1.
  destruct (send_once_steps _ _ _ _ _ _ Hst Hq HP E1) as (Hq1 & HP1 & HQ1).
  destruct x as [resp|e]; [|by intros [= <- <-]]. destruct (negb _); [by intros [= <- <-]|].
  unfold retry_once. destruct (client_refresh n1) as [[u|e] n2] eqn:E2;
    destruct (client_refresh_same _ _ _ Hq1 E2) as (Hq2 & Ha2).
  - apply send_once_steps; [done..|by rewrite Ha2].
  - intros [= <- <-]. rewrite Ha2. split_and!; [done|done|]. intros resp' [= <-]. by apply HQ1.
Qed.

(** A call that reads leaves the server alone and decodes its answer. *)
Lemma call_reads {A} req (f : Body → option A) n r n' : only_reads req = true → quiet n → call req f n = (r, n') →
  quiet n' ∧ app_of n' = app_of n ∧
  ∀ a, r = Ok a → ∃ env header resp, fst (build_app env header req (app_of n)) = Ok resp ∧ f (resp_body resp) = Some a.
Proof.
  intros Hr Hq. unfold call, mbind, M_bind. destruct (send_authed req n) as [x n1] eqn:E.
  destruct (send_authed_steps _ _ _ _ _ _ (reads_step (app_of n) req Hr) Hq eq_refl E) as (Hq1 & Ha1 & Hans).
  destruct x as [resp|e]; [|by intros [= <- <-]]. destruct (Hans resp eq_refl) as (env & header & ->).
  unfold lift_result. destruct (error_for_status _) as [resp'|] eqn:Es; [|by intros [= <- <-]].
  unfold error_for_status in Es. case_bool_decide; [done|]. injection Es as <-. intros [= <- <-].
  split_and!; [done|done|]. intros a Ha. unfold json_as in Ha. exists env, header.
  destruct (fst (build_app env header req (app_of n))) as [x|e]; [|done]. simpl in Ha.
  exists x. split; [done|]. by destruct (f _); simpl in Ha; simplify_eq.
Qed.

(** ** Uploads *)

Definition version_of (o : CreateOutcome) : Version := match o with Created v => v | ConflictOutcome _ v => v end.

Lemma put_blob_steps lib create archive :
  steps_to (sendable lib create archive) (λ _ _, True) (Device (PutBlob (to_hex (hash_of archive)) [Ok archive])).
Proof.
  intros env header app Ha. pose proof (put_blob_step lib create archive env header app Ha).
  by destruct (build_app _ _ _ _).
Qed.

Lemma upload_keeps lib create archive g name d r d' :
  quiet (d_net d) → sendable lib create archive (app_of (d_net d)) → (∀ b, d_cache d !! name = Some b → b = archive) →
  upload_version g create name d = (r, d') →
  quiet (d_net d') ∧ sendable lib create archive (app_of (d_net d')) ∧
  ∀ o, r = Ok o → known (app_of (d_net d')) !! v_id (version_of o) = Some (version_of o) ∧ lib !! v_id (version_of o) = None.
Proof.
  intros Hq Hs Hc. unfold upload_version, client_blob_exists, client_create_version, mbind, M_bind, net, gets.
  pose proof (md_hash _ _ _ (sd_made _ _ _ _ Hs)) as Hhash.
  destruct (send_authed (Device (HeadBlob _)) (d_net d)) as [x n1] eqn:E1.
  destruct (send_authed_steps _ _ _ _ _ _ (reads_step (app_of (d_net d)) (Device (HeadBlob _)) eq_refl) Hq eq_refl E1)
    as (Hq1 & Ha1 & _).
  assert (Hs1 : sendable lib create archive (app_of n1)) by by rewrite Ha1.
  destruct x as [resp|e]; [|by intros [= <- <-]]. cbn [mret M_ret d_cache d_net].
  assert (Hpost : ∀ n c, quiet n → sendable lib create archive (app_of n) →
    (let '(r, n') := (resp ← send_authed (Device (PostVersion g create)); lift_result (read_create resp)) n in
     (r, {| d_local := d_local d; d_cache := c; d_net := n' |})) = (r, d') →
    quiet (d_net d') ∧ sendable lib create archive (app_of (d_net d')) ∧
    ∀ o, r = Ok o → known (app_of (d_net d')) !! v_id (version_of o) = Some (version_of o) ∧ lib !! v_id (version_of o) = None).
  { intros n c Hqn Hsn. unfold mbind, M_bind. destruct (send_authed _ n) as [y n2] eqn:E2.
    destruct (send_authed_steps (sendable lib create archive) (announced lib) _ _ _ _
      (λ env h a, post_version_step lib create archive g env h a) Hqn Hsn E2) as (Hq2 & Hs2 & Hann).
    destruct y as [resp2|e]; [|by intros [= <- <-]]. unfold lift_result. intros [= <- <-]. cbn [d_net].
    split_and!; [done|done|]. intros o Ho. apply (Hann resp2 eq_refl). unfold read_create in Ho.
    case_bool_decide; [|case_bool_decide; [|done]].
    - left. unfold json_as in Ho. destruct (h_body resp2) as [b|]; [|done]. destruct b; try done. by injection Ho as <-.
    - right. destruct (h_body resp2) as [|e]; [done|]. destruct (detail e) eqn:Ed; try done. injection Ho as <-. eauto. }
  destruct (bool_decide _).
  - cbn [mret M_ret d_net d_local d_cache]. by apply Hpost.
  - destruct (d_cache d !! name) as [b|] eqn:Eb; [pose proof (Hc b eq_refl) as ->|by intros [= <- <-]]. unfold client_blob_put_file, of_option, mbind, M_bind. cbn -[send_authed error_for_status read_create]. rewrite Hhash.
    destruct (send_authed (Device (PutBlob (to_hex (hash_of archive)) [Ok archive])) n1) as [y n2] eqn:E2.
    destruct (send_authed_steps (sendable lib create archive) (λ _ _, True) _ _ _ _
      (put_blob_steps lib create archive) Hq1 Hs1 E2) as (Hq2 & Hs2 & _).
    destruct y as [resp2|e]; [|by intros [= <- <-]].
    destruct (error_for_status resp2); [|by intros [= <- <-]]. by apply (Hpost n2 (d_cache d)).
Qed.
End Link.
