(* ===== verification/FleetSpec.v ===== *)
(** * Devices that share a server

    A device is sound for the versions of the server when its diff bases are
    those of versions there.  Backups and restores keep every device and the
    server's library sound, and a restore of a listed version is given a history
    it can apply. *)

From S2P Require Import Prelude CoreTypes ServerError Auth Blobs Hub ServerDb ServerGc ServerApi DbWf VersionSpec ServerSystem Snapshot SnapshotSpec Archive ArchiveSpec IpcFrame LocalState Client ClientSpec Backup Programs Restore ChainSpec RestoreSpec TreeSpec BackupSpec DiskSpec RestoreRun OutboxSpec LibrarySpec.

Section Fleet.
Context `{B3 : Blake3} `{!Blake3Laws} `{A2 : Argon2} `{J : Jwt} `{U : UuidText} `{!UuidTextLaws}.
Context `{G : Glob} `{T : Tar} `{!TarLaws} `{MJ : MetaJson} `{!MetaJsonLaws}
        `{JO : Json OutboxPayload} `{!JsonLaws OutboxPayload} `{TD : TextForm DateTime} `{AR : !Archives}.
Implicit Types (app : AppState) (st : LocalState) (lib : gmap VersionId Version) (d : Daemon World).

(** ** Sound devices *)

(** An upload that waits: its archive was packed for it. *)
Definition queued lib (p : OutboxPayload) : Prop :=
  ∃ archive, made lib (op_create_version p) archive ∧ blob_hex p = to_hex (hash_of archive).

Record dev_ok lib st : Prop := {
  dv_base g : base_ok lib g st;
  dv_head g p : base_head g st = Some p → is_Some (lib !! p);
  dv_plain g s f : get_snapshot g st = Some s → f ∈ ss_files s → plain f;
  dv_ids : NoDup (map ob_version_id (outbox st));
  dv_queue r : r ∈ outbox st → ∃ p, from_slice (ob_payload r) = Some p ∧ queued lib p;
}.

(** The archives kept back are under their hashes. *)
Definition cache_ok (c : gmap string bytes) : Prop :=
  ∀ h b, c !! cache_name (to_hex h) = Some b → in_play b ∧ hash_of b = h.

Record daemon_ok d : Prop := {
  dk_quiet : quiet (d_net d);
  dk_lib : lib_ok (app_of (d_net d));
  dk_dev : dev_ok (known (app_of (d_net d))) (d_local d);
  dk_cache : cache_ok (d_cache d);
}.

Lemma dev_ok_new lib : dev_ok lib LocalState_open.
Proof.
  assert (Hs : ∀ g, get_snapshot g LocalState_open = None) by (intros g; apply lookup_empty).
  constructor.
  - intros g s p. by rewrite Hs.
  - intros g p. unfold base_head. by rewrite Hs.
  - intros g s f. by rewrite Hs.
  - constructor.
  - intros r Hr. by apply elem_of_nil in Hr.
Qed.

Lemma base_ok_grows lib lib' g st : lib ⊆ lib' → base_ok lib g st → base_ok lib' g st.
Proof. intros Hsub Hb s p Hs Hu Hh. destruct (Hb s p Hs Hu Hh) as (v & Hv & Hf). eauto using lookup_weaken. Qed.

Lemma dev_ok_grows lib lib' st : lib ⊆ lib' → dev_ok lib st → dev_ok lib' st.
Proof.
  intros Hsub [Hb Hh Hp Hi Hq]. constructor; [|intros g p [v Hv]%Hh; exists v; by eapply lookup_weaken|done|done|].
  - intros g. by eapply base_ok_grows.
  - intros r (p & Hp' & archive & Hm & Hx)%Hq. exists p. split; [done|]. exists archive. split; [|done].
    by eapply made_grows.
Qed.

(** What changes neither snapshots nor marks, and queues nothing new. *)
Lemma dev_ok_frame lib st st' :
  (∀ g, get_snapshot g st' = get_snapshot g st) →
  (∀ g, get_meta (unconfirmed_key g) st' = get_meta (unconfirmed_key g) st) →
  NoDup (map ob_version_id (outbox st')) →
  (∀ r, r ∈ outbox st' → ∃ r0, r0 ∈ outbox st ∧ ob_payload r0 = ob_payload r) →
  dev_ok lib st → dev_ok lib st'.
Proof.
  intros Hs Hm Hnd Hr [Hb Hh Hp _ Hq]. constructor; [| | |done|].
  - intros g. by apply (base_ok_same _ _ st).
  - intros g p. unfold base_head. rewrite Hs. apply Hh.
  - intros g s f. rewrite Hs. apply Hp.
  - intros r (r0 & Hr0 & <-)%Hr. by apply Hq.
Qed.

Lemma cache_ok_sub c c' : c' ⊆ c → cache_ok c → cache_ok c'.
Proof. intros Hsub Hc h b Hb. apply Hc. by eapply lookup_weaken. Qed.

(** The base a backup leaves. *)
Definition new_head (create : CreateVersion) (o : BackupOutcome) : option VersionId :=
  match o with Uploaded v | Conflicted _ v => Some (v_id v) | _ => cv_parent create end.

Lemma delivered_snapshot env g create h new prior o st st' g' : delivered env g create h new prior o st st' →
  get_snapshot g' st' =
    if decide (g = g') then Some {| ss_files := sn_files new; ss_taken_at := taken_at new; local_head := new_head create o |}
    else get_snapshot g' st.
Proof.
  destruct o as [|v| |hd v]; [done| | |]; simpl; [intros [_ ->]|intros ->|intros [_ ->]].
  - apply (get_put_snapshot g' g (sn_files new) (taken_at new) (Some (v_id v)) st).
  - apply (get_put_snapshot g' g (sn_files new) (taken_at new) (cv_parent create) (enqueue env g create h st)).
  - apply (get_put_snapshot g' g (sn_files new) (taken_at new) (Some (v_id v)) st).
Qed.

Lemma delivered_outbox env g create h new prior o st st' : delivered env g create h new prior o st st' →
  outbox st' = match o with Queued => outbox (enqueue env g create h st) | _ => outbox st end.
Proof. destruct o as [|v| |hd v]; [done| | |]; simpl; [by intros [_ ->]|by intros ->|by intros [_ ->]]. Qed.

(** The row a run queues. *)
Definition queued_row (env : BackupEnv) (g : GameId) (create : CreateVersion) (h : Blake3Hash) (r : OutboxRow) : Prop :=
  ob_version_id r = b_outbox_id env ∧
  ob_payload r = to_vec {| op_game_id := g; blob_hex := to_hex h; op_create_version := create |}.

Lemma elem_of_enqueue env g create h st r : r ∈ outbox (enqueue env g create h st) →
  (r ∈ outbox st ∧ ob_version_id r ≠ b_outbox_id env) ∨ queued_row env g create h r.
Proof.
  unfold enqueue, enqueue_outbox. simpl. rewrite elem_of_app, elem_of_filter_bool, list_elem_of_singleton.
  intros [[Hr Hid]| ->]; [left|by right]. split; [done|]. unfold is_item in Hid. by bool_simpl.
Qed.

Lemma enqueue_ids env g create h st : NoDup (map ob_version_id (outbox st)) →
  NoDup (map ob_version_id (outbox (enqueue env g create h st))).
Proof.
  intros Hnd. unfold enqueue, enqueue_outbox. simpl. apply NoDup_key_snoc; [by apply NoDup_key_filter|].
  intros r [_ Hid]%elem_of_filter_bool. unfold is_item in Hid. simpl. by bool_simpl.
Qed.

Lemma delivered_dev_ok lib env g create archive new prior o st st' :
  delivered env g create (hash_of archive) new prior o st st' → cv_files create = sn_files new →
  made lib create archive → cv_parent create = base_head g st → new_version o lib → dev_ok lib st → dev_ok (told o lib) st'.
Proof.
  intros Hd Hfiles Hmade Hpar Hnew Hdev. pose proof Hdev as [Hb Hh Hp Hi Hq].
  assert (Hsub : lib ⊆ told o lib) by (destruct o; simpl in *; try done; by apply insert_subseteq).
  pose proof (delivered_outbox _ _ _ _ _ _ _ _ _ Hd) as Hout. constructor.
  - intros g'. by eapply delivered_base.
  - intros g' p Hhd. unfold base_head in Hhd. rewrite (delivered_snapshot _ _ _ _ _ _ _ _ _ g' Hd) in Hhd.
    case_decide as Hg.
    + simpl in Hhd. unfold new_head in Hhd. destruct o; [done| | |]; simpl; simplify_eq;
        rewrite ?lookup_insert_eq; [by eexists| |by eexists].
      apply (Hh g'). congruence.
    + destruct (Hh g' p Hhd) as [v Hv]. exists v. by eapply lookup_weaken.
  - intros g' s f Hs Hf. rewrite (delivered_snapshot _ _ _ _ _ _ _ _ _ g' Hd) in Hs. case_decide as Hg.
    + injection Hs as <-. simpl in Hf. rewrite <- Hfiles in Hf. by apply (pf_plain _ (md_files _ _ _ Hmade)).
    + by eapply Hp.
  - rewrite Hout. destruct o; [done|done| |done]. by apply enqueue_ids.
  - rewrite Hout. intros r Hr. destruct o; try (by apply (dv_queue _ _ (dev_ok_grows _ _ _ Hsub Hdev))).
    apply elem_of_enqueue in Hr as [[Hr _]|[_ ->]]; [by apply Hq|]. eexists. split; [apply from_slice_to_vec|].
    by exists archive.
Qed.

(** ** Backups *)

(** What a backup finds: the saves below their directory, still while they are
    packed and not named like temporaries; and its archive is one in play. *)
Record backup_ready (env : BackupEnv) (dev : DeviceId) (full_every : N) (job : BackupJob) st : Prop := {
  rd_still : b_pack_root env = b_root env;
  rd_dir : save_dir (b_root env) (anchor job) (patterns job);
  rd_names new : build (b_root env) (b_taken_at env) (job_game_id job) (patterns job) (job_excludes job) (anchor job) = Ok new →
    save_names (map rel_path (sn_files new));
  rd_play archive : archive_of env dev full_every job st = Some archive → in_play archive;
}.

Lemma packs_made lib env dev full_every job st create new archive :
  packs env dev full_every job st create new archive → dev_ok lib st → backup_ready env dev full_every job st →
  made lib create archive.
Proof.
  intros Hpk Hdev [Hstill Hdir Hnames Hplay]. pose proof (pk_built _ _ _ _ _ _ _ _ Hpk) as Hb.
  pose proof (pk_files _ _ _ _ _ _ _ _ Hpk) as Hf. constructor.
  - rewrite Hf. by eapply snapshot_plain.
  - rewrite Hf. by apply Hnames.
  - apply Hpk.
  - apply Hplay, Hpk.
  - intros p. rewrite (pk_parent _ _ _ _ _ _ _ _ Hpk). apply (dv_head _ _ Hdev).
  - intros g id seq now.
    assert (Hm : made_from (job_game_id job) create (row_of create (job_game_id job) id seq now)) by done.
    destruct (packs_fit _ _ _ _ _ _ _ _ _ lib Hpk Hm Hstill Hdir (dv_base _ _ Hdev _)) as (_ & _ & Hp). exact Hp.
Qed.

Lemma deliver_keeps lib env client g create archive new prior d r d' :
  quiet (d_net d) → sendable lib create archive (app_of (d_net d)) →
  d_cache d !! cache_name (to_hex (hash_of archive)) = Some archive →
  deliver env client g create (hash_of archive) new prior d = (r, d') →
  quiet (d_net d') ∧ sendable lib create archive (app_of (d_net d')) ∧
  ∀ v, r = Ok (Uploaded v) ∨ (∃ hd, r = Ok (Conflicted hd v)) →
    known (app_of (d_net d')) !! v_id v = Some v ∧ lib !! v_id v = None.
Proof.
  intros Hq Hs Hc. unfold deliver, mbind at 1, M_bind at 1, authed_client, gets. destruct (client && _)%bool.
  2:{ intros [= <- <-]. split_and!; [done|done|]. by intros v [|[]]. }
  unfold mbind at 1, M_bind at 1, attempt.
  destruct (upload_version g create (cache_name (to_hex (hash_of archive))) d) as [x d1] eqn:Eu.
  assert (Hc' : ∀ b, d_cache d !! cache_name (to_hex (hash_of archive)) = Some b → b = archive) by (intros b; congruence).
  destruct (upload_keeps _ _ _ _ _ _ _ _ Hq Hs Hc' Eu) as (Hq1 & Hs1 & Hann).
  destruct x as [[w|hd w]|e]; intros [= <- <-]; (split_and!; [done|done|]); intros v Ho.
  - destruct Ho as [[= <-]|[hd [=]]]. by apply (Hann (Created w)).
  - destruct Ho as [[=]|[hd' [= <- <-]]]. by apply (Hann (ConflictOutcome hd w)).
  - by destruct Ho as [|[]].
Qed.

(** The version a run's save is, or the one it becomes when its upload goes out. *)
Definition becomes (env : BackupEnv) (o : BackupOutcome) st' (v : Version) : Prop :=
  match o with
  | NoChange => False
  | Uploaded w | Conflicted _ w => v = w
  | Queued => ∃ r p, r ∈ outbox st' ∧ ob_version_id r = b_outbox_id env ∧ from_slice (ob_payload r) = Some p ∧
      made_from (op_game_id p) (op_create_version p) v
  end.

Lemma delivered_files env g create h new prior o st st' v : delivered env g create h new prior o st st' →
  cv_files create = sn_files new → becomes env o st' v → v_files v = sn_files new.
Proof.
  intros Hd <- Hv. pose proof (delivered_outbox _ _ _ _ _ _ _ _ _ Hd) as Hout. destruct o as [|w| |hd w]; simpl in Hv.
  - done.
  - subst w. apply Hd.
  - destruct Hv as (r & p & Hr & Hid & Hp & Hm). rewrite Hout in Hr.
    apply elem_of_enqueue in Hr as [[_ Hno]|[_ Hrow]]; [done|]. rewrite Hrow, from_slice_to_vec in Hp.
    injection Hp as <-. apply Hm.
  - subst w. apply Hd.
Qed.

(** The library and the device after a delivery. *)
Lemma told_known o app' lib : (∀ v, o = Uploaded v ∨ (∃ hd, o = Conflicted hd v) → known app' !! v_id v = Some v ∧ lib !! v_id v = None) →
  lib ⊆ known app' → new_version o lib ∧ told o lib ⊆ known app'.
Proof.
  intros Hann Hsub. destruct o as [|w| |hd w]; try done; (destruct (Hann w) as [Hk Hno]; [eauto|]; split; [done|]);
    simpl; apply map_subseteq_spec; intros id x; rewrite lookup_insert; case_decide; eauto using lookup_weaken; congruence.
Qed.

(** A backup keeps the server's library and the device sound; the version it
    reports is in the library, and every version of its save has the files that
    were on disk. *)
Lemma run_backup_grows env client dev full_every job d r d' :
  let app := app_of (d_net d) in let app' := app_of (d_net d') in
  daemon_ok d → backup_ready env dev full_every job (d_local d) →
  run_backup env client dev full_every job d = (r, d') →
  daemon_ok d' ∧ known app ⊆ known app' ∧
  ∀ o v, r = Ok o → becomes env o (d_local d') v →
    (o ≠ Queued → known app' !! v_id v = Some v) ∧
    ∃ new, build (b_root env) (b_taken_at env) (job_game_id job) (patterns job) (job_excludes job) (anchor job) = Ok new ∧
      v_files v = sn_files new.
Proof.
  intros app app' [Hq Hlib Hdev Hcache] Hready
    [(Hl & Hn & _ & Ho & Hc)|(create & new & archive & d1 & Hpk & Hl & Hn & Hc & Hd)]%run_backup_delivers; subst app app'.
  - rewrite Hn. split_and!; [|done|by intros o v ->%Ho]. constructor; rewrite ?Hn, ?Hl; try done.
    intros h b. rewrite Hc by apply cache_name_tmp. apply Hcache.
  - pose proof (packs_made _ _ _ _ _ _ _ _ _ Hpk Hdev Hready) as Hmade. pose proof (md_play _ _ _ Hmade) as Hplay.
    assert (Hs : sendable (known (app_of (d_net d))) create archive (app_of (d_net d1))) by (rewrite Hn; by constructor).
    rewrite <- Hn in Hq. assert (Hin : d_cache d1 !! cache_name (to_hex (hash_of archive)) = Some archive)
      by (rewrite Hc; apply lookup_insert_eq).
    destruct (deliver_keeps _ _ _ _ _ _ _ _ _ _ _ Hq Hs Hin Hd) as (Hq' & Hs' & Hann).
    pose proof (deliver_drops env client (job_game_id job) create (hash_of archive) new (prior_diffs (job_game_id job) (d_local d)) d1)
      as Hdrop. rewrite Hd in Hdrop.
    apply deliver_ok in Hd as (o & -> & Hdel). rewrite Hl in Hdel.
    destruct (told_known o (app_of (d_net d')) (known (app_of (d_net d)))) as [Hnew Htold];
      [intros v Hv; apply Hann; by destruct Hv as [->|[hd ->]]; eauto|apply Hs'|].
    pose proof (pk_files _ _ _ _ _ _ _ _ Hpk) as Hfiles. split_and!; [|apply Hs'|].
    + constructor; [done|apply Hs'| |].
      * eapply dev_ok_grows; [exact Htold|]. eapply delivered_dev_ok; try done. apply Hpk.
      * eapply cache_ok_sub; [exact Hdrop|]. rewrite Hc. intros h b. rewrite lookup_insert. case_decide as Hh.
        -- apply cache_name_inj in Hh. intros [= <-]. by split.
        -- rewrite lookup_delete_ne; [apply Hcache|]. intros E. by apply (cache_name_tmp h env).
    + intros o' v [= <-] Hv. split; [|exists new; split; [apply Hpk|by eapply delivered_files]].
      intros Hno. apply Hann. destruct o; simpl in Hv; subst; try done; eauto.
Qed.

(** ** Restores *)

Context `{HI : HashIter} `{!HashIterLaws}.
Implicit Types (s : Restorer World) (sc : Scratch).

(** What is staged are files of versions in the library. *)
Definition scratch_ok lib sc : Prop :=
  ∀ dir t, staged sc !! dir = Some t → ∃ v, lib !! v_id v = Some v ∧ dir = uuid_to_string (v_id v) ∧
    ∀ chg dels, payload_of (parent_in lib v) v = Some (chg, dels) → ∀ k, is_Some (t !! k) → k ∈ map path_of chg.

Lemma scratch_ok_grows app lib' sc : lib_ok app → known app ⊆ lib' → scratch_ok (known app) sc → scratch_ok lib' sc.
Proof.
  intros Hlib Hsub Hsc dir t Ht. destruct (Hsc dir t Ht) as (v & Hv & Hdir & Hk). exists v.
  split; [by eapply lookup_weaken|]. split; [done|]. intros chg dels. rewrite (payload_parent (known app)); [|done|].
  - apply Hk.
  - destruct (fit_archive _ _ _ (lo_fits _ Hlib _ _ Hv)) as (archive & _ & Hp). by eapply packed_some.
Qed.

(** A version the device still refers to: a diff base, the parent of a queued
    upload, or one a restore left staged. *)
Definition wants st sc (p : VersionId) : Prop :=
  (∃ g, base_head g st = Some p) ∨
  (∃ r q, r ∈ outbox st ∧ from_slice (ob_payload r) = Some q ∧ cv_parent (op_create_version q) = Some p) ∨
  is_Some (staged sc !! uuid_to_string p).

Lemma dev_ok_thinned lib lib' st sc : thinned lib lib' → (∀ p, wants st sc p → is_Some (lib' !! p)) →
  dev_ok lib st → dev_ok lib' st.
Proof.
  intros Hth Hw [Hb Hh Hp Hi Hq]. constructor; [| |done|done|].
  - intros g s p Hs Hu Hl. destruct (Hb g s p Hs Hu Hl) as (v & Hv & Hf).
    destruct (Hw p) as [v' Hv']; [left; exists g; unfold base_head; by rewrite Hs|].
    exists v'. split; [done|]. by rewrite (thinned_files _ _ _ _ _ Hth Hv Hv').
  - intros g p Hg. apply Hw. left. by exists g.
  - intros r Hr. destruct (Hq r Hr) as (q & Hq' & archive & Hm & Hx). exists q. split; [done|]. exists archive.
    split; [|done]. apply (made_thinned lib); [done| |done]. intros p Hpar. apply Hw. right. left. by exists r, q.
Qed.

Lemma scratch_ok_thinned lib lib' st sc : thinned lib lib' → (∀ p, wants st sc p → is_Some (lib' !! p)) →
  (∀ id v, lib' !! id = Some v → v_id v = id) → scratch_ok lib sc → scratch_ok lib' sc.
Proof.
  intros Hth Hw Hid Hsc dir t Ht. destruct (Hsc dir t Ht) as (v & Hv & -> & Hk).
  destruct (Hw (v_id v)) as [v' Hv']; [right; right; by eexists|]. pose proof (Hid _ _ Hv') as E. exists v'. rewrite E.
  split; [done|]. split; [done|]. intros chg dels. rewrite (thinned_payload _ _ _ _ _ Hth Hv Hv'). apply Hk.
Qed.

(** Once the pre-restore backup is done the server stands still. *)
Record settled app s : Prop := {
  se_app : app_of (d_net (r_daemon s)) = app;
  se_daemon : daemon_ok (r_daemon s);
  se_scratch : scratch_ok (known app) (r_scratch s);
}.
Definition settles app s s' : Prop := settled app s → settled app s'.

Lemma settled_net app s n sc : settled app s → quiet n → app_of n = app → scratch_ok (known app) sc →
  settled app {| r_daemon := {| d_local := d_local (r_daemon s); d_cache := d_cache (r_daemon s); d_net := n |};
                 r_scratch := sc; r_disk := r_disk s |}.
Proof.
  intros [Ha [Hq Hl Hd Hc] Hs] Hqn Han Hsc. rewrite <- Ha in *. constructor; [done| |done].
  constructor; simpl; [done|by rewrite Han|by rewrite Han|done].
Qed.
#[local] Instance settles_preorder app : PreOrder (settles app).
Proof. split; [by intros s Hs|]. intros a b c Hab Hbc Ha. by apply Hbc, Hab. Qed.

Lemma blob_received app h n b n' : quiet n → app_of n = app → client_blob_get h n = (Ok b, n') →
  objects (app_blobs app) !! to_hex h = Some b.
Proof.
  intros Hq <- Hc. destruct (call_reads (Device (GetBlob (to_hex h))) _ _ _ _ eq_refl Hq Hc) as (_ & _ & Hans).
  destruct (Hans b eq_refl) as (env & header & resp & Hr & Hb). simpl in Hr.
  destruct (authed env header (app_of n)) as [auth|e]; [|done]. cbn [andThen] in Hr.
  unfold blob_get in Hr. cbn [fst] in Hr. destruct (valid_hash _); [|done]. simpl in Hr.
  destruct (negb _); [done|]. unfold blob_read in Hr.
  destruct (objects (app_blobs (app_of n)) !! to_hex h) as [x|]; [|done]. simpl in Hr. injection Hr as <-.
  simpl in Hb. congruence.
Qed.

(** A listed version applies. *)
Lemma version_applies app s v : settled app s → known app !! v_id v = Some v →
  version_ok s (parent_in (known app) v) v ∧ settled app (snd (apply_version v ∅ s)).
Proof.
  intros Hset Hv. pose proof Hset as [Ha Hd Hsc]. pose proof (dk_quiet _ Hd) as Hq.
  pose proof (dk_lib _ Hd) as Hlib. rewrite Ha in Hlib. destruct (lo_fits _ Hlib _ _ Hv) as [Hfiles _ (archive & Hobj & Hpack)].
  assert (Hrecv : ∀ b n', client_blob_get (v_blob_hash v) (d_net (r_daemon s)) = (Ok b, n') → b = archive).
  { intros b n' Hc. pose proof (blob_received app _ _ _ _ Hq Ha Hc) as Hb. congruence. }
  assert (Hleft : ∀ k chg dels, payload_of (parent_in (known app) v) v = Some (chg, dels) →
     is_Some (staged_dir (uuid_to_string (v_id v)) s !! k) → k ∈ map path_of chg).
  { intros k chg dels Hpay Hk. unfold staged_dir in Hk.
    destruct (staged (r_scratch s) !! uuid_to_string (v_id v)) as [t|] eqn:Et; [|simpl in Hk; rewrite lookup_empty in Hk; by destruct Hk].
    destruct (Hsc _ _ Et) as (w & Hw & Hid%uuid_to_string_inj & Hkeys). rewrite Hid in Hv. rewrite Hw in Hv.
    injection Hv as <-. by apply (Hkeys chg dels). }
  split; [split_and!; [done| |done]|].
  { intros b n' Hc _. by rewrite (Hrecv b n' Hc). }
  unfold apply_version, mbind, M_bind, daemon, net.
  destruct (client_blob_get (v_blob_hash v) (d_net (r_daemon s))) as [[b|e] n'] eqn:Eg;
    destruct (call_reads (Device (GetBlob (to_hex (v_blob_hash v)))) _ _ _ _ eq_refl Hq Eg) as (Hq' & Ha' & _); cycle 1.
  { apply (settled_net app s); [done|done|by rewrite Ha'|done]. }
  rewrite (Hrecv b n' eq_refl). unfold save_archive, modify, verify_blob. simpl.
  destruct (decide _) as [Hh|Hh]; [|apply (settled_net app s); [done|done|by rewrite Ha'|exact Hsc]].
  unfold unpack_staged. simpl. change (staged_dir _ {| r_daemon := _; r_scratch := _; r_disk := _ |})
    with (staged_dir (uuid_to_string (v_id v)) s).
  destruct (packed_some _ _ _ Hpack) as [[chg dels] Hpay].
  destruct (unpack_packed (parent_in (known app) v) v archive (staged_dir (uuid_to_string (v_id v)) s) chg dels Hpack Hpay Hfiles)
    as (u & t' & -> & _ & [_ Hst]); [intros k; by apply (Hleft k chg dels)|].
  unfold gets, mret, M_ret. simpl. apply (settled_net app s); [done|done|by rewrite Ha'|]. intros dir t. simpl. rewrite lookup_insert.
  case_decide as Hdir; [|apply Hsc]. intros [= <-]. exists v. split; [done|]. split; [done|].
  intros chg' dels'. rewrite Hpay. intros [= <- <-]. exact Hst.
Qed.

Lemma chain_settles app l : (∀ v, v ∈ l → known app !! v_id v = Some v) →
  ∀ merged, Moves (settles app) (apply_chain l merged).
Proof.
  induction l as [|v l IH]; intros Hl merged; cbn [apply_chain]; [apply _|]. apply moves_bind; [apply _| |].
  - intros s Hs. rewrite apply_version_state. apply version_applies; [done..|]. by apply Hl, list_elem_of_here.
  - intros m. apply IH. intros w Hw. by apply Hl, list_elem_of_further.
Qed.

#[local] Instance on_disk_settles app f : Moves (settles app) (on_disk (St := World) f).
Proof. intros s [Ha Hd Hs]. unfold on_disk. by destruct (f (r_disk s)). Qed.
#[local] Instance swap_in_settles app anchor now files : Moves (settles app) (swap_in (St := World) anchor now files).
Proof. induction files as [|[rel b] files IH]; cbn [swap_in]; solve_moves. Qed.

(** The restored version is the new diff base. *)
Lemma dev_ok_rebase lib g v t st : lib !! v_id v = Some v → plain_files (v_files v) → dev_ok lib st →
  dev_ok lib (put_snapshot g (v_files v) t (Some (v_id v)) st).
Proof.
  intros Hv Hf [Hb Hh Hp Hi Hq].
  assert (Hget : ∀ g', get_snapshot g' (put_snapshot g (v_files v) t (Some (v_id v)) st) =
    if decide (g = g') then Some {| ss_files := v_files v; ss_taken_at := t; local_head := Some (v_id v) |}
    else get_snapshot g' st) by (intros g'; apply get_put_snapshot).
  constructor; [| | |done|done].
  - intros g' x p. rewrite Hget. case_decide; [|apply Hb]. intros [= <-] _ [= <-]. eauto.
  - intros g' p. unfold base_head. rewrite Hget. case_decide; [|apply Hh]. intros [= <-]. by eexists.
  - intros g' x f. rewrite Hget. case_decide; [|apply Hp]. intros [= <-]. apply (pf_plain _ Hf).
Qed.

Lemma put_base_settles app g v : known app !! v_id v = Some v →
  Moves (settles app) (daemon (St := World) (local (put_snapshot g (v_files v) (v_created_at v) (Some (v_id v))))).
Proof.
  intros Hv s [Ha [Hq Hl Hd Hc] Hs]. rewrite <- Ha in Hv, Hs |- *. constructor; [done| |done]. constructor; [done|done| |done].
  apply dev_ok_rebase; [done|apply (fit_files _ _ _ (lo_fits _ Hl _ _ Hv))|done].
Qed.

Lemma finish_settles app now req chain merged v : known app !! v_id v = Some v → list.last chain = Some v →
  Moves (settles app) (finish_restore (St := World) now req chain merged).
Proof.
  intros Hv Hl. unfold finish_restore. rewrite Hl. cbn [of_option].
  pose proof (put_base_settles app (rq_game_id req) v Hv). solve_moves.
Qed.

(** ** The history a device is given *)

Fixpoint linked lib (prev : option Version) (l : list Version) : Prop :=
  match l with
  | [] => True
  | v :: rest => lib !! v_id v = Some v ∧ payload_of prev v = payload_of (parent_in lib v) v ∧ linked lib (Some v) rest
  end.

Lemma linked_snoc lib l v : ∀ prev, linked lib prev l → lib !! v_id v = Some v →
  payload_of (match list.last l with Some p => Some p | None => prev end) v = payload_of (parent_in lib v) v →
  linked lib prev (l ++ [v]).
Proof.
  induction l as [|w l IH]; intros prev Hl Hv Hp; [by split_and!|]. destruct Hl as (Hw & Hwp & Hl).
  split_and!; [done|done|]. apply IH; [done|done|]. destruct l as [|x l]; [done|].
  change (list.last (w :: x :: l)) with (list.last (x :: l)) in Hp.
  destruct (list.last (x :: l)) eqn:E; [done|]. by apply list.last_None in E.
Qed.

Lemma chain_to_linked lib vs v l : (∀ w, w ∈ vs → lib !! v_id w = Some w) → chain_to vs v l → linked lib None l.
Proof.
  intros Hvs. induction 1 as [v Hv Hk|v p l Hv Hk Hp Hpar Hl IH].
  - simpl. split_and!; [by apply Hvs| |done]. unfold payload_of. by rewrite Hk.
  - apply linked_snoc; [done|by apply Hvs|]. destruct (chain_to_shape _ _ _ Hl) as [-> _].
    unfold parent_in. rewrite Hpar. simpl. by rewrite (Hvs p).
Qed.

Lemma linked_chain_ok app l : ∀ prev s, linked (known app) prev l → settled app s → chain_ok s prev l.
Proof.
  induction l as [|v l IH]; intros prev s; [done|]. intros (Hv & Hpay & Hl) Hs.
  destruct (version_applies app s v Hs Hv) as [(Hf & Hb & Hst) Hs']. split; [|by apply IH].
  split_and!; [done| |].
  - intros b n' Hg Hh. eapply packed_payload; [by eapply Hb|done].
  - intros k chg dels. rewrite Hpay. apply Hst.
Qed.

Lemma listed_known app game n vs n' : server_ok app → quiet n → app_of n = app →
  client_list_versions game n = (Ok vs, n') → history_ok vs ∧ ∀ v, v ∈ vs → known app !! v_id v = Some v.
Proof.
  intros Hok Hq <- Hc. destruct (call_reads (Device (ListVersions game)) _ _ _ _ eq_refl Hq Hc) as (_ & _ & Hans).
  destruct (Hans vs eq_refl) as (env & header & resp & Hr & Hb). simpl in Hr.
  destruct (authed env header (app_of n)) as [auth|e]; [|done]. cbn [andThen] in Hr. unfold fetch_versions in Hr.
  cbn [fst] in Hr. destruct (list_versions _ _ _) as [l|e] eqn:El; [|done]. simpl in Hr. injection Hr as <-.
  simpl in Hb. injection Hb as ->. split; [by eapply list_versions_history; [apply Hok|]|].
  intros v Hv. apply known_lookup; [done|]. destruct (list_versions_rows _ _ _ _ _ El Hv) as (r & Hr & _ & Er).
  exists r. split_and!; [done|symmetry; by eapply row_to_version_id|done].
Qed.

Lemma linked_known lib l : ∀ prev v, linked lib prev l → v ∈ l → lib !! v_id v = Some v.
Proof.
  induction l as [|w l IH]; intros prev v Hl Hv; [by apply elem_of_nil in Hv|]. destruct Hl as (Hw & _ & Hl).
  apply elem_of_cons in Hv as [->|Hv]; [done|by eapply IH].
Qed.

(** ** Whole restores *)

(** The restorer after the pre-restore backup. *)
Definition backed_up (env : BackupEnv) (dev : DeviceId) (req : RestoreRequest) s : Restorer World :=
  {| r_daemon := after_backup env dev req s; r_scratch := r_scratch s; r_disk := r_disk s |}.

Definition ready_to_restore (env : BackupEnv) (dev : DeviceId) (req : RestoreRequest) s : Prop :=
  backup_ready (on_this_disk env (r_disk s)) dev (Z.to_N u32_max) (pre_backup req) (d_local (r_daemon s)).

Lemma backed_up_settled env dev req s :
  let app := app_of (d_net (r_daemon s)) in let app1 := app_of (d_net (after_backup env dev req s)) in
  settled app s → ready_to_restore env dev req s →
  known app ⊆ known app1 ∧ settled app1 (backed_up env dev req s).
Proof.
  intros app app1 [_ Hd Hsc] Hready. subst app app1. unfold backed_up, after_backup.
  destruct (run_backup _ _ _ _ _ (r_daemon s)) as [r d] eqn:Er. cbn [snd].
  destruct (run_backup_grows _ _ _ _ _ _ _ _ Hd Hready Er) as (Hd' & Hsub & _).
  split; [done|]. constructor; [done|done|]. by apply (scratch_ok_grows (app_of (d_net (r_daemon s)))); [apply Hd|..].
Qed.

Lemma history_given env dev req s :
  settled (app_of (d_net (after_backup env dev req s))) (backed_up env dev req s) → given_history env dev req s.
Proof.
  set (app := app_of (d_net (after_backup env dev req s))). intros Hset vs n Hl.
  pose proof Hset as [_ [Hq Hlib _ _] Hsc]. cbn [backed_up r_daemon r_scratch] in Hq, Hsc. change (lib_ok app) in Hlib.
  destruct (listed_known app _ _ _ _ (lo_server _ Hlib) Hq eq_refl Hl) as [Hvs Hknown]. split; [done|].
  intros v l _ Hv. pose proof (Hknown v (chain_to_in _ _ _ Hv)) as Hin. split; [by apply (lo_fits _ Hlib _ _ Hin)|].
  destruct (call_reads (Device (ListVersions (rq_game_id req))) _ _ _ _ eq_refl Hq Hl) as (Hq' & Ha' & _).
  apply (linked_chain_ok app); [by eapply chain_to_linked|].
  by apply (settled_net app (backed_up env dev req s)).
Qed.

Lemma restore_settles env now dev req s r s' :
  let app1 := app_of (d_net (after_backup env dev req s)) in
  settled app1 (backed_up env dev req s) → run_restore env now dev req false s = (r, s') →
  (s' = s ∧ is_ok r = false) ∨ settled app1 s'.
Proof.
  intros app1 Hset. subst app1. pose proof Hset as [_ [Hq Hlib _ _] _]. cbn [backed_up r_daemon] in Hq, Hlib. revert Hset Hq Hlib.
  unfold run_restore. destruct (_ && _)%bool; [intros _ _ _ [= <- <-]; by left|].
  unfold mbind at 1, M_bind at 1, gets. unfold mbind at 1, M_bind at 1, attempt, daemon at 1.
  unfold backed_up, after_backup. destruct (run_backup _ _ _ _ _ (r_daemon s)) as [x d]. cbn [snd].
  set (app := app_of (d_net d)). intros Hset Hq Hlib Hr. right. revert Hr.
  destruct x as [o|e]; [|by intros [= _ <-]].
  unfold mbind at 1, M_bind at 1, daemon at 1, net at 1. cbn [r_daemon].
  destruct (client_list_versions (rq_game_id req) (d_net d)) as [y n] eqn:El.
  destruct (call_reads (Device (ListVersions (rq_game_id req))) _ _ _ _ eq_refl Hq El) as (Hq' & Ha' & _).
  pose proof (settled_net app _ n (r_scratch s) Hset Hq' Ha' (se_scratch _ _ Hset)) as Hmid.
  destruct y as [vs|e]; [|by intros [= _ <-]].
  destruct (listed_known app _ _ _ _ (lo_server _ Hlib) Hq eq_refl El) as [Hvs Hknown].
  destruct (build_chain_found vs Hvs (rq_version_id req) (chain_fuel vs)) as (z & -> & Hz); [done|].
  destruct z as [l|e]; [|by intros [= _ <-]]. destruct Hz as (v & Hid & Hl).
  pose proof (chain_to_linked (known app) vs v l Hknown Hl) as Hlink.
  destruct (chain_to_shape _ _ _ Hl) as [Hlast _].
  assert (Hrest : Moves (settles app) (merged ← apply_chain l ∅; finish_restore now req l merged)).
  { apply moves_bind; [apply _|apply chain_settles; intros w; by eapply linked_known|].
    intros merged. eapply finish_settles; [|exact Hlast]. by apply Hknown, (chain_to_in _ _ _ Hl). }
  intros E. match type of E with ?m ?st = _ => pose proof (Hrest st) as Hm; rewrite E in Hm end. exact (Hm Hmid).
Qed.

Lemma run_restore_grows env now dev req s r s' :
  let app := app_of (d_net (r_daemon s)) in let app' := app_of (d_net (r_daemon s')) in
  settled app s → ready_to_restore env dev req s →
  run_restore env now dev req false s = (r, s') →
  known app ⊆ known app' ∧ settled app' s' ∧
  match r with
  | Ok _ => restored env dev req s s' ∧ app' = app_of (d_net (after_backup env dev req s))
  | Err e => e ≠ Hang ∧ (e ≠ FileError → r_disk s' = r_disk s)
  end.
Proof.
  intros app app' Hset Hready Hr. subst app app'.
  destruct (backed_up_settled env dev req s Hset Hready) as [Hsub Hset1].
  pose proof (run_restore_ok env now dev req s (history_given _ _ _ _ Hset1)
    (λ prev f Hg Hf, dv_plain _ _ (dk_dev _ (se_daemon _ _ Hset1)) _ _ _ Hg Hf)) as Hspec. rewrite Hr in Hspec.
  destruct (restore_settles env now dev req s r s' Hset1 Hr) as [[-> Hno]|Hset'].
  - split_and!; [done|done|]. by destruct r.
  - pose proof (se_app _ _ Hset') as Happ. rewrite Happ. split_and!; [done|done|]. by destruct r as [[]|e].
Qed.

(** ** Drains *)

(** No later backup of a game with a queued upload has gone through. *)
Definition held st : Prop :=
  ∀ r p, r ∈ outbox st → from_slice (ob_payload r) = Some p → is_unconfirmed (op_game_id p) st = true.

(** The server has recorded a version for it. *)
Definition recorded app (p : OutboxPayload) : Prop :=
  ∃ v, known app !! v_id v = Some v ∧ made_from (op_game_id p) (op_create_version p) v.

Lemma head_moved lib g id st : dev_ok lib st → is_unconfirmed g st = true → is_Some (lib !! id) →
  dev_ok lib (set_local_head g id st).
Proof.
  intros [Hb Hh Hp Hi Hq] Hu Hid.
  assert (Hget : ∀ g' x, get_snapshot g' (set_local_head g id st) = Some x → ∃ y, get_snapshot g' st = Some y ∧
    ss_files x = ss_files y ∧ (x = y ∨ (g' = g ∧ local_head x = Some id))).
  { intros g' x. unfold get_snapshot, set_local_head. simpl. rewrite lookup_alter. case_decide; [subst|by eauto].
    destruct (local_snapshots st !! _) as [y|]; [|done]. intros [= <-]. exists y. by eauto. }
  constructor; [| | |done|done].
  - intros g' x p Hx Hun Hhd. destruct (Hget _ _ Hx) as (y & Hy & Hfy & [->|[-> _]]); [by apply (Hb g' y p)|].
    change (is_unconfirmed g st = false) in Hun. congruence.
  - intros g' p Hhd. unfold base_head in Hhd. destruct (get_snapshot g' _) as [x|] eqn:Hx; [|done]. simpl in Hhd.
    destruct (Hget _ _ Hx) as (y & Hy & _ & [->|[_ E]]); [|congruence]. apply (Hh g'). unfold base_head. by rewrite Hy.
  - intros g' x f Hx. destruct (Hget _ _ Hx) as (y & Hy & -> & _). by apply (Hp g').
Qed.

Lemma outbox_kept lib st st' :
  (∀ g, get_snapshot g st' = get_snapshot g st) →
  (∀ g, get_meta (unconfirmed_key g) st' = get_meta (unconfirmed_key g) st) →
  NoDup (map ob_version_id (outbox st')) →
  (∀ r, r ∈ outbox st' → ∃ r0, r0 ∈ outbox st ∧ ob_payload r0 = ob_payload r) →
  dev_ok lib st → held st → dev_ok lib st' ∧ held st'.
Proof.
  intros Hs Hm Hnd Hr Hd Hh. split; [by eapply dev_ok_frame|]. intros r p (r0 & Hr0 & <-)%Hr Hp.
  unfold is_unconfirmed. rewrite Hm. by eapply Hh.
Qed.

Lemma removed_kept lib id done_at st : dev_ok lib st → held st →
  (dev_ok lib (remove_outbox id st) ∧ held (remove_outbox id st)) ∧
  (dev_ok lib (remove_outbox id (set_last_backup_at done_at st)) ∧ held (remove_outbox id (set_last_backup_at done_at st))).
Proof.
  intros Hd Hh.
  assert (Hrow : ∀ r, r ∈ List.filter (λ r, negb (is_item id r)) (outbox st) →
    ∃ r0, r0 ∈ outbox st ∧ ob_payload r0 = ob_payload r) by (intros r [Hr _]%elem_of_filter_bool; eauto).
  split; (apply (outbox_kept lib st); [done| |apply NoDup_key_filter, Hd|exact Hrow|done|done]); [done|].
  intros g. by apply (get_unconfirmed_other g).
Qed.

Lemma bumped_kept lib id t st : dev_ok lib st → held st →
  dev_ok lib (bump_outbox_attempt id t st) ∧ held (bump_outbox_attempt id t st).
Proof.
  intros Hd Hh. apply (outbox_kept lib st); [done|done| | |done|done].
  - simpl. rewrite map_update_where; [apply Hd|done].
  - intros r (r0 & Hr0 & ->)%elem_of_update_where. exists r0. split; [done|]. by destruct (is_item id r0).
Qed.

(** What a retry keeps, on top of a library. *)
Definition draining lib d : Prop := daemon_ok d ∧ lib ⊆ known (app_of (d_net d)) ∧ held (d_local d).

Lemma upload_queued d r p x d1 : daemon_ok d → r ∈ outbox (d_local d) → from_slice (ob_payload r) = Some p →
  upload_version (op_game_id p) (op_create_version p) (cache_name (blob_hex p)) d = (x, d1) →
  quiet (d_net d1) ∧ lib_ok (app_of (d_net d1)) ∧ known (app_of (d_net d)) ⊆ known (app_of (d_net d1)) ∧
  ∀ o, x = Ok o → known (app_of (d_net d1)) !! v_id (version_of o) = Some (version_of o) ∧ recorded (app_of (d_net d1)) p.
Proof.
  intros [Hq Hlib Hdev Hcache] Hr Hp Hu. destruct (dv_queue _ _ Hdev r Hr) as (p' & Hp' & archive & Hmade & Hhex).
  rewrite Hp in Hp'. injection Hp' as <-.
  assert (Hs : sendable (known (app_of (d_net d))) (op_create_version p) archive (app_of (d_net d))) by by constructor.
  assert (Hc : ∀ b, d_cache d !! cache_name (blob_hex p) = Some b → b = archive).
  { intros b. rewrite Hhex. intros [Hb E]%Hcache. apply in_play_inj; [done|apply Hmade|done]. }
  destruct (upload_keeps _ _ _ _ _ _ _ _ Hq Hs Hc Hu) as (Hq1 & Hs1 & Hann).
  split_and!; [done|apply Hs1|apply Hs1|]. intros o ->. destruct (Hann o eq_refl) as [Hk _]. split; [done|].
  exists (version_of o). split; [done|]. by eapply upload_version_made.
Qed.

Lemma retry_keeps lib now done_at r d : draining lib d → r ∈ outbox (d_local d) →
  ∃ d', retry_item now done_at (item_of r) d = (Ok tt, d') ∧ draining lib d' ∧
    (∀ p, recorded (app_of (d_net d)) p → recorded (app_of (d_net d')) p) ∧
    retried (recorded (app_of (d_net d'))) now (item_of r) (d_local d) (d_local d').
Proof.
  intros (Hok & Hsub & Hheld) Hr. pose proof Hok as [Hq Hlib Hdev Hcache].
  destruct (dv_queue _ _ Hdev r Hr) as (p & Hp & _).
  pose proof (retry_item_drops now done_at (item_of r) d) as Hdrop.
  unfold retry_item in Hdrop |- *. unfold retried. simpl in Hdrop |- *. rewrite Hp in Hdrop |- *.
  unfold mbind at 1, M_bind at 1, attempt in Hdrop. unfold mbind at 1, M_bind at 1, attempt.
  destruct (upload_version _ _ _ d) as [x d1] eqn:Eu.
  pose proof (upload_version_local (op_game_id p) (op_create_version p) (cache_name (blob_hex p)) d) as Hl.
  rewrite Eu in Hl. simpl in Hl.
  destruct (upload_queued d r p x d1 Hok Hr Hp Eu) as (Hq1 & Hlib1 & Hsub1 & Hann).
  assert (Hgrow : ∀ q, recorded (app_of (d_net d)) q → recorded (app_of (d_net d1)) q).
  { intros q (v & Hv & Hm). exists v. split; [by eapply lookup_weaken|done]. }
  assert (Hdone : ∀ d', d_net d' = d_net d1 → d_cache d' ⊆ d_cache d →
    dev_ok (known (app_of (d_net d1))) (d_local d') ∧ held (d_local d') → draining lib d').
  { intros d' Hn Hc [Hd' Hh']. split; [|by rewrite Hn; split; [etrans|]].
    constructor; rewrite ?Hn; [done..|by eapply cache_ok_sub]. }
  pose proof (dev_ok_grows _ _ _ Hsub1 Hdev) as Hdev1. rewrite <- Hl in Hdev1, Hheld.
  assert (Hsent : ∀ o, x = Ok o → ∀ t st, st = set_local_head (op_game_id p) (v_id (version_of o)) (d_local d1) →
    (dev_ok (known (app_of (d_net d1))) (remove_outbox (ob_version_id r) st) ∧ held (remove_outbox (ob_version_id r) st)) ∧
    dev_ok (known (app_of (d_net d1))) (remove_outbox (ob_version_id r) (set_last_backup_at t st)) ∧
    held (remove_outbox (ob_version_id r) (set_last_backup_at t st))).
  { intros o Hx t st ->. apply removed_kept; [|exact Hheld]. apply head_moved; [done| |].
    - rewrite Hl in Hheld |- *. by eapply Hheld.
    - destruct (Hann o Hx) as [Hk _]. by eexists. }
  destruct x as [[v|hd v]|e]; (eexists; split; [done|]); (split; [apply Hdone; [done|exact Hdrop|]|split; [exact Hgrow|]]).
  - by apply (Hsent _ eq_refl done_at).
  - left. split; [simpl; by rewrite Hl|]. right. exists p. split; [done|]. by apply (Hann _ eq_refl).
  - by apply (Hsent _ eq_refl done_at).
  - left. split; [simpl; by rewrite Hl|]. right. exists p. split; [done|]. by apply (Hann _ eq_refl).
  - by apply bumped_kept.
  - right. simpl. by rewrite Hl.
Qed.

(** A drain keeps device and library sound; what leaves the outbox is recorded. *)
Lemma retry_outbox_grows now done_at d : daemon_ok d → held (d_local d) →
  ∃ d', retry_outbox now done_at d = (Ok tt, d') ∧ daemon_ok d' ∧
    known (app_of (d_net d)) ⊆ known (app_of (d_net d')) ∧ held (d_local d') ∧
    ∀ r, r ∈ outbox (d_local d) → r ∈ outbox (d_local d') ∨ (due now r = true ∧ (put_off now r ∈ outbox (d_local d') ∨
      ∃ p, from_slice (ob_payload r) = Some p ∧ recorded (app_of (d_net d')) p)).
Proof.
  intros Hd Hh.
  destruct (retry_outbox_ok now done_at (draining (known (app_of (d_net d)))) (λ p d, recorded (app_of (d_net d)) p))
    with d as (d' & Hr & (Hd' & Hsub & Hh') & Hall); [intros r d1; apply retry_keeps|by split_and!|apply Hd|].
  exists d'. split_and!; [done|done|done|done|]. intros r Hin. destruct (Hall r Hin) as [?|[Hdue [?|[Hno|?]]]]; [by left|by right; eauto| |by right; eauto].
  destruct (dv_queue _ _ (dk_dev _ Hd) r Hin) as (p & Hp & _). congruence.
Qed.
End Fleet.
