(* ===== verification/DaemonDemo.v ===== *)
(** * Worked runs of the daemon

    One device backing up a directory [/s] of small files to the server of
    Demo.v, over a link that works, fails or loses answers. *)

From S2P Require Import Prelude CoreTypes ServerError Auth Blobs Hub ServerDb ServerGc ServerApi Instances ServerSystem Demo Snapshot SnapshotSpec Archive ArchiveSpec IpcFrame CoreInstances LocalState Client Backup Restore DaemonInstances ChainSpec RestoreSpec TreeSpec BackupSpec DiskSpec RestoreRun.

(** A file is its name and its one byte. *)
Definition files_in (l : list (string * N)) : list (string * Node) :=
  map (λ '(p, n), (p, FileN 0 [byte_of (Z.of_N n)])) l.
Definition disk (l : list (string * N)) : Node := DirN [("/", DirN [("s", DirN (files_in l))])].

Definition benv (root : Node) (t : Z) (outbox_id : N) : BackupEnv := {|
  b_root := root; b_pack_root := root; b_taken_at := secs t; b_packed_at := secs t; b_done_at := secs t;
  b_tmp_id := 99; b_outbox_id := outbox_id |}.

Definition save_anchor : Path := ["/"; "s"].
Definition job : BackupJob := {|
  job_game_id := the_game; patterns := ["/s"]; anchor := save_anchor; registry_keys := []; job_excludes := [] |}.

Definition paired : ServerClient := {|
  access := Some (mint_access_token "key" 0 the_account the_device);
  creds := Some {| cred_device_id := the_device; cred_account_id := the_account; refresh_secret := "0aff" |} |}.

Definition fresh_daemon (app : AppState) : Daemon World :=
  {| d_local := LocalState_open; d_cache := ∅; d_net := (paired, {| w_app := app; w_links := [] |}) |}.

Definition link (ls : list Link) (d : Daemon World) : Daemon World :=
  {| d_local := d_local d; d_cache := d_cache d; d_net := (fst (d_net d), {| w_app := w_app (snd (d_net d)); w_links := ls |}) |}.
Definition served (k : nat) (id : N) (t : Z) : list Link := replicate k (Served (env_at id t)).

Definition backup (l : list (string * N)) (t : Z) (outbox_id : N) (ls : list Link) (d : Daemon World)
    : result AnyError BackupOutcome * Daemon World :=
  run_backup (benv (disk l) t outbox_id) true the_device 10 job (link ls d).

Definition server_of (d : Daemon World) : AppState := w_app (snd (d_net d)).

Definition restorer (d : Daemon World) (l : list (string * N)) : Restorer World :=
  {| r_daemon := d; r_scratch := {| staged := ∅; archives := ∅ |}; r_disk := disk l |}.
Definition restore_req (id : VersionId) : RestoreRequest :=
  {| rq_game_id := the_game; rq_version_id := id; rq_anchor := save_anchor; rq_patterns := ["/s"]; rq_registry_keys := [] |}.

Lemma link_local ls d : d_local (link ls d) = d_local d.
Proof. done. Qed.

(** A full version 10, then a differential 11. *)
Definition saved1 : Daemon World := snd (backup [("a", 1%N)] 5 50 (served 3 10 5) (fresh_daemon ready)).
Definition saved2 : Daemon World := snd (backup [("a", 2%N); ("b", 1%N)] 6 51 (served 3 11 6) saved1).

(** A backup queued offline, the next one made online, then the outbox drained,
    then one more backup, 14. *)
Definition queued : Daemon World := snd (backup [("a", 2%N)] 6 51 [Down] saved1).
Definition overtaken : Daemon World := snd (backup [("a", 2%N); ("b", 1%N)] 7 52 (served 3 12 7) queued).
Definition drained : Daemon World := snd (retry_outbox (secs 8) (secs 8) (link (served 3 13 8) overtaken)).
Definition saved14 : Daemon World := snd (backup [("a", 3%N); ("b", 1%N)] 9 53 (served 3 14 9) drained).

(** ** Checks the examples evaluate *)

Definition normal_nameb (s : string) : bool :=
  negb (bool_decide (s = "")) && negb (bool_decide (s = ".")) && negb (bool_decide (s = "..")) && negb (has_char slash s).
Definition plainb (f : FileEntry) : bool :=
  negb (bool_decide (path_of f = [])) && forallb normal_nameb (path_of f) && bool_decide (rel_path f = join "/" (path_of f)).
Definition plain_filesb (files : list FileEntry) : bool :=
  bool_decide (NoDup (map rel_path files)) && forallb plainb files &&
  forallb (λ a, forallb (λ b, negb (strict_prefix a b)) (map path_of files)) (map path_of files).

Lemma normal_nameb_ok s : normal_nameb s = true → normal_name s.
Proof. unfold normal_nameb. intros Hb. bool_simpl. by split_and!. Qed.

Lemma plainb_ok f : plainb f = true → plain f.
Proof.
  unfold plainb. intros Hb. bool_simpl. split_and!; [done| |done].
  apply list.Forall_forall. intros x Hx. apply normal_nameb_ok.
  match goal with Hf : forallb _ _ = true |- _ => rewrite forallb_forall in Hf; apply Hf; by apply list_elem_of_In end.
Qed.

Lemma plain_filesb_ok files : plain_filesb files = true → plain_files files.
Proof.
  unfold plain_filesb. rewrite !andb_true_iff, !forallb_forall. intros [[H1 H2] H3]. constructor.
  - by apply bool_decide_eq_true in H1.
  - intros f Hf. by apply plainb_ok, H2, list_elem_of_In.
  - intros a b Ha Hb. apply list_elem_of_In in Ha, Hb. specialize (H3 a Ha). rewrite forallb_forall in H3.
    specialize (H3 b Hb). by apply negb_true_iff.
Qed.

Lemma disk_save_dir l :
  bool_decide (NoDup (map fst l)) = true → forallb normal_nameb (map fst l) = true → save_dir (disk l) save_anchor ["/s"].
Proof.
  intros Hnd%bool_decide_eq_true Hn.
  assert (Hfst : map fst (files_in l) = map fst l).
  { unfold files_in. rewrite map_map. apply map_ext. by intros []. }
  constructor.
  - exists (files_in l). split; [done|]. constructor.
    + by rewrite Hfst.
    + rewrite Hfst. apply list.Forall_forall. intros x Hx%list_elem_of_In.
      rewrite forallb_forall in Hn. by apply normal_nameb_ok, Hn.
    + apply list.Forall_forall. intros n ([x y] & -> & Hx)%list_elem_of_fmap.
      apply list_elem_of_fmap in Hx as ([u w] & [= -> ->] & _). constructor.
  - intros pat paths p ->%list_elem_of_singleton. vm_compute. intros [= <-] ->%list_elem_of_singleton.
    exists []. by split.
Qed.

Definition history_okb (vs : list Version) : bool :=
  bool_decide (NoDup (map v_id vs)) &&
  forallb (λ v, forallb (λ w, negb (bool_decide (v_parent v = Some (v_id w))) || bool_decide (v_seq w < v_seq v)%Z) vs) vs.

Lemma history_okb_ok vs : history_okb vs = true → history_ok vs.
Proof.
  unfold history_okb. rewrite andb_true_iff, forallb_forall. intros [H1 H2]. constructor.
  - by apply bool_decide_eq_true in H1.
  - intros v w Hv Hw Hp. apply list_elem_of_In in Hv, Hw. specialize (H2 v Hv). rewrite forallb_forall in H2.
    specialize (H2 w Hw). rewrite bool_decide_eq_true_2 in H2 by done. by apply bool_decide_eq_true in H2.
Qed.

(** The version a run created, and what a call returned. *)
Definition nowhere : Version := {|
  v_id := 0; v_game_id := 0; v_device_id := 0; v_parent := None; v_kind := Full; v_files := [];
  v_blob_hash := mk_hash 0; v_bytes := 0; v_seq := 0; v_created_at := 0 |}.
Definition sent (r : result AnyError BackupOutcome * Daemon World) : Version :=
  match fst r with Ok (Uploaded v) | Ok (Conflicted _ v) => v | _ => nowhere end.
Definition got {A} (dflt : A) (r : result AnyError A) : A := match r with Ok a => a | Err _ => dflt end.

Lemma got_ok {A S} (dflt a : A) (m : result AnyError A * S) s :
  m = (Ok a, s) → a = got dflt (fst m) ∧ s = snd m.
Proof. by intros ->. Qed.

Definition v10 : Version := sent (backup [("a", 1%N)] 5 50 (served 3 10 5) (fresh_daemon ready)).
Definition v11 : Version := sent (backup [("a", 2%N); ("b", 1%N)] 6 51 (served 3 11 6) saved1).
Definition known10 : gmap VersionId Version := {[ 10%N := v10 ]}.

Lemma saved1_base : base_ok known10 the_game (d_local saved1).
Proof.
  intros s p Hs _ Hh.
  assert (He : ∃ s0, get_snapshot the_game (d_local saved1) = Some s0 ∧ local_head s0 = Some 10%N ∧ ss_files s0 = v_files v10)
    by (vm_compute; eauto).
  destruct He as (s0 & Hs0 & Hh0 & Hf). rewrite Hs in Hs0. injection Hs0 as ->. rewrite Hh in Hh0. injection Hh0 as ->.
  exists v10. split; [apply lookup_singleton_eq|done].
Qed.
