(* ===== verification/DaemonTheorems.v ===== *)
(** * savr-daemon: theorems about backups and restores *)

From S2P Require Import Prelude CoreTypes ServerError Auth Blobs Hub ServerDb ServerGc ServerApi DbWf Instances ServerSystem Demo Snapshot SnapshotSpec Archive ArchiveSpec IpcFrame CoreInstances LocalState Client ClientSpec Backup Restore DaemonInstances ChainSpec RestoreSpec TreeSpec BackupSpec DiskSpec RestoreRun OutboxSpec DaemonDemo.

Section Theorems.
Context {St : Type} `{SV : Server St} `{!ServerLaws St} `{HI : HashIter} `{!HashIterLaws}.
Context `{B3 : Blake3} `{U : UuidText} `{!UuidTextLaws} `{G : Glob} `{T : Tar} `{!TarLaws} `{MJ : MetaJson} `{!MetaJsonLaws}
        `{JO : Json OutboxPayload} `{TD : TextForm DateTime}.

(** C6. Every version a backup creates is sent with an archive that fits it: all
    the files it lists for a full one, and for a differential the change from
    the content of the very version its parent names, on any server.  So long
    as the diff base is that of its head, the files lie below the save
    directory, and they stand still while they are packed. *)
Theorem backup_archives_fit env client dev full_every job (d : Daemon St) o d' known v :
  run_backup env client dev full_every job d = (Ok o, d') →
  (o = Uploaded v ∨ ∃ hd, o = Conflicted hd v) →
  b_pack_root env = b_root env → save_dir (b_root env) (anchor job) (patterns job) →
  base_ok known (job_game_id job) (d_local d) →
  plain_files (v_files v) ∧
  ∃ archive, v_blob_hash v = hash_of archive ∧ packed (v_parent v ≫= λ p, known !! p) v archive.
Proof.
  intros Hr Ho Hroot Hsd Hbase. apply run_backup_ok in Hr.
  destruct Ho as [->|[hd ->]]; destruct Hr as (create & new & archive & Hpk & Hm & _);
    destruct (packs_fit _ _ _ _ _ _ _ _ v known Hpk Hm Hroot Hsd Hbase) as (? & ? & ?); eauto.
Qed.

(** C8. Backups keep the diff base sound: for every game, whatever a run does
    and however it ends, stored files that are not marked unconfirmed remain
    those of the version the local head names, given that the server mints
    fresh ids; and a run that fails leaves the database alone. *)
Theorem backup_keeps_the_diff_base env client dev full_every job (d : Daemon St) known g :
  base_ok known g (d_local d) →
  match run_backup env client dev full_every job d with
  | (Ok o, d') => new_version o known → base_ok (told o known) g (d_local d')
  | (Err _, d') => d_local d' = d_local d
  end.
Proof.
  intros Hbase. destruct (run_backup env client dev full_every job d) as [[o|e] d'] eqn:Er;
    apply run_backup_ok in Er; [|done].
  destruct o; try (destruct Er as (create & new & archive & Hpk & Hdel); intros Hnew;
    eapply delivered_base; [exact Hdel|apply Hpk|done..]).
  intros _. by rewrite Er.
Qed.


(** C37. A restore is refused while the game runs and when the game has no known
    save paths, with nothing changed at all, and aborted with disk and scratch
    as they were when the pre-restore backup fails. *)
Theorem restore_refuses_safely env now dev req (s : Restorer St) :
  (∃ m, run_restore env now dev req true s = (Err (Bail m), s)) ∧
  (rq_patterns req = [] → rq_registry_keys req = [] →
   ∃ m, run_restore env now dev req false s = (Err (Bail m), s)) ∧
  (∀ e d, run_backup (on_this_disk env (r_disk s)) true dev (Z.to_N u32_max) (pre_backup req) (r_daemon s) = (Err e, d) →
   ∃ m s', run_restore env now dev req false s = (Err (Bail m), s') ∧ r_disk s' = r_disk s ∧ r_scratch s' = r_scratch s).
Proof. apply run_restore_refuses. Qed.

(** The outbox loses nothing.  A drain always completes, and each queued
    upload is afterwards still queued unchanged, or was due and is put off by
    between one second and five minutes with one more attempt counted, or was
    due and has been answered by the server or cannot be parsed. *)
Theorem outbox_keeps_unanswered_uploads now done_at (d : Daemon St) :
  NoDup (map ob_version_id (outbox (d_local d))) →
  (∀ a, (0 <= a)%Z → (1 <= backoff_delay a <= 300)%Z ∧ backoff_delay a = (if decide (a < 9)%Z then 2 ^ a else 300)%Z) ∧
  ∃ d', retry_outbox now done_at d = (Ok tt, d') ∧
    ∀ r, r ∈ outbox (d_local d) →
      r ∈ outbox (d_local d') ∨
      (due now r = true ∧ (put_off now r ∈ outbox (d_local d') ∨
         from_slice (T := OutboxPayload) (ob_payload r) = None ∨
         ∃ p, from_slice (ob_payload r) = Some p ∧ answered (St := St) p)).
Proof.
  intros Hnd. split; [intros a Ha; by destruct (backoff_values a Ha)|].
  destruct (retry_outbox_ok now done_at (λ _, True) (λ p _, answered (St := St) p)) with d as (d' & Hd & _ & Hall);
    [|done|done|by exists d'].
  intros r d1 _ _. destruct (retry_item_ok now done_at (item_of r) d1) as (d2 & -> & Hr). eauto.
Qed.
End Theorems.

(** ** A crash while queueing *)

Section Queue.
Context `{B3 : Blake3} `{U : UuidText} `{JO : Json OutboxPayload} `{!JsonLaws OutboxPayload}.

(** A crash while queueing loses no upload, but can leave the base unmarked.
    [queue_backup] makes three writes.  Stopped after any number of them, the
    stored snapshot has changed only if the upload is in the outbox, whole; and
    stopped after two, it has changed without the game being marked
    unconfirmed, so with a head and few diffs the next backup is a differential
    against content no version of the server holds. *)
Theorem queue_backup_crash_points env g create h files taken parent (st : LocalState) k :
  let st' := run_steps (take k (queue_steps env g create h files taken parent)) st in
  (get_snapshot g st' = get_snapshot g st ∨
   ∃ r, r ∈ outbox st' ∧
     from_slice (ob_payload r) = Some {| op_game_id := g; blob_hex := to_hex h; op_create_version := create |}) ∧
  (k = 2 → get_snapshot g st' = Some {| ss_files := files; ss_taken_at := taken; local_head := parent |} ∧
     is_unconfirmed g st' = is_unconfirmed g st ∧
     ∀ prior full_every, is_Some parent → (prior < full_every)%N → is_unconfirmed g st = false →
       choose_kind parent prior full_every (is_unconfirmed g st') = Differential).
Proof.
  cbv zeta. split.
  - assert (Hq : ∃ r, r ∈ outbox (enqueue env g create h st) ∧
      from_slice (ob_payload r) = Some {| op_game_id := g; blob_hex := to_hex h; op_create_version := create |}).
    { eexists. split; [simpl; apply elem_of_app; right; apply list_elem_of_here|]. simpl. apply from_slice_to_vec. }
    destruct k as [|[|[|k]]]; [by left|by left|by right|right].
    rewrite take_ge by (simpl; lia). exact Hq.
  - intros ->. split_and!; [|done|].
    + apply lookup_insert_eq.
    + intros prior full_every [p ->] Hlt Hu. unfold choose_kind.
      change (is_unconfirmed g _) with (is_unconfirmed g st). rewrite Hu.
      rewrite (proj2 (N.leb_gt _ _)) by lia. done.
Qed.
End Queue.

(** ** Chains on this server *)

Section Chains.
Context `{B3 : Blake3} `{!Blake3Laws} `{A2 : Argon2} `{J : Jwt} `{U : UuidText}.

(** C17. On any history a reachable server lists, [build_chain] returns: the
    chain from a full version to the target, each differential after its
    parent, when there is one, and an error when there is none.  Its loop takes
    at most two steps more than there are versions. *)
Theorem restore_chain_found_or_refused app account game vs target :
  reachable app → list_versions account game (app_db app) = Ok vs →
  ∃ r, build_chain (2 + length vs) vs target = Some r ∧
    match r with
    | Ok l => ∃ v, v_id v = target ∧ chain_to vs v l
    | Err e => ∀ v l, v_id v = target → ¬ chain_to vs v l
    end.
Proof.
  intros Hreach Hl. pose proof (reachable_ok _ Hreach) as [Hwf _ _].
  destruct (build_chain_found vs (list_versions_history _ _ _ _ Hwf Hl) target (2 + length vs)) as (r & Hr & Hs); [done|].
  exists r. split; [done|]. destruct r; [done|]. by apply Hs.
Qed.
End Chains.

(** ** Witnesses *)

Lemma backup_archives_fit_witness :
  ∃ archive, v_kind v11 = Differential ∧ v_blob_hash v11 = hash_of archive ∧
    packed (v_parent v11 ≫= λ p, known10 !! p) v11 archive.
Proof.
  assert (Ho : fst (backup [("a", 2%N); ("b", 1%N)] 6 51 (served 3 11 6) saved1) = Ok (Uploaded v11)) by (vm_compute; reflexivity).
  destruct (backup_archives_fit (benv (disk [("a", 2%N); ("b", 1%N)]) 6 51) true the_device 10 job
    (link (served 3 11 6) saved1) (Uploaded v11) saved2 known10 v11) as (_ & archive & Hh & Hp).
  - transitivity (fst (backup [("a", 2%N); ("b", 1%N)] 6 51 (served 3 11 6) saved1), saved2); [apply surjective_pairing|].
    by rewrite Ho.
  - by left.
  - exact eq_refl.
  - apply disk_save_dir; by vm_compute.
  - rewrite link_local. exact saved1_base.
  - exists archive. split; [by vm_compute|]. split; [exact Hh|exact Hp].
Defined.

Lemma backup_keeps_the_diff_base_witness :
  base_ok (<[11%N := v11]> known10) the_game (d_local saved2).
Proof.
  assert (Hb0 : base_ok known10 the_game (d_local (link (served 3 11 6) saved1))) by (rewrite link_local; exact saved1_base).
  pose proof (backup_keeps_the_diff_base (benv (disk [("a", 2%N); ("b", 1%N)]) 6 51) true the_device 10 job
    (link (served 3 11 6) saved1) known10 the_game Hb0) as Hb.
  assert (Ho : fst (backup [("a", 2%N); ("b", 1%N)] 6 51 (served 3 11 6) saved1) = Ok (Uploaded v11)) by (vm_compute; reflexivity).
  assert (Hs : snd (backup [("a", 2%N); ("b", 1%N)] 6 51 (served 3 11 6) saved1) = saved2) by exact eq_refl.
  unfold backup in Ho, Hs. destruct (run_backup _ _ _ _ _ _) as [r d']. cbn [fst snd] in Ho, Hs. subst r d'.
  assert (Hid : v_id v11 = 11%N) by by vm_compute. rewrite <- Hid. apply Hb.
  unfold new_version. rewrite Hid. reflexivity.
Defined.

(** Restoring version 11 over a changed file. *)
Definition changed_disk : Restorer World := restorer (link (served 6 15 10) saved2) [("a", 5%N)].
Definition renv : BackupEnv := benv OtherN 10 54.

Definition listing := client_list_versions the_game (d_net (after_backup renv the_device (restore_req 11) changed_disk)).
Definition listed11 : list Version := got [] (fst listing).
Definition applying : Restorer World := after_listing renv the_device (restore_req 11) changed_disk (snd listing).

(** The archive of a version of the demo, as its run packed it. *)
Lemma demo_packed prev v chg dels l t b :
  payload_of prev v = Some (chg, dels) →
  pack (read_file (disk l)) {| am_game_id := the_game; am_device_id := the_device; am_parent := v_parent v;
    am_kind := v_kind v; am_files := v_files v; am_deletions := dels; am_created_at := secs t |}
    (build_payload chg save_anchor) None = Ok b →
  forallb (λ f, match read_file (disk l) (path_join save_anchor (rel_path f)) with
                | Some c => bool_decide (hash_of c = hash f) | None => true end) chg = true →
  packed prev v b.
Proof.
  intros Hp Hb Hr. eexists _, _, save_anchor, None, chg, dels. split; [done|]. split; [|split; [exact Hb|]]; [done|].
  intros f c Hf Hc. rewrite forallb_forall in Hr. apply list_elem_of_In in Hf. specialize (Hr f Hf).
  rewrite Hc in Hr. by apply bool_decide_eq_true in Hr.
Qed.

Lemma applying_ok : chain_ok applying None [v10; v11].
Proof.
  assert (Hno : ∀ (s : Restorer World) id k (P : Prop),
    staged_dir (uuid_to_string id) s = ∅ → is_Some (staged_dir (uuid_to_string id) s !! k) → P).
  { intros s id k P -> Hs. rewrite lookup_empty in Hs. by destruct Hs. }
  split; [|split; [|done]].
  - split; [apply plain_filesb_ok; by vm_compute|]. split.
    + intros b n' [-> _]%(got_ok []) _.
      apply (demo_packed None v10 (v_files v10) [] [("a", 1%N)] 5); by vm_compute.
    + intros k chg dels _. apply Hno. by vm_compute.
  - split; [apply plain_filesb_ok; by vm_compute|]. split.
    + intros b n' [-> _]%(got_ok []) _.
      apply (demo_packed (Some v10) v11 (changed (diff (snapshot_of v10) (snapshot_of v11))) []
               [("a", 2%N); ("b", 1%N)] 6); by vm_compute.
    + intros k chg dels _. apply Hno. by vm_compute.
Qed.

Lemma demo_names : save_names ["a"; "b"].
Proof.
  intros k Hk. exists [k]. rewrite !elem_of_cons in Hk.
  destruct Hk as [->|[->|Hk]]; [| |by apply elem_of_nil in Hk];
    (split; [done|]; split; [done|]; split; [by repeat constructor|]; intros [|y [|z d]] x; try done;
     intros [= E]; destruct x as [|c [|c' x]]; by vm_compute in E).
Qed.

Lemma demo_chain : history_ok listed11 → chain_to listed11 v11 [v10; v11].
Proof.
  intros Hvs.
  assert (H10 : v10 ∈ listed11) by (apply (found (λ v, bool_decide (v_id v = 10%N))); by vm_compute).
  assert (H11 : v11 ∈ listed11) by (apply (found (λ v, bool_decide (v_id v = 11%N))); by vm_compute).
  apply (chain_diff listed11 v11 v10 [v10]); [exact H11|by vm_compute|exact H10|by vm_compute|].
  apply chain_full; [exact H10|by vm_compute].
Qed.

Lemma demo_history : given_history renv the_device (restore_req 11) changed_disk.
Proof.
  intros vs n [-> ->]%(got_ok []). fold listing. fold listed11. fold applying.
  assert (Hvs : history_ok listed11) by (apply history_okb_ok; by vm_compute).
  split; [exact Hvs|]. intros v l Hid Hl. pose proof (demo_chain Hvs) as H11.
  assert (Hv : v = v11).
  { apply (NoDup_key_inj v_id listed11); [apply Hvs|exact (chain_to_in _ _ _ Hl)|exact (chain_to_in _ _ _ H11)|].
    rewrite Hid. by vm_compute. }
  subst v. rewrite (chain_to_det listed11 Hvs v11 l Hl _ H11). split; [|exact applying_ok].
  assert (Hrel : map rel_path (v_files v11) = ["a"; "b"]) by by vm_compute. rewrite Hrel. exact demo_names.
Qed.


Lemma queue_backup_crash_points_witness :
  let create := upload (Some 10%N) in
  let st' := run_steps (take 2 (queue_steps (benv OtherN 6 51) the_game create save_hash [] 0 (Some 10%N))) LocalState_open in
  get_snapshot the_game st' = Some {| ss_files := []; ss_taken_at := 0; local_head := Some 10%N |} ∧
  choose_kind (Some 10%N) 0 10 (is_unconfirmed the_game st') = Differential.
Proof.
  destruct (queue_backup_crash_points (benv OtherN 6 51) the_game (upload (Some 10%N)) save_hash [] 0 (Some 10%N)
    LocalState_open 2) as [_ Hc].
  destruct (Hc eq_refl) as (Hs & _ & Hk). split; [exact Hs|]. apply Hk; [by eexists|lia|by vm_compute].
Defined.

Lemma restore_refuses_safely_witness :
  ∃ m, run_restore renv 10 the_device
         {| rq_game_id := the_game; rq_version_id := 11; rq_anchor := save_anchor; rq_patterns := []; rq_registry_keys := [] |}
         false changed_disk = (Err (Bail m), changed_disk).
Proof. apply restore_refuses_safely; reflexivity. Defined.

Lemma outbox_keeps_unanswered_uploads_witness :
  ∃ d', retry_outbox (secs 8) (secs 8) (link [Down] queued) = (Ok tt, d') ∧
    map ob_attempts (outbox (d_local d')) = [1%Z].
Proof.
  destruct (outbox_keeps_unanswered_uploads (secs 8) (secs 8) (link [Down] queued)) as (_ & d' & Hd & _).
  - apply (bool_decide_unpack _). by vm_compute.
  - exists d'. split; [exact Hd|]. transitivity (map ob_attempts (outbox (d_local (snd (retry_outbox (secs 8) (secs 8) (link [Down] queued)))))).
    + by rewrite Hd.
    + by vm_compute.
Defined.

Lemma restore_chain_found_or_refused_witness :
  ∃ vs r, list_versions the_account the_game (app_db forked) = Ok vs ∧ build_chain (2 + length vs) vs 11 = Some r ∧ is_ok r = true.
Proof.
  destruct (list_versions the_account the_game (app_db forked)) as [vs|] eqn:E; [|vm_compute in E; discriminate E].
  destruct (restore_chain_found_or_refused forked the_account the_game vs 11 forked_reachable E) as (r & Hr & _).
  exists vs, r. split; [reflexivity|]. split; [exact Hr|]. vm_compute in E. injection E as <-.
  vm_compute in Hr. by injection Hr as <-.
Defined.
