(* ===== verification/FleetTheorems.v ===== *)
(** * Theorems on several devices of one server

    A fleet is the server and the devices that talk to it, one run at a time: a
    device backs up, drains its outbox or restores over a link that answers,
    loses or does not deliver its requests, games write files, devices join, and
    the server serves anything else that records no version and stores no blob, or
    sweeps what nobody builds on.  A device drains while no later backup of a
    queued game has gone through; what a later drain breaks, and a sweep that takes
    the parent of a differential, is shown in DaemonFindings. *)

From S2P Require Import Prelude CoreTypes ServerError Auth Blobs Hub ServerDb ServerGc ServerApi DbWf VersionSpec ServerSystem Instances Demo Snapshot SnapshotSpec Archive ArchiveSpec IpcFrame CoreInstances LocalState Client ClientSpec Backup Programs Restore DaemonInstances ChainSpec RestoreSpec TreeSpec BackupSpec DiskSpec RestoreRun OutboxSpec LibrarySpec FleetSpec DaemonDemo DaemonTheorems GcSpec.

(** A device at rest, and plugged to the server. *)
Definition plug (app : AppState) (links : list Link) (s : Restorer unit) : Restorer World := {|
  r_daemon := {| d_local := d_local (r_daemon s); d_cache := d_cache (r_daemon s);
                 d_net := (fst (d_net (r_daemon s)), {| w_app := app; w_links := links |}) |};
  r_scratch := r_scratch s; r_disk := r_disk s |}.
Definition unplug (s : Restorer World) : Restorer unit := {|
  r_daemon := {| d_local := d_local (r_daemon s); d_cache := d_cache (r_daemon s); d_net := (fst (d_net (r_daemon s)), tt) |};
  r_scratch := r_scratch s; r_disk := r_disk s |}.

Record Fleet := { fl_app : AppState; fl_devices : gmap nat (Restorer unit) }.

Definition at_device (F : Fleet) (i : nat) (links : list Link) : option (Restorer World) :=
  plug (fl_app F) links <$> fl_devices F !! i.
(** The fleet after a run on a device. *)
Definition after_run (F : Fleet) (i : nat) (s : Restorer World) : Fleet :=
  {| fl_app := app_of (d_net (r_daemon s)); fl_devices := <[i := unplug s]> (fl_devices F) |}.

Definition joining (client : ServerClient) (disk : Node) : Restorer unit := {|
  r_daemon := {| d_local := LocalState_open; d_cache := ∅; d_net := (client, tt) |};
  r_scratch := {| staged := ∅; archives := ∅ |}; r_disk := disk |}.

Section Theorems.
Context `{B3 : Blake3} `{!Blake3Laws} `{A2 : Argon2} `{J : Jwt} `{U : UuidText} `{!UuidTextLaws}.
Context `{G : Glob} `{T : Tar} `{!TarLaws} `{MJ : MetaJson} `{!MetaJsonLaws}
        `{JO : Json OutboxPayload} `{!JsonLaws OutboxPayload} `{TD : TextForm DateTime} `{HI : HashIter} `{!HashIterLaws}
        `{AR : !Archives}.

(** A device that starts a backup of the files it has, and one that drains. *)
Definition backs_up (env : BackupEnv) (dev : DeviceId) (full_every : N) (job : BackupJob) (s : Restorer World) :=
  daemon (run_backup (on_this_disk env (r_disk s)) true dev full_every job) s.
Definition ready_to_back_up (env : BackupEnv) (dev : DeviceId) (full_every : N) (job : BackupJob) (s : Restorer World) : Prop :=
  backup_ready (on_this_disk env (r_disk s)) dev full_every job (d_local (r_daemon s)).
Definition drains (now done_at : DateTime) (s : Restorer World) := daemon (retry_outbox now done_at) s.

(** The fleet after a sweep, and what the sweep must leave: the parents of the
    differentials that stay, and what the devices refer to. *)
Definition after_sweep (F : Fleet) : Fleet := {| fl_app := swept (fl_app F); fl_devices := fl_devices F |}.
Record spares (F : Fleet) : Prop := {
  sp_parents id v p : known (fl_app F) !! id = Some v → v_kind v = Differential → v_parent v = Some p →
    is_Some (known (fl_app (after_sweep F)) !! id) → is_Some (known (fl_app (after_sweep F)) !! p);
  sp_devices i s p : fl_devices F !! i = Some s → wants (d_local (r_daemon s)) (r_scratch s) p →
    is_Some (known (fl_app (after_sweep F)) !! p);
}.

Inductive fleet_step (F : Fleet) : Fleet → Prop :=
  | fleet_backup i links s env dev full_every job :
      at_device F i links = Some s → Forall private_link links → ready_to_back_up env dev full_every job s →
      fleet_step F (after_run F i (snd (backs_up env dev full_every job s)))
  | fleet_drain i links s now done_at :
      at_device F i links = Some s → Forall private_link links → held (d_local (r_daemon s)) →
      fleet_step F (after_run F i (snd (drains now done_at s)))
  | fleet_restore i links s env now dev req :
      at_device F i links = Some s → Forall private_link links → ready_to_restore env dev req s →
      fleet_step F (after_run F i (snd (run_restore env now dev req false s)))
  | fleet_files i s disk :
      fl_devices F !! i = Some s →
      fleet_step F {| fl_app := fl_app F; fl_devices := <[i := {| r_daemon := r_daemon s; r_scratch := r_scratch s; r_disk := disk |}]> (fl_devices F) |}
  | fleet_joins i client disk :
      fl_devices F !! i = None → fleet_step F {| fl_app := fl_app F; fl_devices := <[i := joining client disk]> (fl_devices F) |}
  | fleet_serves app :
      server_step (fl_app F) app → versions (app_db app) = versions (app_db (fl_app F)) →
      objects (app_blobs app) = objects (app_blobs (fl_app F)) → fleet_step F {| fl_app := app; fl_devices := fl_devices F |}
  | fleet_sweep : spares F → fleet_step F (after_sweep F).

(** A step that does not sweep the version [id]. *)
Definition step_sparing (id : VersionId) (F F' : Fleet) : Prop :=
  fleet_step F F' ∧ (F' = after_sweep F → is_Some (known (fl_app F') !! id)).

(** ** The invariant *)

(** A device at rest that is sound for the versions of a server. *)
Record rest_ok (app : AppState) (s : Restorer unit) : Prop := {
  ro_dev : dev_ok (known app) (d_local (r_daemon s));
  ro_cache : cache_ok (d_cache (r_daemon s));
  ro_scratch : scratch_ok (known app) (r_scratch s);
}.

Record fleet_ok (F : Fleet) : Prop := {
  fo_lib : lib_ok (fl_app F);
  fo_devices i s : fl_devices F !! i = Some s → rest_ok (fl_app F) s;
}.

Lemma rest_ok_grows app app' s : lib_ok app → known app ⊆ known app' → rest_ok app s → rest_ok app' s.
Proof. intros Hl Hsub [Hd Hc Hs]. constructor; [by eapply dev_ok_grows|done|by apply (scratch_ok_grows app)]. Qed.

Lemma plugged_settled F i links s : fleet_ok F → at_device F i links = Some s → Forall private_link links →
  app_of (d_net (r_daemon s)) = fl_app F ∧ settled (app_of (d_net (r_daemon s))) s.
Proof.
  unfold at_device. intros Hok Hs Hq. destruct (fl_devices F !! i) as [u|] eqn:E; [|done]. injection Hs as <-.
  destruct (fo_devices _ Hok _ _ E) as [Hd Hc Hsc]. split; [done|]. constructor; [done| |done].
  constructor; [done|apply Hok|done|done].
Qed.

Lemma after_run_ok F i s : fleet_ok F →
  known (fl_app F) ⊆ known (app_of (d_net (r_daemon s))) → settled (app_of (d_net (r_daemon s))) s →
  fleet_ok (after_run F i s).
Proof.
  intros Hok Hsub [_ [_ Hlib Hd Hc] Hsc]. constructor; [done|]. intros j u. simpl. rewrite lookup_insert. case_decide.
  - by intros [= <-].
  - intros Hu%(fo_devices _ Hok). by apply (rest_ok_grows (fl_app F)); [apply Hok|..].
Qed.

Lemma device_ok F i s : fleet_ok F → rest_ok (fl_app F) s →
  fleet_ok {| fl_app := fl_app F; fl_devices := <[i := s]> (fl_devices F) |}.
Proof.
  intros Hok Hs. constructor; [apply Hok|]. intros j u. simpl. rewrite lookup_insert. case_decide; [|apply Hok].
  by intros [= <-].
Qed.

(** ** Runs *)

Lemma settled_daemon s d : settled (app_of (d_net (r_daemon s))) s → daemon_ok d →
  known (app_of (d_net (r_daemon s))) ⊆ known (app_of (d_net d)) →
  settled (app_of (d_net d)) {| r_daemon := d; r_scratch := r_scratch s; r_disk := r_disk s |}.
Proof.
  intros [_ Hok Hsc] Hd Hsub. constructor; [done|done|].
  by apply (scratch_ok_grows (app_of (d_net (r_daemon s)))); [apply Hok|..].
Qed.

Lemma backs_up_grows env dev full_every job s r s' :
  let app := app_of (d_net (r_daemon s)) in let app' := app_of (d_net (r_daemon s')) in
  settled app s → ready_to_back_up env dev full_every job s → backs_up env dev full_every job s = (r, s') →
  known app ⊆ known app' ∧ settled app' s' ∧
  ∀ o v, r = Ok o → becomes env o (d_local (r_daemon s')) v → (o ≠ Queued → known app' !! v_id v = Some v) ∧
    ∃ new, build (r_disk s) (b_taken_at env) (job_game_id job) (patterns job) (job_excludes job) (anchor job) = Ok new ∧
      v_files v = sn_files new.
Proof.
  intros app app' Hset Hready. subst app app'. unfold backs_up, daemon.
  destruct (run_backup _ _ _ _ _ (r_daemon s)) as [x d] eqn:Er. intros [= <- <-]. cbn [r_daemon].
  destruct (run_backup_grows _ _ _ _ _ _ _ _ (se_daemon _ _ Hset) Hready Er) as (Hd & Hsub & Hv).
  split_and!; [done|by apply settled_daemon|exact Hv].
Qed.

Lemma drains_grows now done_at s : let app := app_of (d_net (r_daemon s)) in
  settled app s → held (d_local (r_daemon s)) →
  ∃ s', drains now done_at s = (Ok tt, s') ∧ known app ⊆ known (app_of (d_net (r_daemon s'))) ∧
    settled (app_of (d_net (r_daemon s'))) s' ∧
    ∀ r, r ∈ outbox (d_local (r_daemon s)) → r ∈ outbox (d_local (r_daemon s')) ∨
      (due now r = true ∧ (put_off now r ∈ outbox (d_local (r_daemon s')) ∨
        ∃ p, from_slice (ob_payload r) = Some p ∧ recorded (app_of (d_net (r_daemon s'))) p)).
Proof.
  intros app Hset Hh. destruct (retry_outbox_grows now done_at _ (se_daemon _ _ Hset) Hh) as (d & Hr & Hd & Hsub & _ & Hall).
  unfold drains, daemon. rewrite Hr. eexists. split; [done|]. split_and!; [done|by apply settled_daemon|exact Hall].
Qed.

Lemma sweep_ok F : fleet_ok F → spares F →
  fleet_ok (after_sweep F) ∧ thinned (known (fl_app F)) (known (fl_app (after_sweep F))).
Proof.
  intros [Hlib Hdev] [Hpar Hwant]. assert (Hth : thinned (known (fl_app F)) (known (fl_app (after_sweep F)))).
  { apply swept_thinned; [exact Hlib|exact Hpar]. }
  pose proof (swept_ok (fl_app F) Hlib) as Hok'. split; [|exact Hth]. constructor.
  - eapply lib_ok_thinned; [exact Hlib|exact Hok'|exact Hth|]. apply (gf_files _ _ (swept_frame (fl_app F) Hlib)).
  - intros i s Hs. destruct (Hdev i s Hs) as [Hd Hc Hsc]. pose proof (Hwant i s) as Hw. constructor; [|done|].
    + eapply dev_ok_thinned; [exact Hth|by intros p; apply Hw|exact Hd].
    + eapply scratch_ok_thinned; [exact Hth|by intros p; apply Hw| |exact Hsc]. intros id v. by apply known_id.
Qed.

Lemma fleet_step_ok F F' : fleet_step F F' → fleet_ok F →
  fleet_ok F' ∧ (known (fl_app F) ⊆ known (fl_app F') ∨
    (F' = after_sweep F ∧ thinned (known (fl_app F)) (known (fl_app F')))).
Proof.
  intros Hst Hok. enough (fleet_ok F' ∧ known (fl_app F) ⊆ known (fl_app F') ∨
    (fleet_ok F' ∧ F' = after_sweep F ∧ thinned (known (fl_app F)) (known (fl_app F')))) by naive_solver.
  destruct Hst as [i links s env dev full_every job Hs Hq Hready|i links s now done_at Hs Hq Hh
    |i links s env now dev req Hs Hq Hready|i s disk Hs|i client disk Hi|app Hstep Hv Ho|Hsp].
  7: right; destruct (sweep_ok F Hok Hsp); by split_and!.
  all: left.
  - destruct (plugged_settled _ _ _ _ Hok Hs Hq) as [Ha Hset].
    destruct (backs_up env dev full_every job s) as [r s'] eqn:E.
    destruct (backs_up_grows _ _ _ _ _ _ _ Hset Hready E) as (Hsub & Hset' & _). rewrite Ha in Hsub.
    split; [by apply after_run_ok|done].
  - destruct (plugged_settled _ _ _ _ Hok Hs Hq) as [Ha Hset].
    destruct (drains_grows now done_at s Hset Hh) as (s' & -> & Hsub & Hset' & _). rewrite Ha in Hsub.
    split; [by apply after_run_ok|done].
  - destruct (plugged_settled _ _ _ _ Hok Hs Hq) as [Ha Hset].
    destruct (run_restore env now dev req false s) as [r s'] eqn:E.
    destruct (run_restore_grows _ _ _ _ _ _ _ Hset Hready E) as (Hsub & Hset' & _). rewrite Ha in Hsub.
    split; [by apply after_run_ok|done].
  - split; [|done]. apply device_ok; [done|]. destruct (fo_devices _ Hok _ _ Hs) as [Hd Hc Hsc]. by constructor.
  - split; [|done]. apply device_ok; [done|]. constructor; [apply dev_ok_new| |].
    + intros h b. simpl. by rewrite lookup_empty.
    + intros dir t. simpl. by rewrite lookup_empty.
  - assert (Hk : known app = known (fl_app F)) by by apply known_same. split; [|simpl; by rewrite Hk]. constructor; simpl.
    + apply (lib_ok_frame (fl_app F)); [apply Hok| |done|done]. eapply server_step_keeps; [apply Hok|done].
    + intros i s Hs. apply (rest_ok_grows (fl_app F)); [apply Hok|by rewrite Hk|by eapply fo_devices].
Qed.

Lemma fleet_run_ok F F' : rtc fleet_step F F' → fleet_ok F → fleet_ok F'.
Proof. induction 1 as [F|F F1 F2 Hst _ IH]; [done|]. intros Hok. by apply IH, (fleet_step_ok _ _ Hst Hok). Qed.

(** A version that no sweep takes stays, with its files. *)
Lemma spared_run id F F' v : rtc (step_sparing id) F F' → fleet_ok F → known (fl_app F) !! id = Some v →
  fleet_ok F' ∧ ∃ v', known (fl_app F') !! id = Some v' ∧ v_files v' = v_files v.
Proof.
  intros Hr. revert v. induction Hr as [F|F F1 F2 [Hst Hsp] _ IH]; intros v Hok Hv; [by eauto|].
  destruct (fleet_step_ok _ _ Hst Hok) as [Hok1 Hk].
  assert (Hv1 : ∃ v1, known (fl_app F1) !! id = Some v1 ∧ v_files v1 = v_files v).
  { destruct Hk as [Hsub|[E Hth]]; [exists v; split; [by eapply lookup_weaken|done]|].
    destruct (Hsp E) as [v1 Hv1]. exists v1. split; [done|]. by eapply thinned_files. }
  destruct Hv1 as (v1 & Hv1 & <-). by apply IH.
Qed.

(** A sweep that deletes nothing spares everything. *)
Lemma idle_sweep_spares F : fleet_ok F → known (swept (fl_app F)) = known (fl_app F) → spares F.
Proof.
  intros [Hlib Hdev] E. split; cbn [after_sweep fl_app]; rewrite E.
  - intros id v p Hv Hk Hp _. destruct (fit_archive _ _ _ (lo_fits _ Hlib _ _ Hv)) as (archive & _ & Hpk).
    destruct (packed_some _ _ _ Hpk) as [x Hx]. unfold payload_of, parent_in in Hx. rewrite Hk, Hp in Hx. simpl in Hx.
    destruct (known (fl_app F) !! p); [by eexists|done].
  - intros i s p Hs Hw. destruct (Hdev i s Hs) as [Hd _ Hsc]. destruct Hw as [[g Hg]|[(r & q & Hr & Hq & Hp)|[t Ht]]].
    + by eapply dv_head.
    + destruct (dv_queue _ _ Hd r Hr) as (q' & Hq' & archive & Hm & _). rewrite Hq in Hq'. injection Hq' as <-.
      by eapply md_parent.
    + destruct (Hsc _ _ Ht) as (v & Hv & Hid & _). apply uuid_to_string_inj in Hid as ->. by eexists.
Qed.

(** A server without versions that nobody has joined. *)
Definition fleet_start (F : Fleet) : Prop :=
  reachable (fl_app F) ∧ versions (app_db (fl_app F)) = [] ∧
  (∀ h b, objects (app_blobs (fl_app F)) !! h = Some b → in_play b) ∧ fl_devices F = ∅.

Lemma fleet_start_ok F : fleet_start F → fleet_ok F.
Proof.
  intros (Hr & Hv & Hp & Hd). constructor.
  - constructor; [by apply reachable_ok| |done]. intros id v. unfold known. rewrite Hv. simpl. by rewrite lookup_empty.
  - intros i s. by rewrite Hd, lookup_empty.
Qed.

(** What a restore leaves at the path of a file of its version. *)
Lemma restored_file env dev req s s' v f :
  let app := app_of (d_net (after_backup env dev req s)) in
  settled app (backed_up env dev req s) → known app !! rq_version_id req = Some v →
  restored env dev req s s' → f ∈ v_files v →
  ∃ b, read_file (r_disk s') (path_join (rq_anchor req) (rel_path f)) = Some b ∧ hash_of b = hash f.
Proof.
  intros app Hset Hv (vs & n & w & merged & Hl & Hw & Hid & Hm & _ & Hread) Hf.
  pose proof (se_daemon _ _ Hset) as [Hq Hlib _ _]. cbn [backed_up r_daemon] in Hq, Hlib.
  destruct (listed_known app _ _ _ _ (lo_server _ Hlib) Hq eq_refl Hl) as [_ Hknown].
  pose proof (Hknown w Hw) as Hw'. rewrite Hid, Hv in Hw'. injection Hw' as <-.
  destruct (lo_fits _ Hlib _ _ Hv) as [Hplain Hnames _].
  destruct (Hnames (rel_path f)) as (p & Hp & Hsave); [by apply list_elem_of_fmap_2|].
  rewrite Hp, path_join_plain by apply Hsave. rewrite (Hread p Hsave), <- Hp.
  pose proof (f_equal (lookup (rel_path f)) Hm) as Hc. cbv beta in Hc.
  rewrite lookup_fmap, content_lookup, fetch_path in Hc by (done || apply Hplain). simpl in Hc.
  destruct (merged !! rel_path f) as [b|]; [|done]. exists b. split; [done|]. by injection Hc.
Qed.

(** C1. Saves travel between devices.  A backup of the files a device has is recorded
    at once, or waits in its outbox.  Once the version is recorded, it can be
    restored on any device of the fleet at any later time: when the restore goes
    through, each file that was backed up has, byte for byte up to the hash, the
    content it had on the first device; and when it does not, it returns, and the
    disk is as it was unless a file could not be swapped in.  In between the devices
    may have backed up, drained and restored anything over links that lose requests
    and answers, and the server may have restarted or swept, so long as the saves
    lie below their directory and stand still while they are packed, no two archives
    in play share a hash, an outbox is drained before a later backup of its games
    goes through, and no sweep takes the version, the parent of a differential that
    stays or what a device refers to. *)
Theorem saves_travel_between_devices F0 F1 i links env dev full_every job s o s1 v :
  fleet_start F0 → rtc fleet_step F0 F1 →
  at_device F1 i links = Some s → Forall private_link links → ready_to_back_up env dev full_every job s →
  backs_up env dev full_every job s = (Ok o, s1) → becomes env o (d_local (r_daemon s1)) v →
  (∃ new, build (r_disk s) (b_taken_at env) (job_game_id job) (patterns job) (job_excludes job) (anchor job) = Ok new ∧
     v_files v = sn_files new) ∧
  (o ≠ Queued → known (fl_app (after_run F1 i s1)) !! v_id v = Some v) ∧
  ∀ F2 F3 j links' env' now dev' req t,
    rtc fleet_step (after_run F1 i s1) F2 → known (fl_app F2) !! v_id v = Some v →
    rtc (step_sparing (v_id v)) F2 F3 →
    at_device F3 j links' = Some t → Forall private_link links' → ready_to_restore env' dev' req t →
    rq_version_id req = v_id v →
    match run_restore env' now dev' req false t with
    | (Ok _, t') => ∀ f, f ∈ v_files v → ∃ b b',
        read_file (r_disk s) (path_join (anchor job) (rel_path f)) = Some b ∧
        read_file (r_disk t') (path_join (rq_anchor req) (rel_path f)) = Some b' ∧ hash_of b' = hash_of b
    | (Err e, t') => e ≠ Hang ∧ (e ≠ FileError → r_disk t' = r_disk t)
    end.
Proof.
  intros Hstart Hrun1 Hs Hq Hready Hb Ho. pose proof (fleet_run_ok _ _ Hrun1 (fleet_start_ok _ Hstart)) as Hok1.
  destruct (plugged_settled _ _ _ _ Hok1 Hs Hq) as [Ha Hset].
  destruct (backs_up_grows _ _ _ _ _ _ _ Hset Hready Hb) as (Hsub & Hset' & Hv).
  destruct (Hv o v eq_refl Ho) as (Hkv & new & Hbuild & Hfiles). split; [by exists new|]. split; [exact Hkv|].
  assert (Hok1' : fleet_ok (after_run F1 i s1)) by (apply after_run_ok; [done|by rewrite <- Ha|done]).
  intros F2 F3 j links' env' now dev' req t Hrun2 Hk2 Hrun3 Ht Hq' Hready' Hid.
  pose proof (fleet_run_ok _ _ Hrun2 Hok1') as Hok2.
  destruct (spared_run _ _ _ _ Hrun3 Hok2 Hk2) as (Hok3 & v' & Hk3 & Hvf).
  destruct (plugged_settled _ _ _ _ Hok3 Ht Hq') as [Ha3 Hset3].
  destruct (run_restore env' now dev' req false t) as [r t'] eqn:Er.
  destruct (run_restore_grows _ _ _ _ _ _ _ Hset3 Hready' Er) as (_ & _ & Hres).
  destruct r as [[]|e]; [|done]. destruct Hres as [Hres _]. intros f Hf.
  destruct (backed_up_settled env' dev' req t Hset3 Hready') as (Hsub4 & Hset4).
  destruct (restored_file env' dev' req t t' v' f Hset4) as (b' & Hr' & Hh'); [|done|by rewrite Hvf|].
  { rewrite Hid. eapply lookup_weaken; [exact Hk3|]. by rewrite <- Ha3. }
  rewrite Hfiles in Hf.
  destruct (snapshot_reads _ _ _ _ _ _ _ f (rd_dir _ _ _ _ _ Hready) Hbuild Hf) as (b & Hr & Hh).
  exists b, b'. split_and!; [exact Hr|exact Hr'|congruence].
Qed.

End Theorems.

(** ** Witnesses *)

(** Two devices with different saves of the same game. *)
Definition desk_disk : Node := disk [("a", 1%N)].
Definition deck_disk : Node := disk [("a", 5%N)].
Definition desk : Restorer unit := joining paired desk_disk.
Definition deck : Restorer unit := joining paired deck_disk.
Definition alone : Fleet := {| fl_app := Demo.ready; fl_devices := ∅ |}.
Definition both : Fleet := {| fl_app := Demo.ready; fl_devices := <[1 := deck]> (<[0 := desk]> ∅) |}.

Definition desk_env : BackupEnv := benv OtherN 5 50.
Definition deck_env : BackupEnv := benv OtherN 10 54.

(** What they pack first. *)
Definition first_archive (env : BackupEnv) (root : Node) (full_every : N) (j : BackupJob) : bytes :=
  match archive_of (on_this_disk env root) the_device full_every j LocalState_open with Some a => a | None => [] end.
Definition demo_archives : list bytes :=
  [save_bytes; first_archive desk_env desk_disk 10 job; first_archive deck_env deck_disk (Z.to_N u32_max) (pre_backup (restore_req 10))].

#[export] Instance demo_in_play : Archives.
Proof.
  refine {| in_play b := b ∈ demo_archives |}. intros a b Ha Hb. apply (NoDup_key_inj hash_of demo_archives); [|done|done].
  apply (bool_decide_unpack _). by vm_compute.
Defined.

Definition desk_up (links : list Link) : Restorer World := plug Demo.ready links desk.
Definition desk_run (links : list Link) := backs_up desk_env the_device 10 job (desk_up links).
Definition backed (links : list Link) : Fleet := after_run both 0 (snd (desk_run links)).
(** The server sweeps before the other device restores. *)
Definition tidied : Fleet := after_sweep (backed (served 3 10 5)).
Definition deck_up : Restorer World := plug (fl_app tidied) (served 6 15 10) deck.

Lemma starts app : reachable app → versions (app_db app) = [] →
  (∀ h b, objects (app_blobs app) !! h = Some b → in_play b) → fleet_start {| fl_app := app; fl_devices := ∅ |}.
Proof. intros Hr Hv Hp. split; [done|]. split; [done|]. by split. Qed.

Lemma alone_starts : fleet_start alone.
Proof.
  apply starts; [exact ready_reachable|by vm_compute|].
  assert (E : objects (app_blobs Demo.ready) = {[ to_hex save_hash := save_bytes ]}) by (vm_compute; reflexivity).
  rewrite E. intros h b [_ <-]%lookup_singleton_Some. apply list_elem_of_here.
Qed.

Lemma two_join app c0 d0 c1 d1 : rtc fleet_step {| fl_app := app; fl_devices := ∅ |}
  {| fl_app := app; fl_devices := <[1 := joining c1 d1]> (<[0 := joining c0 d0]> ∅) |}.
Proof.
  eapply rtc_l; [apply (fleet_joins _ 0 c0 d0), lookup_empty|]. apply rtc_once.
  refine (fleet_joins _ 1 c1 d1 _). cbn [fl_devices]. rewrite lookup_insert_ne by lia. apply lookup_empty.
Qed.

Lemma both_joined : rtc fleet_step alone both.
Proof. exact (two_join Demo.ready paired desk_disk paired deck_disk). Qed.

Lemma served_private k id t : Forall private_link (served k id t).
Proof. unfold served. by apply list.Forall_replicate. Qed.

(** What [backup_ready] asks, evaluated. *)
Definition build_namesb (env : BackupEnv) (j : BackupJob) : bool :=
  match build (b_root env) (b_taken_at env) (job_game_id j) (patterns j) (job_excludes j) (anchor j) with
  | Ok new => forallb (λ x, bool_decide (x ∈ ["a"; "b"])) (map rel_path (sn_files new))
  | Err _ => true
  end.

Lemma first_ready env full_every j l :
  anchor j = save_anchor → patterns j = ["/s"] →
  bool_decide (NoDup (map fst l)) = true → forallb normal_nameb (map fst l) = true →
  build_namesb (on_this_disk env (disk l)) j = true → first_archive env (disk l) full_every j ∈ demo_archives →
  backup_ready (on_this_disk env (disk l)) the_device full_every j LocalState_open.
Proof.
  intros Ha Hpat Hnd Hn Hb Hin. constructor.
  - done.
  - rewrite Ha, Hpat. by apply disk_save_dir.
  - intros new Hnew k Hk. unfold build_namesb in Hb. rewrite Hnew in Hb. rewrite forallb_forall in Hb.
    apply list_elem_of_In in Hk. specialize (Hb k Hk). apply bool_decide_eq_true in Hb. by apply demo_names.
  - intros archive Har. unfold first_archive in Hin. rewrite Har in Hin. exact Hin.
Qed.

Lemma desk_ready links : ready_to_back_up desk_env the_device 10 job (desk_up links).
Proof. apply (first_ready desk_env 10 job [("a", 1%N)]); [by vm_compute..|]. apply list_elem_of_further, list_elem_of_here. Qed.

Lemma desk_backs_up links : Forall private_link links → rtc fleet_step alone (backed links).
Proof. intros Hq. eapply rtc_r; [exact both_joined|]. by apply (fleet_backup both 0 links); [reflexivity|done|apply desk_ready]. Qed.

Lemma tidied_spares : spares (backed (served 3 10 5)).
Proof.
  apply idle_sweep_spares; [|by vm_compute]. eapply fleet_run_ok; [apply desk_backs_up, served_private|].
  apply fleet_start_ok, alone_starts.
Qed.

Lemma saves_travel_between_devices_witness :
  ∃ b, read_file (r_disk (snd (run_restore deck_env 10 the_device (restore_req 10) false deck_up))) ["/"; "s"; "a"] = Some b ∧
    hash_of b = hash_of [byte_of 1].
Proof.
  set (links := served 3 10 5).
  assert (Ho : fst (desk_run links) = Ok (Uploaded v10)) by (vm_compute; reflexivity).
  destruct (saves_travel_between_devices alone both 0 links desk_env the_device 10 job (desk_up links)
    (Uploaded v10) (snd (desk_run links)) v10) as (_ & Hknown & Hlater).
  - exact alone_starts.
  - exact both_joined.
  - reflexivity.
  - apply served_private.
  - apply desk_ready.
  - rewrite <- Ho. apply surjective_pairing.
  - reflexivity.
  - specialize (Hlater (backed links) tidied 1 (served 6 15 10) deck_env 10%Z the_device (restore_req 10) deck_up).
    assert (Hres : match run_restore deck_env 10 the_device (restore_req 10) false deck_up with
      | (Ok _, t') => ∀ f, f ∈ v_files v10 → ∃ b b',
          read_file (r_disk (desk_up links)) (path_join (anchor job) (rel_path f)) = Some b ∧
          read_file (r_disk t') (path_join (rq_anchor (restore_req 10)) (rel_path f)) = Some b' ∧ hash_of b' = hash_of b
      | (Err e, t') => e ≠ Hang ∧ (e ≠ FileError → r_disk t' = r_disk deck_up)
      end).
    { apply Hlater.
      - apply rtc_refl.
      - apply Hknown. discriminate.
      - apply rtc_once. split; [apply fleet_sweep, tidied_spares|]. intros _.
        assert (Hk : bool_decide (is_Some (known (fl_app tidied) !! v_id v10)) = true) by (vm_compute; reflexivity).
        by apply bool_decide_eq_true in Hk.
      - reflexivity.
      - apply served_private.
      - apply (first_ready deck_env _ _ [("a", 5%N)]); [by vm_compute..|].
        apply list_elem_of_further, list_elem_of_further, list_elem_of_here.
      - by vm_compute. }
    assert (Hok : fst (run_restore deck_env 10 the_device (restore_req 10) false deck_up) = Ok tt) by by vm_compute.
    destruct (run_restore deck_env 10 the_device (restore_req 10) false deck_up) as [r t']. cbn [fst] in Hok. subst r.
    assert (Hf : ∃ f, v_files v10 = [f] ∧ rel_path f = "a") by (vm_compute; eauto).
    destruct Hf as (f & Hf & Hrel). destruct (Hres f) as (b & b' & Hb & Hb' & Hh); [rewrite Hf; apply list_elem_of_here|].
    rewrite Hrel in Hb, Hb'. exists b'. split; [exact Hb'|]. rewrite Hh. vm_compute in Hb. by injection Hb as <-.
Defined.

(** The same backup offline, then a drain online. *)
Definition offline : Fleet := backed [Down].
Definition desk_back : Restorer World := plug (fl_app offline) (served 3 10 8) (unplug (snd (desk_run [Down]))).

