(* ===== verification/EngineInstances.v ===== *)
(** * Concrete instances of the engine's third-party interfaces

    The wire types of the IPC are countable, so each has a JSON with its laws;
    a platform without links whose files are all executable. *)

From stdpp Require Import countable.
From S2P Require Import Prelude CoreTypes ServerApi Instances Snapshot Archive IpcFrame CoreInstances LocalState Client DaemonInstances ExeIndex Watcher Engine ManifestSync Manifest Scan.

Local Ltac count f g := refine (inj_countable' f g _); by intros [].

#[export] Instance Os_countable : Countable Os.
Proof. count (λ o, match o with Windows => 0 | Linux => 1 | Macos => 2 end)
             (λ n : nat, match n with 0 => Windows | 1 => Linux | _ => Macos end). Defined.
#[export] Instance SaveTag_countable : Countable SaveTag.
Proof. count (λ o, bool_decide (o = SaveT)) (λ b, if b : bool then SaveT else ConfigT). Defined.
#[export] Instance GameSource_countable : Countable GameSource.
Proof. count (λ o, match o with ManifestSrc => 0 | SteamSrc => 1 | CustomSrc => 2 end)
             (λ n : nat, match n with 0 => ManifestSrc | 1 => SteamSrc | _ => CustomSrc end). Defined.
#[export] Instance ConflictPolicy_countable : Countable ConflictPolicy.
Proof. count (λ o, match o with Manual => 0 | LatestWins => 1 | TheirsWins => 2 | MineWins => 3 end)
             (λ n : nat, match n with 0 => Manual | 1 => LatestWins | 2 => TheirsWins | _ => MineWins end). Defined.
#[export] Instance AutoPullPolicy_countable : Countable AutoPullPolicy.
Proof. count (λ o, bool_decide (o = Ask)) (λ b, if b : bool then Ask else Auto). Defined.
#[export] Instance RootKind_eq_dec : EqDecision RootKind. Proof. solve_decision. Defined.
#[export] Instance RootKind_countable : Countable RootKind.
Proof. count (λ o, match o with SteamRoot => 0 | Drive => 1 | Emulator => 2 | Launcher => 3 end)
             (λ n : nat, match n with 0 => SteamRoot | 1 => Drive | 2 => Emulator | _ => Launcher end). Defined.
#[export] Instance ResolveChoice_eq_dec : EqDecision ResolveChoice. Proof. solve_decision. Defined.
#[export] Instance ResolveChoice_countable : Countable ResolveChoice.
Proof. count (λ o, match o with KeepMine => 0 | KeepTheirs => 1 | KeepBoth => 2 end)
             (λ n : nat, match n with 0 => KeepMine | 1 => KeepTheirs | _ => KeepBoth end). Defined.

#[export] Instance SaveTarget_eq_dec : EqDecision SaveTarget. Proof. solve_decision. Defined.
#[export] Instance SaveTarget_countable : Countable SaveTarget.
Proof. count (λ t, (st_glob t, st_tags t, st_os_hint t, st_registry t))
             (λ '(a, b, c, d), {| st_glob := a; st_tags := b; st_os_hint := c; st_registry := d |}). Defined.
#[export] Instance Game_eq_dec : EqDecision Game. Proof. solve_decision. Defined.
#[export] Instance Game_countable : Countable Game.
Proof. count (λ g, (g_id g, g_title g, g_source g, g_steam_appid g, g_save_targets g, (g_running g, g_last_played g, g_last_session_secs g, g_total_secs g)))
             (λ '(a, b, c, d, e, (f, h, i, j)), {| g_id := a; g_title := b; g_source := c; g_steam_appid := d; g_save_targets := e;
                g_running := f; g_last_played := h; g_last_session_secs := i; g_total_secs := j |}). Defined.
#[export] Instance Version_countable : Countable Version.
Proof. count (λ v, (v_id v, v_game_id v, v_device_id v, v_parent v, v_kind v, (v_files v, v_blob_hash v, v_bytes v, v_seq v, v_created_at v)))
             (λ '(a, b, c, d, e, (f, g, h, i, j)), {| v_id := a; v_game_id := b; v_device_id := c; v_parent := d; v_kind := e;
                v_files := f; v_blob_hash := g; v_bytes := h; v_seq := i; v_created_at := j |}). Defined.
#[export] Instance PathOverride_eq_dec : EqDecision PathOverride. Proof. solve_decision. Defined.
#[export] Instance PathOverride_countable : Countable PathOverride.
Proof. count (λ o, (po_game_id o, po_globs o)) (λ '(a, b), {| po_game_id := a; po_globs := b |}). Defined.
#[export] Instance Retention_eq_dec : EqDecision Retention. Proof. solve_decision. Defined.
#[export] Instance Retention_countable : Countable Retention.
Proof. count (λ r, (full r, diff_per_full r)) (λ '(a, b), {| full := a; diff_per_full := b |}). Defined.
#[export] Instance SyncedConfig_eq_dec : EqDecision SyncedConfig. Proof. solve_decision. Defined.
#[export] Instance SyncedConfig_countable : Countable SyncedConfig.
Proof. count (λ c, (tag c, CoreTypes.custom_games c, overrides c, conflict_policy c, autopull_policy c, retention c))
             (λ '(a, b, c, d, e, f), {| tag := a; CoreTypes.custom_games := b; overrides := c; conflict_policy := d;
                autopull_policy := e; retention := f |}). Defined.
#[export] Instance Root_eq_dec : EqDecision Root. Proof. solve_decision. Defined.
#[export] Instance Root_countable : Countable Root.
Proof. count (λ r, (root_id r, root_kind r, root_path r)) (λ '(a, b, c), {| root_id := a; root_kind := b; root_path := c |}). Defined.
#[export] Instance RootSpec_eq_dec : EqDecision RootSpec. Proof. solve_decision. Defined.
#[export] Instance RootSpec_countable : Countable RootSpec.
Proof. count (λ r, (sp_kind r, sp_path r)) (λ '(a, b), {| sp_kind := a; sp_path := b |}). Defined.
#[export] Instance CustomGameSpec_eq_dec : EqDecision CustomGameSpec. Proof. solve_decision. Defined.
#[export] Instance CustomGameSpec_countable : Countable CustomGameSpec.
Proof. count (λ c, (cs_title c, cs_install_path c, cs_save_root c, cs_include c, cs_exclude c))
             (λ '(a, b, c, d, e), {| cs_title := a; cs_install_path := b; cs_save_root := c; cs_include := d; cs_exclude := e |}). Defined.
#[export] Instance DaemonStatus_eq_dec : EqDecision DaemonStatus. Proof. solve_decision. Defined.
#[export] Instance DaemonStatus_countable : Countable DaemonStatus.
Proof. count (λ s, (version s, uptime_s s, rss_bytes s, watched_games s, (st_server_connected s, st_last_backup_at s, pending_outbox s, autostart_enabled s)))
             (λ '(a, b, c, d, (e, f, g, h)), {| version := a; uptime_s := b; rss_bytes := c; watched_games := d;
                st_server_connected := e; st_last_backup_at := f; pending_outbox := g; autostart_enabled := h |}). Defined.

(** The constructor's number, and the fields of each in one type. *)
#[export] Instance DetectionEvent_countable : Countable DetectionEvent.
Proof.
  count (λ e, match e with
    | GameStarted g p t => (0, g, p, t) | GameStopped g t => (1, g, 0%Z, t) | ManualBackupRequested g => (2, g, 0%Z, 0%Z)
    | SaveDirChanged g => (3, g, 0%Z, 0%Z) | BackupCompleted g => (4, g, 0%Z, 0%Z) | BackupConflict g => (5, g, 0%Z, 0%Z)
    | SaveAvailable g => (6, g, 0%Z, 0%Z) | CatalogUpdated => (7, 0%N, 0%Z, 0%Z) end)
    (λ '(n, g, p, t), match n : nat with
    | 0 => GameStarted g p t | 1 => GameStopped g t | 2 => ManualBackupRequested g | 3 => SaveDirChanged g
    | 4 => BackupCompleted g | 5 => BackupConflict g | 6 => SaveAvailable g | _ => CatalogUpdated end).
Defined.

#[export] Instance GuiRequest_eq_dec : EqDecision GuiRequest. Proof. solve_decision. Defined.
#[export] Instance GuiRequest_countable : Countable GuiRequest.
Proof.
  refine (inj_countable' (λ r, match r with
    | ListGames => inl (inl 0) | ListRoots => inl (inl 1) | GetStatus => inl (inl 2) | GuiGetConfig => inl (inl 3)
    | Shutdown => inl (inl 4)
    | RemoveRoot i => inl (inr (0, i, 0%N)) | BackupNow g => inl (inr (1, g, 0%N)) | GuiListVersions g => inl (inr (2, g, 0%N))
    | GuiRestore g v => inl (inr (3, g, v)) | EnterLearnMode g => inl (inr (4, g, 0%N))
    | AddRoot s => inr (inl (inl (inl s)))
    | GuiResolveConflict g c => inr (inl (inl (inr (g, c))))
    | UpdateConfig c => inr (inl (inr (inl c)))
    | PairDevice u c d => inr (inl (inr (inr (u, c, d))))
    | SetAutostart b => inr (inr (inl (inl b)))
    | AddCustomGame s => inr (inr (inl (inr s)))
    | RemoveCustomGame t => inr (inr (inr (inl t)))
    | GetLogs n => inr (inr (inr (inr n))) end)
    (λ x, match x with
    | inl (inl n) => match n : nat with 0 => ListGames | 1 => ListRoots | 2 => GetStatus | 3 => GuiGetConfig | _ => Shutdown end
    | inl (inr (n, g, v)) => match n : nat with 0 => RemoveRoot g | 1 => BackupNow g | 2 => GuiListVersions g
                             | 3 => GuiRestore g v | _ => EnterLearnMode g end
    | inr (inl (inl (inl s))) => AddRoot s
    | inr (inl (inl (inr (g, c)))) => GuiResolveConflict g c
    | inr (inl (inr (inl c))) => UpdateConfig c
    | inr (inl (inr (inr (u, c, d)))) => PairDevice u c d
    | inr (inr (inl (inl b))) => SetAutostart b
    | inr (inr (inl (inr s))) => AddCustomGame s
    | inr (inr (inr (inl t))) => RemoveCustomGame t
    | inr (inr (inr (inr n))) => GetLogs n end) _).
  by intros [].
Defined.

#[export] Instance DaemonMsg_eq_dec : EqDecision DaemonMsg. Proof. solve_decision. Defined.
#[export] Instance DaemonMsg_countable : Countable DaemonMsg.
Proof.
  refine (inj_countable' (λ r, match r with
    | Games l => inl (inl (inl l)) | Versions l => inl (inl (inr l))
    | RootsMsg l => inl (inr (inl l)) | Logs l => inl (inr (inr l))
    | Status s => inr (inl (inl (inl s))) | ConfigMsg c => inr (inl (inl (inr c)))
    | Event e => inr (inl (inr (inl e))) | ConflictRaised g t => inr (inl (inr (inr (g, t))))
    | Paired d => inr (inr (inl d)) | OkMsg => inr (inr (inr (inl tt))) | ErrorMsg m => inr (inr (inr (inr m))) end)
    (λ x, match x with
    | inl (inl (inl l)) => Games l | inl (inl (inr l)) => Versions l
    | inl (inr (inl l)) => RootsMsg l | inl (inr (inr l)) => Logs l
    | inr (inl (inl (inl s))) => Status s | inr (inl (inl (inr c))) => ConfigMsg c
    | inr (inl (inr (inl e))) => Event e | inr (inl (inr (inr (g, t)))) => ConflictRaised g t
    | inr (inr (inl d)) => Paired d | inr (inr (inr (inl _))) => OkMsg | inr (inr (inr (inr m))) => ErrorMsg m end) _).
  by intros [].
Defined.

#[export] Instance toy_Platform : Platform :=
  {| fold_case p := p; is_executable _ := true; follow_link _ := None |}.
#[export] Instance toy_ErrorText : ErrorText :=
  {| error_text e := match e with Bail m => m | _ => "error" end |}.

(** A manifest text names one game without save paths, and a bad one holds a
    question mark. *)
#[export] Instance toy_Yaml : Yaml := {|
  manifest_parse t := if contains "?" t then None
    else Some {[ t := {| me_files := ∅; me_install_dir := []; me_registry := ∅; me_steam := None |} ]} |}.
