(* ===== verification/DetectTheorems.v ===== *)
(** * Theorems on detection: executables, sessions, Steam files, folders, save paths *)

From S2P Require Import Prelude CoreTypes Instances Snapshot Archive CoreInstances Manifest LocalState Backup TreeSpec ExeIndex ExeSpec Watcher WatcherSpec Steam SteamSpec Scan Paths DaemonInstances EngineInstances PathsSpec.

(** ** Executables *)

(** C19. An index of executables answers a path with the game of the last executable
    inserted under that path, else, by file name, with the one game that has an
    executable of that name; a name two games share answers nothing.  The rows
    written to the database read back as an index with the same answers, unless
    a file name is also a full path. *)
Theorem executables_identify_games `{PF : Platform} `{HI : HashIter} `{!HashIterLaws} l p st :
  match match_exe p (index_of l) with
  | Some (g, PathHit) => last_owner l (exe_key p) = Some g
  | Some (g, Basename) => last_owner l (exe_key p) = None ∧
      ∃ bn, basename_key p = Some bn ∧ claims l bn g ∧ ∀ g', claims l bn g' → g' = g
  | None => last_owner l (exe_key p) = None ∧
      ∀ bn, basename_key p = Some bn → ¬ ∃ g, claims l bn g ∧ ∀ g', claims l bn g' → g' = g
  end ∧
  match_exe p (from_rows (to_rows (index_of l))) = match_exe p (index_of l) ∧
  (NoDup (map (λ r, fst (fst r)) (to_rows (index_of l))) →
   match_exe p (from_rows (load_exe_rows (replace_exe_index (to_rows (index_of l)) st))) = match_exe p (index_of l)).
Proof.
  split_and!.
  - rewrite match_exe_claim, index_of_path. destruct (last_owner l (exe_key p)) as [g|]; [done|].
    destruct (basename_key p) as [bn|]; simpl; [|by split].
    destruct (claim (index_of l) bn) as [g|] eqn:Ec; simpl.
    + apply index_of_claim in Ec. split; [done|]. by exists bn.
    + split; [done|]. intros bn' [= <-] (g & Hg). apply index_of_claim in Hg. congruence.
  - apply rows_of_match, to_rows_of.
  - intros Hnd. by apply rows_of_match, stored_rows_of; [apply to_rows_of|].
Qed.

Lemma executables_identify_games_witness :
  let l := [("/g/a/game.exe", 1%N); ("/g/a/unins.exe", 1%N); ("/g/b/unins.exe", 2%N)] in
  map (λ p, match_exe p (index_of l)) ["/g/b/unins.exe"; "/else/game.exe"; "/else/unins.exe"]
    = [Some (2%N, PathHit); Some (1%N, Basename); None] ∧
  match_exe "/else/game.exe" (from_rows (load_exe_rows (replace_exe_index (to_rows (index_of l)) LocalState_open)))
    = Some (1%N, Basename).
Proof.
  cbv zeta. split; [vm_compute; reflexivity|].
  rewrite (proj2 (proj2 (executables_identify_games
    [("/g/a/game.exe", 1%N); ("/g/a/unins.exe", 1%N); ("/g/b/unins.exe", 2%N)] "/else/game.exe" LocalState_open))).
  - vm_compute. reflexivity.
  - apply (bool_decide_unpack _). vm_compute. exact I.
Defined.

(** ** Sessions *)

(** C16. The poll loop treats every game as if it were alone: its events and its
    state are those of one small automaton (idle, playing, gone until a deadline)
    fed the polls of that game.  Once a running game is no longer seen, it is
    reported stopped exactly once, at the first poll after the settle time, and
    not before. *)
Theorem watcher_refines_each_game `{HI : HashIter} `{!HashIterLaws} tuning turns w g :
  watch_inv w →
  let '(evs, w') := run_watcher tuning turns w in
  watch_inv w' ∧ (events_of g evs, phase_of w' g) = phase_run tuning g turns (phase_of w g) ∧
  ∀ c now rest, turns = (c, now) :: rest → absent g turns → phase_of w g = Playing →
    let d := (t_armed c g + settle tuning)%Z in
    (events_of g evs, phase_of w' g) =
      match fetch_optional (λ t, bool_decide (d <= t_fired (fst t))%Z) turns with
      | Some (c', _) => ([GameStopped g (t_utc c' g)], Idle)
      | None => ([], Settling d)
      end.
Proof.
  intros Hw. pose proof (run_watcher_phase tuning turns w g Hw) as Hr.
  destruct (run_watcher tuning turns w) as [evs w']. destruct Hr as [Hr Hi]. split_and!; [done|done|].
  intros c now rest -> Ha Hp. rewrite Hr, Hp. by apply playing_run.
Qed.

Definition tick (t : Z) : Clock := {| t_armed _ := t; t_fired := t; t_utc _ := t |}.
Definition two_seconds : WatchTuning := {| active_interval := 1; idle_interval := 4; settle := 2 |}.

Lemma watcher_refines_each_game_witness :
  let turns := [(tick 0, {[7%N := 42%Z]}); (tick 1, ∅); (tick 2, ∅); (tick 3, ∅); (tick 4, ∅)] in
  fst (run_watcher two_seconds turns Watcher_new) = [GameStarted 7 42 0; GameStopped 7 3] ∧
  phase_run two_seconds 7 turns Idle = ([GameStarted 7%N 42 0; GameStopped 7%N 3], Idle).
Proof.
  cbv zeta. split; [vm_compute; reflexivity|].
  pose proof (watcher_refines_each_game two_seconds
    [(tick 0, {[7%N := 42%Z]}); (tick 1, ∅); (tick 2, ∅); (tick 3, ∅); (tick 4, ∅)] Watcher_new 7%N) as Ht.
  assert (Hw : watch_inv Watcher_new) by (intros g; reflexivity).
  apply Ht in Hw as (_ & Hr & _). exact (eq_sym Hr).
Defined.

(** ** Steam files *)

(** C36. Parsing Valve's KeyValues text always ends with a tree or a refusal, whatever
    the text, and reads back the tree a well-formed text was printed from. *)
Theorem key_values_parse (text : string) (es : list (string * Kv)) :
  is_Some (parse_text text) ∧
  (forallb entry_ok es = true → parse_text (show_kv es) = Some (Some (KObj es))).
Proof. split; [apply parse_text_total|apply parse_show]. Qed.

Lemma key_values_parse_witness :
  let es := [("AppState", KObj [("appid", KStr "620"); ("installdir", KStr "Portal 2"); ("empty", KObj [])])] in
  parse_text (show_kv es) = Some (Some (KObj es)).
Proof. cbv zeta. apply (proj2 (key_values_parse "" _)). vm_compute. reflexivity. Defined.

(** ** Folders *)


(** ** Save paths *)

Section SavePaths.
Context `{PF : Platform} `{GL : GlobLaws}.

Lemma resolve_game_parts disk game overrides ctx base :
  let r := resolve_game disk game overrides ctx base in
  NoDup (rs_patterns r) ∧ rs_anchor r = compute_anchor (rs_patterns r) (ctx_roots ctx) ∧
  ∀ x, x ∈ rs_patterns r ↔ ∃ tpl, tpl ∈ fst (templates_of game overrides) ∧
    Some x ∈ template_patterns disk ctx
      (match base with Some b => Some b | None => ctx_install_dir ctx (g_steam_appid game) end)
      (proton_roots disk ctx (g_steam_appid game)) tpl.
Proof.
  cbv zeta. unfold resolve_game. destruct (templates_of game overrides) as [tpls keys]. cbn [rs_patterns rs_anchor fst].
  destruct (push_templates disk ctx (match base with Some b => Some b | None => ctx_install_dir ctx (g_steam_appid game) end)
    (proton_roots disk ctx (g_steam_appid game)) tpls []) as [Hnd Hin]; [constructor|].
  split_and!; [exact Hnd|done|]. intros x. rewrite Hin, elem_of_nil. naive_solver.
Qed.

(** C23. The patterns of a game are, without repetition, what its templates resolve
    to: each with the Steam placeholders filled in and the roots of the system,
    or with the roots of a Proton prefix.  When they are absolute and climb
    nowhere, every file they match lies below the anchor, as the snapshot and the
    restore need; and the same holds of a hand-registered game whose save root is
    absolute and holds no glob character. *)
Theorem saves_lie_under_the_anchor disk game overrides ctx base save_root incl excl r :
  let rg := resolve_game disk game overrides ctx base in
  let rc := resolve_custom save_root incl excl in
  NoDup (rs_patterns rg) ∧
  (∀ x, x ∈ rs_patterns rg ↔ ∃ tpl, tpl ∈ fst (templates_of game overrides) ∧
    ((∃ c, c ∈ expand_steam_placeholders disk tpl (steam_libs ctx) ∧
       resolve_template c (ctx_roots ctx)
         (match base with Some b => Some b | None => ctx_install_dir ctx (g_steam_appid game) end) = Some x) ∨
     (∃ pr, pr ∈ proton_roots disk ctx (g_steam_appid game) ∧
       resolve_template tpl pr
         (match base with Some b => Some b | None => ctx_install_dir ctx (g_steam_appid game) end) = Some x))) ∧
  (rs_patterns rg ≠ [] → Forall plain_pattern (rs_patterns rg) →
   ∀ es, node_at (rs_anchor rg) disk = Some (DirN es) → tidy (DirN es) →
     save_dir disk (rs_anchor rg) (rs_patterns rg)) ∧
  (trim_end_char slash (slashes save_root) = String slash r → is_glob r = false → ParentDir ∉ body r →
   Forall (λ g, ParentDir ∉ body (trim_start_char slash (slashes g))) (match incl with [] => ["**/*"] | _ => incl end) →
   ∀ es, node_at (rs_anchor rc) disk = Some (DirN es) → tidy (DirN es) →
     save_dir disk (rs_anchor rc) (rs_patterns rc)).
Proof.
  cbv zeta. destruct (resolve_game_parts disk game overrides ctx base) as (Hnd & Ha & Hin). split_and!; [done| | |].
  - intros x. rewrite Hin. by setoid_rewrite elem_of_template_patterns.
  - intros Hne Hplain es Hat Ht. rewrite Ha in *.
    destruct (compute_anchor_root (rs_patterns (resolve_game disk game overrides ctx base)) (ctx_roots ctx) Hne) as (cs & Hc & Hpre).
    { by eapply list.Forall_impl; [exact Hplain|intros ? []]. }
    rewrite Hc in *. apply (anchored_save_dir disk _ cs es); [done| |done..].
    intros p Hp. etrans; [by apply Hpre|apply anchor_candidate_prefix].
  - intros Hroot Hg Hnp Hincl es Hat Ht. unfold resolve_custom in *. cbn [rs_anchor rs_patterns] in *.
    rewrite Hroot in *. unfold path_of_text in *. rewrite components_absolute in *.
    set (incs := match incl with [] => ["**/*"] | _ => map slashes incl end) in *.
    assert (Hincs : Forall (λ g, ParentDir ∉ body (trim_start_char slash g)) incs).
    { unfold incs. destruct incl as [|i incl]; [|by apply List.Forall_map].
      apply list.Forall_cons in Hincl as [Hi _]. by constructor. }
    apply (anchored_save_dir disk _ (body r) es); [| |done..].
    + apply List.Forall_map. eapply list.Forall_impl; [exact Hincs|]. intros g Hgl. by apply custom_plain.
    + intros p (g & -> & _)%list_elem_of_fmap. by apply custom_prefix.
Qed.
End SavePaths.

Lemma body_filter s :
  map component_name (body s) = List.filter (λ x, negb (bool_decide (x = "" ∨ x = "."))) (split_on slash s).
Proof.
  unfold body. induction (split_on slash s) as [|x l IH]; [done|]. cbn [map concat]. rewrite map_app, IH.
  unfold component at 1. simpl. destruct (decide (x = "" ∨ x = ".")) as [H|H].
  - by rewrite bool_decide_eq_true_2.
  - rewrite bool_decide_eq_false_2 by done. case_decide; subst; done.
Qed.

#[local] Instance toy_GlobLaws : GlobLaws.
Proof.
  constructor. intros pat paths p [[r ->] Hnp] Hg Hp. unfold glob_paths, toy_Glob in Hg. case_decide; [done|]. apply (inj Some) in Hg as <-.
  apply list_elem_of_singleton in Hp as ->.
  assert (Hs : tail (split_on slash (String slash r)) = split_on slash r) by (cbn [split_on]; by rewrite decide_True).
  rewrite Hs.
  pose proof (fixed_prefix_prefix (components (String slash r))) as [k Hk].
  exists (map component_name k). split.
  - rewrite <- map_app, <- Hk, components_absolute. cbn [map component_name]. by rewrite body_filter.
  - apply list.Forall_forall. intros n (c & -> & Hc)%list_elem_of_fmap.
    assert (Hfix : ∃ x, fst (fixed_prefix (components (String slash r))) = RootDir :: x).
    { rewrite components_absolute. cbn [fixed_prefix]. change (is_glob (component_name RootDir)) with false. cbv iota.
      destruct (fixed_prefix (body r)). by eexists. }
    destruct Hfix as [x Hx]. rewrite Hx, components_absolute in Hk. injection Hk as Hk.
    assert (Hb : c ∈ body r) by (rewrite Hk; apply elem_of_app; by right).
    destruct (body_names r c Hb) as (m & -> & Hm); [|exact Hm]. intros ->. apply Hnp.
    rewrite components_absolute. by apply list_elem_of_further.
Qed.

Definition portal : Game := {|
  g_id := 5%N; g_title := "Portal"; g_source := ManifestSrc; g_steam_appid := None;
  g_save_targets := [{| st_glob := "<home>/saves/a.sav"; st_tags := []; st_os_hint := None; st_registry := false |};
                     {| st_glob := "<home>/saves/b.sav"; st_tags := []; st_os_hint := None; st_registry := false |}];
  g_running := false; g_last_played := None; g_last_session_secs := None; g_total_secs := 0 |}.
Definition home_only : ResolveContext := {|
  ctx_roots := {| home := "/h"; win_app_data := None; win_local_app_data := None; win_documents := None;
                  xdg_data := None; xdg_config := None; os_user_name := None; roots_os := Linux |};
  steam_libs := [] |}.
Definition saves : list (string * Node) := [("a.sav", FileN 1 [])].
Definition home_disk : Node := DirN [("/", DirN [("h", DirN [("saves", DirN saves)])])].

Lemma home_tidy : tidy (DirN saves) ∧ tidy (DirN [("saves", DirN saves)]).
Proof.
  assert (Hs : tidy (DirN saves)).
  { apply tidy_dir; [apply NoDup_singleton|apply list.Forall_singleton; done|apply list.Forall_singleton, tidy_file]. }
  split; [exact Hs|].
  apply tidy_dir; [apply NoDup_singleton|apply list.Forall_singleton; done|by apply list.Forall_singleton].
Qed.

Lemma saves_lie_under_the_anchor_witness :
  let rg := resolve_game home_disk portal [] home_only None in
  rs_patterns rg = ["/h/saves/a.sav"; "/h/saves/b.sav"] ∧
  save_dir home_disk ["/"; "h"; "saves"] ["/h/saves/a.sav"; "/h/saves/b.sav"] ∧
  save_dir home_disk ["/"; "h"] ["/h/saves/**"].
Proof.
  cbv zeta. split; [vm_compute; reflexivity|].
  destruct (saves_lie_under_the_anchor home_disk portal [] home_only None "/h/" ["saves/**"] [] "h") as (_ & _ & Hg & Hc).
  split.
  - apply (Hg ltac:(vm_compute; discriminate)) with (es := saves).
    + repeat constructor; try (vm_compute; eexists; reflexivity); apply (bool_decide_unpack _); vm_compute; exact I.
    + vm_compute. reflexivity.
    + apply home_tidy.
  - apply (Hc ltac:(vm_compute; reflexivity) ltac:(vm_compute; reflexivity)) with (es := [("saves", DirN saves)]).
    + apply (bool_decide_unpack _). vm_compute. exact I.
    + repeat constructor. apply (bool_decide_unpack _). vm_compute. exact I.
    + vm_compute. reflexivity.
    + apply home_tidy.
Defined.
