(* ===== verification/EngineSpec.v ===== *)
(** * Properties of the engine's handlers

    A handler is a program over the engine's state; [Moves R m] says that its
    state and the one it leaves are related by the preorder [R], whatever it
    returns.  Programs are covered by their structure. *)

From S2P Require Import Prelude CoreTypes ServerError Auth Blobs Hub ServerDb ServerGc ServerApi Snapshot Archive IpcFrame Manifest LocalState Client Backup Restore ExeIndex Watcher Steam Scan Paths Config Engine Catalog EngineOps DaemonWs ManifestSync Startup Programs.

Section EngineSpec.
Context {St : Type} `{SV : Server St} `{HI : HashIter} `{PF : Platform}.
Context `{B3 : Blake3} `{U : UuidText} `{G : Glob} `{T : Tar} `{MJ : MetaJson}
        `{JO : Json OutboxPayload} `{TD : TextForm DateTime} `{TC : TextForm SyncedConfig} `{ET : ErrorText}.
Context `{Y : Yaml}.

(** What every handler but the event loop's leaves: the games that run and the
    configuration; the bus only grows. *)
Record calm (en en' : Engine St) : Prop := {
  calm_running : en_running en' = en_running en;
  calm_config : en_config en' = en_config en;
  calm_events : en_events en `prefix_of` en_events en';
}.
(** And that the saves on disk are untouched. *)
Definition still (en en' : Engine St) : Prop := calm en en' ∧ en_disk en' = en_disk en.

#[export] Instance calm_preorder : PreOrder calm.
Proof.
  split; [by constructor|]. intros a b c [] []. constructor; [congruence..|by etrans].
Qed.
#[export] Instance still_preorder : PreOrder still.
Proof. split; [intros a; by split|]. intros a b c [] []. split; [by etrans|congruence]. Qed.

Lemma still_calm {A} (m : M (Engine St) A) : Moves still m → Moves calm m.
Proof. intros Hm s. apply Hm. Qed.

(** ** The lifted programs *)

#[export] Instance still_daemon {A} (m : M (Daemon St) A) : Moves still (en_daemon m).
Proof.
  intros en. unfold en_daemon, on_restorer, daemon. destruct (m (r_daemon (en_restorer en))) as [r d].
  by repeat constructor.
Qed.
#[export] Instance still_local f : Moves still (on_local f).
Proof. apply still_daemon. Qed.
#[export] Instance still_client f : Moves still (on_client f).
Proof. apply still_daemon. Qed.
#[export] Instance still_event e : Moves still (send_event e).
Proof. intros en. repeat constructor. by exists [e]. Qed.
#[export] Instance calm_restorer {A} (m : M (Restorer St) A) : Moves calm (on_restorer m).
Proof. intros en. unfold on_restorer. destruct (m (en_restorer en)) as [r d]. by repeat constructor. Qed.

#[export] Instance still_ignore {A} (m : M (Engine St) A) : Moves still m → Moves still (ignore m).
Proof. intros Hm. unfold ignore. solve_moves. Qed.
#[export] Instance still_or_err {A} (m : M (Engine St) A) k :
  Moves still m → (∀ a, Moves still (k a)) → Moves still (or_err m k).
Proof. intros Hm Hk. unfold or_err. solve_moves. Qed.
#[export] Instance still_conflicts f : Moves still (modify (λ en, with_conflicts (f en) en)).
Proof. intros en. by repeat constructor. Qed.
#[export] Instance still_catalog g x : Moves still (modify (with_catalog g x)).
Proof. intros en. by repeat constructor. Qed.
#[export] Instance still_secret c : Moves still (modify (with_secret c)).
Proof. intros en. by repeat constructor. Qed.
#[export] Instance still_device d : Moves still (modify (with_device d)).
Proof. intros en. by repeat constructor. Qed.
#[export] Instance still_learn g : Moves still (modify (with_learn g)).
Proof. intros en. by repeat constructor. Qed.
#[export] Instance still_manifest m : Moves still (modify (set_manifest m)).
Proof. intros en. by repeat constructor. Qed.
#[export] Instance still_device_or_nil : Moves still device_or_nil.
Proof. apply moves_gets, _. Qed.

(** ** The catalog *)

(** A refresh talks to the server, stores ids and the rows of the index, swaps
    the catalog in and announces it. *)
Section Refresh.
Context (R : relation (Engine St)) `{!PreOrder R}.
Context `{Rnet : ∀ A (m : M (Net St) A), Moves R (en_daemon (net m))}.
Context `{Rid : ∀ appid title id, Moves R (on_local (set_meta (game_key appid title) id))}.
Context `{Rrows : ∀ rows, Moves R (on_local (replace_exe_index rows))}.
Context `{Rcat : ∀ g x, Moves R (modify (with_catalog g x))}.
Context `{Rev : ∀ e, Moves R (send_event e)}.

#[export] Instance game_id_moves env appid title authed : Moves R (game_id_for env appid title authed).
Proof. unfold game_id_for, local_game_id. solve_moves. Qed.
#[export] Instance steam_moves inp games cat : Moves R (refresh_steam inp games cat).
Proof. revert cat. induction games as [|[lib sg] games IH]; intros cat; cbn [refresh_steam]; solve_moves. Qed.
#[export] Instance folders_moves inp folders cat : Moves R (refresh_folders inp folders cat).
Proof. revert cat. induction folders as [|[f d] folders IH]; intros cat; cbn [refresh_folders]; solve_moves. Qed.
#[export] Instance custom_moves inp games cat : Moves R (refresh_custom inp games cat).
Proof. revert cat. induction games as [|cg games IH]; intros cat; cbn [refresh_custom]; solve_moves. Qed.
#[export] Instance refresh_moves env b : Moves R (refresh_games env b).
Proof. unfold refresh_games, discover_steam_libraries. solve_moves. Qed.
End Refresh.

#[export] Instance still_refresh env b : Moves still (refresh_games env b).
Proof. apply refresh_moves; apply _. Qed.

(** ** Requests *)

#[export] Instance still_engine_backup env e : Moves still (engine_backup env e).
Proof. unfold engine_backup. solve_moves. Qed.
#[export] Instance still_record_conflict g h v : Moves still (record_conflict g h v).
Proof. unfold record_conflict. solve_moves. Qed.
#[export] Instance still_trigger env g : Moves still (trigger_backup env g).
Proof. unfold trigger_backup. solve_moves. Qed.
#[export] Instance still_pair_at env url code name : Moves still (pair_at env url code name).
Proof. intros en. unfold pair_at. case_decide; [apply still_daemon|]. simpl. reflexivity. Qed.

#[export] Instance calm_or_err {A} (m : M (Engine St) A) k :
  Moves calm m → (∀ a, Moves calm (k a)) → Moves calm (or_err m k).
Proof. intros Hm Hk. unfold or_err. solve_moves. Qed.
#[export] Instance calm_restore env g v : Moves calm (engine_restore env g v).
Proof. unfold engine_restore. pose proof (still_calm _ still_device_or_nil). solve_moves. Qed.

(** Requests other than a restore. *)
Definition restores (req : GuiRequest) : option (GameId * VersionId) :=
  match req with GuiRestore g v => Some (g, v) | _ => None end.

Lemma still_request env req : restores req = None → Moves still (handle_request env req).
Proof.
  intros Hr. destruct req; try discriminate Hr; cbn [handle_request];
    unfold engine_add_root, engine_remove_root, backup_now, engine_resolve_conflict, update_config, engine_pair,
      engine_add_custom_game, engine_remove_custom_game; solve_moves.
Qed.

Lemma calm_request env req : Moves calm (handle_request env req).
Proof.
  destruct (restores req) as [[g v]|] eqn:Er.
  - destruct req; try discriminate Er. apply calm_restore.
  - by apply still_calm, still_request.
Qed.

(** ** Pushes and ticks *)

Lemma still_handle env msg :
  (∀ g v n, msg ≠ VersionAvailable g v n) → Moves still (ws_handle env msg).
Proof.
  intros Hn. destruct msg; cbn [ws_handle]; [by edestruct Hn| | |apply _..];
    unfold record_ws_conflict, pull_config; solve_moves.
Qed.

Lemma calm_handle env msg : Moves calm (ws_handle env msg).
Proof.
  destruct msg; try (by apply still_calm, still_handle). cbn [ws_handle]. unfold on_version_available.
  pose proof (still_calm _ (still_event (SaveAvailable game_id))). solve_moves.
Qed.

#[export] Instance still_flush env : Moves still (flush_outbox env).
Proof. unfold flush_outbox. apply _. Qed.
#[export] Instance still_tick env sync c : Moves still (manifest_tick env sync c).
Proof. unfold manifest_tick. destruct (sync_manifest sync c) as [r c']. solve_moves. Qed.

(** ** Handlers that return *)

#[export] Instance returns_ignore {A} (m : M (Engine St) A) : Returns (ignore m).
Proof. unfold ignore. solve_returns. Qed.
#[export] Instance returns_or_err {A} (m : M (Engine St) A) k : (∀ a, Returns (k a)) → Returns (or_err m k).
Proof. intros Hk. unfold or_err. solve_returns. Qed.
#[export] Instance returns_local f : Returns (on_local (St := St) f).
Proof. by intros s e. Qed.
#[export] Instance returns_client f : Returns (on_client (St := St) f).
Proof. by intros s e. Qed.
#[export] Instance returns_authed : Returns (en_daemon (St := St) authed_client).
Proof. by intros s e. Qed.
#[export] Instance returns_device : Returns (device_or_nil (St := St)).
Proof. by intros s e. Qed.
#[export] Instance returns_record g h v : Returns (record_conflict (St := St) g h v).
Proof. unfold record_conflict. solve_returns. Qed.

(** Every failure of a request is a reply. *)
#[export] Instance returns_request env req : Returns (handle_request env req).
Proof.
  destruct req; cbn [handle_request];
    unfold engine_add_root, engine_remove_root, backup_now, engine_restore, engine_resolve_conflict, update_config, engine_pair,
      engine_add_custom_game, engine_remove_custom_game; solve_returns.
Qed.

Lemma or_err_ok {A} (m : M (Engine St) A) k en reply en' :
  or_err m k en = (Ok reply, en') →
  (∃ a en1, m en = (Ok a, en1) ∧ k a en1 = (Ok reply, en')) ∨
  (∃ e, m en = (Err e, en') ∧ e ≠ Hang ∧ reply = err e).
Proof.
  unfold or_err, attempt, mbind, M_bind. destruct (m en) as [[a|e] en1]; [left; eauto|].
  destruct e; simpl; intros E; try done; injection E as <- <-; right; eauto.
Qed.

Lemma ignore_ok {A} (m : M (Engine St) A) en a en' : ignore m en = (Ok a, en') → en' = snd (m en).
Proof.
  unfold ignore, attempt, mbind, M_bind. destruct (m en) as [[x|e] en1]; [by intros [= _ <-]|].
  by destruct e; simpl; intros [=].
Qed.

(** ** The synced config *)

Definition same_config (en en' : Engine St) : Prop :=
  get_meta "synced_config" (en_local en') = get_meta "synced_config" (en_local en).
#[export] Instance same_config_preorder : PreOrder same_config.
Proof. split; [by intros a|]. unfold same_config. intros a b c. congruence. Qed.
#[export] Instance same_config_net {A} (m : M (Net St) A) : Moves same_config (en_daemon (net m)).
Proof. intros en. unfold en_daemon, on_restorer, daemon, net. by destruct (m _). Qed.
#[export] Instance same_config_id appid title id : Moves same_config (on_local (set_meta (game_key appid title) id)).
Proof. intros en. unfold same_config, get_meta. apply lookup_insert_ne. by destruct appid. Qed.
#[export] Instance same_config_refresh env b : Moves same_config (refresh_games env b).
Proof. by apply refresh_moves; try apply _. Qed.

Lemma same_config_synced en en' : same_config en en' → synced_config (en_local en') = synced_config (en_local en).
Proof. unfold synced_config. by intros ->. Qed.

Lemma stored_config `{!TextFormLaws SyncedConfig} cfg (en : Engine St) :
  synced_config (en_local (snd (on_local (set_synced_config cfg) en))) = Ok (Some cfg).
Proof.
  transitivity (synced_config (set_synced_config cfg (en_local en))); [done|].
  unfold synced_config, set_synced_config, get_meta, set_meta. cbn [meta with_meta]. rewrite lookup_insert_eq.
  by rewrite from_to_str.
Qed.
End EngineSpec.
