(* ===== verification/CatalogSpec.v ===== *)
(** * Properties of the game catalog

    What a refresh lists, which of several games of one title it lists, and the
    ids the games keep. *)

From S2P Require Import Prelude CoreTypes ServerError Auth Blobs Hub ServerDb ServerGc ServerApi Snapshot Archive IpcFrame Manifest LocalState Client Backup Restore ExeIndex Watcher Steam Scan Paths Config Engine Catalog EngineOps Programs EngineSpec.

Section CatalogSpec.
Context {St : Type} `{SV : Server St} `{HI : HashIter} `{!HashIterLaws} `{PF : Platform}.
Context `{B3 : Blake3} `{U : UuidText} `{!UuidTextLaws} `{G : Glob} `{T : Tar} `{MJ : MetaJson}
        `{JO : Json OutboxPayload} `{TD : TextForm DateTime} `{TC : TextForm SyncedConfig}.
Implicit Types en : Engine St.

(** ** Ids *)

(** The id on disk for a key. *)
Definition stored_id (st : LocalState) (key : string) : option GameId := get_meta key st ≫= uuid_parse.
(** The id a game has without the server. *)
Definition known_id (env : Readings) (st : LocalState) (key : string) : GameId :=
  default (e_game_uuid env key) (stored_id st key).

Lemma stored_id_set key id k st :
  stored_id (set_meta key (uuid_to_string id) st) k = if decide (k = key) then Some id else stored_id st k.
Proof.
  unfold stored_id, get_meta, set_meta. cbn [meta with_meta]. case_decide as Hk.
  - subst k. rewrite lookup_insert_eq. simpl. apply uuid_parse_to_string.
  - by rewrite lookup_insert_ne.
Qed.

Definition ids_of (r : result AnyError GameRow * Engine St) : option GameId :=
  match fst r with Ok row => Some (gr_id row) | Err _ => None end.

(** What the server answers about a game, when it is asked. *)
Definition server_id (appid : option Z) (title : string) (authed : bool) en : option GameId :=
  if authed then ids_of (en_daemon (net (client_ensure_game title appid)) en) else None.

Lemma local_game_id_spec env key cached en e1 :
  cached = (if e_read_ok env key then stored_id (en_local en) key else None) → en_local e1 = en_local en →
  ∃ en', local_game_id env key cached e1 = (Ok (default (e_game_uuid env key) cached), en') ∧
    (e_read_ok env key = false → ∀ k, stored_id (en_local en') k = stored_id (en_local en) k) ∧
    (e_read_ok env key = true → ∀ k, stored_id (en_local en') k =
       if decide (k = key) then Some (default (e_game_uuid env key) cached) else stored_id (en_local en) k).
Proof.
  intros Hc He1. unfold local_game_id. destruct cached as [id|].
  - exists e1. rewrite He1. split_and!; [done..|]. intros Hr k. case_decide as Hk; [|done]. subst k. by rewrite Hr in Hc.
  - destruct (e_read_ok env key) eqn:Er.
    + eexists. split; [reflexivity|]. split; [done|]. intros _ k.
      transitivity (stored_id (set_meta key (uuid_to_string (e_game_uuid env key)) (en_local e1)) k); [done|].
      by rewrite stored_id_set, He1.
    + exists e1. rewrite He1. by split_and!.
Qed.

(** The id: the server's, else the stored one, else a new one; it is then stored
    unless it was read from a database that failed to answer. *)
Lemma game_id_for_spec env appid title authed en :
  let key := game_key appid title in
  let cached := if e_read_ok env key then stored_id (en_local en) key else None in
  let id := match server_id appid title authed en with
            | Some id => id
            | None => default (e_game_uuid env key) cached
            end in
  ∃ en', game_id_for env appid title authed en = (Ok id, en') ∧
    ((server_id appid title authed en = None ∧ e_read_ok env key = false →
      ∀ k, stored_id (en_local en') k = stored_id (en_local en) k) ∧
     (is_Some (server_id appid title authed en) ∨ e_read_ok env key = true →
      ∀ k, stored_id (en_local en') k = if decide (k = key) then Some id else stored_id (en_local en) k)).
Proof.
  cbv zeta. set (key := game_key appid title). unfold game_id_for. fold key.
  set (cached := if e_read_ok env key then stored_id (en_local en) key else None).
  assert (Hcached : (if e_read_ok env key then match get_meta key (en_local en) with Some s => uuid_parse s | None => None end else None) = cached)
    by (unfold cached, stored_id; by destruct (e_read_ok env key), (get_meta key (en_local en))).
  unfold mbind at 1, M_bind at 1, gets. rewrite Hcached.
  assert (Hlocal : ∀ e1, en_local e1 = en_local en → _) by (intros e1 He1; exact (local_game_id_spec env key cached en e1 eq_refl He1)).
  unfold server_id. destruct authed; cycle 1.
  { destruct (Hlocal en eq_refl) as (en' & Hl & Hf & Ht). exists en'. split; [exact Hl|]. split.
    - intros [_ Hr]. by apply Hf.
    - intros [[? [=]]|Hr]. by apply Ht. }
  unfold mbind, M_bind, attempt. unfold ids_of.
  assert (Hnet : en_local (snd (en_daemon (net (client_ensure_game title appid)) en)) = en_local en).
  { unfold en_daemon, on_restorer, daemon, net. by destruct (client_ensure_game _ _ _). }
  destruct (en_daemon (net (client_ensure_game title appid)) en) as [[row|e] e1]; simpl in Hnet; cbn [fst].
  - assert (Hset : ∀ k, stored_id (set_meta key (uuid_to_string (gr_id row)) (en_local e1)) k =
        if decide (k = key) then Some (gr_id row) else stored_id (en_local en) k)
      by (intros k; by rewrite stored_id_set, Hnet).
    case_bool_decide as Hc.
    + exists e1. split; [done|]. split; [by intros [? _]|]. intros _ k. rewrite Hnet. case_decide; [|done]. subst k.
      unfold cached in Hc. by destruct (e_read_ok env key).
    + eexists. split; [reflexivity|]. split; [by intros [? _]|]. intros _ k. apply Hset.
  - destruct (Hlocal e1 Hnet) as (en' & Hl & Hf & Ht). exists en'. split; [exact Hl|]. split.
    + intros [_ Hr]. by apply Hf.
    + intros [[? [=]]|Hr]. by apply Ht.
Qed.

Lemma game_id_for_ok env appid title authed en :
  ∃ id en', game_id_for env appid title authed en = (Ok id, en').
Proof. destruct (game_id_for_spec env appid title authed en) as (en' & E & _). eauto. Qed.

(** Without the server, and with a database that answers, the id is known in
    advance and no game's changes. *)
Lemma game_id_for_offline env appid title en id en' :
  (∀ k, e_read_ok env k = true) → game_id_for env appid title false en = (Ok id, en') →
  id = known_id env (en_local en) (game_key appid title) ∧
  ∀ k, known_id env (en_local en') k = known_id env (en_local en) k.
Proof.
  intros Hr E. destruct (game_id_for_spec env appid title false en) as (en2 & E2 & _ & Ht).
  rewrite E in E2. injection E2 as -> ->. rewrite Hr in *. split; [done|]. intros k. unfold known_id.
  rewrite Ht by auto. case_decide; [by subst|done].
Qed.

(** The keys of games tell Steam games and titles apart. *)
Lemma game_key_inj a t a' t' :
  game_key a t = game_key a' t' →
  match a, a' with
  | Some x, Some y => u32_to_string (Z.to_N x) = u32_to_string (Z.to_N y)
  | None, None => normalize_title t = normalize_title t'
  | _, _ => False
  end.
Proof. destruct a, a'; unfold game_key; cbn; rewrite ?append_cons; intros E; by injection E. Qed.

(** ** What is listed *)

(** Where an entry comes from, and that its save paths are those of its source. *)
Definition listed_from (inp : Inputs) (customs : list CustomGame) (e : GameEntry) : Prop :=
  let game := ge_game e in
  match g_source game with
  | CustomSrc => ∃ cg, cg ∈ customs ∧ g_title game = cg_title cg ∧ g_steam_appid game = None ∧
      ge_resolved e = resolve_custom (cg_save_root cg) (include cg) (exclude cg)
  | _ =>
    is_ignored (g_title game) (in_config inp) = false ∧
    match g_source game with
    | SteamSrc => g_save_targets game = []
    | _ => ∃ entry, in_manifest inp !! g_title game = Some entry ∧ g_save_targets game = save_targets entry
    end ∧
    match g_steam_appid game with
    | Some _ => ge_resolved e = resolve_game (in_disk inp) game (in_overrides inp) (in_ctx inp) None
    | None => ∃ dir, ge_resolved e = resolve_game (in_disk inp) game (in_overrides inp) (in_ctx inp) (Some dir)
    end
  end.

Definition entry_title (e : GameEntry) : string := normalize_title (g_title (ge_game e)).
Definition entry_key (e : GameEntry) : string := game_key (g_steam_appid (ge_game e)) (g_title (ge_game e)).

Record entries_ok (inp : Inputs) (customs : list CustomGame) (cat : Catalog) : Prop := {
  eo_id g e : cat_games cat !! g = Some e → g_id (ge_game e) = g;
  eo_from g e : cat_games cat !! g = Some e → listed_from inp customs e;
}.

(** A title that an earlier source took is taken once. *)
Record titles_ok (cat : Catalog) : Prop := {
  to_seen g e : cat_games cat !! g = Some e → entry_title e ∈ cat_seen cat;
  to_unique g1 e1 g2 e2 : cat_games cat !! g1 = Some e1 → cat_games cat !! g2 = Some e2 →
    entry_title e1 = entry_title e2 → g1 = g2 ∨ is_Some (g_steam_appid (ge_game e1)) ∧ is_Some (g_steam_appid (ge_game e2));
}.

(** With ids known in advance: an entry is under the id of its key, and a title
    is taken by an entry that is still listed. *)
Record ids_ok (kid : string → GameId) (cat : Catalog) : Prop := {
  io_key g e : cat_games cat !! g = Some e → g = kid (entry_key e);
  io_seen t : t ∈ cat_seen cat → ∃ g e, cat_games cat !! g = Some e ∧ entry_title e = t;
}.

Lemma by_appid_from (m : Manifest) a t entry :
  by_appid m !! a = Some (t, entry) → m !! t = Some entry ∧ me_steam entry = Some a.
Proof.
  unfold by_appid. enough (Hgen : ∀ l (acc : gmap Z (string * ManifestEntry)), (∀ x, x ∈ l → m !! fst x = Some (snd x)) →
    (∀ a t e, acc !! a = Some (t, e) → m !! t = Some e ∧ me_steam e = Some a) →
    ∀ a t e, foldl (λ acc e, match me_steam (snd e) with Some id => <[id := e]> acc | None => acc end) acc l !! a = Some (t, e) →
      m !! t = Some e ∧ me_steam e = Some a).
  { apply Hgen; [|by intros ???; rewrite lookup_empty]. intros [t' e']. apply elem_of_btree_iter. }
  clear a t entry. intros l. induction l as [|[t0 e0] l IH]; intros acc Hl Hacc; cbn [foldl]; [exact Hacc|].
  apply IH; [intros x Hx; by apply Hl, list_elem_of_further|]. intros a t e. cbn [snd].
  destruct (me_steam e0) as [i|] eqn:Ei; [|apply Hacc]. destruct (decide (i = a)) as [->|Hne].
  - rewrite lookup_insert_eq. intros [= <- <-]. split; [|done]. apply (Hl (t0, e0)), list_elem_of_here.
  - rewrite lookup_insert_ne by done. apply Hacc.
Qed.

Lemma add_entry_games e index seen cat g :
  cat_games (add_entry e index seen cat) !! g = if decide (g = g_id (ge_game e)) then Some e else cat_games cat !! g.
Proof.
  unfold add_entry. cbn [cat_games]. case_decide as Hg; [subst; apply lookup_insert_eq|by apply lookup_insert_ne].
Qed.

Lemma add_entries_ok inp customs e index seen cat :
  listed_from inp customs e → entries_ok inp customs cat → entries_ok inp customs (add_entry e index seen cat).
Proof.
  intros He [Hi Hf]. split; intros g e'; rewrite add_entry_games; (case_decide; [intros [= <-]; by subst|by eauto]).
Qed.

Lemma add_titles_ok e index t cat :
  t = entry_title e → t ∉ cat_seen cat → titles_ok cat →
  titles_ok (add_entry e index ({[t]} ∪ cat_seen cat) cat).
Proof.
  intros -> Hn [Hs Hu]. split.
  - intros g e'. rewrite add_entry_games. cbn [cat_seen add_entry]. case_decide; [intros [= <-]; set_solver|].
    intros Hg. apply Hs in Hg. set_solver.
  - intros g1 e1 g2 e2. rewrite !add_entry_games. intros H1 H2 Ht. repeat case_decide; simplify_eq; [by left| | |by eapply Hu].
    + exfalso. apply Hn. (rewrite Ht || rewrite <- Ht); by eapply Hs.
    + exfalso. apply Hn. (rewrite Ht || rewrite <- Ht); by eapply Hs.
Qed.

Lemma add_ids_ok kid e index t cat :
  (∀ k k', kid k = kid k' → k = k') → g_id (ge_game e) = kid (entry_key e) → g_steam_appid (ge_game e) = None →
  t = entry_title e → t ∉ cat_seen cat → titles_ok cat → ids_ok kid cat →
  ids_ok kid (add_entry e index ({[t]} ∪ cat_seen cat) cat).
Proof.
  intros Hinj Hk Ha -> Hn [Hs _] [Hio Hse]. split.
  - intros g e'. rewrite add_entry_games. case_decide; [intros [= <-]; congruence|]. apply Hio.
  - intros t. cbn [cat_seen add_entry]. intros [->%elem_of_singleton|Ht]%elem_of_union.
    + exists (g_id (ge_game e)), e. by rewrite add_entry_games, decide_True.
    + destruct (Hse t Ht) as (g & e' & Hg & He). exists g, e'. rewrite add_entry_games, decide_False; [done|].
      intros ->. apply Hn. pose proof (Hio _ _ Hg) as Hkey. rewrite Hk in Hkey. apply Hinj in Hkey.
      unfold entry_key in Hkey. rewrite Ha in Hkey. apply game_key_inj in Hkey.
      destruct (g_steam_appid (ge_game e')); [done|]. unfold entry_title. rewrite Hkey. by eapply Hs.
Qed.

(** ** The loops *)

Definition steam_match (inp : Inputs) (sg : SteamGame) := by_appid (in_manifest inp) !! Z.of_N (sg_appid sg).
Definition steam_title (inp : Inputs) (sg : SteamGame) : string :=
  match steam_match inp sg with Some (t, _) => t | None => sg_name sg end.
Definition steam_entry (inp : Inputs) (sg : SteamGame) (id : GameId) : GameEntry :=
  let '(source, targets) := match steam_match inp sg with
                            | Some (_, entry) => (ManifestSrc, save_targets entry)
                            | None => (SteamSrc, [])
                            end in
  let game := new_game id (steam_title inp sg) source (Some (Z.of_N (sg_appid sg))) targets in
  {| ge_game := game; ge_resolved := resolve_game (in_disk inp) game (in_overrides inp) (in_ctx inp) None |}.
Definition folder_entry (inp : Inputs) (title dir : string) (entry : ManifestEntry) (id : GameId) : GameEntry :=
  let game := new_game id title ManifestSrc None (save_targets entry) in
  {| ge_game := game; ge_resolved := resolve_game (in_disk inp) game (in_overrides inp) (in_ctx inp) (Some dir) |}.
Definition custom_entry (cg : CustomGame) (id : GameId) : GameEntry := {|
  ge_game := new_game id (cg_title cg) CustomSrc None [];
  ge_resolved := resolve_custom (cg_save_root cg) (include cg) (exclude cg) |}.

Section Loops.
Variable inp : Inputs.
Variable P : Catalog → Engine St → Prop.
Local Abbreviation id_for := (game_id_for (in_env inp)).

Lemma refresh_steam_ind games cat en cat' en' :
  (∀ lib sg en id en2 cat, (lib, sg) ∈ games → is_ignored (steam_title inp sg) (in_config inp) = false →
     id_for (Some (Z.of_N (sg_appid sg))) (steam_title inp sg) (in_authed inp) en = (Ok id, en2) → P cat en →
     P (add_entry (steam_entry inp sg id) (index_install_dir (in_disk inp) (install_path lib sg) id) (cat_seen cat) cat) en2) →
  P cat en → refresh_steam inp games cat en = (Ok cat', en') → P cat' en'.
Proof.
  revert cat en. induction games as [|[lib sg] games IH]; intros cat en Hstep Hp; cbn [refresh_steam].
  { by intros [= <- <-]. }
  assert (Hrest : ∀ c e, P c e → refresh_steam inp games c e = (Ok cat', en') → P cat' en').
  { intros c e Hc. apply IH; [|done]. intros ??????? . by apply Hstep, list_elem_of_further. }
  fold (steam_match inp sg). fold (steam_title inp sg).
  destruct (is_ignored (steam_title inp sg) (in_config inp)) eqn:Ei; [by apply Hrest|].
  destruct (game_id_for_ok (in_env inp) (Some (Z.of_N (sg_appid sg))) (steam_title inp sg) (in_authed inp) en) as (id & en2 & E).
  unfold mbind, M_bind. rewrite E.
  specialize (Hstep lib sg en id en2 cat ltac:(apply list_elem_of_here) Ei E Hp). unfold steam_entry in Hstep.
  destruct (steam_match inp sg) as [[t entry]|]; by apply Hrest.
Qed.

Lemma refresh_folders_ind folders cat en cat' en' :
  (∀ folder dir title entry en id en2 cat, (folder, dir) ∈ folders →
     match_folder (matcher_build (in_manifest inp)) folder = Some title → normalize_title title ∉ cat_seen cat →
     in_manifest inp !! title = Some entry → is_ignored title (in_config inp) = false →
     id_for None title (in_authed inp) en = (Ok id, en2) → P cat en →
     P (add_entry (folder_entry inp title dir entry id) (index_install_dir (in_disk inp) dir id)
          ({[normalize_title title]} ∪ cat_seen cat) cat) en2) →
  P cat en → refresh_folders inp folders cat en = (Ok cat', en') → P cat' en'.
Proof.
  revert cat en. induction folders as [|[folder dir] folders IH]; intros cat en Hstep Hp; cbn [refresh_folders].
  { by intros [= <- <-]. }
  assert (Hrest : ∀ c e, P c e → refresh_folders inp folders c e = (Ok cat', en') → P cat' en').
  { intros c e Hc. apply IH; [|done]. intros ???????? Hin. by apply Hstep, list_elem_of_further. }
  destruct (match_folder _ folder) as [title|] eqn:Em; [|by apply Hrest].
  destruct (decide _) as [Hs|Hs]; [by apply Hrest|].
  destruct (in_manifest inp !! title) as [entry|] eqn:Ee; [|by apply Hrest].
  destruct (is_ignored title (in_config inp)) eqn:Ei; [by apply Hrest|].
  destruct (game_id_for_ok (in_env inp) None title (in_authed inp) en) as (id & en2 & E).
  unfold mbind, M_bind. rewrite E. apply Hrest.
  by apply (Hstep folder dir title entry en id en2 cat ltac:(apply list_elem_of_here)).
Qed.

Lemma refresh_custom_ind games cat en cat' en' :
  (∀ cg en id en2 cat, cg ∈ games → normalize_title (cg_title cg) ∉ cat_seen cat →
     id_for None (cg_title cg) (in_authed inp) en = (Ok id, en2) → P cat en →
     P (add_entry (custom_entry cg id) (index_custom (in_disk inp) (cg_install_path cg) id)
          ({[normalize_title (cg_title cg)]} ∪ cat_seen cat) cat) en2) →
  P cat en → refresh_custom inp games cat en = (Ok cat', en') → P cat' en'.
Proof.
  revert cat en. induction games as [|cg games IH]; intros cat en Hstep Hp; cbn [refresh_custom].
  { by intros [= <- <-]. }
  assert (Hrest : ∀ c e, P c e → refresh_custom inp games c e = (Ok cat', en') → P cat' en').
  { intros c e Hc. apply IH; [|done]. intros ????? Hin. by apply Hstep, list_elem_of_further. }
  destruct (decide _) as [Hs|Hs]; [by apply Hrest|].
  destruct (game_id_for_ok (in_env inp) None (cg_title cg) (in_authed inp) en) as (id & en2 & E).
  unfold mbind, M_bind. rewrite E. apply Hrest.
  by apply (Hstep cg en id en2 cat ltac:(apply list_elem_of_here)).
Qed.
End Loops.

(** ** Entries *)

Lemma steam_entry_from inp customs sg id :
  is_ignored (steam_title inp sg) (in_config inp) = false → listed_from inp customs (steam_entry inp sg id).
Proof.
  intros Hi. unfold steam_entry, listed_from. unfold steam_title in *.
  destruct (steam_match inp sg) as [[t entry]|] eqn:E; cbn [ge_game ge_resolved new_game g_source g_steam_appid g_title g_save_targets];
    (split; [done|]; split; [|done]); [|done].
  apply by_appid_from in E as [E _]. by exists entry.
Qed.

Lemma folder_entry_from inp customs title dir entry id :
  in_manifest inp !! title = Some entry → is_ignored title (in_config inp) = false →
  listed_from inp customs (folder_entry inp title dir entry id).
Proof. intros Hm Hi. split; [done|]. split; [by exists entry|by exists dir]. Qed.

Lemma custom_entry_from inp customs cg id : cg ∈ customs → listed_from inp customs (custom_entry cg id).
Proof. intros Hc. by exists cg. Qed.

Lemma steam_entry_id inp sg id :
  g_id (ge_game (steam_entry inp sg id)) = id ∧ g_title (ge_game (steam_entry inp sg id)) = steam_title inp sg ∧
  g_steam_appid (ge_game (steam_entry inp sg id)) = Some (Z.of_N (sg_appid sg)).
Proof. unfold steam_entry. by destruct (steam_match inp sg) as [[t entry]|]. Qed.

(** ** A refresh *)

Definition steam_libraries en : list SteamLibrary :=
  concat (map (λ r, match root_kind r with SteamRoot => discover_libraries (en_disk en) (root_path r) | _ => [] end)
            (list_roots (en_local en))).
Definition current_overrides (st : LocalState) : list PathOverride :=
  match read_overrides st with Ok l => l | Err _ => [] end.
Definition inputs_of (env : Readings) (enrich : bool) en : Inputs := {|
  in_env := env; in_disk := en_disk en; in_config := en_config en; in_manifest := en_manifest en;
  in_overrides := current_overrides (en_local en);
  in_ctx := {| ctx_roots := e_roots env; Paths.steam_libs := steam_libraries en |};
  in_authed := enrich && is_authenticated (en_client en) |}.

Definition with_seen (cat : Catalog) : Catalog :=
  {| cat_games := cat_games cat; cat_index := cat_index cat; cat_seen := seen_titles (cat_games cat) |}.

(** The tables the loops read. *)
Definition same_tables en en' : Prop :=
  roots (en_local en') = roots (en_local en) ∧ LocalState.custom_games (en_local en') = LocalState.custom_games (en_local en).
#[export] Instance same_tables_preorder : PreOrder same_tables.
Proof. split; [by split|]. intros a b c [] []. split; congruence. Qed.
#[export] Instance same_net {A} (m : M (Net St) A) : Moves same_tables (en_daemon (net m)).
Proof. intros en. unfold en_daemon, on_restorer, daemon, net. by destruct (m _). Qed.
#[export] Instance same_meta k v : Moves same_tables (on_local (set_meta k v)).
Proof. by intros en. Qed.
#[export] Instance same_id env appid title authed : Moves same_tables (game_id_for env appid title authed).
Proof. apply game_id_moves; apply _. Qed.

Lemma same_id_ok env appid title authed en id en' :
  game_id_for env appid title authed en = (Ok id, en') → same_tables en en'.
Proof. intros E. pose proof (same_id env appid title authed en) as Hs. by rewrite E in Hs. Qed.

Lemma refresh_games_run env enrich en en' :
  refresh_games env enrich en = (Ok tt, en') →
  let inp := inputs_of env enrich en in
  ∃ cat1 en1 cat2 en2 cat3 en3,
    refresh_steam inp (steam_games (steam_libraries en)) Catalog_new en = (Ok cat1, en1) ∧
    refresh_folders inp (drive_folders (en_disk en) (list_roots (en_local en))) (with_seen cat1) en1 = (Ok cat2, en2) ∧
    refresh_custom inp (list_custom_games (en_local en)) cat2 en2 = (Ok cat3, en3) ∧
    en_games en' = cat_games cat3 ∧ en_exe_index en' = cat_index cat3 ∧
    en_local en' = replace_exe_index (to_rows (cat_index cat3)) (en_local en3) ∧
    en_events en' = en_events en3 ++ [CatalogUpdated].
Proof.
  unfold refresh_games. intros Hrun. apply M_bind_ok in Hrun as (libs & e0 & [= <- <-] & Hrun). apply M_bind_ok in Hrun as (en0 & e1 & [= <- <-] & Hrun).
  apply M_bind_ok in Hrun as (ovs & e2 & [Ho <-]%pair_equal_spec & Hrun). cbv beta zeta.
  assert (Hovs : ovs = current_overrides (en_local en)) by (unfold current_overrides; by rewrite Ho). subst ovs.
  change {| in_env := _ |} with (inputs_of env enrich en) in Hrun. set (inp := inputs_of env enrich en) in *.
  apply M_bind_ok in Hrun as (cat1 & en1 & H1 & Hrun). apply M_bind_ok in Hrun as (st1 & e3 & [= <- <-] & Hrun).
  apply M_bind_ok in Hrun as (cat2 & en2 & H2 & Hrun). apply M_bind_ok in Hrun as (st2 & e4 & [= <- <-] & Hrun).
  apply M_bind_ok in Hrun as (cat3 & en3 & H3 & Hrun).
  assert (Hs1 : same_tables en en1).
  { apply (refresh_steam_ind inp (λ _ e, same_tables en e) _ _ _ _ _) in H1; [done| |done].
    intros ??? ? ? ? _ _ E%same_id_ok ?. by etrans. }
  assert (Hs2 : same_tables en en2).
  { apply (refresh_folders_ind inp (λ _ e, same_tables en e) _ _ _ _ _) in H2; [done| |done].
    intros ???????? _ _ _ _ _ E%same_id_ok ?. by etrans. }
  exists cat1, en1, cat2, en2, cat3, en3. destruct Hs1 as [Hr1 _], Hs2 as [_ Hc2].
  unfold list_roots in *. rewrite Hr1 in H2. unfold list_custom_games in *. rewrite Hc2 in H3.
  injection Hrun as <-. by split_and!.
Qed.

Lemma with_seen_titles cat :
  (∀ g e, cat_games cat !! g = Some e → is_Some (g_steam_appid (ge_game e))) → titles_ok (with_seen cat).
Proof.
  intros Ha. split; cbn [with_seen cat_games cat_seen].
  - intros g e Hg. unfold seen_titles. apply elem_of_list_to_set, list_elem_of_fmap. exists (g, e).
    split; [done|]. by apply elem_of_map_to_list.
  - intros g1 e1 g2 e2 H1 H2 _. right. split; by eapply Ha.
Qed.

Lemma with_seen_listed cat t : t ∈ cat_seen (with_seen cat) → ∃ g e, cat_games cat !! g = Some e ∧ entry_title e = t.
Proof.
  cbn [with_seen cat_seen]. unfold seen_titles.
  intros ([g e] & -> & Hin)%elem_of_list_to_set%list_elem_of_fmap.
  exists g, e. split; [by apply elem_of_map_to_list|done].
Qed.

(** In any mode. *)
Lemma refresh_lists env enrich en en' :
  refresh_games env enrich en = (Ok tt, en') →
  ∃ cat, en_games en' = cat_games cat ∧ titles_ok cat ∧
    entries_ok (inputs_of env enrich en) (list_custom_games (en_local en)) cat.
Proof.
  intros (cat1 & en1 & cat2 & en2 & cat3 & en3 & H1 & H2 & H3 & Hg & _)%refresh_games_run.
  set (inp := inputs_of env enrich en) in *. set (customs := list_custom_games (en_local en)) in *.
  apply (refresh_steam_ind inp (λ c _, entries_ok inp customs c ∧ ∀ g e, cat_games c !! g = Some e → is_Some (g_steam_appid (ge_game e)))) in H1
    as [He1 Ha1]; cycle 1.
  { intros lib sg e id e2 c _ Hi _ [He Ha]. split; [by apply add_entries_ok; [apply steam_entry_from|]|].
    intros g x. rewrite add_entry_games. case_decide; [intros [= <-]|by apply Ha].
    destruct (steam_entry_id inp sg id) as (_ & _ & ->). by eexists. }
  { split; [split|]; intros g x; cbn [cat_games Catalog_new]; by rewrite lookup_empty. }
  apply (refresh_folders_ind inp (λ c _, entries_ok inp customs c ∧ titles_ok c)) in H2 as [He2 Ht2]; cycle 1.
  { intros folder dir title entry e id e2 c _ _ Hs Hm Hi _ [He Ht]. split.
    - by apply add_entries_ok; [apply folder_entry_from|].
    - by apply add_titles_ok. }
  { split; [by destruct He1|by apply with_seen_titles]. }
  apply (refresh_custom_ind inp (λ c _, entries_ok inp customs c ∧ titles_ok c)) in H3 as [He3 Ht3]; cycle 1.
  { intros cg e id e2 c Hin Hs _ [He Ht]. split.
    - by apply add_entries_ok; [apply custom_entry_from|].
    - by apply add_titles_ok. }
  { done. }
  by exists cat3.
Qed.

(** ** Titles taken *)

(** A folder the manifest knows and no ignore excludes. *)
Definition wanted_folder (inp : Inputs) (folder title : string) : Prop :=
  match_folder (matcher_build (in_manifest inp)) folder = Some title ∧ is_Some (in_manifest inp !! title) ∧
  is_ignored title (in_config inp) = false.

Lemma refresh_folders_seen inp folders cat en cat' en' :
  refresh_folders inp folders cat en = (Ok cat', en') →
  cat_seen cat ⊆ cat_seen cat' ∧
  ∀ folder dir title, (folder, dir) ∈ folders → wanted_folder inp folder title → normalize_title title ∈ cat_seen cat'.
Proof.
  revert cat en. induction folders as [|[f d] folders IH]; intros cat en; cbn [refresh_folders].
  { intros [= <- <-]. split; [done|]. by intros ??? ?%elem_of_nil. }
  assert (Hrest : ∀ c e, cat_seen cat ⊆ cat_seen c →
    (∀ title, wanted_folder inp f title → normalize_title title ∈ cat_seen c) →
    refresh_folders inp folders c e = (Ok cat', en') →
    cat_seen cat ⊆ cat_seen cat' ∧
    ∀ folder dir title, (folder, dir) ∈ (f, d) :: folders → wanted_folder inp folder title → normalize_title title ∈ cat_seen cat').
  { intros c e Hc Hhere E%IH. destruct E as [Hs Hin]. split; [set_solver|].
    intros folder dir title [[= -> ->]|?]%elem_of_cons Hw; [by apply Hs, Hhere|by eapply Hin]. }
  destruct (match_folder _ f) as [title|] eqn:Em; cycle 1.
  { apply Hrest; [done|]. intros ? [? _]. congruence. }
  destruct (decide _) as [Hs|Hs].
  { apply Hrest; [done|]. intros ? [? _]. congruence. }
  destruct (in_manifest inp !! title) as [entry|] eqn:Ee; cycle 1.
  { apply Hrest; [done|]. intros t (? & [? ?] & _). congruence. }
  destruct (is_ignored title (in_config inp)) eqn:Ei.
  { apply Hrest; [done|]. intros t (? & _ & ?). congruence. }
  destruct (game_id_for_ok (in_env inp) None title (in_authed inp) en) as (id & en2 & E).
  unfold mbind, M_bind. rewrite E. apply Hrest; cbn [cat_seen add_entry]; [set_solver|].
  intros t [? _]. assert (t = title) as -> by congruence. set_solver.
Qed.

Lemma refresh_custom_seen inp games cat en cat' en' :
  refresh_custom inp games cat en = (Ok cat', en') →
  cat_seen cat ⊆ cat_seen cat' ∧ ∀ cg, cg ∈ games → normalize_title (cg_title cg) ∈ cat_seen cat'.
Proof.
  revert cat en. induction games as [|cg games IH]; intros cat en; cbn [refresh_custom].
  { intros [= <- <-]. split; [done|]. by intros ? ?%elem_of_nil. }
  assert (Hrest : ∀ c e, cat_seen cat ⊆ cat_seen c → normalize_title (cg_title cg) ∈ cat_seen c →
    refresh_custom inp games c e = (Ok cat', en') →
    cat_seen cat ⊆ cat_seen cat' ∧ ∀ cg0, cg0 ∈ cg :: games → normalize_title (cg_title cg0) ∈ cat_seen cat').
  { intros c e Hc Hhere E%IH. destruct E as [Hs Hin]. split; [set_solver|].
    intros cg0 [->|?]%elem_of_cons; [by apply Hs|by apply Hin]. }
  destruct (decide _) as [Hs|Hs]; [by apply Hrest|].
  destruct (game_id_for_ok (in_env inp) None (cg_title cg) (in_authed inp) en) as (id & en2 & E).
  unfold mbind, M_bind. rewrite E. apply Hrest; cbn [cat_seen add_entry]; set_solver.
Qed.

(** ** Offline *)

Section Offline.
Variables (env : Readings) (en en' : Engine St).
Let kid := known_id env (en_local en).
Hypothesis Hreads : ∀ k, e_read_ok env k = true.
Hypothesis Hinj : ∀ k k', kid k = kid k' → k = k'.

Let inp := inputs_of env false en.
Let knows (e : Engine St) : Prop := ∀ k, known_id env (en_local e) k = kid k.

Lemma offline_id appid title e id e2 :
  game_id_for (in_env inp) appid title (in_authed inp) e = (Ok id, e2) → knows e →
  id = kid (game_key appid title) ∧ knows e2.
Proof.
  intros E Hk. apply (game_id_for_offline env) in E as [-> He2]; [|done]. split; [apply Hk|].
  intros k. by rewrite He2.
Qed.

(** What a step of a loop keeps, and what it has listed. *)
Definition offline_ok (c : Catalog) (e : Engine St) : Prop := titles_ok c ∧ ids_ok kid c ∧ knows e.
Definition steam_ok (c : Catalog) (e : Engine St) : Prop :=
  (∀ g x, cat_games c !! g = Some x → g = kid (entry_key x) ∧ is_Some (g_steam_appid (ge_game x))) ∧ knows e.
Definition lists_key (key : string) (c : Catalog) : Prop := is_Some (cat_games c !! kid key).
Definition lists_title (t : string) (c : Catalog) : Prop := ∃ g e, cat_games c !! g = Some e ∧ entry_title e = t.

Lemma steam_step lib sg e id e2 c :
  game_id_for (in_env inp) (Some (Z.of_N (sg_appid sg))) (steam_title inp sg) (in_authed inp) e = (Ok id, e2) →
  steam_ok c e →
  let c' := add_entry (steam_entry inp sg id) (index_install_dir (in_disk inp) (install_path lib sg) id) (cat_seen c) c in
  steam_ok c' e2 ∧ lists_key (game_key (Some (Z.of_N (sg_appid sg))) (steam_title inp sg)) c' ∧
  ∀ key, lists_key key c → lists_key key c'.
Proof.
  intros E [Hc Hk]. destruct (offline_id _ _ _ _ _ E Hk) as [-> He2].
  destruct (steam_entry_id inp sg (kid (game_key (Some (Z.of_N (sg_appid sg))) (steam_title inp sg)))) as (Hid & Htitle & Happ).
  cbv zeta. unfold lists_key. split_and!; [split; [|done]| |].
  - intros g x. rewrite add_entry_games. case_decide as Hg; [intros <-%(inj Some)|apply Hc].
    unfold entry_key. rewrite Htitle, Happ, Hg, Hid. by split.
  - rewrite add_entry_games, Hid, decide_True by done. by eexists.
  - intros key. rewrite add_entry_games. case_decide; [by eexists|done].
Qed.

Lemma title_step entry t idx id e e2 c appid :
  appid = None → game_id_for (in_env inp) appid t (in_authed inp) e = (Ok id, e2) →
  g_id (ge_game (entry id)) = id → g_steam_appid (ge_game (entry id)) = None → g_title (ge_game (entry id)) = t →
  normalize_title t ∉ cat_seen c → offline_ok c e →
  let c' := add_entry (entry id) idx ({[normalize_title t]} ∪ cat_seen c) c in
  offline_ok c' e2 ∧ ∀ key, lists_key key c → lists_key key c'.
Proof.
  intros -> E Hid Happ Htitle Hs (Ht & Hi & Hk). destruct (offline_id _ _ _ _ _ E Hk) as [Heq He2].
  cbv zeta. split; [split_and!; [| |done]|].
  - apply add_titles_ok; [unfold entry_title; by rewrite Htitle|done..].
  - apply add_ids_ok; [done| |done|unfold entry_title; by rewrite Htitle|done..].
    unfold entry_key. by rewrite Hid, Happ, Htitle.
  - unfold lists_key. intros key. rewrite add_entry_games. case_decide; [by eexists|done].
Qed.

Lemma offline_seen c e t : offline_ok c e → t ∈ cat_seen c → lists_title t c.
Proof. intros (_ & Hi & _). apply Hi. Qed.

Lemma steam_lists games c e c' e' :
  steam_ok c e → refresh_steam inp games c e = (Ok c', e') →
  steam_ok c' e' ∧ (∀ key, lists_key key c → lists_key key c') ∧
  ∀ lib sg, (lib, sg) ∈ games → is_ignored (steam_title inp sg) (in_config inp) = false →
    lists_key (game_key (Some (Z.of_N (sg_appid sg))) (steam_title inp sg)) c'.
Proof.
  revert c e. induction games as [|[lib sg] games IH]; intros c e Hok; cbn [refresh_steam].
  { intros [= <- <-]. split_and!; [done..|]. by intros ?? ?%elem_of_nil. }
  fold (steam_match inp sg). fold (steam_title inp sg).
  destruct (is_ignored (steam_title inp sg) (in_config inp)) eqn:Ei.
  { intros E. destruct (IH _ _ Hok E) as (Ho & Hm & Hin). split_and!; [done..|].
    intros l g [[= -> ->]|?]%elem_of_cons Hig; [congruence|by eapply Hin]. }
  destruct (game_id_for_ok (in_env inp) (Some (Z.of_N (sg_appid sg))) (steam_title inp sg) (in_authed inp) e) as (id & e2 & E).
  unfold mbind, M_bind. rewrite E. destruct (steam_step lib sg e id e2 c E Hok) as (Ho2 & Hkey & Hmono). intros Er.
  assert (Hr : refresh_steam inp games (add_entry (steam_entry inp sg id)
    (index_install_dir (in_disk inp) (install_path lib sg) id) (cat_seen c) c) e2 = (Ok c', e')).
  { rewrite <- Er. unfold steam_entry. by destruct (steam_match inp sg) as [[t entry]|]. }
  destruct (IH _ _ Ho2 Hr) as (Ho & Hm & Hin). split_and!; [done|naive_solver|].
  intros l g [[= -> ->]|?]%elem_of_cons Hig; [by apply Hm|by eapply Hin].
Qed.

Lemma refresh_offline :
  refresh_games env false en = (Ok tt, en') →
  (∀ g e, en_games en' !! g = Some e → g = kid (entry_key e)) ∧
  (∀ lib sg, (lib, sg) ∈ steam_games (steam_libraries en) → is_ignored (steam_title inp sg) (in_config inp) = false →
     is_Some (en_games en' !! kid (game_key (Some (Z.of_N (sg_appid sg))) (steam_title inp sg)))) ∧
  (∀ folder dir title, (folder, dir) ∈ drive_folders (en_disk en) (list_roots (en_local en)) → wanted_folder inp folder title →
     ∃ g e, en_games en' !! g = Some e ∧ entry_title e = normalize_title title) ∧
  (∀ cg, cg ∈ list_custom_games (en_local en) →
     ∃ g e, en_games en' !! g = Some e ∧ entry_title e = normalize_title (cg_title cg)) ∧
  (∀ k, known_id env (en_local en') k = kid k).
Proof.
  intros (c1 & en1 & c2 & en2 & c3 & en3 & H1 & H2 & H3 & Hg & _ & Hl & _)%refresh_games_run. fold inp in H1, H2, H3.
  assert (Hnew : steam_ok Catalog_new en) by (split; [by intros g x; cbn [cat_games Catalog_new]; rewrite lookup_empty|done]).
  destruct (steam_lists _ _ _ _ _ Hnew H1) as ([Hc1 Hk1] & _ & Hs1).
  pose proof (refresh_folders_seen _ _ _ _ _ _ H2) as [_ Hf2]. pose proof (refresh_custom_seen _ _ _ _ _ _ H3) as [Hm3 Hf3].
  pose (P := λ c e, offline_ok c e ∧ ∀ key, lists_key key c1 → lists_key key c).
  apply (refresh_folders_ind inp P) in H2 as [Ho2 Hk2]; cycle 1.
  { intros folder dir title entry e id e2 c _ _ Hs Hm Hi E [Ho Hk].
    destruct (title_step (folder_entry inp title dir entry) title (index_install_dir (in_disk inp) dir id) id e e2 c None) as [Ho' Hk'];
      try done. split; [exact Ho'|]. intros key Hkey. apply Hk', Hk, Hkey. }
  { split; [|by intros key Hkey]. split; [apply with_seen_titles; intros g x Hx; by destruct (Hc1 g x Hx)|split; [|done]].
    split; [intros g x Hx; by destruct (Hc1 g x Hx)|intros t Ht; exact (with_seen_listed c1 t Ht)]. }
  apply (refresh_custom_ind inp P) in H3 as [Ho3 Hk3]; cycle 1.
  { intros cg e id e2 c Hin Hs E [Ho Hk].
    destruct (title_step (custom_entry cg) (cg_title cg) (index_custom (in_disk inp) (cg_install_path cg) id) id e e2 c None) as [Ho' Hk'];
      try done. split; [exact Ho'|]. intros key Hkey. apply Hk', Hk, Hkey. }
  { by split. }
  rewrite Hg, Hl. split_and!.
  - intros g e He. destruct Ho3 as (_ & Hi & _). by apply Hi.
  - intros lib sg Hin Hi. by apply Hk3, (Hs1 lib).
  - intros folder dir title Hin Hw. apply (offline_seen c3 en3); [done|]. by eapply Hm3, Hf2.
  - intros cg Hin. apply (offline_seen c3 en3); [done|]. by apply Hf3.
  - intros k. destruct Ho3 as (_ & _ & Hk). apply Hk.
Qed.

End Offline.
End CatalogSpec.
