(* ===== verification/SystemSpec.v ===== *)
(** * Properties of the running daemon

    The steps of [Startup.system_step], and what a run of them has read off the
    event bus. *)

From S2P Require Import Prelude CoreTypes ServerError Auth Blobs Hub ServerDb ServerGc ServerApi Snapshot Archive IpcFrame Manifest LocalState Client Backup Restore ExeIndex Watcher Steam Scan Paths Config Engine Catalog EngineOps DaemonWs ManifestSync Startup Programs EngineSpec.

(** The games that play after some events. *)
Definition note_event (playing : gset GameId) (ev : DetectionEvent) : gset GameId :=
  match ev with
  | GameStarted g _ _ => {[g]} ∪ playing
  | GameStopped g _ => playing ∖ {[g]}
  | _ => playing
  end.
Definition playing_after (evs : list DetectionEvent) (playing : gset GameId) : gset GameId :=
  foldl note_event playing evs.

(** The backup an event asks for. *)
Definition wanted (ev : DetectionEvent) : option GameId :=
  match ev with GameStopped g _ | ManualBackupRequested g => Some g | _ => None end.

Section SystemSpec.
Context {St : Type} `{SV : Server St} `{HI : HashIter} `{PF : Platform}.
Context `{B3 : Blake3} `{U : UuidText} `{G : Glob} `{T : Tar} `{MJ : MetaJson}
        `{JO : Json OutboxPayload} `{TD : TextForm DateTime} `{TC : TextForm SyncedConfig} `{ET : ErrorText}.
Context `{Y : Yaml}.
Implicit Types s : System St.

(** What a step reads off the bus, and the backup it starts. *)
Definition read_by (i : Input) s : list DetectionEvent :=
  match i with
  | LoopReads => match en_events (sys_engine s) !! sys_read s with Some ev => [ev] | None => [] end
  | _ => []
  end.
Definition started_by (i : Input) s : list GameId :=
  match i with BackupRuns _ n => option_list (sys_spawned s !! n) | _ => [] end.

Fixpoint consumed (inputs : list Input) s : list DetectionEvent :=
  match inputs with
  | [] => []
  | i :: rest => read_by i s ++ consumed rest (system_step i s)
  end.
Fixpoint backups_run (inputs : list Input) s : list GameId :=
  match inputs with
  | [] => []
  | i :: rest => started_by i s ++ backups_run rest (system_step i s)
  end.

Definition is_lag (i : Input) : bool := match i with LoopLags _ => true | _ => false end.

(** ** One step *)

Lemma on_event_running ev (en : Engine St) :
  en_running (snd (on_event ev en)) = note_event (en_running en) ev ∧
  en_events en `prefix_of` en_events (snd (on_event ev en)) ∧
  en_disk (snd (on_event ev en)) = en_disk en ∧
  fst (on_event ev en) = Ok (wanted ev).
Proof. destruct ev; simpl; split_and!; try done; by eexists. Qed.

Lemma step_moves i s :
  en_running (sys_engine (system_step i s)) = playing_after (read_by i s) (en_running (sys_engine s)) ∧
  en_events (sys_engine s) `prefix_of` en_events (sys_engine (system_step i s)).
Proof.
  assert (Hcalm : ∀ A (m : M (Engine St) A), Moves calm m →
    en_running (snd (m (sys_engine s))) = en_running (sys_engine s) ∧
    en_events (sys_engine s) `prefix_of` en_events (snd (m (sys_engine s)))).
  { intros A m Hm. by destruct (Hm (sys_engine s)). }
  destruct i as [env req|ev| |n|env n|env msg|env|env sync|d]; cbn [system_step read_by playing_after foldl].
  - apply Hcalm, calm_request.
  - split; [done|by eexists].
  - unfold loop_reads. destruct (en_events (sys_engine s) !! sys_read s) as [ev|]; [|done].
    destruct (on_event_running ev (sys_engine s)) as (Hr & He & _).
    destruct (on_event ev (sys_engine s)) as [r en]. cbn [sys_engine foldl]. by rewrite <- Hr.
  - done.
  - unfold backup_runs. destruct (sys_spawned s !! n) as [g|]; [|done]. apply Hcalm, still_calm, _.
  - apply Hcalm, calm_handle.
  - apply Hcalm, still_calm, _.
  - unfold manifest_ticks. pose proof (Hcalm _ (manifest_tick env sync (sys_cache s)) (still_calm _ (still_tick _ _ _))) as Hm.
    by destruct (manifest_tick env sync (sys_cache s) (sys_engine s)) as [r en].
  - done.
Qed.

Lemma step_spawned i s :
  sys_spawned (system_step i s) ++ started_by i s ≡ₚ sys_spawned s ++ omap wanted (read_by i s).
Proof.
  destruct i as [env req|ev| |n|env n|env msg|env|env sync|d]; cbn [system_step read_by started_by omap list_omap];
    try done.
  - unfold loop_reads. destruct (en_events (sys_engine s) !! sys_read s) as [ev|]; [|done].
    destruct (on_event_running ev (sys_engine s)) as (_ & _ & _ & Hw).
    destruct (on_event ev (sys_engine s)) as [r en]. simpl in Hw. subst r. cbn [sys_spawned]. rewrite app_nil_r.
    cbn [omap list_omap]. by destruct (wanted ev).
  - unfold backup_runs. destruct (sys_spawned s !! n) as [g|] eqn:Hn; [|done]. cbn [sys_spawned option_list].
    rewrite app_nil_r. unfold remove_nth. rewrite <- (take_drop_middle (sys_spawned s) n g Hn) at 3.
    rewrite <- (assoc_L (++)), (comm (++) (drop (S n) _) [g]). done.
  - unfold manifest_ticks. by destruct (manifest_tick env sync (sys_cache s) (sys_engine s)) as [r en].
Qed.

(** ** The saves on disk *)

Lemma restore_of_running env g v (en : Engine St) :
  g ∈ en_running en ∨ en_games en !! g = None → en_disk (snd (engine_restore env g v en)) = en_disk en.
Proof.
  intros Hg. unfold engine_restore, mbind, M_bind, gets. cbn [id]. destruct (en_games en !! g) as [e|] eqn:Ee; [|done].
  destruct Hg as [Hg|]; [|done]. unfold device_or_nil, gets, or_err, attempt, mbind, M_bind.
  rewrite bool_decide_eq_true_2 by done. unfold on_restorer, run_restore, fail. done.
Qed.

Lemma restores_on_disk env g v (en : Engine St) :
  en_disk (snd (engine_restore env g v en)) ≠ en_disk en → is_Some (en_games en !! g) ∧ g ∉ en_running en.
Proof.
  intros Hne. split; [|intros Hin; apply Hne, restore_of_running; by left].
  destruct (en_games en !! g) eqn:E; [by eexists|]. by destruct Hne; apply restore_of_running; right.
Qed.

Lemma push_on_disk env msg (en : Engine St) :
  en_disk (snd (ws_handle env msg en)) ≠ en_disk en →
  ∃ g v n, msg = VersionAvailable g v n ∧ pull_policy en g = Auto ∧ is_Some (en_games en !! g) ∧ g ∉ en_running en.
Proof.
  intros Hd. destruct msg as [g v n| | | |]; [|by destruct Hd; apply (still_handle env)..].
  exists g, v, n. cbn [ws_handle] in Hd. unfold on_version_available, mbind at 1, M_bind at 1, gets in Hd. cbn [id] in Hd.
  destruct (pull_policy en g) eqn:Ep; [by destruct Hd|].
  destruct (bool_decide (g ∈ en_running en)) eqn:Eb; [by destruct Hd|].
  destruct (restores_on_disk env g v en) as [Hk Hr]; [|done].
  intros He. apply Hd. revert He. unfold mbind, M_bind. by destruct (engine_restore env g v en) as [[a|e] en'].
Qed.

Lemma step_disk i s :
  en_disk (sys_engine (system_step i s)) ≠ en_disk (sys_engine s) →
  (∃ d, i = FilesChange d) ∨
  (∃ env g v, is_Some (en_games (sys_engine s) !! g) ∧ (g ∉ en_running (sys_engine s)) ∧
     (i = GuiAsks env (GuiRestore g v) ∨
      (∃ n, i = ServerPushes env (VersionAvailable g v n) ∧ pull_policy (sys_engine s) g = Auto))).
Proof.
  intros Hd.
  assert (Hstill : ∀ A (m : M (Engine St) A), Moves still m →
    en_disk (snd (m (sys_engine s))) = en_disk (sys_engine s)) by (intros A m Hm; apply Hm).
  destruct i as [env req|ev| |n|env n|env msg|env|env sync|d]; cbn [system_step] in Hd; [| | | | | | | |by left; exists d].
  - destruct (restores req) as [[g v]|] eqn:Er; [|by destruct Hd; apply Hstill, still_request].
    destruct req; try discriminate Er. right. exists env, game_id, version_id.
    destruct (restores_on_disk env game_id version_id _ Hd) as [Hk Hr]. split_and!; [done..|by left].
  - by destruct Hd; apply Hstill, _.
  - destruct Hd. unfold loop_reads. destruct (en_events (sys_engine s) !! sys_read s) as [ev|]; [|done].
    destruct (on_event_running ev (sys_engine s)) as (_ & _ & He & _). by destruct (on_event ev (sys_engine s)).
  - done.
  - destruct Hd. unfold backup_runs. destruct (sys_spawned s !! n) as [g|]; [|done]. apply Hstill, _.
  - destruct (push_on_disk env msg _ Hd) as (g & v & n & -> & Hp & Hk & Hr). right. exists env, g, v.
    split_and!; [done..|right; by exists n].
  - by destruct Hd; apply Hstill, _.
  - destruct Hd. unfold manifest_ticks. pose proof (Hstill _ _ (still_tick env sync (sys_cache s))) as Hm.
    by destruct (manifest_tick env sync (sys_cache s) (sys_engine s)) as [r en].
Qed.

(** ** Runs *)

Lemma run_running inputs s :
  en_running (sys_engine (system_run inputs s)) = playing_after (consumed inputs s) (en_running (sys_engine s)).
Proof.
  revert s. induction inputs as [|i inputs IH]; intros s; [done|]. unfold system_run in *. cbn [foldl consumed].
  rewrite IH, (proj1 (step_moves i s)). unfold playing_after. by rewrite foldl_app.
Qed.

Lemma run_events inputs s : en_events (sys_engine s) `prefix_of` en_events (sys_engine (system_run inputs s)).
Proof.
  revert s. induction inputs as [|i inputs IH]; intros s; [done|]. etrans; [apply (step_moves i s)|apply IH].
Qed.

(** Every event that was read and asks for a backup has one that ran or is
    about to. *)
Lemma run_spawned inputs s :
  sys_spawned (system_run inputs s) ++ backups_run inputs s ≡ₚ sys_spawned s ++ omap wanted (consumed inputs s).
Proof.
  revert s. induction inputs as [|i inputs IH]; intros s; [done|]. specialize (IH (system_step i s)).
  unfold system_run in *. cbn [foldl backups_run consumed]. rewrite omap_app.
  transitivity (started_by i s ++ (sys_spawned (system_step i s) ++ omap wanted (consumed inputs (system_step i s)))).
  - rewrite <- IH. apply Permutation_app_swap_app.
  - rewrite !(assoc_L (++)). apply Permutation_app; [|done]. rewrite <- step_spawned. apply Permutation_app_comm.
Qed.

(** Without lag a step reads the event the cursor is at, or none. *)
Lemma step_read i s bus :
  is_lag i = false → en_events (sys_engine s) `prefix_of` bus →
  take (sys_read (system_step i s)) bus = take (sys_read s) bus ++ read_by i s.
Proof.
  intros Hi Hb. destruct i as [env req|ev| |n|env n|env msg|env|env sync|d]; try discriminate Hi;
    cbn [system_step read_by]; rewrite ?app_nil_r; try done.
  - unfold loop_reads. destruct (en_events (sys_engine s) !! sys_read s) as [ev|] eqn:E; [|by rewrite app_nil_r].
    destruct (on_event ev (sys_engine s)) as [r en]. cbn [sys_read].
    apply take_S_r. by eapply prefix_lookup_Some.
  - unfold backup_runs. by destruct (sys_spawned s !! n).
  - unfold manifest_ticks. by destruct (manifest_tick _ _ _ _).
Qed.

(** Then the events are read in the order of the bus, none left out. *)
Lemma run_consumed inputs s :
  forallb (λ i, negb (is_lag i)) inputs = true →
  let bus := en_events (sys_engine (system_run inputs s)) in
  take (sys_read (system_run inputs s)) bus = take (sys_read s) bus ++ consumed inputs s.
Proof.
  revert s. induction inputs as [|i inputs IH]; intros s Hl; cbv zeta; [by rewrite app_nil_r|].
  cbn [forallb] in Hl. apply andb_true_iff in Hl as [Hi%negb_true_iff Hl]. cbn [consumed].
  unfold system_run. cbn [foldl]. fold (system_run inputs (system_step i s)). specialize (IH (system_step i s) Hl).
  cbv zeta in IH. rewrite IH, (step_read i s); [by rewrite <- (assoc_L (++))|done|].
  etrans; [apply (step_moves i s)|apply run_events].
Qed.
End SystemSpec.
