(* ===== verification/EngineDemo.v ===== *)
(** * A worked engine

    The device of DaemonDemo.v behind an engine that knows one game. *)

From stdpp Require Import countable.
From S2P Require Import Prelude CoreTypes ServerError Auth Blobs Hub ServerDb ServerGc ServerApi Instances ServerSystem Demo Snapshot Archive IpcFrame CoreInstances Manifest LocalState Client Backup Restore DaemonInstances DaemonDemo ExeIndex Watcher Steam Scan Paths Config Engine Catalog EngineOps DaemonWs ManifestSync Startup EngineInstances.

Definition demo_game : Game := {|
  g_id := the_game; g_title := "Game"; g_source := CustomSrc; g_steam_appid := None; g_save_targets := [];
  g_running := false; g_last_played := None; g_last_session_secs := None; g_total_secs := 0 |}.
Definition demo_entry : GameEntry := {|
  ge_game := demo_game;
  ge_resolved := {| rs_patterns := ["/s"]; rs_registry_keys := []; rs_anchor := save_anchor; rs_excludes := [] |} |}.

Definition engine_of (r : Restorer World) : Engine World := {|
  en_config := DaemonConfig_default; en_restorer := r; secret_store := None; en_events := [];
  en_exe_index := ExeIndex_new; en_manifest := ∅; en_games := {[ the_game := demo_entry ]}; conflicts := ∅;
  en_running := ∅; learn_mode := None; server_connected := false; en_device_id := Some the_device |}.

Definition demo_roots : Roots := {|
  home := "/h"; win_app_data := None; win_local_app_data := None; win_documents := None;
  xdg_data := None; xdg_config := None; os_user_name := None; roots_os := Linux |}.

Definition renv_at (t : Z) (outbox_id : N) : Readings := {|
  e_backup := benv OtherN t outbox_id; e_wall := t; e_game_uuid key := Npos (encode key); e_root_uuid n := N.of_nat n;
  e_read_ok _ := true; e_store_ok := true; e_os := Linux; e_roots := demo_roots; e_version := "1"; e_uptime := 0;
  e_rss := 0; e_elsewhere _ _ := Err Transport; e_autostart := autostart_enabled_other;
  e_set_autostart := autostart_set_other; e_logs _ := [] |}.

(** Version 10 is on the server, and the file has changed since. *)
Definition demo_engine (links : list Link) : Engine World :=
  engine_of (DaemonDemo.restorer (link links saved1) [("a", 2%N)]).
Definition demo_system (links : list Link) : System World := System_new (demo_engine links) Cache_empty.

(** An engine with a hand-registered game, before it has built its catalog. *)
Definition quest : CustomGame := {|
  cg_title := "My Quest"; cg_install_path := None; cg_save_root := "/s"; include := []; exclude := [] |}.
Definition quest_state : LocalState := snd (add_custom_game quest LocalState_open).
Definition quest_engine (app : AppState) (links : list Link) : Engine World :=
  Engine_new DaemonConfig_default quest_state None ∅ {| staged := ∅; archives := ∅ |} (DaemonDemo.disk [("a", 1%N)])
    {| w_app := app; w_links := links |}.
(** A server whose owner has just asked for a pairing code. *)
Definition inviting : AppState := run (take 1 script) booted.

Lemma quest_ids (k k' : string) :
  default (Npos (encode k)) None = default (Npos (encode k')) None → k = k'.
Proof. simpl. intros [= E]. by apply (inj encode). Qed.

#[export] Instance toy_Toml : Toml := {| toml_from_str _ := Some DaemonConfig_default |}.
(** The next process on the device, with nothing in its environment. *)
Definition machine (stored : option Credentials) : Machine := {|
  m_env _ := None; m_config_file := NotFound; m_stored := stored; m_archives := ∅;
  m_scratch := {| staged := ∅; archives := ∅ |}; m_disk := OtherN; m_listening := false |}.
