(* ===== verification/DaemonFindings.v ===== *)
(** * savr-daemon: runs that go wrong

    Concrete runs of daemon and server together, each a behaviour the comments
    of the code rule out. *)

From S2P Require Import Prelude CoreTypes ServerError Auth Blobs Hub ServerDb ServerGc ServerApi Ws DbWf ServerSystem Instances Demo Snapshot Archive IpcFrame Manifest CoreInstances LocalState Client Backup Restore ExeIndex Watcher Steam Scan Paths Config Engine Catalog EngineOps DaemonWs ManifestSync Startup DaemonInstances DaemonDemo EngineInstances EngineDemo.


(** An upload whose answer is lost becomes a conflict with itself.  The
    server has recorded the version, the daemon queues it, and sending it again
    makes a second version of the same parent and files: a conflict no second
    device took part in, with the local head on the losing branch. *)
Theorem lost_answer_forks_the_game :
  let d1 := snd (backup [("a", 1%N)] 5 50 [Served (env_at 10 5); Served (env_at 10 5); Lost (env_at 10 5)] (fresh_daemon ready)) in
  let d2 := snd (retry_outbox (secs 8) (secs 8) (link (served 3 11 8) d1)) in
  let rows := versions (app_db (server_of d2)) in
  outbox_count (d_local d1) = 1%Z ∧ outbox_count (d_local d2) = 0%Z ∧
  map vr_id rows = [10; 11]%N ∧ map vr_parent rows = [None; None] ∧
  (∃ x y, rows = [x; y] ∧ vr_files x = vr_files y ∧ vr_blob_hash x = vr_blob_hash y) ∧
  map gr_head (games (app_db (server_of d2))) = [Some 10%N] ∧
  (local_head <$> get_snapshot the_game (d_local d2)) = Some (Some 11%N).
Proof. cbv zeta. split_and!; try by vm_compute. vm_compute. do 2 eexists. by split_and!. Qed.

(** ** Retention against chains *)

Definition diff_upload (parent : Uuid) : CreateVersion := {|
  cv_parent := Some parent; cv_kind := Differential; cv_files := []; cv_blob_hash := save_hash; cv_bytes := 2;
  cv_device_id := the_device |}.

Definition one_diff : SyncedConfig := {|
  tag := "seed"; CoreTypes.custom_games := []; overrides := []; conflict_policy := Manual; autopull_policy := Ask;
  retention := {| full := 1; diff_per_full := 1 |} |}.

(** A full version 10 and differentials 11 and 12, one differential retained. *)
Definition chained : AppState := run [
  (env_at 20 2, device_header, Device (PutConfig one_diff));
  (env_at 10 2, device_header, Device (PostVersion the_game (upload None)));
  (env_at 11 3, device_header, Device (PostVersion the_game (diff_upload 10)));
  (env_at 12 4, device_header, Device (PostVersion the_game (diff_upload 11)))] ready.

Definition swept : AppState := with_store (snd (run_gc (store chained))) chained.

Definition listed (app : AppState) : list Version :=
  match list_versions the_account the_game (app_db app) with Ok vs => vs | Err _ => [] end.
Definition chain_of (app : AppState) (id : VersionId) : option (result AnyError (list VersionId)) :=
  match build_chain (chain_fuel (listed app)) (listed app) id with
  | Some (Ok l) => Some (Ok (map v_id l))
  | Some (Err e) => Some (Err e)
  | None => None
  end.

(** C40. Retention can make the head unrestorable.  In a reachable state the head
    is a differential whose chain runs through another one to a full version;
    the next sweep keeps the head and the full version, prunes the link, and
    from then on no chain for the head exists. *)
Theorem gc_breaks_a_differential_chain :
  reachable chained ∧ reachable swept ∧
  map gr_head (games (app_db chained)) = [Some 12%N] ∧ map gr_head (games (app_db swept)) = [Some 12%N] ∧
  chain_of chained 12 = Some (Ok [10; 11; 12]%N) ∧
  map v_id (listed swept) = [12; 10]%N ∧
  ∃ e, chain_of swept 12 = Some (Err e).
Proof.
  assert (Hc : reachable chained) by (unfold chained; run_fresh; apply ready_reachable).
  split; [exact Hc|]. split; [eapply reach_step; [exact Hc|]; apply step_gc|].
  split_and!; try by vm_compute. eexists. by vm_compute.
Qed.

(** ** Runs of the engine *)

(** ** A conflict pushed to the device that owns the head *)

Definition other_device : Uuid := 6.
Definition other_env (id : Uuid) (t : Z) : Env := {|
  e_now := secs t; e_instant := secs t; e_uuid := id; e_tag := "tag"; e_seed_tag := "seed";
  e_code_bytes := [Byte.x03; Byte.x04]; e_secret_bytes := [Byte.x0b; Byte.xfe]; e_salt := "salt" |}.
Definition other_upload : CreateVersion := {|
  cv_parent := None; cv_kind := Full; cv_files := []; cv_blob_hash := save_hash; cv_bytes := 2; cv_device_id := other_device |}.

(** Version 10 is this device's, which listens on channel 1; the other device
    uploads version 11 from the same empty history. *)
Definition listening : AppState := ws_open the_auth 1 (server_of saved1).
Definition contested : AppState := run [
  (other_env 30 6, owner_header, PairCode);
  (other_env other_device 6, None,
   Pair {| pr_code := generate_pairing_code [Byte.x03; Byte.x04]; pr_device_name := "pc"; pr_os := Linux |});
  (other_env 11 7, Some ("Bearer " +:+ mint_access_token "key" 6 the_account other_device),
   Device (PostVersion the_game other_upload))] listening.

Definition told_engine : Engine World :=
  snd (ws_handle (renv_at 8 60) (ConflictMsg the_game [10%N; 11%N])
    (engine_of (DaemonDemo.restorer
       {| d_local := d_local saved1; d_cache := ∅;
          d_net := (paired, {| w_app := contested; w_links := [Served (other_env 40 8)] |}) |} [("a", 1%N)]))).
Definition kept_mine := engine_resolve_conflict the_game KeepMine told_engine.

(** A conflict pushed over the WebSocket is filed the wrong way round on the
    device whose save is the head.  Another device uploads version 11 against
    this device's 10; the server pushes the tips [10, 11]; the engine files 10 as
    theirs and 11 as mine, and when the user keeps mine the head moves to the
    other device's version, away from the save this device holds. *)
Theorem keep_mine_keeps_the_other_save :
  channels contested !! 1%N = Some [DeviceAdded other_device; ConflictMsg the_game [10%N; 11%N]] ∧
  map vr_id (versions (app_db contested)) = [10; 11]%N ∧ map vr_device (versions (app_db contested)) = [the_device; other_device] ∧
  (local_head <$> get_snapshot the_game (en_local told_engine)) = Some (Some 10%N) ∧
  fst kept_mine = Ok OkMsg ∧
  map gr_head (games (app_db contested)) = [Some 10%N] ∧
  map gr_head (games (app_db (w_app (snd (d_net (r_daemon (en_restorer (snd kept_mine)))))))) = [Some 11%N].
Proof. split_and!; by vm_compute. Qed.

(** ** A second launch *)

Definition already_running : Machine := {|
  m_env _ := None; m_config_file := NotFound; m_stored := None; m_archives := ∅;
  m_scratch := {| staged := ∅; archives := ∅ |}; m_disk := OtherN; m_listening := true |}.

(** The seconds recorded for the game. *)
Definition recorded (st : LocalState) : option Z := total_secs <$> play_stats st !! the_game.

(** Starting the daemon a second time loses the session that is being played.
    The second process steps aside for the first, but only after it has closed
    all open sessions in the database they share; an hour of play that the first
    process then sees end adds nothing. *)
Theorem second_launch_drops_the_session :
  let playing := play_start the_game (secs 0) LocalState_open in
  recorded (play_stop the_game (secs 3600) playing) = Some 3600%Z ∧
  ∃ after, launch already_running playing {| w_app := ready; w_links := [] |} = Exits after ∧
    recorded (play_stop the_game (secs 3600) after) = Some 0%Z.
Proof. split; [by vm_compute|]. eexists. split; [reflexivity|by vm_compute]. Qed.
