(* ===== verification/EngineTheorems.v ===== *)
(** * Theorems on the engine and the running daemon *)

From S2P Require Import Prelude CoreTypes ServerError Auth Blobs Hub ServerDb ServerGc ServerApi Instances ServerSystem Demo Snapshot Archive IpcFrame CoreInstances Manifest LocalState Client Backup Restore DaemonInstances DaemonDemo ExeIndex Watcher Steam Scan Paths Config Engine Catalog EngineOps DaemonWs ManifestSync Startup Programs EngineSpec CatalogSpec SystemSpec EngineInstances EngineDemo.

Section Running.
Context {St : Type} `{SV : Server St} `{HI : HashIter} `{PF : Platform}.
Context `{B3 : Blake3} `{U : UuidText} `{G : Glob} `{T : Tar} `{MJ : MetaJson}
        `{JO : Json OutboxPayload} `{TD : TextForm DateTime} `{TC : TextForm SyncedConfig} `{ET : ErrorText}.
Context `{Y : Yaml}.


(** C12. What the engine takes to be playing, and the backups it starts, are what the
    event bus says.  After any run the running set is the one the events read so
    far describe; every event read that asks for a backup (a game that stopped, a
    manual request) has had exactly one run, or one that is still to run; and as
    long as the loop does not lag behind the bus, the events it has read are
    those of the bus in order, none skipped. *)
Theorem events_drive_the_engine inputs (s : System St) :
  let s' := system_run inputs s in
  let bus := en_events (sys_engine s') in
  en_running (sys_engine s') = playing_after (consumed inputs s) (en_running (sys_engine s)) ∧
  sys_spawned s' ++ backups_run inputs s ≡ₚ sys_spawned s ++ omap wanted (consumed inputs s) ∧
  (forallb (λ i, negb (is_lag i)) inputs = true →
   take (sys_read s') bus = take (sys_read s) bus ++ consumed inputs s).
Proof. cbv zeta. split_and!; [apply run_running|apply run_spawned|apply run_consumed]. Qed.

(** ** The catalog *)


(** C26. A game keeps its id.  The id a game gets is the server's when the server
    answers, else the one stored under the game's key, else a new one; it is
    then the stored one, unless the database could not be read and nothing is
    written at all; the ids of other keys are untouched; and from then on, asked
    without the server, the game has the same id. *)
Theorem game_ids_are_stable `{!UuidTextLaws} env appid title authed (en : Engine St) :
  let key := game_key appid title in
  let '(r, en') := game_id_for env appid title authed en in
  ∃ id, r = Ok id ∧
    id = match server_id appid title authed en with
         | Some sid => sid
         | None => default (e_game_uuid env key) (if e_read_ok env key then stored_id (en_local en) key else None)
         end ∧
    (∀ k, k ≠ key → stored_id (en_local en') k = stored_id (en_local en) k) ∧
    (server_id appid title authed en = None → e_read_ok env key = false →
     stored_id (en_local en') key = stored_id (en_local en) key) ∧
    (is_Some (server_id appid title authed en) ∨ e_read_ok env key = true →
     stored_id (en_local en') key = Some id ∧
     ∀ env2 title2, e_read_ok env2 (game_key appid title2) = true → game_key appid title2 = key →
       fst (game_id_for env2 appid title2 false en') = Ok id).
Proof.
  cbv zeta. destruct (game_id_for_spec env appid title authed en) as (en' & -> & Hf & Ht).
  set (id := match server_id appid title authed en with Some _ => _ | None => _ end) in *.
  exists id. split_and!; [done|done| | |].
  - intros k Hk. destruct (server_id appid title authed en) as [sid|] eqn:Es.
    + rewrite Ht by (left; by eexists). by rewrite decide_False.
    + destruct (e_read_ok env (game_key appid title)) eqn:Er; [|by apply Hf].
      rewrite Ht by (by right). by rewrite decide_False.
  - intros Hs Hr. by apply Hf.
  - intros Hor. assert (Hst : stored_id (en_local en') (game_key appid title) = Some id) by (by rewrite Ht, decide_True).
    split; [exact Hst|]. intros env2 title2 Hr Hk.
    destruct (game_id_for_spec env2 appid title2 false en') as (en2 & -> & _). cbn [fst server_id].
    by rewrite Hr, Hk, Hst.
Qed.

(** ** The synced config *)

(** A config edit made in the GUI is kept whatever the server does, and what the
    device keeps afterwards is what the server accepted, new tag included, so
    that the next edit is not refused as stale.  The edit is acknowledged, the
    stored config reads back, and later catalog refreshes leave it alone. *)
Theorem config_edit_adopts_the_servers_answer `{!TextFormLaws SyncedConfig} env cfg (en : Engine St) :
  let en1 := snd (on_local (set_synced_config cfg) en) in
  match update_config env cfg en with
  | (Ok reply, en') =>
    reply = OkMsg ∧
    synced_config (en_local en') = Ok (Some (
      if is_authenticated (en_client en) then
        match fst (en_daemon (net (client_put_config cfg)) en1) with Ok updated => updated | Err _ => cfg end
      else cfg)) ∧
    ∀ env2 enrich, synced_config (en_local (snd (refresh_games env2 enrich en'))) = synced_config (en_local en')
  | (Err e, _) => e = Hang
  end.
Proof.
  cbv zeta. destruct (update_config env cfg en) as [[reply|e] en'] eqn:E.
  - unfold update_config in E. apply M_bind_ok in E as ([] & en1 & E1 & E). rewrite E1. cbn [snd].
    assert (H1 : en1 = snd (on_local (set_synced_config cfg) en)) by (by rewrite E1).
    apply M_bind_ok in E as (authed & en2 & Ea & E).
    assert (authed = is_authenticated (en_client en) ∧ en2 = en1) as [-> ->].
    { rewrite H1 in Ea |- *. by injection Ea as <- <-. }
    apply M_bind_ok in E as ([] & en3 & E2 & E). apply M_bind_ok in E as ([] & en4 & E3 & [= <- <-]).
    apply ignore_ok in E3 as ->. split; [done|].
    assert (Hkeep : ∀ e x y, synced_config (en_local (snd (refresh_games (TC := TC) x y e))) = synced_config (en_local e))
      by (intros e x y; apply same_config_synced, same_config_refresh).
    split; [|intros; apply Hkeep]. rewrite Hkeep. clear Hkeep.
    assert (Hcfg : synced_config (en_local en1) = Ok (Some cfg)) by (rewrite H1; apply stored_config).
    destruct (is_authenticated (en_client en)); [|by injection E2 as <-].
    unfold attempt, mbind, M_bind in E2. pose proof (same_config_net (client_put_config cfg) en1) as Hn.
    destruct (en_daemon (net (client_put_config cfg)) en1) as [[updated|err] en2]; cbn [fst snd] in *.
    + assert (en3 = snd (on_local (set_synced_config updated) en2)) as -> by (by rewrite E2). apply stored_config.
    + rewrite <- Hcfg, <- (same_config_synced _ _ Hn). by destruct err; try discriminate E2; injection E2 as <-.
  - apply (returns_request env (UpdateConfig cfg) en). cbn [handle_request]. by rewrite E.
Qed.

(** ** Pairing *)

Lemma pair_at_keeps env url code name (en : Engine St) :
  let en1 := snd (pair_at env url code name en) in
  en_local en1 = en_local en ∧ en_client en1 = en_client en ∧ secret_store en1 = secret_store en ∧
  en_device_id en1 = en_device_id en.
Proof.
  cbv zeta. unfold pair_at. case_decide; [|done]. unfold en_daemon, on_restorer, daemon.
  by destruct (client_pair _ _ _ _).
Qed.

Lemma launch_paired `{TM : Toml} (m : Machine) (st : LocalState) (srv : St) cfg c url :
  m_listening m = false → m_stored m = Some c → DaemonConfig_load (m_env m) (m_config_file m) = Ok cfg →
  get_meta "server_url" st = Some url →
  ∃ en : Engine St, launch m st srv = Runs en ∧ en_device_id en = Some (cred_device_id c) ∧ creds (en_client en) = Some c ∧
    is_authenticated (en_client en) = true ∧
    server_url (en_config en) = default url (m_env m "SAVR_SERVER_URL").
Proof.
  intros Hl Hs Hc Hu. unfold launch, boot_engine. rewrite Hc, Hl. cbn [mbind result_bind]. eexists. split; [reflexivity|].
  unfold Engine_new. cbn [en_device_id en_config en_client en_restorer r_daemon d_net]. rewrite Hs.
  split_and!; [done|done|done|]. unfold startup_config.
  destruct (m_env m "SAVR_SERVER_URL") as [u|] eqn:Eu; cycle 1.
  { change (get_meta "server_url" (close_orphaned_sessions st)) with (get_meta "server_url" st). by rewrite Hu. }
  unfold DaemonConfig_load in Hc. assert (Henv : ∀ c0, server_url (apply_env (m_env m) c0) = u).
  { intros c0. unfold apply_env. cbn [server_url]. by rewrite Eu. }
  destruct (m_config_file m) as [| |t]; [by injection Hc as <-|done|].
  destruct (toml_from_str t); [by injection Hc as <-|done].
Qed.

End Running.



Lemma events_drive_the_engine_witness :
  let inputs := [Detected (GameStarted the_game 42 (secs 5)); Detected (GameStopped the_game (secs 9)); LoopReads] in
  en_running (sys_engine (system_run inputs (demo_system []))) = {[ the_game ]} ∧
  consumed inputs (demo_system []) = [GameStarted the_game 42 (secs 5)].
Proof.
  cbv zeta. split.
  - rewrite (proj1 (events_drive_the_engine
      [Detected (GameStarted the_game 42 (secs 5)); Detected (GameStopped the_game (secs 9)); LoopReads] (demo_system []))).
    apply (bool_decide_unpack _). vm_compute. exact I.
  - vm_compute. reflexivity.
Defined.


Lemma game_ids_are_stable_witness :
  let en := snd (game_id_for (renv_at 1 1) (Some 620%Z) "Portal 2" false (quest_engine ready [])) in
  ∃ id, fst (game_id_for (renv_at 9 9) (Some 620%Z) "Portal II" false en) = Ok id ∧
        stored_id (en_local en) "gameid:steam:620" = Some id.
Proof.
  pose proof (game_ids_are_stable (renv_at 1 1) (Some 620%Z) "Portal 2" false (quest_engine ready [])) as Hg. cbv zeta in *.
  destruct (game_id_for (renv_at 1 1) (Some 620%Z) "Portal 2" false (quest_engine ready [])) as [r en].
  destruct Hg as (id & _ & _ & _ & _ & Hst). destruct Hst as [Hst Hagain]; [by right|]. exists id. split.
  - by apply (Hagain (renv_at 9 9) "Portal II").
  - exact Hst.
Defined.

(** Two edits in a row, the second with the tag the first one was answered. *)
Definition first_edit : SyncedConfig := set_tag "seed" SyncedConfig_default.
Definition edited1 := update_config (renv_at 10 54) first_edit (demo_engine [Served (env_at 20 5); Served (env_at 21 6)]).
Definition second_edit : SyncedConfig := set_tag (tag (current_config (en_local (snd edited1)))) SyncedConfig_default.
Definition edited2 := update_config (renv_at 11 55) second_edit (snd edited1).

Lemma config_edit_adopts_the_servers_answer_witness :
  map (λ e, tag (current_config (en_local (snd e)))) [edited1; edited2] =
    ["tag" +:+ uuid_to_string 20%N; "tag" +:+ uuid_to_string 21%N] ∧
  synced_config (en_local (snd (refresh_games (renv_at 12 56) true (snd edited2)))) = synced_config (en_local (snd edited2)).
Proof.
  split; [vm_compute; reflexivity|].
  pose proof (config_edit_adopts_the_servers_answer (renv_at 11 55) second_edit (snd edited1)) as Hc. cbv zeta in Hc.
  fold edited2 in Hc. assert (Hok : fst edited2 = Ok OkMsg) by (vm_compute; reflexivity).
  destruct edited2 as [r en']. cbn [fst] in Hok. subst r. apply Hc.
Defined.

Definition paired_run := engine_pair (renv_at 10 54) "http://localhost:8080/" (generate_pairing_code [Byte.x01; Byte.x02]) "deck"
  (quest_engine inviting [Served (env_at the_device 0)]).

