(* ===== verification/AppTheorems.v ===== *)
(** * Theorems on the GUI's side: answers, the supervised daemon, its endpoint, the manifest cache *)

From S2P Require Import Prelude CoreTypes ServerError Auth Blobs Hub ServerDb ServerGc ServerApi Instances ServerSystem Demo Snapshot Archive IpcFrame CoreInstances Manifest LocalState Client Backup Restore DaemonInstances DaemonDemo ExeIndex Watcher Steam Scan Paths Config Engine Catalog EngineOps DaemonWs IpcServer GuiApp ManifestSync Supervisor Startup Programs EngineSpec EngineInstances EngineDemo.

(** ** Requests and their answers *)

Section Answers.
Context {St : Type} `{SV : Server St} `{HI : HashIter} `{PF : Platform}.
Context `{B3 : Blake3} `{U : UuidText} `{G : Glob} `{T : Tar} `{MJ : MetaJson}
        `{JO : Json OutboxPayload} `{TD : TextForm DateTime} `{TC : TextForm SyncedConfig} `{ET : ErrorText}.
Context `{JG : Json GuiRequest} `{!JsonLaws GuiRequest} `{JD : Json DaemonMsg} `{!JsonLaws DaemonMsg}.

(** A reply the command of the request understands, or an error. *)
Definition understood (req : GuiRequest) (reply : DaemonMsg) : Prop :=
  (∃ text, reply = ErrorMsg text) ∨ (∃ v, command req reply = Ok v) ∧ (∀ ev, reply ≠ Event ev).

Lemma or_err_understood {A} req (m : M (Engine St) A) k en reply en' :
  (∀ a en1 r en2, k a en1 = (Ok r, en2) → understood req r) →
  or_err m k en = (Ok reply, en') → understood req reply.
Proof. intros Hk [(a & en1 & _ & E)|(e & _ & _ & ->)]%or_err_ok; [by eapply Hk|left; by eexists]. Qed.

Lemma ok_understood req : (∃ v, command req OkMsg = Ok v) → understood req OkMsg.
Proof. intros Hc. right. by split. Qed.

Lemma then_ok {A} req (m : M (Engine St) A) en reply en' :
  (∃ v, command req OkMsg = Ok v) → (_ ← m; mret OkMsg) en = (Ok reply, en') → understood req reply.
Proof. intros Hc (a & en1 & _ & [= <- _])%M_bind_ok. by apply ok_understood. Qed.

Lemma request_understood env req en reply en' :
  handle_request env req en = (Ok reply, en') → understood req reply.
Proof.
  destruct req; cbn [handle_request]; intros E;
    try (injection E as <- _; right; split; [by eexists|done]); try (by injection E as <- _; apply ok_understood; eexists).
  - apply M_bind_ok in E as ([] & e1 & _ & E). eapply then_ok; [by eexists|exact E].
  - apply M_bind_ok in E as ([] & e1 & _ & E). eapply then_ok; [by eexists|exact E].
  - unfold backup_now in E. apply M_bind_ok in E as (e0 & e1 & _ & E).
    destruct (en_games e0 !! game_id); [|injection E as <- _; left; by eexists].
    eapply or_err_understood; [|exact E]. intros [| | |hd inc] e2 r e3; try (intros [= <- _]; apply ok_understood; by eexists).
    intros [= <- _]. right. split; [by eexists|done].
  - eapply or_err_understood; [|exact E]. intros l e2 r e3 [= <- _]. right. split; [by eexists|done].
  - unfold engine_restore in E. apply M_bind_ok in E as (e0 & e1 & _ & E).
    destruct (en_games e0 !! game_id); [|injection E as <- _; left; by eexists].
    apply M_bind_ok in E as (dev & e2 & _ & E). eapply or_err_understood; [|exact E].
    intros ? ? ? ? [= <- _]. apply ok_understood. by eexists.
  - unfold engine_resolve_conflict in E. apply M_bind_ok in E as (e0 & e1 & _ & E).
    destruct (conflicts e0 !! game_id); [|injection E as <- _; left; by eexists]. revert E.
    destruct choice; apply or_err_understood; intros ? ? ? ? [= <- _]; apply ok_understood; by eexists.
  - apply M_bind_ok in E as ([] & e1 & _ & E). apply M_bind_ok in E as (b & e2 & _ & E).
    apply M_bind_ok in E as ([] & e3 & _ & E). eapply then_ok; [by eexists|exact E].
  - eapply or_err_understood; [|exact E]. intros [[[d a] sec] tok] e2 r e3.
    destruct (e_store_ok env); [|intros [= <- _]; left; by eexists].
    intros [= <- _]. right. split; [by eexists|done].
  - destruct (e_set_autostart env enabled); injection E as <- _; [apply ok_understood; by eexists|left; by eexists].
  - unfold engine_add_custom_game in E. apply M_bind_ok in E as (st & e1 & _ & E).
    destruct (add_custom_game (custom_of_spec spec) st) as [[u|m] st']; [|injection E as <- _; left; by eexists].
    apply M_bind_ok in E as ([] & e2 & _ & E). eapply then_ok; [by eexists|exact E].
  - apply M_bind_ok in E as ([] & e1 & _ & E). eapply then_ok; [by eexists|exact E].
Qed.

(** ** Through the frames *)

(** The answers to requests taken one after the other, without any framing. *)
Fixpoint answer_all (envs : nat → Readings) (n : nat) (reqs : list GuiRequest) (en : Engine St)
    : list DaemonMsg * ConnEnd * Engine St :=
  match reqs with
  | [] => ([], AtEof, en)
  | Shutdown :: _ => ([OkMsg], AskedShutdown, en)
  | req :: rest =>
    match handle_request (envs n) req en with
    | (Err _, en) => ([], Hung, en)
    | (Ok reply, en) => let '(out, e, en) := answer_all envs (S n) rest en in (reply :: out, e, en)
    end
  end.

Lemma serve_answers envs reqs frames :
  Forall2 (λ r f, encode_frame r = Ok f) reqs frames → ∀ fuel n en, length reqs < fuel →
  serve_requests envs fuel n (concat frames) en = answer_all envs n reqs en.
Proof.
  induction 1 as [|req f reqs frames Hf _ IH]; intros fuel n en Hlt; (destruct fuel as [|fuel]; [simpl in Hlt; lia|]).
  { reflexivity. }
  cbn [concat serve_requests]. rewrite (read_frame_encoded req f (concat frames) Hf). cbn [answer_all].
  simpl in Hlt. destruct req; try reflexivity;
    (destruct (handle_request _ _ en) as [[reply|e] en1]; [|reflexivity]; by rewrite IH by lia).
Qed.

Lemma frames_long reqs frames :
  Forall2 (λ (r : GuiRequest) f, encode_frame r = Ok f) reqs frames → length reqs <= length (concat frames).
Proof.
  induction 1 as [|r f reqs frames Hf _ IH]; [done|]. cbn [concat length]. rewrite length_app.
  apply encode_frame_length in Hf. lia.
Qed.

Lemma write_all_frames msgs frames :
  Forall2 (λ m f, encode_frame m = Ok f) msgs frames → write_all msgs = concat frames.
Proof.
  induction 1 as [|m f msgs frames Hf _ IH]; [done|]. cbn [write_all concat]. unfold frame_or_error. by rewrite Hf, IH.
Qed.

Lemma mixed_nil_events evs out : Mixed [] evs out → out = map Event evs.
Proof.
  remember [] as rs eqn:Er. induction 1 as [|r rs evs out _ _|ev rs evs out Hm IH]; [done|done|].
  cbn [map]. by rewrite IH.
Qed.

Lemma mixed_single reply evs out :
  Mixed [reply] evs out → ∃ before after, evs = before ++ after ∧ out = map Event before ++ reply :: map Event after.
Proof.
  remember [reply] as rs eqn:Er. induction 1 as [|r rs evs out Hm _|ev rs evs out Hm IH]; [done| |].
  - injection Er as -> ->. exists [], evs. split; [done|]. by rewrite (mixed_nil_events _ _ Hm).
  - destruct (IH Er) as (before & after & -> & ->). by exists (ev :: before), after.
Qed.

Lemma await_skips before reply rest frames :
  (∀ ev, reply ≠ Event ev) →
  Forall2 (λ m f, encode_frame m = Ok f) (map Event before ++ reply :: rest) frames →
  ∀ fuel, length before < fuel →
  await_reply fuel (concat frames) = Some (match reply with ErrorMsg m => Err (DaemonError m) | _ => Ok reply end).
Proof.
  intros Hne. revert frames. induction before as [|ev before IH]; intros frames Hf fuel Hlt;
    (destruct fuel as [|fuel]; [simpl in Hlt; lia|]); apply Forall2_cons_inv_l in Hf as (f & frames' & Hf & Hrest & ->).
  - cbn [concat await_reply]. rewrite (read_frame_encoded reply f _ Hf). by destruct reply; try by destruct (Hne e).
  - cbn [concat await_reply]. rewrite (read_frame_encoded (Event ev) f _ Hf). apply IH; [exact Hrest|simpl in Hlt; lia].
Qed.

(** C29. What a GUI command returns is the engine's answer to its request.  The
    requests of a connection are answered one by one in order; a pushed event may
    come before or after the answer but is never taken for it; and the answer is
    one the command understands, or the engine's error: no request ends in a
    protocol error. *)
Theorem gui_commands_get_their_answer envs reqs frames req reply (en en1 en' : Engine St) n evs out outs :
  Forall2 (λ r f, encode_frame r = Ok f) reqs frames →
  handle_request (envs n) req en1 = (Ok reply, en') →
  Mixed [reply] evs out → Forall2 (λ m f, encode_frame m = Ok f) out outs →
  serve_connection envs (concat frames) en = answer_all envs 0 reqs en ∧
  read_reply (write_all out) = Some (match reply with ErrorMsg m => Err (DaemonError m) | _ => Ok reply end) ∧
  match run_command req (match reply with ErrorMsg m => Err (DaemonError m) | _ => Ok reply end) with
  | Ok _ | Err (DaemonError _) => True
  | Err _ => False
  end.
Proof.
  intros Hf Hreq Hmix Hout. split; [|split].
  - unfold serve_connection. apply serve_answers; [exact Hf|]. pose proof (frames_long _ _ Hf). lia.
  - rewrite (write_all_frames _ _ Hout). unfold read_reply. apply mixed_single in Hmix as (before & after & -> & ->).
    eapply await_skips; [|exact Hout|].
    + destruct (request_understood _ _ _ _ _ Hreq) as [[text ->]|[_ He]]; done.
    + pose proof (list.Forall2_length _ _ _ Hout) as Hl. rewrite length_app, length_map in Hl.
      enough (length outs <= length (concat outs)) by (simpl in *; lia).
      clear -Hout. induction Hout as [|m f ms fs Hf _ IH]; [done|]. cbn [concat length]. rewrite length_app.
      apply encode_frame_length in Hf. lia.
  - destruct (request_understood _ _ _ _ _ Hreq) as [[text ->]|[[v Hv] _]]; [by destruct req|].
    destruct reply; cbn [run_command]; rewrite ?Hv; (done || by destruct req).
Qed.
End Answers.

Definition frame_of {A} `{Json A} (x : A) : bytes := match encode_frame x with Ok f => f | Err _ => [] end.
Definition sample_event : DetectionEvent := GameStarted the_game 42 5.

Lemma gui_commands_get_their_answer_witness :
  let out := [Event sample_event; RootsMsg []; Event CatalogUpdated] in
  serve_connection (λ _, renv_at 1 1) (concat (map (λ r : GuiRequest, frame_of r) [ListRoots; SetAutostart true])) (demo_engine [])
    = ([RootsMsg []; ErrorMsg "login autostart is only supported on Windows"], AtEof, demo_engine []) ∧
  read_reply (write_all out) = Some (Ok (RootsMsg [])) ∧ run_command ListRoots (Ok (RootsMsg [])) = Ok (VRoots []).
Proof.
  cbv zeta.
  pose proof (gui_commands_get_their_answer (λ _, renv_at 1 1) [ListRoots; SetAutostart true]
    (map (λ r : GuiRequest, frame_of r) [ListRoots; SetAutostart true]) ListRoots (RootsMsg []) (demo_engine []) (demo_engine [])
    (demo_engine []) 0 [sample_event; CatalogUpdated] [Event sample_event; RootsMsg []; Event CatalogUpdated]
    (map (λ m : DaemonMsg, frame_of m) [Event sample_event; RootsMsg []; Event CatalogUpdated]))
    as Hg.
  destruct Hg as (Hs & Hr & _).
  - repeat constructor; vm_compute; reflexivity.
  - reflexivity.
  - repeat constructor.
  - repeat constructor; vm_compute; reflexivity.
  - split; [rewrite Hs; reflexivity|]. split; [exact Hr|reflexivity].
Defined.

(** ** The supervised daemon *)

(** A task that watches or holds a child. *)
Definition fast_of (t : Task) : nat :=
  match t with
  | Head n | Spawning n | Holding _ n | Watching _ _ n | Cleared _ n | Asleep n => n
  | Returned => 0
  end.

(** Every process is the one handed over, or the one about to be. *)
Record supervised (a : App) : Prop := {
  sv_child p : p ∈ alive (shared a) →
    match task a with
    | Holding c _ => p = c
    | Watching c _ _ => p = c ∧ child (inner (shared a)) = Some c
    | _ => False
    end;
  sv_shutdown : shutting_down (inner (shared a)) = true → child (inner (shared a)) = None;
  sv_child_of c : child (inner (shared a)) = Some c → ∃ since n, task a = Watching c since n;
  sv_fast : fast_of (task a) < MAX_FAST_RESTARTS;
}.

Lemma supervised_start b : supervised (App_start b).
Proof.
  split; [by intros p ?%elem_of_empty|done|done|]. unfold MAX_FAST_RESTARTS. destruct b; simpl; lia.
Qed.

Lemma count_fast_fast n : fast_of (count_fast n) < MAX_FAST_RESTARTS.
Proof. unfold count_fast. case_decide; simpl; unfold MAX_FAST_RESTARTS in *; lia. Qed.

Lemma supervised_step a b : app_step a b → supervised a → supervised b.
Proof.
  intros Hs [Hc Hd Hw Hf]. destruct Hs as [s n|s n c Hn|s n|s n|s n c now|s n c since Hn|s n since now|s n|s t c|s t];
    unfold adopt, after_exit; cbn [shared task] in *; try destruct (shutting_down (inner s)) eqn:Es;
    (split; cbn [fst snd clear_child shutdown shared task alive inner child shutting_down] in *;
     [try (by intros p Hp%Hc)|try done; try (intros ?; apply Hd; congruence)|try naive_solver|
      try done; try (case_decide; simpl); try apply count_fast_fast; try (simpl; unfold MAX_FAST_RESTARTS; lia)]).
  all: intros p Hp; try (unfold kill in Hp; set_solver).
  all: destruct (child (inner s)) as [c|] eqn:Ec; [|specialize (Hc p Hp); destruct t; naive_solver].
  all: unfold kill in Hp; apply elem_of_difference in Hp as [Hp Hne]; destruct (Hw c eq_refl) as (since & n & ->);
    destruct (Hc p Hp) as [-> _]; set_solver.
Qed.

Lemma shutdown_ends a : supervised a → (∀ c n, task a ≠ Holding c n) → alive (shutdown (shared a)) = ∅.
Proof.
  intros [Hc Hd Hw Hf] Hn. unfold shutdown. cbn [alive]. apply set_eq. intros p. split; [|by intros ?%elem_of_empty].
  intros Hp. exfalso. destruct (child (inner (shared a))) as [c|] eqn:Ec.
  - unfold kill in Hp. apply elem_of_difference in Hp as [Hp Hne]. destruct (Hw c eq_refl) as (since & n & Et).
    apply Hc in Hp. rewrite Et in Hp. destruct Hp as [-> _]. set_solver.
  - apply Hc in Hp. destruct (task a) eqn:Et; try done; [by eapply Hn|]. by destruct Hp.
Qed.

(** Of an app that has ended the daemon was told. *)
Definition desktop_ok (d : Desktop) : Prop :=
  supervised (app d) ∧ (running d = false → shutting_down (inner (shared (app d))) = true).

Lemma desktop_run_ok b d : rtc desktop_step (Desktop_start b) d → desktop_ok d.
Proof.
  intros Hr. refine (rtc_ind_r desktop_ok (Desktop_start b) _ _ d Hr); [split; [apply supervised_start|done]|].
  clear d Hr. intros d d' _ Hst [Hs Hq].
  assert (Hshut : supervised (app (shut_down d))).
  { eapply supervised_step; [|exact Hs]. unfold shut_down. cbn [app]. destruct (app d) as [s t]. apply step_shutdown. }
  destruct Hst as [a Hrun Ha|ev Hrun]; [split; [by eapply supervised_step|done]|].
  destruct ev as [id|[] []| | | | | |]; simpl; try (by split). unfold on_menu_event.
  repeat case_bool_decide; by split.
Qed.

(** C24. Quitting the app leaves no daemon behind.  At any moment at most one daemon
    of the app runs; closing the window or showing it again leaves the daemon
    alone; the tray's Quit, an update's relaunch and the end of the app end it,
    unless it was spawned that moment and not handed over yet, and then the
    hand-over ends it, so that an app that has ended leaves a daemon only if the
    end cut that hand-over off; once the supervisor has returned, none runs.  It
    never counts five fast deaths and goes on. *)
Theorem quitting_leaves_no_daemon b d : let a := app d in
  rtc desktop_step (Desktop_start b) d →
  (∃ p, alive (shared a) ⊆ {[p]}) ∧
  (task a = Returned → alive (shared a) = ∅) ∧
  (shutting_down (inner (shared a)) = true → alive (shared a) ≠ ∅ →
   ∃ c n, task a = Holding c n ∧ fst (adopt c (shared a)) = false ∧ alive (snd (adopt c (shared a))) = ∅) ∧
  (∀ ev, ev = MenuEvent "quit" ∨ ev = UpdateRelaunch ∨ ev = ExitEvent →
     (∀ c n, task a ≠ Holding c n) → alive (shared (app (on_ui_event ev d))) = ∅) ∧
  (∀ ev, ev = CloseRequested ∨ ev = SecondLaunch ∨ ev = Reopen ∨ ev = MenuEvent "open" →
     app (on_ui_event ev d) = a ∧ running (on_ui_event ev d) = running d ∧
     visible (on_ui_event ev d) = negb (match ev with CloseRequested => true | _ => false end)) ∧
  (running d = false → alive (shared a) = ∅ ∨ ∃ c n, task a = Holding c n ∧ alive (shared a) ⊆ {[c]}) ∧
  fast_of (task a) < MAX_FAST_RESTARTS.
Proof.
  intros a Hr. destruct (desktop_run_ok b d Hr) as [[Hc Hd Hw Hf] Hq]. fold a in Hc, Hd, Hw, Hf, Hq.
  split_and!; [| | | | | |done].
  - destruct (decide (alive (shared a) = ∅)) as [He|[p Hp]%set_choose_L]; [exists 0; set_solver|].
    exists p. intros q Hq'. apply Hc in Hp, Hq'. destruct (task a); try done; [set_solver|]. destruct Hp, Hq'. set_solver.
  - intros Ht. rewrite Ht in Hc. set_solver.
  - intros Hs [p Hp]%set_choose_L. pose proof (Hc p Hp) as Hp'. destruct (task a) as [| |c n|c since n| | |] eqn:Et; try done.
    + exists c, n. unfold adopt. rewrite Hs. split_and!; [done|done|]. unfold kill. cbn [snd alive]. set_solver.
    + destruct Hp' as [_ Hp']. by rewrite Hd in Hp'.
  - intros ev Hev Hn. assert (Hs : alive (shutdown (shared a)) = ∅) by by apply shutdown_ends.
    destruct Hev as [->|[->| ->]]; exact Hs.
  - by intros ev [->|[->|[->| ->]]].
  - intros Hs%Hq. destruct (decide (alive (shared a) = ∅)) as [|[p Hp]%set_choose_L]; [by left|right].
    pose proof (Hc p Hp) as Hp'. destruct (task a) as [| |c n|c since n| | |]; try done.
    + exists c, n. split; [done|]. intros q Hq'. apply Hc in Hq'. set_solver.
    + destruct Hp' as [_ Hp']. by rewrite Hd in Hp'.
Qed.

(** The quit comes between the spawn and the hand-over. *)
Definition racing_quit : Desktop := {|
  app := {| shared := shutdown {| inner := Inner_default; alive := {[ 7 ]} |}; task := Holding 7 0 |};
  visible := true; running := true |}.

Lemma quitting_leaves_no_daemon_witness :
  alive (shared (app racing_quit)) = {[ 7 ]} ∧
  ∃ c n, task (app racing_quit) = Holding c n ∧ fst (adopt c (shared (app racing_quit))) = false ∧
    alive (snd (adopt c (shared (app racing_quit)))) = ∅.
Proof.
  split; [reflexivity|].
  assert (Hr : rtc desktop_step (Desktop_start false) racing_quit).
  { eapply rtc_l; [apply step_task; [done|]; apply (step_check _ 0)|].
    eapply rtc_l; [apply step_task; [done|]; apply (step_spawned _ 0 7), not_elem_of_empty|].
    eapply rtc_l; [apply (step_ui _ (MenuEvent "quit")); done|]. apply rtc_refl. }
  apply (quitting_leaves_no_daemon false racing_quit Hr); [reflexivity|]. vm_compute. discriminate.
Defined.

(** ** The daemon's endpoint *)

(** Past the guard and not bound yet. *)
Definition binding (ph : Phase) : bool := match ph with Guarded | Probed | FileCleared => true | _ => false end.
Definition one_binding (e : Endpoint) : Prop :=
  ∀ p q ph ph', daemons e !! p = Some ph → daemons e !! q = Some ph' → binding ph → binding ph' → p = q.

(** The start-ups do not overlap. *)
Definition apart_step (a b : Endpoint) : Prop := endpoint_step a b ∧ one_binding b.

Record endpoint_ok (e : Endpoint) : Prop := {
  eo_one : one_binding e;
  eo_socket p ph : daemons e !! p = Some ph → listens ph → socket e = Some p;
  eo_free p q ph ph' : daemons e !! p = Some ph → binding ph → daemons e !! q = Some ph' → ¬ listens ph';
}.

Lemma endpoint_found e p ph : endpoint_ok e → daemons e !! p = Some ph → listens ph → is_listening e = true.
Proof. intros He Hp Hl. unfold is_listening. rewrite (eo_socket _ He _ _ Hp Hl), Hp. by destruct ph. Qed.

Lemma moved_ok s p ph e :
  endpoint_ok e → one_binding (at_phase p ph (with_socket s e)) →
  (∀ q ph', q ≠ p → daemons e !! q = Some ph' → listens ph' → s = Some q ∧ ¬ binding ph) →
  (listens ph → s = Some p ∧ ∀ q ph', q ≠ p → daemons e !! q = Some ph' → ¬ binding ph') →
  endpoint_ok (at_phase p ph (with_socket s e)).
Proof.
  intros [H1 H2 H3] Hone Hoth Hme. split; [done|..]; cbn [daemons socket at_phase with_socket].
  - intros q ph'. destruct (decide (q = p)) as [->|Hq].
    + rewrite lookup_insert_eq. intros [= ->] Hl. by apply Hme.
    + rewrite lookup_insert_ne by done. intros Hd Hl. by eapply Hoth.
  - intros q r phq phr. destruct (decide (q = p)) as [->|Hq], (decide (r = p)) as [->|Hr];
      rewrite ?lookup_insert_eq, ?lookup_insert_ne by done.
    + intros [= <-] Hb [= <-] Hl. by destruct ph.
    + intros [= <-] Hb Hd Hl. by apply (Hoth r phr Hr Hd Hl).
    + intros Hd Hb [= <-] Hl. by apply (proj2 (Hme Hl) q phq Hq Hd).
    + intros Hd Hb Hd'. exact (H3 q r phq phr Hd Hb Hd').
Qed.

Lemma exits_ok p e : endpoint_ok e → endpoint_ok (exits p e).
Proof.
  intros [H1 H2 H3].
  assert (Hd : ∀ q ph, daemons (exits p e) !! q = Some ph → daemons e !! q = Some ph).
  { intros q ph. simpl. by intros [_ ?]%lookup_delete_Some. }
  split.
  - intros q r phq phr Hq%Hd Hr%Hd. exact (H1 q r phq phr Hq Hr).
  - intros q phq Hq%Hd. exact (H2 q phq Hq).
  - intros q r phq phr Hq%Hd Hb Hr%Hd. exact (H3 q r phq phr Hq Hb Hr).
Qed.

Lemma same_socket p ph e : at_phase p ph e = at_phase p ph (with_socket (socket e) e).
Proof. done. Qed.

Lemma advance_ok p ph e :
  endpoint_ok e → daemons e !! p = Some ph → one_binding (advance p ph e) → endpoint_ok (advance p ph e).
Proof.
  intros He Hp. pose proof He as [H1 H2 H3]. destruct ph; simpl.
  - destruct (is_listening e) eqn:El; intros Hone; [by apply exits_ok|].
    rewrite same_socket in *. apply moved_ok; [done..| |done].
    intros q ph' _ Hd Hl. by rewrite (endpoint_found _ _ _ He Hd Hl) in El.
  - intros Hone. assert (Hf : ∀ q ph', daemons e !! q = Some ph' → listens ph' → False) by (intros; by eapply (H3 p q)).
    destruct (is_listening e); rewrite same_socket in *; (apply moved_ok; [done..| |done]); intros; exfalso; by eapply Hf.
  - intros Hone. apply moved_ok; [done..| |done]. intros q ph' _ Hd Hl. by destruct (H3 p q _ _ Hp I Hd).
  - destruct (socket e) eqn:Es; intros Hone; [rewrite same_socket in *|]; apply moved_ok; try done.
    + intros q ph' _ Hd Hl. by destruct (H3 p q _ _ Hp I Hd).
    + intros q ph' _ Hd Hl. by destruct (H3 p q _ _ Hp I Hd).
    + intros _. split; [done|]. intros q ph' Hq Hd Hb. by destruct (H1 p q _ _ Hp Hd I Hb).
  - done.
  - intros Hone. apply moved_ok; [done..| |done]. intros q ph' Hq Hd Hl.
    pose proof (H2 _ _ Hd Hl) as E1. pose proof (H2 _ _ Hp I) as E2. congruence.
  - intros _. by apply exits_ok.
  - done.
Qed.

Lemma apart_run_ok e : rtc apart_step Endpoint_new e → endpoint_ok e.
Proof.
  intros Hr. refine (rtc_ind_r endpoint_ok Endpoint_new _ _ e Hr).
  { split; intros ?; cbn; intros *; by rewrite lookup_empty. }
  clear. intros a b _ [Hst Hone] Ha. pose proof Ha as [H1 H2 H3].
  assert (Hstay : ∀ p ph ph', daemons a !! p = Some ph' → (listens ph → listens ph') → ¬ binding ph →
    one_binding (at_phase p ph a) → endpoint_ok (at_phase p ph a)).
  { intros p ph ph' Hd Hl Hb Ho. rewrite same_socket in *. apply moved_ok; [done..| |].
    - intros q phq _ Hq Hlq. split; [exact (H2 _ _ Hq Hlq)|done].
    - intros Hlp. split; [exact (H2 _ _ Hd (Hl Hlp))|]. intros q phq _ Hq Hbq. exact (H3 q p _ _ Hq Hbq Hd (Hl Hlp)). }
  destruct Hst as [p Hp Hs|p ph Hp|p Hp|p Hp|p].
  - rewrite same_socket in *. apply moved_ok; [done..| |done]. intros q phq _ Hq Hlq. split; [exact (H2 _ _ Hq Hlq)|intros []].
  - by apply advance_ok.
  - destruct Hp as [Hp|Hp]; (eapply Hstay; [exact Hp|intros []|intros []|exact Hone]).
  - eapply Hstay; [exact Hp|done|intros []|exact Hone].
  - by apply exits_ok.
Qed.

(** A start-up that nobody overtakes. *)
Definition starts (p : nat) (e : Endpoint) : Endpoint :=
  advance p FileCleared (advance p Probed (advance p Guarded (advance p Starting e))).

(** C25. One daemon answers on the endpoint.  As long as start-ups do not overlap, at
    any moment at most one daemon accepts connections, a client that connects
    reaches exactly that one, and a client finds somebody exactly if a daemon
    accepts; a daemon started then leaves, and the one that accepts keeps its
    endpoint.  If nobody accepts, a daemon that starts gets the endpoint, even over
    the socket file of a daemon that crashed. *)
Theorem one_daemon_per_endpoint e : rtc apart_step Endpoint_new e →
  (∀ p q ph ph', daemons e !! p = Some ph → daemons e !! q = Some ph' → listens ph → listens ph' →
     p = q ∧ socket e = Some p) ∧
  (is_listening e = true ↔ ∃ p ph, daemons e !! p = Some ph ∧ listens ph) ∧
  (∀ p, daemons e !! p = Some Starting →
     if is_listening e
     then socket (advance p Starting e) = socket e ∧ daemons (advance p Starting e) = delete p (daemons e)
     else socket (starts p e) = Some p ∧ daemons (starts p e) !! p = Some Listening).
Proof.
  intros He%apart_run_ok. split_and!.
  - intros p q ph ph' Hp Hq Hl Hl'. pose proof (eo_socket _ He _ _ Hp Hl). pose proof (eo_socket _ He _ _ Hq Hl'). split; congruence.
  - split; [|intros (p & ph & Hp & Hl); by eapply endpoint_found]. unfold is_listening. repeat case_match; [|done..]. by eauto.
  - intros p Hp. destruct (is_listening e) eqn:El; unfold starts; [simpl; by rewrite El|].
    assert (El' : is_listening (at_phase p Guarded e) = false).
    { unfold is_listening in *. simpl. destruct (socket e) as [q|]; [|done]. destruct (decide (q = p)) as [->|Hq].
      - by rewrite lookup_insert_eq.
      - by rewrite lookup_insert_ne. }
    cbn [advance]. rewrite El. cbn [advance]. rewrite El'. cbn. by rewrite lookup_insert_eq.
Qed.

(** The first daemon was killed and its socket file is still there. *)
Definition after_crash : Endpoint := {| socket := Some 1; daemons := {[ 2 := Starting ]} |}.

Lemma one_binding_map e :
  map_Forall (λ p ph, map_Forall (λ q ph', binding ph → binding ph' → p = q) (daemons e)) (daemons e) → one_binding e.
Proof. intros H p q ph ph' Hp Hq. exact (H p ph Hp q ph' Hq). Qed.

Lemma one_daemon_per_endpoint_witness :
  socket (starts 2 after_crash) = Some 2 ∧ daemons (starts 2 after_crash) !! 2 = Some Listening.
Proof.
  assert (Hr : rtc apart_step Endpoint_new after_crash).
  { do 5 (eapply rtc_l; [split;
      [first [apply (ep_launched _ 1); [reflexivity|discriminate]|eapply (ep_advances _ 1); reflexivity]|
       apply one_binding_map, (bool_decide_unpack _); exact I]|]).
    eapply rtc_l; [split; [apply (ep_dies _ 1)|]|].
    { apply one_binding_map, (bool_decide_unpack _). exact I. }
    eapply rtc_l; [split; [apply (ep_launched _ 2)|]|]; [reflexivity|discriminate| |apply rtc_refl].
    apply one_binding_map, (bool_decide_unpack _). exact I. }
  destruct (one_daemon_per_endpoint after_crash Hr) as (_ & _ & H). exact (H 2 eq_refl).
Defined.

(** Start-ups that overlap: both probes come before either binding, the second
    clears the first one's socket file, and both accept; when the first one ends it
    clears the second one's file, and nobody can reach the daemon that runs. *)
Definition stolen : Endpoint := {| socket := Some 2; daemons := {[ 1 := Listening; 2 := Listening ]} |}.
Definition unreachable : Endpoint := {| socket := None; daemons := {[ 2 := Listening ]} |}.

Lemma overlapping_starts_steal_the_endpoint :
  rtc endpoint_step Endpoint_new stolen ∧ rtc endpoint_step stolen unreachable ∧ is_listening unreachable = false.
Proof.
  split_and!; [| |reflexivity].
  - eapply rtc_l; [apply (ep_launched _ 1); [reflexivity|discriminate]|].
    eapply rtc_l; [apply (ep_launched _ 2); [reflexivity|discriminate]|].
    do 2 (eapply rtc_l; [eapply (ep_advances _ 1); reflexivity|]).
    do 2 (eapply rtc_l; [eapply (ep_advances _ 2); reflexivity|]).
    do 2 (eapply rtc_l; [eapply (ep_advances _ 1); reflexivity|]).
    do 2 (eapply rtc_l; [eapply (ep_advances _ 2); reflexivity|]). apply rtc_refl.
  - eapply rtc_l; [apply (ep_told _ 1); reflexivity|].
    do 2 (eapply rtc_l; [eapply (ep_advances _ 1); reflexivity|]). apply rtc_refl.
Qed.

(** ** The manifest cache *)

(** The cached manifest, if there is one, parses. *)
Definition usable `{Y : Yaml} (c : Cache) : Prop :=
  match c_manifest c with Text t => is_Some (manifest_parse t) | NotFound => True | ReadError => False end.

Section ManifestCache.
Context `{Y : Yaml}.
Implicit Types c : Cache.

Lemma load_cached_text c t m : c_manifest c = Text t → manifest_parse t = Some m → load_cached c = Ok (Some m).
Proof. unfold load_cached. intros -> Hp. simpl. by rewrite Hp. Qed.

Lemma sync_ok env c o c' :
  sync_manifest env c = (Ok o, c') →
  load_cached c' = Ok (Some (ro_manifest o)) ∧ entry_count o = base.size (ro_manifest o) ∧ (not_modified o = true → c' = c).
Proof.
  unfold sync_manifest, fs_write. intros E. repeat case_match; simplify_eq/=; try done.
  all: by split_and!; [eapply load_cached_text|..].
Qed.

Lemma sync_err env c e c' :
  sync_manifest env c = (Err e, c') → on_manifest env = Written → on_etag env = Written → c' = c.
Proof. unfold sync_manifest, fs_write. intros E H1 H2. repeat case_match; by simplify_eq/=. Qed.

Lemma sync_usable env c r c' :
  sync_manifest env c = (r, c') → usable c → on_manifest env = Written → usable c'.
Proof.
  unfold sync_manifest, fs_write. intros E Hc Hw. repeat case_match; simplify_eq/=; try done.
  all: unfold usable; simpl; by eexists.
Qed.
End ManifestCache.


(** A first download, then the file is lost. *)
Definition online (status : Z) : SyncEnv := {|
  dir_ok := true;
  fetch header := Answered (match header with Some _ => 304 | None => status end) (Some "v1") (Some "Portal");
  on_manifest := Written; on_etag := Written |}.
Definition lost_file : Cache := {| c_manifest := NotFound; c_etag := Text "v1" |}.

