(* ===== verification/ClientTheorems.v ===== *)
(** * savr-daemon: theorems about the client and the local database *)

From S2P Require Import Prelude CoreTypes ServerError Auth Blobs Hub ServerDb ServerGc ServerApi Instances ServerSystem Demo Snapshot Archive ArchiveSpec IpcFrame LocalState Client ClientSpec OutboxSpec.

(** ** One refresh *)

Section Refresh.
Context `{B3 : Blake3} `{A2 : Argon2} `{J : Jwt} `{U : UuidText}.

Lemma bind_401 {A B} (r : result ApiError A) (f : A → result ApiError B) e :
  (∀ e, r = Err e → status e = 401%Z) → (∀ a e, f a = Err e → status e = 401%Z) →
  r ≫= f = Err e → status e = 401%Z.
Proof. intros Hr Hf. destruct r as [a|e']; simpl; [apply Hf|]. intros [= ->]. by apply Hr. Qed.

Lemma ok_or_401 {A} (o : option A) m e : ok_or o (unauthorized m) = Err e → status e = 401%Z.
Proof. destruct o; simpl; by intros [= <-]. Qed.

Lemma authed_401 env header app e : authed env header app = Err e → status e = 401%Z.
Proof.
  unfold authed. apply bind_401.
  - intros e'. unfold bearer. apply bind_401; [intros ?; apply ok_or_401|].
    intros v e2. destruct (strip_prefix _ v); simpl; by intros [= <-].
  - intros t e'. apply bind_401.
    + intros e2. unfold verify_access. destruct (jwt_decode _ _ _ _ ≫= _); [|by intros [= <-]].
      case_decide; by intros [= <-].
    + intros c e2. apply bind_401; [intros ?; apply ok_or_401|]. intros a e3.
      apply bind_401; [intros ?; apply ok_or_401|]. intros dv e4. destruct (negb _); by intros [= <-].
Qed.

(** A call with a stale token costs one refresh and succeeds as if the token
    had been fresh.  When the server rejects the bearer and the device's
    credential is good, the client trades the refresh secret for a token, sends
    the request once more with it, and returns whatever the server answers
    then, even another 401. *)
Theorem stale_token_is_refreshed_once old c account stored e1 e2 e3 rest req app e :
  authed e1 (Some ("Bearer " +:+ old)) app = Err e →
  device_credentials (cred_device_id c) (app_db app) = Some (account, stored, false) →
  verify_secret (refresh_secret c) stored = true →
  let fresh := mint_access_token (jwt_secret app) (timestamp e2) account (cred_device_id c) in
  let '(r, app') := build_app e3 (Some ("Bearer " +:+ fresh)) (Device req) app in
  send_authed (Device req)
    ({| access := Some old; creds := Some c |},
     {| w_app := app; w_links := Served e1 :: Served e2 :: Served e3 :: rest |}) =
  (Ok (http_of r), ({| access := Some fresh; creds := Some c |}, {| w_app := app'; w_links := rest |})).
Proof.
  intros Ha Hc Hv fresh. destruct (build_app e3 _ (Device req) app) as [r app'] eqn:E3.
  unfold send_authed, mbind at 1, M_bind at 1, send_once at 1, http_send, mbind at 1, M_bind at 1, gets at 1.
  cbn [fst snd send world_server w_app w_links exchange bearer_of access]. cbn [build_app].
  change (bearer_of {| access := Some old; creds := Some c |}) with (Some ("Bearer " +:+ old)).
  rewrite Ha. cbn [andThen http_of h_status]. rewrite (authed_401 _ _ _ _ Ha), bool_decide_eq_true_2 by done.
  cbn [negb]. unfold retry_once, client_refresh, mbind, M_bind, gets, of_option, http_send, lift_result, modify, mret, M_ret.
  cbn [fst snd send world_server w_app w_links exchange creds ok_or build_app].
  unfold refresh. cbn [rf_device_id rf_refresh_secret]. rewrite Hc. cbn [ok_or mbind result_bind].
  rewrite Hv. cbn [negb orb]. unfold http_of at 1, json, error_for_status, json_as. cbn [h_status h_body resp_status resp_body].
  rewrite bool_decide_eq_false_2 by lia. cbn [ok_or].
  unfold send_once, http_send, mbind, M_bind, gets. cbn [fst snd send world_server w_app w_links exchange].
  cbn [h_body ok_or exchange fst snd w_app w_links]. fold fresh.
  change (bearer_of (set_access_token fresh _)) with (Some ("Bearer " +:+ fresh)). by rewrite E3.
Qed.
End Refresh.

Lemma stale_token_is_refreshed_once_witness :
  fst (send_authed (Device ListDevices)
    ({| access := Some "stale"; creds := Some {| cred_device_id := the_device; cred_account_id := the_account; refresh_secret := "0aff" |} |},
     {| w_app := ready; w_links := [Served (env_at 20 5); Served (env_at 20 5); Served (env_at 20 5)] |})) =
  Ok (http_of (Ok (json (BDevices (list_devices the_account (app_db ready)))))).
Proof.
  set (c := {| cred_device_id := the_device; cred_account_id := the_account; refresh_secret := "0aff" |}).
  assert (He : ∃ e, authed (env_at 20 5) (Some ("Bearer " +:+ "stale")) ready = Err e) by (vm_compute; eauto).
  assert (Hd : ∃ stored, device_credentials (cred_device_id c) (app_db ready) = Some (the_account, stored, false) ∧
    verify_secret (refresh_secret c) stored = true) by (vm_compute; eauto).
  destruct He as [e He], Hd as (stored & Hd & Hv).
  pose proof (stale_token_is_refreshed_once "stale" c the_account stored (env_at 20 5) (env_at 20 5) (env_at 20 5) []
    ListDevices ready e He Hd Hv) as Hs. cbv zeta in Hs.
  assert (Hb : fst (build_app (env_at 20 5) (Some ("Bearer " +:+ mint_access_token (jwt_secret ready) (timestamp (env_at 20 5)) the_account (cred_device_id c)))
     (Device ListDevices) ready) = Ok (json (BDevices (list_devices the_account (app_db ready))))) by (vm_compute; reflexivity).
  destruct (build_app _ _ _ ready) as [r app']. cbn [fst] in Hb. subst r. by rewrite Hs.
Defined.

(** ** Play time *)

(** A run of one game, from its start to its stop. *)
Definition play (g : GameId) (st : LocalState) (session : DateTime * DateTime) : LocalState :=
  play_stop g (snd session) (play_start g (fst session) st).

(** Play time adds up.  Over any sequence of runs of a game its total grows
    by exactly their lengths in whole seconds, a run that the clock turned back
    counting nothing; a stop without a start, or after the daemon was restarted
    in between, adds nothing; and a second start replaces the first. *)
Theorem play_time_adds_up g sessions (st : LocalState) :
  total_played g (foldl (play g) st sessions) =
    (total_played g st + foldr (λ s acc, session_secs (fst s) (snd s) + acc) 0 sessions)%Z ∧
  (∀ s e, (0 <= session_secs s e)%Z ∧ ((s <= e)%Z → session_secs s e = (e - s) / nanos)%Z) ∧
  (∀ s e, total_played g (play_stop g e (close_orphaned_sessions (play_start g s st))) = total_played g st) ∧
  (∀ s1 s2 e, total_played g (play_stop g e (play_start g s2 (play_start g s1 st))) =
     (total_played g st + session_secs s2 e)%Z) ∧
  (∀ g', g' ≠ g → total_played g' (foldl (play g) st sessions) = total_played g' st).
Proof.
  split_and!.
  - revert st. induction sessions as [|[s e] sessions IH]; intros st; simpl; [lia|]. rewrite IH. unfold play. simpl.
    destruct (play_stop_row g e (play_start g s st)) as [-> _]. destruct (play_start_row g s st) as [-> ->]. lia.
  - intros s e. split; [apply session_secs_nonneg|]. intros Hse. unfold session_secs.
    rewrite Z.quot_div_nonneg by (unfold nanos; lia). apply Z.max_r, Z.div_pos; unfold nanos; lia.
  - intros s e. destruct (play_stop_row g e (close_orphaned_sessions (play_start g s st))) as [-> _].
    destruct (close_orphaned_row g (play_start g s st)) as [-> ->]. destruct (play_start_row g s st) as [-> _]. lia.
  - intros s1 s2 e. destruct (play_stop_row g e (play_start g s2 (play_start g s1 st))) as [-> _].
    destruct (play_start_row g s2 (play_start g s1 st)) as [-> ->]. by destruct (play_start_row g s1 st) as [-> _].
  - intros g' Hne. revert st. induction sessions as [|[s e] sessions IH]; intros st; simpl; [done|]. rewrite IH.
    unfold play, total_played. cbn [fst snd]. destruct (play_other g' g e (play_start g s st) Hne) as [_ ->].
    by destruct (play_other g' g s st Hne) as [-> _].
Qed.

Lemma play_time_adds_up_witness :
  let st := foldl (play the_game) LocalState_open [(secs 5, secs 65); (secs 70, secs 60)] in
  total_played the_game st = 60%Z ∧ total_played the_account st = 0%Z.
Proof.
  destruct (play_time_adds_up the_game [(secs 5, secs 65); (secs 70, secs 60)] LocalState_open) as (Ht & _ & _ & _ & Ho).
  split; [rewrite Ht; reflexivity|]. rewrite Ho by done. reflexivity.
Defined.

(** ** Hand-registered games *)

(** A hand-registered game is listed back as it was given, provided its globs
    are single non-empty lines: it is accepted exactly when its title has a
    letter or digit and no listed game has the same normalized title, refused
    without any change otherwise, and removing its normalized title takes it
    out again. *)
Theorem custom_games_come_back g (st : LocalState) :
  clean_game g →
  let norm := normalize_title (cg_title g) in
  if decide (norm ≠ "" ∧ norm ∉ map norm_title (custom_games st)) then
    ∃ st', add_custom_game g st = (Ok tt, st') ∧ list_custom_games st' ≡ₚ g :: list_custom_games st ∧
      list_custom_games (remove_custom_game norm st') ≡ₚ list_custom_games st
  else ∃ m, add_custom_game g st = (Err m, st).
Proof.
  intros [Hi He] norm. unfold add_custom_game. fold norm.
  assert (Hex : existsb (λ r, bool_decide (norm_title r = norm)) (custom_games st) = bool_decide (norm ∈ map norm_title (custom_games st))).
  { induction (custom_games st) as [|r l IH]; [by rewrite bool_decide_eq_false_2 by apply not_elem_of_nil|].
    simpl. rewrite IH. destruct (decide (norm_title r = norm)) as [Hr|Hr].
    - rewrite (bool_decide_eq_true_2 _ Hr). symmetry. apply bool_decide_eq_true_2. rewrite Hr. apply list_elem_of_here.
    - rewrite (bool_decide_eq_false_2 _ Hr). apply bool_decide_ext. rewrite elem_of_cons. naive_solver. }
  destruct (decide (norm = "")) as [E|E].
  { rewrite decide_False by naive_solver. eauto. }
  rewrite Hex. destruct (decide (norm ∈ map norm_title (custom_games st))) as [Hin|Hni].
  { rewrite decide_False by naive_solver. rewrite bool_decide_eq_true_2 by done. eauto. }
  rewrite decide_True by done. rewrite bool_decide_eq_false_2 by done. eexists. split; [done|].
  set (row := {| norm_title := norm |}).
  assert (Hrow : read_custom row = g) by (destruct g; unfold read_custom, row; simpl in *; by rewrite !globs_roundtrip).
  rewrite !list_custom_perm. cbn [custom_games with_custom_games remove_custom_game]. split.
  - rewrite map_app. cbn [map]. rewrite Hrow. symmetry. apply Permutation_cons_append.
  - rewrite List.filter_app. simpl. rewrite bool_decide_eq_true_2 by done. simpl. rewrite app_nil_r.
    rewrite forallb_filter_id; [done|]. apply forallb_forall. intros r Hr%list_elem_of_In.
    rewrite bool_decide_eq_false_2; [done|]. intros Hn. apply Hni. rewrite <- Hn. by apply list_elem_of_fmap_2.
Qed.

Definition my_game_entry : CustomGame := {|
  cg_title := "My Game!"; cg_install_path := None; cg_save_root := "/s"; include := ["*.sav"; "cfg/*"]; exclude := [] |}.

Lemma custom_games_come_back_witness :
  ∃ st', add_custom_game my_game_entry LocalState_open = (Ok tt, st') ∧ list_custom_games st' ≡ₚ [my_game_entry].
Proof.
  assert (Hc : clean_game my_game_entry) by (split; repeat constructor; done).
  pose proof (custom_games_come_back my_game_entry LocalState_open Hc) as Hg. cbv zeta in Hg.
  rewrite decide_True in Hg; [|split; [done|apply not_elem_of_nil]].
  destruct Hg as (st' & Ha & Hl & _). exists st'. split; [exact Ha|exact Hl].
Defined.
